(* ===== verification/_CoqProject ===== *)
-Q . S2P
Prelude.v
HwOffsets.v
BootArgs.v
IOReturn.v
Kernel.v
SimKernel.v
Forcewake.v
GGTT.v
CommandStream.v
Service.v
ServiceRegs.v
ServiceLife.v
UserClient.v
Xectl.v
Race.v
Builtins.v
Bits.v
Ring.v
Lists.v
KernQueue.v
ElementQueue.v
CircleQueue.v
SysQueue.v
SysQueueSpec.v
SysQueueRefine.v
PriorityQueue.v
PriorityQueueSpec.v
SearchList.v
SplayTree.v
SplayTreeSpec.v
RBTree.v
RBTreeSpec.v
RBFixup.v
RBOperations.v
RBContract.v
ByteOrder.v
KCTypes.v
KCData.v
KCDataSpec.v
Kmod.v
