(* ===== verification/Prelude.v ===== *)
(** * Verification of XePCI

    XePCI is a macOS kernel extension for Intel Xe graphics (a bring-up driver
    that maps BAR0, reads registers and hands out buffer objects), the command
    line tool [xectl] that talks to it, and the MacKernelSDK it is built with.
    This library models the driver and the tool completely, and of the SDK the
    code it contains (as opposed to declarations of code that lives in the
    kernel): the compiler runtime, the kext entry points, byte order, bit
    fields and bitmaps, the intrusive list headers, the priority queue, the
    splay and red-black trees and the kcdata format.

    ** How the parts interact

    [IOKit] creates an [XeService] for the PCI device and calls [init],
    [probe], [start], [stop], [free].  [start] enables the device, maps BAR0,
    reads configuration and registers and creates the registry of buffer
    objects.  A process opens an [XeUserClient]; its [externalMethod] checks
    the argument counts against a table and calls a handler, which calls the
    [uc*] method of the service.  Register access goes through checked
    accessors; access to the GT is bracketed by a [ForcewakeGuard]; boot
    arguments switch parts of the driver off.  [xectl] makes the calls from
    user space.

    ** Files

    - [Prelude]: machine integers, arrays as lists, the state monad with
      faults ([M], [wp]) and its rules.  A fault is undefined behaviour of the
      C code: a null, unmapped or out-of-bounds access.
    - [HwOffsets]: the constants of [src/kexts/xe_hw_offsets.hpp].
    - [IOReturn]: error numbers of [IOKit/IOReturn.h] and [mach/error.h].
    - [BootArgs]: [src/kexts/XeBootArgs.cpp], the in-place tokenizer.
    - [Kernel]: the interface to the machine.  The class [Device] has the
      device's answer to a load, a store and a delay; [Kernel] has the kernel
      services (reference counts, mappings, allocation), each with its laws as
      a class.  Programs run on a [world] of device, kernel, service and a
      trace of register accesses.  [SimKernel] has a concrete device and
      kernel that satisfy the laws, used by the witnesses.
    - [Forcewake], [GGTT], [CommandStream]: [ForcewakeGuard.hpp],
      [XeGGTT.hpp], [XeCommandStream.cpp].
    - [Service]: all of [XeService.cpp] and the accessors of
      [XeService.hpp]; [ServiceRegs] and [ServiceLife] have its theorems.
    - [UserClient]: [XeUserClient.cpp] and [newUserClient].
    - [Xectl]: [src/userspace/xectl.c], every command [main] can run and
      [main]; the IOKit library is a parameter with two laws, that it reports
      no more scalars than asked for and, for the end-to-end theorem, that a
      call reaches the driver's [externalMethod] and its answer the caller.
    - [Race]: two threads inside [ucCreateBuffer] as a step relation.
    - [Builtins]: [MacKernelSDK/Library/kmod/i386_builtins.c].
    - [Kmod]: the [_start] and [_stop] routines beside it.
    - [Bits]: [kern/bits.h].  [ByteOrder]: [libkern/OSByteOrder.h], the files
      it includes, [sys/_endian.h] and [architecture/byte_order.h].
    - [Ring], [Lists]: pointer memory, rings of links of any [shape], and any
      number of lists in one memory; the theory the list headers share.
    - [KernQueue], [ElementQueue]: the entry functions and the element macros
      of [kern/queue.h].  [CircleQueue]: [kern/circle_queue.h].
    - [SysQueue]: the macros of [sys/queue.h] (SLIST, STAILQ, LIST, TAILQ,
      CIRCLEQ); [SysQueueSpec] and [SysQueueRefine] have their theory.
    - [PriorityQueue]: the pairing heap of [kern/priority_queue.h], with the
      comparison block and [pqueue_pair_meld], which the header only declares,
      as parameters; [PriorityQueueSpec] has the classes [Ranked] and [Melds]
      with their laws, instances of both, and the theorems.
    - [SplayTree], [RBTree]: the trees of [libkern/tree.h], every [SPLAY_] and
      [RB_] macro, with the comparison of elements as a parameter.
      [SearchList] has the class [Orders], the law of that comparison, and the
      sorted lists both stand for; [SplayTreeSpec] has the theorems on splay
      trees.  For red-black trees [RBTreeSpec] has coloured trees with a focus,
      how memory holds them and the rotations, [RBFixup] the colour conditions,
      the height they give and the two repairs, [RBOperations] searches, walks,
      insertion and removal, [RBContract] the contract and the loops.
    - [KCTypes], [KCData]: the numbers and structures of [kern/kcdata.h] and
      its iterators over untrusted buffers; [KCDataSpec] has the parser they
      implement and the theorems.

    ** What the theorems show

    - Driver: on a PCI device whose BAR0, when it can be mapped, is empty or at
      least 0x100008 bytes in whole dwords, from a fresh service no step of the
      life cycle and no request from user space, whatever its selector and
      arguments, makes the driver fault; [start] ends in one of four ways the
      kernel's answers decide; register accesses stay inside BAR0; what is allocated is released
      by [stop]; cookies name the buffers they were given for; strict-safe mode
      never writes; each handler returns exactly what it promises, with a
      result for every refusal.
    - Components: the tokenizer computes the comma-separated specification;
      a forcewake section releases exactly what its constructor saw
      acknowledged; the batch written is the one intended;
      fence reads stay in the fence block; the register map is sound.
    - Tool: for any library that keeps to the array sizes it is given [main]
      ends with every port released; over any library that delivers calls to
      the driver [regdump] and [mkbuf] print what the device and the driver
      hold.
    - Failures: theorems state where the code does not do what it means to (a
      forcewake request kept after a timeout, a leak when the registry cannot
      be allocated, faults on a short BAR0, and a race that gives one cookie to
      two clients; priorities above 127 that rank below 0, and results of the
      priority queue that are not those its comments announce; a 32-bit sum
      that defeats a check of the kcdata data).
    - SDK: the builtins are the arithmetic operations at 64 bits; bitmaps are
      sets; ordered memory accesses do not depend on the host; each list
      header, on any program of its operations and any number of lists in one
      memory, is the corresponding program on lists, writes nothing else, and
      its loops end, the safe ones for bodies that take members out and
      overwrite them; the kext entry points run the C++ runtime and the kext's
      routines in the right order, whatever those do; the operations of the priority queue keep its tree
      ordered and give the element of highest rank; the operations of both
      kinds of search tree work on the sorted list of the elements and write
      nothing else, and those of the red-black tree keep its colours and hence
      its height at most [2 lg (n + 1)]; the kcdata iterators visit
      exactly the items of any buffer outside the last 4 GiB of the address
      space and never leave it, and the structures
      and numbers of the format keep the invariants its header demands.

    ** Bounds and fuel

    Integers are [Z] with explicit wrap at 32 or 64 bits.  Loops that are not
    structural take fuel: the tokenizer at most the length of its buffer, the
    forcewake poll the number of iterations in the code, list loops one round
    per member and one for the final test, [SLIST_REMOVE] and [STAILQ_REMOVE]
    as many rounds as there are nodes, a splay as many as there are elements,
    the loops of the red-black trees more than [2 lg (n + 1)], which only the
    colours make enough, the loop over kcdata items more rounds than the buffer
    has bytes.  Every theorem about them says that this much
    fuel gives the result.

    ** Not modelled

    Build files and the property list; the declarations of the SDK whose code
    is in the kernel, which enter as parameters with laws; the debug variants
    of the list macros ([QUEUE_MACRO_DEBUG]) and the static initializers of lists
    and trees;
    [cmd_gtconfig] of [xectl.c], which names an undeclared constant;
    [priority_queue_destroy], whose code is in the kernel, and
    [priority_queue_min_key], which does not compile; definitions of
    [RB_AUGMENT] by users of [libkern/tree.h] (the one of the header is). *)

From Stdlib Require Import ZArith Lia Bool List String Ascii.
From stdpp Require Import base option list.
Import ListNotations.

Declare Scope xe_scope.
Delimit Scope xe_scope with xe.
Open Scope Z_scope.

(** * Prelude: the shared base *)

(** ** Machine integers *)

(** [uint32_t] and [uint64_t] values are kept as [Z] in range; an operation
    that can leave the range is followed by the explicit wrap. *)
Definition wrap32 (z : Z) : Z := z mod 2 ^ 32.
Definition wrap64 (z : Z) : Z := z mod 2 ^ 64.
Definition is_u32 (z : Z) : Prop := 0 <= z < 2 ^ 32.
Definition is_u64 (z : Z) : Prop := 0 <= z < 2 ^ 64.

(** [to_s64 z] reads a 64-bit pattern as a two's complement number; [to_s32]
    does the same at 32 bits. *)
Definition to_s64 (z : Z) : Z := if wrap64 z <? 2 ^ 63 then wrap64 z else wrap64 z - 2 ^ 64.
Definition to_s32 (z : Z) : Z := if wrap32 z <? 2 ^ 31 then wrap32 z else wrap32 z - 2 ^ 32.

Lemma wrap32_small z : 0 <= z < 2 ^ 32 -> wrap32 z = z.
Proof. apply Z.mod_small. Qed.

Lemma wrap64_small z : 0 <= z < 2 ^ 64 -> wrap64 z = z.
Proof. apply Z.mod_small. Qed.

Lemma wrap32_range z : 0 <= wrap32 z < 2 ^ 32.
Proof. apply Z.mod_pos_bound. lia. Qed.

Lemma wrap64_range z : 0 <= wrap64 z < 2 ^ 64.
Proof. apply Z.mod_pos_bound. lia. Qed.

(** A C condition [x & m] used as a truth value. *)
Definition flag (x m : Z) : bool := negb (Z.land x m =? 0).

(** Fields at disjoint bit positions: the bitwise or is a sum. *)
Lemma lor_fields a b c k : 0 <= k -> 0 <= c < 2 ^ k -> a = b * 2 ^ k -> Z.lor a c = a + c.
Proof.
  intros Hk Hc ->. rewrite <- Z.shiftl_mul_pow2 by lia.
  assert (Hd : Z.land (Z.shiftl b k) c = 0).
  { apply Z.bits_inj'. intros n Hn. rewrite Z.land_spec, Z.bits_0, Z.shiftl_spec by lia.
    destruct (Z.lt_ge_cases n k) as [Hlt|Hge].
    - rewrite (Z.testbit_neg_r b) by lia. reflexivity.
    - rewrite <- (Z.mod_small c (2 ^ k)), Z.mod_pow2_bits_high by lia. apply andb_false_r. }
  rewrite <- Z.lxor_lor by done. symmetry. by apply Z.add_nocarry_lxor.
Qed.

(** ** Lists as arrays *)

Lemma list_insert_middle {A} (l1 l2 : list A) (i : nat) (x y : A) :
  i = length l1 -> <[i := x]> (l1 ++ y :: l2) = l1 ++ x :: l2.
Proof. intros ->. rewrite insert_app_r_alt by lia. by rewrite Nat.sub_diag. Qed.

Lemma app_cons_snoc {A} (l1 l2 : list A) (x : A) : l1 ++ x :: l2 = (l1 ++ [x]) ++ l2.
Proof. by rewrite <- app_assoc. Qed.

Lemma length_snoc {A} (l : list A) (x : A) : length (l ++ [x]) = S (length l).
Proof. rewrite length_app. simpl. lia. Qed.

Lemma forallb_take {A} (f : A -> bool) (l : list A) : forall n,
  forallb f l = true -> forallb f (take n l) = true.
Proof.
  induction l as [|x l IH]; intros [|n]; simpl; auto.
  intros [-> Hl]%andb_true_iff. simpl. auto.
Qed.

(** ** The state monad with faults

    A computation reads and writes a state [S] and either finishes with a
    value or faults.  A fault stands for undefined behaviour of the C code (a
    null or out-of-bounds access): in the kernel it is a panic. *)
Inductive outcome (S A : Type) : Type :=
| Done (a : A) (s : S)
| Fault (s : S).
Arguments Done {S A} _ _.
Arguments Fault {S A} _.

Definition M (S A : Type) : Type := S -> outcome S A.

Definition ret {S A} (a : A) : M S A := fun s => Done a s.
Definition fault {S A} : M S A := fun s => Fault s.
Definition bind {S A B} (m : M S A) (k : A -> M S B) : M S B :=
  fun s => match m s with Done a s' => k a s' | Fault s' => Fault s' end.
Definition gets {S A} (f : S -> A) : M S A := fun s => Done (f s) s.
Definition modify {S} (f : S -> S) : M S unit := fun s => Done tt (f s).
(** Guarded command: [when b m] is C's [if (b) m;]. *)
Definition when {S} (b : bool) (m : M S unit) : M S unit := if b then m else ret tt.

Notation "x <- m ;; k" := (bind m (fun x => k))
  (at level 98, m at next level, right associativity) : xe_scope.
Notation "m ;;; k" := (bind m (fun _ => k))
  (at level 98, right associativity) : xe_scope.
Open Scope xe_scope.

(** Total-correctness weakest precondition: no fault, and the postcondition. *)
Definition wp {S A} (m : M S A) (Q : A -> S -> Prop) (s : S) : Prop :=
  match m s with Done a s' => Q a s' | Fault _ => False end.

Section WpRules.
Context {S : Type}.
Implicit Types s : S.

Lemma wp_ret {A} (a : A) (Q : A -> S -> Prop) s : Q a s -> wp (ret a) Q s.
Proof. exact (fun H => H). Qed.

Lemma wp_bind {A B} (m : M S A) (k : A -> M S B) (Q : B -> S -> Prop) s :
  wp m (fun a s' => wp (k a) Q s') s -> wp (bind m k) Q s.
Proof. unfold wp, bind. by destruct (m s). Qed.

Lemma wp_gets {A} (f : S -> A) (Q : A -> S -> Prop) s : Q (f s) s -> wp (gets f) Q s.
Proof. exact (fun H => H). Qed.

Lemma wp_modify (f : S -> S) (Q : unit -> S -> Prop) s : Q tt (f s) -> wp (modify f) Q s.
Proof. exact (fun H => H). Qed.

Lemma wp_mono {A} (m : M S A) (P Q : A -> S -> Prop) s :
  wp m P s -> (forall a s', P a s' -> Q a s') -> wp m Q s.
Proof. unfold wp. destruct (m s); auto. Qed.

Lemma wp_when (b : bool) (m : M S unit) (Q : unit -> S -> Prop) s :
  (b = true -> wp m Q s) -> (b = false -> Q tt s) -> wp (when b m) Q s.
Proof. destruct b; unfold when; auto using wp_ret. Qed.

Lemma wp_if {A} (b : bool) (m1 m2 : M S A) (Q : A -> S -> Prop) s :
  (b = true -> wp m1 Q s) -> (b = false -> wp m2 Q s) -> wp (if b then m1 else m2) Q s.
Proof. destruct b; auto. Qed.

(** A [wp] fact is an execution: the run exists and its result satisfies [Q]. *)
Lemma wp_run {A} (m : M S A) (Q : A -> S -> Prop) s :
  wp m Q s <-> exists a s', m s = Done a s' /\ Q a s'.
Proof.
  unfold wp. split.
  - destruct (m s) as [a s'|]; [eauto | done].
  - intros (a & s' & -> & H). exact H.
Qed.

Lemma wp_conj {A} (m : M S A) (P Q : A -> S -> Prop) s :
  wp m P s -> wp m Q s -> wp m (fun a s' => P a s' /\ Q a s') s.
Proof. unfold wp. destruct (m s); auto. Qed.

(** The run ends in a fault. *)
Definition faults {A} (m : M S A) s : Prop := exists s', m s = Fault s'.

Lemma faults_here {A B} (m : M S A) (k : A -> M S B) s : faults m s -> faults (bind m k) s.
Proof. intros [s' H]. exists s'. unfold bind. by rewrite H. Qed.

Lemma faults_later {A B} (m : M S A) (k : A -> M S B) s :
  wp m (fun a s' => faults (k a) s') s -> faults (bind m k) s.
Proof. unfold wp, faults, bind. destruct (m s); [done|eauto]. Qed.

End WpRules.

Create HintDb xe discriminated.
#[export] Hint Resolve wp_ret wp_gets wp_modify : xe.
