(* ===== verification/HwOffsets.v ===== *)
(** * HwOffsets: the register map of [src/kexts/xe_hw_offsets.hpp]

    Module [XeHW] is the header's namespace of the same name, constant by
    constant and in its order; module [XeHW.RaptorLakeMode] is the nested
    namespace with the display mode decoded from the register dump.  The
    driver reaches every register through these constants only, so the
    facts proved here (all offsets are dword aligned, pairwise distinct and
    below the 16 MiB window) are what makes the bounds checks of the
    accessors pass. *)

From Stdlib Require Import ZArith Lia Bool List.
From stdpp Require Import base list.
From S2P Require Import Prelude.
Import ListNotations.

Module XeHW.


(* Basic Device Identification Registers (common to all Intel GPUs) *)
Definition DEVICE_ID_REG0 : Z := 0x00000000.
Definition DEVICE_ID_REG1 : Z := 0x00000004.
Definition DEVICE_ID_REG2 : Z := 0x00000010.
Definition DEVICE_ID_REG3 : Z := 0x00000014.
Definition DEVICE_ID_REG4 : Z := 0x00000100.
Definition DEVICE_ID_REG5 : Z := 0x00000104.

(* Engine / Ring Registers (Gen12) *)

(* Verified from Linux dump: *)
Definition RCS0_BASE : Z := 0x00002000.

(* Common Gen11+/Gen12 ring register layout (relative to engine base) *)
Definition RCS0_RING_TAIL : Z := RCS0_BASE + 0x30.
Definition RCS0_RING_HEAD : Z := RCS0_BASE + 0x34.
Definition RCS0_RING_CTL : Z := RCS0_BASE + 0x2C.
Definition RCS0_MI_MODE : Z := RCS0_BASE + 0x9C.
Definition GFX_MODE : Z := 0x00002500.

(* Page-table control (PGTBL_CTL). 0x2020 is a long-standing location. *)
Definition PGTBL_CTL : Z := 0x00002020.

(* Typical aperture size (256MB from lspci BAR2) *)
Definition GGTT_ApertureBytes : Z := 256 * 1024 * 1024.

(* MI opcodes *)
Definition MI_NOOP : Z := 0x00000000.
Definition MI_BATCH_BUFFER_END : Z := 0x0A000000.

(* Forcewake Registers (Gen12 Raptor Lake) *)

(* Verified from raptor_lake_regs.txt dump *)

(* Forcewake MT pair (commonly used since Gen9+) *)
Definition FORCEWAKE_REQ : Z := 0x000A188.
Definition FORCEWAKE_ACK : Z := 0x000A18C.

(* Power Management Registers (from raptor_lake_regs.txt) *)

(* Render P-state control *)
Definition GEN6_RP_CONTROL : Z := 0x0000A024.
Definition GEN6_RPNSWREQ : Z := 0x0000A008.
Definition GEN6_RP_DOWN_TIMEOUT : Z := 0x0000A010.
Definition GEN6_RP_INTERRUPT_LIMITS : Z := 0x0000A014.
Definition GEN6_RP_UP_THRESHOLD : Z := 0x0000A02C.
Definition GEN6_RP_UP_EI : Z := 0x0000A068.
Definition GEN6_RP_DOWN_EI : Z := 0x0000A06C.
Definition GEN6_RP_IDLE_HYSTERESIS : Z := 0x0000A070.

(* RC state control *)
Definition GEN6_RC_STATE : Z := 0x0000A094.
Definition GEN6_RC_CONTROL : Z := 0x0000A090.
Definition GEN6_RC1_WAKE_RATE_LIMIT : Z := 0x0000A098.
Definition GEN6_RC6_WAKE_RATE_LIMIT : Z := 0x0000A09C.
Definition GEN6_RC_EVALUATION_INTERVAL : Z := 0x0000A0A8.
Definition GEN6_RC_IDLE_HYSTERESIS : Z := 0x0000A0AC.
Definition GEN6_RC_SLEEP : Z := 0x0000A0B0.
Definition GEN6_RC1e_THRESHOLD : Z := 0x0000A0B4.
Definition GEN6_RC6_THRESHOLD : Z := 0x0000A0B8.
Definition GEN6_RC_VIDEO_FREQ : Z := 0x0000A00C.

(* PM interrupt registers *)
Definition GEN6_PMIER : Z := 0x0004402C.
Definition GEN6_PMIMR : Z := 0x00044024.
Definition GEN6_PMINTRMSK : Z := 0x0000A168.

(* Power Well Control Registers (HSW+, from raptor_lake_regs.txt) *)
Definition HSW_PWR_WELL_CTL1 : Z := 0x00045400.
Definition HSW_PWR_WELL_CTL2 : Z := 0x00045404.
Definition HSW_PWR_WELL_CTL3 : Z := 0x00045408.
Definition HSW_PWR_WELL_CTL4 : Z := 0x0004540C.
Definition HSW_PWR_WELL_CTL5 : Z := 0x00045410.
Definition HSW_PWR_WELL_CTL6 : Z := 0x00045414.

(* Fence Registers (for tiled memory, from raptor_lake_regs.txt) *)
Definition FENCE_REG_BASE : Z := 0x00100000.
Definition FENCE_REG_COUNT : Z := 32.

(* Each fence has START (base + n*8) and END (base + n*8 + 4) *)
Definition FENCE_START (n : Z) : Z := wrap32 (FENCE_REG_BASE + wrap32 (n * 8)).
Definition FENCE_END (n : Z) : Z := wrap32 (wrap32 (FENCE_REG_BASE + wrap32 (n * 8)) + 4).

(* Display Pipeline Registers - DDI/Transcoder (from raptor_lake_regs.txt) *)

(* DDI Function Control (per pipe) *)
Definition PIPE_DDI_FUNC_CTL_A : Z := 0x00060400.
Definition PIPE_DDI_FUNC_CTL_B : Z := 0x00061400.
Definition PIPE_DDI_FUNC_CTL_C : Z := 0x00062400.
Definition PIPE_DDI_FUNC_CTL_EDP : Z := 0x0006F400.

(* DDI Buffer Control *)
Definition DDI_BUF_CTL_A : Z := 0x00064000.
Definition DDI_BUF_CTL_B : Z := 0x00064100.
Definition DDI_BUF_CTL_C : Z := 0x00064200.
Definition DDI_BUF_CTL_D : Z := 0x00064300.
Definition DDI_BUF_CTL_E : Z := 0x00064400.

(* DP Transport Control *)
Definition DP_TP_CTL_A : Z := 0x00064040.
Definition DP_TP_CTL_B : Z := 0x00064140.
Definition DP_TP_CTL_C : Z := 0x00064240.
Definition DP_TP_CTL_D : Z := 0x00064340.
Definition DP_TP_CTL_E : Z := 0x00064440.

(* DP Transport Status *)
Definition DP_TP_STATUS_B : Z := 0x00064144.
Definition DP_TP_STATUS_C : Z := 0x00064244.
Definition DP_TP_STATUS_D : Z := 0x00064344.
Definition DP_TP_STATUS_E : Z := 0x00064444.

(* Display Timing Registers - Pipe A (from raptor_lake_regs.txt @ 2560x1600) *)

(* Horizontal timing *)
Definition HTOTAL_A : Z := 0x00060000.
Definition HBLANK_A : Z := 0x00060004.
Definition HSYNC_A : Z := 0x00060008.

(* Vertical timing *)
Definition VTOTAL_A : Z := 0x0006000C.
Definition VBLANK_A : Z := 0x00060010.
Definition VSYNC_A : Z := 0x00060014.
Definition VSYNCSHIFT_A : Z := 0x00060028.

(* Data/Link M/N values (for DP link rate calculation) *)
Definition PIPEA_DATA_M1 : Z := 0x00060030.
Definition PIPEA_DATA_N1 : Z := 0x00060034.
Definition PIPEA_LINK_M1 : Z := 0x00060040.
Definition PIPEA_LINK_N1 : Z := 0x00060044.

(* Display Timing Registers - Pipe B *)
Definition HTOTAL_B : Z := 0x00061000.
Definition HBLANK_B : Z := 0x00061004.
Definition HSYNC_B : Z := 0x00061008.
Definition VTOTAL_B : Z := 0x0006100C.
Definition VBLANK_B : Z := 0x00061010.
Definition VSYNC_B : Z := 0x00061014.
Definition VSYNCSHIFT_B : Z := 0x00061028.
Definition PIPEB_DATA_M1 : Z := 0x00061030.
Definition PIPEB_DATA_N1 : Z := 0x00061034.
Definition PIPEB_LINK_M1 : Z := 0x00061040.
Definition PIPEB_LINK_N1 : Z := 0x00061044.

(* Display Timing Registers - Pipe C *)
Definition HTOTAL_C : Z := 0x00062000.
Definition HBLANK_C : Z := 0x00062004.
Definition HSYNC_C : Z := 0x00062008.
Definition VTOTAL_C : Z := 0x0006200C.
Definition VBLANK_C : Z := 0x00062010.
Definition VSYNC_C : Z := 0x00062014.
Definition VSYNCSHIFT_C : Z := 0x00062028.
Definition PIPEC_DATA_M1 : Z := 0x00062030.
Definition PIPEC_DATA_N1 : Z := 0x00062034.
Definition PIPEC_LINK_M1 : Z := 0x00062040.
Definition PIPEC_LINK_N1 : Z := 0x00062044.

(* Display Timing Registers - EDP Pipe *)
Definition HTOTAL_EDP : Z := 0x0006F000.
Definition HBLANK_EDP : Z := 0x0006F004.
Definition HSYNC_EDP : Z := 0x0006F008.
Definition VTOTAL_EDP : Z := 0x0006F00C.
Definition VBLANK_EDP : Z := 0x0006F010.
Definition VSYNC_EDP : Z := 0x0006F014.
Definition VSYNCSHIFT_EDP : Z := 0x0006F028.
Definition PIPEEDP_DATA_M1 : Z := 0x0006F030.
Definition PIPEEDP_DATA_N1 : Z := 0x0006F034.
Definition PIPEEDP_LINK_M1 : Z := 0x0006F040.
Definition PIPEEDP_LINK_N1 : Z := 0x0006F044.

(* Pipe/Plane Source Size Registers (from raptor_lake_regs.txt) *)
Definition PIPEASRC : Z := 0x0006001C.
Definition PIPEBSRC : Z := 0x0006101C.
Definition PIPECSRC : Z := 0x0006201C.

(* Pipe Configuration Registers (from raptor_lake_regs.txt) *)
Definition PIPEACONF : Z := 0x00070008.
Definition PIPEBCONF : Z := 0x00071008.
Definition PIPECCONF : Z := 0x00072008.
Definition PIPEEDPCONF : Z := 0x0007F008.

(* Display Plane Control Registers (from raptor_lake_regs.txt) *)

(* Plane A (Primary) *)
Definition DSPACNTR : Z := 0x00070180.
Definition DSPASTRIDE : Z := 0x00070188.
Definition DSPASURF : Z := 0x0007019C.
Definition DSPATILEOFF : Z := 0x000701A4.

(* Plane B *)
Definition DSPBCNTR : Z := 0x00071180.
Definition DSPBSTRIDE : Z := 0x00071188.
Definition DSPBSURF : Z := 0x0007119C.
Definition DSPBTILEOFF : Z := 0x000711A4.

(* Plane C *)
Definition DSPCCNTR : Z := 0x00072180.
Definition DSPCSTRIDE : Z := 0x00072188.
Definition DSPCSURF : Z := 0x0007219C.
Definition DSPCTILEOFF : Z := 0x000721A4.

(* Panel Fitter Registers (from raptor_lake_regs.txt) *)

(* Pipe A scaler *)
Definition PFA_CTL_1 : Z := 0x00068080.
Definition PFA_WIN_POS : Z := 0x00068070.
Definition PFA_WIN_SIZE : Z := 0x00068074.

(* Pipe B scaler *)
Definition PFB_CTL_1 : Z := 0x00068880.
Definition PFB_WIN_POS : Z := 0x00068870.
Definition PFB_WIN_SIZE : Z := 0x00068874.

(* Pipe C scaler *)
Definition PFC_CTL_1 : Z := 0x00069080.
Definition PFC_WIN_POS : Z := 0x00069070.
Definition PFC_WIN_SIZE : Z := 0x00069074.

(* Transcoder Registers (from raptor_lake_regs.txt) *)
Definition TRANS_HTOTAL_A : Z := 0x000E0000.
Definition TRANS_HBLANK_A : Z := 0x000E0004.
Definition TRANS_HSYNC_A : Z := 0x000E0008.
Definition TRANS_VTOTAL_A : Z := 0x000E000C.
Definition TRANS_VBLANK_A : Z := 0x000E0010.
Definition TRANS_VSYNC_A : Z := 0x000E0014.
Definition TRANS_VSYNCSHIFT_A : Z := 0x000E0028.
Definition TRANSACONF : Z := 0x000F0008.
Definition FDI_RXA_MISC : Z := 0x000F0010.
Definition FDI_RXA_TUSIZE1 : Z := 0x000F0030.
Definition FDI_RXA_IIR : Z := 0x000F0014.
Definition FDI_RXA_IMR : Z := 0x000F0018.

(* Clock Registers (from raptor_lake_regs.txt) *)
Definition SPLL_CTL : Z := 0x00046020.
Definition LCPLL_CTL : Z := 0x00130040.
Definition WRPLL_CTL1 : Z := 0x00046040.
Definition WRPLL_CTL2 : Z := 0x00046060.

(* Port clock selection *)
Definition PORT_CLK_SEL_A : Z := 0x00046100.
Definition PORT_CLK_SEL_B : Z := 0x00046104.
Definition PORT_CLK_SEL_C : Z := 0x00046108.
Definition PORT_CLK_SEL_D : Z := 0x0004610C.
Definition PORT_CLK_SEL_E : Z := 0x00046110.

(* Pipe clock selection *)
Definition PIPE_CLK_SEL_A : Z := 0x00046140.
Definition PIPE_CLK_SEL_B : Z := 0x00046144.
Definition PIPE_CLK_SEL_C : Z := 0x00046148.

(* Watermark Registers (from raptor_lake_regs.txt) *)
Definition WM_PIPE_A : Z := 0x00045100.
Definition WM_PIPE_B : Z := 0x00045104.
Definition WM_PIPE_C : Z := 0x00045200.
Definition WM_LP1 : Z := 0x00045108.
Definition WM_LP2 : Z := 0x0004510C.
Definition WM_LP3 : Z := 0x00045110.
Definition WM_LP1_SPR : Z := 0x00045120.
Definition WM_LP2_SPR : Z := 0x00045124.
Definition WM_LP3_SPR : Z := 0x00045128.
Definition WM_MISC : Z := 0x00045260.
Definition WM_SR_CNT : Z := 0x00045264.
Definition PIPE_WM_LINETIME_A : Z := 0x00045270.
Definition PIPE_WM_LINETIME_B : Z := 0x00045274.
Definition PIPE_WM_LINETIME_C : Z := 0x00045278.
Definition WM_DBG : Z := 0x00045280.

(* Backlight / PWM Registers (from raptor_lake_regs.txt) *)
Definition BLC_PWM_CPU_CTL2 : Z := 0x00048250.
Definition BLC_PWM_CPU_CTL : Z := 0x00048254.
Definition BLC_PWM2_CPU_CTL2 : Z := 0x00048350.
Definition BLC_PWM2_CPU_CTL : Z := 0x00048354.
Definition BLC_MISC_CTL : Z := 0x00048360.
Definition BLC_PWM_PCH_CTL1 : Z := 0x000C8250.
Definition BLC_PWM_PCH_CTL2 : Z := 0x000C8254.
Definition UTIL_PIN_CTL : Z := 0x00048400.

(* Panel Power Registers (from raptor_lake_regs.txt) *)
Definition PCH_PP_STATUS : Z := 0x000C7200.
Definition PCH_PP_CONTROL : Z := 0x000C7204.
Definition PCH_PP_ON_DELAYS : Z := 0x000C7208.
Definition PCH_PP_OFF_DELAYS : Z := 0x000C720C.
Definition PCH_PP_DIVISOR : Z := 0x000C7210.

(* Other Display Registers (from raptor_lake_regs.txt) *)
Definition SFUSE_STRAP : Z := 0x000C2014.
Definition PIXCLK_GATE : Z := 0x000C6020.
Definition SDEISR : Z := 0x000C4000.

(* RC6 Residency (from raptor_lake_regs.txt) *)
Definition RC6_RESIDENCY_TIME : Z := 0x00138108.

(* Working Display Mode from Raptor Lake dump: 2560x1600@60Hz *)

Module RaptorLakeMode.


(* Parsed from PIPEASRC value 0x09ff063f *)
Definition ACTIVE_WIDTH : Z := 2560.
Definition ACTIVE_HEIGHT : Z := 1600.

(* Parsed from HTOTAL_A value 0x0a9f09ff *)
Definition HTOTAL : Z := 2720.

(* Parsed from VTOTAL_A value 0x06df063f *)
Definition VTOTAL : Z := 1760.

(* Parsed from HSYNC_A value 0x0a4f0a2f *)
Definition HSYNC_START : Z := 2608.
Definition HSYNC_END : Z := 2640.

(* Parsed from VSYNC_A value 0x06480642 *)
Definition VSYNC_START : Z := 1603.
Definition VSYNC_END : Z := 1609.

(* Calculated: Pixel clock = (htotal * vtotal * refresh_rate) *)
Definition PIXEL_CLOCK_KHZ : Z := 287232.

End RaptorLakeMode.


(** Every MMIO register offset the header names, in the header's order (the
    engine and fence bases are addresses too, but of register blocks). *)
Definition named_registers : list Z :=
  [DEVICE_ID_REG0; DEVICE_ID_REG1; DEVICE_ID_REG2; DEVICE_ID_REG3;
   DEVICE_ID_REG4; DEVICE_ID_REG5; RCS0_RING_TAIL; RCS0_RING_HEAD;
   RCS0_RING_CTL; RCS0_MI_MODE; GFX_MODE; PGTBL_CTL;
   FORCEWAKE_REQ; FORCEWAKE_ACK; GEN6_RP_CONTROL; GEN6_RPNSWREQ;
   GEN6_RP_DOWN_TIMEOUT; GEN6_RP_INTERRUPT_LIMITS; GEN6_RP_UP_THRESHOLD; GEN6_RP_UP_EI;
   GEN6_RP_DOWN_EI; GEN6_RP_IDLE_HYSTERESIS; GEN6_RC_STATE; GEN6_RC_CONTROL;
   GEN6_RC1_WAKE_RATE_LIMIT; GEN6_RC6_WAKE_RATE_LIMIT; GEN6_RC_EVALUATION_INTERVAL; GEN6_RC_IDLE_HYSTERESIS;
   GEN6_RC_SLEEP; GEN6_RC1e_THRESHOLD; GEN6_RC6_THRESHOLD; GEN6_RC_VIDEO_FREQ;
   GEN6_PMIER; GEN6_PMIMR; GEN6_PMINTRMSK; HSW_PWR_WELL_CTL1;
   HSW_PWR_WELL_CTL2; HSW_PWR_WELL_CTL3; HSW_PWR_WELL_CTL4; HSW_PWR_WELL_CTL5;
   HSW_PWR_WELL_CTL6; PIPE_DDI_FUNC_CTL_A; PIPE_DDI_FUNC_CTL_B; PIPE_DDI_FUNC_CTL_C;
   PIPE_DDI_FUNC_CTL_EDP; DDI_BUF_CTL_A; DDI_BUF_CTL_B; DDI_BUF_CTL_C;
   DDI_BUF_CTL_D; DDI_BUF_CTL_E; DP_TP_CTL_A; DP_TP_CTL_B;
   DP_TP_CTL_C; DP_TP_CTL_D; DP_TP_CTL_E; DP_TP_STATUS_B;
   DP_TP_STATUS_C; DP_TP_STATUS_D; DP_TP_STATUS_E; HTOTAL_A;
   HBLANK_A; HSYNC_A; VTOTAL_A; VBLANK_A;
   VSYNC_A; VSYNCSHIFT_A; PIPEA_DATA_M1; PIPEA_DATA_N1;
   PIPEA_LINK_M1; PIPEA_LINK_N1; HTOTAL_B; HBLANK_B;
   HSYNC_B; VTOTAL_B; VBLANK_B; VSYNC_B;
   VSYNCSHIFT_B; PIPEB_DATA_M1; PIPEB_DATA_N1; PIPEB_LINK_M1;
   PIPEB_LINK_N1; HTOTAL_C; HBLANK_C; HSYNC_C;
   VTOTAL_C; VBLANK_C; VSYNC_C; VSYNCSHIFT_C;
   PIPEC_DATA_M1; PIPEC_DATA_N1; PIPEC_LINK_M1; PIPEC_LINK_N1;
   HTOTAL_EDP; HBLANK_EDP; HSYNC_EDP; VTOTAL_EDP;
   VBLANK_EDP; VSYNC_EDP; VSYNCSHIFT_EDP; PIPEEDP_DATA_M1;
   PIPEEDP_DATA_N1; PIPEEDP_LINK_M1; PIPEEDP_LINK_N1; PIPEASRC;
   PIPEBSRC; PIPECSRC; PIPEACONF; PIPEBCONF;
   PIPECCONF; PIPEEDPCONF; DSPACNTR; DSPASTRIDE;
   DSPASURF; DSPATILEOFF; DSPBCNTR; DSPBSTRIDE;
   DSPBSURF; DSPBTILEOFF; DSPCCNTR; DSPCSTRIDE;
   DSPCSURF; DSPCTILEOFF; PFA_CTL_1; PFA_WIN_POS;
   PFA_WIN_SIZE; PFB_CTL_1; PFB_WIN_POS; PFB_WIN_SIZE;
   PFC_CTL_1; PFC_WIN_POS; PFC_WIN_SIZE; TRANS_HTOTAL_A;
   TRANS_HBLANK_A; TRANS_HSYNC_A; TRANS_VTOTAL_A; TRANS_VBLANK_A;
   TRANS_VSYNC_A; TRANS_VSYNCSHIFT_A; TRANSACONF; FDI_RXA_MISC;
   FDI_RXA_TUSIZE1; FDI_RXA_IIR; FDI_RXA_IMR; SPLL_CTL;
   LCPLL_CTL; WRPLL_CTL1; WRPLL_CTL2; PORT_CLK_SEL_A;
   PORT_CLK_SEL_B; PORT_CLK_SEL_C; PORT_CLK_SEL_D; PORT_CLK_SEL_E;
   PIPE_CLK_SEL_A; PIPE_CLK_SEL_B; PIPE_CLK_SEL_C; WM_PIPE_A;
   WM_PIPE_B; WM_PIPE_C; WM_LP1; WM_LP2;
   WM_LP3; WM_LP1_SPR; WM_LP2_SPR; WM_LP3_SPR;
   WM_MISC; WM_SR_CNT; PIPE_WM_LINETIME_A; PIPE_WM_LINETIME_B;
   PIPE_WM_LINETIME_C; WM_DBG; BLC_PWM_CPU_CTL2; BLC_PWM_CPU_CTL;
   BLC_PWM2_CPU_CTL2; BLC_PWM2_CPU_CTL; BLC_MISC_CTL; BLC_PWM_PCH_CTL1;
   BLC_PWM_PCH_CTL2; UTIL_PIN_CTL; PCH_PP_STATUS; PCH_PP_CONTROL;
   PCH_PP_ON_DELAYS; PCH_PP_OFF_DELAYS; PCH_PP_DIVISOR; SFUSE_STRAP;
   PIXCLK_GATE; SDEISR; RC6_RESIDENCY_TIME].

(** The largest offset an accessor accepts: [kMaxSafeMMIOOffset] in
    XeService.hpp, repeated as [kForcewakeMaxOffset], [kGGTTMaxOffset] and
    [kCSMaxOffset] in the other translation units. *)
Definition kMaxSafeMMIOOffset : Z := 0x00FFFFFF.

(** One byte past the highest register the driver names: the fence block ends
    below it. *)
Definition register_span : Z := RC6_RESIDENCY_TIME + 4.

(** Decidable form of the register-map sanity condition, for evaluation. *)
Definition register_ok (o : Z) : bool :=
  (0 <=? o) && (o + 4 <=? register_span) && (o mod 4 =? 0) && (o <=? kMaxSafeMMIOOffset).

Lemma named_registers_ok : forallb register_ok named_registers = true.
Proof. vm_compute. reflexivity. Qed.

Lemma register_ok_spec o :
  register_ok o = true -> 0 <= o /\ o + 4 <= register_span /\ o mod 4 = 0 /\ o <= kMaxSafeMMIOOffset.
Proof. unfold register_ok. rewrite !andb_true_iff, !Z.leb_le, Z.eqb_eq. tauto. Qed.

Lemma named_register_bounds o :
  In o named_registers ->
  0 <= o /\ o + 4 <= register_span /\ o mod 4 = 0 /\ o <= kMaxSafeMMIOOffset.
Proof.
  intros Hin. apply register_ok_spec.
  exact (proj1 (forallb_forall _ _) named_registers_ok o Hin).
Qed.

Lemma fence_offsets n :
  0 <= n < FENCE_REG_COUNT ->
  FENCE_START n = FENCE_REG_BASE + 8 * n /\ FENCE_END n = FENCE_REG_BASE + 8 * n + 4.
Proof.
  unfold FENCE_START, FENCE_END, FENCE_REG_COUNT, FENCE_REG_BASE. intros H.
  rewrite (wrap32_small (n * 8)) by lia. rewrite (wrap32_small (_ + n * 8)) by lia.
  rewrite wrap32_small; lia.
Qed.

(** C20. The register map is sound: every named register is a dword-aligned
    offset whose four bytes lie inside the first [register_span] bytes of BAR0
    (hence below the 16 MiB limit of the accessors), no two names share an
    offset, the 32 fence pairs are disjoint from all of them and in range
    too, and the fence arithmetic does not wrap. *)
Theorem register_map_sound :
  (forall o, In o named_registers ->
     0 <= o /\ o + 4 <= register_span /\ o mod 4 = 0 /\ o <= kMaxSafeMMIOOffset) /\
  NoDup named_registers /\
  (forall n, 0 <= n < FENCE_REG_COUNT ->
     FENCE_END n = FENCE_START n + 4 /\ FENCE_START n mod 8 = 0 /\
     FENCE_END n + 4 <= register_span /\
     ~ In (FENCE_START n) named_registers /\ ~ In (FENCE_END n) named_registers).
Proof.
  split; [exact named_register_bounds|]. split.
  - apply (bool_decide_unpack (NoDup named_registers)). vm_compute. exact I.
  - intros n Hn. destruct (fence_offsets n Hn) as [Es Ee].
    assert (Hfar : forall o, In o named_registers -> o < FENCE_REG_BASE \/ FENCE_REG_BASE + 256 <= o).
    { assert (Hb : forallb (fun o => (o <? FENCE_REG_BASE) || (FENCE_REG_BASE + 256 <=? o))
                     named_registers = true) by (vm_compute; reflexivity).
      intros o Ho. apply (proj1 (forallb_forall _ _) Hb) in Ho.
      apply orb_true_iff in Ho. rewrite Z.ltb_lt, Z.leb_le in Ho. exact Ho. }
    rewrite Es, Ee. unfold FENCE_REG_COUNT, register_span, FENCE_REG_BASE, RC6_RESIDENCY_TIME in *.
    split; [lia|].
    split; [replace (0x100000 + 8 * n) with ((131072 + n) * 8) by lia; apply Z.mod_mul; lia|].
    split; [lia|].
    split; intros H; apply Hfar in H; lia.
Qed.

End XeHW.
