(* ===== verification/BootArgs.v ===== *)
(** * BootArgs: the [xepci=] boot argument ([src/kexts/XeBootArgs.cpp])

    The parser works in place on a 128-byte stack buffer: it overwrites each
    comma with a NUL, copies the lower-cased token into a 64-byte array and
    compares it with the four flag names.  The model keeps the buffer and the
    token as arrays, so that an access outside them is a [Fault]; the main
    theorem says that none happens and that the flags are exactly those a
    tokeniser on strings computes.

    [PE_parse_boot_argn] is kernel code: the model takes what it stored in the
    buffer as an argument. *)

From Stdlib Require Import ZArith Lia Bool List String Ascii NArith.
From stdpp Require Import base list strings.
From S2P Require Import Prelude.
Import ListNotations.

Module BootArgs.

(** [struct XeBootFlags], with the in-class initialisers as [default_flags]. *)
Record XeBootFlags : Type := mkFlags {
  verbose : bool;
  disableForcewake : bool;
  disableCommandStream : bool;
  strictSafe : bool
}.

Definition default_flags : XeBootFlags := mkFlags false false false false.

Definition set_verbose (f : XeBootFlags) : XeBootFlags :=
  mkFlags true (disableForcewake f) (disableCommandStream f) (strictSafe f).
Definition set_disableForcewake (f : XeBootFlags) : XeBootFlags :=
  mkFlags (verbose f) true (disableCommandStream f) (strictSafe f).
Definition set_disableCommandStream (f : XeBootFlags) : XeBootFlags :=
  mkFlags (verbose f) (disableForcewake f) true (strictSafe f).
Definition set_strictSafe (f : XeBootFlags) : XeBootFlags :=
  mkFlags (verbose f) (disableForcewake f) (disableCommandStream f) true.

Definition NUL : ascii := Ascii.zero.
Definition comma_char : ascii := ","%char.

(** [xe_tolower]: an upper-case letter moves up by ['a' - 'A']. *)
Definition xe_tolower (c : ascii) : ascii :=
  let n := N_of_ascii c in
  if ((65 <=? n) && (n <=? 90))%N then ascii_of_N (n + (97 - 65)) else c.

Definition is_blank (c : ascii) : bool := (c =? " ")%char || (c =? "009")%char.

(** The parser's state: the local [buf] and the global [gXeBoot]. *)
Record pstate : Type := mkP { buf : list ascii; gXeBoot : XeBootFlags }.

Definition rd (i : nat) : M pstate ascii :=
  fun s => match buf s !! i with Some c => Done c s | None => Fault s end.
Definition wr (i : nat) (c : ascii) : M pstate unit :=
  fun s => match buf s !! i with
           | Some _ => Done tt (mkP (<[i := c]> (buf s)) (gXeBoot s))
           | None => Fault s
           end.
Definition set_flags (f : XeBootFlags -> XeBootFlags) : M pstate unit :=
  modify (fun s => mkP (buf s) (f (gXeBoot s))).

(** The C library's [strchr] from position [p]: the first [c] before the NUL. *)
Fixpoint strchr (fuel p : nat) (c : ascii) : M pstate (option nat) :=
  match fuel with
  | O => fault
  | S fuel' =>
      x <- rd p ;;
      if (x =? c)%char then ret (Some p)
      else if (x =? NUL)%char then ret None
      else strchr fuel' (S p) c
  end.

(** The loop that steps [p] over blanks and tabs. *)
Fixpoint skip_blanks (fuel p : nat) : M pstate nat :=
  match fuel with
  | O => fault
  | S fuel' => c <- rd p ;; if is_blank c then skip_blanks fuel' (S p) else ret p
  end.

(** [while (p[i] && i < sizeof(token)-1) { token[i] = xe_tolower(p[i]); ++i; }] *)
Fixpoint copy_token (fuel p i : nat) (token : list ascii) : M pstate (nat * list ascii) :=
  match fuel with
  | O => fault
  | S fuel' =>
      c <- rd (p + i) ;;
      if negb (c =? NUL)%char && (i <? 63)%nat
      then copy_token fuel' p (S i) (<[i := xe_tolower c]> token)
      else ret (i, token)
  end.

(** [strcmp(a, b) == 0] on two arrays; [None] when it would run past one. *)
Fixpoint strcmp_eq (a b : list ascii) : option bool :=
  match a, b with
  | x :: a', y :: b' =>
      if (x =? y)%char then (if (x =? NUL)%char then Some true else strcmp_eq a' b')
      else Some false
  | _, _ => None
  end.

Definition cstring (s : string) : list ascii := list_ascii_of_string s ++ [NUL].

Definition token_is (token : list ascii) (name : string) : M pstate bool :=
  match strcmp_eq token (cstring name) with Some b => ret b | None => fault end.

(** The [if]/[else if] chain on one token. *)
Definition match_token (token : list ascii) : M pstate unit :=
  b <- token_is token "verbose" ;;
  if b then set_flags set_verbose else
  b <- token_is token "noforcewake" ;;
  if b then set_flags set_disableForcewake else
  b <- token_is token "nocs" ;;
  if b then set_flags set_disableCommandStream else
  b <- token_is token "strictsafe" ;;
  if b then
    set_flags set_strictSafe ;;;
    set_flags set_disableForcewake ;;;
    set_flags set_disableCommandStream
  else ret tt.

(** The [while] loop on [p]; [p] is never null, being [buf] or [comma + 1]. *)
Fixpoint token_loop (fuel p : nat) : M pstate unit :=
  match fuel with
  | O => fault
  | S fuel' =>
      c <- rd p ;;
      if (c =? NUL)%char then ret tt else
      comma <- strchr 128 p comma_char ;;
      match comma with Some q => wr q NUL | None => ret tt end ;;;
      p' <- skip_blanks 128 p ;;
      r <- copy_token 64 p' 0 (replicate 64 NUL) ;;
      match_token (<[fst r := NUL]> (snd r)) ;;;
      match comma with
      | None => ret tt
      | Some q => token_loop fuel' (q + 1)
      end
  end.

(** [XeParseBootArgs()]: [arg] is what [PE_parse_boot_argn("xepci", buf,
    sizeof(buf))] stored in [buf], [None] when it returned false. *)
Definition XeParseBootArgs (arg : option (list ascii)) : M XeBootFlags unit :=
  fun f =>
    match arg with
    | None => Done tt f
    | Some bytes =>
        let buf := bytes ++ drop (List.length bytes) (replicate 128 NUL) in
        match token_loop 128 0 (mkP buf f) with
        | Done _ s => Done tt (gXeBoot s)
        | Fault s => Fault (gXeBoot s)
        end
    end.

(** ** The reference tokeniser *)

Fixpoint split_comma (s : list ascii) : list (list ascii) :=
  match s with
  | [] => [[]]
  | c :: s' =>
      if (c =? comma_char)%char then [] :: split_comma s'
      else match split_comma s' with t :: ts => (c :: t) :: ts | [] => [[c]] end
  end.

Fixpoint trim (t : list ascii) : list ascii :=
  match t with
  | c :: t' => if is_blank c then trim t' else t
  | [] => []
  end.

(** Leading blanks go, the first 63 characters stay, in lower case. *)
Definition normalise (t : list ascii) : list ascii := map xe_tolower (take 63 (trim t)).

Definition apply_token (f : XeBootFlags) (t : list ascii) : XeBootFlags :=
  if bool_decide (t = list_ascii_of_string "verbose") then set_verbose f
  else if bool_decide (t = list_ascii_of_string "noforcewake") then set_disableForcewake f
  else if bool_decide (t = list_ascii_of_string "nocs") then set_disableCommandStream f
  else if bool_decide (t = list_ascii_of_string "strictsafe")
       then set_disableCommandStream (set_disableForcewake (set_strictSafe f))
  else f.

Definition parse_flags (s : list ascii) (f : XeBootFlags) : XeBootFlags :=
  fold_left (fun f t => apply_token f (normalise t)) (split_comma s) f.

(** The characters of a C string before its terminator. *)
Definition no_nul (s : list ascii) : Prop := Forall (fun c => c <> NUL) s.

(** ** Proofs *)

Lemma eqb_NUL_false c : c <> NUL -> (c =? NUL)%char = false.
Proof. intros H. by apply Ascii.eqb_neq. Qed.

Lemma rd_app b f pre c post : b = pre ++ c :: post ->
  rd (List.length pre) (mkP b f) = Done c (mkP b f).
Proof. intros ->. unfold rd. simpl. by rewrite list_lookup_middle. Qed.

Lemma rd_app' b f p pre c post : b = pre ++ c :: post -> p = List.length pre ->
  rd p (mkP b f) = Done c (mkP b f).
Proof. intros Hb ->. eauto using rd_app. Qed.

Lemma wr_app f pre c d post :
  wr (List.length pre) c (mkP (pre ++ d :: post) f) = Done tt (mkP (pre ++ c :: post) f).
Proof.
  unfold wr. simpl. rewrite list_lookup_middle by done. do 2 f_equal.
  by rewrite list_insert_middle.
Qed.

(** [strchr] finds the first comma before the terminator, or none. *)
Lemma strchr_spec t : forall fuel pre x post f,
  no_nul t -> Forall (fun c => c <> comma_char) t ->
  x = comma_char \/ x = NUL ->
  (List.length t < fuel)%nat ->
  strchr fuel (List.length pre) comma_char (mkP (pre ++ t ++ x :: post) f)
  = Done (if (x =? comma_char)%char then Some (List.length pre + List.length t)%nat else None)
         (mkP (pre ++ t ++ x :: post) f).
Proof.
  induction t as [|c t IH]; intros fuel pre x post f Hn Hc Hx Hf;
    (destruct fuel as [|fuel]; [simpl in Hf; lia|]); simpl strchr; unfold bind.
  - rewrite (rd_app _ _ _ x post) by done.
    destruct Hx as [-> | ->]; simpl; rewrite ?Nat.add_0_r; done.
  - inversion_clear Hn. inversion_clear Hc.
    rewrite (rd_app _ _ _ c (t ++ x :: post)) by done.
    replace (c =? comma_char)%char with false by (symmetry; by apply Ascii.eqb_neq).
    rewrite eqb_NUL_false by done.
    simpl app. rewrite (app_cons_snoc pre _ c), <- (length_snoc pre c).
    rewrite IH by (simpl in Hf; auto; lia).
    rewrite length_app. simpl. repeat f_equal. destruct (x =? comma_char)%char; [f_equal; lia|done].
Qed.

Lemma skip_blanks_spec t : forall fuel pre post f,
  no_nul t -> (List.length t < fuel)%nat ->
  exists k, trim t = drop k t /\ (k <= List.length t)%nat /\
  skip_blanks fuel (List.length pre) (mkP (pre ++ t ++ NUL :: post) f)
  = Done (List.length pre + k)%nat (mkP (pre ++ t ++ NUL :: post) f).
Proof.
  induction t as [|c t IH]; intros fuel pre post f Hn Hf;
    (destruct fuel as [|fuel]; [simpl in Hf; lia|]); simpl skip_blanks; unfold bind.
  - exists 0%nat. rewrite (rd_app _ _ _ NUL post) by done. simpl. by rewrite Nat.add_0_r.
  - inversion_clear Hn as [|? ? Hc Ht].
    rewrite (rd_app _ _ _ c (t ++ NUL :: post)) by done.
    simpl trim. destruct (is_blank c) eqn:Hb.
    + simpl app. rewrite (app_cons_snoc pre _ c), <- (length_snoc pre c).
      destruct (IH fuel (pre ++ [c]) post f Ht) as (k & Hk & Hkl & ->); [simpl in Hf; lia|].
      exists (S k). simpl. split; [done|]. split; [lia|].
      f_equal. rewrite length_app. simpl. lia.
    + exists 0%nat. simpl. rewrite Nat.add_0_r. split; [done|]. split; [lia|done].
Qed.

(** The copy loop fills the token with the normalised characters. *)
Lemma copy_token_spec t : forall fuel pre i done_ post f,
  no_nul t -> List.length done_ = i -> (i <= 63)%nat -> (List.length t + i <= 127)%nat ->
  (63 - i < fuel)%nat -> forall p, (p + i)%nat = List.length pre ->
  let u := map xe_tolower (take (63 - i) t) in
  copy_token fuel p i (done_ ++ replicate (64 - i) NUL) (mkP (pre ++ t ++ NUL :: post) f)
  = Done ((i + List.length u)%nat,
          done_ ++ u ++ replicate (64 - i - List.length u) NUL)
         (mkP (pre ++ t ++ NUL :: post) f).
Proof.
  induction t as [|c t IH]; intros fuel pre i dn post f Hn Hi Hle Hlen Hfuel p Hp u;
    (destruct fuel as [|fuel]; [lia|]); cbn [copy_token]; unfold bind.
  - subst u. rewrite take_nil. simpl. rewrite (rd_app' _ _ _ pre NUL post) by done.
    simpl. rewrite Nat.add_0_r, Nat.sub_0_r. done.
  - inversion_clear Hn as [|? ? Hc Ht].
    rewrite (rd_app' _ _ _ pre c (t ++ NUL :: post)) by done.
    rewrite eqb_NUL_false by done.
    destruct (Nat.ltb_spec i 63) as [H63|H63]; cbn [negb andb].
    + subst u. replace (63 - i)%nat with (S (63 - S i)) by lia. cbn [take map].
      replace (<[i:=xe_tolower c]> (dn ++ replicate (64 - i) NUL))
        with ((dn ++ [xe_tolower c]) ++ replicate (64 - S i) NUL).
      2: { rewrite <- Hi at 2. replace (64 - i)%nat with (S (64 - S i)) by lia. simpl.
           rewrite list_insert_middle by done. by rewrite <- app_assoc. }
      change ((c :: t) ++ NUL :: post) with (c :: (t ++ NUL :: post)).
      rewrite (app_cons_snoc pre _ c).
      rewrite IH; [| done | rewrite length_app; simpl; lia | lia | simpl in Hlen; lia | lia |
                    rewrite length_app; simpl; lia].
      rewrite <- !app_assoc. cbn [app List.length].
      repeat first [lia | f_equal].
    + assert (i = 63)%nat as -> by lia. subst u. done.
Qed.

Lemma xe_tolower_nul c : c <> NUL -> xe_tolower c <> NUL.
Proof. destruct c as [[] [] [] [] [] [] [] []]; vm_compute; congruence. Qed.

Lemma normalise_no_nul t : no_nul t -> no_nul (normalise t).
Proof.
  intros H. unfold normalise, no_nul in *. apply Forall_map.
  apply Forall_take. induction H as [|c t Hc Ht IH]; simpl; [constructor|].
  destruct (is_blank c); [done|]. constructor; [by apply xe_tolower_nul|].
  eapply Forall_impl; [exact Ht|]. intros. by apply xe_tolower_nul.
Qed.

(** [strcmp] against a literal decides equality of the C strings. *)
Lemma strcmp_eq_spec a : forall b post post',
  no_nul a -> no_nul b ->
  strcmp_eq (a ++ NUL :: post) (b ++ NUL :: post') = Some (bool_decide (a = b)).
Proof.
  induction a as [|x a IH]; intros [|y b] post post' Ha Hb; cbn [strcmp_eq app].
  - done.
  - inversion_clear Hb. rewrite bool_decide_false by done.
    destruct (Ascii.eqb_spec NUL y); [congruence|done].
  - inversion_clear Ha. rewrite bool_decide_false by done.
    destruct (Ascii.eqb_spec x NUL); [congruence|done].
  - inversion_clear Ha. inversion_clear Hb.
    destruct (Ascii.eqb_spec x y) as [->|Hxy].
    + rewrite eqb_NUL_false by done. rewrite IH by done. f_equal.
      apply bool_decide_ext. split; congruence.
    + rewrite bool_decide_false by congruence. done.
Qed.

Lemma match_token_spec u post b f :
  no_nul u -> match_token (u ++ NUL :: post) (mkP b f) = Done tt (mkP b (apply_token f u)).
Proof.
  intros Hu. unfold match_token, token_is, cstring, apply_token, bind.
  rewrite !strcmp_eq_spec by (try done; repeat constructor; done).
  repeat case_bool_decide; done.
Qed.

Lemma split_comma_nil s : split_comma s <> [].
Proof. destruct s as [|c s]; simpl; [done|]. destruct (c =? comma_char)%char, (split_comma s); done. Qed.

(** Splitting at the first comma. *)
Lemma split_comma_cut s :
  (Forall (fun c => c <> comma_char) s /\ split_comma s = [s]) \/
  (exists t s', s = t ++ comma_char :: s' /\ Forall (fun c => c <> comma_char) t /\
                split_comma s = t :: split_comma s').
Proof.
  induction s as [|c s IH]; simpl; [left; auto|].
  destruct (Ascii.eqb_spec c comma_char) as [->|Hc].
  - right. exists [], s. auto.
  - destruct IH as [[Hs ->]|(t & s' & -> & Ht & ->)].
    + left. auto.
    + right. exists (c :: t), s'. auto.
Qed.

Lemma one_token t : forall pre post f,
  no_nul t -> (List.length t <= 127)%nat ->
  bind (skip_blanks 128 (List.length pre)) (fun p' =>
    bind (copy_token 64 p' 0 (replicate 64 NUL)) (fun r =>
      match_token (<[fst r := NUL]> (snd r)))) (mkP (pre ++ t ++ NUL :: post) f)
  = Done tt (mkP (pre ++ t ++ NUL :: post) (apply_token f (normalise t))).
Proof.
  intros pre post f Hn Hl. unfold bind.
  destruct (skip_blanks_spec t 128 pre post f Hn) as (k & Hk & Hkl & ->); [lia|].
  assert (Htk : t = take k t ++ trim t) by (rewrite Hk; by rewrite take_drop).
  assert (Hnt : no_nul (trim t)) by (rewrite Hk; by apply Forall_drop).
  assert (Hb : pre ++ t ++ NUL :: post = (pre ++ take k t) ++ trim t ++ NUL :: post)
    by (rewrite Htk at 1; by rewrite <- !app_assoc).
  assert (Hlt : (List.length (trim t) <= List.length t)%nat) by (rewrite Hk, length_drop; lia).
  rewrite Hb.
  pose proof (copy_token_spec (trim t) 64 (pre ++ take k t) 0 [] post f Hnt eq_refl
                ltac:(lia) ltac:(lia) ltac:(lia) (List.length pre + k)) as Hcopy.
  change ([] ++ replicate (64 - 0) NUL) with (replicate 64 NUL) in Hcopy.
  rewrite Hcopy by (rewrite length_app, length_take; lia).
  change (map xe_tolower (take (63 - 0) (trim t))) with (normalise t). cbn [fst snd].
  assert (Hu : (List.length (normalise t) <= 63)%nat)
    by (unfold normalise; rewrite length_map, length_take; lia).
  replace (64 - 0 - List.length (normalise t))%nat
    with (S (63 - List.length (normalise t))) by lia.
  cbn [replicate app]. rewrite list_insert_middle by done.
  rewrite match_token_spec by (by apply normalise_no_nul). done.
Qed.

Lemma apply_token_nil f : apply_token f [] = f.
Proof. reflexivity. Qed.

(** The loop from [p] consumes the rest of the string. *)
Lemma token_loop_spec n : forall s pre post f,
  (List.length s < n)%nat -> no_nul s -> (List.length s <= 127)%nat ->
  exists b, token_loop n (List.length pre) (mkP (pre ++ s ++ NUL :: post) f)
            = Done tt (mkP b (parse_flags s f)).
Proof.
  induction n as [|n IH]; intros s pre post f Hn Hs Hl; [lia|]. cbn [token_loop].
  destruct s as [|c s0].
  { exists (pre ++ NUL :: post). unfold bind. rewrite (rd_app _ _ _ NUL post) by done. done. }
  remember (c :: s0) as s eqn:Es.
  assert (Hc : c <> NUL) by (subst s; by inversion_clear Hs).
  unfold bind at 1. rewrite (rd_app _ _ pre c (s0 ++ NUL :: post)) by (by subst s).
  rewrite eqb_NUL_false by done. clear Hc.
  destruct (split_comma_cut s) as [[Hcm Hsp]|(t & s' & Hcut & Ht & Hsp)].
  - unfold bind at 1.
    rewrite (strchr_spec s 128 pre NUL post) by (auto; lia). simpl (_ =? _)%char.
    unfold bind at 1, ret at 1.
    pose proof (one_token s pre post f Hs ltac:(lia)) as H1. unfold bind in H1 |- *.
    exists (pre ++ s ++ NUL :: post).
    destruct (skip_blanks _ _ _) as [p' s1|]; [|done].
    destruct (copy_token _ _ _ _ _) as [r s2|]; [|done]. rewrite H1.
    unfold parse_flags. rewrite Hsp. done.
  - assert (Hst : no_nul t /\ no_nul s').
    { rewrite Hcut in Hs. apply Forall_app in Hs as [? Hs]. by inversion_clear Hs. }
    destruct Hst as [Hnt Hns].
    assert (Hlen : List.length s = (List.length t + S (List.length s'))%nat)
      by (rewrite Hcut, length_app; done).
    unfold bind at 1.
    replace (pre ++ s ++ NUL :: post) with (pre ++ t ++ comma_char :: (s' ++ NUL :: post))
      by (rewrite Hcut, <- !app_assoc; done).
    rewrite strchr_spec by (auto; lia). simpl (_ =? _)%char. cbv iota.
    unfold bind at 1.
    replace (List.length pre + List.length t)%nat with (List.length (pre ++ t)) by (by rewrite length_app).
    rewrite app_assoc, wr_app, <- app_assoc.
    pose proof (one_token t pre (s' ++ NUL :: post) f Hnt ltac:(lia)) as H1. unfold bind in H1 |- *.
    destruct (skip_blanks _ _ _) as [p' s1|]; [|done].
    destruct (copy_token _ _ _ _ _) as [r s2|]; [|done]. rewrite H1.
    destruct (IH s' (pre ++ t ++ [NUL]) post (apply_token f (normalise t))) as (b & Hb);
      [lia|done|lia|].
    replace (List.length (pre ++ t) + 1)%nat with (List.length (pre ++ t ++ [NUL]))
      by (rewrite !length_app; simpl; lia).
    replace (pre ++ t ++ NUL :: s' ++ NUL :: post) with ((pre ++ t ++ [NUL]) ++ s' ++ NUL :: post)
      by (rewrite <- !app_assoc; done).
    exists b. rewrite Hb. unfold parse_flags. rewrite Hsp. done.
Qed.

Lemma XeParseBootArgs_run s rest f :
  no_nul s -> (List.length s <= 127)%nat ->
  XeParseBootArgs (Some (s ++ NUL :: rest)) f = Done tt (parse_flags s f).
Proof.
  intros Hs Hl. unfold XeParseBootArgs.
  destruct (token_loop_spec 128 s [] (rest ++ drop (List.length (s ++ NUL :: rest)) (replicate 128 NUL)) f)
    as (b & Hb); [lia|done|done|].
  rewrite <- app_assoc. simpl app in Hb |- *. simpl List.length in Hb at 1.
  rewrite Hb. done.
Qed.

(** Some token of [s] is the flag name [name]. *)
Definition has_token (s : list ascii) (name : string) : Prop :=
  exists t, In t (split_comma s) /\ normalise t = list_ascii_of_string name.

Definition has_tok (ts : list (list ascii)) (name : string) : Prop :=
  exists t, In t ts /\ normalise t = list_ascii_of_string name.

(** One flag of the fold: set before, or set by one of the tokens in [names]. *)
Lemma fold_flag (get : XeBootFlags -> bool) (names : list string) :
  (forall f t, get (apply_token f t) = true <->
     get f = true \/ exists n, In n names /\ t = list_ascii_of_string n) ->
  forall ts f,
    get (fold_left (fun f t => apply_token f (normalise t)) ts f) = true <->
    get f = true \/ exists n, In n names /\ has_tok ts n.
Proof.
  intros Hget ts. induction ts as [|t ts IH]; intros f; simpl.
  - split; [auto|]. intros [H|(n & _ & t & [] & _)]. exact H.
  - rewrite IH, Hget. unfold has_tok. simpl. split.
    + intros [[H|(n & Hn & Ht)]|(n & Hn & t' & Hin & Ht')]; eauto 8.
    + intros [H|(n & Hn & t' & [<-|Hin] & Ht')]; eauto 8.
Qed.

Ltac solve_flag :=
  clear; intros f t; unfold apply_token; repeat case_bool_decide; subst; simpl;
  (split; [intros ?|intros [?|(? & ? & ?)]]);
  repeat match goal with
         | H : _ \/ _ |- _ => destruct H
         | H : False |- _ => destruct H
         end; subst; try done; eauto 8; try discriminate.

Lemma verbose_iff ts f :
  verbose (fold_left (fun f t => apply_token f (normalise t)) ts f) = true <->
  verbose f = true \/ exists n, In n ["verbose"%string] /\ has_tok ts n.
Proof. apply (fold_flag verbose). solve_flag. Qed.

Lemma strictSafe_iff ts f :
  strictSafe (fold_left (fun f t => apply_token f (normalise t)) ts f) = true <->
  strictSafe f = true \/ exists n, In n ["strictsafe"%string] /\ has_tok ts n.
Proof. apply (fold_flag strictSafe). solve_flag. Qed.

Lemma disableForcewake_iff ts f :
  disableForcewake (fold_left (fun f t => apply_token f (normalise t)) ts f) = true <->
  disableForcewake f = true \/ exists n, In n ["noforcewake"%string; "strictsafe"%string] /\ has_tok ts n.
Proof. apply (fold_flag disableForcewake). solve_flag. Qed.

Lemma disableCommandStream_iff ts f :
  disableCommandStream (fold_left (fun f t => apply_token f (normalise t)) ts f) = true <->
  disableCommandStream f = true \/ exists n, In n ["nocs"%string; "strictsafe"%string] /\ has_tok ts n.
Proof. apply (fold_flag disableCommandStream). solve_flag. Qed.

(** [strictsafe] implies the two weaker switches, on every parse. *)
Definition flags_ok (f : XeBootFlags) : Prop :=
  strictSafe f = true -> disableForcewake f = true /\ disableCommandStream f = true.

Lemma apply_token_ok f t : flags_ok f -> flags_ok (apply_token f t).
Proof. unfold flags_ok, apply_token. intros H. repeat case_bool_decide; simpl; tauto. Qed.

Lemma parse_flags_ok s f : flags_ok f -> flags_ok (parse_flags s f).
Proof.
  unfold parse_flags. revert f. induction (split_comma s) as [|t ts IH]; intros f H; simpl; [done|].
  apply IH, apply_token_ok, H.
Qed.

(** C8. The in-place parser is the reference tokeniser: for every C string of
    at most 127 characters in the 128-byte buffer (whatever follows its
    terminator) it terminates without reading or writing outside its two
    arrays, and leaves in [gXeBoot] exactly the flags [parse_flags] computes
    by splitting at commas.  Starting from the defaults, a flag is then set iff
    some comma-separated token, without leading blanks and in any letter case,
    is its name; [strictsafe] also sets the other two switches, and without
    the boot argument no flag changes. *)
Theorem boot_args_refine s rest f :
  no_nul s -> (List.length s <= 127)%nat ->
  XeParseBootArgs (Some (s ++ NUL :: rest)) f = Done tt (parse_flags s f) /\
  XeParseBootArgs None f = Done tt f /\
  let f := parse_flags s default_flags in
  (verbose f = true <-> has_token s "verbose") /\
  (strictSafe f = true <-> has_token s "strictsafe") /\
  (disableForcewake f = true <-> has_token s "noforcewake" \/ has_token s "strictsafe") /\
  (disableCommandStream f = true <-> has_token s "nocs" \/ has_token s "strictsafe").
Proof.
  intros Hs Hl. split; [exact (XeParseBootArgs_run s rest f Hs Hl)|]. split; [done|].
  unfold parse_flags. cbv zeta. rewrite verbose_iff, strictSafe_iff, disableForcewake_iff, disableCommandStream_iff.
  unfold has_token, has_tok. simpl.
  repeat split; try (intros [H|(n & Hn & H)]; [discriminate|]); try (intros [H|H]); try intros H;
    repeat match goal with
           | H : _ \/ _ |- _ => destruct H
           | H : False |- _ => destruct H
           end; subst; eauto 8.
Qed.

Lemma boot_args_refine_witness :
  XeParseBootArgs (Some (cstring " Verbose,,NOCS,nocs x")) default_flags
  = Done tt (mkFlags true false true false) /\
  ~ has_token (list_ascii_of_string " Verbose,,NOCS,nocs x") "strictsafe".
Proof.
  destruct (boot_args_refine (list_ascii_of_string " Verbose,,NOCS,nocs x") [] default_flags
           ltac:(repeat constructor; discriminate) ltac:(simpl; lia)) as (Hrun & _ & _ & Hsafe & _).
  split; [exact Hrun|]. rewrite <- Hsafe. discriminate.
Defined.

End BootArgs.
