(* ===== verification/IOReturn.v ===== *)
(** * IOReturn: the error codes ([mach/error.h], [IOKit/IOReturn.h])

    Every method of the driver answers with an [IOReturn], a Mach error number
    laid out as [system(6) | subsystem(12) | code(14)] in a signed 32-bit
    integer.  The macros are modelled as they compute, sign included; the
    theorem is that the three fields of a code can be read back, so that the
    codes are pairwise distinct and none is [kIOReturnSuccess]. *)

From Stdlib Require Import ZArith Lia Bool List.
From stdpp Require Import base list.
From S2P Require Import Prelude.
Import ListNotations.

Module IOReturn.

(** *** [mach/error.h] *)

Definition err_system (x : Z) : Z := to_s32 (Z.shiftl (Z.land x 0x3f) 26).
Definition err_sub (x : Z) : Z := Z.shiftl (Z.land x 0xfff) 14.
Definition err_get_system (err : Z) : Z := Z.land (Z.shiftr err 26) 0x3f.
Definition err_get_sub (err : Z) : Z := Z.land (Z.shiftr err 14) 0xfff.
Definition err_get_code (err : Z) : Z := Z.land err 0x3fff.
Definition unix_err (errno : Z) : Z := Z.lor (Z.lor (err_system 0x0) (err_sub 3)) errno.

(** *** [IOKit/IOReturn.h] *)

Definition sys_iokit : Z := err_system 0x38.
Definition sub_iokit_common : Z := err_sub (0).
Definition sub_iokit_usb : Z := err_sub (1).
Definition sub_iokit_firewire : Z := err_sub (2).
Definition sub_iokit_block_storage : Z := err_sub (4).
Definition sub_iokit_graphics : Z := err_sub (5).
Definition sub_iokit_networking : Z := err_sub (6).
Definition sub_iokit_bluetooth : Z := err_sub (8).
Definition sub_iokit_pmu : Z := err_sub (9).
Definition sub_iokit_acpi : Z := err_sub (10).
Definition sub_iokit_smbus : Z := err_sub (11).
Definition sub_iokit_ahci : Z := err_sub (12).
Definition sub_iokit_powermanagement : Z := err_sub (13).
Definition sub_iokit_hidsystem : Z := err_sub (14).
Definition sub_iokit_scsi : Z := err_sub (16).
Definition sub_iokit_usbaudio : Z := err_sub (17).
Definition sub_iokit_wirelesscharging : Z := err_sub (18).
Definition sub_iokit_thunderbolt : Z := err_sub (29).
Definition sub_iokit_graphics_acceleration : Z := err_sub (30).
Definition sub_iokit_keystore : Z := err_sub (31).
Definition sub_iokit_apfs : Z := err_sub (33).
Definition sub_iokit_acpiec : Z := err_sub (34).
Definition sub_iokit_timesync_avb : Z := err_sub (35).
Definition sub_iokit_platform : Z := err_sub (0x2A).
Definition sub_iokit_audio_video : Z := err_sub (0x45).
Definition sub_iokit_cec : Z := err_sub (0x46).
Definition sub_iokit_baseband : Z := err_sub (0x80).
Definition sub_iokit_HDA : Z := err_sub (0xFE).
Definition sub_iokit_hsic : Z := err_sub (0x147).
Definition sub_iokit_sdio : Z := err_sub (0x174).
Definition sub_iokit_wlan : Z := err_sub (0x208).
Definition sub_iokit_appleembeddedsleepwakehandler : Z := err_sub (0x209).
Definition sub_iokit_appleppm : Z := err_sub (0x20A).
Definition sub_iokit_vendor_specific : Z := err_sub (-2).
Definition sub_iokit_reserved : Z := err_sub (-1).

Definition iokit_common_err (code : Z) : Z := Z.lor (Z.lor sys_iokit sub_iokit_common) code.
Definition iokit_family_err (sub code : Z) : Z := Z.lor (Z.lor sys_iokit sub) code.
Definition iokit_vendor_specific_err (code : Z) : Z :=
  Z.lor (Z.lor sys_iokit sub_iokit_vendor_specific) code.

Definition kIOReturnSuccess : Z := 0.
Definition kIOReturnError : Z := iokit_common_err 0x2bc.
Definition kIOReturnNoMemory : Z := iokit_common_err 0x2bd.
Definition kIOReturnNoResources : Z := iokit_common_err 0x2be.
Definition kIOReturnIPCError : Z := iokit_common_err 0x2bf.
Definition kIOReturnNoDevice : Z := iokit_common_err 0x2c0.
Definition kIOReturnNotPrivileged : Z := iokit_common_err 0x2c1.
Definition kIOReturnBadArgument : Z := iokit_common_err 0x2c2.
Definition kIOReturnLockedRead : Z := iokit_common_err 0x2c3.
Definition kIOReturnLockedWrite : Z := iokit_common_err 0x2c4.
Definition kIOReturnExclusiveAccess : Z := iokit_common_err 0x2c5.
Definition kIOReturnBadMessageID : Z := iokit_common_err 0x2c6.
Definition kIOReturnUnsupported : Z := iokit_common_err 0x2c7.
Definition kIOReturnVMError : Z := iokit_common_err 0x2c8.
Definition kIOReturnInternalError : Z := iokit_common_err 0x2c9.
Definition kIOReturnIOError : Z := iokit_common_err 0x2ca.
Definition kIOReturnCannotLock : Z := iokit_common_err 0x2cc.
Definition kIOReturnNotOpen : Z := iokit_common_err 0x2cd.
Definition kIOReturnNotReadable : Z := iokit_common_err 0x2ce.
Definition kIOReturnNotWritable : Z := iokit_common_err 0x2cf.
Definition kIOReturnNotAligned : Z := iokit_common_err 0x2d0.
Definition kIOReturnBadMedia : Z := iokit_common_err 0x2d1.
Definition kIOReturnStillOpen : Z := iokit_common_err 0x2d2.
Definition kIOReturnRLDError : Z := iokit_common_err 0x2d3.
Definition kIOReturnDMAError : Z := iokit_common_err 0x2d4.
Definition kIOReturnBusy : Z := iokit_common_err 0x2d5.
Definition kIOReturnTimeout : Z := iokit_common_err 0x2d6.
Definition kIOReturnOffline : Z := iokit_common_err 0x2d7.
Definition kIOReturnNotReady : Z := iokit_common_err 0x2d8.
Definition kIOReturnNotAttached : Z := iokit_common_err 0x2d9.
Definition kIOReturnNoChannels : Z := iokit_common_err 0x2da.
Definition kIOReturnNoSpace : Z := iokit_common_err 0x2db.
Definition kIOReturnPortExists : Z := iokit_common_err 0x2dd.
Definition kIOReturnCannotWire : Z := iokit_common_err 0x2de.
Definition kIOReturnNoInterrupt : Z := iokit_common_err 0x2df.
Definition kIOReturnNoFrames : Z := iokit_common_err 0x2e0.
Definition kIOReturnMessageTooLarge : Z := iokit_common_err 0x2e1.
Definition kIOReturnNotPermitted : Z := iokit_common_err 0x2e2.
Definition kIOReturnNoPower : Z := iokit_common_err 0x2e3.
Definition kIOReturnNoMedia : Z := iokit_common_err 0x2e4.
Definition kIOReturnUnformattedMedia : Z := iokit_common_err 0x2e5.
Definition kIOReturnUnsupportedMode : Z := iokit_common_err 0x2e6.
Definition kIOReturnUnderrun : Z := iokit_common_err 0x2e7.
Definition kIOReturnOverrun : Z := iokit_common_err 0x2e8.
Definition kIOReturnDeviceError : Z := iokit_common_err 0x2e9.
Definition kIOReturnNoCompletion : Z := iokit_common_err 0x2ea.
Definition kIOReturnAborted : Z := iokit_common_err 0x2eb.
Definition kIOReturnNoBandwidth : Z := iokit_common_err 0x2ec.
Definition kIOReturnNotResponding : Z := iokit_common_err 0x2ed.
Definition kIOReturnIsoTooOld : Z := iokit_common_err 0x2ee.
Definition kIOReturnIsoTooNew : Z := iokit_common_err 0x2ef.
Definition kIOReturnNotFound : Z := iokit_common_err 0x2f0.
Definition kIOReturnInvalid : Z := iokit_common_err 0x1.

(** The codes and the subsystems, in the header's order. *)
Definition common_codes : list Z :=
  [kIOReturnError; kIOReturnNoMemory; kIOReturnNoResources;
   kIOReturnIPCError; kIOReturnNoDevice; kIOReturnNotPrivileged;
   kIOReturnBadArgument; kIOReturnLockedRead; kIOReturnLockedWrite;
   kIOReturnExclusiveAccess; kIOReturnBadMessageID; kIOReturnUnsupported;
   kIOReturnVMError; kIOReturnInternalError; kIOReturnIOError;
   kIOReturnCannotLock; kIOReturnNotOpen; kIOReturnNotReadable;
   kIOReturnNotWritable; kIOReturnNotAligned; kIOReturnBadMedia;
   kIOReturnStillOpen; kIOReturnRLDError; kIOReturnDMAError;
   kIOReturnBusy; kIOReturnTimeout; kIOReturnOffline;
   kIOReturnNotReady; kIOReturnNotAttached; kIOReturnNoChannels;
   kIOReturnNoSpace; kIOReturnPortExists; kIOReturnCannotWire;
   kIOReturnNoInterrupt; kIOReturnNoFrames; kIOReturnMessageTooLarge;
   kIOReturnNotPermitted; kIOReturnNoPower; kIOReturnNoMedia;
   kIOReturnUnformattedMedia; kIOReturnUnsupportedMode; kIOReturnUnderrun;
   kIOReturnOverrun; kIOReturnDeviceError; kIOReturnNoCompletion;
   kIOReturnAborted; kIOReturnNoBandwidth; kIOReturnNotResponding;
   kIOReturnIsoTooOld; kIOReturnIsoTooNew; kIOReturnNotFound;
   kIOReturnInvalid].
Definition subsystems : list Z :=
  [sub_iokit_common; sub_iokit_usb; sub_iokit_firewire;
   sub_iokit_block_storage; sub_iokit_graphics; sub_iokit_networking;
   sub_iokit_bluetooth; sub_iokit_pmu; sub_iokit_acpi;
   sub_iokit_smbus; sub_iokit_ahci; sub_iokit_powermanagement;
   sub_iokit_hidsystem; sub_iokit_scsi; sub_iokit_usbaudio;
   sub_iokit_wirelesscharging; sub_iokit_thunderbolt; sub_iokit_graphics_acceleration;
   sub_iokit_keystore; sub_iokit_apfs; sub_iokit_acpiec;
   sub_iokit_timesync_avb; sub_iokit_platform; sub_iokit_audio_video;
   sub_iokit_cec; sub_iokit_baseband; sub_iokit_HDA;
   sub_iokit_hsic; sub_iokit_sdio; sub_iokit_wlan;
   sub_iokit_appleembeddedsleepwakehandler; sub_iokit_appleppm; sub_iokit_vendor_specific;
   sub_iokit_reserved].

(** *** Proofs *)

Lemma err_system_value s : 0 <= s < 64 -> err_system s = to_s32 (s * 2 ^ 26).
Proof.
  intros H. unfold err_system. rewrite Z.shiftl_mul_pow2 by lia. do 2 f_equal.
  change 0x3f with (Z.ones 6). rewrite Z.land_ones by lia. apply Z.mod_small. lia.
Qed.

Lemma err_sub_value u : 0 <= u < 4096 -> err_sub u = u * 2 ^ 14.
Proof.
  intros H. unfold err_sub. rewrite Z.shiftl_mul_pow2 by lia. f_equal.
  change 0xfff with (Z.ones 12). rewrite Z.land_ones by lia. apply Z.mod_small. lia.
Qed.

Lemma err_value s u c :
  0 <= s < 64 -> 0 <= u < 4096 -> 0 <= c < 2 ^ 14 ->
  Z.lor (Z.lor (err_system s) (err_sub u)) c = to_s32 (s * 2 ^ 26) + u * 2 ^ 14 + c.
Proof.
  intros Hs Hu Hc. rewrite err_system_value, err_sub_value by done.
  assert (Hm : exists q, to_s32 (s * 2 ^ 26) = q * 2 ^ 26).
  { unfold to_s32. rewrite wrap32_small by lia.
    destruct (_ <? _); [exists s | exists (s - 64)]; lia. }
  destruct Hm as [q Hq]. rewrite Hq.
  rewrite (lor_fields (q * 2 ^ 26) q (u * 2 ^ 14) 26) by lia.
  rewrite (lor_fields _ (q * 2 ^ 12 + u) c 14) by lia. lia.
Qed.

(** An error number keeps its three fields. *)
Lemma err_fields s u c :
  0 <= s < 64 -> 0 <= u < 4096 -> 0 <= c < 2 ^ 14 ->
  let e := Z.lor (Z.lor (err_system s) (err_sub u)) c in
  err_get_system e = s /\ err_get_sub e = u /\ err_get_code e = c /\ - 2 ^ 31 <= e < 2 ^ 31.
Proof.
  intros Hs Hu Hc e. subst e. rewrite err_value by done.
  unfold err_get_system, err_get_sub, err_get_code.
  change 0x3f with (Z.ones 6). change 0xfff with (Z.ones 12). change 0x3fff with (Z.ones 14).
  rewrite !Z.land_ones, !Z.shiftr_div_pow2 by lia.
  unfold to_s32. rewrite wrap32_small by lia.
  destruct (Z.ltb_spec (s * 2 ^ 26) (2 ^ 31)) as [Hlt|Hge];
    (repeat split); Z.div_mod_to_equations; lia.
Qed.

Lemma common_code_fields c : In c common_codes -> err_get_system c = 0x38 /\ err_get_sub c = 0 /\ c <> kIOReturnSuccess.
Proof.
  assert (H : forallb (fun c => (err_get_system c =? 0x38) && (err_get_sub c =? 0)
                       && negb (c =? kIOReturnSuccess)) common_codes = true)
    by (vm_compute; reflexivity).
  intros Hin. apply (proj1 (forallb_forall _ _) H) in Hin.
  rewrite !andb_true_iff, !Z.eqb_eq, negb_true_iff, Z.eqb_neq in Hin. tauto.
Qed.

(** C21. Error numbers round-trip: the system, subsystem and code packed by
    [err_system], [err_sub] and bitwise or are read back by [err_get_system],
    [err_get_sub] and [err_get_code], within the signed 32-bit range; the
    IOKit codes are therefore pairwise distinct errors of system 0x38, and the
    IOKit subsystems are pairwise distinct too. *)
Theorem error_numbers_roundtrip :
  (forall s u c, 0 <= s < 64 -> 0 <= u < 4096 -> 0 <= c < 2 ^ 14 ->
     let e := Z.lor (Z.lor (err_system s) (err_sub u)) c in
     err_get_system e = s /\ err_get_sub e = u /\ err_get_code e = c /\ - 2 ^ 31 <= e < 2 ^ 31) /\
  (forall c, In c common_codes ->
     err_get_system c = 0x38 /\ err_get_sub c = 0 /\ c <> kIOReturnSuccess) /\
  NoDup common_codes /\ NoDup subsystems.
Proof.
  split; [exact err_fields|]. split; [exact common_code_fields|].
  split; [apply (bool_decide_unpack (NoDup common_codes)) | apply (bool_decide_unpack (NoDup subsystems))];
    vm_compute; exact I.
Qed.

End IOReturn.
