(* ===== verification/Kernel.v ===== *)
(** * Kernel: what the driver sees of the machine and of the kernel

    The GPU behind BAR0 and the IOKit/libkern classes are not part of the
    repository (the SDK under [src/MacKernelSDK] only declares them), so they
    are parameters: class [Device] is the hardware, class [Kernel] the kernel
    calls, and class [KernelLaws] the documented behaviour of those calls that
    the proofs use, each law next to the header that documents it.  The state
    of a run is a [world]: hardware, kernel, the global boot flags, the fields
    of the one [XeService] object, the trace of MMIO and PCI accesses in
    program order, and the kernel log.

    A pointer is [option obj]: [None] is null, [Some o] the start of object
    [o].  An access through a pointer to a dead object or outside the object's
    length is a [Fault]. *)

From Stdlib Require Import ZArith Lia Bool List String.
From stdpp Require Import base list option strings.
From S2P Require Import Prelude BootArgs.
Import ListNotations.

Module Kern.
Import BootArgs.

Definition obj : Type := positive.
Definition ptr : Type := option obj.

(** The classes [OSDynamicCast] distinguishes in this driver. *)
Inductive kclass : Type :=
| CIOPCIDevice | CIOMemoryMap | CIOBufferMemoryDescriptor | COSArray
| CXeService | CXeUserClient | COther.

#[global] Instance kclass_eq_dec : EqDecision kclass.
Proof. solve_decision. Defined.

(** What can be observed of a kernel object: its retain count (0 once it is
    freed), its class, the members of an array in order, the length in bytes
    of a mapping or buffer, whether its address is non-null, and the dwords of
    a buffer. *)
Record objview : Type := mkView {
  o_refs : Z;
  o_class : kclass;
  o_items : list obj;
  o_len : Z;
  o_addr : bool;
  o_words : list Z
}.

Definition with_refs (n : Z) (v : objview) : objview :=
  mkView n (o_class v) (o_items v) (o_len v) (o_addr v) (o_words v).
Definition with_items (l : list obj) (v : objview) : objview :=
  mkView (o_refs v) (o_class v) l (o_len v) (o_addr v) (o_words v).
Definition with_words (l : list Z) (v : objview) : objview :=
  mkView (o_refs v) (o_class v) (o_items v) (o_len v) (o_addr v) l.

(** Superclass methods and registry calls whose only visible result is success
    or failure. *)
Inductive supercall : Type :=
| ServiceInit | ServiceStart | ServiceStop | ServiceFree | RegisterService
| ClientInit | ClientStart | ClientTerminate.

(** ** The hardware *)

Class Device : Type := {
  hw : Type;
  (** volatile dword access at a byte offset of BAR0; a read may change the device *)
  dev_read : hw -> Z -> Z * hw;
  dev_write : hw -> Z -> Z -> hw;
  dev_delay : hw -> Z -> hw;
  (** PCI configuration space *)
  cfg_read16 : hw -> Z -> Z;
  cfg_read8 : hw -> Z -> Z;
  dev_read_u32 : forall h o, is_u32 (fst (dev_read h o))
}.

(** ** The kernel *)

Class Kernel : Type := {
  kst : Type;
  look : kst -> obj -> objview;
  k_page_size : Z;                                        (* the kernel's page_size *)
  k_super : supercall -> kst -> bool * kst;
  k_probe : obj -> Z -> kst -> ptr * Z * kst;             (* IOService::probe *)
  k_release : obj -> kst -> kst;                          (* OSObject::release *)
  k_array_withCapacity : Z -> kst -> ptr * kst;           (* OSArray::withCapacity *)
  k_array_setObject : obj -> obj -> kst -> bool * kst;    (* OSArray::setObject *)
  k_bmd_withOptions : Z -> Z -> Z -> kst -> ptr * kst;    (* IOBufferMemoryDescriptor::withOptions *)
  k_bmd_store : obj -> nat -> Z -> kst -> kst;            (* a dword store into the buffer *)
  k_mapDeviceMemory : obj -> Z -> kst -> ptr * kst;       (* IOPCIDevice::mapDeviceMemoryWithRegister *)
  k_alloc_client : kst -> ptr * kst;                      (* OSTypeAlloc(XeUserClient) *)
  k_attach : obj -> obj -> kst -> bool * kst;             (* IOService::attach *)
  k_detach : obj -> obj -> kst -> kst                     (* IOService::detach *)
}.

Definition count (p : obj) (l : list obj) : Z := Z.of_nat (List.count_occ Pos.eq_dec l p).

(** Objects other than the listed ones keep their view. *)
Definition frame `{Kernel} (ps : list obj) (k k' : kst) : Prop :=
  forall p, ~ In p ps -> look k' p = look k p.

(** A new object: dead before, one reference (the caller's), nothing else
    touched. *)
Definition fresh_object `{Kernel} (o : obj) (c : kclass) (k k' : kst) : Prop :=
  o_refs (look k o) = 0 /\ o_refs (look k' o) = 1 /\ o_class (look k' o) = c /\
  o_items (look k' o) = [] /\ frame [o] k k'.

Class KernelLaws `{K : Kernel} : Prop := {
  (** the superclass methods leave the objects the driver holds alone *)
  law_super c k : frame [] k (snd (k_super c k));
  law_probe p s k : frame [] k (snd (k_probe p s k));
  (** OSObject.h: [release] drops one reference, the last one frees the object;
      OSArray.h: a freed array releases every object it holds *)
  law_release o k p :
    0 < o_refs (look k o) ->
    (forall q, In q (o_items (look k o)) -> o_items (look k q) = []) ->
    let n := (if Pos.eqb p o then 1 else 0)
             + (if o_refs (look k o) =? 1 then count p (o_items (look k o)) else 0) in
    n <= o_refs (look k p) ->
    o_refs (look (k_release o k) p) = o_refs (look k p) - n /\
    (0 < o_refs (look k p) - n ->
     look (k_release o k) p = with_refs (o_refs (look k p) - n) (look k p));
  (** OSArray.h: [withCapacity] returns a new empty array or null *)
  law_array_new c k :
    match k_array_withCapacity c k with
    | (Some a, k') => fresh_object a COSArray k k'
    | (None, k') => frame [] k k'
    end;
  (** OSArray.h: [setObject] appends and retains, or fails and does nothing *)
  law_setObject a o k :
    a <> o -> 0 < o_refs (look k a) -> 0 < o_refs (look k o) ->
    match k_array_setObject a o k with
    | (true, k') =>
        look k' a = with_items (o_items (look k a) ++ [o]) (look k a) /\
        look k' o = with_refs (o_refs (look k o) + 1) (look k o) /\ frame [a; o] k k'
    | (false, k') => frame [] k k'
    end;
  (** IOBufferMemoryDescriptor.h: a buffer of [cap] bytes, its length set to
      the capacity, or null *)
  law_bmd_new opts cap align k :
    match k_bmd_withOptions opts cap align k with
    | (Some b, k') =>
        fresh_object b CIOBufferMemoryDescriptor k k' /\
        o_len (look k' b) = cap /\ List.length (o_words (look k' b)) = Z.to_nat (cap / 4)
    | (None, k') => frame [] k k'
    end;
  law_bmd_store b i v k :
    0 < o_refs (look k b) ->
    look (k_bmd_store b i v k) b = with_words (<[i := v]> (o_words (look k b))) (look k b) /\
    frame [b] k (k_bmd_store b i v k);
  (** IOPCIDevice.h: a new mapping owned by the caller, or null *)
  law_map d r k :
    match k_mapDeviceMemory d r k with
    | (Some m, k') => fresh_object m CIOMemoryMap k k' /\ 0 <= o_len (look k' m)
    | (None, k') => frame [] k k'
    end;
  law_alloc_client k :
    match k_alloc_client k with
    | (Some u, k') => fresh_object u CXeUserClient k k'
    | (None, k') => frame [] k k'
    end;
  (** IOService.h: attaching retains both client and provider until they are
      detached *)
  law_attach u p k :
    u <> p -> 0 < o_refs (look k u) -> 0 < o_refs (look k p) ->
    match k_attach u p k with
    | (true, k') =>
        look k' u = with_refs (o_refs (look k u) + 1) (look k u) /\
        look k' p = with_refs (o_refs (look k p) + 1) (look k p) /\ frame [u; p] k k'
    | (false, k') => frame [] k k'
    end;
  (** used on an attached pair that other references keep alive *)
  law_detach u p k :
    u <> p -> 1 < o_refs (look k u) -> 1 < o_refs (look k p) ->
    look (k_detach u p k) u = with_refs (o_refs (look k u) - 1) (look k u) /\
    look (k_detach u p k) p = with_refs (o_refs (look k p) - 1) (look k p) /\
    frame [u; p] k (k_detach u p k)
}.

(** ** The world *)

Inductive larg : Type := LZ (z : Z) | LB (b : bool) | LS (s : string).

Inductive event : Type :=
| ERead (off val : Z)
| EWrite (off val : Z)
| EDelay (us : Z)
| EMemoryEnable (on : bool)
| EIOEnable (on : bool)
| EBusMaster (on : bool).

(** The private fields of [class XeService]. *)
Record XeService : Type := mkSvc {
  pci : ptr;
  bar0 : ptr;
  mmio : ptr;
  bar0Length : Z;
  m_boList : ptr
}.

(** The in-class initialisers. *)
Definition svc_init : XeService := mkSvc None None None 0 None.

Section World.
Context `{D : Device} `{K : Kernel}.

Record world : Type := mkW {
  hwst : hw;
  kern : kst;
  boot : XeBootFlags;
  svc : XeService;
  trace : list event;
  klog : list (string * list larg)
}.

Definition set_hwst (h : hw) (w : world) : world :=
  mkW h (kern w) (boot w) (svc w) (trace w) (klog w).
Definition set_kern (k : kst) (w : world) : world :=
  mkW (hwst w) k (boot w) (svc w) (trace w) (klog w).
Definition set_boot (b : XeBootFlags) (w : world) : world :=
  mkW (hwst w) (kern w) b (svc w) (trace w) (klog w).
Definition set_svc (s : XeService) (w : world) : world :=
  mkW (hwst w) (kern w) (boot w) s (trace w) (klog w).
Definition add_event (e : event) (w : world) : world :=
  mkW (hwst w) (kern w) (boot w) (svc w) (trace w ++ [e]) (klog w).
Definition add_log (l : string * list larg) (w : world) : world :=
  mkW (hwst w) (kern w) (boot w) (svc w) (trace w) (klog w ++ [l]).

(** [XeLog(fmt, ...)]: the format string and the arguments reach [IOLogv]. *)
Definition XeLog (fmt : string) (args : list larg) : M world unit := modify (add_log (fmt, args)).

Definition emit (e : event) : M world unit := modify (add_event e).
Definition IODelay (us : Z) : M world unit :=
  modify (fun w => add_event (EDelay us) (set_hwst (dev_delay (hwst w) us) w)).

(** An access to [n] bytes at offset [off] of object [m] is inside it. *)
Definition in_object (k : kst) (m : obj) (off n : Z) : bool :=
  (0 <? o_refs (look k m)) && (0 <=? off) && (off + n <=? o_len (look k m)).

(** [mmio[idx]] as a volatile load and store; [mmio] is a [uint32_t] pointer,
    so index [idx] is byte offset [4 * idx]. *)
Definition mmio_load (m : obj) (idx : Z) : M world Z := fun w =>
  if in_object (kern w) m (4 * idx) 4 then
    let r := dev_read (hwst w) (4 * idx) in
    Done (fst r) (add_event (ERead (4 * idx) (fst r)) (set_hwst (snd r) w))
  else Fault w.
Definition mmio_store (m : obj) (idx v : Z) : M world unit := fun w =>
  if in_object (kern w) m (4 * idx) 4 then
    Done tt (add_event (EWrite (4 * idx) v) (set_hwst (dev_write (hwst w) (4 * idx) v) w))
  else Fault w.

(** [cmds[i]] on the memory of buffer [b]. *)
Definition buf_store (b : obj) (i : nat) (v : Z) : M world unit := fun w =>
  if in_object (kern w) b (4 * Z.of_nat i) 4
  then Done tt (set_kern (k_bmd_store b i v (kern w)) w) else Fault w.
Definition buf_load (b : obj) (i : nat) : M world Z := fun w =>
  match o_words (look (kern w) b) !! i with Some v => Done v w | None => Fault w end.

(** Kernel calls, lifted to the world. *)
Definition kcall {A} (f : kst -> A * kst) : M world A :=
  fun w => let r := f (kern w) in Done (fst r) (set_kern (snd r) w).
Definition super (c : supercall) : M world bool := kcall (k_super c).
Definition release (o : obj) : M world unit := modify (fun w => set_kern (k_release o (kern w)) w).
Definition get_svc : M world XeService := gets svc.
Definition put_svc (f : XeService -> XeService) : M world unit := modify (fun w => set_svc (f (svc w)) w).
(** [OSDynamicCast(c, p)]: [p] itself when it is non-null and of class [c]. *)
Definition OSDynamicCast (c : kclass) (p : ptr) : M world ptr :=
  gets (fun w => match p with
                 | Some o => if decide (o_class (look (kern w) o) = c) then Some o else None
                 | None => None
                 end).

(** *** Rules *)

Implicit Types w : world.

Lemma in_object_spec k m off n :
  in_object k m off n = true <->
  0 < o_refs (look k m) /\ 0 <= off /\ off + n <= o_len (look k m).
Proof. unfold in_object. rewrite !andb_true_iff, Z.ltb_lt, !Z.leb_le. tauto. Qed.

Lemma wp_log fmt args (Q : unit -> world -> Prop) w :
  Q tt (add_log (fmt, args) w) -> wp (XeLog fmt args) Q w.
Proof. exact (fun H => H). Qed.

Lemma wp_emit e (Q : unit -> world -> Prop) w : Q tt (add_event e w) -> wp (emit e) Q w.
Proof. exact (fun H => H). Qed.

Lemma wp_delay us (Q : unit -> world -> Prop) w :
  Q tt (add_event (EDelay us) (set_hwst (dev_delay (hwst w) us) w)) -> wp (IODelay us) Q w.
Proof. exact (fun H => H). Qed.

Lemma wp_mmio_load m idx (Q : Z -> world -> Prop) w :
  in_object (kern w) m (4 * idx) 4 = true ->
  (forall v h, (v, h) = dev_read (hwst w) (4 * idx) -> is_u32 v ->
     Q v (add_event (ERead (4 * idx) v) (set_hwst h w))) ->
  wp (mmio_load m idx) Q w.
Proof.
  intros Hin HQ. unfold wp, mmio_load. rewrite Hin. apply HQ.
  - symmetry. apply surjective_pairing.
  - apply dev_read_u32.
Qed.

Lemma wp_mmio_store m idx v (Q : unit -> world -> Prop) w :
  in_object (kern w) m (4 * idx) 4 = true ->
  Q tt (add_event (EWrite (4 * idx) v) (set_hwst (dev_write (hwst w) (4 * idx) v) w)) ->
  wp (mmio_store m idx v) Q w.
Proof. intros Hin HQ. unfold wp, mmio_store. rewrite Hin. exact HQ. Qed.

Lemma wp_kcall {A} (f : kst -> A * kst) (Q : A -> world -> Prop) w :
  (forall a k, f (kern w) = (a, k) -> Q a (set_kern k w)) -> wp (kcall f) Q w.
Proof. intros HQ. unfold wp, kcall. apply HQ. apply surjective_pairing. Qed.

Lemma wp_release o (Q : unit -> world -> Prop) w :
  Q tt (set_kern (k_release o (kern w)) w) -> wp (release o) Q w.
Proof. exact (fun H => H). Qed.

Lemma wp_put_svc f (Q : unit -> world -> Prop) w :
  Q tt (set_svc (f (svc w)) w) -> wp (put_svc f) Q w.
Proof. exact (fun H => H). Qed.

(** Everything but the hardware, the trace and the log is as before. *)
Definition untouched (w w' : world) : Prop :=
  kern w' = kern w /\ boot w' = boot w /\ svc w' = svc w.

Lemma untouched_refl w : untouched w w.
Proof. repeat split. Qed.

Lemma untouched_trans (w1 w2 w3 : world) : untouched w1 w2 -> untouched w2 w3 -> untouched w1 w3.
Proof. unfold untouched. intros (? & ? & ?) (? & ? & ?). repeat split; congruence. Qed.

(** [adv w evs w']: the run from [w] to [w'] put exactly [evs] on the bus and
    left the kernel, the flags and the service alone. *)
Definition adv (w : world) (evs : list event) (w' : world) : Prop :=
  untouched w w' /\ trace w' = trace w ++ evs.

Lemma adv_refl w : adv w [] w.
Proof. split; [apply untouched_refl|by rewrite app_nil_r]. Qed.

Lemma adv_app (w w1 w2 : world) e1 e2 : adv w e1 w1 -> adv w1 e2 w2 -> adv w (e1 ++ e2) w2.
Proof.
  intros [Hu1 Ht1] [Hu2 Ht2]. split; [by apply (untouched_trans w w1 w2)|].
  by rewrite Ht2, Ht1, <- app_assoc.
Qed.

Lemma adv_log (w w1 : world) evs l : adv w evs w1 -> adv w evs (add_log l w1).
Proof. intros H. exact H. Qed.

(** A dword of a live mapping. *)
Definition readable (k : kst) (b : obj) (off : Z) : Prop :=
  0 < o_refs (look k b) /\ 0 <= off /\ off mod 4 = 0 /\ off + 4 <= o_len (look k b).

Lemma dword_index off : off mod 4 = 0 -> 4 * Z.shiftr off 2 = off.
Proof.
  intros H. rewrite Z.shiftr_div_pow2 by lia. change (2 ^ 2) with 4.
  pose proof (Z.div_mod off 4). lia.
Qed.

Lemma readable_in_object k b off : readable k b off -> in_object k b (4 * Z.shiftr off 2) 4 = true.
Proof. intros (Hr & H0 & Ha & Hl). rewrite dword_index by done. by apply in_object_spec. Qed.

Lemma wp_load_off b off (Q : Z -> world -> Prop) w :
  readable (kern w) b off ->
  (forall v (w' : world), is_u32 v -> adv w [ERead off v] w' -> Q v w') ->
  wp (mmio_load b (Z.shiftr off 2)) Q w.
Proof.
  intros Hr HQ. apply wp_mmio_load; [by apply readable_in_object|]. intros v h _ Hv.
  rewrite dword_index by apply Hr. apply HQ; [done|]. split; [repeat split|done].
Qed.

Lemma wp_store_off b off v (Q : unit -> world -> Prop) w :
  readable (kern w) b off ->
  (forall w' : world, adv w [EWrite off v] w' -> Q tt w') ->
  wp (mmio_store b (Z.shiftr off 2) v) Q w.
Proof.
  intros Hr HQ. apply wp_mmio_store; [by apply readable_in_object|].
  rewrite dword_index by apply Hr. apply HQ. split; [repeat split|done].
Qed.

(** [spans k b n]: [b] is live and at least [n] bytes long; the dwords a
    constant offset names are then decided by evaluation. *)
Definition spans (k : kst) (b : obj) (n : Z) : Prop :=
  0 < o_refs (look k b) /\ n <= o_len (look k b).
Definition dword_below (n off : Z) : bool := (0 <=? off) && (off mod 4 =? 0) && (off + 4 <=? n).

Lemma spans_readable k b n off : spans k b n -> dword_below n off = true -> readable k b off.
Proof.
  unfold spans, dword_below, readable. rewrite !andb_true_iff, !Z.leb_le, Z.eqb_eq. intuition lia.
Qed.

Lemma readable_adv (w w' : world) evs b off :
  adv w evs w' -> readable (kern w) b off -> readable (kern w') b off.
Proof. intros [(-> & _) _] H. exact H. Qed.

Lemma spans_adv (w w' : world) evs b n : adv w evs w' -> spans (kern w) b n -> spans (kern w') b n.
Proof. intros [(-> & _) _] H. exact H. Qed.

Lemma spans_le k b n n' : n' <= n -> spans k b n -> spans k b n'.
Proof. unfold spans. intuition lia. Qed.

(** Reads at a list of offsets, as events. *)
Definition reads (l : list (Z * Z)) : list event := map (fun p => ERead (fst p) (snd p)) l.

(** Frames compose. *)
Lemma frame_refl ps k : frame ps k k.
Proof. intros p _. reflexivity. Qed.

Lemma frame_trans ps k1 k2 k3 : frame ps k1 k2 -> frame ps k2 k3 -> frame ps k1 k3.
Proof. intros H12 H23 p Hp. rewrite (H23 p Hp). apply H12, Hp. Qed.

Lemma frame_weaken ps qs k k' : incl ps qs -> frame ps k k' -> frame qs k k'.
Proof. intros Hi H p Hp. apply H. auto. Qed.

End World.

Arguments world {D K}.

(** One symbolic step of a run: peel a bind and take the rule of the first
    command.  Loads, stores and kernel calls leave their conditions. *)
Ltac wstep :=
  lazymatch goal with
  | |- wp (bind _ _) _ _ => apply wp_bind
  | |- wp (ret _) _ _ => apply wp_ret
  | |- wp (gets _) _ _ => apply wp_gets
  | |- wp get_svc _ _ => apply wp_gets
  | |- wp (modify _) _ _ => apply wp_modify
  | |- wp (put_svc _) _ _ => apply wp_put_svc
  | |- wp (XeLog _ _) _ _ => apply wp_log
  | |- wp (emit _) _ _ => apply wp_emit
  | |- wp (IODelay _) _ _ => apply wp_delay
  | |- wp (release _) _ _ => apply wp_release
  | |- wp (OSDynamicCast _ _) _ _ => apply wp_gets
  | |- wp (super _) _ _ => apply wp_kcall
  | |- wp (kcall _) _ _ => apply wp_kcall
  end; cbv beta.
Ltac wsteps := repeat (wstep; cbn [kern hwst boot svc trace klog
  set_hwst set_kern set_boot set_svc add_event add_log pci bar0 mmio bar0Length m_boList]).

End Kern.
