(* ===== verification/SimKernel.v ===== *)
(** * SimKernel: a machine and a kernel to run the model on

    The theorems hold for every [Device] and [Kernel] that obey the documented
    laws.  This file builds one of each, so that the laws are seen to be
    satisfiable and the witnesses can be evaluated.  The device is a register
    file that acknowledges forcewake requests or not; the kernel keeps its
    objects in a list (object [n] is the [n]-th allocated) and can be told to
    refuse individual requests.  Nothing here models code of the repository. *)

From Stdlib Require Import ZArith Lia Bool List String.
From stdpp Require Import base list option strings gmap.
From S2P Require Import Prelude HwOffsets BootArgs Kernel.
Import ListNotations.

Module Sim.
Import BootArgs Kern.

(** ** Device: registers, with or without forcewake acknowledgement *)

Record regs : Type := mkRegs { reg_file : gmap Z Z; answers : bool; cfg_vendor : Z; cfg_device : Z }.

Definition reg_get (r : regs) (o : Z) : Z := wrap32 (default 0 (reg_file r !! o)).
Definition reg_put (r : regs) (o v : Z) : regs :=
  mkRegs (<[o := v]> (reg_file r)) (answers r) (cfg_vendor r) (cfg_device r).
Definition reg_write (r : regs) (o v : Z) : regs :=
  if (o =? XeHW.FORCEWAKE_REQ) && answers r && Z.testbit v 16
  then reg_put (reg_put r o v) XeHW.FORCEWAKE_ACK (Z.land v 1)
  else reg_put r o v.

Lemma reg_get_u32 r o : is_u32 (reg_get r o).
Proof. apply wrap32_range. Qed.

#[export] Instance SimDevice : Device := {|
  hw := regs;
  dev_read r o := (reg_get r o, r);
  dev_write := reg_write;
  dev_delay r _ := r;
  cfg_read16 r o := if o =? 0 then cfg_vendor r else if o =? 2 then cfg_device r else 0;
  cfg_read8 r _ := 4;
  dev_read_u32 := reg_get_u32
|}.

(** A device whose registers all read as zero and never acknowledge. *)
Lemma deaf_u32 (h : unit) (o : Z) : is_u32 (fst (0, h)).
Proof. split; [discriminate|reflexivity]. Qed.

Definition DeafDevice : Device := {|
  hw := unit;
  dev_read h _ := (0, h);
  dev_write h _ _ := h;
  dev_delay h _ := h;
  cfg_read16 _ _ := 0;
  cfg_read8 _ _ := 0;
  dev_read_u32 := deaf_u32
|}.

(** ** Kernel: a list of objects and a list of refusals *)

Record simcfg : Type := mkCfg {
  ok_super : supercall -> bool;
  ok_buffer : bool;
  ok_array : bool;
  ok_append : bool;
  ok_map : bool;
  ok_client : bool;
  ok_attach : bool;
  bar_length : Z;
  bar_address : bool
}.

Definition all_ok (len : Z) : simcfg := mkCfg (fun _ => true) true true true true true true len true.

Record simk : Type := mkSim { objs : list objview; cfg : simcfg }.

Definition dead_view : objview := mkView 0 COther [] 0 false [].
Definition idx (o : obj) : nat := Nat.pred (Pos.to_nat o).
Definition sim_look (k : simk) (o : obj) : objview := default dead_view (objs k !! idx o).
Definition sim_update (f : objview -> objview) (o : obj) (k : simk) : simk :=
  mkSim (alter f (idx o) (objs k)) (cfg k).
Definition sim_new (v : objview) (k : simk) : ptr * simk :=
  (Some (Pos.of_succ_nat (List.length (objs k))), mkSim (objs k ++ [v]) (cfg k)).
Definition drop_ref (v : objview) : objview := with_refs (o_refs v - 1) v.
Definition add_ref (v : objview) : objview := with_refs (o_refs v + 1) v.
Definition sim_release (o : obj) (k : simk) : simk :=
  let v := sim_look k o in
  fold_left (fun k q => sim_update drop_ref q k)
            (if o_refs v =? 1 then o_items v else [])
            (sim_update drop_ref o k).
Definition sim_setObject (a o : obj) (k : simk) : bool * simk :=
  if ok_append (cfg k)
  then (true, sim_update add_ref o (sim_update (fun v => with_items (o_items v ++ [o]) v) a k))
  else (false, k).
Definition new_buffer (cap : Z) : objview :=
  mkView 1 CIOBufferMemoryDescriptor [] cap true (replicate (Z.to_nat (cap / 4)) 0).

#[export] Instance SimKernel : Kernel := {|
  kst := simk;
  look := sim_look;
  k_page_size := 4096;
  k_super c k := (ok_super (cfg k) c, k);
  k_probe p s k := (Some p, s, k);
  k_release := sim_release;
  k_array_withCapacity _ k :=
    if ok_array (cfg k) then sim_new (mkView 1 COSArray [] 0 true []) k else (None, k);
  k_array_setObject := sim_setObject;
  k_bmd_withOptions _ cap _ k := if ok_buffer (cfg k) then sim_new (new_buffer cap) k else (None, k);
  k_bmd_store b i v k := sim_update (fun u => with_words (<[i := v]> (o_words u)) u) b k;
  k_mapDeviceMemory _ _ k :=
    if ok_map (cfg k)
    then sim_new (mkView 1 CIOMemoryMap [] (Z.max 0 (bar_length (cfg k))) (bar_address (cfg k)) []) k
    else (None, k);
  k_alloc_client k :=
    if ok_client (cfg k) then sim_new (mkView 1 CXeUserClient [] 0 true []) k else (None, k);
  k_attach u p k :=
    if ok_attach (cfg k) then (true, sim_update add_ref p (sim_update add_ref u k)) else (false, k);
  k_detach u p k := sim_update drop_ref p (sim_update drop_ref u k)
|}.

Lemma idx_inj o p : idx o = idx p -> o = p.
Proof. unfold idx. lia. Qed.

Lemma look_update f o k p :
  0 < o_refs (sim_look k p) \/ p <> o ->
  sim_look (sim_update f o k) p = if Pos.eqb p o then f (sim_look k p) else sim_look k p.
Proof.
  unfold sim_look, sim_update. simpl. intros H. rewrite list_lookup_alter.
  destruct (Pos.eqb_spec p o) as [->|Hne].
  - rewrite decide_True by done. destruct (objs k !! idx o) eqn:E; simpl in *; [done|].
    destruct H; [lia|congruence].
  - rewrite decide_False by (intros E%idx_inj; congruence). done.
Qed.

Lemma look_update_ne f o k p : p <> o -> sim_look (sim_update f o k) p = sim_look k p.
Proof. intros H. rewrite look_update by auto. by apply Pos.eqb_neq in H as ->. Qed.

Lemma look_update_eq f o k :
  0 < o_refs (sim_look k o) -> sim_look (sim_update f o k) o = f (sim_look k o).
Proof. intros H. rewrite look_update by auto. by rewrite Pos.eqb_refl. Qed.

Lemma sim_new_fresh v k o k' :
  sim_new v k = (Some o, k') -> o_refs v = 1 -> o_items v = [] ->
  fresh_object (H := SimKernel) o (o_class v) k k' /\ look k' o = v.
Proof.
  intros [= <- <-] Hr Hi.
  assert (Hidx : idx (Pos.of_succ_nat (List.length (objs k))) = List.length (objs k))
    by (unfold idx; lia).
  assert (Hv : sim_look (mkSim (objs k ++ [v]) (cfg k)) (Pos.of_succ_nat (List.length (objs k))) = v)
    by (unfold sim_look; simpl; rewrite Hidx, list_lookup_middle by done; done).
  split; [|exact Hv].
  unfold fresh_object. simpl look. rewrite Hv. repeat split; auto.
  - unfold sim_look. rewrite Hidx, lookup_ge_None_2 by done. done.
  - intros p Hp. simpl look. unfold sim_look. simpl.
    destruct (decide (idx p < List.length (objs k))%nat) as [Hlt|Hge].
    + by rewrite lookup_app_l.
    + assert (idx p <> List.length (objs k))
        by (intros E; apply Hp; left; unfold idx in E; lia).
      rewrite !lookup_ge_None_2; [done|lia|rewrite length_app; simpl; lia].
Qed.

Lemma look_drops p l : forall k,
  0 < o_refs (sim_look k p) \/ ~ In p l -> count p l <= o_refs (sim_look k p) \/ ~ In p l ->
  o_refs (sim_look (fold_left (fun k q => sim_update drop_ref q k) l k) p)
    = o_refs (sim_look k p) - count p l /\
  (0 < o_refs (sim_look k p) - count p l ->
   sim_look (fold_left (fun k q => sim_update drop_ref q k) l k) p
   = with_refs (o_refs (sim_look k p) - count p l) (sim_look k p)).
Proof.
  induction l as [|q l IH]; intros k Hlive Hle; unfold count in *; simpl in *.
  - split; [lia|]. intros _. rewrite Z.sub_0_r. by destruct (sim_look k p).
  - destruct (Pos.eq_dec q p) as [->|Hne].
    + destruct Hlive as [Hlive|Hno]; [|destruct Hno; auto].
      destruct Hle as [Hle|Hno]; [|destruct Hno; auto].
      destruct (IH (sim_update drop_ref p k)) as [H1 H2];
        rewrite ?look_update_eq in * by done; simpl in *.
      * destruct (in_dec Pos.eq_dec p l) as [Hin|]; [|auto]. left.
        apply (count_occ_In Pos.eq_dec) in Hin. lia.
      * left. lia.
      * rewrite H1. split; [lia|]. intros Hpos. rewrite H2 by lia. unfold drop_ref, with_refs.
        simpl. f_equal. lia.
    + destruct (IH (sim_update drop_ref q k)) as [H1 H2];
        rewrite ?look_update_ne in * by congruence; tauto.
Qed.

Lemma sim_release_law o k p :
  0 < o_refs (sim_look k o) ->
  let n := (if Pos.eqb p o then 1 else 0)
           + (if o_refs (sim_look k o) =? 1 then count p (o_items (sim_look k o)) else 0) in
  n <= o_refs (sim_look k p) ->
  o_refs (sim_look (sim_release o k) p) = o_refs (sim_look k p) - n /\
  (0 < o_refs (sim_look k p) - n ->
   sim_look (sim_release o k) p = with_refs (o_refs (sim_look k p) - n) (sim_look k p)).
Proof.
  intros Ho n Hn. unfold sim_release.
  set (l := if o_refs (sim_look k o) =? 1 then o_items (sim_look k o) else []).
  assert (Hc : (if o_refs (sim_look k o) =? 1 then count p (o_items (sim_look k o)) else 0) = count p l)
    by (unfold l; by destruct (_ =? 1)).
  subst n. rewrite Hc in Hn |- *.
  assert (Hcl : 0 < count p l \/ ~ In p l).
  { destruct (in_dec Pos.eq_dec p l) as [Hin|]; [left|auto].
    apply (count_occ_In Pos.eq_dec) in Hin. unfold count. lia. }
  assert (Hc0 : 0 <= count p l) by (unfold count; lia).
  destruct (Pos.eqb_spec p o) as [->|Hne].
  - destruct (look_drops o l (sim_update drop_ref o k)) as [H1 H2];
      rewrite ?look_update_eq in * by done; simpl in *; [destruct Hcl; [left; lia|auto]|left; lia|].
    split; [lia|]. intros Hpos. rewrite H2 by lia. unfold drop_ref, with_refs. simpl. f_equal. lia.
  - destruct (look_drops p l (sim_update drop_ref o k)) as [H1 H2];
      rewrite ?look_update_ne in * by done; [destruct Hcl; [left; lia|auto]|left; lia|].
    auto.
Qed.

Ltac frame_solve :=
  let q := fresh "q" in let Hq := fresh "Hq" in
  intros q Hq; simpl; rewrite ?look_update_ne by (intros ->; apply Hq; simpl; auto); done.

#[export] Instance SimLaws : KernelLaws (K := SimKernel).
Proof.
  constructor; simpl.
  - intros c k. apply frame_refl.
  - intros p s k. apply frame_refl.
  - intros o k p Ho _. exact (sim_release_law o k p Ho).
  - intros c k. destruct (ok_array (cfg k)); [|apply frame_refl].
    by apply (sim_new_fresh (mkView 1 COSArray [] 0 true [])).
  - intros a o k Hne Ha Ho. unfold sim_setObject. destruct (ok_append (cfg k)); [|apply frame_refl].
    rewrite look_update_ne by done. rewrite (look_update_eq _ a) by done.
    rewrite look_update_eq, look_update_ne by (rewrite ?look_update_ne; auto).
    split; [done|]. split; [done|]. frame_solve.
  - intros opts cap al k. destruct (ok_buffer (cfg k)); [|apply frame_refl].
    destruct (sim_new_fresh (new_buffer cap) k _ _ eq_refl eq_refl eq_refl) as [Hf Hl].
    simpl. simpl in Hl. rewrite Hl. simpl. split; [exact Hf|]. split; [done|]. apply length_replicate.
  - intros b i v k Hb. rewrite look_update_eq by done. split; [done|]. frame_solve.
  - intros d r k. destruct (ok_map (cfg k)); [|apply frame_refl].
    destruct (sim_new_fresh (mkView 1 CIOMemoryMap [] (Z.max 0 (bar_length (cfg k)))
                (bar_address (cfg k)) []) k _ _ eq_refl eq_refl eq_refl) as [Hf Hl].
    simpl. simpl in Hl. rewrite Hl. simpl. split; [exact Hf|lia].
  - intros k. destruct (ok_client (cfg k)); [|apply frame_refl].
    by apply (sim_new_fresh (mkView 1 CXeUserClient [] 0 true [])).
  - intros u p k Hne Hu Hp. destruct (ok_attach (cfg k)); [|apply frame_refl].
    rewrite look_update_ne by done. rewrite (look_update_eq _ u) by done.
    rewrite look_update_eq, look_update_ne by (rewrite ?look_update_ne; auto).
    split; [done|]. split; [done|]. frame_solve.
  - intros u p k Hne Hu Hp. rewrite look_update_ne by done.
    rewrite (look_update_eq _ u) by lia.
    rewrite look_update_eq, look_update_ne by (rewrite ?look_update_ne; auto; lia).
    split; [done|]. split; [done|]. frame_solve.
Qed.

(** The same kernel on a machine whose BAR0 is always 16 MiB, the size [lspci]
    reports for this device. *)
Definition big_map (k : simk) : ptr * simk :=
  if ok_map (cfg k) then sim_new (mkView 1 CIOMemoryMap [] 0x1000000 (bar_address (cfg k)) []) k else (None, k).

Definition BigBarKernel : Kernel := {|
  kst := simk;
  look := sim_look;
  k_page_size := 4096;
  k_super := k_super (Kernel := SimKernel);
  k_probe := k_probe (Kernel := SimKernel);
  k_release := sim_release;
  k_array_withCapacity := k_array_withCapacity (Kernel := SimKernel);
  k_array_setObject := sim_setObject;
  k_bmd_withOptions := k_bmd_withOptions (Kernel := SimKernel);
  k_bmd_store := k_bmd_store (Kernel := SimKernel);
  k_mapDeviceMemory _ _ := big_map;
  k_alloc_client := k_alloc_client (Kernel := SimKernel);
  k_attach := k_attach (Kernel := SimKernel);
  k_detach := k_detach (Kernel := SimKernel)
|}.

Lemma big_map_law k :
  match big_map k with
  | (Some m, k') => fresh_object (H := BigBarKernel) m CIOMemoryMap k k' /\ o_len (sim_look k' m) = 0x1000000
  | (None, k') => frame (H := BigBarKernel) [] k k'
  end.
Proof.
  unfold big_map. destruct (ok_map (cfg k)); [|apply frame_refl].
  destruct (sim_new_fresh (mkView 1 CIOMemoryMap [] 0x1000000 (bar_address (cfg k)) []) k _ _
              eq_refl eq_refl eq_refl) as [Hf Hl].
  simpl. simpl in Hl. rewrite Hl. split; [exact Hf|done].
Qed.

Lemma BigBarLaws : KernelLaws (K := BigBarKernel).
Proof.
  destruct SimLaws. constructor; [assumption..| |assumption|assumption|assumption].
  intros d r k. pose proof (big_map_law k) as H. simpl. destruct (big_map k) as [[m|] k']; [|exact H].
  destruct H as [Hf Hl]. split; [exact Hf|]. simpl. rewrite Hl. discriminate.
Qed.

(** ** Start states *)

(** The provider (object 1, a PCI device with three references held by the
    kernel) and the service itself (object 2). *)
Definition provider : obj := 1%positive.
Definition service : obj := 2%positive.
Definition sim_kernel (c : simcfg) : simk :=
  mkSim [mkView 3 CIOPCIDevice [] 0 true []; mkView 1 CXeService [] 0 true []] c.
Definition sim_regs (answers : bool) (l : list (Z * Z)) : regs :=
  mkRegs (list_to_map l) answers 0x8086 0xA788.
Definition sim_world (c : simcfg) (r : regs) (f : XeBootFlags) : world :=
  mkW (D := SimDevice) (K := SimKernel) r (sim_kernel c) f svc_init [] [].
Definition big_world (c : simcfg) (r : regs) (f : XeBootFlags) : world (K := BigBarKernel) :=
  mkW (D := SimDevice) (K := BigBarKernel) r (sim_kernel c) f svc_init [] [].

(** A world whose BAR0 is already mapped as object 3, with [len] bytes. *)
Definition mapped_world {D : Device} (len : Z) (h : hw) (f : XeBootFlags) : world :=
  mkW (D := D) (K := SimKernel) h
    (mkSim [mkView 3 CIOPCIDevice [] 0 true []; mkView 1 CXeService [] 0 true [];
            mkView 1 CIOMemoryMap [] len true []] (all_ok len))
    f (mkSvc (Some provider) (Some 3%positive) (Some 3%positive) len None) [] [].

End Sim.
