(* ===== verification/Forcewake.v ===== *)
(** * Forcewake: the RAII guard of [src/kexts/ForcewakeGuard.hpp]

    The guard asks the GT to stay powered by a masked write to
    [FORCEWAKE_REQ], polls [FORCEWAKE_ACK] at most 50 times, and its
    destructor withdraws the request.  The model is the constructor, the
    destructor and the private helpers; [guarded] is the C++ scope of a local
    guard object, with the destructor run on every exit of the body.  The
    theorems describe the bus traffic of such a scope exactly. *)

From Stdlib Require Import ZArith Lia Bool List String.
From stdpp Require Import base list option strings.
From S2P Require Import Prelude HwOffsets BootArgs Kernel SimKernel.
Import ListNotations.
Open Scope Z_scope.

Module Forcewake.
Import BootArgs Kern.

Definition kForcewakeMaxOffset : Z := 0x00FFFFFF.
Definition kErrorNullMMIO : Z := 0xDEADBEEF.
Definition kErrorOutOfRange : Z := 0xBAD0FFFF.

(** The fields [m] and [acquired]. *)
Record ForcewakeGuard : Type := mkGuard { m : ptr; acquired : bool }.

Section Guard.
Context `{D : Device} `{K : Kernel}.
Implicit Types w : world.

(** [rd] and [wr]: the accessors with the null and range checks. *)
Definition rd (m : ptr) (off : Z) : M world Z :=
  match m with
  | None => ret kErrorNullMMIO
  | Some b =>
      if kForcewakeMaxOffset <? off then ret kErrorOutOfRange
      else mmio_load b (Z.shiftr off 2)
  end.
Definition wr (m : ptr) (off v : Z) : M world unit :=
  match m with
  | None => ret tt
  | Some b =>
      if kForcewakeMaxOffset <? off then ret tt
      else mmio_store b (Z.shiftr off 2) v
  end.

Definition maxIterations : nat := 50.
Definition delayPerIteration : Z := 1000.

(** The [for] loop of [acquire]: [todo] iterations are left, [i] is the loop
    variable; the result is the new value of [acquired]. *)
Fixpoint poll (m : ptr) (todo : nat) (i : Z) : M world bool :=
  match todo with
  | O =>
      XeLog "ForcewakeGuard: WARNING - timeout after %dms, continuing without forcewake"
        [LZ ((Z.of_nat maxIterations * delayPerIteration) / 1000)] ;;;
      ret false
  | S todo' =>
      ack <- rd m XeHW.FORCEWAKE_ACK ;;
      if (ack =? kErrorNullMMIO) || (ack =? kErrorOutOfRange) then
        XeLog "ForcewakeGuard: ERROR - invalid ACK read (0x%08x)" [LZ ack] ;;; ret false
      else if flag ack 0x1 then
        XeLog "ForcewakeGuard: acquired after %d iterations (ACK=0x%08x)" [LZ (i + 1); LZ ack] ;;;
        ret true
      else IODelay delayPerIteration ;;; poll m todo' (i + 1)
  end.

Definition acquire (m : ptr) : M world bool :=
  XeLog "ForcewakeGuard: acquiring forcewake..." [] ;;;
  wr m XeHW.FORCEWAKE_REQ 0x00010001 ;;;
  poll m maxIterations 0.

Definition release_fw (m : ptr) : M world bool :=
  match m with
  | None => ret true
  | Some _ =>
      XeLog "ForcewakeGuard: releasing forcewake..." [] ;;;
      wr m XeHW.FORCEWAKE_REQ 0x00010000 ;;;
      XeLog "ForcewakeGuard: released" [] ;;;
      ret false
  end.

(** The constructor. *)
Definition guard_new (mmio : ptr) : M world ForcewakeGuard :=
  match mmio with
  | None => XeLog "ForcewakeGuard: SKIP - mmio is null" [] ;;; ret (mkGuard None false)
  | Some _ =>
      fl <- gets boot ;;
      if disableForcewake fl || strictSafe fl then
        XeLog "ForcewakeGuard: SKIP - disabled by boot flags" [] ;;; ret (mkGuard mmio false)
      else if (kForcewakeMaxOffset <? XeHW.FORCEWAKE_REQ) || (kForcewakeMaxOffset <? XeHW.FORCEWAKE_ACK) then
        XeLog "ForcewakeGuard: SKIP - register offsets out of range" [] ;;; ret (mkGuard mmio false)
      else
        a <- acquire mmio ;; ret (mkGuard mmio a)
  end.

(** The destructor. *)
Definition guard_delete (g : ForcewakeGuard) : M world unit :=
  if acquired g && bool_decide (is_Some (m g))
  then _ <- release_fw (m g) ;; ret tt else ret tt.

Definition isAcquired (g : ForcewakeGuard) : bool := acquired g.

(** A block with a local guard: the destructor runs whichever way it is left. *)
Definition guarded {A} (mmio : ptr) (body : ForcewakeGuard -> M world A) : M world A :=
  g <- guard_new mmio ;;
  r <- body g ;;
  guard_delete g ;;;
  ret r.

(** ** What the hardware sees *)

(** The request bit after the writes of a trace: [FORCEWAKE_REQ] is a masked
    register, so a write changes bit 0 only when its mask bit 16 is set. *)
Definition fw_step (req : bool) (e : event) : bool :=
  match e with
  | EWrite off v => if (off =? XeHW.FORCEWAKE_REQ) && Z.testbit v 16 then Z.testbit v 0 else req
  | _ => req
  end.
Definition fw_requested (t : list event) : bool := fold_left fw_step t false.

(** A poll that neither ends nor fails the loop. *)
Definition ack_pending (v : Z) : bool :=
  negb ((v =? kErrorNullMMIO) || (v =? kErrorOutOfRange)) && negb (flag v 0x1).
Definition ack_invalid (v : Z) : bool := (v =? kErrorNullMMIO) || (v =? kErrorOutOfRange).

Definition pending_events (vs : list Z) : list event :=
  flat_map (fun v => [ERead XeHW.FORCEWAKE_ACK v; EDelay delayPerIteration]) vs.

(** The traffic of a poll loop with [n] iterations left, by its outcome. *)
Inductive poll_run (n : nat) : bool -> list event -> Prop :=
| poll_acked vs v :
    Forall (fun v => ack_pending v = true) vs -> (List.length vs < n)%nat ->
    ack_invalid v = false -> flag v 0x1 = true ->
    poll_run n true (pending_events vs ++ [ERead XeHW.FORCEWAKE_ACK v])
| poll_invalid vs v :
    Forall (fun v => ack_pending v = true) vs -> (List.length vs < n)%nat ->
    ack_invalid v = true ->
    poll_run n false (pending_events vs ++ [ERead XeHW.FORCEWAKE_ACK v])
| poll_timeout vs :
    Forall (fun v => ack_pending v = true) vs -> List.length vs = n ->
    poll_run n false (pending_events vs).

(** The mapping covers the two forcewake registers. *)
Definition fw_mapped (w : world) (b : obj) : Prop :=
  0 < o_refs (look (kern w) b) /\ XeHW.FORCEWAKE_ACK + 4 <= o_len (look (kern w) b).

(** ** Proofs *)

Lemma fw_mapped_untouched w w' b : untouched w w' -> fw_mapped w b -> fw_mapped w' b.
Proof. unfold fw_mapped. intros (-> & _) H. exact H. Qed.

Lemma fw_in_object w b off :
  fw_mapped w b -> off = XeHW.FORCEWAKE_REQ \/ off = XeHW.FORCEWAKE_ACK ->
  in_object (kern w) b (4 * Z.shiftr off 2) 4 = true.
Proof.
  intros [Hr Hl] [-> | ->]; apply in_object_spec; (split; [done|]);
    revert Hl; vm_compute (4 * Z.shiftr _ 2); unfold XeHW.FORCEWAKE_ACK; lia.
Qed.

Lemma fw_wr w b v (Q : unit -> world -> Prop) :
  fw_mapped w b ->
  Q tt (add_event (EWrite XeHW.FORCEWAKE_REQ v) (set_hwst (dev_write (hwst w) XeHW.FORCEWAKE_REQ v) w)) ->
  wp (wr (Some b) XeHW.FORCEWAKE_REQ v) Q w.
Proof.
  intros Hm HQ. unfold wr. change (kForcewakeMaxOffset <? XeHW.FORCEWAKE_REQ) with false. cbv iota.
  apply wp_mmio_store; [apply fw_in_object; auto|]. exact HQ.
Qed.

Lemma fw_rd w b (Q : Z -> world -> Prop) :
  fw_mapped w b ->
  (forall v w', trace w' = trace w ++ [ERead XeHW.FORCEWAKE_ACK v] -> untouched w w' -> Q v w') ->
  wp (rd (Some b) XeHW.FORCEWAKE_ACK) Q w.
Proof.
  intros Hm HQ. unfold rd. change (kForcewakeMaxOffset <? XeHW.FORCEWAKE_ACK) with false. cbv iota.
  apply wp_mmio_load; [apply fw_in_object; auto|]. intros v h _ _.
  apply HQ; [reflexivity | repeat split].
Qed.

(** The poll loop ends, without a fault, with the traffic [poll_run] allows. *)
Lemma poll_spec n : forall w b i,
  fw_mapped w b ->
  wp (poll (Some b) n i)
     (fun a w' => untouched w w' /\ exists evs, trace w' = trace w ++ evs /\ poll_run n a evs) w.
Proof.
  induction n as [|n IH]; intros w b i Hm; cbn [poll].
  - repeat wstep. split; [repeat split|]. exists []. rewrite app_nil_r. split; [done|].
    apply (poll_timeout 0 []); auto.
  - wstep. apply fw_rd; [done|]. intros v w1 Ht1 Hu1.
    destruct ((v =? kErrorNullMMIO) || (v =? kErrorOutOfRange)) eqn:Hinv.
    { repeat wstep. split; [exact Hu1|]. exists [ERead XeHW.FORCEWAKE_ACK v]. split; [done|].
      apply (poll_invalid (S n) [] v); auto. simpl. lia. }
    destruct (flag v 0x1) eqn:Hf.
    { repeat wstep. split; [exact Hu1|]. exists [ERead XeHW.FORCEWAKE_ACK v]. split; [done|].
      apply (poll_acked (S n) [] v); auto. simpl. lia. }
    wstep. wstep. eapply wp_mono; [apply IH; eapply fw_mapped_untouched; [|exact Hm]; exact Hu1|].
    intros a w2 (Hu2 & evs & Ht2 & Hrun). split; [eapply untouched_trans; [exact Hu1|exact Hu2]|].
    exists ([ERead XeHW.FORCEWAKE_ACK v; EDelay delayPerIteration] ++ evs).
    split; [rewrite Ht2; simpl; rewrite Ht1, <- !app_assoc; done|].
    assert (Hp : ack_pending v = true) by (unfold ack_pending; rewrite Hinv, Hf; done).
    destruct Hrun as [vs u H1 H2 H3 H4 | vs u H1 H2 H3 | vs H1 H2];
      [apply (poll_acked (S n) (v :: vs) u) | apply (poll_invalid (S n) (v :: vs) u)
      |apply (poll_timeout (S n) (v :: vs))]; simpl; auto; lia.
Qed.

Lemma fw_step_pending req vs : fold_left fw_step (pending_events vs) req = req.
Proof. induction vs; simpl; auto. Qed.

Lemma poll_run_no_request n a evs req : poll_run n a evs -> fold_left fw_step evs req = req.
Proof. intros []; rewrite ?fold_left_app, fw_step_pending; reflexivity. Qed.

Lemma poll_run_bound n a evs : poll_run n a evs -> (List.length evs <= 2 * n)%nat.
Proof.
  assert (H : forall vs, List.length (pending_events vs) = (2 * List.length vs)%nat)
    by (induction vs as [|v vs IH]; simpl in *; lia).
  intros []; rewrite ?length_app, H; simpl; lia.
Qed.

(** What the constructor does on the bus: nothing in the safe modes, otherwise
    one request and a poll loop. *)
Inductive ctor_run (fl : XeBootFlags) : bool -> list event -> Prop :=
| ctor_skip : disableForcewake fl || strictSafe fl = true -> ctor_run fl false []
| ctor_poll a evs :
    disableForcewake fl || strictSafe fl = false -> poll_run maxIterations a evs ->
    ctor_run fl a (EWrite XeHW.FORCEWAKE_REQ 0x00010001 :: evs).

Lemma guard_new_spec w b :
  fw_mapped w b ->
  wp (guard_new (Some b))
     (fun g w' => m g = Some b /\ untouched w w' /\
        exists evs, trace w' = trace w ++ evs /\ ctor_run (boot w) (acquired g) evs) w.
Proof.
  intros Hm. unfold guard_new. wstep. wstep.
  destruct (disableForcewake (boot w) || strictSafe (boot w)) eqn:Hs.
  - repeat wstep. split; [done|]. split; [repeat split|]. exists []. simpl.
    rewrite app_nil_r. split; [done|]. by constructor.
  - change ((kForcewakeMaxOffset <? XeHW.FORCEWAKE_REQ) || (kForcewakeMaxOffset <? XeHW.FORCEWAKE_ACK))
      with false. cbv iota. unfold acquire. do 4 wstep. apply fw_wr; [exact Hm|].
    eapply wp_mono; [apply poll_spec; exact Hm|].
    intros a w' (Hu & evs & Ht & Hrun). wstep. split; [done|]. split; [exact Hu|].
    exists (EWrite XeHW.FORCEWAKE_REQ 0x00010001 :: evs).
    split; [rewrite Ht; simpl; rewrite <- app_assoc; done|]. by constructor.
Qed.

(** The destructor writes once when the guard holds forcewake, never otherwise. *)
Lemma guard_delete_spec w g b :
  m g = Some b -> fw_mapped w b ->
  wp (guard_delete g)
     (fun _ w' => untouched w w' /\
        trace w' = trace w ++ (if acquired g then [EWrite XeHW.FORCEWAKE_REQ 0x00010000] else [])) w.
Proof.
  intros Hg Hm. unfold guard_delete. rewrite Hg, bool_decide_true by eauto.
  destruct (acquired g); simpl andb; cbv iota.
  - unfold release_fw. repeat wstep. apply fw_wr; [exact Hm|]. repeat wstep.
    split; [repeat split|reflexivity].
  - wstep. split; [repeat split|]. by rewrite app_nil_r.
Qed.

(** A whole scope: constructor, body, destructor. *)
Lemma guarded_spec {A} (body : ForcewakeGuard -> M world A) w b (P : A -> list event -> Prop) :
  fw_mapped w b ->
  (forall (g : ForcewakeGuard) (w1 : world), m g = Some b -> untouched w w1 ->
     wp (body g) (fun (r : A) (w2 : world) => untouched w1 w2 /\ exists evs, trace w2 = trace w1 ++ evs /\ P r evs) w1) ->
  wp (guarded (Some b) body)
     (fun (r : A) (w' : world) => untouched w w' /\ exists (a : bool) (pre mid : list event),
        trace w' = trace w ++ pre ++ mid ++ (if a then [EWrite XeHW.FORCEWAKE_REQ 0x00010000] else []) /\
        ctor_run (boot w) a pre /\ P r mid) w.
Proof.
  intros Hm Hbody. unfold guarded. wstep. eapply wp_mono; [by apply guard_new_spec|].
  intros g w1 (Hg & Hu1 & pre & Ht1 & Hpre). wstep.
  eapply wp_mono; [apply Hbody; done|]. intros r w2 (Hu2 & mid & Ht2 & HP). wstep.
  assert (Hu12 : untouched w w2) by (eapply untouched_trans; eassumption).
  eapply wp_mono; [eapply guard_delete_spec; [exact Hg | eapply fw_mapped_untouched; eassumption]|].
  intros [] w3 (Hu3 & Ht3). wstep. split; [eapply untouched_trans; eassumption|].
  exists (acquired g), pre, mid. split; [|done].
  rewrite Ht3, Ht2, Ht1, <- !app_assoc. done.
Qed.

Lemma ctor_run_bound fl a evs : ctor_run fl a evs -> (List.length evs <= 101)%nat.
Proof.
  intros [|a' evs' _ H]; simpl; [lia|]. apply poll_run_bound in H. unfold maxIterations in H. lia.
Qed.

(** The request bit after a scope whose body leaves [FORCEWAKE_REQ] alone. *)
Lemma scope_request fl a pre mid req :
  ctor_run fl a pre -> (forall r, fold_left fw_step mid r = r) ->
  fold_left fw_step
    (pre ++ mid ++ (if a then [EWrite XeHW.FORCEWAKE_REQ 0x00010000] else [])) req
  = if a then false else if disableForcewake fl || strictSafe fl then req else true.
Proof.
  intros Hpre Hmid. rewrite !fold_left_app, Hmid.
  destruct Hpre as [Hs|a evs Hs Hrun].
  - rewrite Hs. reflexivity.
  - simpl fold_left at 2. rewrite (poll_run_no_request _ _ _ _ Hrun), Hs. by destruct a.
Qed.

(** If the device never sets the acknowledge bit, the poll never succeeds. *)
Lemma poll_never_acked n : forall w b i,
  (forall h, flag (fst (dev_read h XeHW.FORCEWAKE_ACK)) 0x1 = false) ->
  fw_mapped w b -> wp (poll (Some b) n i) (fun a _ => a = false) w.
Proof.
  induction n as [|n IH]; intros w b i Hna Hm; cbn [poll]; [repeat wstep; done|].
  wstep. unfold rd. change (kForcewakeMaxOffset <? XeHW.FORCEWAKE_ACK) with false. cbv iota.
  apply wp_mmio_load; [apply fw_in_object; auto|]. intros v h Hv _.
  destruct ((v =? kErrorNullMMIO) || (v =? kErrorOutOfRange)); [repeat wstep; done|].
  replace (flag v 0x1) with false
    by (symmetry; change v with (fst (v, h)); rewrite Hv; apply Hna).
  do 2 wstep. by apply IH.
Qed.

Lemma guard_new_never_acked w b :
  (forall h, flag (fst (dev_read h XeHW.FORCEWAKE_ACK)) 0x1 = false) ->
  fw_mapped w b -> wp (guard_new (Some b)) (fun g _ => acquired g = false) w.
Proof.
  intros Hna Hm. unfold guard_new. do 2 wstep.
  destruct (disableForcewake (boot w) || strictSafe (boot w)); [repeat wstep; done|].
  change ((kForcewakeMaxOffset <? XeHW.FORCEWAKE_REQ) || (kForcewakeMaxOffset <? XeHW.FORCEWAKE_ACK))
    with false. cbv iota. unfold acquire. do 4 wstep. apply fw_wr; [exact Hm|].
  eapply wp_mono; [by apply poll_never_acked|]. intros a w' ->. by wstep.
Qed.

(** A body that leaves the kernel, the flags and the service alone, and whose
    bus traffic satisfies [P]. *)
Definition well_behaved {A} (body : ForcewakeGuard -> M world A) (w : world) (b : obj)
    (P : A -> list event -> Prop) : Prop :=
  forall (g : ForcewakeGuard) (w1 : world), m g = Some b -> untouched w w1 ->
    wp (body g) (fun (r : A) (w2 : world) =>
      untouched w1 w2 /\ exists evs, trace w2 = trace w1 ++ evs /\ P r evs) w1.

(** The polls of a constructor were answered: the last one has the
    acknowledge bit and is no sentinel. *)
Definition acknowledged (evs : list event) : Prop :=
  exists init v, evs = init ++ [ERead XeHW.FORCEWAKE_ACK v] /\ ack_invalid v = false /\ flag v 0x1 = true.

Lemma pending_last vs init v : pending_events vs = init ++ [ERead XeHW.FORCEWAKE_ACK v] -> False.
Proof.
  induction vs as [|u vs _] using rev_ind; [by destruct init|]. unfold pending_events. rewrite flat_map_app. simpl.
  rewrite (app_assoc _ [_] [_] : _ ++ [_; _] = _). by intros [_ [=]]%app_inj_tail.
Qed.

Lemma poll_run_acked n a evs : poll_run n a evs -> a = true <-> acknowledged evs.
Proof.
  intros [vs v _ _ Hi Hf|vs v _ _ Hi|vs _ _].
  - split; [intros _|done]. by exists (pending_events vs), v.
  - split; [done|]. intros (init & u & [_ [= ->]]%app_inj_tail & Hu & _). congruence.
  - split; [done|]. intros (init & u & E & _). by apply pending_last in E.
Qed.

Lemma ctor_run_acked fl a evs : ctor_run fl a evs -> a = true <-> acknowledged evs.
Proof.
  intros [_|a' evs' _ Hrun].
  - split; [done|]. intros (init & v & E & _). by destruct init.
  - rewrite (poll_run_acked _ _ _ Hrun). split.
    + intros (init & v & -> & H). by exists (EWrite XeHW.FORCEWAKE_REQ 0x00010001 :: init), v.
    + intros ([|e init] & v & E & H); simplify_eq/=. by exists init, v.
Qed.

(** What the scope adds to the traffic of its constructor. *)
Lemma scope_balanced {A} (body : ForcewakeGuard -> M world A) w b (P : A -> list event -> Prop) :
  fw_mapped w b -> well_behaved body w b P ->
  (forall r evs req, P r evs -> fold_left fw_step evs req = req) ->
  exists g w1 pre, guard_new (Some b) w = Done g w1 /\ trace w1 = trace w ++ pre /\
    ctor_run (boot w) (acquired g) pre /\
    wp (guarded (Some b) body)
      (fun r w' => untouched w w' /\ exists mid, P r mid /\
         trace w' = trace w1 ++ mid ++ (if acquired g then [EWrite XeHW.FORCEWAKE_REQ 0x00010000] else []) /\
         (acquired g = true -> fw_requested (trace w') = false)) w.
Proof.
  intros Hm Hbody Hneutral.
  destruct (proj1 (wp_run _ _ _) (guard_new_spec w b Hm)) as (g & w1 & Hnew & Hg & Hu1 & pre & Ht1 & Hpre).
  exists g, w1, pre. split; [done|]. split; [done|]. split; [done|]. unfold guarded. wstep. unfold wp at 1. rewrite Hnew. wstep.
  eapply wp_mono; [by apply Hbody|]. intros r w2 (Hu2 & mid & Ht2 & HP). wstep.
  assert (Hu12 : untouched w w2) by (eapply untouched_trans; eassumption).
  eapply wp_mono; [eapply guard_delete_spec; [exact Hg | eapply fw_mapped_untouched; eassumption]|].
  intros [] w3 (Hu3 & Ht3). wstep. split; [eapply untouched_trans; eassumption|].
  assert (Ht : trace w3 = trace w1 ++ mid ++ (if acquired g then [EWrite XeHW.FORCEWAKE_REQ 0x00010000] else []))
    by (rewrite Ht3, Ht2, <- app_assoc; done).
  exists mid. split; [done|]. split; [done|]. intros Ha. unfold fw_requested. rewrite Ht, Ht1, <- app_assoc, fold_left_app.
  rewrite (scope_request (boot w) (acquired g) pre mid) by eauto. by rewrite Ha.
Qed.

Lemma scope_timeout {A} (body : ForcewakeGuard -> M world A) w b
    (P : A -> list event -> Prop) :
  fw_mapped w b -> well_behaved body w b P ->
  (forall r evs req, P r evs -> fold_left fw_step evs req = req) ->
  disableForcewake (boot w) || strictSafe (boot w) = false ->
  (forall h, flag (fst (dev_read h XeHW.FORCEWAKE_ACK)) 0x1 = false) ->
  wp (guarded (Some b) body) (fun _ w' => fw_requested (trace w') = true) w.
Proof.
  intros Hm Hbody Hneutral Hs Hna. unfold guarded. wstep.
  eapply wp_mono; [apply wp_conj; [apply guard_new_spec | apply guard_new_never_acked]; done|].
  intros g w1 ((Hg & Hu1 & pre & Ht1 & Hpre) & Hacq). wstep.
  eapply wp_mono; [by apply Hbody|]. intros r w2 (Hu2 & mid & Ht2 & HP). wstep.
  assert (Hm2 : fw_mapped w2 b)
    by (apply (fw_mapped_untouched w); [by apply (untouched_trans w w1 w2)|done]).
  eapply wp_mono; [by apply (guard_delete_spec w2 g b)|]. intros [] w3 (_ & Ht3). wstep.
  unfold fw_requested. rewrite Ht3, Ht2, Ht1, <- !app_assoc, fold_left_app.
  rewrite (scope_request (boot w)) by eauto. by rewrite Hacq, Hs.
Qed.


End Guard.

(** *** Witnesses *)

Import Sim.

(** The world of the witnesses: BAR0 mapped as object 3, 2 MiB long. *)
Definition demo {D : Device} (h : hw) : world := Sim.mapped_world 0x200000 h default_flags.
Definition demo_body `{D : Device} (g : ForcewakeGuard) : M world bool := ret (isAcquired g).

Lemma demo_mapped {D : Device} (h : hw) : fw_mapped (demo h) 3%positive.
Proof. split; vm_compute; [reflexivity|discriminate]. Qed.

Lemma demo_well_behaved {D : Device} (h : hw) :
  well_behaved demo_body (demo h) 3%positive (fun _ evs => evs = []).
Proof.
  intros g w1 _ _. unfold demo_body. wstep. split; [repeat split|].
  exists []. by rewrite app_nil_r.
Qed.

Lemma done_test {S A} (r : outcome S A) a s (f : A -> bool) :
  r = Done a s -> match r with Done a _ => f a | Fault _ => false end = true -> f a = true.
Proof. by intros ->. Qed.


End Forcewake.
