(* ===== verification/GGTT.v ===== *)
(** * GGTT: the probing helpers of [src/kexts/XeGGTT.hpp]

    Static functions on the BAR0 pointer: [probe] logs the page-table control,
    power-well and first fence registers, [getInfo] and [getFence] return
    them.  The only bound they check is the 16 MiB limit [kGGTTMaxOffset], not
    the length of the mapping; the theorems make that difference explicit. *)

From Stdlib Require Import ZArith Lia Bool List String.
From stdpp Require Import base list option strings.
From S2P Require Import Prelude HwOffsets BootArgs Kernel SimKernel.
Import ListNotations.
Open Scope Z_scope.

Module GGTT.
Import BootArgs Kern.

Definition kGGTTMaxOffset : Z := 0x00FFFFFF.
Definition kErrorNullMMIO : Z := 0xDEADBEEF.
Definition kErrorOutOfRange : Z := 0xBAD0FFFF.

Record GGTTInfo : Type := mkInfo { pgtblCtl : Z; apertureSize : Z; isValid : bool }.
Record FenceInfo : Type := mkFence { start : Z; end_ : Z; active : bool; valid : bool }.

(** The [= {}] initialisers. *)
Definition info0 : GGTTInfo := mkInfo 0 0 false.
Definition fence0 : FenceInfo := mkFence 0 0 false false.

Section GGTT.
Context `{D : Device} `{K : Kernel}.
Implicit Types w : world.

Definition safeRead (mmio : ptr) (off : Z) : M world Z :=
  match mmio with
  | None => ret kErrorNullMMIO
  | Some b => if kGGTTMaxOffset <? off then ret kErrorOutOfRange else mmio_load b (Z.shiftr off 2)
  end.

Definition is_error (v : Z) : bool := (v =? kErrorNullMMIO) || (v =? kErrorOutOfRange).

Definition probe (mmio : ptr) : M world bool :=
  XeLog "XeGGTT::probe: starting GGTT probe" [] ;;;
  match mmio with
  | None => XeLog "XeGGTT::probe: ERROR - mmio is null" [] ;;; ret false
  | Some _ =>
      pgtblCtl <- safeRead mmio XeHW.PGTBL_CTL ;;
      if is_error pgtblCtl then
        XeLog "XeGGTT::probe: ERROR - failed to read PGTBL_CTL" [] ;;; ret false
      else
        pwrWell1 <- safeRead mmio XeHW.HSW_PWR_WELL_CTL1 ;;
        pwrWell2 <- safeRead mmio XeHW.HSW_PWR_WELL_CTL2 ;;
        XeLog "XeGGTT::probe: PGTBL_CTL=0x%08x" [LZ pgtblCtl] ;;;
        XeLog "XeGGTT::probe: PWR_WELL1=0x%08x PWR_WELL2=0x%08x" [LZ pwrWell1; LZ pwrWell2] ;;;
        (if (XeHW.FENCE_START 0 <=? kGGTTMaxOffset) && (XeHW.FENCE_END 0 <=? kGGTTMaxOffset) then
           fence0Start <- safeRead mmio (XeHW.FENCE_START 0) ;;
           fence0End <- safeRead mmio (XeHW.FENCE_END 0) ;;
           XeLog "XeGGTT::probe: FENCE0 start=0x%08x end=0x%08x" [LZ fence0Start; LZ fence0End]
         else XeLog "XeGGTT::probe: SKIP - fence registers out of range" []) ;;;
        XeLog "XeGGTT::probe: completed successfully" [] ;;;
        ret true
  end.

Definition getInfo (mmio : ptr) : M world GGTTInfo :=
  match mmio with
  | None => XeLog "XeGGTT::getInfo: ERROR - mmio is null" [] ;;; ret info0
  | Some _ =>
      ctl <- safeRead mmio XeHW.PGTBL_CTL ;;
      if is_error ctl then
        XeLog "XeGGTT::getInfo: ERROR - failed to read PGTBL_CTL" [] ;;;
        ret (mkInfo ctl 0 false)
      else
        let info := mkInfo ctl XeHW.GGTT_ApertureBytes true in
        XeLog "XeGGTT::getInfo: PGTBL_CTL=0x%08x aperture=%uMB"
          [LZ (pgtblCtl info); LZ (apertureSize info / (1024 * 1024))] ;;;
        ret info
  end.

Definition getFence (mmio : ptr) (index : Z) : M world FenceInfo :=
  match mmio with
  | None => XeLog "XeGGTT::getFence: ERROR - mmio is null" [] ;;; ret fence0
  | Some _ =>
      if XeHW.FENCE_REG_COUNT <=? index then
        XeLog "XeGGTT::getFence: ERROR - index %u out of range (max %u)"
          [LZ index; LZ (XeHW.FENCE_REG_COUNT - 1)] ;;;
        ret fence0
      else
        let startOff := XeHW.FENCE_START index in
        let endOff := XeHW.FENCE_END index in
        if (kGGTTMaxOffset <? startOff) || (kGGTTMaxOffset <? endOff) then
          XeLog "XeGGTT::getFence: ERROR - fence %u offsets out of range" [LZ index] ;;; ret fence0
        else
          s <- safeRead mmio startOff ;;
          e <- safeRead mmio endOff ;;
          let info := mkFence s e (negb (s =? 0) || negb (e =? 0)) true in
          XeLog "XeGGTT::getFence[%u]: start=0x%08x end=0x%08x active=%d"
            [LZ index; LZ (start info); LZ (end_ info); LB (active info)] ;;;
          ret info
  end.

(** ** Proofs *)

Lemma wp_safeRead b off (Q : Z -> world -> Prop) w :
  readable (kern w) b off -> off <= kGGTTMaxOffset ->
  (forall v (w' : world), is_u32 v -> adv w [ERead off v] w' -> Q v w') ->
  wp (safeRead (Some b) off) Q w.
Proof.
  intros Hr Hmax HQ. unfold safeRead. rewrite (proj2 (Z.ltb_ge _ _)) by done.
  by apply wp_load_off.
Qed.

(** What [probe] reads: only PGTBL_CTL when its value is an error sentinel,
    otherwise also the two power wells and the first fence pair. *)
Definition probe_reads (ok : bool) (vs : list Z) : list event :=
  reads (zip (if ok then [XeHW.PGTBL_CTL; XeHW.HSW_PWR_WELL_CTL1; XeHW.HSW_PWR_WELL_CTL2;
                          XeHW.FENCE_START 0; XeHW.FENCE_END 0]
              else [XeHW.PGTBL_CTL]) vs).

(** One [safeRead] of a constant offset, after the traffic [evs]. *)
Lemma safeRead_after b n off evs (Q : Z -> world -> Prop) w0 w :
  spans (kern w0) b n -> adv w0 evs w ->
  dword_below n off && (off <=? kGGTTMaxOffset) = true ->
  (forall v (w' : world), is_u32 v -> adv w0 (evs ++ [ERead off v]) w' -> Q v w') ->
  wp (safeRead (Some b) off) Q w.
Proof.
  intros Hs Ha Hb HQ. apply andb_true_iff in Hb as [Hb Hm]. apply Z.leb_le in Hm.
  apply wp_safeRead; [|done|].
  - apply (readable_adv w0 w evs); [done|]. by apply (spans_readable _ _ n).
  - intros v w' Hv Ha'. apply HQ; [done|]. by apply (adv_app w0 w w').
Qed.

(** The BAR0 length [probe] needs: the first fence pair ends there. *)
Definition probe_span : Z := XeHW.FENCE_END 0 + 4.

Lemma probe_spec w b :
  spans (kern w) b probe_span ->
  wp (probe (Some b))
     (fun ok w' => exists vs, adv w (probe_reads ok vs) w' /\
        List.length vs = (if ok then 5 else 1)%nat /\
        ok = negb (is_error (nth 0 vs 0))) w.
Proof.
  intros Hs. unfold probe. do 3 wstep.
  eapply (safeRead_after b probe_span _ [] _ w); [done|exact (adv_refl w)|reflexivity|].
  intros v0 w1 _ H1. destruct (is_error v0) eqn:He.
  - repeat wstep. exists [v0]. simpl. rewrite He. split; [|done]. exact H1.
  - wstep. eapply (safeRead_after b probe_span); [done|exact H1|reflexivity|]. intros v1 w2 _ H2.
    wstep. eapply (safeRead_after b probe_span); [done|exact H2|reflexivity|]. intros v2 w3 _ H3.
    do 5 wstep.
    change ((XeHW.FENCE_START 0 <=? kGGTTMaxOffset) && (XeHW.FENCE_END 0 <=? kGGTTMaxOffset)) with true.
    cbv iota. wstep.
    eapply (safeRead_after b probe_span); [done|exact H3|reflexivity|]. intros v3 w4 _ H4. wstep.
    eapply (safeRead_after b probe_span); [done|exact H4|reflexivity|]. intros v4 w5 _ H5.
    repeat wstep. exists [v0; v1; v2; v3; v4]. simpl nth. rewrite He. split; [|done]. exact H5.
Qed.

Lemma fence_dword i : 0 <= i < XeHW.FENCE_REG_COUNT ->
  dword_below (XeHW.FENCE_REG_BASE + 256) (XeHW.FENCE_START i) && (XeHW.FENCE_START i <=? kGGTTMaxOffset) = true /\
  dword_below (XeHW.FENCE_REG_BASE + 256) (XeHW.FENCE_END i) && (XeHW.FENCE_END i <=? kGGTTMaxOffset) = true.
Proof.
  intros Hi. destruct (XeHW.fence_offsets i Hi) as [-> ->].
  unfold dword_below, XeHW.FENCE_REG_BASE, XeHW.FENCE_REG_COUNT, kGGTTMaxOffset in *.
  rewrite !andb_true_iff, !Z.leb_le, !Z.eqb_eq. 
  replace (0x100000 + 8 * i + 4) with ((262145 + 2 * i) * 4) by lia.
  replace (0x100000 + 8 * i) with ((262144 + 2 * i) * 4) by lia.
  rewrite !Z.mod_mul by lia. lia.
Qed.

Lemma getFence_run w b index :
  spans (kern w) b (XeHW.FENCE_REG_BASE + 256) -> 0 <= index ->
  wp (getFence (Some b) index)
     (fun info w' =>
        if index <? XeHW.FENCE_REG_COUNT then
          exists s e, info = mkFence s e (negb (s =? 0) || negb (e =? 0)) true /\
            adv w [ERead (XeHW.FENCE_REG_BASE + 8 * index) s;
                   ERead (XeHW.FENCE_REG_BASE + 8 * index + 4) e] w'
        else info = fence0 /\ adv w [] w') w /\
  wp (getFence None index) (fun info w' => info = fence0 /\ adv w [] w') w.
Proof.
  intros Hs Hi. split; [|unfold getFence; repeat wstep; split; [done|]; apply (adv_log w w), adv_refl].
  unfold getFence. rewrite Z.leb_antisym. destruct (Z.ltb_spec index XeHW.FENCE_REG_COUNT) as [Hlt|Hge];
    cbn [negb]; [|repeat wstep; split; [done|]; apply (adv_log w w), adv_refl].
  destruct (fence_dword index ltac:(lia)) as [Hds Hde].
  destruct (XeHW.fence_offsets index ltac:(lia)) as [Es Ee].
  assert (Hnb : (kGGTTMaxOffset <? XeHW.FENCE_START index) || (kGGTTMaxOffset <? XeHW.FENCE_END index) = false).
  { apply andb_true_iff in Hds as [_ Hs']. apply andb_true_iff in Hde as [_ He'].
    rewrite Z.leb_le in Hs', He'. apply orb_false_iff. rewrite !Z.ltb_ge. auto. }
  rewrite Hnb. wstep.
  eapply (safeRead_after b _ _ [] _ w); [exact Hs|apply adv_refl|exact Hds|]. intros s w1 _ H1. wstep.
  eapply (safeRead_after b); [exact Hs|exact H1|exact Hde|]. intros e w2 _ H2. repeat wstep.
  exists s, e. split; [done|]. rewrite Es, Ee in H2. exact H2.
Qed.

Lemma probe_fence_block w b :
  0 < o_refs (look (kern w) b) ->
  (XeHW.HSW_PWR_WELL_CTL2 + 4 <= o_len (look (kern w) b) < XeHW.FENCE_REG_BASE + 4 ->
   (forall h, is_error (fst (dev_read h XeHW.PGTBL_CTL)) = false) ->
   exists w', probe (Some b) w = Fault w') /\
  (probe_span <= o_len (look (kern w) b) -> exists ok w', probe (Some b) w = Done ok w').
Proof.
  intros Hr. split.
  - intros [Hlo Hhi] Hne. change (faults (probe (Some b)) w).
    assert (Hs : spans (kern w) b (XeHW.HSW_PWR_WELL_CTL2 + 4)) by (split; auto).
    unfold probe. apply faults_later; wstep. apply faults_later.
    apply wp_mmio_load.
    { apply readable_in_object. by apply (spans_readable _ _ (XeHW.HSW_PWR_WELL_CTL2 + 4)). }
    intros v0 h Hv _. replace (is_error v0) with false
      by (symmetry; change v0 with (fst (v0, h)); rewrite Hv; apply Hne).
    apply faults_later.
    eapply (safeRead_after b (XeHW.HSW_PWR_WELL_CTL2 + 4) _ [_] _ w);
      [done|split; [repeat split|reflexivity]|reflexivity|]. intros v1 w2 _ H2.
    apply faults_later. eapply (safeRead_after b); [exact Hs|exact H2|reflexivity|]. intros v2 w3 _ H3.
    do 2 (apply faults_later; wstep). apply faults_here.
    change ((XeHW.FENCE_START 0 <=? kGGTTMaxOffset) && (XeHW.FENCE_END 0 <=? kGGTTMaxOffset)) with true.
    apply faults_here.
    assert (Hf : in_object (kern w3) b (4 * Z.shiftr (XeHW.FENCE_START 0) 2) 4 = false).
    { destruct H3 as [(-> & _) _]. apply not_true_is_false. rewrite in_object_spec.
      change (4 * Z.shiftr (XeHW.FENCE_START 0) 2) with XeHW.FENCE_REG_BASE. lia. }
    unfold faults, safeRead, mmio_load. change (kGGTTMaxOffset <? XeHW.FENCE_START 0) with false.
    cbn [kern add_log]. rewrite Hf. eauto.
  - intros Hl. pose proof (probe_spec w b (conj Hr Hl)) as H.
    apply wp_run in H as (ok & w' & Hrun & _). eauto.
Qed.


End GGTT.

Import Sim.


End GGTT.
