(* ===== verification/CommandStream.v ===== *)
(** * CommandStream: [src/kexts/XeCommandStream.cpp]

    [logRcs0State] reads the render ring's registers under a forcewake guard
    and logs them; [submitNoop] writes a no-operation batch into a buffer and
    logs the ring.  Neither programs the ring (the code says so), and the
    theorems confirm it: the only register ever written is the forcewake
    request. *)

From Stdlib Require Import ZArith Lia Bool List String.
From stdpp Require Import base list option strings.
From S2P Require Import Prelude HwOffsets IOReturn BootArgs Kernel SimKernel Forcewake.
Import ListNotations.
Open Scope Z_scope.

Module CommandStream.
Import BootArgs Kern IOReturn Forcewake.

Definition kCSMaxOffset : Z := 0x00FFFFFF.

Section CommandStream.
Context `{D : Device} `{K : Kernel}.
Implicit Types w : world.

Definition safeRd (m : ptr) (off : Z) : M world Z :=
  match m with
  | None => ret 0xDEADBEEF
  | Some b => if kCSMaxOffset <? off then ret 0xBAD0FFFF else mmio_load b (Z.shiftr off 2)
  end.

(** [valid()] and the private, unchecked accessors of the class. *)
Definition valid (m : ptr) : bool := bool_decide (is_Some m).
Definition cs_rd (m : ptr) (off : Z) : M world Z :=
  match m with Some b => mmio_load b (Z.shiftr off 2) | None => ret 0 end.
Definition cs_wr (m : ptr) (off v : Z) : M world unit :=
  match m with Some b => mmio_store b (Z.shiftr off 2) v | None => ret tt end.

(** The part of [logRcs0State] inside the scope of the guard [fw]. *)
Definition ring_body (m : ptr) (fw : ForcewakeGuard) : M world unit :=
  when (negb (isAcquired fw))
    (fl <- gets boot ;;
     if disableForcewake fl
     then XeLog "XeCS::logRcs0State: forcewake disabled, reading without it" []
     else XeLog "XeCS::logRcs0State: WARNING - failed to acquire forcewake, reads may be unreliable" []) ;;;
  XeLog "XeCS::logRcs0State: reading ring registers..." [] ;;;
  ringHead <- safeRd m XeHW.RCS0_RING_HEAD ;;
  ringTail <- safeRd m XeHW.RCS0_RING_TAIL ;;
  ringCtl <- safeRd m XeHW.RCS0_RING_CTL ;;
  if (ringHead =? 0xDEADBEEF) || (ringTail =? 0xDEADBEEF) || (ringCtl =? 0xDEADBEEF) then
    XeLog "XeCS::logRcs0State: ERROR - null mmio during read" []
  else if (ringHead =? 0xBAD0FFFF) || (ringTail =? 0xBAD0FFFF) || (ringCtl =? 0xBAD0FFFF) then
    XeLog "XeCS::logRcs0State: ERROR - offset out of range" []
  else
    XeLog "XeCS::logRcs0State: HEAD=0x%08x TAIL=0x%08x CTL=0x%08x"
      [LZ ringHead; LZ ringTail; LZ ringCtl] ;;;
    when ((XeHW.RCS0_MI_MODE <=? kCSMaxOffset) && (XeHW.GFX_MODE <=? kCSMaxOffset))
      (miMode <- safeRd m XeHW.RCS0_MI_MODE ;;
       gfxMode <- safeRd m XeHW.GFX_MODE ;;
       XeLog "XeCS::logRcs0State: MI_MODE=0x%08x GFX_MODE=0x%08x" [LZ miMode; LZ gfxMode]) ;;;
    let ringEnabled := flag ringCtl (Z.shiftl 1 0) in
    let ringSize := Z.land (Z.shiftr ringCtl 12) 0x1FF in
    XeLog "XeCS::logRcs0State: ring %s, size=%u pages"
      [LS (if ringEnabled then "ENABLED" else "DISABLED"); LZ ringSize] ;;;
    XeLog "XeCS::logRcs0State: completed" [].

Definition logRcs0State (m : ptr) : M world unit :=
  XeLog "XeCS::logRcs0State: starting" [] ;;;
  match m with
  | None => XeLog "XeCS::logRcs0State: ERROR - mmio is null" []
  | Some _ =>
      fl <- gets boot ;;
      if disableCommandStream fl || strictSafe fl then
        XeLog "XeCS::logRcs0State: SKIP - disabled by boot flags" []
      else if (kCSMaxOffset <? XeHW.RCS0_RING_HEAD) || (kCSMaxOffset <? XeHW.RCS0_RING_TAIL)
              || (kCSMaxOffset <? XeHW.RCS0_RING_CTL) then
        XeLog "XeCS::logRcs0State: ERROR - ring register offsets out of range" []
      else
        XeLog "XeCS::logRcs0State: acquiring forcewake for register access" [] ;;;
        guarded m (ring_body m)
  end.

(** The four commands of the batch. *)
Definition noop_batch : list Z := [XeHW.MI_NOOP; XeHW.MI_NOOP; XeHW.MI_NOOP; XeHW.MI_BATCH_BUFFER_END].

Definition submitNoop (m bo : ptr) : M world Z :=
  XeLog "XeCS::submitNoop: starting" [] ;;;
  match m with
  | None => XeLog "XeCS::submitNoop: ERROR - mmio is null" [] ;;; ret kIOReturnNotReady
  | Some _ =>
  match bo with
  | None => XeLog "XeCS::submitNoop: ERROR - buffer is null" [] ;;; ret kIOReturnBadArgument
  | Some b =>
      fl <- gets boot ;;
      if disableCommandStream fl || strictSafe fl then
        XeLog "XeCS::submitNoop: SKIP - disabled by boot flags" [] ;;; ret kIOReturnNotReady
      else
        rawAddr <- gets (fun w => o_addr (look (kern w) b)) ;;
        if negb rawAddr then
          XeLog "XeCS::submitNoop: ERROR - failed to get buffer address" [] ;;; ret kIOReturnNoMemory
        else
          bufSize <- gets (fun w => o_len (look (kern w) b)) ;;
          if bufSize <? 16 then
            XeLog "XeCS::submitNoop: ERROR - buffer too small (%llu bytes)" [LZ bufSize] ;;;
            ret kIOReturnNoSpace
          else
            XeLog "XeCS::submitNoop: buffer at %p, size=%llu bytes" [LZ bufSize] ;;;
            buf_store b 0 XeHW.MI_NOOP ;;;
            buf_store b 1 XeHW.MI_NOOP ;;;
            buf_store b 2 XeHW.MI_NOOP ;;;
            buf_store b 3 XeHW.MI_BATCH_BUFFER_END ;;;
            c0 <- buf_load b 0 ;;
            c1 <- buf_load b 1 ;;
            c2 <- buf_load b 2 ;;
            c3 <- buf_load b 3 ;;
            XeLog "XeCS::submitNoop: wrote NOOP batch: [0]=0x%08x [1]=0x%08x [2]=0x%08x [3]=0x%08x"
              [LZ c0; LZ c1; LZ c2; LZ c3] ;;;
            XeLog "XeCS::submitNoop: logging ring state..." [] ;;;
            logRcs0State m ;;;
            XeLog "XeCS::submitNoop: completed (batch prepared, not executed)" [] ;;;
            ret kIOReturnSuccess
  end
  end.

(** ** Proofs *)

(** The mapping must reach past the forcewake registers, the highest ones used. *)
Definition cs_span : Z := XeHW.FORCEWAKE_ACK + 4.

Lemma safeRd_after b n off evs (Q : Z -> world -> Prop) w0 w :
  spans (kern w0) b n -> adv w0 evs w ->
  dword_below n off && (off <=? kCSMaxOffset) = true ->
  (forall v (w' : world), is_u32 v -> adv w0 (evs ++ [ERead off v]) w' -> Q v w') ->
  wp (safeRd (Some b) off) Q w.
Proof.
  intros Hs Ha Hb HQ. apply andb_true_iff in Hb as [Hb Hm]. apply Z.leb_le in Hm.
  unfold safeRd. rewrite (proj2 (Z.ltb_ge _ _)) by done. apply wp_load_off.
  - apply (readable_adv w0 w evs); [done|]. by apply (spans_readable _ _ n).
  - intros v w' Hv Ha'. apply HQ; [done|]. by apply (adv_app w0 w w').
Qed.

(** The register reads of [ring_body]: HEAD, TAIL, CTL and then, unless one of
    them reads as a sentinel, MI_MODE and GFX_MODE. *)
Definition ring_regs (full : bool) : list Z :=
  [XeHW.RCS0_RING_HEAD; XeHW.RCS0_RING_TAIL; XeHW.RCS0_RING_CTL]
  ++ (if full then [XeHW.RCS0_MI_MODE; XeHW.GFX_MODE] else []).
Definition ring_reads (evs : list event) : Prop :=
  exists full vs, List.length vs = List.length (ring_regs full) /\ evs = reads (zip (ring_regs full) vs).

Lemma ring_body_spec w b g :
  spans (kern w) b cs_span ->
  wp (ring_body (Some b) g) (fun _ w' => exists evs, adv w evs w' /\ ring_reads evs) w.
Proof.
  intros Hs. unfold ring_body. wstep.
  apply (wp_mono _ (fun _ w' => adv w [] w')).
  { apply wp_when; [intros _|intros _; apply adv_refl]. do 2 wstep.
    apply wp_if; intros _; wstep; apply adv_log, adv_refl. }
  intros _ w0 H0. do 2 wstep. apply adv_log with (l := ("XeCS::logRcs0State: reading ring registers..."%string, [])) in H0.
  wstep. eapply (safeRd_after b cs_span); [done|exact H0|reflexivity|]. intros v1 w1 _ H1.
  wstep. eapply (safeRd_after b cs_span); [done|exact H1|reflexivity|]. intros v2 w2 _ H2.
  wstep. eapply (safeRd_after b cs_span); [done|exact H2|reflexivity|]. intros v3 w3 _ H3.
  assert (Hshort : exists evs, adv w evs w3 /\ ring_reads evs).
  { exists (reads (zip (ring_regs false) [v1; v2; v3])). split; [exact H3|]. exists false, [v1; v2; v3]. done. }
  apply wp_if; intros _; [wstep; exact Hshort|]. apply wp_if; intros _; [wstep; exact Hshort|].
  do 3 wstep. change ((XeHW.RCS0_MI_MODE <=? kCSMaxOffset) && (XeHW.GFX_MODE <=? kCSMaxOffset)) with true.
  unfold when. wstep. eapply (safeRd_after b cs_span); [done|exact H3|reflexivity|]. intros v4 w4 _ H4.
  wstep. eapply (safeRd_after b cs_span); [done|exact H4|reflexivity|]. intros v5 w5 _ H5.
  repeat wstep. exists (reads (zip (ring_regs true) [v1; v2; v3; v4; v5])).
  split; [exact H5|]. exists true, [v1; v2; v3; v4; v5]. done.
Qed.

(** The bus traffic of [logRcs0State]. *)
Inductive rcs_traffic (fl : XeBootFlags) : list event -> Prop :=
| rcs_skipped : disableCommandStream fl || strictSafe fl = true -> rcs_traffic fl []
| rcs_read (a : bool) pre mid :
    disableCommandStream fl || strictSafe fl = false ->
    ctor_run fl a pre -> ring_reads mid ->
    rcs_traffic fl (pre ++ mid ++ (if a then [EWrite XeHW.FORCEWAKE_REQ 0x00010000] else [])).

Lemma logRcs0State_spec w b :
  spans (kern w) b cs_span ->
  wp (logRcs0State (Some b)) (fun _ w' => exists evs, adv w evs w' /\ rcs_traffic (boot w) evs) w.
Proof.
  intros Hs. unfold logRcs0State. do 4 wstep.
  destruct (disableCommandStream (boot w) || strictSafe (boot w)) eqn:Hd; simpl boot; rewrite Hd.
  - wstep. exists []. split; [apply (adv_log w w), adv_refl|by constructor].
  - change ((kCSMaxOffset <? XeHW.RCS0_RING_HEAD) || (kCSMaxOffset <? XeHW.RCS0_RING_TAIL)
            || (kCSMaxOffset <? XeHW.RCS0_RING_CTL)) with false. cbv iota. do 2 wstep.
    eapply wp_mono; [apply (guarded_spec _ _ b (fun _ evs => ring_reads evs))|].
    + exact Hs.
    + intros g w1 _ Hu. eapply wp_mono; [apply (ring_body_spec w1 b g)|].
      * destruct Hu as (-> & _). exact Hs.
      * intros _ w2 (evs & [Hu2 Ht2] & Hr). eauto.
    + intros [] w' (Hu & a & pre & mid & Ht & Hc & Hm).
      eexists. split; [split; [exact Hu|exact Ht]|]. by apply rcs_read.
Qed.

(** In every case only the forcewake request register is written. *)
Definition writes_only_forcewake (evs : list event) : Prop :=
  Forall (fun e => match e with EWrite o _ => o = XeHW.FORCEWAKE_REQ | _ => True end) evs.

Lemma ctor_run_writes fl a evs : ctor_run fl a evs -> writes_only_forcewake evs.
Proof.
  assert (Hp : forall vs, writes_only_forcewake (pending_events vs))
    by (induction vs; repeat constructor; done).
  intros [|a' evs' _ Hr]; [constructor|]. constructor; [done|].
  destruct Hr; unfold writes_only_forcewake; rewrite ?Forall_app; repeat split;
    try apply Hp; repeat constructor.
Qed.

Lemma reads_no_writes l : writes_only_forcewake (reads l).
Proof. induction l; constructor; done. Qed.

Lemma rcs_traffic_writes fl evs : rcs_traffic fl evs -> writes_only_forcewake evs.
Proof.
  intros [|a pre mid _ Hc (full & vs & _ & ->)]; [constructor|].
  apply Forall_app; split; [by eapply ctor_run_writes|].
  apply Forall_app; split; [apply reads_no_writes|]. destruct a; repeat constructor.
Qed.

(** Ring reads never touch the forcewake request bit. *)
Lemma ring_reads_neutral evs req : ring_reads evs -> fold_left fw_step evs req = req.
Proof.
  intros (full & vs & _ & ->). unfold reads. generalize (zip (ring_regs full) vs). intros l.
  induction l as [|p l IH]; simpl; auto.
Qed.

(** What [logRcs0State] reads and writes. *)
Lemma logRcs0State_traffic w b :
  spans (kern w) b cs_span ->
  wp (logRcs0State (Some b))
     (fun _ w' => exists evs, adv w evs w' /\ rcs_traffic (boot w) evs /\ writes_only_forcewake evs /\
        (disableCommandStream (boot w) || strictSafe (boot w) = true -> evs = [])) w.
Proof.
  intros Hs. eapply wp_mono; [by apply logRcs0State_spec|]. intros _ w' (evs & Ha & Hr).
  exists evs. split; [done|]. split; [done|]. split; [by eapply rcs_traffic_writes|].
  intros Hd. destruct Hr; [done|congruence].
Qed.

(** *** [submitNoop] *)

Context {KL : KernelLaws}.

(** Buffer [b] holds the batch in its first four dwords, all else unchanged. *)
Definition batch_written (k : kst) (b : obj) (k' : kst) : Prop :=
  look k' b = with_words (noop_batch ++ drop 4 (o_words (look k b))) (look k b) /\ frame [b] k k'.

Lemma wp_buf_store b i v (Q : unit -> world -> Prop) w :
  0 < o_refs (look (kern w) b) -> 4 * Z.of_nat i + 4 <= o_len (look (kern w) b) ->
  (forall k', look k' b = with_words (<[i := v]> (o_words (look (kern w) b))) (look (kern w) b) ->
     frame [b] (kern w) k' -> Q tt (set_kern k' w)) ->
  wp (buf_store b i v) Q w.
Proof.
  intros Hr Hl HQ. unfold wp, buf_store.
  rewrite (proj2 (in_object_spec _ _ _ _)) by (repeat split; lia).
  destruct (law_bmd_store b i v (kern w) Hr) as [H1 H2]. by apply HQ.
Qed.

Lemma wp_buf_load b i v (Q : Z -> world -> Prop) w :
  o_words (look (kern w) b) !! i = Some v -> Q v w -> wp (buf_load b i) Q w.
Proof. intros H HQ. unfold wp, buf_load. by rewrite H. Qed.

Lemma write_batch {A} (rest : M world A) b (Q : A -> world -> Prop) w x0 x1 x2 x3 ws :
  0 < o_refs (look (kern w) b) -> 16 <= o_len (look (kern w) b) ->
  o_words (look (kern w) b) = x0 :: x1 :: x2 :: x3 :: ws ->
  (forall k', batch_written (kern w) b k' -> wp rest Q (set_kern k' w)) ->
  wp (buf_store b 0 XeHW.MI_NOOP ;;; buf_store b 1 XeHW.MI_NOOP ;;;
      buf_store b 2 XeHW.MI_NOOP ;;; buf_store b 3 XeHW.MI_BATCH_BUFFER_END ;;; rest) Q w.
Proof.
  intros Hr Hl Hw HQ. wstep. apply wp_buf_store; [done|lia|]. intros k1 L1 F1.
  wstep. apply wp_buf_store; simpl kern; rewrite ?L1; simpl o_refs; simpl o_len; [done|lia|].
  intros k2 L2 F2. wstep.
  apply wp_buf_store; simpl kern; rewrite ?L2; simpl o_refs; simpl o_len; [done|lia|].
  intros k3 L3 F3. wstep.
  apply wp_buf_store; simpl kern; rewrite ?L3; simpl o_refs; simpl o_len; [done|lia|].
  intros k4 L4 F4. apply HQ. split.
  - rewrite L4. unfold with_words. simpl. by rewrite Hw.
  - eapply frame_trans; [exact F1|]. eapply frame_trans; [exact F2|].
    eapply frame_trans; [exact F3|exact F4].
Qed.

Lemma batch_written_load k b k' i :
  batch_written k b k' -> (i < 4)%nat -> exists v, o_words (look k' b) !! i = Some v.
Proof.
  intros [-> _] Hi. simpl. do 4 (destruct i as [|i]; [simpl; eauto|]). lia.
Qed.

Lemma batch_load k b i (Q : Z -> world -> Prop) w :
  batch_written k b (kern w) -> (i < 4)%nat -> (forall v, Q v w) -> wp (buf_load b i) Q w.
Proof.
  intros H Hi HQ. destruct (batch_written_load _ _ _ i H Hi) as [v Hv]. by apply (wp_buf_load _ _ v).
Qed.

(** A buffer's dwords as [IOBufferMemoryDescriptor] delivers them. *)
Definition whole_words (k : kst) (b : obj) : Prop :=
  List.length (o_words (look k b)) = Z.to_nat (o_len (look k b) / 4).

Lemma whole_words_4 k b :
  whole_words k b -> 16 <= o_len (look k b) ->
  exists x0 x1 x2 x3 ws, o_words (look k b) = x0 :: x1 :: x2 :: x3 :: ws.
Proof.
  unfold whole_words. intros Hl Hg.
  assert (4 <= o_len (look k b) / 4) by (apply Z.div_le_lower_bound; lia).
  destruct (o_words (look k b)) as [|x0 [|x1 [|x2 [|x3 ws]]]]; simpl in Hl; try lia. eauto 8.
Qed.

Definition no_effect (w w' : world) : Prop := kern w' = kern w /\ trace w' = trace w.

Lemma submitNoop_run w m b :
  spans (kern w) m cs_span -> 0 < o_refs (look (kern w) b) -> m <> b -> whole_words (kern w) b ->
  wp (submitNoop (Some m) (Some b))
     (fun kr w' => boot w' = boot w /\ svc w' = svc w /\
        if disableCommandStream (boot w) || strictSafe (boot w)
        then kr = kIOReturnNotReady /\ no_effect w w'
        else if negb (o_addr (look (kern w) b)) then kr = kIOReturnNoMemory /\ no_effect w w'
        else if o_len (look (kern w) b) <? 16 then kr = kIOReturnNoSpace /\ no_effect w w'
        else kr = kIOReturnSuccess /\ batch_written (kern w) b (kern w') /\
             exists evs, trace w' = trace w ++ evs /\ rcs_traffic (boot w) evs) w.
Proof.
  intros Hs Hr Hne Hww. unfold submitNoop. do 4 wstep. simpl boot.
  destruct (disableCommandStream (boot w) || strictSafe (boot w)); [repeat wstep; repeat split|].
  do 2 wstep. simpl kern. destruct (negb (o_addr (look (kern w) b))); [repeat wstep; repeat split|].
  do 2 wstep. simpl kern.
  destruct (Z.ltb_spec (o_len (look (kern w) b)) 16) as [Hlt|Hge]; [repeat wstep; repeat split|].
  destruct (whole_words_4 _ _ Hww Hge) as (x0 & x1 & x2 & x3 & ws & Hw).
  do 2 wstep. eapply write_batch; [done|done|exact Hw|]. intros k' Hb.
  do 4 (wstep; eapply batch_load; [exact Hb|lia|]; intros ?). do 4 wstep.
  wstep. eapply wp_mono; [apply (logRcs0State_spec _ m)|].
  { unfold spans. simpl kern. rewrite (proj2 Hb m) by (intros [->|[]]; done). exact Hs. }
  intros _ w' (evs & [(E1 & E2 & E3) Et] & Ht). repeat wstep. simpl in *.
  rewrite E1, E2, E3, Et. repeat split; [apply Hb|apply Hb|]. eauto.
Qed.


End CommandStream.

Import Sim.

(** BAR0 is object 3, the buffer (one page) object 4. *)
Definition submit_world : world (D := SimDevice) :=
  let w := mapped_world (D := SimDevice) 0x200000 (sim_regs true []) default_flags in
  set_kern (snd (sim_new (new_buffer 4096) (kern w))) w.


End CommandStream.
