(* ===== verification/Service.v ===== *)
(** * Service: [src/kexts/XeService.hpp] and [src/kexts/XeService.cpp]

    The driver's nub: the checked register accessors, the seven-step bring-up
    ([init], [probe], [start]), the tear-down ([stop], [free]), the registry
    of buffer objects and the methods the user client calls.  Definitions
    only; the proofs are in the files that follow. *)

From Stdlib Require Import ZArith Lia Bool List String Ascii.
From stdpp Require Import base list option strings.
From S2P Require Import Prelude HwOffsets BootArgs IOReturn Kernel GGTT CommandStream.
Import ListNotations.
Open Scope Z_scope.

Module Service.
Import BootArgs Kern IOReturn.

(** Selectors of the user client, in the order of its method table. *)
Definition kMethodCreateBuffer : Z := 0.
Definition kMethodSubmit : Z := 1.
Definition kMethodWait : Z := 2.
Definition kMethodReadReg : Z := 3.
Definition kMethodGetGTConfig : Z := 4.
Definition kMethodGetDisplayInfo : Z := 5.

Definition kMaxSafeMMIOOffset : Z := 0x00FFFFFF.
Definition kSentinelNullMMIO : Z := 0xDEADBEEF.
Definition kSentinelOutOfRange : Z := 0xBAD0FFFF.

(** Offsets in the PCI configuration space. *)
Definition kIOPCIConfigVendorID : Z := 0x00.
Definition kIOPCIConfigDeviceID : Z := 0x02.
Definition kIOPCIConfigRevisionID : Z := 0x08.
Definition kIOPCIConfigBaseAddress0 : Z := 0x10.
Definition kIOPCIConfigSubSystemVendorID : Z := 0x2C.
Definition kIOPCIConfigSubSystemID : Z := 0x2E.

Definition kIOMemoryKernelUserShared : Z := 0x00010000.
Definition kIODirectionIn : Z := 0x1.
Definition kIODirectionOut : Z := 0x2.
Definition kIODirectionInOut : Z := Z.lor kIODirectionIn kIODirectionOut.

Section Service.
Context `{D : Device} `{K : Kernel}.
Implicit Types w : world.

Definition set_pci (p : ptr) (s : XeService) : XeService :=
  mkSvc p (bar0 s) (mmio s) (bar0Length s) (m_boList s).
Definition set_bar0 (p : ptr) (s : XeService) : XeService :=
  mkSvc (pci s) p (mmio s) (bar0Length s) (m_boList s).
Definition set_mmio (p : ptr) (s : XeService) : XeService :=
  mkSvc (pci s) (bar0 s) p (bar0Length s) (m_boList s).
Definition set_bar0Length (n : Z) (s : XeService) : XeService :=
  mkSvc (pci s) (bar0 s) (mmio s) n (m_boList s).
Definition set_boList (p : ptr) (s : XeService) : XeService :=
  mkSvc (pci s) (bar0 s) (mmio s) (bar0Length s) p.

(** ** Register accessors *)

(** [OSSynchronizeIO] orders device accesses; the trace is ordered already. *)
Definition readRegSafe (off : Z) : M world Z :=
  s <- get_svc ;;
  match mmio s with
  | None => ret 0xDEADBEEF
  | Some m =>
      if kMaxSafeMMIOOffset <? off then ret 0xBAD0FFFF
      else if (0 <? bar0Length s) && (bar0Length s <=? off) then ret 0xBAD0FFFF
      else mmio_load m (Z.shiftr off 2)
  end.

Definition readReg (off : Z) : M world Z := readRegSafe off.

Definition writeReg (off val : Z) : M world unit :=
  s <- get_svc ;;
  match mmio s with
  | None => ret tt
  | Some m =>
      if kMaxSafeMMIOOffset <? off then ret tt
      else if (0 <? bar0Length s) && (bar0Length s <=? off) then ret tt
      else mmio_store m (Z.shiftr off 2) val
  end.

(** ** Bring-up *)

(** [XeParseBootArgs] on the global flags; [arg] is what
    [PE_parse_boot_argn("xepci", ...)] delivers. *)
Definition parse_boot_args (arg : option (list ascii)) : M world unit := fun w =>
  match XeParseBootArgs arg (boot w) with
  | Done _ f => Done tt (set_boot f w)
  | Fault f => Fault (set_boot f w)
  end.

Definition init (arg : option (list ascii)) : M world bool :=
  XeLog "XePCI: ======== GPU BRING-UP START ========" [] ;;;
  XeLog "XePCI: Step 1/7: Initializing XeService" [] ;;;
  ok <- super ServiceInit ;;
  if negb ok then
    XeLog "XePCI: ERROR - super::init failed" [] ;;; ret false
  else
    parse_boot_args arg ;;;
    f <- gets boot ;;
    XeLog "XePCI: Boot flags parsed: verbose=%d noforcewake=%d nocs=%d strictsafe=%d"
      [LB (verbose f); LB (disableForcewake f); LB (disableCommandStream f); LB (strictSafe f)] ;;;
    XeLog "XePCI: Step 1/7: COMPLETE - XeService initialized" [] ;;;
    ret true.

Definition configRead16 (off : Z) : M world Z := gets (fun w => cfg_read16 (hwst w) off).
Definition configRead8 (off : Z) : M world Z := gets (fun w => cfg_read8 (hwst w) off).

(** [*score += 1000] on an [SInt32]: out of range is undefined. *)
Definition add_score (score n : Z) : M world Z :=
  if score + n <? 2 ^ 31 then ret (score + n) else fault.

(** Returns the driver ([None] for [nullptr]) and the new [*score]. *)
Definition probe (provider : ptr) (score : Z) : M world (ptr * Z) :=
  XeLog "XePCI: Step 2/7: Probing PCI device" [] ;;;
  dev <- OSDynamicCast CIOPCIDevice provider ;;
  match dev with
  | None => XeLog "XePCI: ERROR - Provider is not IOPCIDevice" [] ;;; ret (None, score)
  | Some p =>
      v <- configRead16 kIOPCIConfigVendorID ;;
      d <- configRead16 kIOPCIConfigDeviceID ;;
      rev <- configRead8 kIOPCIConfigRevisionID ;;
      XeLog "XePCI: PCI Device: Vendor=0x%04x Device=0x%04x Revision=0x%02x" [LZ v; LZ d; LZ rev] ;;;
      score <- (if (v =? 0x8086) && (d =? 0xA788) then
                  s <- add_score score 1000 ;;
                  XeLog "XePCI: MATCH - Intel Raptor Lake iGPU (8086:A788) detected, score boosted" [] ;;;
                  ret s
                else
                  XeLog "XePCI: Device mismatch - expected 8086:A788, got %04x:%04x" [LZ v; LZ d] ;;;
                  ret score) ;;
      XeLog "XePCI: Step 2/7: COMPLETE - Probe finished with score=%d" [LZ score] ;;;
      kcall (k_probe p score)
  end.

Definition logPowerState : M world unit :=
  XeLog "XePCI: --- Power State ---" [] ;;;
  pwrWell1 <- readReg XeHW.HSW_PWR_WELL_CTL1 ;;
  pwrWell2 <- readReg XeHW.HSW_PWR_WELL_CTL2 ;;
  pwrWell3 <- readReg XeHW.HSW_PWR_WELL_CTL3 ;;
  pwrWell4 <- readReg XeHW.HSW_PWR_WELL_CTL4 ;;
  XeLog "XePCI: PWR_WELL_CTL1=0x%08x (BIOS)" [LZ pwrWell1] ;;;
  XeLog "XePCI: PWR_WELL_CTL2=0x%08x (Driver)" [LZ pwrWell2] ;;;
  XeLog "XePCI: PWR_WELL_CTL3=0x%08x (KVM)" [LZ pwrWell3] ;;;
  XeLog "XePCI: PWR_WELL_CTL4=0x%08x (Debug)" [LZ pwrWell4] ;;;
  rcState <- readReg XeHW.GEN6_RC_STATE ;;
  rcControl <- readReg XeHW.GEN6_RC_CONTROL ;;
  rpControl <- readReg XeHW.GEN6_RP_CONTROL ;;
  XeLog "XePCI: RC_STATE=0x%08x RC_CONTROL=0x%08x RP_CONTROL=0x%08x"
    [LZ rcState; LZ rcControl; LZ rpControl] ;;;
  fwAck <- readReg XeHW.FORCEWAKE_ACK ;;
  pmIntMsk <- readReg XeHW.GEN6_PMINTRMSK ;;
  rc6Res <- readReg XeHW.RC6_RESIDENCY_TIME ;;
  XeLog "XePCI: FORCEWAKE_ACK=0x%08x PMINTRMSK=0x%08x RC6_RESIDENCY=0x%08x"
    [LZ fwAck; LZ pmIntMsk; LZ rc6Res] ;;;
  XeLog "XePCI: --- Power State End ---" [].

(** The fields of a timing register: active size below, total size above, both
    stored less one. *)
Definition timing_low (v : Z) : Z := wrap32 (Z.land v 0xFFFF + 1).
Definition timing_high (v : Z) : Z := wrap32 (Z.land (Z.shiftr v 16) 0xFFFF + 1).
Definition enabled (v : Z) : bool := flag v 0x80000000.

Definition logDisplayState : M world unit :=
  XeLog "XePCI: --- Display State ---" [] ;;;
  pipeConf <- readReg XeHW.PIPEACONF ;;
  ddiFuncCtl <- readReg XeHW.PIPE_DDI_FUNC_CTL_A ;;
  ddiBufCtl <- readReg XeHW.DDI_BUF_CTL_A ;;
  XeLog "XePCI: PIPEACONF=0x%08x (enabled=%d active=%d)"
    [LZ pipeConf; LB (enabled pipeConf); LB (flag pipeConf 0x40000000)] ;;;
  XeLog "XePCI: PIPE_DDI_FUNC_CTL_A=0x%08x (enabled=%d)" [LZ ddiFuncCtl; LB (enabled ddiFuncCtl)] ;;;
  XeLog "XePCI: DDI_BUF_CTL_A=0x%08x" [LZ ddiBufCtl] ;;;
  htotal <- readReg XeHW.HTOTAL_A ;;
  vtotal <- readReg XeHW.VTOTAL_A ;;
  pipeSrc <- readReg XeHW.PIPEASRC ;;
  XeLog "XePCI: HTOTAL_A=0x%08x (active=%u total=%u)"
    [LZ htotal; LZ (timing_low htotal); LZ (timing_high htotal)] ;;;
  XeLog "XePCI: VTOTAL_A=0x%08x (active=%u total=%u)"
    [LZ vtotal; LZ (timing_low vtotal); LZ (timing_high vtotal)] ;;;
  XeLog "XePCI: PIPEASRC=0x%08x (width=%u height=%u)"
    [LZ pipeSrc; LZ (timing_high pipeSrc); LZ (timing_low pipeSrc)] ;;;
  dspaCntr <- readReg XeHW.DSPACNTR ;;
  dspaStride <- readReg XeHW.DSPASTRIDE ;;
  dspaSurf <- readReg XeHW.DSPASURF ;;
  XeLog "XePCI: DSPACNTR=0x%08x (enabled=%d)" [LZ dspaCntr; LB (enabled dspaCntr)] ;;;
  XeLog "XePCI: DSPASTRIDE=0x%08x DSPASURF=0x%08x" [LZ dspaStride; LZ dspaSurf] ;;;
  ppStatus <- readReg XeHW.PCH_PP_STATUS ;;
  ppControl <- readReg XeHW.PCH_PP_CONTROL ;;
  XeLog "XePCI: PCH_PP_STATUS=0x%08x (panel=%s)"
    [LZ ppStatus; LS (if enabled ppStatus then "ON" else "OFF")] ;;;
  XeLog "XePCI: PCH_PP_CONTROL=0x%08x" [LZ ppControl] ;;;
  blcPwm1 <- readReg XeHW.BLC_PWM_PCH_CTL1 ;;
  blcPwm2 <- readReg XeHW.BLC_PWM_PCH_CTL2 ;;
  XeLog "XePCI: BLC_PWM_PCH_CTL1=0x%08x (enabled=%d)" [LZ blcPwm1; LB (enabled blcPwm1)] ;;;
  XeLog "XePCI: BLC_PWM_PCH_CTL2=0x%08x" [LZ blcPwm2] ;;;
  XeLog "XePCI: --- Display State End ---" [].

(** Step 3 of [start], from enabling the device to the mapped pointer; [None]
    is an early [return false]. *)
Definition map_bar0 (p : obj) : M world ptr :=
  XeLog "XePCI: Enabling PCI memory space, I/O space, and bus mastering" [] ;;;
  emit (EMemoryEnable true) ;;;
  emit (EIOEnable true) ;;;
  emit (EBusMaster true) ;;;
  XeLog "XePCI: Mapping BAR0 (GTTMMADR)..." [] ;;;
  b <- kcall (k_mapDeviceMemory p kIOPCIConfigBaseAddress0) ;;
  put_svc (set_bar0 b) ;;;
  match b with
  | None => XeLog "XePCI: ERROR - failed to map BAR0" [] ;;; ret None
  | Some m =>
      len <- gets (fun w => o_len (look (kern w) m)) ;;
      put_svc (set_bar0Length len) ;;;
      if len =? 0 then
        XeLog "XePCI: ERROR - BAR0 length is 0, hardware issue detected" [] ;;;
        release m ;;; put_svc (set_bar0 None) ;;; ret None
      else
        when (len <? 1024 * 1024)
          (XeLog "XePCI: WARNING - BAR0 length %llu is smaller than expected" [LZ len]) ;;;
        a <- gets (fun w => o_addr (look (kern w) m)) ;;
        put_svc (set_mmio (if a : bool then Some m else None)) ;;;
        if negb a then
          XeLog "XePCI: ERROR - BAR0 virtual address is null" [] ;;;
          release m ;;; put_svc (set_bar0 None) ;;; ret None
        else
          XeLog "XePCI: BAR0 mapped at virtual address %p, size=%llu bytes (%lluMB)"
            [LZ len; LZ (len / (1024 * 1024))] ;;;
          XeLog "XePCI: Step 3/7: COMPLETE - BAR0 mapped successfully" [] ;;;
          ret (Some m)
  end.

(** Steps 4 to 6. *)
Definition read_config : M world (Z * Z * Z) :=
  XeLog "XePCI: Step 4/7: Reading PCI configuration" [] ;;;
  v <- configRead16 kIOPCIConfigVendorID ;;
  d <- configRead16 kIOPCIConfigDeviceID ;;
  r <- configRead8 kIOPCIConfigRevisionID ;;
  subsysVendor <- configRead16 kIOPCIConfigSubSystemVendorID ;;
  subsysDevice <- configRead16 kIOPCIConfigSubSystemID ;;
  XeLog "XePCI: Vendor=0x%04x Device=0x%04x Revision=0x%02x" [LZ v; LZ d; LZ r] ;;;
  XeLog "XePCI: Subsystem Vendor=0x%04x Subsystem Device=0x%04x" [LZ subsysVendor; LZ subsysDevice] ;;;
  XeLog "XePCI: Step 4/7: COMPLETE - PCI config read" [] ;;;
  ret (v, d, r).

Definition read_initial (m : obj) : M world unit :=
  XeLog "XePCI: Step 5/7: Reading initial MMIO registers" [] ;;;
  reg0 <- mmio_load m (Z.shiftr 0x0 2) ;;
  reg4 <- mmio_load m (Z.shiftr 0x4 2) ;;
  reg10 <- mmio_load m (Z.shiftr 0x10 2) ;;
  reg100 <- mmio_load m (Z.shiftr 0x100 2) ;;
  XeLog "XePCI: MMIO[0x0000]=0x%08x MMIO[0x0004]=0x%08x" [LZ reg0; LZ reg4] ;;;
  XeLog "XePCI: MMIO[0x0010]=0x%08x MMIO[0x0100]=0x%08x" [LZ reg10; LZ reg100] ;;;
  XeLog "XePCI: Step 5/7: COMPLETE - Initial MMIO read" [].

Definition probe_gpu (m : obj) : M world unit :=
  XeLog "XePCI: Step 6/7: Probing GPU power and configuration" [] ;;;
  fl <- gets boot ;;
  (if strictSafe fl then
     XeLog "XePCI: SKIP - strictsafe mode active, skipping advanced probing" []
   else
     logPowerState ;;;
     XeLog "XePCI: Probing GGTT configuration..." [] ;;;
     GGTT.probe (Some m) ;;;
     logDisplayState) ;;;
  XeLog "XePCI: Step 6/7: COMPLETE - GPU probing finished" [].

(** Steps 4 to 7 of [start], with BAR0 mapped at [m]. *)
Definition bring_up (m : obj) : M world bool :=
  vdr <- read_config ;;
  read_initial m ;;;
  probe_gpu m ;;;
  XeLog "XePCI: Step 7/7: Registering service" [] ;;;
  l <- kcall (k_array_withCapacity 8) ;;
  put_svc (set_boList l) ;;;
  match l with
  | None => XeLog "XePCI: ERROR - failed to allocate BO list" [] ;;; ret false
  | Some _ =>
      XeLog "XePCI: BO registry initialized with capacity=8" [] ;;;
      super RegisterService ;;;
      XeLog "XePCI: Step 7/7: COMPLETE - Service registered" [] ;;;
      XeLog "XePCI: ======== GPU BRING-UP COMPLETE ========" [] ;;;
      fl <- gets boot ;;
      XeLog "XePCI: Summary: Device %04x:%04x rev 0x%02x ready (strictsafe=%d)"
        [LZ (fst (fst vdr)); LZ (snd (fst vdr)); LZ (snd vdr); LB (strictSafe fl)] ;;;
      ret true
  end.

Definition start (provider : ptr) : M world bool :=
  XeLog "XePCI: Step 3/7: Starting service and mapping BAR0" [] ;;;
  ok <- super ServiceStart ;;
  if negb ok then
    XeLog "XePCI: ERROR - super::start failed" [] ;;; ret false
  else
    dev <- OSDynamicCast CIOPCIDevice provider ;;
    put_svc (set_pci dev) ;;;
    match dev with
    | None => XeLog "XePCI: ERROR - provider is not IOPCIDevice" [] ;;; ret false
    | Some p =>
        b <- map_bar0 p ;;
        match b with
        | None => ret false
        | Some m => bring_up m
        end
    end.

(** ** Tear-down *)

Definition getCount (a : obj) : M world Z :=
  gets (fun w => Z.of_nat (List.length (o_items (look (kern w) a)))).
Definition getObject (a : obj) (i : nat) : M world ptr :=
  gets (fun w => o_items (look (kern w) a) !! i).

(** The loop of [stop], from index [i] with [n] iterations left. *)
Fixpoint release_bos (a : obj) (n i : nat) : M world unit :=
  match n with
  | O => ret tt
  | S n' =>
      o <- getObject a i ;;
      md <- OSDynamicCast CIOBufferMemoryDescriptor o ;;
      match md with Some b => release b | None => ret tt end ;;;
      release_bos a n' (S i)
  end.

Definition stop : M world unit :=
  XeLog "XePCI: Stopping XeService..." [] ;;;
  s <- get_svc ;;
  match m_boList s with
  | None => ret tt
  | Some a =>
      count <- getCount a ;;
      XeLog "XePCI: Releasing %u buffer objects" [LZ count] ;;;
      release_bos a (Z.to_nat count) 0 ;;;
      release a ;;;
      put_svc (set_boList None)
  end ;;;
  match bar0 s with
  | None => ret tt
  | Some m =>
      XeLog "XePCI: Releasing BAR0 mapping" [] ;;;
      release m ;;;
      put_svc (set_bar0 None) ;;;
      put_svc (set_mmio None)
  end ;;;
  match pci s with
  | None => ret tt
  | Some _ =>
      XeLog "XePCI: Disabling bus mastering" [] ;;;
      emit (EBusMaster false)
  end ;;;
  XeLog "XePCI: XeService stopped" [] ;;;
  super ServiceStop ;;;
  ret tt.

Definition free : M world unit :=
  XeLog "XePCI: Freeing XeService" [] ;;;
  super ServiceFree ;;;
  ret tt.

(** ** Buffer objects *)

Definition boFromCookie (cookie : Z) : M world ptr :=
  s <- get_svc ;;
  match m_boList s with
  | None => ret None
  | Some a =>
      if cookie =? 0 then ret None
      else
        let idx := wrap64 (cookie - 1) in
        n <- getCount a ;;
        if n <=? idx then ret None
        else
          o <- getObject a (Z.to_nat (wrap32 idx)) ;;
          OSDynamicCast CIOBufferMemoryDescriptor o
  end.

(** [(bytes + 0xFFFu) & ~0xFFFu] at 32 bits. *)
Definition page_align (bytes : Z) : Z := Z.land (wrap32 (bytes + 0xFFF)) 0xFFFFF000.

Definition bo_options : Z := Z.lor kIOMemoryKernelUserShared kIODirectionInOut.

(** The result code and, on success, the value stored in [*outCookie]. *)
Definition ucCreateBuffer (bytes : Z) : M world (Z * option Z) :=
  XeLog "XePCI: ucCreateBuffer: requested %u bytes" [LZ bytes] ;;;
  s <- get_svc ;;
  match m_boList s with
  | None => XeLog "XePCI: ucCreateBuffer: ERROR - BO list not ready" [] ;;; ret (kIOReturnNotReady, None)
  | Some a =>
      let sz := page_align bytes in
      XeLog "XePCI: ucCreateBuffer: allocating %u bytes (page-aligned)" [LZ sz] ;;;
      md <- kcall (k_bmd_withOptions bo_options sz k_page_size) ;;
      match md with
      | None =>
          XeLog "XePCI: ucCreateBuffer: ERROR - allocation failed" [] ;;; ret (kIOReturnNoResources, None)
      | Some b =>
          ok <- kcall (k_array_setObject a b) ;;
          if negb ok then
            XeLog "XePCI: ucCreateBuffer: ERROR - failed to add to BO list" [] ;;;
            release b ;;;
            ret (kIOReturnNoResources, None)
          else
            cookie <- getCount a ;;
            XeLog "XePCI: ucCreateBuffer: SUCCESS - cookie=%llu size=%u vaddr=%p" [LZ cookie; LZ sz] ;;;
            ret (kIOReturnSuccess, Some cookie)
      end
  end.

Definition ucSubmitNoop : M world Z :=
  XeLog "XePCI: ucSubmitNoop: starting" [] ;;;
  s <- get_svc ;;
  match mmio s with
  | None => XeLog "XePCI: ucSubmitNoop: ERROR - mmio not ready" [] ;;; ret kIOReturnNotReady
  | Some m =>
      XeLog "XePCI: ucSubmitNoop: allocating 4K command buffer" [] ;;;
      md <- kcall (k_bmd_withOptions bo_options 4096 k_page_size) ;;
      match md with
      | None =>
          XeLog "XePCI: ucSubmitNoop: ERROR - buffer allocation failed" [] ;;; ret kIOReturnNoResources
      | Some b =>
          XeLog "XePCI: ucSubmitNoop: calling XeCommandStream::submitNoop" [] ;;;
          kr <- CommandStream.submitNoop (Some m) (Some b) ;;
          XeLog "XePCI: ucSubmitNoop: result=0x%x" [LZ kr] ;;;
          release b ;;;
          ret kr
      end
  end.

Definition ucWait (timeoutMs : Z) : M world Z :=
  XeLog "XePCI: ucWait: timeout=%u ms (stub)" [LZ timeoutMs] ;;;
  ret kIOReturnSuccess.

(** ** Register dumps

    [out] is the caller's array ([None] for a null pointer), [outCount] the
    caller's counter; both are returned as the callee leaves them.  A store
    past the end of the array is a fault. *)

Definition out_store (out : list Z) (i : nat) (v : Z) : M world (list Z) :=
  if (i <? List.length out)%nat then ret (<[i := v]> out) else fault.

Definition kSafeOffs : list Z :=
  [XeHW.DEVICE_ID_REG0; XeHW.DEVICE_ID_REG1; XeHW.DEVICE_ID_REG2; XeHW.DEVICE_ID_REG3;
   XeHW.DEVICE_ID_REG4; XeHW.DEVICE_ID_REG5;
   XeHW.GEN6_RP_CONTROL; XeHW.GEN6_RC_STATE;
   XeHW.HSW_PWR_WELL_CTL1; XeHW.HSW_PWR_WELL_CTL2].

(** [for (i; i < n; ++i) out[i] = readReg(offs[i])], for the offsets left. *)
Fixpoint read_loop (offs : list Z) (i : nat) (out : list Z) : M world (list Z) :=
  match offs with
  | [] => ret out
  | o :: offs' =>
      v <- readReg o ;;
      out <- out_store out i v ;;
      XeLog "XePCI: ucReadRegs: [%u] offset=0x%04x value=0x%08x" [LZ (Z.of_nat i); LZ o; LZ v] ;;;
      read_loop offs' (S i) out
  end.

Definition ucReadRegs (count : Z) (out : option (list Z)) (outCount : option Z)
    : M world (Z * option (list Z) * option Z) :=
  XeLog "XePCI: ucReadRegs: requested %u registers" [LZ count] ;;;
  s <- get_svc ;;
  match mmio s, out, outCount with
  | Some _, Some buf, Some _ =>
      let avail := Z.of_nat (List.length kSafeOffs) in
      let n := if count <? avail then count else avail in
      XeLog "XePCI: ucReadRegs: reading %u of %u available registers" [LZ n; LZ avail] ;;;
      buf <- read_loop (take (Z.to_nat n) kSafeOffs) 0 buf ;;
      ret (kIOReturnSuccess, Some buf, Some n)
  | _, _, _ =>
      XeLog "XePCI: ucReadRegs: ERROR - invalid parameters" [] ;;;
      ret (kIOReturnNotReady, out, outCount)
  end.

(** [out[i] = readReg(off)]. *)
Definition read_into (i : nat) (off : Z) (out : list Z) : M world (list Z) :=
  v <- readReg off ;; out_store out i v.

(** [out[i]] of an array of at least [i + 1] elements. *)
Definition out_get (out : list Z) (i : nat) : Z := nth i out 0.

Definition ucGetGTConfig (out : option (list Z)) (outCount : option Z)
    : M world (Z * option (list Z) * option Z) :=
  XeLog "XePCI: ucGetGTConfig: reading GT configuration" [] ;;;
  s <- get_svc ;;
  match mmio s, out, outCount with
  | Some _, Some buf, Some _ =>
      XeLog "XePCI: ucGetGTConfig: reading power well registers..." [] ;;;
      buf <- read_into 0 XeHW.HSW_PWR_WELL_CTL1 buf ;;
      buf <- read_into 1 XeHW.HSW_PWR_WELL_CTL2 buf ;;
      XeLog "XePCI: ucGetGTConfig: reading RC state registers..." [] ;;;
      buf <- read_into 2 XeHW.GEN6_RC_STATE buf ;;
      buf <- read_into 3 XeHW.GEN6_RC_CONTROL buf ;;
      buf <- read_into 4 XeHW.GEN6_RP_CONTROL buf ;;
      XeLog "XePCI: ucGetGTConfig: reading forcewake/PM registers..." [] ;;;
      buf <- read_into 5 XeHW.FORCEWAKE_ACK buf ;;
      buf <- read_into 6 XeHW.GEN6_PMINTRMSK buf ;;
      buf <- read_into 7 XeHW.RC6_RESIDENCY_TIME buf ;;
      XeLog "XePCI: ucGetGTConfig: PWR_WELL1=0x%08x PWR_WELL2=0x%08x"
        [LZ (out_get buf 0); LZ (out_get buf 1)] ;;;
      XeLog "XePCI: ucGetGTConfig: RC_STATE=0x%08x RC_CTRL=0x%08x RP_CTRL=0x%08x"
        [LZ (out_get buf 2); LZ (out_get buf 3); LZ (out_get buf 4)] ;;;
      XeLog "XePCI: ucGetGTConfig: FWAKE_ACK=0x%08x PMINTRMSK=0x%08x RC6_RES=0x%08x"
        [LZ (out_get buf 5); LZ (out_get buf 6); LZ (out_get buf 7)] ;;;
      ret (kIOReturnSuccess, Some buf, Some 8)
  | _, _, _ =>
      XeLog "XePCI: ucGetGTConfig: ERROR - invalid parameters" [] ;;;
      ret (kIOReturnNotReady, out, outCount)
  end.

Definition on_off (b : bool) : larg := LS (if b then "ON" else "OFF").

Definition ucGetDisplayInfo (out : option (list Z)) (outCount : option Z)
    : M world (Z * option (list Z) * option Z) :=
  XeLog "XePCI: ucGetDisplayInfo: reading display configuration" [] ;;;
  s <- get_svc ;;
  match mmio s, out, outCount with
  | Some _, Some buf, Some _ =>
      XeLog "XePCI: ucGetDisplayInfo: reading pipe configuration..." [] ;;;
      buf <- read_into 0 XeHW.PIPEACONF buf ;;
      buf <- read_into 1 XeHW.PIPE_DDI_FUNC_CTL_A buf ;;
      buf <- read_into 2 XeHW.DDI_BUF_CTL_A buf ;;
      buf <- read_into 3 XeHW.DSPACNTR buf ;;
      XeLog "XePCI: ucGetDisplayInfo: reading timing registers..." [] ;;;
      buf <- read_into 4 XeHW.HTOTAL_A buf ;;
      buf <- read_into 5 XeHW.VTOTAL_A buf ;;
      buf <- read_into 6 XeHW.PIPEASRC buf ;;
      buf <- read_into 7 XeHW.PCH_PP_STATUS buf ;;
      XeLog "XePCI: ucGetDisplayInfo: PIPEACONF=0x%08x DDI_FUNC=0x%08x DDI_BUF=0x%08x DSPACNTR=0x%08x"
        [LZ (out_get buf 0); LZ (out_get buf 1); LZ (out_get buf 2); LZ (out_get buf 3)] ;;;
      XeLog "XePCI: ucGetDisplayInfo: Pipe=%s DDI=%s Plane=%s"
        [on_off (enabled (out_get buf 0)); on_off (enabled (out_get buf 1));
         on_off (enabled (out_get buf 3))] ;;;
      XeLog "XePCI: ucGetDisplayInfo: Resolution=%ux%u Timing H=%u/%u V=%u/%u"
        [LZ (timing_high (out_get buf 6)); LZ (timing_low (out_get buf 6));
         LZ (timing_low (out_get buf 4)); LZ (timing_high (out_get buf 4));
         LZ (timing_low (out_get buf 5)); LZ (timing_high (out_get buf 5))] ;;;
      XeLog "XePCI: ucGetDisplayInfo: PCH_PP_STATUS=0x%08x" [LZ (out_get buf 7)] ;;;
      ret (kIOReturnSuccess, Some buf, Some 8)
  | _, _, _ =>
      XeLog "XePCI: ucGetDisplayInfo: ERROR - invalid parameters" [] ;;;
      ret (kIOReturnNotReady, out, outCount)
  end.

End Service.
End Service.
