(* ===== verification/ServiceRegs.v ===== *)
(** * ServiceRegs: the register accessors and the register dumps of [XeService]

    Every read the service makes after bring-up goes through [readRegSafe].
    The accessor's contract is proved once and then carried along a run by
    [reg_run], which records the offsets asked for, the values returned and
    the exact bus traffic. *)

From Stdlib Require Import ZArith Lia Bool List String.
From stdpp Require Import base list option strings.
From S2P Require Import Prelude HwOffsets BootArgs IOReturn Kernel SimKernel Service.
Import ListNotations.
Open Scope Z_scope.

Module ServiceRegs.
Import BootArgs Kern IOReturn Service.

Section Regs.
Context `{D : Device} `{K : Kernel}.
Implicit Types w : world.

(** BAR0 is mapped at the live object [m], of [len] bytes, a whole number of
    dwords, and the service knows its length. *)
Definition mapped (w : world) (m : obj) (len : Z) : Prop :=
  mmio (svc w) = Some m /\ bar0Length (svc w) = len /\
  0 < o_refs (look (kern w) m) /\ o_len (look (kern w) m) = len /\ 0 < len /\ len mod 4 = 0.

Lemma mapped_untouched (w w' : world) m len : untouched w w' -> mapped w m len -> mapped w' m len.
Proof. intros (Hk & _ & Hs). unfold mapped. by rewrite Hk, Hs. Qed.

(** The offsets the accessors let through. *)
Definition in_range (len off : Z) : bool := (off <=? kMaxSafeMMIOOffset) && (off <? len).

Lemma dword_in_map len off :
  0 <= off -> len mod 4 = 0 -> off < len ->
  0 <= 4 * Z.shiftr off 2 /\ 4 * Z.shiftr off 2 + 4 <= len /\ 4 * Z.shiftr off 2 = off - off mod 4.
Proof.
  intros H0 Hm Hl. rewrite Z.shiftr_div_pow2 by lia. change (2 ^ 2) with 4.
  pose proof (Z.div_mod off 4). pose proof (Z.mod_pos_bound off 4).
  pose proof (Z.div_mod len 4). lia.
Qed.

Lemma accessor_guard {A} w m len off (oob ok : M world A) :
  mapped w m len -> 0 <= off ->
  (if kMaxSafeMMIOOffset <? off then oob
   else if (0 <? bar0Length (svc w)) && (bar0Length (svc w) <=? off) then oob else ok)
  = if in_range len off then ok else oob.
Proof.
  intros (_ & -> & _ & _ & Hp & _) H0. unfold in_range.
  rewrite (proj2 (Z.ltb_lt 0 len)) by done.
  destruct (Z.ltb_spec kMaxSafeMMIOOffset off), (Z.leb_spec off kMaxSafeMMIOOffset),
    (Z.leb_spec len off), (Z.ltb_spec off len); done || lia.
Qed.

Lemma in_range_object w m len off :
  mapped w m len -> 0 <= off -> in_range len off = true ->
  in_object (kern w) m (4 * Z.shiftr off 2) 4 = true.
Proof.
  intros (_ & _ & Hr & Hl & _ & Hm) H0 Hin. unfold in_range in Hin.
  apply andb_true_iff in Hin as [_ Hlt%Z.ltb_lt]. apply in_object_spec. rewrite Hl.
  destruct (dword_in_map len off); lia.
Qed.

Lemma in_range_event w m len off :
  mapped w m len -> 0 <= off -> in_range len off = true -> 4 * Z.shiftr off 2 = off - off mod 4.
Proof.
  intros (_ & _ & _ & _ & _ & Hm) H0 Hin. apply andb_true_iff in Hin as [_ Hlt%Z.ltb_lt].
  by apply (dword_in_map len).
Qed.

Lemma wp_readReg w m len off (Q : Z -> world -> Prop) :
  mapped w m len -> 0 <= off ->
  (in_range len off = true -> forall v (w' : world), is_u32 v -> adv w [ERead (off - off mod 4) v] w' -> Q v w') ->
  (in_range len off = false -> Q kSentinelOutOfRange w) ->
  wp (readReg off) Q w.
Proof.
  intros Hm H0 Hin Hout. unfold readReg, readRegSafe. do 2 wstep.
  destruct Hm as (Hmm & Hm). rewrite Hmm. rewrite (accessor_guard w m len) by done.
  destruct (in_range len off) eqn:Hr; [|wstep; by apply Hout].
  apply wp_mmio_load; [by apply (in_range_object w m len)|]. intros v h _ Hv.
  rewrite (in_range_event w m len) by done. apply Hin; [done|done|]. split; [repeat split|done].
Qed.

Lemma wp_writeReg w m len off v (Q : unit -> world -> Prop) :
  mapped w m len -> 0 <= off ->
  (in_range len off = true -> forall w' : world, adv w [EWrite (off - off mod 4) v] w' -> Q tt w') ->
  (in_range len off = false -> Q tt w) ->
  wp (writeReg off v) Q w.
Proof.
  intros Hm H0 Hin Hout. unfold writeReg. do 2 wstep.
  destruct Hm as (Hmm & Hm). rewrite Hmm. rewrite (accessor_guard w m len) by done.
  destruct (in_range len off) eqn:Hr; [|wstep; by apply Hout].
  apply wp_mmio_store; [by apply (in_range_object w m len)|].
  rewrite (in_range_event w m len) by done. apply Hin; [done|]. split; [repeat split|done].
Qed.


(** ** Runs of reads *)

(** A register offset as the driver names them. *)
Definition reg_offset (off : Z) : bool :=
  (0 <=? off) && (off mod 4 =? 0) && (off <=? kMaxSafeMMIOOffset).

(** The traffic of reading registers: those beyond the mapping are not read. *)
Definition seen (len : Z) (l : list (Z * Z)) : list event :=
  reads (filter (fun p => fst p < len) l).

Lemma seen_snoc len l o v :
  seen len (l ++ [(o, v)]) = seen len l ++ (if o <? len then [ERead o v] else []).
Proof.
  unfold seen, reads. rewrite filter_app, map_app. f_equal.
  destruct (Z.ltb_spec o len); [rewrite filter_cons_True by done|rewrite filter_cons_False by (simpl; lia)];
    done.
Qed.

(** From [w] to [w'] exactly the registers [offs] were asked for, in order,
    and [vs] are the values returned. *)
Definition reg_run (len : Z) (w : world) (offs vs : list Z) (w' : world) : Prop :=
  adv w (seen len (zip offs vs)) w' /\ List.length vs = List.length offs /\
  Forall2 (fun o v => is_u32 v /\ (len <= o -> v = kSentinelOutOfRange)) offs vs.

Lemma reg_run_nil len w : reg_run len w [] [] w.
Proof. split; [apply adv_refl|]. by repeat constructor. Qed.

Lemma zip_snoc {A B} (l : list A) (k : list B) a b :
  List.length k = List.length l -> zip (l ++ [a]) (k ++ [b]) = zip l k ++ [(a, b)].
Proof. intros H. by rewrite zip_with_app. Qed.

Lemma reg_run_log len w offs vs (w' : world) l :
  reg_run len w offs vs w' -> reg_run len w offs vs (add_log l w').
Proof. exact (fun H => H). Qed.

Lemma readReg_after w0 m len offs vs off (Q : Z -> world -> Prop) w :
  mapped w0 m len -> reg_run len w0 offs vs w -> reg_offset off = true ->
  (forall v (w' : world), reg_run len w0 (offs ++ [off]) (vs ++ [v]) w' -> Q v w') ->
  wp (readReg off) Q w.
Proof.
  intros Hm (Ha & Hl & Hf) Ho HQ. unfold reg_offset in Ho.
  apply andb_true_iff in Ho as [Ho Hmax]. apply andb_true_iff in Ho as [H0%Z.leb_le Hal%Z.eqb_eq].
  assert (Hm' : mapped w m len) by (apply (mapped_untouched w0); [apply Ha|done]).
  assert (Hcons : forall v (w' : world), is_u32 v -> (len <= off -> v = kSentinelOutOfRange) ->
            adv w (if off <? len then [ERead off v] else []) w' -> Q v w').
  { intros v w' Hv Hoob Ha'. apply HQ. split; [|split].
    - rewrite zip_snoc, seen_snoc by done. by apply (adv_app w0 w w').
    - rewrite !length_app. simpl. lia.
    - apply Forall2_app; [done|]. constructor; [by split|constructor]. }
  apply (wp_readReg w m len); [done|done| |].
  - unfold in_range. rewrite Hmax. simpl. intros Hlt v w' Hv Ha'. apply Hcons; [done| |].
    + apply Z.ltb_lt in Hlt. lia.
    + rewrite Hlt. by rewrite Hal, Z.sub_0_r in Ha'.
  - unfold in_range. rewrite Hmax. simpl. intros Hge. apply Hcons; [split; [discriminate|reflexivity]|done|].
    rewrite Hge. apply adv_refl.
Qed.

(** The registers of the two state logs, in the order they are read. *)
Definition power_regs : list Z :=
  [XeHW.HSW_PWR_WELL_CTL1; XeHW.HSW_PWR_WELL_CTL2; XeHW.HSW_PWR_WELL_CTL3; XeHW.HSW_PWR_WELL_CTL4;
   XeHW.GEN6_RC_STATE; XeHW.GEN6_RC_CONTROL; XeHW.GEN6_RP_CONTROL;
   XeHW.FORCEWAKE_ACK; XeHW.GEN6_PMINTRMSK; XeHW.RC6_RESIDENCY_TIME].
Definition display_regs : list Z :=
  [XeHW.PIPEACONF; XeHW.PIPE_DDI_FUNC_CTL_A; XeHW.DDI_BUF_CTL_A;
   XeHW.HTOTAL_A; XeHW.VTOTAL_A; XeHW.PIPEASRC;
   XeHW.DSPACNTR; XeHW.DSPASTRIDE; XeHW.DSPASURF;
   XeHW.PCH_PP_STATUS; XeHW.PCH_PP_CONTROL; XeHW.BLC_PWM_PCH_CTL1; XeHW.BLC_PWM_PCH_CTL2].

(** One step of a straight-line sequence of [readReg]s and logs: the run so
    far is the last hypothesis. *)
Ltac reg_step Hm :=
  lazymatch goal with
  | H : reg_run _ _ ?offs ?vs _ |- wp (readReg ?off) _ ?wc =>
      let v := fresh "v" in let w' := fresh "w'" in
      apply (readReg_after _ _ _ offs vs off _ wc Hm H eq_refl); clear H; intros v w' H; cbv beta
  | |- _ => wstep
  end.

Lemma logPowerState_spec w m len :
  mapped w m len -> wp logPowerState (fun _ w' => exists vs, reg_run len w power_regs vs w') w.
Proof.
  intros Hm. pose proof (reg_run_nil len w) as H. unfold logPowerState.
  repeat reg_step Hm. eexists. exact H.
Qed.

Lemma logDisplayState_spec w m len :
  mapped w m len -> wp logDisplayState (fun _ w' => exists vs, reg_run len w display_regs vs w') w.
Proof.
  intros Hm. pose proof (reg_run_nil len w) as H. unfold logDisplayState.
  repeat reg_step Hm. eexists. exact H.
Qed.

(** ** The dumps *)

Lemma wp_out_store out i v (Q : list Z -> world -> Prop) w :
  (i < List.length out)%nat -> Q (<[i := v]> out) w -> wp (out_store out i v) Q w.
Proof. intros Hi HQ. unfold out_store. rewrite (proj2 (Nat.ltb_lt _ _)) by done. exact HQ. Qed.

Lemma read_loop_spec m len w0 offs : forall done vs out w,
  mapped w0 m len -> forallb reg_offset offs = true ->
  (List.length vs + List.length offs <= List.length out)%nat -> List.length done = List.length vs ->
  take (List.length vs) out = vs -> reg_run len w0 done vs w ->
  wp (read_loop offs (List.length vs) out)
     (fun out' w' => exists vs', reg_run len w0 (done ++ offs) (vs ++ vs') w' /\
        List.length vs' = List.length offs /\ out' = vs ++ vs' ++ drop (List.length vs + List.length offs) out) w.
Proof.
  induction offs as [|o offs IH]; intros dn vs out w Hm Ho Hlen Hd Ht Hr; simpl in *.
  - wstep. exists []. rewrite !app_nil_r, Nat.add_0_r. split; [done|]. split; [done|].
    simpl. by rewrite <- Ht at 1; rewrite take_drop.
  - apply andb_true_iff in Ho as [Ho Hos]. wstep.
    apply (readReg_after w0 m len dn vs); [done|done|done|]. intros v w1 H1.
    wstep. apply wp_out_store; [lia|]. do 2 wstep.
    assert (Hl1 : List.length (vs ++ [v]) = S (List.length vs)) by apply length_snoc.
    rewrite <- Hl1. eapply wp_mono.
    + apply (IH (dn ++ [o]) (vs ++ [v]) (<[List.length vs := v]> out)).
      * done.
      * done.
      * rewrite length_insert, Hl1. lia.
      * rewrite !length_snoc. lia.
      * rewrite Hl1. rewrite (take_S_r _ _ v) by (apply list_lookup_insert_eq; lia).
        rewrite take_insert_ge by lia. by rewrite Ht.
      * apply reg_run_log, H1.
    + intros out' w2 (vs' & Hr' & Hl' & ->). exists (v :: vs'). rewrite <- !app_assoc in *. simpl in *.
      split; [done|]. split; [lia|]. do 3 f_equal. rewrite Hl1.
      rewrite drop_insert_lt by lia. f_equal. lia.
Qed.

Lemma ucReadRegs_run w m len count buf n :
  mapped w m len -> 0 <= count ->
  (Nat.min (Z.to_nat count) 10 <= List.length buf)%nat ->
  wp (ucReadRegs count (Some buf) (Some n))
     (fun r w' => exists vs, let k := Nat.min (Z.to_nat count) 10 in
        r = (kIOReturnSuccess, Some (vs ++ drop k buf), Some (Z.of_nat k)) /\
        reg_run len w (take k kSafeOffs) vs w') w /\
  (forall out cnt, out = None \/ cnt = None ->
     wp (ucReadRegs count out cnt)
        (fun r w' => r = (kIOReturnNotReady, out, cnt) /\ adv w [] w') w) /\
  wp (ucReadRegs count (Some buf) (Some n))
     (fun r w' => r = (kIOReturnNotReady, Some buf, Some n) /\ trace w' = trace w)
     (set_svc (set_mmio None (svc w)) w).
Proof.
  intros Hm H0 Hb. split; [|split].
  - unfold ucReadRegs. do 4 wstep. simpl svc. rewrite (proj1 Hm).
    change (Z.of_nat (List.length kSafeOffs)) with 10. do 3 wstep.
    set (k := Nat.min (Z.to_nat count) 10).
    assert (Hk : Z.to_nat (if count <? 10 then count else 10) = k)
      by (unfold k; destruct (Z.ltb_spec count 10); lia).
    assert (Hn : (if count <? 10 then count else 10) = Z.of_nat k)
      by (unfold k; destruct (Z.ltb_spec count 10); lia).
    rewrite Hk, Hn. assert (Hlk : List.length (take k kSafeOffs) = k)
      by (rewrite length_take; simpl; unfold k; lia).
    eapply wp_mono.
    + apply (read_loop_spec m len w _ [] [] buf); [done| |simpl; lia|done|done|].
      * by apply forallb_take.
      * do 2 apply reg_run_log. apply reg_run_nil.
    + intros out w' (vs & Hr & Hl & ->). wstep. exists vs. simpl in *.
      rewrite Hlk in *. done.
  - intros out cnt Hnull. unfold ucReadRegs. do 4 wstep. simpl svc. rewrite (proj1 Hm).
    destruct out, cnt; try (destruct Hnull; discriminate);
      repeat wstep; (split; [done|split; [repeat split|by rewrite app_nil_r]]).
  - unfold ucReadRegs. repeat wstep. done.
Qed.

(** The registers of the two fixed dumps. *)
Definition gt_regs : list Z :=
  [XeHW.HSW_PWR_WELL_CTL1; XeHW.HSW_PWR_WELL_CTL2; XeHW.GEN6_RC_STATE; XeHW.GEN6_RC_CONTROL;
   XeHW.GEN6_RP_CONTROL; XeHW.FORCEWAKE_ACK; XeHW.GEN6_PMINTRMSK; XeHW.RC6_RESIDENCY_TIME].
Definition info_regs : list Z :=
  [XeHW.PIPEACONF; XeHW.PIPE_DDI_FUNC_CTL_A; XeHW.DDI_BUF_CTL_A; XeHW.DSPACNTR;
   XeHW.HTOTAL_A; XeHW.VTOTAL_A; XeHW.PIPEASRC; XeHW.PCH_PP_STATUS].

Lemma eight_or_more {A} (l : list A) : (8 <= List.length l)%nat ->
  exists x0 x1 x2 x3 x4 x5 x6 x7 r, l = x0 :: x1 :: x2 :: x3 :: x4 :: x5 :: x6 :: x7 :: r.
Proof.
  intros H. do 8 (destruct l as [|? l]; [simpl in H; lia|]). by repeat eexists.
Qed.

Ltac dump_step Hm :=
  lazymatch goal with
  | |- wp (read_into _ _ _) _ _ => unfold read_into
  | |- wp (out_store _ _ _) _ _ =>
      apply wp_out_store; [simpl; lia|]; cbn [insert list_insert]
  | |- _ => reg_step Hm
  end.

(** Runs a dump: [buf] is the caller's array of at least eight elements. *)
Ltac run_dump Hm Hb :=
  destruct (eight_or_more _ Hb) as (x0 & x1 & x2 & x3 & x4 & x5 & x6 & x7 & r & ->); clear Hb;
  lazymatch type of Hm with
  | mapped ?w _ ?len => pose proof (reg_run_nil len w) as H
  end;
  do 4 wstep; simpl svc; rewrite (proj1 Hm);
  repeat dump_step Hm.

(** The line of the log with the decoded mode, for the values of PIPEASRC,
    HTOTAL and VTOTAL. *)
Definition mode_line (src ht vt : Z) : string * list larg :=
  ("XePCI: ucGetDisplayInfo: Resolution=%ux%u Timing H=%u/%u V=%u/%u"%string,
   [LZ (src / 65536 + 1); LZ (src mod 65536 + 1); LZ (ht mod 65536 + 1); LZ (ht / 65536 + 1);
    LZ (vt mod 65536 + 1); LZ (vt / 65536 + 1)]).

Lemma timing_low_spec v : timing_low v = v mod 65536 + 1 /\ 1 <= timing_low v <= 65536.
Proof.
  unfold timing_low. change 0xFFFF with (Z.ones 16). rewrite Z.land_ones by lia. change (2 ^ 16) with 65536.
  pose proof (Z.mod_pos_bound v 65536). rewrite wrap32_small by lia. lia.
Qed.

Lemma timing_high_spec v : is_u32 v -> timing_high v = v / 65536 + 1 /\ 1 <= timing_high v <= 65536.
Proof.
  unfold is_u32, timing_high. intros Hv. rewrite Z.shiftr_div_pow2 by lia.
  change 0xFFFF with (Z.ones 16). rewrite Z.land_ones by lia. change (2 ^ 16) with 65536.
  assert (0 <= v / 65536 < 65536) by (split; [apply Z.div_pos|apply Z.div_lt_upper_bound]; lia).
  rewrite (Z.mod_small (v / 65536)) by lia. rewrite wrap32_small by lia. lia.
Qed.

Lemma timing_low_eq v : timing_low v = v mod 65536 + 1.
Proof. apply timing_low_spec. Qed.

Lemma timing_high_eq v : is_u32 v -> timing_high v = v / 65536 + 1.
Proof. intros H. by apply timing_high_spec. Qed.

Ltac inv_regs H :=
  lazymatch type of H with
  | Forall2 _ (_ :: _) _ =>
      let Hx := fresh "Hv" in let Hr := fresh in
      inversion H as [|? ? ? ? [Hx _] Hr]; subst; clear H; inv_regs Hr
  | _ => idtac
  end.

(** The GT dump stores the eight power-management registers in the documented
    order, leaves the rest of the array alone and reads nothing else. *)
Lemma ucGetGTConfig_run w m len buf n :
  mapped w m len -> (8 <= List.length buf)%nat ->
  wp (ucGetGTConfig (Some buf) (Some n))
     (fun r w' => exists vs, r = (kIOReturnSuccess, Some (vs ++ drop 8 buf), Some 8) /\
        reg_run len w gt_regs vs w') w /\
  (forall out cnt, out = None \/ cnt = None ->
     wp (ucGetGTConfig out cnt) (fun r w' => r = (kIOReturnNotReady, out, cnt) /\ adv w [] w') w).
Proof.
  intros Hm Hb. split.
  - unfold ucGetGTConfig. run_dump Hm Hb. eexists [_; _; _; _; _; _; _; _].
    split; [reflexivity|exact H].
  - intros out cnt Hnull. unfold ucGetGTConfig. do 4 wstep. simpl svc. rewrite (proj1 Hm).
    destruct out, cnt; try (destruct Hnull; discriminate);
      repeat wstep; (split; [done|split; [repeat split|by rewrite app_nil_r]]).
Qed.


Lemma ucGetDisplayInfo_run w m len buf n :
  mapped w m len -> (8 <= List.length buf)%nat ->
  wp (ucGetDisplayInfo (Some buf) (Some n))
     (fun r w' => exists vs, r = (kIOReturnSuccess, Some (vs ++ drop 8 buf), Some 8) /\
        reg_run len w info_regs vs w' /\
        In (mode_line (nth 6 vs 0) (nth 4 vs 0) (nth 5 vs 0)) (klog w') /\
        Forall (fun v => 1 <= timing_low v <= 65536 /\ 1 <= timing_high v <= 65536) vs) w /\
  (forall out cnt, out = None \/ cnt = None ->
     wp (ucGetDisplayInfo out cnt) (fun r w' => r = (kIOReturnNotReady, out, cnt) /\ adv w [] w') w).
Proof.
  intros Hm Hb. split.
  - unfold ucGetDisplayInfo. run_dump Hm Hb. eexists [_; _; _; _; _; _; _; _].
    split; [reflexivity|]. split; [exact H|]. destruct H as (_ & _ & H). simpl app in H.
    inv_regs H. split.
    + simpl. apply in_or_app. left. apply in_or_app. right. left. unfold mode_line. unfold out_get. simpl.
      rewrite !timing_low_eq, !timing_high_eq by done. reflexivity.
    + repeat (apply Forall_cons; split; [split; [apply timing_low_spec|by apply timing_high_spec]|]).
      by apply Forall_nil.
  - intros out cnt Hnull. unfold ucGetDisplayInfo. do 4 wstep. simpl svc. rewrite (proj1 Hm).
    destruct out, cnt; try (destruct Hnull; discriminate);
      repeat wstep; (split; [done|split; [repeat split|by rewrite app_nil_r]]).
Qed.

(** How the hardware packs two sizes in a timing register. *)
Definition pack_timing (low high : Z) : Z := (high - 1) * 65536 + (low - 1).

(** Decoding a timing register inverts its packing, every register value is
    such a packing, and the register dump decodes to the mode of the header. *)
Definition timings_decode : Prop :=
  (forall low high, 1 <= low <= 65536 -> 1 <= high <= 65536 ->
     is_u32 (pack_timing low high) /\
     timing_low (pack_timing low high) = low /\ timing_high (pack_timing low high) = high) /\
  (forall v, is_u32 v -> pack_timing (timing_low v) (timing_high v) = v) /\
  [timing_high 0x09ff063f; timing_low 0x09ff063f; timing_high 0x0a9f09ff; timing_high 0x06df063f;
   timing_low 0x0a4f0a2f; timing_high 0x0a4f0a2f; timing_low 0x06480642; timing_high 0x06480642]
  = [XeHW.RaptorLakeMode.ACTIVE_WIDTH; XeHW.RaptorLakeMode.ACTIVE_HEIGHT;
     XeHW.RaptorLakeMode.HTOTAL; XeHW.RaptorLakeMode.VTOTAL;
     XeHW.RaptorLakeMode.HSYNC_START; XeHW.RaptorLakeMode.HSYNC_END;
     XeHW.RaptorLakeMode.VSYNC_START; XeHW.RaptorLakeMode.VSYNC_END].

Lemma timings_decode_ok : timings_decode.
Proof.
  split; [|split; [|reflexivity]].
  - intros low high Hl Hh. unfold pack_timing.
    assert (Hu : is_u32 ((high - 1) * 65536 + (low - 1))) by (unfold is_u32; lia).
    split; [done|]. rewrite timing_low_eq, timing_high_eq by done.
    rewrite (Z.add_comm (_ * 65536)), Z.mod_add, Z.mod_small by lia.
    rewrite Z.div_add, Z.div_small by lia. lia.
  - intros v Hv. unfold pack_timing. rewrite timing_low_eq, timing_high_eq by done.
    pose proof (Z.div_mod v 65536). lia.
Qed.


End Regs.

Import Sim.

(** BAR0 of 512 KiB: the power wells are inside, the RC6 counter is not. *)
Definition small_world : world (D := SimDevice) :=
  mapped_world (D := SimDevice) 0x80000 (sim_regs true [(0, 7); (4, 8); (0x6001C, 0x09ff063f)]) default_flags.

Lemma small_mapped : mapped small_world 3%positive 0x80000.
Proof. repeat split; reflexivity. Qed.



End ServiceRegs.
