(* ===== verification/ServiceLife.v ===== *)
(** * ServiceLife: bring-up, buffer objects and tear-down of [XeService]

    The invariant [running] says what holds between a successful [start] and
    [stop]: BAR0 mapped once and owned, the registry array owned, and every
    buffer in it live with two references, the creator's and the array's.
    Each operation is shown to preserve it, [start] to establish it and [stop]
    to give everything back; the life cycle is a step relation whose reachable
    states satisfy it. *)

From Stdlib Require Import ZArith Lia Bool List String Ascii.
From stdpp Require Import base list option strings.
From S2P Require Import Prelude HwOffsets BootArgs IOReturn Kernel SimKernel Forcewake GGTT CommandStream Service ServiceRegs.
Import ListNotations.
Open Scope Z_scope.

Module ServiceLife.
Import BootArgs Kern IOReturn CommandStream Service ServiceRegs.

Section Life.
Context `{D : Device} `{K : Kernel} {KL : KernelLaws}.
Implicit Types w : world.

(** ** Objects *)

(** Live objects are as they were and no object came to life. *)
Definition same_objects (k k' : kst) : Prop :=
  forall q, (0 < o_refs (look k q) -> look k' q = look k q) /\
            (o_refs (look k q) = 0 -> o_refs (look k' q) = 0).

Lemma same_objects_refl k : same_objects k k.
Proof. by split. Qed.

Lemma same_objects_trans k1 k2 k3 : same_objects k1 k2 -> same_objects k2 k3 -> same_objects k1 k3.
Proof.
  intros H12 H23 q. destruct (H12 q) as [L12 D12], (H23 q) as [L23 D23]. split.
  - intros Hq. rewrite L23; rewrite L12; auto.
  - auto.
Qed.

Lemma frame_same k k' : frame [] k k' -> same_objects k k'.
Proof. intros H q. rewrite (H q) by (intros []). by split. Qed.

Lemma with_refs_id v : with_refs (o_refs v - 0) v = v.
Proof. rewrite Z.sub_0_r. by destruct v. Qed.

(** The same, for all objects but those of [l]. *)
Definition same_but (l : list obj) (k k' : kst) : Prop :=
  forall q, ~ In q l -> (0 < o_refs (look k q) -> look k' q = look k q) /\
                        (o_refs (look k q) = 0 -> o_refs (look k' q) = 0).

Lemma frame_same_but l k k' : frame l k k' -> same_but l k k'.
Proof. intros H q Hq. rewrite (H q) by done. by split. Qed.

Lemma same_but_trans l k1 k2 k3 : same_but l k1 k2 -> same_but l k2 k3 -> same_but l k1 k3.
Proof.
  intros H12 H23 q Hq. destruct (H12 q Hq) as [L12 D12], (H23 q Hq) as [L23 D23]. split; [|auto].
  intros Hl. rewrite L23; rewrite L12; auto.
Qed.

Lemma same_but_incl l l' k k' : incl l l' -> same_but l k k' -> same_but l' k k'.
Proof. intros Hi H q Hq. apply H. auto. Qed.

(** Releasing an object with no members drops one of its references and leaves
    everything else alone. *)
Lemma release_plain b k :
  0 < o_refs (look k b) -> o_items (look k b) = [] ->
  o_refs (look (k_release b k) b) = o_refs (look k b) - 1 /\
  (1 < o_refs (look k b) -> look (k_release b k) b = with_refs (o_refs (look k b) - 1) (look k b)) /\
  same_but [b] k (k_release b k).
Proof.
  intros Hr Hi.
  assert (Hlaw := fun p => law_release b k p Hr).
  rewrite Hi in Hlaw. simpl in Hlaw.
  assert (Hn : forall p, (if (p =? b)%positive then 1 else 0) + (if o_refs (look k b) =? 1 then count p [] else 0)
                         = if (p =? b)%positive then 1 else 0)
    by (intros p; unfold count; simpl; destruct (_ =? 1); lia).
  split; [|split].
  - destruct (Hlaw b) as [H _]; [tauto|rewrite Hn, Pos.eqb_refl; lia|].
    by rewrite Hn, Pos.eqb_refl in H.
  - intros H1. destruct (Hlaw b) as [_ H]; [tauto|rewrite Hn, Pos.eqb_refl; lia|].
    rewrite Hn, Pos.eqb_refl in H. apply H. lia.
  - intros q Hq. assert (Hne : (q =? b)%positive = false)
      by (apply Pos.eqb_neq; intros ->; apply Hq; simpl; auto).
    split; intros Hlive; (destruct (Hlaw q) as [H1 H2]; [tauto|rewrite Hn, Hne; lia|]);
      rewrite Hn, Hne in *.
    + rewrite H2 by lia. apply with_refs_id.
    + lia.
Qed.

(** A temporary object that is released again leaves no trace. *)
Lemma release_fresh b k k1 :
  o_refs (look k b) = 0 -> same_but [b] k k1 -> o_refs (look k1 b) = 1 -> o_items (look k1 b) = [] ->
  same_objects k (k_release b k1).
Proof.
  intros H0 Hs H1 Hi q. destruct (release_plain b k1) as (Hb & _ & Ho); [lia|done|].
  destruct (decide (q = b)) as [->|Hne]; [lia|].
  assert (Hq : ~ In q [b]) by (intros [E|[]]; congruence).
  apply (same_but_trans [b] k k1 _ Hs Ho q Hq).
Qed.

(** ** The invariant *)

(** A buffer of the registry. *)
Definition bo_ok (v : objview) : Prop :=
  o_refs v = 2 /\ o_class v = CIOBufferMemoryDescriptor /\ o_items v = [].

Record running (w : world) (m a : obj) (len : Z) (bos : list obj) : Prop := {
  run_mapped : mapped w m len;
  run_span : cs_span <= len;
  run_bar0 : bar0 (svc w) = Some m;
  run_bar0_refs : o_refs (look (kern w) m) = 1;
  run_bar0_items : o_items (look (kern w) m) = [];
  run_list : m_boList (svc w) = Some a;
  run_list_refs : o_refs (look (kern w) a) = 1;
  run_items : o_items (look (kern w) a) = bos;
  run_bos : forall b, In b bos -> bo_ok (look (kern w) b);
  run_nodup : List.NoDup (m :: a :: bos)
}.

Lemma running_live w m a len bos q :
  running w m a len bos -> In q (m :: a :: bos) -> 0 < o_refs (look (kern w) q).
Proof.
  intros R. simpl. intros [<-|[<-|Hin]].
  - rewrite (run_bar0_refs _ _ _ _ _ R). lia.
  - rewrite (run_list_refs _ _ _ _ _ R). lia.
  - destruct (run_bos _ _ _ _ _ R q Hin) as [-> _]. lia.
Qed.

(** Operations that leave the live objects and the service alone preserve it. *)
Lemma running_same (w w' : world) m a len bos :
  running w m a len bos -> svc w' = svc w -> same_objects (kern w) (kern w') -> running w' m a len bos.
Proof.
  intros R Hs Ho.
  assert (HL : forall q, In q (m :: a :: bos) -> look (kern w') q = look (kern w) q)
    by (intros q Hq; apply Ho; by apply (running_live w m a len bos)).
  pose proof (HL m ltac:(simpl; auto)) as Em. pose proof (HL a ltac:(simpl; auto)) as Ea.
  destruct R. constructor; rewrite ?Hs, ?Em, ?Ea; auto.
  - unfold mapped in *. by rewrite Hs, Em.
  - intros b Hb. rewrite HL by (simpl; auto). auto.
Qed.

(** ** Bring-up *)

Definition only_reads (evs : list event) : Prop :=
  Forall (fun e => match e with ERead _ _ => True | _ => False end) evs.

Lemma reads_only l : only_reads (reads l).
Proof. induction l; constructor; done. Qed.

Lemma reg_run_reads len w offs vs (w' : world) :
  reg_run len w offs vs w' -> exists evs, adv w evs w' /\ only_reads evs.
Proof. intros (Ha & _). eexists. split; [exact Ha|]. apply reads_only. Qed.

(** The mapping of BAR0 that [map_bar0] can use, and the kernel state with it. *)
Definition usable_bar (p : obj) (k : kst) : ptr :=
  match k_mapDeviceMemory p kIOPCIConfigBaseAddress0 k with
  | (Some m, k') => if (o_len (look k' m) =? 0) || negb (o_addr (look k' m)) then None else Some m
  | (None, _) => None
  end.
Definition bar_state (p : obj) (k : kst) : kst := snd (k_mapDeviceMemory p kIOPCIConfigBaseAddress0 k).

(** The BAR0 of device [p], when it can be mapped, is empty or holds [n] bytes
    and a whole number of dwords. *)
Definition good_at (p : obj) (n : Z) (k : kst) : Prop :=
  forall m k', k_mapDeviceMemory p kIOPCIConfigBaseAddress0 k = (Some m, k') ->
    o_len (look k' m) = 0 \/ (n <= o_len (look k' m) /\ o_len (look k' m) mod 4 = 0).
Definition good_bar (p : obj) (n : Z) : Prop := forall k, good_at p n k.

Lemma usable_good p n k m : good_at p n k -> usable_bar p k = Some m ->
  n <= o_len (look (bar_state p k) m) /\ o_len (look (bar_state p k) m) mod 4 = 0.
Proof.
  unfold good_at, usable_bar, bar_state. destruct (k_mapDeviceMemory p kIOPCIConfigBaseAddress0 k) as [[m'|] k'] eqn:E; [|done].
  intros Hg Hu. specialize (Hg m' k' eq_refl). destruct (Z.eqb_spec (o_len (look k' m')) 0); [done|].
  destruct (o_addr (look k' m')); simplify_eq/=. by destruct Hg.
Qed.

Definition enable_events : list event := [EMemoryEnable true; EIOEnable true; EBusMaster true].

(** What [map_bar0] gives back. *)
Definition bar0_result (w : world) (p : obj) (r : ptr) (w' : world) : Prop :=
  match r with
  | Some m => kern w' = bar_state p (kern w) /\ mmio (svc w') = Some m /\ bar0 (svc w') = Some m /\
      bar0Length (svc w') = o_len (look (kern w') m) /\ 0 < o_len (look (kern w') m) /\
      fresh_object m CIOMemoryMap (kern w) (kern w')
  | None => bar0 (svc w') = None /\ mmio (svc w') = None /\ same_objects (kern w) (kern w')
  end.

Lemma map_bar0_spec w p :
  mmio (svc w) = None ->
  wp (map_bar0 p)
     (fun r w' => boot w' = boot w /\ pci (svc w') = pci (svc w) /\ m_boList (svc w') = m_boList (svc w) /\
        trace w' = trace w ++ enable_events /\ r = usable_bar p (kern w) /\ bar0_result w p r w') w.
Proof.
  intros Hmm. unfold map_bar0, usable_bar. repeat wstep. intros b k1 Hmap.
  assert (Htr : forall ev : list event, ((ev ++ [EMemoryEnable true]) ++ [EIOEnable true]) ++ [EBusMaster true]
                = ev ++ enable_events) by (intros; by rewrite <- !app_assoc).
  pose proof (law_map p kIOPCIConfigBaseAddress0 (kern w)) as Hl. cbn [kern add_log add_event] in Hmap.
  assert (Hst : bar_state p (kern w) = k1) by (unfold bar_state; by rewrite Hmap).
  rewrite Hmap in Hl |- *. do 2 wstep. destruct b as [m|].
  2:{ repeat wstep. simpl. rewrite Htr. repeat split; auto; by apply frame_same in Hl as H; apply H. }
  destruct Hl as [Hfr Hlen]. pose proof Hfr as (F0 & F1 & F2 & F3 & F4). do 4 wstep. cbn [kern set_kern set_svc add_log].
  assert (Hrel : same_objects (kern w) (k_release m k1))
    by (apply release_fresh; [done|by apply frame_same_but|done|done]).
  destruct (Z.eqb_spec (o_len (look k1 m)) 0) as [Hz|Hz].
  { repeat wstep. simpl. rewrite Htr. repeat split; auto; apply Hrel. }
  wstep. apply wp_when; intros _; repeat wstep; cbn [kern set_kern set_svc add_log];
    (destruct (o_addr (look k1 m)) eqn:Ha; simpl negb; cbv iota; repeat wstep; simpl; rewrite Htr, ?Ha;
     [|repeat split; auto; apply Hrel]);
    (repeat split; auto; lia).
Qed.

Lemma adv_chain (w w1 w2 : world) e1 e2 evs :
  adv w e1 w1 -> adv w1 e2 w2 -> evs = e1 ++ e2 -> adv w evs w2.
Proof. intros H1 H2 ->. by apply (adv_app w w1 w2). Qed.

Lemma mapped_spans w m len n : mapped w m len -> n <= len -> spans (kern w) m n.
Proof. intros (_ & _ & Hr & Hl & _) Hn. split; [done|lia]. Qed.

Lemma read_config_spec w : wp read_config (fun _ w' => adv w [] w') w.
Proof. unfold read_config, configRead16, configRead8. repeat wstep. split; [repeat split|by rewrite app_nil_r]. Qed.

Definition initial_regs : list Z := [0x0; 0x4; 0x10; 0x100].

Lemma load_after b n off evs (Q : Z -> world -> Prop) w0 w :
  spans (kern w0) b n -> adv w0 evs w -> dword_below n off = true ->
  (forall v (w' : world), adv w0 (evs ++ [ERead off v]) w' -> Q v w') ->
  wp (mmio_load b (Z.shiftr off 2)) Q w.
Proof.
  intros Hs Ha Hb HQ. apply wp_load_off.
  - apply (readable_adv w0 w evs); [done|]. by apply (spans_readable _ _ n).
  - intros v w' _ Ha'. apply HQ. by apply (adv_app w0 w w').
Qed.

Lemma read_initial_spec w m :
  spans (kern w) m 0x104 ->
  wp (read_initial m) (fun _ w' => exists vs, List.length vs = 4%nat /\
                                     adv w (reads (zip initial_regs vs)) w') w.
Proof.
  intros Hs. unfold read_initial. do 2 wstep.
  wstep. eapply (load_after m 0x104 0x0 [] _ w); [done|exact (adv_refl w)|reflexivity|]. intros v0 w0 H0.
  wstep. eapply (load_after m 0x104 0x4 _ _ w); [done|exact H0|reflexivity|]. intros v1 w1 H1.
  wstep. eapply (load_after m 0x104 0x10 _ _ w); [done|exact H1|reflexivity|]. intros v2 w2 H2.
  wstep. eapply (load_after m 0x104 0x100 _ _ w); [done|exact H2|reflexivity|]. intros v3 w3 H3.
  repeat wstep. exists [v0; v1; v2; v3]. split; [done|exact H3].
Qed.

(** Step 6 only reads, and in strict-safe mode does not touch the device. *)
Lemma probe_gpu_spec w m len :
  mapped w m len -> GGTT.probe_span <= len ->
  wp (probe_gpu m) (fun _ w' => exists evs, adv w evs w' /\ only_reads evs /\
                                  (strictSafe (boot w) = true -> evs = [])) w.
Proof.
  intros Hm Hl. unfold probe_gpu. do 4 wstep. cbn [boot add_log]. wstep.
  destruct (strictSafe (boot w)).
  { repeat wstep. exists []. split; [apply (adv_log w w), adv_refl|]. by split; [constructor|]. }
  wstep. eapply wp_mono; [apply (logPowerState_spec _ m len); exact Hm|]. intros _ w1 [vs1 H1].
  apply reg_run_reads in H1 as (e1 & A1 & R1). change (adv w e1 w1) in A1. do 3 wstep.
  eapply wp_mono; [apply (GGTT.probe_spec _ m)|].
  { apply (mapped_spans _ _ len); [|done]. by apply (mapped_untouched w); [apply A1|]. }
  intros ok w2 (vs2 & A2 & _ & _). change (adv w1 (GGTT.probe_reads ok vs2) w2) in A2.
  eapply wp_mono; [apply (logDisplayState_spec w2 m len)|].
  { apply (mapped_untouched w1); [apply A2|]. by apply (mapped_untouched w); [apply A1|]. }
  intros _ w3 [vs3 H3]. apply reg_run_reads in H3 as (e3 & A3 & R3). wstep.
  exists (e1 ++ GGTT.probe_reads ok vs2 ++ e3). split; [|split; [|done]].
  - apply adv_log. eapply adv_chain; [exact A1| |reflexivity].
    eapply adv_chain; [exact A2|exact A3|reflexivity].
  - apply Forall_app; split; [exact R1|]. apply Forall_app; split; [apply reads_only|exact R3].
Qed.

(** The kernel after [super::start]. *)
Definition super_state (k : kst) : kst := snd (k_super ServiceStart k).

(** What [start] has done to the bus when BAR0 was mapped. *)
Definition brought_up (w w' : world) : Prop :=
  exists vs evs, trace w' = trace w ++ enable_events ++ reads (zip initial_regs vs) ++ evs /\
    List.length vs = 4%nat /\ only_reads evs /\ (strictSafe (boot w) = true -> evs = []).

(** The four ends of [start], told apart by the answers of the kernel. *)
Definition start_post (w : world) (p : obj) (ok : bool) (w' : world) : Prop :=
  boot w' = boot w /\
  let k := super_state (kern w) in
  if negb (fst (k_super ServiceStart (kern w))) then
    ok = false /\ svc w' = svc w /\ trace w' = trace w /\ same_objects (kern w) (kern w')
  else match usable_bar p k with
  | None =>
      ok = false /\ bar0 (svc w') = None /\ mmio (svc w') = None /\ m_boList (svc w') = None /\
      trace w' = trace w ++ enable_events /\ same_objects (kern w) (kern w')
  | Some m =>
      brought_up w w' /\ ~ 0 < o_refs (look (kern w) m) /\
      match fst (k_array_withCapacity 8 (bar_state p k)) with
      | None =>
          ok = false /\ m_boList (svc w') = None /\ bar0 (svc w') = Some m /\ mmio (svc w') = Some m /\
          o_refs (look (kern w') m) = 1 /\ same_but [m] (kern w) (kern w')
      | Some a =>
          ok = true /\ running w' m a (o_len (look (kern w') m)) [] /\ pci (svc w') = Some p /\
          ~ 0 < o_refs (look (kern w) a) /\ same_but [m; a] (kern w) (kern w')
      end
  end.

Lemma frame_look k k' q : frame [] k k' -> look k' q = look k q.
Proof. intros H. apply H. intros []. Qed.

Lemma same_objects_but l k k' : same_objects k k' -> same_but l k k'.
Proof. intros H q _. apply H. Qed.

Lemma start_registers (w0 w w' : world) p m a len :
  untouched w0 w -> mapped w0 m len -> cs_span <= len ->
  bar0 (svc w0) = Some m -> pci (svc w0) = Some p ->
  o_refs (look (kern w0) m) = 1 -> o_items (look (kern w0) m) = [] ->
  fresh_object a COSArray (kern w) (kern w') -> svc w' = set_boList (Some a) (svc w) ->
  running w' m a len [] /\ pci (svc w') = Some p /\ o_refs (look (kern w0) a) = 0 /\
  same_but [a] (kern w0) (kern w').
Proof.
  intros (Ek & _ & Es) Hm Hc Hb Hp Hr Hi (F0 & F1 & F2 & F3 & F4) Hs.
  rewrite Ek in *. rewrite Es in Hs.
  assert (Hne : m <> a) by (intros ->; lia).
  assert (Em : look (kern w') m = look (kern w0) m) by (apply F4; intros [E|[]]; congruence).
  split; [|rewrite Hs; auto using frame_same_but]. constructor; rewrite ?Hs, ?Em; simpl; auto.
  - unfold mapped in *. rewrite Hs, Em. exact Hm.
  - intros b [].
  - constructor; [intros [E|[]]; congruence|]. constructor; [intros []|constructor].
Qed.

(** Steps 4 to 7 from a world where BAR0 is mapped at [m]. *)
Lemma bring_up_spec w p m len :
  mapped w m len -> GGTT.probe_span <= len -> bar0 (svc w) = Some m -> pci (svc w) = Some p ->
  o_refs (look (kern w) m) = 1 -> o_items (look (kern w) m) = [] ->
  wp (bring_up m)
     (fun ok w' => boot w' = boot w /\
        (exists vs evs, trace w' = trace w ++ reads (zip initial_regs vs) ++ evs /\
            List.length vs = 4%nat /\ only_reads evs /\ (strictSafe (boot w) = true -> evs = [])) /\
        match fst (k_array_withCapacity 8 (kern w)) with
        | Some a =>
            ok = true /\ running w' m a len [] /\ pci (svc w') = Some p /\
            o_refs (look (kern w) a) = 0 /\ same_but [a] (kern w) (kern w')
        | None => ok = false /\ m_boList (svc w') = None /\ bar0 (svc w') = Some m /\ mmio (svc w') = Some m /\
                  same_objects (kern w) (kern w')
        end) w.
Proof.
  intros Hm Hlen Hb Hp Hr Hi. unfold bring_up.
  wstep. eapply wp_mono; [apply read_config_spec|]. intros vdr w1 A1.
  wstep. eapply wp_mono; [apply (read_initial_spec w1 m)|].
  { eapply spans_adv; [exact A1|]. apply (mapped_spans _ _ len); [done|].
    eapply Z.le_trans; [|exact Hlen]. discriminate. }
  intros _ w2 (vs & Hvs & A2). pose proof (adv_app _ _ _ _ _ A1 A2) as A2'. simpl app in A2'. clear A2. rename A2' into A2.
  wstep. eapply wp_mono; [apply (probe_gpu_spec w2 m len); [|done]|].
  { by apply (mapped_untouched w); [apply A2|]. }
  intros _ w3 (evs & A3 & Hev & Hst). replace (boot w2) with (boot w) in Hst by (symmetry; apply A2).
  pose proof (adv_app _ _ _ _ _ A2 A3) as [Hu Ht]. pose proof Hu as (Ek & Eb & Es).
  repeat wstep. intros l k4 Harr. cbn [kern add_log] in Harr.
  pose proof (law_array_new 8 (kern w3)) as Hla. rewrite Harr in Hla. rewrite <- Ek, Harr. do 2 wstep. cbn [fst].
  destruct l as [a|].
  - repeat wstep. intros rs k5 Hreg. cbn [kern set_svc set_kern add_log] in Hreg.
    pose proof (law_super RegisterService k4) as Hf5. rewrite Hreg in Hf5. repeat wstep.
    split; [done|]. destruct (start_registers w w3 (set_svc (set_boList (Some a) (svc w3)) (set_kern k4 w3)) p m a len)
      as (Hrun & Hpp & Ha0 & Hsb); auto.
    { eapply Z.le_trans; [|exact Hlen]. discriminate. }
    split; [exists vs, evs; split; [exact Ht|done]|]. apply frame_same in Hf5. rewrite Ek.
    split; [done|]. split; [by eapply running_same|]. split; [exact Hpp|]. split; [done|].
    eapply same_but_trans; [exact Hsb|]. by apply same_objects_but.
  - repeat wstep. split; [done|]. split; [exists vs, evs; split; [exact Ht|done]|]. simpl. rewrite Es.
    split; [done|]. split; [done|]. split; [done|]. split; [apply Hm|]. by apply frame_same.
Qed.

(** From the mapping of BAR0 on. *)
Lemma start_mapped (w w1 : world) p m :
  boot w1 = boot w -> trace w1 = trace w ++ enable_events -> same_objects (kern w) (super_state (kern w)) ->
  good_at p GGTT.probe_span (super_state (kern w)) -> usable_bar p (super_state (kern w)) = Some m ->
  pci (svc w1) = Some p -> m_boList (svc w1) = None ->
  kern w1 = bar_state p (super_state (kern w)) -> mmio (svc w1) = Some m -> bar0 (svc w1) = Some m ->
  bar0Length (svc w1) = o_len (look (kern w1) m) -> 0 < o_len (look (kern w1) m) ->
  fresh_object m CIOMemoryMap (super_state (kern w)) (kern w1) ->
  wp (bring_up m)
    (fun ok w' => boot w' = boot w /\ brought_up w w' /\ ~ 0 < o_refs (look (kern w) m) /\
      match fst (k_array_withCapacity 8 (bar_state p (super_state (kern w)))) with
      | None =>
          ok = false /\ m_boList (svc w') = None /\ bar0 (svc w') = Some m /\ mmio (svc w') = Some m /\
          o_refs (look (kern w') m) = 1 /\ same_but [m] (kern w) (kern w')
      | Some a =>
          ok = true /\ running w' m a (o_len (look (kern w') m)) [] /\ pci (svc w') = Some p /\
          ~ 0 < o_refs (look (kern w) a) /\ same_but [m; a] (kern w) (kern w')
      end) w1.
Proof.
  intros Hb1 Ht1 Hfs Hg Hu Hp Hl Hk Hmm Hb0 Hlen Hpos (F0 & F1 & F2 & F3 & F4).
  destruct (usable_good p _ _ m Hg Hu) as [Hbig Hal]. rewrite <- Hk in *.
  assert (Hm : mapped w1 m (o_len (look (kern w1) m))) by (unfold mapped; repeat split; auto; lia).
  assert (Hs1 : same_but [m] (kern w) (kern w1))
    by (eapply same_but_trans; [apply same_objects_but, Hfs|by apply frame_same_but]).
  assert (Hm0 : ~ 0 < o_refs (look (kern w) m)) by (intros Hl0; rewrite (proj1 (Hfs m) Hl0) in F0; lia).
  eapply wp_mono; [by apply (bring_up_spec w1 p m (o_len (look (kern w1) m)))|].
  intros ok w2 (Hb2 & (vs & evs & Ht2 & Hvs & Hev & Hst) & H2). split; [congruence|].
  split; [exists vs, evs; by rewrite Ht2, Ht1, <- app_assoc, <- Hb1|]. split; [done|].
  destruct (fst (k_array_withCapacity 8 (kern w1))) as [a|].
  - destruct H2 as (-> & R & Hp2 & Ha0 & Hsa). split; [done|].
    assert (Hma : a <> m) by (intros ->; lia). assert (Hna : ~ In a [m]) by (intros [E|[]]; congruence).
    assert (El : o_len (look (kern w2) m) = o_len (look (kern w1) m)) by (apply (run_mapped _ _ _ _ _ R)).
    rewrite El. split; [done|]. split; [done|]. split.
    + intros Hpos'. rewrite (proj1 (Hs1 a Hna) Hpos') in Ha0. lia.
    + eapply same_but_trans; (eapply same_but_incl; [|eassumption]); intros q [<-|[]]; simpl; auto.
  - destruct H2 as (-> & Hl2 & Hb2' & Hmm2 & Hs2). do 4 (split; [done|]).
    split; [rewrite (proj1 (Hs2 m)); [done|lia]|]. eapply same_but_trans; [exact Hs1|by apply same_objects_but].
Qed.

Lemma start_run w p :
  svc w = svc_init -> good_at p GGTT.probe_span (super_state (kern w)) -> o_class (look (kern w) p) = CIOPCIDevice ->
  wp (start (Some p)) (start_post w p) w.
Proof.
  intros Hsv Hg Hc. pose proof (law_super ServiceStart (kern w)) as Hf. unfold start, start_post.
  do 4 wstep. intros ok k1 Hsup. cbn [kern add_log] in Hsup.
  assert (Ek : super_state (kern w) = k1) by (unfold super_state; by rewrite Hsup).
  rewrite Hsup in Hf |- *. cbn [fst snd] in *. apply frame_same in Hf as Hfs. destruct ok; simpl negb; cbv iota.
  2:{ repeat wstep. done. }
  do 2 wstep. cbn [kern set_kern add_log]. rewrite (frame_look (kern w)), decide_True by done.
  do 3 wstep. eapply wp_mono; [apply map_bar0_spec; by simpl; rewrite Hsv|].
  simpl. intros r w1 (Hb1 & Hp1 & Hl1 & Ht1 & Hr & Hr1). rewrite Hsv in Hl1. rewrite Ek, <- Hr. rewrite <- Ek in *.
  destruct r as [m|]; simpl in Hr1.
  - destruct Hr1 as (Hk & Hmm & Hb0 & Hlen & Hpos & Hfr). by eapply wp_mono; [apply (start_mapped w w1 p m)|].
  - wstep. destruct Hr1 as (H1 & H2 & H3). split; [done|]. do 5 (split; [done|]). by eapply same_objects_trans.
Qed.

Lemma start_success w p w' : start_post w p true w' ->
  exists m a len, running w' m a len [] /\ ~ 0 < o_refs (look (kern w) m) /\ ~ 0 < o_refs (look (kern w) a) /\
    same_but [m; a] (kern w) (kern w') /\ brought_up w w'.
Proof.
  unfold start_post. intros (_ & H). destruct (negb _); [by destruct H|]. destruct (usable_bar _ _) as [m|]; [|by destruct H].
  destruct H as (Hb & Hm & H). destruct (fst _) as [a|]; [|by destruct H]. destruct H as (_ & R & _ & Ha & Hs). eauto 10.
Qed.

Lemma start_refused w p :
  o_class (look (kern w) p) <> CIOPCIDevice ->
  wp (start (Some p)) (fun ok w' => ok = false /\ trace w' = trace w /\ same_objects (kern w) (kern w')) w.
Proof.
  intros Hc. pose proof (law_super ServiceStart (kern w)) as Hf. unfold start. do 4 wstep. intros ok k1 Hsup.
  cbn [kern add_log] in Hsup. rewrite Hsup in Hf. apply frame_same in Hf as Hfs. destruct ok; simpl negb; cbv iota.
  - do 2 wstep. cbn [kern set_kern add_log]. rewrite (frame_look (kern w)), decide_False by done. by repeat wstep.
  - by repeat wstep.
Qed.

(** C5. What [start] does on a PCI provider whose BAR0, when it can be mapped,
    is empty or at least 0x100008 bytes in whole dwords: it never faults, and
    the answers of the kernel decide how it ends.  If [super::start] fails,
    nothing has happened.  If BAR0 cannot be mapped, or the mapping is empty
    or has no address, memory, I/O and bus mastering have been enabled and are
    left so, and no object remains.  If the registry array cannot be made, the
    mapping of BAR0 remains, referenced and known to the service, and nothing
    else.  Otherwise, and only then, it returns true: BAR0 is mapped and known
    by its real length and the buffer registry is empty.  The device is
    enabled before the first register access, every access is a read, and in
    strict-safe mode only the four identification registers are read.  A
    provider of another class is refused before anything is enabled. *)
Theorem start_establishes w p :
  svc w = svc_init -> good_bar p GGTT.probe_span ->
  (o_class (look (kern w) p) = CIOPCIDevice -> wp (start (Some p)) (start_post w p) w) /\
  (o_class (look (kern w) p) <> CIOPCIDevice ->
   wp (start (Some p)) (fun ok w' => ok = false /\ trace w' = trace w /\
                                     same_objects (kern w) (kern w')) w).
Proof. intros Hs Hg. split; [by apply start_run|apply start_refused]. Qed.

(** ** Where bring-up goes wrong *)

Lemma free_run w : wp free (fun _ w' => svc w' = svc w /\ trace w' = trace w /\ frame [] (kern w) (kern w')) w.
Proof.
  unfold free. repeat wstep. intros ok k Hs. cbn [kern add_log] in Hs.
  pose proof (law_super ServiceFree (kern w)) as Hf. rewrite Hs in Hf. by repeat wstep.
Qed.

(** The registry cannot be made: neither [start] nor [free] gives back BAR0 or
    turns bus mastering off. *)
Lemma registry_failure w p m :
  svc w = svc_init -> good_at p GGTT.probe_span (super_state (kern w)) -> o_class (look (kern w) p) = CIOPCIDevice ->
  fst (k_super ServiceStart (kern w)) = true -> usable_bar p (super_state (kern w)) = Some m ->
  fst (k_array_withCapacity 8 (bar_state p (super_state (kern w)))) = None ->
  wp (ok <- start (Some p) ;; free ;;; ret ok)
     (fun ok w' => ok = false /\ bar0 (svc w') = Some m /\ mmio (svc w') = Some m /\
        o_refs (look (kern w') m) = 1 /\
        exists evs, trace w' = trace w ++ evs /\ In (EBusMaster true) evs /\ ~ In (EBusMaster false) evs) w.
Proof.
  intros Hs Hg Hc Hsup Hu Harr. wstep. eapply wp_mono; [by apply start_run|]. intros ok w1 (_ & H).
  cbv zeta in H. rewrite Hsup, Hu, Harr in H. cbn [negb] in H.
  destruct H as ((vs & evs & Ht & _ & Hev & _) & _ & -> & _ & Hb & Hm & Hr & _).
  wstep. eapply wp_mono; [apply free_run|]. intros [] w2 (Es & Et & Hf). wstep. rewrite Es, Et, (frame_look (kern w1)) by done.
  do 4 (split; [done|]). exists (enable_events ++ reads (zip initial_regs vs) ++ evs). split; [done|].
  split; [simpl; auto|]. rewrite !in_app_iff. intros [H|H]; [simpl in H; intuition discriminate|].
  assert (Hro : only_reads (reads (zip initial_regs vs) ++ evs)) by (apply Forall_app; split; [apply reads_only|done]).
  rewrite <- in_app_iff in H. by apply (proj1 (List.Forall_forall _ _) Hro) in H.
Qed.

(** A load inside the mapping returns, one outside faults. *)
Lemma faults_load {A} m off (k : Z -> M world A) w :
  (forall v (w' : world), kern w' = kern w -> faults (k v) w') -> faults (v <- mmio_load m off ;; k v) w.
Proof.
  intros Hk. unfold faults, bind, mmio_load. destruct (in_object (kern w) m (4 * off) 4); [|eauto]. by apply Hk.
Qed.

Lemma read_initial_faults w m : o_len (look (kern w) m) < 0x104 -> faults (read_initial m) w.
Proof.
  intros Hl. unfold read_initial. apply faults_later. wstep. apply faults_load. intros ? w1 E1. apply faults_load. intros ? w2 E2.
  apply faults_load. intros ? w3 E3. apply faults_here. unfold faults, mmio_load, in_object. rewrite E3, E2, E1. cbn [kern add_log].
  rewrite (proj2 (Z.leb_gt (4 * Z.shiftr 0x100 2 + 4) _)) by (change (4 * Z.shiftr 0x100 2 + 4) with 0x104; lia).
  rewrite andb_false_r. eauto.
Qed.

(** A short BAR0: the identification reads are not checked. *)
Lemma short_bar_faults w p m :
  svc w = svc_init -> o_class (look (kern w) p) = CIOPCIDevice ->
  fst (k_super ServiceStart (kern w)) = true -> usable_bar p (super_state (kern w)) = Some m ->
  o_len (look (bar_state p (super_state (kern w))) m) < 0x104 -> faults (start (Some p)) w.
Proof.
  intros Hsv Hc Hsup Hu Hl. pose proof (law_super ServiceStart (kern w)) as Hf. unfold start.
  apply faults_later. wstep. apply faults_later. wstep. intros ok k1 E. cbn [kern add_log] in E.
  unfold super_state in *. rewrite E in *. cbn [fst snd] in *. subst ok. simpl negb. cbv iota.
  apply faults_later. wstep. cbn [kern set_kern add_log]. rewrite (frame_look (kern w)), decide_True by done.
  apply faults_later. wstep. apply faults_later. eapply wp_mono; [apply map_bar0_spec; by simpl; rewrite Hsv|].
  simpl. intros r w1 (_ & _ & _ & _ & -> & Hr). rewrite Hu in Hr |- *. simpl in Hr. destruct Hr as (Hk & _).
  unfold bring_up. apply faults_later. eapply wp_mono; [apply read_config_spec|]. intros vdr w2 [(Ek & _) _].
  apply faults_here, read_initial_faults. by rewrite Ek, Hk.
Qed.

(** C19. Two ways [start] goes wrong, for every device, kernel and setting of
    the boot flags, once [super::start] has succeeded and BAR0 is mapped.
    When the registry array cannot be made (on a BAR0 of at least 0x100008
    bytes in whole dwords) it returns false with BAR0 still mapped, referenced
    and bus mastering on, and [free], the only thing IOKit calls next, gives
    none of it back.  And a mapping shorter than 0x104 bytes, for which the
    code only logs a warning, always makes it fault on the unchecked
    identification reads. *)
Theorem start_failure_modes w p m :
  svc w = svc_init -> o_class (look (kern w) p) = CIOPCIDevice ->
  fst (k_super ServiceStart (kern w)) = true -> usable_bar p (super_state (kern w)) = Some m ->
  let k := bar_state p (super_state (kern w)) in
  (GGTT.probe_span <= o_len (look k m) -> o_len (look k m) mod 4 = 0 -> fst (k_array_withCapacity 8 k) = None ->
   wp (ok <- start (Some p) ;; free ;;; ret ok)
     (fun ok w' => ok = false /\ bar0 (svc w') = Some m /\ mmio (svc w') = Some m /\
        o_refs (look (kern w') m) = 1 /\
        exists evs, trace w' = trace w ++ evs /\ In (EBusMaster true) evs /\ ~ In (EBusMaster false) evs) w) /\
  (o_len (look k m) < 0x104 -> exists w', start (Some p) w = Fault w').
Proof.
  intros Hs Hc Hsup Hu k. split; [|by apply short_bar_faults]. intros Hl Hal Harr.
  apply (registry_failure w p m); try done. intros m' k' E. right. unfold k, bar_state, usable_bar in *. rewrite E in *.
  destruct (_ || _); [done|]. by injection Hu as ->.
Qed.

(** ** Buffer objects *)

(** Rounding up to whole pages; only the last page of the 32-bit range wraps. *)
Lemma page_align_spec bytes :
  is_u32 bytes ->
  if bytes <=? 2 ^ 32 - 4096
  then page_align bytes mod 4096 = 0 /\ bytes <= page_align bytes < bytes + 4096
  else page_align bytes = 0.
Proof.
  unfold is_u32, page_align. intros Hb.
  assert (Hland : forall x, 0 <= x < 2 ^ 32 -> Z.land x 0xFFFFF000 = x / 4096 * 4096).
  { intros x Hx. change 4096 with (2 ^ 12). rewrite <- Z.shiftr_div_pow2, <- Z.shiftl_mul_pow2 by lia.
    rewrite <- Z.ldiff_ones_r by lia.
    apply Z.bits_inj'. intros n Hn. rewrite Z.land_spec, Z.ldiff_spec.
    change 0xFFFFF000 with (Z.shiftl (Z.ones 20) 12). rewrite Z.shiftl_spec by lia.
    destruct (Z.lt_ge_cases n 12).
    { rewrite (Z.testbit_neg_r (Z.ones 20)) by lia. rewrite Z.ones_spec_low by lia. by rewrite !andb_false_r. }
    rewrite (Z.ones_spec_high 12) by lia. destruct (Z.lt_ge_cases n 32).
    { by rewrite Z.ones_spec_low by lia. }
    rewrite <- (Z.mod_small x (2 ^ 32)), Z.mod_pow2_bits_high by lia. done. }
  rewrite Hland by apply wrap32_range. unfold wrap32. destruct (Z.leb_spec bytes (2 ^ 32 - 4096)).
  - rewrite (Z.mod_small (bytes + 0xFFF)) by lia. rewrite Z.mod_mul by lia.
    pose proof (Z.div_mod (bytes + 0xFFF) 4096). pose proof (Z.mod_pos_bound (bytes + 0xFFF) 4096). lia.
  - replace ((bytes + 0xFFF) mod 2 ^ 32) with (bytes + 0xFFF - 2 ^ 32)
      by (apply (Z.mod_unique _ _ 1); lia).
    rewrite Z.div_small by lia. lia.
Qed.

(** The registry as a sequence: what [boFromCookie] finds. *)
Lemma boFromCookie_spec w m a len bos cookie :
  running w m a len bos -> is_u64 cookie -> Z.of_nat (List.length bos) < 2 ^ 32 ->
  boFromCookie cookie w
  = Done (if cookie =? 0 then None else bos !! Z.to_nat (cookie - 1)) w.
Proof.
  intros R Hc Hl. unfold boFromCookie, get_svc, getCount, getObject, OSDynamicCast, bind, gets.
  rewrite (run_list _ _ _ _ _ R). destruct (Z.eqb_spec cookie 0) as [|Hnz]; [done|].
  unfold is_u64 in Hc. rewrite wrap64_small by lia. rewrite (run_items _ _ _ _ _ R).
  destruct (Z.leb_spec (Z.of_nat (List.length bos)) (cookie - 1)) as [Hge|Hlt].
  - unfold ret. rewrite lookup_ge_None_2 by lia. done.
  - rewrite wrap32_small by lia.
    destruct (lookup_lt_is_Some_2 bos (Z.to_nat (cookie - 1)) ltac:(lia)) as [b Hb]. rewrite Hb.
    destruct (run_bos _ _ _ _ _ R b) as (_ & Hcl & _); [|by rewrite (run_items _ _ _ _ _ R), Hb, decide_True].
    by apply list_elem_of_In, (list_elem_of_lookup_2 _ (Z.to_nat (cookie - 1))).
Qed.

(** The registry grows by [b]. *)
Lemma running_grow (w w' : world) m a len bos b :
  running w m a len bos -> svc w' = svc w -> ~ In b (m :: a :: bos) ->
  look (kern w') a = with_items (bos ++ [b]) (look (kern w) a) -> bo_ok (look (kern w') b) ->
  frame [a; b] (kern w) (kern w') -> running w' m a len (bos ++ [b]).
Proof.
  intros R Hs Hb Ha Hok Hf.
  assert (HL : forall q, In q (m :: bos) -> look (kern w') q = look (kern w) q).
  { intros q Hq. apply Hf. pose proof (run_nodup _ _ _ _ _ R) as Hn.
    apply NoDup_cons_iff in Hn as [Hnm Hn]. apply NoDup_cons_iff in Hn as [Hna _].
    intros [<-|[<-|[]]]; simpl in *; intuition congruence. }
  pose proof (HL m ltac:(simpl; auto)) as Em.
  destruct R. constructor; rewrite ?Hs, ?Em, ?Ha; simpl; auto.
  - unfold mapped in *. by rewrite Hs, Em.
  - intros q [Hq|[<-|[]]]%in_app_or; [|done]. rewrite HL by (simpl; auto). auto.
  - change (m :: a :: bos ++ [b]) with ((m :: a :: bos) ++ [b]).
    apply List.NoDup_app; [done|by constructor; [intros []|constructor]|].
    intros q Hq [<-|[]]. done.
Qed.

(** What [ucCreateBuffer] does to a running service. *)
Definition create_post (w : world) (m a : obj) (len : Z) (bos : list obj) (bytes : Z)
    (r : Z * option Z) (w' : world) : Prop :=
  boot w' = boot w /\ svc w' = svc w /\ trace w' = trace w /\
  ((exists b, r = (kIOReturnSuccess, Some (Z.of_nat (List.length bos) + 1)) /\
      running w' m a len (bos ++ [b]) /\ o_refs (look (kern w) b) = 0 /\
      same_but [a; b] (kern w) (kern w') /\ o_len (look (kern w') b) = page_align bytes) \/
   (r = (kIOReturnNoResources, None) /\ same_objects (kern w) (kern w'))).

Lemma create_spec w m a len bos bytes :
  running w m a len bos -> wp (ucCreateBuffer bytes) (create_post w m a len bos bytes) w.
Proof.
  intros R. unfold ucCreateBuffer. do 4 wstep. cbn [svc add_log]. rewrite (run_list _ _ _ _ _ R).
  repeat wstep. intros md k1 Hnew. cbn [kern add_log] in Hnew.
  pose proof (law_bmd_new bo_options (page_align bytes) k_page_size (kern w)) as Hl. rewrite Hnew in Hl.
  destruct md as [b|].
  2:{ repeat wstep. split; [done|]. split; [done|]. split; [done|]. right. split; [done|]. by apply frame_same. }
  destruct Hl as ((F0 & F1 & F2 & F3 & F4) & Hlen & _).
  assert (Hnb : ~ In b (m :: a :: bos)).
  { intros Hin. apply (running_live w m a len bos) in Hin; [lia|done]. }
  assert (Hab : a <> b) by (intros ->; simpl in Hnb; tauto).
  assert (Ea : look k1 a = look (kern w) a) by (apply F4; intros [E|[]]; congruence).
  wstep. wstep. intros ok k2 Hset. cbn [kern set_kern] in Hset.
  pose proof (law_setObject a b k1 Hab ltac:(rewrite Ea, (run_list_refs _ _ _ _ _ R); lia) ltac:(lia)) as Hs.
  rewrite Hset in Hs. destruct ok; simpl negb; cbv iota.
  - destruct Hs as (Sa & Sb & Sf). unfold getCount. repeat wstep. cbn [kern set_kern add_log].
    rewrite Ea, (run_items _ _ _ _ _ R) in Sa. split; [done|]. split; [done|]. split; [done|]. left. exists b.
    assert (Hgrow : running (set_kern k2 w) m a len (bos ++ [b])).
    { apply (running_grow w); auto.
      - simpl. rewrite Sb. unfold bo_ok. simpl. rewrite F1. auto.
      - simpl. intros q Hq. rewrite Sf by done. apply F4. simpl in *. tauto. }
    split; [rewrite Sa; simpl; rewrite length_app; simpl; do 2 f_equal; lia|].
    split; [eapply running_same; [exact Hgrow|reflexivity|apply same_objects_refl]|].
    split; [done|]. split; [|simpl; by rewrite Sb].
    intros q Hq. simpl. rewrite Sf by (simpl in *; tauto). rewrite F4 by (simpl in *; tauto). auto.
  - repeat wstep. split; [done|]. split; [done|]. split; [done|]. right. split; [done|]. simpl.
    apply (release_fresh b); [done| |by rewrite (frame_look k1)|by rewrite (frame_look k1)].
    eapply same_but_trans; [by apply frame_same_but|]. by apply same_objects_but, frame_same.
Qed.

(** C4. Cookies are a faithful registry: creating a buffer on a running
    service either fails with NoResources, leaving every live object as it was
    and nothing new behind, or returns the cookie [n + 1] for the [n + 1]-st
    buffer; from then on that cookie names the new buffer (of the requested
    size rounded up to whole pages), every earlier cookie still names its
    buffer, and no other cookie names any; the service stays in its invariant. *)
Theorem create_buffer_registers w m a len bos bytes :
  running w m a len bos -> is_u32 bytes -> Z.of_nat (List.length bos) < 2 ^ 32 - 1 ->
  wp (ucCreateBuffer bytes)
     (fun r w' =>
        (r = (kIOReturnNoResources, None) /\ same_objects (kern w) (kern w') /\ running w' m a len bos) \/
        (exists b, r = (kIOReturnSuccess, Some (Z.of_nat (List.length bos) + 1)) /\
           running w' m a len (bos ++ [b]) /\ o_refs (look (kern w) b) = 0 /\
           o_len (look (kern w') b) = page_align bytes /\
           (bytes <= 2 ^ 32 - 4096 -> bytes <= page_align bytes < bytes + 4096) /\
           forall cookie, is_u64 cookie ->
             boFromCookie cookie w' =
             Done (if cookie =? 0 then None
                   else if cookie =? Z.of_nat (List.length bos) + 1 then Some b
                   else bos !! Z.to_nat (cookie - 1)) w')) w.
Proof.
  intros R Hb Hn. eapply wp_mono; [by apply create_spec|].
  intros r w' (_ & Hs & _ & [(b & -> & R' & H0 & _ & Hlen)|(-> & Hso)]).
  - right. exists b. split; [done|]. split; [done|]. split; [done|]. split; [done|]. split.
    { intros Hle. pose proof (page_align_spec bytes Hb) as Hp.
      rewrite (proj2 (Z.leb_le _ _) Hle) in Hp. apply Hp. }
    intros cookie Hc. rewrite (boFromCookie_spec w' m a len (bos ++ [b])) by (rewrite ?length_snoc; auto; lia).
    f_equal. destruct (Z.eqb_spec cookie 0); [done|]. unfold is_u64 in Hc.
    destruct (Z.eqb_spec cookie (Z.of_nat (List.length bos) + 1)) as [->|Hne].
    + rewrite lookup_app_r by lia. by replace (_ - _)%nat with 0%nat by lia.
    + destruct (decide (Z.to_nat (cookie - 1) < List.length bos)%nat).
      * by rewrite lookup_app_l.
      * rewrite !lookup_ge_None_2; [done|lia|rewrite length_snoc; lia].
  - left. split; [done|]. split; [done|]. by eapply running_same.
Qed.

Lemma submit_spec w m a len bos :
  running w m a len bos ->
  wp ucSubmitNoop
     (fun kr w' => boot w' = boot w /\ svc w' = svc w /\ same_objects (kern w) (kern w') /\
        exists evs, trace w' = trace w ++ evs /\ writes_only_forcewake evs /\
          (disableCommandStream (boot w) || strictSafe (boot w) = true ->
           evs = [] /\ kr <> kIOReturnSuccess)) w.
Proof.
  intros R. pose proof (run_mapped _ _ _ _ _ R) as Hm. unfold ucSubmitNoop. do 4 wstep.
  cbn [svc add_log]. rewrite (proj1 Hm). repeat wstep. intros md k1 Hnew. cbn [kern add_log] in Hnew.
  pose proof (law_bmd_new bo_options 4096 k_page_size (kern w)) as Hl. rewrite Hnew in Hl.
  destruct md as [b|].
  2:{ repeat wstep. simpl. split; [done|]. split; [done|]. split; [by apply frame_same|].
      exists []. rewrite app_nil_r. split; [done|]. split; [constructor|done]. }
  destruct Hl as ((F0 & F1 & F2 & F3 & F4) & Hlen & Hww).
  assert (Hmb : m <> b) by (intros ->; rewrite (run_bar0_refs _ _ _ _ _ R) in F0; lia).
  do 2 wstep. wstep. eapply wp_mono; [apply (submitNoop_run _ m b)|].
  { simpl. unfold spans. rewrite F4 by (intros [E|[]]; congruence).
    apply (mapped_spans w m len cs_span Hm), (run_span _ _ _ _ _ R). }
  { simpl. lia. }
  { done. }
  { simpl. unfold whole_words. by rewrite Hlen. }
  intros kr w1. cbn [boot svc kern trace add_log set_kern]. intros (Eb & Es & H). repeat wstep.
  cbn [boot svc kern trace add_log set_kern]. split; [done|]. split; [done|].
  assert (Hk : same_but [b] (kern w) (kern w1) /\ o_refs (look (kern w1) b) = 1 /\ o_items (look (kern w1) b) = [] /\
    exists evs, trace w1 = trace w ++ evs /\ writes_only_forcewake evs /\
      (disableCommandStream (boot w) || strictSafe (boot w) = true -> evs = [] /\ kr <> kIOReturnSuccess)).
  { assert (Hno : no_effect (add_log ("XePCI: ucSubmitNoop: calling XeCommandStream::submitNoop"%string, [])
                    (set_kern k1 w)) w1 -> kr <> kIOReturnSuccess -> same_but [b] (kern w) (kern w1) /\
        o_refs (look (kern w1) b) = 1 /\ o_items (look (kern w1) b) = [] /\
        exists evs, trace w1 = trace w ++ evs /\ writes_only_forcewake evs /\
          (disableCommandStream (boot w) || strictSafe (boot w) = true -> evs = [] /\ kr <> kIOReturnSuccess)).
    { intros [Ek Et] Hkr. simpl in Ek, Et. rewrite Ek. split; [by apply frame_same_but|]. split; [done|].
      split; [done|]. exists []. rewrite app_nil_r. split; [done|]. split; [constructor|done]. }
    destruct (_ || _); [destruct H as [-> H]; by apply Hno|].
    destruct (negb _); [destruct H as [-> H]; by apply Hno|].
    destruct (_ <? _); [destruct H as [-> H]; by apply Hno|].
    destruct H as (-> & [Hv Hf] & evs & Ht & Htr). rewrite Hv. simpl. split.
    { eapply same_but_trans; [by apply frame_same_but|by apply frame_same_but]. }
    split; [done|]. split; [done|]. exists evs. split; [done|]. split; [by eapply rcs_traffic_writes|done]. }
  destruct Hk as (Hs1 & Hr1 & Hi1 & Hev). split; [|exact Hev]. by apply (release_fresh b).
Qed.

(** ** Tear-down *)

(** Kernel [k] is [k0] with the creator's reference of the buffers [dn]
    dropped. *)
Definition dropped (k0 : kst) (dn : list obj) (k : kst) : Prop :=
  (forall b, In b dn -> bo_ok (look k0 b) /\ look k b = with_refs 1 (look k0 b)) /\ same_but dn k0 k.

Lemma dropped_nil k : dropped k [] k.
Proof. split; [intros b []|]. apply frame_same_but, frame_refl. Qed.

Lemma dropped_snoc k0 dn k b :
  dropped k0 dn k -> ~ In b dn -> bo_ok (look k0 b) -> dropped k0 (dn ++ [b]) (k_release b k).
Proof.
  intros [Hd Hs] Hb Hok. pose proof Hok as (Hr & _ & Hi).
  assert (E : look k b = look k0 b) by (apply Hs; [done|lia]).
  destruct (release_plain b k) as (_ & H1 & H2); [rewrite E; lia|by rewrite E|].
  split.
  - intros q [Hq|[<-|[]]]%in_app_or.
    + destruct (Hd q Hq) as [Hqok Eq]. split; [done|].
      assert (Hqb : ~ In q [b]) by (intros [<-|[]]; done).
      rewrite (proj1 (H2 q Hqb)); [done|]. rewrite Eq. done.
    + split; [done|]. rewrite H1, E, Hr by (rewrite E; lia). done.
  - eapply same_but_trans; (eapply same_but_incl; [|eassumption]); intros q Hq; apply in_or_app; auto.
Qed.

Lemma release_bos_spec w0 m a len bos : running w0 m a len bos -> forall todo dn w,
  bos = dn ++ todo -> dropped (kern w0) dn (kern w) ->
  wp (release_bos a (List.length todo) (List.length dn))
     (fun _ w' => dropped (kern w0) bos (kern w') /\ svc w' = svc w /\ boot w' = boot w /\ trace w' = trace w) w.
Proof.
  intros R. pose proof (run_nodup _ _ _ _ _ R) as Hnd.
  apply NoDup_cons_iff in Hnd as [_ Hnd]. apply NoDup_cons_iff in Hnd as [Hna Hnd].
  induction todo as [|b todo IH]; intros dn w Hb Hd.
  { rewrite app_nil_r in Hb. subst dn. done. }
  assert (Hin : In b bos) by (rewrite Hb; apply in_or_app; simpl; auto).
  assert (Hnb : ~ In b dn).
  { rewrite Hb in Hnd. apply NoDup_remove_2 in Hnd. rewrite in_app_iff in Hnd. tauto. }
  assert (Ea : look (kern w) a = look (kern w0) a).
  { apply Hd; [rewrite Hb, in_app_iff in Hna; tauto|rewrite (run_list_refs _ _ _ _ _ R); lia]. }
  assert (Eb : look (kern w) b = look (kern w0) b).
  { apply Hd; [done|]. destruct (run_bos _ _ _ _ _ R b Hin) as [-> _]. lia. }
  simpl. unfold getObject. do 3 wstep.
  rewrite Ea, (run_items _ _ _ _ _ R), Hb, list_lookup_middle by done. wstep.
  destruct (run_bos _ _ _ _ _ R b Hin) as (_ & Hc & _).
  rewrite Eb, decide_True by done. repeat wstep.
  replace (S (List.length dn)) with (List.length (dn ++ [b])) by apply length_snoc.
  eapply wp_mono; [apply (IH (dn ++ [b]))|by rewrite <- Hb; intros].
  - by rewrite Hb, <- app_assoc.
  - apply dropped_snoc; [done|done|]. apply (run_bos _ _ _ _ _ R b Hin).
Qed.

Lemma count_one (l : list obj) b : List.NoDup l -> In b l -> count b l = 1.
Proof.
  intros Hn Hi. unfold count. pose proof (proj1 (NoDup_count_occ' Pos.eq_dec l) Hn b Hi) as ->. done.
Qed.

Lemma count_none (l : list obj) b : ~ In b l -> count b l = 0.
Proof. intros Hi. unfold count. by rewrite (proj1 (count_occ_not_In Pos.eq_dec l b)). Qed.

(** Releasing the registry frees it and with it every buffer. *)
Lemma release_list w m a len bos k :
  running w m a len bos -> dropped (kern w) bos k ->
  (forall q, In q (a :: bos) -> o_refs (look (k_release a k) q) = 0) /\
  same_but (a :: bos) (kern w) (k_release a k).
Proof.
  intros R [Hd Hs]. pose proof (run_nodup _ _ _ _ _ R) as Hnd.
  apply NoDup_cons_iff in Hnd as [_ Hnd]. apply NoDup_cons_iff in Hnd as [Hna Hnd].
  assert (Ea : look k a = look (kern w) a)
    by (apply Hs; [done|rewrite (run_list_refs _ _ _ _ _ R); lia]).
  assert (Hlaw := fun p => law_release a k p). rewrite Ea, (run_list_refs _ _ _ _ _ R) in Hlaw.
  rewrite (run_items _ _ _ _ _ R), Z.eqb_refl in Hlaw.
  assert (Hii : forall q, In q bos -> o_items (look k q) = []).
  { intros q Hq. destruct (Hd q Hq) as [(_ & _ & Hi) ->]. done. }
  split.
  - intros q [<-|Hq].
    + destruct (Hlaw a) as [H _]; rewrite ?Pos.eqb_refl, ?count_none, ?Ea, ?(run_list_refs _ _ _ _ _ R) in *; auto; lia.
    + assert (Hne : (q =? a)%positive = false) by (apply Pos.eqb_neq; intros ->; done).
      destruct (Hlaw q) as [H _]; rewrite ?Hne, ?count_one, ?(proj2 (Hd q Hq)) in *; simpl in *; auto; lia.
  - intros q Hq. assert (Hne : (q =? a)%positive = false) by (apply Pos.eqb_neq; intros ->; apply Hq; simpl; auto).
    assert (Hnq : ~ In q bos) by (intros H; apply Hq; simpl; auto).
    destruct (Hs q Hnq) as [HL HD]. split; intros Hlive.
    + rewrite <- (HL Hlive) in Hlive |- *.
      destruct (Hlaw q) as [_ H]; rewrite ?Hne, ?count_none in *; auto; try lia.
      rewrite H by lia. apply with_refs_id.
    + specialize (HD Hlive).
      destruct (Hlaw q) as [H _]; rewrite ?Hne, ?count_none in *; auto; lia.
Qed.

Definition stop_post (w : world) (m a : obj) (len : Z) (bos : list obj) (w' : world) : Prop :=
  boot w' = boot w /\ svc w' = mkSvc (pci (svc w)) None None len None /\
  (forall q, In q (m :: a :: bos) -> o_refs (look (kern w') q) = 0) /\
  same_but (m :: a :: bos) (kern w) (kern w') /\
  trace w' = trace w ++ (match pci (svc w) with Some _ => [EBusMaster false] | None => [] end).

Lemma stop_spec w m a len bos :
  running w m a len bos -> wp stop (fun _ w' => stop_post w m a len bos w') w.
Proof.
  intros R. pose proof (run_nodup _ _ _ _ _ R) as Hnd. apply NoDup_cons_iff in Hnd as [Hnm _].
  unfold stop. do 5 wstep. cbn [svc add_log]. rewrite (run_list _ _ _ _ _ R), (run_bar0 _ _ _ _ _ R).
  unfold getCount. repeat wstep. cbn [kern add_log]. rewrite (run_items _ _ _ _ _ R), Nat2Z.id.
  eapply wp_mono; [apply (release_bos_spec w m a len bos R bos []); [done|apply dropped_nil]|].
  cbn [svc boot trace add_log]. intros _ w1 (Hd & Es & Eb & Et). do 4 wstep.
  destruct (release_list w m a len bos (kern w1) R Hd) as [Hdead Hsame].
  assert (Em : look (k_release a (kern w1)) m = look (kern w) m).
  { apply Hsame; [done|]. rewrite (run_bar0_refs _ _ _ _ _ R). lia. }
  destruct (release_plain m (k_release a (kern w1))) as (Hm0 & _ & Hms);
    [rewrite Em, (run_bar0_refs _ _ _ _ _ R); lia|by rewrite Em, (run_bar0_items _ _ _ _ _ R)|].
  rewrite Em, (run_bar0_refs _ _ _ _ _ R) in Hm0.
  assert (Hfin : forall k2, frame [] (k_release m (k_release a (kern w1))) k2 ->
     (forall q, In q (m :: a :: bos) -> o_refs (look k2 q) = 0) /\ same_but (m :: a :: bos) (kern w) k2).
  { intros k2 Hf. split.
    - intros q Hq. rewrite (frame_look _ k2) by exact Hf. destruct (decide (q = m)) as [->|Hne]; [lia|].
      apply Hms; [intros [E|[]]; congruence|]. apply Hdead. destruct Hq; [congruence|done].
    - eapply same_but_trans; [eapply same_but_incl; [|exact Hsame]; intros q Hq; simpl; auto|].
      eapply same_but_trans; [eapply same_but_incl; [|exact Hms]; intros q [<-|[]]; simpl; auto|].
      by apply same_objects_but, frame_same. }
  destruct (pci (svc w)) eqn:Hp; repeat wstep; intros r k2 Hsup; cbn [kern add_log add_event set_svc set_kern] in Hsup;
    (destruct (Hfin k2) as [H1 H2];
     [pose proof (law_super ServiceStop (k_release m (k_release a (kern w1)))) as Hf; by rewrite Hsup in Hf|]);
    wstep; unfold stop_post, set_mmio, set_bar0, set_boList; simpl; rewrite Eb, Es, Et, Hp, ?app_nil_r;
    destruct (run_mapped _ _ _ _ _ R) as (_ & -> & _); auto.
Qed.

(** C6. Nothing outlives [stop]: on a running service it frees BAR0, the
    registry and every buffer ever registered (the creator's reference and the
    array's are both dropped), leaves all other objects alone, clears the
    pointers so that later register reads give the null sentinel and later
    buffer requests NotReady, and turns bus mastering off last. *)
Theorem stop_releases_everything w m a len bos :
  running w m a len bos ->
  wp stop (fun _ w' =>
    (forall q, In q (m :: a :: bos) -> o_refs (look (kern w') q) = 0) /\
    same_but (m :: a :: bos) (kern w) (kern w') /\
    trace w' = trace w ++ (match pci (svc w) with Some _ => [EBusMaster false] | None => [] end) /\
    (forall off, readReg off w' = Done kSentinelNullMMIO w') /\
    (forall bytes, wp (ucCreateBuffer bytes) (fun r w2 => r = (kIOReturnNotReady, None) /\
                                                kern w2 = kern w') w') /\
    wp stop (fun _ w2 => same_objects (kern w') (kern w2)) w') w.
Proof.
  intros R. eapply wp_mono; [by apply stop_spec|]. intros _ w' (_ & Hs & Hd & Ho & Ht).
  split; [done|]. split; [done|]. split; [done|]. split; [|split].
  - intros off. unfold readReg, readRegSafe, get_svc, bind, gets. by rewrite Hs.
  - intros bytes. unfold ucCreateBuffer. do 4 wstep. cbn [svc add_log]. rewrite Hs. by repeat wstep.
  - unfold stop. do 5 wstep. cbn [svc add_log]. rewrite Hs. cbn [m_boList bar0 pci]. repeat wstep.
    destruct (pci (svc w)); repeat wstep; intros r k2 Hsup; wstep; simpl;
      apply frame_same; pose proof (law_super ServiceStop (kern w')) as Hf; simpl in Hsup; by rewrite Hsup in Hf.
Qed.

(** ** The life cycle *)

(** The calls a client can cause on a running service. *)
Inductive uc_op : Type :=
| UcCreate (bytes : Z)
| UcSubmit
| UcWait (timeoutMs : Z)
| UcRead
| UcGTConfig
| UcDisplay.

Definition run_op (o : uc_op) : M world Z :=
  match o with
  | UcCreate bytes => r <- ucCreateBuffer bytes ;; ret (fst r)
  | UcSubmit => ucSubmitNoop
  | UcWait t => ucWait t
  | UcRead => r <- ucReadRegs 8 (Some (replicate 8 0)) (Some 8) ;; ret (fst (fst r))
  | UcGTConfig => r <- ucGetGTConfig (Some (replicate 8 0)) (Some 8) ;; ret (fst (fst r))
  | UcDisplay => r <- ucGetDisplayInfo (Some (replicate 8 0)) (Some 8) ;; ret (fst (fst r))
  end.

(** [owned] are the objects made since [k0]; all others are as in [k0]. *)
Definition owns (k0 : kst) (owned : list obj) (k : kst) : Prop :=
  forall q, (0 < o_refs (look k0 q) -> ~ In q owned /\ look k q = look k0 q) /\
            (o_refs (look k0 q) = 0 -> ~ In q owned -> o_refs (look k q) = 0).

Lemma owns_same k0 l k k' : owns k0 l k -> same_objects k k' -> owns k0 l k'.
Proof.
  intros Ho Hs q. destruct (Ho q) as [HL HD], (Hs q) as [SL SD]. split.
  - intros Hq. destruct (HL Hq) as [Hn E]. split; [done|]. by rewrite SL, E by (rewrite E; done).
  - auto.
Qed.

Lemma owns_grow k0 m a bos b k k' :
  owns k0 (m :: a :: bos) k -> o_refs (look k b) = 0 -> same_but [a; b] k k' ->
  owns k0 (m :: a :: bos ++ [b]) k'.
Proof.
  intros Ho Hb Hs q. destruct (Ho q) as [HL HD]. split.
  - intros Hq. destruct (HL Hq) as [Hn E].
    assert (Hqb : q <> b) by (intros ->; rewrite E in Hb; lia).
    assert (Hq2 : ~ In q [a; b]) by (simpl in *; intros [<-|[<-|[]]]; tauto).
    split; [|by rewrite (proj1 (Hs q Hq2)), E by (rewrite E; done)].
    simpl in *. rewrite in_app_iff. simpl. intuition congruence.
  - intros Hq Hn. simpl in Hn. rewrite in_app_iff in Hn. simpl in Hn.
    apply Hs; [simpl; tauto|]. apply HD; [done|]. simpl. tauto.
Qed.

Lemma owns_released k0 l k k' :
  owns k0 l k -> (forall q, In q l -> o_refs (look k' q) = 0) -> same_but l k k' -> same_objects k0 k'.
Proof.
  intros Ho Hd Hs q. destruct (Ho q) as [HL HD]. split.
  - intros Hq. destruct (HL Hq) as [Hn E]. by rewrite (proj1 (Hs q Hn)), E by (rewrite E; done).
  - intros Hq. destruct (in_dec Pos.eq_dec q l) as [Hin|Hn]; [by apply Hd|]. by apply Hs; [|apply HD].
Qed.

Lemma owns_start k0 m a k :
  ~ 0 < o_refs (look k0 m) -> ~ 0 < o_refs (look k0 a) -> same_but [m; a] k0 k -> owns k0 [m; a] k.
Proof.
  intros Hm Ha Hs q. split.
  - intros Hq. assert (Hn : ~ In q [m; a]) by (intros [<-|[<-|[]]]; done). split; [done|]. by apply Hs.
  - intros Hq Hn. by apply Hs.
Qed.

(** No register but the forcewake request is written and, in strict-safe mode,
    none at all. *)
Definition quiet (fl : XeBootFlags) (evs : list event) : Prop :=
  writes_only_forcewake evs /\
  (strictSafe fl = true -> Forall (fun e => match e with EWrite _ _ => False | _ => True end) evs).

Lemma quiet_app fl e1 e2 : quiet fl e1 -> quiet fl e2 -> quiet fl (e1 ++ e2).
Proof.
  intros [H1 S1] [H2 S2]. split; [by apply Forall_app|]. intros Hs. apply Forall_app; auto.
Qed.

Lemma quiet_reads fl evs : only_reads evs -> quiet fl evs.
Proof. intros H. split; [|intros _]; (eapply Forall_impl; [exact H|]); by intros []. Qed.

Lemma reg_run_effect len w offs vs (w' : world) :
  reg_run len w offs vs w' ->
  boot w' = boot w /\ svc w' = svc w /\ same_objects (kern w) (kern w') /\
  exists evs, trace w' = trace w ++ evs /\ quiet (boot w) evs.
Proof.
  intros H. apply reg_run_reads in H as (evs & [(Ek & Eb & Es) Et] & Hr). rewrite Ek.
  split; [done|]. split; [done|]. split; [apply same_objects_refl|]. eauto using quiet_reads.
Qed.

Lemma run_op_spec w m a len bos o :
  running w m a len bos ->
  wp (run_op o)
     (fun _ w' => exists bos', running w' m a len bos' /\ boot w' = boot w /\ svc w' = svc w /\
        (forall k0, owns k0 (m :: a :: bos) (kern w) -> owns k0 (m :: a :: bos') (kern w')) /\
        exists evs, trace w' = trace w ++ evs /\ quiet (boot w) evs) w.
Proof.
  intros R. pose proof (run_mapped _ _ _ _ _ R) as Hm.
  assert (Hplain : forall w' : world, boot w' = boot w -> svc w' = svc w -> same_objects (kern w) (kern w') ->
     (exists evs, trace w' = trace w ++ evs /\ quiet (boot w) evs) ->
     exists bos', running w' m a len bos' /\ boot w' = boot w /\ svc w' = svc w /\
        (forall k0, owns k0 (m :: a :: bos) (kern w) -> owns k0 (m :: a :: bos') (kern w')) /\
        exists evs, trace w' = trace w ++ evs /\ quiet (boot w) evs).
  { intros w' Hb Hs Ho He. exists bos. split; [by eapply running_same|]. eauto 6 using owns_same. }
  assert (Hnone : forall w' : world, trace w' = trace w ->
    exists evs, trace w' = trace w ++ evs /\ quiet (boot w) evs).
  { intros w' E. exists []. rewrite app_nil_r. split; [done|]. apply quiet_reads. constructor. }
  destruct o; simpl run_op.
  - wstep. eapply wp_mono; [by apply create_spec|].
    intros r w' (Hb & Hs & Ht & [(b & -> & R' & H0 & Hsb & _)|(-> & Hso)]); wstep; [|by apply Hplain; auto].
    exists (bos ++ [b]). split; [done|]. eauto 6 using owns_grow.
  - eapply wp_mono; [by apply (submit_spec w m a len bos)|]. intros kr w' (Hb & Hs & Ho & evs & Ht & Hw & Hq).
    apply Hplain; auto. exists evs. split; [done|]. split; [done|]. intros Hst.
    rewrite Hst, orb_true_r in Hq. destruct Hq as [-> _]; [done|]. constructor.
  - unfold ucWait. repeat wstep. apply Hplain; auto using same_objects_refl.
  - wstep. eapply wp_mono; [exact (proj1 (ucReadRegs_run w m len 8 (replicate 8 0) 8 Hm ltac:(lia) ltac:(simpl; lia)))|].
    intros r w' (vs & -> & Hr). wstep. apply reg_run_effect in Hr as (? & ? & ? & ?). by apply Hplain.
  - wstep. eapply wp_mono; [exact (proj1 (ucGetGTConfig_run w m len (replicate 8 0) 8 Hm ltac:(simpl; lia)))|].
    intros r w' (vs & -> & Hr). wstep. apply reg_run_effect in Hr as (? & ? & ? & ?). by apply Hplain.
  - wstep. eapply wp_mono; [exact (proj1 (ucGetDisplayInfo_run w m len (replicate 8 0) 8 Hm ltac:(simpl; lia)))|].
    intros r w' (vs & -> & Hr & _). wstep. apply reg_run_effect in Hr as (? & ? & ? & ?). by apply Hplain.
Qed.

(** What [PE_parse_boot_argn] may deliver: nothing, or a C string that fits the
    128-byte buffer. *)
Definition boot_arg_ok (arg : option (list ascii)) : Prop :=
  match arg with
  | None => True
  | Some bytes => exists s rest, bytes = s ++ NUL :: rest /\ no_nul s /\ (List.length s <= 127)%nat
  end.

Lemma wp_parse_boot_args arg (Q : unit -> world -> Prop) w :
  boot_arg_ok arg -> (forall f, Q tt (set_boot f w)) -> wp (parse_boot_args arg) Q w.
Proof.
  intros Harg HQ. unfold wp, parse_boot_args. destruct arg as [bytes|]; [|apply HQ].
  destruct Harg as (s & rest & -> & Hs & Hl). rewrite XeParseBootArgs_run by done. apply HQ.
Qed.

Lemma init_spec w arg :
  boot_arg_ok arg ->
  wp (init arg) (fun _ w' => svc w' = svc w /\ trace w' = trace w /\ frame [] (kern w) (kern w')) w.
Proof.
  intros Harg. unfold init. repeat wstep. intros ok k1 Hsup. cbn [kern add_log] in Hsup.
  pose proof (law_super ServiceInit (kern w)) as Hf. rewrite Hsup in Hf.
  destruct ok; simpl negb; cbv iota; [|by repeat wstep]. wstep.
  apply wp_parse_boot_args; [done|]. intros f. by repeat wstep.
Qed.

Inductive phase : Type := Loaded | Running | Stopped.

(** IOKit drives the service through its phases; between [start] and [stop] the
    clients call it in any order. *)
Inductive reach (w0 : world) (arg : option (list ascii)) (p : obj) : phase -> world -> Prop :=
| reach_init w : init arg w0 = Done true w -> reach w0 arg p Loaded w
| reach_start w w' : reach w0 arg p Loaded w -> start (Some p) w = Done true w' -> reach w0 arg p Running w'
| reach_op w o r w' : reach w0 arg p Running w -> run_op o w = Done r w' -> reach w0 arg p Running w'
| reach_stop w w' : reach w0 arg p Running w -> stop w = Done tt w' -> reach w0 arg p Stopped w'.

Definition phase_inv (w0 : world) (ph : phase) (w : world) : Prop :=
  quiet (boot w) (trace w) /\
  match ph with
  | Loaded => svc w = svc_init /\ trace w = [] /\ frame [] (kern w0) (kern w)
  | Running => exists m a len bos, running w m a len bos /\ owns (kern w0) (m :: a :: bos) (kern w)
  | Stopped => same_objects (kern w0) (kern w) /\
               bar0 (svc w) = None /\ mmio (svc w) = None /\ m_boList (svc w) = None
  end.

Lemma wp_done {A} (m : M world A) (Q : A -> world -> Prop) w x (w' : world) :
  wp m Q w -> m w = Done x w' -> Q x w'.
Proof. unfold wp. intros H E. by rewrite E in H. Qed.

Section Reach.
Context (w0 : world) (arg : option (list ascii)) (p : obj).
Hypothesis Hsvc : svc w0 = svc_init.
Hypothesis Htrace : trace w0 = [].
Hypothesis Harg : boot_arg_ok arg.
Hypothesis Hclass : o_class (look (kern w0) p) = CIOPCIDevice.
Hypothesis Hbar : good_bar p GGTT.probe_span.

Lemma loaded_start w : phase_inv w0 Loaded w -> wp (start (Some p)) (start_post w p) w.
Proof.
  intros (_ & Hs & _ & Hf). apply start_run; [done|apply Hbar|]. by rewrite (frame_look (kern w0)).
Qed.

Lemma reach_inv ph w : reach w0 arg p ph w -> phase_inv w0 ph w.
Proof.
  induction 1 as [w Hrun|w w' _ IH Hrun|w o r w' _ IH Hrun|w w' _ IH Hrun].
  - apply (wp_done _ _ _ _ _ (init_spec w0 arg Harg)) in Hrun as (Hs & Ht & Hf).
    rewrite Hsvc in Hs. rewrite Htrace in Ht. split; [|done]. rewrite Ht. apply quiet_reads. constructor.
  - pose proof (start_success _ _ _ (wp_done _ _ _ _ _ (loaded_start w IH) Hrun)) as
      (m & a & len & R & Hm & Ha & Hsb & vs & evs & Ht & _ & Hev & _).
    destruct IH as (_ & _ & Ht0 & Hf). split.
    + rewrite Ht, Ht0, app_nil_l. apply quiet_app; [split; [|intros _]; repeat constructor|].
      apply quiet_app; apply quiet_reads; [apply reads_only|done].
    + exists m, a, len, []. split; [done|].
      rewrite (frame_look (kern w0)) in Hm, Ha by done. apply owns_start; [done|done|].
      eapply same_but_trans; [|exact Hsb]. by apply same_objects_but, frame_same.
  - destruct IH as (Hq & m & a & len & bos & R & Ho).
    apply (wp_done _ _ _ _ _ (run_op_spec w m a len bos o R)) in Hrun
      as (bos' & R' & Hb & _ & Ho' & evs & Ht & Hqe).
    split; [rewrite Hb, Ht; by apply quiet_app|]. exists m, a, len, bos'. auto.
  - destruct IH as (Hq & m & a & len & bos & R & Ho).
    apply (wp_done _ _ _ _ _ (stop_spec w m a len bos R)) in Hrun as (Hb & Hs & Hd & Hsb & Ht).
    split; [|rewrite Hs; split; [by eapply owns_released|done]].
    rewrite Hb, Ht. apply quiet_app; [done|]. destruct (pci (svc w)); (split; [|intros _]); repeat constructor.
Qed.

(** C1. The life cycle never gets stuck and cleans up: from a fresh service, a
    provider that is a PCI device whose BAR0, when it can be mapped, is empty or
    at least 0x100008 bytes in whole dwords, and a boot argument that is absent
    or fits its buffer, in every reachable state the next
    calls complete without a fault ([start] once loaded; every client call in
    any order, and [stop], while running), the invariant of the phase holds,
    and after [stop] every object that existed before is unchanged and none
    of the driver's is left, however many buffers were made. *)
Theorem lifecycle_safe ph w :
  reach w0 arg p ph w ->
  match ph with
  | Loaded => exists ok w', start (Some p) w = Done ok w'
  | Running => (exists m a len bos, running w m a len bos) /\
               (forall o, exists r w', run_op o w = Done r w') /\ (exists w', stop w = Done tt w')
  | Stopped => same_objects (kern w0) (kern w) /\ mmio (svc w) = None /\ m_boList (svc w) = None
  end.
Proof.
  intros Hr. apply reach_inv in Hr. destruct ph.
  - apply loaded_start in Hr. apply wp_run in Hr as (ok & w' & H & _). eauto.
  - destruct Hr as (_ & m & a & len & bos & R & _). split; [eauto|]. split.
    + intros o. pose proof (run_op_spec w m a len bos o R) as H. apply wp_run in H as (r & w' & H & _). eauto.
    + pose proof (stop_spec w m a len bos R) as H. apply wp_run in H as ([] & w' & H & _). eauto.
  - destruct Hr as (_ & Hs & _ & Hm & Hl). done.
Qed.

(** C11. The driver never writes the GPU except to ask for forcewake: in every
    reachable state the only register writes on the bus are to FORCEWAKE_REQ,
    and with the [strictsafe] flag there is no register write at all. *)
Theorem strictsafe_never_writes ph w :
  reach w0 arg p ph w ->
  writes_only_forcewake (trace w) /\
  (strictSafe (boot w) = true -> forall off v, ~ In (EWrite off v) (trace w)).
Proof.
  intros Hr. apply reach_inv in Hr as [[Hw Hs] _]. split; [done|]. intros Hst off v Hin.
  specialize (Hs Hst). by apply (proj1 (List.Forall_forall _ _) Hs) in Hin.
Qed.

End Reach.
End Life.

Import Sim.

(** A kernel that has no memory for the registry array. *)
Definition no_registry := mkCfg (fun _ => true) true false true true true true 0x1000000 true.

Lemma start_failure_modes_witness :
  wp (ok <- start (Some provider) ;; free ;;; ret ok)
     (fun ok w' => ok = false /\ bar0 (svc w') = Some 3%positive /\ o_refs (look (kern w') 3%positive) = 1)
     (sim_world no_registry (sim_regs true []) default_flags) /\
  exists w', start (Some provider) (sim_world (all_ok 0x80) (sim_regs true []) default_flags) = Fault w'.
Proof.
  split.
  - eapply wp_mono.
    + refine (proj1 (start_failure_modes (sim_world no_registry (sim_regs true []) default_flags) provider 3%positive _ _ _ _) _ _ _);
        vm_compute; (reflexivity || discriminate).
    + intros ok w' (H1 & H2 & _ & H3 & _). split; [exact H1|]. split; [exact H2|exact H3].
  - refine (proj2 (start_failure_modes (sim_world (all_ok 0x80) (sim_regs true []) default_flags) provider 3%positive _ _ _ _) _);
      vm_compute; reflexivity.
Defined.

Lemma big_bar_good p : good_bar (K := BigBarKernel) p GGTT.probe_span.
Proof.
  intros k m k' H. simpl in H. pose proof (big_map_law k) as Hl. rewrite H in Hl. destruct Hl as [_ Hl].
  right. simpl look. rewrite Hl. split; [discriminate|reflexivity].
Qed.

Definition fresh_world : world (D := SimDevice) (K := BigBarKernel) :=
  big_world (all_ok 0) (sim_regs true []) default_flags.

Lemma start_establishes_witness :
  wp (start (K := BigBarKernel) (Some provider)) (start_post (K := BigBarKernel) fresh_world provider) fresh_world /\
  wp (start (K := BigBarKernel) (Some provider)) (fun ok w' => ok = true) fresh_world.
Proof.
  split; [|vm_compute; reflexivity].
  exact (proj1 (start_establishes (K := BigBarKernel) (KL := BigBarLaws) fresh_world provider
                  eq_refl (big_bar_good provider)) eq_refl).
Defined.

(** A running service with two buffers, BAR0 of 2 MiB. *)
Definition run_world : world (D := SimDevice) :=
  mkW (D := SimDevice) (K := SimKernel) (sim_regs true [])
    (mkSim [mkView 3 CIOPCIDevice [] 0 true []; mkView 1 CXeService [] 0 true [];
            mkView 1 CIOMemoryMap [] 0x200000 true []; mkView 1 COSArray [5; 6]%positive 0 true [];
            mkView 2 CIOBufferMemoryDescriptor [] 4096 true []; mkView 2 CIOBufferMemoryDescriptor [] 8192 true []]
       (all_ok 0x200000))
    default_flags (mkSvc (Some provider) (Some 3%positive) (Some 3%positive) 0x200000 (Some 4%positive)) [] [].

Lemma run_world_running : running run_world 3%positive 4%positive 0x200000 [5; 6]%positive.
Proof.
  constructor; try reflexivity.
  - repeat split; reflexivity.
  - discriminate.
  - intros b [<-|[<-|[]]]; repeat split; reflexivity.
  - repeat constructor; simpl; intuition discriminate.
Qed.

Lemma create_buffer_registers_witness :
  wp (ucCreateBuffer 5000) (fun r w' => r = (kIOReturnSuccess, Some 3)) run_world /\
  wp (ucCreateBuffer 5000)
     (fun r w' => r = (kIOReturnNoResources, None) \/
                  exists b, running w' 3%positive 4%positive 0x200000 ([5; 6]%positive ++ [b])) run_world.
Proof.
  split; [vm_compute; reflexivity|].
  eapply wp_mono; [apply (create_buffer_registers run_world 3%positive 4%positive 0x200000 [5; 6]%positive 5000)|].
  - apply run_world_running.
  - split; [discriminate|reflexivity].
  - reflexivity.
  - intros r w' [(-> & _)|(b & _ & R & _)]; [by left|]. right. exists b. exact R.
Defined.

Lemma stop_releases_everything_witness :
  wp stop (fun _ w' => forall q, In q [3; 4; 5; 6]%positive -> o_refs (look (kern w') q) = 0) run_world.
Proof.
  eapply wp_mono; [apply (stop_releases_everything run_world _ _ _ _ run_world_running)|].
  intros _ w' (H & _). exact H.
Defined.

(** Loading and starting the service. *)
Definition life (arg : option (list ascii)) : M (world (K := BigBarKernel)) bool :=
  ok <- init arg ;; if ok : bool then start (Some provider) else ret false.

Lemma life_reach arg (w : world (K := BigBarKernel)) :
  life arg fresh_world = Done true w -> reach fresh_world arg provider Running w.
Proof.
  unfold life, bind. destruct (init arg fresh_world) as [[] w1|] eqn:E; [|discriminate|discriminate].
  intros H. apply (reach_start _ _ _ w1); [by apply reach_init|done].
Qed.

(** A run that returns true in a state that passes the test [P]. *)
Lemma checked {S} (m : M S bool) (P : S -> bool) s :
  match m s with Done b s' => b && P s' | Fault _ => false end = true ->
  exists s', m s = Done true s' /\ P s' = true.
Proof. destruct (m s) as [b s'|]; [|done]. intros [-> H]%andb_true_iff. eauto. Qed.

Lemma lifecycle_safe_witness :
  exists w, reach fresh_world (Some (cstring "nocs")) provider Running w /\
    (forall o, exists r w', run_op (K := BigBarKernel) o w = Done r w').
Proof.
  destruct (checked (life (Some (cstring "nocs"))) (fun _ => true) fresh_world) as (w & Hw & _);
    [vm_compute; reflexivity|].
  exists w. split; [by apply life_reach|].
  apply (lifecycle_safe (K := BigBarKernel) (KL := BigBarLaws) fresh_world (Some (cstring "nocs")) provider
           eq_refl eq_refl ltac:(exists (list_ascii_of_string "nocs"), []; repeat split;
             [repeat constructor; discriminate|simpl; lia]) eq_refl (big_bar_good provider) Running w
           (life_reach _ w Hw)).
Defined.

Lemma strictsafe_never_writes_witness :
  exists w, reach fresh_world (Some (cstring "strictsafe")) provider Running w /\
    strictSafe (boot w) = true /\ forall off v, ~ In (EWrite off v) (trace w).
Proof.
  destruct (checked (life (Some (cstring "strictsafe"))) (fun w => strictSafe (boot w)) fresh_world)
    as (w & Hw & Hs); [vm_compute; reflexivity|].
  exists w. split; [by apply life_reach|]. split; [done|].
  exact (proj2 (strictsafe_never_writes (K := BigBarKernel) (KL := BigBarLaws) fresh_world
           (Some (cstring "strictsafe")) provider
           eq_refl eq_refl ltac:(exists (list_ascii_of_string "strictsafe"), []; repeat split;
             [repeat constructor; discriminate|simpl; lia]) eq_refl (big_bar_good provider) Running w
           (life_reach _ w Hw)) Hs).
Defined.

End ServiceLife.
