(* ===== verification/UserClient.v ===== *)
(** * UserClient: [src/kexts/XeUserClient.hpp] and [src/kexts/XeUserClient.cpp]

    The door from user space: the method table, the dispatcher, the six static
    handlers and the factory that [XeService::newUserClient] calls.  The fields
    of the client objects are kept beside the world of the service.  The
    superclass dispatcher [IOUserClient::externalMethod] is not in the
    repository: it is a parameter with the documented meaning of the table. *)

From Stdlib Require Import ZArith Lia Bool List String.
From stdpp Require Import base list option strings gmap.
From S2P Require Import Prelude HwOffsets BootArgs IOReturn Kernel SimKernel Forcewake GGTT CommandStream Service ServiceRegs ServiceLife.
Import ListNotations.
Open Scope Z_scope.

Module UserClient.
Import BootArgs Kern IOReturn CommandStream Service ServiceRegs ServiceLife.

(** The private fields of [class XeUserClient]. *)
Record XeUserClient : Type := mkClient { clientTask : Z; providerSvc : ptr }.
Definition client_init : XeUserClient := mkClient 0 None.

(** The members of [IOExternalMethodArguments] the driver and the dispatcher
    look at; [scalarOutput] is the kernel's array, of which the first
    [scalarOutputCount] elements are copied back to the caller. *)
Record arguments : Type := mkArgs {
  scalarInput : list Z;
  scalarInputCount : Z;
  structureInputSize : Z;
  scalarOutput : list Z;
  scalarOutputCount : Z;
  structureOutputSize : Z
}.

Definition with_output (l : list Z) (n : Z) (a : arguments) : arguments :=
  mkArgs (scalarInput a) (scalarInputCount a) (structureInputSize a) l n (structureOutputSize a).

Section UserClient.
Context `{D : Device} `{K : Kernel}.

Record uworld : Type := mkU { base : world; clients : gmap obj XeUserClient }.

(** A call into the service, or any computation on the world. *)
Definition lift {A} (m : M world A) : M uworld A := fun u =>
  match m (base u) with
  | Done a w => Done a (mkU w (clients u))
  | Fault w => Fault (mkU w (clients u))
  end.
Definition ulog (fmt : string) (args : list larg) : M uworld unit := lift (XeLog fmt args).
Definition get_client (c : obj) : M uworld XeUserClient :=
  gets (fun u => default client_init (clients u !! c)).
Definition put_client (c : obj) (f : XeUserClient -> XeUserClient) : M uworld unit :=
  modify (fun u => mkU (base u) (<[c := f (default client_init (clients u !! c))]> (clients u))).

(** ** The static handlers *)

Definition action : Type := ptr -> option arguments -> M uworld (Z * option arguments).

(** The argument of [ucCreateBuffer]. *)
Definition clamp_bytes (a : arguments) : Z :=
  if 1 <=? scalarInputCount a then
    let bytes := wrap32 (nth 0 (scalarInput a) 0) in
    let bytes := if bytes =? 0 then 4096 else bytes in
    if 64 * 1024 * 1024 <? bytes then 64 * 1024 * 1024 else bytes
  else 4096.

(** [a->scalarOutput[i] = v]. *)
Definition put_scalar (i : nat) (v : Z) (l : list Z) : M uworld (list Z) :=
  if (i <? List.length l)%nat then ret (<[i := v]> l) else fault.

Definition sCreateBuffer : action := fun t oa =>
  ulog "XeUserClient::sCreateBuffer" [] ;;;
  match t, oa with
  | Some _, Some a =>
      self <- lift (OSDynamicCast CXeUserClient t) ;;
      match self with
      | None =>
          ulog "XeUserClient::sCreateBuffer: ERROR - invalid target" [] ;;; ret (kIOReturnBadArgument, oa)
      | Some c =>
          cl <- get_client c ;;
          match providerSvc cl with
          | None =>
              ulog "XeUserClient::sCreateBuffer: ERROR - no provider" [] ;;; ret (kIOReturnNotReady, oa)
          | Some _ =>
              r <- lift (ucCreateBuffer (clamp_bytes a)) ;;
              let cookie := default 0 (snd r) in
              if (fst r =? kIOReturnSuccess) && (1 <=? scalarOutputCount a) then
                out <- put_scalar 0 cookie (scalarOutput a) ;;
                ret (fst r, Some (with_output out 1 a))
              else ret (fst r, oa)
          end
      end
  | _, _ => ulog "XeUserClient::sCreateBuffer: ERROR - null pointer" [] ;;; ret (kIOReturnBadArgument, oa)
  end.

(** [self = OSDynamicCast(XeUserClient, t)] with [!self || !self->providerSvc]
    answered by NotReady: the common opening of the other handlers. *)
Definition with_provider (t : ptr) (msg : string) (oa : option arguments)
    (k : M uworld (Z * option arguments)) : M uworld (Z * option arguments) :=
  self <- lift (OSDynamicCast CXeUserClient t) ;;
  match self with
  | None => ulog msg [] ;;; ret (kIOReturnNotReady, oa)
  | Some c =>
      cl <- get_client c ;;
      match providerSvc cl with
      | None => ulog msg [] ;;; ret (kIOReturnNotReady, oa)
      | Some _ => k
      end
  end.

Definition sSubmit : action := fun t oa =>
  ulog "XeUserClient::sSubmit" [] ;;;
  match t with
  | None => ret (kIOReturnBadArgument, oa)
  | Some _ =>
      with_provider t "XeUserClient::sSubmit: ERROR - not ready" oa
        (kr <- lift ucSubmitNoop ;; ret (kr, oa))
  end.

Definition clamp_timeout (a : arguments) : Z :=
  if 1 <=? scalarInputCount a then
    let t := wrap32 (nth 0 (scalarInput a) 0) in
    let t := if t =? 0 then 1000 else t in
    if 60000 <? t then 60000 else t
  else 1000.

Definition sWait : action := fun t oa =>
  ulog "XeUserClient::sWait" [] ;;;
  match t, oa with
  | Some _, Some a =>
      with_provider t "XeUserClient::sWait: ERROR - not ready" oa
        (kr <- lift (ucWait (clamp_timeout a)) ;; ret (kr, oa))
  | _, _ => ret (kIOReturnBadArgument, oa)
  end.

(** [for (i = 0; i < n; ++i) a->scalarOutput[i] = tmp[i]], from index [i]. *)
Fixpoint copy_out (n i : nat) (tmp out : list Z) : M uworld (list Z) :=
  match n with
  | O => ret out
  | S n' => out <- put_scalar i (nth i tmp 0) out ;; copy_out n' (S i) tmp out
  end.

Definition sReadRegs : action := fun t oa =>
  ulog "XeUserClient::sReadRegs" [] ;;;
  match t, oa with
  | Some _, Some a =>
      with_provider t "XeUserClient::sReadRegs: ERROR - not ready" oa
        (r <- lift (ucReadRegs 8 (Some (replicate 8 0)) (Some 8)) ;;
         let '(kr, tmp, n) := r in
         if kr =? kIOReturnSuccess then
           let outMax := if default 0 n <? 8 then default 0 n else 8 in
           out <- copy_out (Z.to_nat outMax) 0 (default [] tmp) (scalarOutput a) ;;
           ret (kr, Some (with_output out outMax a))
         else ret (kr, oa))
  | _, _ => ret (kIOReturnBadArgument, oa)
  end.

(** The body the two fixed dumps share. *)
Definition dump_out (dump : option (list Z) -> option Z -> M world (Z * option (list Z) * option Z))
    (a : arguments) : M uworld (Z * option arguments) :=
  r <- lift (dump (Some (replicate 8 0)) (Some 8)) ;;
  let '(kr, tmp, n) := r in
  if kr =? kIOReturnSuccess then
    let outMax := if scalarOutputCount a <? default 0 n then scalarOutputCount a else default 0 n in
    out <- copy_out (Z.to_nat outMax) 0 (default [] tmp) (scalarOutput a) ;;
    ret (kr, Some (with_output out outMax a))
  else ret (kr, Some a).

Definition sGetGTConfig : action := fun t oa =>
  ulog "XeUserClient::sGetGTConfig" [] ;;;
  match t, oa with
  | Some _, Some a =>
      with_provider t "XeUserClient::sGetGTConfig: ERROR - not ready" oa (dump_out ucGetGTConfig a)
  | _, _ => ret (kIOReturnBadArgument, oa)
  end.

Definition sGetDisplayInfo : action := fun t oa =>
  ulog "XeUserClient::sGetDisplayInfo" [] ;;;
  match t, oa with
  | Some _, Some a =>
      with_provider t "XeUserClient::sGetDisplayInfo: ERROR - not ready" oa (dump_out ucGetDisplayInfo a)
  | _, _ => ret (kIOReturnBadArgument, oa)
  end.

(** ** The method table and the dispatcher *)

Record dispatch : Type := mkDispatch {
  function : action;
  checkScalarInputCount : Z;
  checkStructureInputSize : Z;
  checkScalarOutputCount : Z;
  checkStructureOutputSize : Z
}.

Definition sMethods : list dispatch :=
  [mkDispatch sCreateBuffer 1 0 1 0;
   mkDispatch sSubmit 0 0 0 0;
   mkDispatch sWait 1 0 0 0;
   mkDispatch sReadRegs 0 0 8 0;
   mkDispatch sGetGTConfig 0 0 8 0;
   mkDispatch sGetDisplayInfo 0 0 8 0].

(** The counts of the caller are those of the table entry. *)
Definition counts_match (d : dispatch) (a : arguments) : bool :=
  (scalarInputCount a =? checkScalarInputCount d) && (structureInputSize a =? checkStructureInputSize d) &&
  (scalarOutputCount a =? checkScalarOutputCount d) && (structureOutputSize a =? checkStructureOutputSize d).

(** [IOUserClient::externalMethod], for entries without variable sizes. *)
Class SuperDispatch : Type := {
  super_externalMethod : dispatch -> obj -> arguments -> M uworld (Z * option arguments);
  super_runs d c a : counts_match d a = true ->
    forall u, super_externalMethod d c a u = function d (Some c) (Some a) u;
  super_refuses d c a : counts_match d a = false ->
    forall u, super_externalMethod d c a u = Done (kIOReturnBadArgument, Some a) u
}.

Context {SD : SuperDispatch}.

(** [this] is client [c]; the passed dispatch, target and reference are
    overwritten or only passed on. *)
Definition externalMethod (c : obj) (selector : Z) (oa : option arguments) : M uworld (Z * option arguments) :=
  let methodCount := Z.of_nat (List.length sMethods) in
  if methodCount <=? selector then
    ulog "XeUserClient::externalMethod: invalid selector %u (max %u)" [LZ selector; LZ (methodCount - 1)] ;;;
    ret (kIOReturnUnsupported, oa)
  else
    match oa with
    | None =>
        ulog "XeUserClient::externalMethod: ERROR - args is null" [] ;;; ret (kIOReturnBadArgument, oa)
    | Some a =>
        ulog "XeUserClient::externalMethod: selector=%u" [LZ selector] ;;;
        match sMethods !! Z.to_nat selector with
        | None => fault
        | Some d => super_externalMethod d c a
        end
    end.

(** ** Birth and death of a client *)

Definition initWithTask (c : obj) (owningTask : Z) : M uworld bool :=
  ulog "XeUserClient::initWithTask" [] ;;;
  ok <- lift (super ClientInit) ;;
  if negb ok then ulog "XeUserClient::initWithTask: super::init failed" [] ;;; ret false
  else put_client c (fun cl => mkClient owningTask (providerSvc cl)) ;;; ret true.

Definition uc_start (c : obj) (provider : ptr) : M uworld bool :=
  ulog "XeUserClient::start" [] ;;;
  ok <- lift (super ClientStart) ;;
  if negb ok then ulog "XeUserClient::start: super::start failed" [] ;;; ret false
  else
    p <- lift (OSDynamicCast CXeService provider) ;;
    put_client c (fun cl => mkClient (clientTask cl) p) ;;;
    match p with
    | None => ulog "XeUserClient::start: ERROR - provider is not XeService" [] ;;; ret false
    | Some _ => ulog "XeUserClient::start: SUCCESS" [] ;;; ret true
    end.

Definition clientClose : M uworld Z :=
  ulog "XeUserClient::clientClose" [] ;;;
  lift (super ClientTerminate) ;;;
  ret kIOReturnSuccess.

(** [OSTypeAlloc]: the new object has the in-class initialisers. *)
Definition alloc_client : M uworld ptr :=
  uc <- lift (kcall k_alloc_client) ;;
  match uc with
  | Some c => put_client c (fun _ => client_init) ;;; ret (Some c)
  | None => ret None
  end.

Definition XeCreateUserClient (provider : ptr) (task : Z) : M uworld ptr :=
  ulog "XeCreateUserClient: creating user client" [] ;;;
  match provider with
  | None => ulog "XeCreateUserClient: ERROR - provider is null" [] ;;; ret None
  | Some p =>
      uc <- alloc_client ;;
      match uc with
      | None => ulog "XeCreateUserClient: ERROR - allocation failed" [] ;;; ret None
      | Some c =>
          ok <- initWithTask c task ;;
          if negb ok then
            ulog "XeCreateUserClient: ERROR - initWithTask failed" [] ;;; lift (release c) ;;; ret None
          else
            ok <- lift (kcall (k_attach c p)) ;;
            if negb ok then
              ulog "XeCreateUserClient: ERROR - attach failed" [] ;;; lift (release c) ;;; ret None
            else
              ok <- uc_start c provider ;;
              if negb ok then
                ulog "XeCreateUserClient: ERROR - start failed" [] ;;;
                lift (modify (fun w => set_kern (k_detach c p (kern w)) w)) ;;;
                lift (release c) ;;; ret None
              else ulog "XeCreateUserClient: SUCCESS" [] ;;; ret (Some c)
      end
  end.

(** [XeService::newUserClient] of service object [this]: the result code and
    what is stored in [*out]. *)
Definition newUserClient (this : obj) (task type : Z) : M uworld (Z * ptr) :=
  ulog "XePCI: Creating new user client (type=%u)" [LZ type] ;;;
  uc <- XeCreateUserClient (Some this) task ;;
  match uc with
  | None =>
      ulog "XePCI: ERROR - failed to create user client" [] ;;; ret (kIOReturnNoResources, None)
  | Some c =>
      ulog "XePCI: User client created successfully" [] ;;; ret (kIOReturnSuccess, Some c)
  end.

(** ** Proofs *)

Implicit Types u : uworld.

Lemma wp_lift {A} (m : M world A) (Q : A -> uworld -> Prop) u :
  wp m (fun a w => Q a (mkU w (clients u))) (base u) -> wp (lift m) Q u.
Proof. unfold wp, lift. by destruct (m (base u)). Qed.

Lemma wp_ulog fmt args (Q : unit -> uworld -> Prop) u :
  Q tt (mkU (add_log (fmt, args) (base u)) (clients u)) -> wp (ulog fmt args) Q u.
Proof. exact (fun H => H). Qed.

Ltac ustep :=
  lazymatch goal with
  | |- wp (bind _ _) _ _ => apply wp_bind
  | |- wp (ret _) _ _ => apply wp_ret
  | |- wp (ulog _ _) _ _ => apply wp_ulog
  | |- wp (get_client _) _ _ => apply wp_gets
  | |- wp (put_client _ _) _ _ => apply wp_modify
  | |- wp (lift (OSDynamicCast _ _)) _ _ => apply wp_lift, wp_gets
  | |- wp (lift (super _)) _ _ => apply wp_lift, wp_kcall
  | |- wp (lift (kcall _)) _ _ => apply wp_lift, wp_kcall
  | |- wp (lift (release _)) _ _ => apply wp_lift, wp_release
  | |- wp (lift (modify _)) _ _ => apply wp_lift, wp_modify
  end; cbv beta; cbn [base clients negb].

(** Client [c] is a live [XeUserClient] attached to the service. *)
Definition attached (u : uworld) (c : obj) : Prop :=
  o_class (look (kern (base u)) c) = CXeUserClient /\
  exists t p, clients u !! c = Some (mkClient t (Some p)).

Lemma wp_with_provider u c msg oa k (Q : Z * option arguments -> uworld -> Prop) :
  attached u c -> wp k Q u -> wp (with_provider (Some c) msg oa k) Q u.
Proof.
  intros (Hc & t & p & Hcl) Hk. unfold with_provider. do 2 ustep. rewrite decide_True by done.
  do 2 ustep. rewrite Hcl. simpl. by destruct u.
Qed.

Lemma copy_out_run n : forall i tmp out u,
  (i + n <= List.length out)%nat -> (i + n <= List.length tmp)%nat ->
  copy_out n i tmp out u = Done (take i out ++ take n (drop i tmp) ++ drop (i + n) out) u.
Proof.
  induction n as [|n IH]; intros i tmp out u Ho Ht; simpl.
  - unfold ret. f_equal. by rewrite Nat.add_0_r, take_drop.
  - unfold bind, put_scalar. rewrite (proj2 (Nat.ltb_lt _ _)) by lia. unfold ret at 1.
    rewrite IH by (rewrite ?length_insert; lia). f_equal.
    assert (Hi : <[i := nth i tmp 0]> out !! i = Some (nth i tmp 0))
      by (apply list_lookup_insert_eq; lia).
    rewrite (take_S_r _ _ _ Hi), take_insert_ge, drop_insert_lt by lia.
    assert (Hn : tmp !! i = Some (nth i tmp 0)).
    { destruct (lookup_lt_is_Some_2 tmp i ltac:(lia)) as [v Hv]. rewrite Hv. f_equal.
      symmetry. by apply nth_lookup_Some with (d := 0). }
    rewrite (drop_S _ _ _ Hn). simpl. rewrite <- app_assoc. simpl. by rewrite Nat.add_succ_r.
Qed.

Lemma wp_copy_out n tmp out (Q : list Z -> uworld -> Prop) u :
  (n <= List.length out)%nat -> (n <= List.length tmp)%nat ->
  Q (take n tmp ++ drop n out) u -> wp (copy_out n 0 tmp out) Q u.
Proof. intros Ho Ht HQ. unfold wp. by rewrite copy_out_run by lia. Qed.

(** *** The handlers on a running service *)

Context {KL : KernelLaws}.

Section Handlers.
Context (u : uworld) (m l : obj) (len : Z) (bos : list obj) (c : obj) (a : arguments).
Hypothesis Hrun : running (base u) m l len bos.
Hypothesis Hatt : attached u c.
(** The kernel's array has room for the 8 values of the longest answer (it has
    16 elements). *)
Hypothesis Hout : (8 <= List.length (scalarOutput a))%nat.

Lemma sCreateBuffer_run :
  wp (sCreateBuffer (Some c) (Some a))
     (fun r u' => clients u' = clients u /\ boot (base u') = boot (base u) /\
        svc (base u') = svc (base u) /\ trace (base u') = trace (base u) /\
        ((exists b, running (base u') m l len (bos ++ [b]) /\
            o_len (look (kern (base u')) b) = page_align (clamp_bytes a) /\
            r = (kIOReturnSuccess,
                 Some (if 1 <=? scalarOutputCount a
                       then with_output (Z.of_nat (List.length bos) + 1 :: drop 1 (scalarOutput a)) 1 a
                       else a))) \/
         (r = (kIOReturnNoResources, Some a) /\ running (base u') m l len bos /\
          same_objects (kern (base u)) (kern (base u'))))) u.
Proof.
  destruct Hatt as (Hc & t & p & Hcl). unfold sCreateBuffer. repeat ustep. cbn [kern add_log].
  rewrite decide_True by done. repeat ustep. rewrite Hcl. simpl default. cbn [providerSvc]. ustep.
  apply wp_lift. cbn [base]. eapply wp_mono; [apply (create_spec _ m l len bos)|].
  { eapply running_same; [exact Hrun|reflexivity|apply same_objects_refl]. }
  intros r w' (Hb & Hs & Ht & [(b & -> & R' & _ & _ & Hl)|(-> & Hso)]); cbn [fst snd default clients].
  - rewrite Z.eqb_refl. simpl andb. destruct (1 <=? scalarOutputCount a).
    + ustep. unfold put_scalar. destruct (scalarOutput a) as [|x out]; [simpl in Hout; lia|].
      simpl. repeat ustep. repeat (split; [done|]). left. exists b. by repeat (split; [done|]).
    + ustep. repeat (split; [done|]). left. exists b. by repeat (split; [done|]).
  - cbn. repeat (split; [done|]). right. split; [done|]. split; [|done].
    by eapply running_same; [exact Hrun|done|].
Qed.

(** The service as a handler leaves it when no buffer was made. *)
Definition kept (u' : uworld) : Prop :=
  clients u' = clients u /\ boot (base u') = boot (base u) /\ running (base u') m l len bos /\
  same_objects (kern (base u)) (kern (base u')).

Lemma kept_intro (u' : uworld) :
  clients u' = clients u -> boot (base u') = boot (base u) -> svc (base u') = svc (base u) ->
  same_objects (kern (base u)) (kern (base u')) -> kept u'.
Proof. intros H1 H2 H3 H4. split; [done|]. split; [done|]. split; [by eapply running_same|done]. Qed.

Lemma kept_refl : kept u.
Proof. apply kept_intro; auto using same_objects_refl. Qed.

Lemma sSubmit_run :
  wp (sSubmit (Some c) (Some a)) (fun r u' => kept u' /\ snd r = Some a) u.
Proof.
  unfold sSubmit. do 2 ustep. apply wp_with_provider; [exact Hatt|]. ustep. apply wp_lift.
  eapply wp_mono; [apply (submit_spec _ m l len bos)|].
  { eapply running_same; [exact Hrun|reflexivity|apply same_objects_refl]. }
  intros kr w' (Hb & Hs & Ho & _). ustep. split; [|done]. by apply kept_intro.
Qed.

Lemma sWait_run :
  wp (sWait (Some c) (Some a)) (fun r u' => kept u' /\ r = (kIOReturnSuccess, Some a)) u.
Proof.
  unfold sWait. do 2 ustep. apply wp_with_provider; [exact Hatt|]. ustep. apply wp_lift.
  unfold ucWait. repeat wstep. split; [|done]. apply kept_intro; auto using same_objects_refl.
Qed.

(** The answer to a dump: the values of [regs], and nothing else read. *)
Definition dumped (regs : list Z) (r : Z * option arguments) (u' : uworld) : Prop :=
  exists vs, r = (kIOReturnSuccess, Some (with_output (vs ++ drop 8 (scalarOutput a)) 8 a)) /\
    clients u' = clients u /\ reg_run len (base u) regs vs (base u').

Lemma dumped_kept regs r u' : dumped regs r u' -> kept u'.
Proof.
  intros (vs & _ & Hc & Hr). apply reg_run_effect in Hr as (Hb & Hs & Ho & _). by apply kept_intro.
Qed.

Lemma log_mapped msg args : mapped (add_log (msg, args) (base u)) m len.
Proof. exact (run_mapped _ _ _ _ _ Hrun). Qed.

Lemma sReadRegs_run :
  wp (sReadRegs (Some c) (Some a)) (dumped (take 8 kSafeOffs)) u.
Proof.
  unfold sReadRegs. do 2 ustep. apply wp_with_provider; [exact Hatt|]. ustep. apply wp_lift. cbn [base].
  eapply wp_mono.
  { exact (proj1 (ucReadRegs_run _ m len 8 (replicate 8 0) 8 (log_mapped _ _) ltac:(lia) ltac:(simpl; lia))). }
  intros r w' (vs & -> & Hr). pose proof Hr as (_ & Hl & _). simpl in Hl.
  cbv beta iota zeta. rewrite Z.eqb_refl. ustep. simpl drop. rewrite app_nil_r. cbn [from_option id].
  change (Z.to_nat (if Z.of_nat (Nat.min (Z.to_nat 8) 10) <? 8 then Z.of_nat (Nat.min (Z.to_nat 8) 10) else 8)) with 8%nat.
  apply wp_copy_out; [done|by rewrite Hl|]. ustep. exists vs.
  rewrite take_ge by (rewrite Hl; done). auto.
Qed.

Lemma dump_out_run dump regs line :
  List.length regs = 8%nat -> scalarOutputCount a = 8 ->
  (forall w : world, mapped w m len -> wp (dump (Some (replicate 8 0)) (Some 8))
     (fun r w' => exists vs, r = (kIOReturnSuccess, Some (vs ++ drop 8 (replicate 8 0)), Some 8) /\
        reg_run len w regs vs w') w) ->
  wp (dump_out dump a) (dumped regs) (mkU (add_log line (base u)) (clients u)).
Proof.
  intros Hn Hcnt Hd. unfold dump_out. ustep. apply wp_lift.
  eapply wp_mono; [apply Hd; exact (run_mapped _ _ _ _ _ Hrun)|].
  intros r w' (vs & -> & Hr). pose proof Hr as (_ & Hl & _). rewrite Hn in Hl.
  cbv beta iota zeta. rewrite Z.eqb_refl, Hcnt. ustep. simpl drop. rewrite app_nil_r. cbn [from_option id].
  change (Z.to_nat (if 8 <? 8 then 8 else 8)) with 8%nat.
  apply wp_copy_out; [done|by rewrite Hl|]. ustep. exists vs. rewrite take_ge by (rewrite Hl; done). auto.
Qed.

Lemma sGetGTConfig_run :
  scalarOutputCount a = 8 -> wp (sGetGTConfig (Some c) (Some a)) (dumped gt_regs) u.
Proof.
  intros Hcnt. unfold sGetGTConfig. do 2 ustep. apply wp_with_provider; [exact Hatt|].
  apply (dump_out_run ucGetGTConfig gt_regs); [done|done|]. intros w Hm.
  apply (ucGetGTConfig_run w m len (replicate 8 0) 8 Hm). simpl. lia.
Qed.

Lemma sGetDisplayInfo_run :
  scalarOutputCount a = 8 -> wp (sGetDisplayInfo (Some c) (Some a)) (dumped info_regs) u.
Proof.
  intros Hcnt. unfold sGetDisplayInfo. do 2 ustep. apply wp_with_provider; [exact Hatt|].
  apply (dump_out_run ucGetDisplayInfo info_regs); [done|done|]. intros w Hm.
  eapply wp_mono; [exact (proj1 (ucGetDisplayInfo_run w m len (replicate 8 0) 8 Hm ltac:(simpl; lia)))|].
  intros r w' (vs & H & Hr & _). eauto.
Qed.

End Handlers.

(** ** The dispatcher *)

(** What every call preserves; the answer fits the caller's counts. *)
Definition call_safe (u : uworld) (m l : obj) (len : Z) (a : arguments)
    (r : Z * option arguments) (u' : uworld) : Prop :=
  clients u' = clients u /\ boot (base u') = boot (base u) /\
  (exists bos', running (base u') m l len bos') /\
  exists a', snd r = Some a' /\ List.length (scalarOutput a') = List.length (scalarOutput a) /\
             scalarOutputCount a' <= scalarOutputCount a.

Lemma kept_safe u m l len bos a (r : Z * option arguments) u' :
  kept u m l len bos u' -> snd r = Some a -> call_safe u m l len a r u'.
Proof. intros (H1 & H2 & H3 & _) Hr. split; [done|]. split; [done|]. split; [eauto|]. exists a. auto with lia. Qed.

Lemma dumped_safe u m l len bos a regs (r : Z * option arguments) u' :
  running (base u) m l len bos -> List.length regs = 8%nat -> (8 <= List.length (scalarOutput a))%nat ->
  scalarOutputCount a = 8 -> dumped u len a regs r u' -> call_safe u m l len a r u'.
Proof.
  intros R Hn Ho Hc Hd. pose proof (dumped_kept u m l len bos a R regs r u' Hd) as (H1 & H2 & H3 & _).
  destruct Hd as (vs & -> & _ & _ & Hl & _).
  split; [done|]. split; [done|]. split; [eauto|]. eexists. split; [done|]. cbn [scalarOutput with_output scalarOutputCount].
  rewrite length_app, length_drop, Hl, Hn, Hc. lia.
Qed.

(** Every entry of the table, called with its own counts, is safe. *)
Lemma handler_safe u m l len bos c a d :
  running (base u) m l len bos -> attached u c -> (8 <= List.length (scalarOutput a))%nat ->
  In d sMethods -> counts_match d a = true ->
  wp (function d (Some c) (Some a)) (call_safe u m l len a) u.
Proof.
  intros R Ha Ho Hd Hm. unfold counts_match in Hm. rewrite !andb_true_iff, !Z.eqb_eq in Hm.
  destruct Hm as [[[_ _] Hcnt] _].
  destruct Hd as [<-|[<-|[<-|[<-|[<-|[<-|[]]]]]]]; cbn [function checkScalarOutputCount] in *.
  - eapply wp_mono; [by apply (sCreateBuffer_run u m l len bos)|].
    intros r u' (Hc & Hb & _ & _ & [(b & R' & _ & ->)|(-> & R' & _)]).
    + split; [done|]. split; [done|]. split; [eauto|]. rewrite Hcnt. simpl. eexists. split; [done|].
      simpl. rewrite length_drop. lia.
    + split; [done|]. split; [done|]. split; [eauto|]. exists a. auto with lia.
  - eapply wp_mono; [by apply (sSubmit_run u m l len bos)|]. intros r u' [Hk Hs]. by eapply kept_safe.
  - eapply wp_mono; [by apply (sWait_run u m l len bos)|]. intros r u' [Hk ->]. by eapply kept_safe.
  - eapply wp_mono; [by apply (sReadRegs_run u m l len bos)|]. intros r u' H. by apply (dumped_safe u m l len bos a _ r u' R) in H.
  - eapply wp_mono; [by apply (sGetGTConfig_run u m l len bos)|]. intros r u' H. by apply (dumped_safe u m l len bos a _ r u' R) in H.
  - eapply wp_mono; [by apply (sGetDisplayInfo_run u m l len bos)|]. intros r u' H. by apply (dumped_safe u m l len bos a _ r u' R) in H.
Qed.

(** Nothing but the log changed. *)
Definition logged_only (u u' : uworld) : Prop :=
  clients u' = clients u /\ untouched (base u) (base u') /\ trace (base u') = trace (base u).

(** C2. No request from user space can break the driver: on a running service,
    for every selector and every argument block, a call completes without a
    fault, keeps the service in its invariant, never writes past the kernel's
    output array and never reports more scalars than the caller has room for;
    a selector beyond the table is Unsupported, a null argument block and
    counts other than the entry's are BadArgument, and these refusals change
    nothing. *)
Theorem external_method_safe u m l len bos c a selector :
  running (base u) m l len bos -> attached u c -> (8 <= List.length (scalarOutput a))%nat ->
  0 <= selector ->
  wp (externalMethod c selector (Some a))
     (fun r u' => call_safe u m l len a r u' /\
        match sMethods !! Z.to_nat selector with
        | None => r = (kIOReturnUnsupported, Some a) /\ logged_only u u'
        | Some d => counts_match d a = false -> r = (kIOReturnBadArgument, Some a) /\ logged_only u u'
        end) u /\
  wp (externalMethod c selector None)
     (fun r u' => r = (if selector <? 6 then kIOReturnBadArgument else kIOReturnUnsupported, None) /\
        logged_only u u') u.
Proof.
  intros R Ha Ho H0.
  assert (Hlog : forall line, logged_only u (mkU (add_log line (base u)) (clients u))) by (by repeat split).
  assert (Hks : forall line r, snd r = Some a -> call_safe u m l len a r (mkU (add_log line (base u)) (clients u))).
  { intros line r Hr. apply (kept_safe _ _ _ _ bos); [|done]. by apply kept_intro; auto using same_objects_refl. }
  unfold externalMethod. change (Z.of_nat (List.length sMethods)) with 6. split.
  - destruct (Z.leb_spec 6 selector) as [Hge|Hlt].
    + repeat ustep. rewrite lookup_ge_None_2 by (simpl; lia). auto.
    + do 2 ustep. destruct (lookup_lt_is_Some_2 sMethods (Z.to_nat selector)) as [d Hd]; [simpl; lia|].
      rewrite Hd. assert (Hin : In d sMethods) by (apply list_elem_of_In; by eapply list_elem_of_lookup_2).
      destruct (counts_match d a) eqn:Hm; unfold wp.
      * rewrite (super_runs d c a Hm). fold (wp (function d (Some c) (Some a))).
        eapply wp_mono; [apply (handler_safe _ m l len bos); auto|].
        { eapply running_same; [exact R|reflexivity|apply same_objects_refl]. }
        intros r u' H. split; [exact H|done].
      * rewrite (super_refuses d c a Hm). auto.
  - destruct (Z.leb_spec 6 selector); repeat ustep; rewrite ?(proj2 (Z.ltb_lt _ _)), ?(proj2 (Z.ltb_ge _ _)) by lia;
      (split; [done|apply Hlog]).
Qed.

(** A call that reaches handler [d] of the table. *)
Lemma call_reaches u c a selector d (Q : Z * option arguments -> uworld -> Prop) :
  0 <= selector < 6 -> sMethods !! Z.to_nat selector = Some d -> counts_match d a = true ->
  (forall line, wp (function d (Some c) (Some a)) Q (mkU (add_log line (base u)) (clients u))) ->
  wp (externalMethod c selector (Some a)) Q u.
Proof.
  intros Hs Hd Hm HQ. unfold externalMethod. change (Z.of_nat (List.length sMethods)) with 6.
  rewrite (proj2 (Z.leb_gt 6 selector)) by lia. do 2 ustep. rewrite Hd.
  unfold wp. rewrite (super_runs d c a Hm). apply HQ.
Qed.

Lemma clamp_bytes_spec a v :
  scalarInput a = [v] -> scalarInputCount a = 1 ->
  1 <= clamp_bytes a <= 0x4000000 /\
  (1 <= v mod 2 ^ 32 <= 0x4000000 -> clamp_bytes a = v mod 2 ^ 32) /\
  (v mod 2 ^ 32 = 0 -> clamp_bytes a = 4096).
Proof.
  intros Hi Hc. unfold clamp_bytes. rewrite Hi, Hc. simpl nth. change (1 <=? 1) with true. cbv iota.
  pose proof (wrap32_range v) as Hw. unfold wrap32 in *.
  destruct (Z.eqb_spec (v mod 2 ^ 32) 0); [change (64 * 1024 * 1024 <? 4096) with false; lia|].
  destruct (Z.ltb_spec (64 * 1024 * 1024) (v mod 2 ^ 32)); lia.
Qed.

Lemma create_request_run u m l len bos c a v :
  running (base u) m l len bos -> attached u c -> (8 <= List.length (scalarOutput a))%nat ->
  Z.of_nat (List.length bos) < 2 ^ 32 - 1 ->
  scalarInput a = [v] -> scalarInputCount a = 1 -> structureInputSize a = 0 ->
  scalarOutputCount a = 1 -> structureOutputSize a = 0 ->
  wp (externalMethod c kMethodCreateBuffer (Some a))
     (fun r u' =>
        (r = (kIOReturnNoResources, Some a) /\ same_objects (kern (base u)) (kern (base u'))) \/
        exists b cookie, let size := o_len (look (kern (base u')) b) in
          r = (kIOReturnSuccess, Some (with_output (cookie :: drop 1 (scalarOutput a)) 1 a)) /\
          running (base u') m l len (bos ++ [b]) /\
          boFromCookie cookie (base u') = Done (Some b) (base u') /\
          size mod 4096 = 0 /\ 4096 <= size <= 0x4000000 /\
          (1 <= v mod 2 ^ 32 <= 0x4000000 -> v mod 2 ^ 32 <= size < v mod 2 ^ 32 + 4096) /\
          (v mod 2 ^ 32 = 0 -> size = 4096)) u.
Proof.
  intros R Ha Ho Hn Hi Hc1 Hc2 Hc3 Hc4. destruct (clamp_bytes_spec a v Hi Hc1) as (Hb & Hv & Hz).
  eapply call_reaches; [unfold kMethodCreateBuffer; lia|reflexivity| |].
  { unfold counts_match. simpl. by rewrite Hc1, Hc2, Hc3, Hc4. }
  intros line. cbn [function]. eapply wp_mono; [apply (sCreateBuffer_run _ m l len bos); auto|].
  { eapply running_same; [exact R|reflexivity|apply same_objects_refl]. }
  intros r u' (_ & _ & _ & _ & [(b & R' & Hl & ->)|(-> & _ & Hs)]); [|by left]. right.
  exists b, (Z.of_nat (List.length bos) + 1). cbv zeta. rewrite Hl, Hc3.
  pose proof (page_align_spec (clamp_bytes a)) as Hp. unfold is_u32 in Hp.
  rewrite (proj2 (Z.leb_le _ _)) in Hp by lia. destruct Hp as [Hp1 Hp2]; [lia|].
  split; [done|]. split; [done|]. split.
  { rewrite (boFromCookie_spec _ m l len (bos ++ [b])); [|done|unfold is_u64; lia|rewrite length_snoc; lia].
    rewrite (proj2 (Z.eqb_neq _ _)) by lia. rewrite lookup_app_r by lia.
    by replace (_ - _)%nat with 0%nat by lia. }
  split; [done|]. pose proof (Z.div_mod (page_align (clamp_bytes a)) 4096). split; [lia|].
  split; [intros H1; rewrite <- Hv by done; lia|]. intros H1. rewrite (Hz H1) in *. lia.
Qed.

(** C9. A buffer request from user space is clamped, never overflows and is
    answered with a working cookie: whatever 64-bit size is asked for, the
    buffer made is a whole number of pages between 4 KiB and 64 MiB, it covers
    the low 32 bits of the size when those are at most 64 MiB, and the cookie
    returned names it; a size that is a multiple of 4 GiB is silently served
    with one page. *)
Theorem create_buffer_request u m l len bos c a v :
  running (base u) m l len bos -> attached u c -> (8 <= List.length (scalarOutput a))%nat ->
  Z.of_nat (List.length bos) < 2 ^ 32 - 1 ->
  scalarInput a = [v] -> scalarInputCount a = 1 -> structureInputSize a = 0 ->
  scalarOutputCount a = 1 -> structureOutputSize a = 0 ->
  wp (externalMethod c kMethodCreateBuffer (Some a))
     (fun r u' =>
        (r = (kIOReturnNoResources, Some a) /\ same_objects (kern (base u)) (kern (base u'))) \/
        exists b cookie, let size := o_len (look (kern (base u')) b) in
          r = (kIOReturnSuccess, Some (with_output (cookie :: drop 1 (scalarOutput a)) 1 a)) /\
          running (base u') m l len (bos ++ [b]) /\
          boFromCookie cookie (base u') = Done (Some b) (base u') /\
          size mod 4096 = 0 /\ 4096 <= size <= 0x4000000 /\
          (1 <= v mod 2 ^ 32 <= 0x4000000 -> v mod 2 ^ 32 <= size < v mod 2 ^ 32 + 4096) /\
          (v mod 2 ^ 32 = 0 -> size = 4096)) u.
Proof. exact (create_request_run u m l len bos c a v). Qed.

Lemma register_dumps_run u m l len bos c a :
  running (base u) m l len bos -> attached u c -> (8 <= List.length (scalarOutput a))%nat ->
  scalarInputCount a = 0 -> structureInputSize a = 0 -> scalarOutputCount a = 8 -> structureOutputSize a = 0 ->
  let answer regs r u' := exists vs,
    r = (kIOReturnSuccess, Some (with_output (vs ++ drop 8 (scalarOutput a)) 8 a)) /\
    reg_run len (base u) regs vs (base u') in
  wp (externalMethod c kMethodReadReg (Some a)) (answer (take 8 kSafeOffs)) u /\
  wp (externalMethod c kMethodGetGTConfig (Some a)) (answer gt_regs) u /\
  wp (externalMethod c kMethodGetDisplayInfo (Some a)) (answer info_regs) u.
Proof.
  intros R Ha Ho Hc1 Hc2 Hc3 Hc4 answer.
  assert (Hm : forall f, counts_match (mkDispatch f 0 0 8 0) a = true)
    by (intros f; unfold counts_match; simpl; by rewrite Hc1, Hc2, Hc3, Hc4).
  assert (R' : forall line, running (add_log line (base u)) m l len bos)
    by (intros line; eapply running_same; [exact R|reflexivity|apply same_objects_refl]).
  assert (Hd : forall regs line r u', dumped (mkU (add_log line (base u)) (clients u)) len a regs r u' ->
                 answer regs r u').
  { intros regs line r u' (vs & -> & _ & Hr). exists vs. split; [done|exact Hr]. }
  split; [|split]; (eapply call_reaches; [split; [discriminate|reflexivity]|reflexivity|apply Hm|]);
    intros line; cbn [function]; eapply wp_mono.
  - apply (sReadRegs_run _ m l len bos); [apply R'|exact Ha|exact Ho].
  - intros r u'. apply Hd.
  - apply (sGetGTConfig_run _ m l len bos); [apply R'|exact Ha|exact Ho|exact Hc3].
  - intros r u'. apply Hd.
  - apply (sGetDisplayInfo_run _ m l len bos); [apply R'|exact Ha|exact Ho|exact Hc3].
  - intros r u'. apply Hd.
Qed.

Lemma register_dump_read u m l len bos c a :
  running (base u) m l len bos -> attached u c -> (8 <= List.length (scalarOutput a))%nat ->
  scalarInputCount a = 0 -> structureInputSize a = 0 -> scalarOutputCount a = 8 -> structureOutputSize a = 0 ->
  wp (externalMethod c kMethodReadReg (Some a))
     (fun r u' => exists vs,
        r = (kIOReturnSuccess, Some (with_output (vs ++ drop 8 (scalarOutput a)) 8 a)) /\
        reg_run len (base u) (take 8 kSafeOffs) vs (base u')) u.
Proof. intros R Ha Ho H1 H2 H3 H4. exact (proj1 (register_dumps_run u m l len bos c a R Ha Ho H1 H2 H3 H4)). Qed.


(** ** The factory *)

Lemma with_refs_twice v : with_refs (o_refs v + 1 - 1) (with_refs (o_refs v + 1) v) = v.
Proof. destruct v. unfold with_refs. simpl. f_equal. lia. Qed.

(** Attaching and detaching again, then releasing the only reference left,
    gives everything back. *)
Lemma detach_release c p k k1 k2 k3 :
  c <> p -> 0 < o_refs (look k p) -> fresh_object c CXeUserClient k k1 ->
  same_objects k1 k2 -> k_attach c p k2 = (true, k3) -> forall k4, same_objects k3 k4 ->
  same_objects k (k_release c (k_detach c p k4)).
Proof.
  intros Hne Hp (F0 & F1 & F2 & F3 & F4) H12 Hatt k4 H34.
  assert (Ec2 : look k2 c = look k1 c) by (apply H12; lia).
  assert (Ep1 : look k1 p = look k p) by (apply F4; intros [E|[]]; congruence).
  assert (Ep2 : look k2 p = look k p) by (rewrite <- Ep1; apply H12; rewrite Ep1; done).
  pose proof (law_attach c p k2 Hne ltac:(rewrite Ec2; lia) ltac:(rewrite Ep2; lia)) as Ha.
  rewrite Hatt in Ha. destruct Ha as (A1 & A2 & A3).
  assert (Ec4 : look k4 c = look k3 c) by (apply H34; rewrite A1, Ec2; simpl; lia).
  assert (Ep4 : look k4 p = look k3 p) by (apply H34; rewrite A2, Ep2; simpl; lia).
  destruct (law_detach c p k4 Hne) as (D1 & D2 & D3);
    [rewrite Ec4, A1, Ec2; simpl; lia|rewrite Ep4, A2, Ep2; simpl; lia|].
  apply (release_fresh c); [done| |rewrite D1, Ec4, A1, Ec2; simpl; lia|rewrite D1, Ec4, A1, Ec2; done].
  intros q Hq. destruct (decide (q = p)) as [->|Hqp].
  - rewrite D2, Ep4, A2, Ep2. simpl. split; [intros _|intros; lia].
    apply with_refs_twice.
  - assert (Hn : ~ In q [c; p]) by (simpl in *; intros [<-|[<-|[]]]; tauto).
    assert (E1 : look k1 q = look k q) by (apply F4; done).
    rewrite (D3 q Hn). split; intros Hlive.
    + assert (E2 : look k2 q = look k q) by (rewrite <- E1; apply H12; by rewrite E1).
      assert (E3 : look k3 q = look k q) by (rewrite (A3 q Hn); done).
      rewrite <- E3. apply H34. by rewrite E3.
    + apply H34. rewrite (A3 q Hn). apply H12. by rewrite E1.
Qed.

(** What the factory leaves behind. *)
Definition client_made (u : uworld) (p : obj) (task : Z) (r : ptr) (u' : uworld) : Prop :=
  svc (base u') = svc (base u) /\ boot (base u') = boot (base u) /\ trace (base u') = trace (base u) /\
  match r with
  | Some c => o_refs (look (kern (base u)) c) = 0 /\ o_refs (look (kern (base u')) c) = 2 /\
      attached u' c /\ clients u' !! c = Some (mkClient task (Some p)) /\
      look (kern (base u')) p = with_refs (o_refs (look (kern (base u)) p) + 1) (look (kern (base u)) p) /\
      same_but [c; p] (kern (base u)) (kern (base u'))
  | None => same_objects (kern (base u)) (kern (base u'))
  end.

Lemma create_client_run u p task :
  0 < o_refs (look (kern (base u)) p) -> o_class (look (kern (base u)) p) = CXeService ->
  wp (XeCreateUserClient (Some p) task) (client_made u p task) u.
Proof.
  intros Hp Hc. unfold XeCreateUserClient, alloc_client, initWithTask, uc_start. repeat ustep.
  intros uc k1 Hal. cbn [kern add_log] in Hal. pose proof (law_alloc_client (kern (base u))) as L1.
  rewrite Hal in L1. destruct uc as [c|].
  2:{ repeat ustep. apply frame_same in L1. by repeat split; try apply L1. }
  pose proof L1 as (F0 & F1 & F2 & F3 & F4). assert (Hne : c <> p) by (intros ->; lia).
  repeat ustep. intros ok k2 H2. cbn [kern add_log set_kern] in H2.
  pose proof (law_super ClientInit k1) as L2. rewrite H2 in L2. simpl in L2. apply frame_same in L2 as S2.
  assert (Ec2 : look k2 c = look k1 c) by (apply S2; lia).
  assert (Hrel : same_objects (kern (base u)) (k_release c k2)).
  { apply (release_fresh c); [done| |by rewrite Ec2|by rewrite Ec2].
    eapply same_but_trans; [by apply frame_same_but|by apply same_objects_but]. }
  destruct ok; simpl negb; cbv iota; [|repeat ustep; by repeat split; try apply Hrel].
  repeat ustep. intros ok k3 H3. cbn [kern add_log set_kern] in H3.
  assert (Ep1 : look k1 p = look (kern (base u)) p) by (apply F4; intros [E|[]]; congruence).
  assert (Ep2 : look k2 p = look (kern (base u)) p) by (rewrite <- Ep1; apply S2; rewrite Ep1; done).
  pose proof (law_attach c p k2 Hne ltac:(rewrite Ec2; lia) ltac:(rewrite Ep2; lia)) as L3. rewrite H3 in L3.
  destruct ok; simpl negb; cbv iota.
  2:{ repeat ustep. cbn [kern set_kern add_log].
      assert (Hrel3 : same_objects (kern (base u)) (k_release c k3)).
      { apply (release_fresh c); [done| |by rewrite (frame_look k2), Ec2|by rewrite (frame_look k2), Ec2].
        eapply same_but_trans; [by apply frame_same_but|]. apply same_objects_but.
        eapply same_objects_trans; [exact S2|by apply frame_same]. }
      by repeat split; try apply Hrel3. }
  destruct L3 as (A1 & A2 & A3). repeat ustep. intros ok k4 H4. cbn [kern add_log set_kern] in H4.
  pose proof (law_super ClientStart k3) as L4. rewrite H4 in L4. simpl in L4. apply frame_same in L4 as S4.
  pose proof (detach_release c p _ k1 k2 k3 Hne Hp L1 S2 H3 k4 S4) as Hdet.
  destruct ok; simpl negb; cbv iota; [|repeat ustep; by repeat split; try apply Hdet].
  repeat ustep. cbn [kern add_log set_kern].
  assert (E4 : forall q, look k4 q = look k3 q) by (intros q; by apply frame_look).
  rewrite (E4 p), A2. cbn [o_class with_refs]. rewrite Ep2, decide_True by done. repeat ustep.
  simpl negb; cbv iota. repeat ustep. split; [done|]. split; [done|]. split; [done|].
  cbn [kern add_log set_kern base clients]. rewrite !lookup_insert_eq. simpl.
  rewrite !(E4 c), (E4 p), A1, A2, Ec2, Ep2. simpl. split; [done|]. split; [lia|].
  split; [split; [simpl; by rewrite (E4 c), A1, Ec2|]; simpl; rewrite lookup_insert_eq; eauto|].
  split; [done|]. split; [done|]. eapply same_but_trans.
  - eapply same_but_incl; [|apply frame_same_but, F4]. intros q [<-|[]]. simpl. auto.
  - eapply same_but_trans; [apply same_objects_but, S2|].
    eapply same_but_trans; [apply frame_same_but, A3|apply same_objects_but, S4].
Qed.

(** C10. Opening a connection either delivers a client or nothing: on failure
    (no memory, init, attach or start refused) the answer is NoResources and
    every object has the reference count it had before; on success the client
    is alive, attached (the service holds one more reference) and its provider
    is the service. *)
Theorem new_user_client_spec u this task type :
  0 < o_refs (look (kern (base u)) this) -> o_class (look (kern (base u)) this) = CXeService ->
  wp (newUserClient this task type)
     (fun r u' => client_made u this task (snd r) u' /\
        fst r = (match snd r with Some _ => kIOReturnSuccess | None => kIOReturnNoResources end)) u.
Proof.
  intros Hp Hc. unfold newUserClient. do 2 ustep. ustep.
  eapply wp_mono; [by apply create_client_run|]. intros [c|] u' H; repeat ustep; (split; [exact H|done]).
Qed.

End UserClient.

Import Sim.

(** The dispatcher as documented: check the counts, then call. *)
#[export] Instance PlainDispatch : SuperDispatch (D := SimDevice) (K := SimKernel).
Proof.
  refine {| super_externalMethod d c a :=
              if counts_match d a then function d (Some c) (Some a) else ret (kIOReturnBadArgument, Some a) |}.
  - intros d c a -> u. reflexivity.
  - intros d c a -> u. reflexivity.
Defined.

(** [run_world] with a client as object 7. *)
Definition client_world : uworld (D := SimDevice) (K := SimKernel) :=
  mkU (set_kern (mkSim (objs (kern run_world) ++ [mkView 2 CXeUserClient [] 0 true []]) (cfg (kern run_world))) run_world)
      {[ 7%positive := mkClient 1 (Some service) ]}.

Lemma client_world_running : running (base client_world) 3%positive 4%positive 0x200000 [5; 6]%positive.
Proof.
  constructor; try reflexivity.
  - repeat split; reflexivity.
  - discriminate.
  - intros b [<-|[<-|[]]]; repeat split; reflexivity.
  - repeat constructor; simpl; intuition discriminate.
Qed.

Lemma client_attached : attached client_world 7%positive.
Proof. split; [reflexivity|]. exists 1, service. reflexivity. Qed.

Definition in_args (ins : list Z) (outs : Z) : arguments :=
  mkArgs ins (Z.of_nat (List.length ins)) 0 (replicate 16 0) outs 0.

Lemma external_method_safe_witness :
  wp (externalMethod 7%positive 9 (Some (in_args [] 0)))
     (fun r u' => r = (kIOReturnUnsupported, Some (in_args [] 0)) /\ logged_only client_world u') client_world.
Proof.
  eapply wp_mono.
  - exact (proj1 (external_method_safe client_world 3%positive 4%positive 0x200000 [5; 6]%positive 7%positive
             (in_args [] 0) 9 client_world_running client_attached ltac:(simpl; lia) ltac:(lia))).
  - intros r u' [_ H]. exact H.
Defined.

(** Asking for 4 GiB gives one page and cookie 3. *)
Lemma create_buffer_request_witness :
  wp (externalMethod 7%positive 0 (Some (in_args [2 ^ 32] 1)))
     (fun r u' => r = (kIOReturnNoResources, Some (in_args [2 ^ 32] 1)) \/
        exists b, o_len (look (kern (base u')) b) = 4096) client_world /\
  wp (externalMethod 7%positive 0 (Some (in_args [2 ^ 32] 1)))
     (fun r u' => fst r = kIOReturnSuccess /\ o_len (look (kern (base u')) 8%positive) = 4096) client_world.
Proof.
  split; [|vm_compute; auto]. eapply wp_mono.
  - exact (create_buffer_request client_world 3%positive 4%positive 0x200000 [5; 6]%positive 7%positive
             (in_args [2 ^ 32] 1) (2 ^ 32) client_world_running client_attached ltac:(simpl; lia)
             ltac:(reflexivity) eq_refl eq_refl eq_refl eq_refl eq_refl).
  - intros r u' [(-> & _)|(b & cookie & _ & _ & _ & _ & _ & _ & H)]; [by left|].
    right. exists b. apply H. reflexivity.
Defined.


Lemma new_user_client_spec_witness :
  wp (newUserClient service 1 0) (fun r u' => client_made client_world service 1 (snd r) u') client_world /\
  wp (newUserClient service 1 0) (fun r u' => r = (kIOReturnSuccess, Some 8%positive)) client_world.
Proof.
  split; [|vm_compute; reflexivity]. eapply wp_mono.
  - exact (new_user_client_spec client_world service 1 0 eq_refl eq_refl).
  - intros r u' [H _]. exact H.
Defined.

End UserClient.
