(* ===== verification/Xectl.v ===== *)
(** * Xectl: the command line tool [src/userspace/xectl.c]

    The tool's functions over the IOKit user-space library, which is a
    parameter ([IOKitUser]): matching, iterating, opening a connection and
    calling a method.  A process is its standard output and error, and the
    ports it acquired and gave back.  What the tool relies on is stated as laws
    of that parameter: [bounded_counts], that a call never reports more scalars
    than the caller's array holds, and [Delivers], that a call on a connection
    to the driver runs the driver's [externalMethod] on a block with the
    caller's scalars and hands its answer back.  The last part proves what the
    commands print end to end from these laws, with a concrete library that
    has them as the witness.

    [cmd_gtconfig] (lines 84 to 94) is left out: it names a selector the file
    does not declare, so it has no meaning as C, and no command calls it. *)

From Stdlib Require Import ZArith Lia Bool List String Ascii.
From stdpp Require Import base list option strings gmap.
From S2P Require Import Prelude HwOffsets BootArgs IOReturn Kernel SimKernel Forcewake GGTT CommandStream Service ServiceRegs ServiceLife UserClient.
Import ListNotations.
Open Scope Z_scope.

Module Xectl.
Import Kern IOReturn.

Definition KERN_SUCCESS : Z := 0.
Definition kMethodCreateBuffer : Z := 0.
Definition kMethodSubmit : Z := 1.
Definition kMethodWait : Z := 2.
Definition kMethodReadRegs : Z := 3.

(** The IOKit library as the tool uses it.  [io_call c sel ins cap] is
    [IOConnectCallMethod] with scalar input [ins] and an output array of [cap]
    elements; it gives the result code and the scalars returned. *)
Class IOKitUser : Type := {
  sys : Type;
  io_matching : sys -> bool * sys;
  io_services : sys -> Z * Z * sys;
  io_next : Z -> sys -> Z * sys;
  io_open : Z -> sys -> Z * Z * sys;
  io_call : Z -> Z -> list Z -> Z -> sys -> Z * list Z * sys
}.

(** Ports: iterators, service handles and connections. *)
Inductive port : Type := PIter (it : Z) | PService (s : Z) | PConn (c : Z).

Section Tool.
Context `{U : IOKitUser}.

(** What an uninitialised [uint64_t] on the stack of [cmd_mkbuf] holds. *)
Context (indeterminate : Z).

Record proc : Type := mkProc {
  system : sys;
  stdout : list (string * list larg);
  stderr : list (string * list larg);
  acquired : list port;
  released : list port
}.

Definition printf (fmt : string) (args : list larg) : M proc unit :=
  modify (fun p => mkProc (system p) (stdout p ++ [(fmt, args)]) (stderr p) (acquired p) (released p)).
Definition eprintf (fmt : string) (args : list larg) : M proc unit :=
  modify (fun p => mkProc (system p) (stdout p) (stderr p ++ [(fmt, args)]) (acquired p) (released p)).
Definition acquire (x : port) : M proc unit :=
  modify (fun p => mkProc (system p) (stdout p) (stderr p) (acquired p ++ [x]) (released p)).
(** [IOObjectRelease] and [IOServiceClose]. *)
Definition give_back (x : port) : M proc unit :=
  modify (fun p => mkProc (system p) (stdout p) (stderr p) (acquired p) (released p ++ [x])).
Definition syscall {A} (f : sys -> A * sys) : M proc A := fun p =>
  let r := f (system p) in
  Done (fst r) (mkProc (snd r) (stdout p) (stderr p) (acquired p) (released p)).

(** [inl c] is the connection, [inr code] is [exit(code)]. *)
Definition open_connection : M proc (Z + Z) :=
  ok <- syscall io_matching ;;
  if negb ok then eprintf "No matching dict" [] ;;; ret (inr 1)
  else
    r <- syscall io_services ;;
    let '(kr, it) := r in
    if negb (kr =? KERN_SUCCESS) then eprintf "No service iterator" [] ;;; ret (inr 1)
    else
      acquire (PIter it) ;;;
      s <- syscall (io_next it) ;;
      when (negb (s =? 0)) (acquire (PService s)) ;;;
      give_back (PIter it) ;;;
      if s =? 0 then eprintf "Service not found (XeService)" [] ;;; ret (inr 1)
      else
        r <- syscall (io_open s) ;;
        let '(kr, conn) := r in
        when (kr =? KERN_SUCCESS) (acquire (PConn conn)) ;;;
        give_back (PService s) ;;;
        if negb (kr =? KERN_SUCCESS) then eprintf "Open failed: 0x%x" [LZ kr] ;;; ret (inr 1)
        else ret (inl conn).

Definition cmd_info (c : Z) : M proc unit :=
  printf "Connected to %s; handle=%u" [LS "XeService"; LZ c].

(** [for (i; i < outCnt; ++i) printf(..., out[i])]: the array has eight
    elements. *)
Fixpoint print_regs (out : list Z) (i : nat) : M proc unit :=
  match out with
  | [] => ret tt
  | v :: out' =>
      if (8 <=? i)%nat then fault
      else printf "  [%u] = 0x%08x" [LZ (Z.of_nat i); LZ (wrap32 v)] ;;; print_regs out' (S i)
  end.

Definition cmd_regdump (c : Z) : M proc unit :=
  r <- syscall (io_call c kMethodReadRegs [] 8) ;;
  let '(kr, out) := r in
  if negb (kr =? KERN_SUCCESS) then eprintf "regdump failed: 0x%x" [LZ kr]
  else
    printf "Read %u MMIO dwords:" [LZ (Z.of_nat (List.length out))] ;;;
    print_regs out 0.

Definition cmd_noop (c : Z) : M proc unit :=
  r <- syscall (io_call c kMethodSubmit [] 0) ;;
  if negb (fst r =? KERN_SUCCESS) then eprintf "submit failed: 0x%x" [LZ (fst r)]
  else
    r <- syscall (io_call c kMethodWait [1000] 0) ;;
    if negb (fst r =? KERN_SUCCESS) then eprintf "wait failed: 0x%x" [LZ (fst r)]
    else printf "NOOP completed (stub)" [].

Definition clamp_mkbuf (bytes : Z) : Z :=
  let bytes := if bytes =? 0 then 4096 else bytes in
  if 16 * 1024 * 1024 <? bytes then 16 * 1024 * 1024 else bytes.

(** [out[0]] is printed whatever count came back: when the call stored no
    scalar it is still uninitialised. *)
Definition cmd_mkbuf (c : Z) (bytes : Z) : M proc unit :=
  let bytes := clamp_mkbuf bytes in
  r <- syscall (io_call c kMethodCreateBuffer [bytes] 1) ;;
  let '(kr, out) := r in
  if negb (kr =? KERN_SUCCESS) then eprintf "createBuffer failed: 0x%x" [LZ kr]
  else
    printf "Created buffer cookie=0x%llx (size=%u)" [LZ (default indeterminate (head out)); LZ bytes].

(** [strtoul(s, NULL, 0)]: blanks, a sign, a [0x] or [0] prefix, then digits of
    the base; too large gives [ULONG_MAX], and a minus sign negates modulo
    2^64. *)
Definition digit (c : ascii) : Z :=
  let n := Z.of_nat (nat_of_ascii c) in
  if (48 <=? n) && (n <=? 57) then n - 48
  else if (65 <=? n) && (n <=? 90) then n - 55
  else if (97 <=? n) && (n <=? 122) then n - 87
  else 99.
Fixpoint digits (base acc : Z) (s : list ascii) : Z :=
  match s with
  | c :: s' => if digit c <? base then digits base (acc * base + digit c) s' else acc
  | [] => acc
  end.
Definition is_space (c : ascii) : bool :=
  let n := nat_of_ascii c in (n =? 32)%nat || ((9 <=? n)%nat && (n <=? 13)%nat).
Fixpoint skip_space (s : list ascii) : list ascii :=
  match s with c :: s' => if is_space c then skip_space s' else s | [] => [] end.
Definition unsigned_part (s : list ascii) : Z :=
  match s with
  | z :: x :: d :: _ =>
      if (z =? "0")%char && ((x =? "x")%char || (x =? "X")%char) && (digit d <? 16)
      then digits 16 0 (drop 2 s)
      else if (z =? "0")%char then digits 8 0 s else digits 10 0 s
  | z :: _ => if (z =? "0")%char then digits 8 0 s else digits 10 0 s
  | [] => 0
  end.
Definition ULONG_MAX : Z := 2 ^ 64 - 1.
Definition strtoul (str : string) : Z :=
  match skip_space (list_ascii_of_string str) with
  | c :: s =>
      let n := unsigned_part (if (c =? "-")%char || (c =? "+")%char then s else c :: s) in
      if ULONG_MAX <? n then ULONG_MAX else if (c =? "-")%char then wrap64 (- n) else n
  | [] => 0
  end.

(** [main]: the exit status. *)
Definition main (argv : list string) : M proc Z :=
  match argv with
  | prog :: cmd :: rest =>
      oc <- open_connection ;;
      match oc with
      | inr code => ret code
      | inl c =>
          (if String.eqb cmd "info" then cmd_info c
           else if String.eqb cmd "regdump" then cmd_regdump c
           else if String.eqb cmd "noop" then cmd_noop c
           else match rest with
                | arg :: _ => if String.eqb cmd "mkbuf" then cmd_mkbuf c (wrap32 (strtoul arg))
                              else eprintf "unknown cmd" []
                | [] => eprintf "unknown cmd" []
                end) ;;;
          give_back (PConn c) ;;;
          ret 0
      end
  | _ =>
      eprintf "usage: %s [info|regdump|noop|mkbuf BYTES]" [LS (default EmptyString (head argv))] ;;;
      ret 1
  end.

(** ** The tool on its own *)

Implicit Types p : proc.

Lemma wp_syscall {A} (f : sys -> A * sys) (Q : A -> proc -> Prop) p :
  (forall x s', f (system p) = (x, s') ->
     Q x (mkProc s' (stdout p) (stderr p) (acquired p) (released p))) -> wp (syscall f) Q p.
Proof. intros H. unfold wp, syscall. apply H. apply surjective_pairing. Qed.

(** What the library promises of the scalars it returns: the count comes back
    as at most the number the caller's array holds. *)
Definition bounded_counts : Prop :=
  forall c sel ins cap s kr out s', 0 <= cap -> io_call c sel ins cap s = (kr, out, s') ->
    Z.of_nat (List.length out) <= cap.

(** Ports are untouched. *)
Definition same_ports (p p' : proc) : Prop := acquired p' = acquired p /\ released p' = released p.

Lemma print_regs_run out : forall i p, (i + List.length out <= 8)%nat ->
  wp (print_regs out i)
     (fun _ p' => p' = mkProc (system p)
        (stdout p ++ imap (fun j v => ("  [%u] = 0x%08x"%string, [LZ (Z.of_nat (i + j)); LZ (wrap32 v)])) out)
        (stderr p) (acquired p) (released p)) p.
Proof.
  induction out as [|v out IH]; intros i p Hi; cbn [print_regs List.length] in *.
  - apply wp_ret. simpl. rewrite app_nil_r. by destruct p.
  - rewrite (proj2 (Nat.leb_gt 8 i)) by lia. apply wp_bind, wp_modify. eapply wp_mono; [apply IH; lia|].
    intros _ p' ->. simpl. f_equal. rewrite <- app_assoc. simpl. rewrite Nat.add_0_r. do 2 f_equal.
    apply imap_ext. intros j x _. simpl. do 4 f_equal. lia.
Qed.

Lemma cmd_ports (cmd : M proc unit) :
  bounded_counts ->
  (exists c, cmd = cmd_info c \/ cmd = cmd_regdump c \/ cmd = cmd_noop c \/ (exists n, cmd = cmd_mkbuf c n)) \/
  (exists m, cmd = eprintf m []) ->
  forall p, wp cmd (fun _ p' => same_ports p p') p.
Proof.
  intros Hh [(c & [->|[->|[->|[n ->]]]])|[m ->]] p; try by repeat split.
  - unfold cmd_regdump. apply wp_bind, wp_syscall. intros [kr out] s' Hc. apply wp_if; intros _; [done|].
    apply wp_bind, wp_modify. eapply wp_mono; [apply print_regs_run|by intros _ p' ->].
    pose proof (Hh _ _ _ 8 _ _ _ _ ltac:(lia) Hc). simpl. lia.
  - unfold cmd_noop. apply wp_bind, wp_syscall. intros r s' _. apply wp_if; intros _; [done|].
    apply wp_bind, wp_syscall. intros r' s'' _. by apply wp_if; intros _.
  - unfold cmd_mkbuf. apply wp_bind, wp_syscall. intros [kr out] s' _. by apply wp_if; intros _.
Qed.

Lemma open_connection_run p :
  acquired p = [] -> released p = [] ->
  wp open_connection
     (fun r p' => match r with
                  | inl c => exists it s, acquired p' = [PIter it; PService s; PConn c] /\
                                          released p' = [PIter it; PService s]
                  | inr code => code = 1 /\ acquired p' = released p' /\ stdout p' = stdout p /\
                                forall c, ~ In (PConn c) (acquired p')
                  end) p.
Proof.
  intros Ha Hr. unfold open_connection. apply wp_bind, wp_syscall. intros ok s1 _.
  destruct ok; simpl negb; cbv iota; [|apply wp_bind, wp_modify, wp_ret; simpl; rewrite Ha, Hr; auto].
  apply wp_bind, wp_syscall. intros [kr it] s2 _. apply wp_if; intros _.
  { apply wp_bind, wp_modify, wp_ret. simpl. rewrite Ha, Hr. auto. }
  apply wp_bind, wp_modify. apply wp_bind, wp_syscall. intros s s3 _. simpl.
  destruct (Z.eqb_spec s 0) as [->|Hs]; simpl negb.
  { apply wp_bind. simpl. apply wp_ret. do 2 apply wp_bind, wp_modify. apply wp_ret. simpl. rewrite Ha, Hr. simpl.
    intuition discriminate. }
  apply wp_bind. simpl. apply wp_modify. apply wp_bind, wp_modify. apply wp_bind, wp_syscall.
  intros [kr2 conn] s4 _. apply wp_bind. destruct (kr2 =? KERN_SUCCESS); simpl negb; cbv iota.
  - apply wp_modify. apply wp_bind, wp_modify, wp_ret. simpl. rewrite Ha, Hr. exists it, s. done.
  - apply wp_ret. do 2 apply wp_bind, wp_modify. apply wp_ret. simpl. rewrite Ha, Hr. simpl. intuition discriminate.
Qed.


End Tool.

Example strtoul_forms :
  map strtoul ["4096"; "0x1000"; " 010"; "+7z"; "-1"; "99999999999999999999"; "0x"; ""]%string
  = [4096; 4096; 8; 7; 2 ^ 64 - 1; 2 ^ 64 - 1; 0; 0].
Proof. reflexivity. Qed.

(** ** The tool on the driver *)

Section EndToEnd.
Import Service ServiceRegs ServiceLife UserClient.
Context `{D : Device} `{K : Kernel} {KL : KernelLaws} {SD : SuperDispatch}.

(** The library connected to the driver: [conn] names the client object [c].
    The laws are those of [IOConnectCallMethod] for scalars: the kernel runs the
    client's [externalMethod] with the selector given, on an argument block that
    carries the caller's scalars and their count, the room the caller has for
    scalars (at most the sixteen of [io_scalar_inband64_t]) and no structures;
    when the method returns, the caller gets its result code and, on success,
    the first [scalarOutputCount] of the block's scalars. *)
Class Delivers {U : IOKitUser} (c : obj) (conn : Z) : Type := {
  driver : sys -> uworld;
  deliver : forall sel ins cap (s : sys), (List.length ins <= 16)%nat -> 0 <= cap <= 16 ->
    exists a : arguments,
      scalarInput a = ins /\ scalarInputCount a = Z.of_nat (List.length ins) /\ structureInputSize a = 0 /\
      (16 <= List.length (scalarOutput a))%nat /\ scalarOutputCount a = cap /\ structureOutputSize a = 0 /\
      forall kr a' u', externalMethod c sel (Some a) (driver s) = Done (kr, Some a') u' ->
        exists out s', io_call conn sel ins cap s = (kr, out, s') /\ driver s' = u' /\
          (kr = KERN_SUCCESS -> out = take (Z.to_nat (scalarOutputCount a')) (scalarOutput a'))
}.

Section Connected.
Context {U : IOKitUser} {c : obj} {conn : Z} {DL : Delivers c conn}.
Implicit Types p : proc.

(** The driver as the process finds it. *)
Definition drv (p : proc) : uworld := driver (system p).

(** A call through the library is a call of the dispatcher: what is shown of
    every block with the caller's scalars holds of the call. *)
Lemma wp_driver_call sel ins cap (Q : Z * list Z -> proc -> Prop) p :
  (List.length ins <= 16)%nat -> 0 <= cap <= 16 ->
  (forall a, scalarInput a = ins -> scalarInputCount a = Z.of_nat (List.length ins) -> structureInputSize a = 0 ->
     (8 <= List.length (scalarOutput a))%nat -> scalarOutputCount a = cap -> structureOutputSize a = 0 ->
     wp (externalMethod c sel (Some a))
        (fun r u' => exists a', snd r = Some a' /\
           forall out s', driver s' = u' ->
             (fst r = KERN_SUCCESS -> out = take (Z.to_nat (scalarOutputCount a')) (scalarOutput a')) ->
             Q (fst r, out) (mkProc s' (stdout p) (stderr p) (acquired p) (released p)))
        (drv p)) ->
  wp (syscall (io_call conn sel ins cap)) Q p.
Proof.
  intros Hi Hc H. destruct (deliver sel ins cap (system p) Hi Hc) as (a & E1 & E2 & E3 & E4 & E5 & E6 & Hd).
  specialize (H a E1 E2 E3 ltac:(lia) E5 E6). unfold wp in H. fold (drv p) in Hd.
  destruct (externalMethod c sel (Some a) (drv p)) as [[kr oa] u1|]; [|done].
  destruct H as (a' & Ha' & HQ). simpl in Ha'. subst oa.
  destruct (Hd kr a' u1 eq_refl) as (out & s' & Ec & Eu & Eo).
  apply wp_syscall. intros x s1 E. rewrite Ec in E. injection E as <- <-. by apply HQ.
Qed.

(** The lines [cmd_regdump] prints for the values [vs]. *)
Definition reg_lines (vs : list Z) : list (string * list larg) :=
  ("Read %u MMIO dwords:"%string, [LZ (Z.of_nat (List.length vs))])
  :: imap (fun j v => ("  [%u] = 0x%08x"%string, [LZ (Z.of_nat (0 + j)); LZ v])) vs.

Lemma imap_wrap32 vs : Forall is_u32 vs ->
  imap (fun j v => ("  [%u] = 0x%08x"%string, [LZ (Z.of_nat (0 + j)); LZ (wrap32 v)])) vs =
  imap (fun j v => ("  [%u] = 0x%08x"%string, [LZ (Z.of_nat (0 + j)); LZ v])) vs.
Proof.
  intros H. apply imap_ext. intros j v Hv. rewrite wrap32_small; [done|].
  by eapply (Forall_lookup_1 is_u32).
Qed.

Lemma reg_run_u32 len (w : world) offs vs w' : reg_run len w offs vs w' -> Forall is_u32 vs.
Proof. intros (_ & _ & H). induction H as [|o v offs vs [Hv _] _ IH]; constructor; auto. Qed.

Lemma regdump_run p m l len bos :
  running (base (drv p)) m l len bos -> attached (drv p) c ->
  wp (cmd_regdump conn)
     (fun _ p' => exists vs, stdout p' = stdout p ++ reg_lines vs /\ stderr p' = stderr p /\
        List.length vs = 8%nat /\
        reg_run len (base (drv p)) (take 8 kSafeOffs) vs (base (drv p'))) p.
Proof.
  intros R Ha. unfold cmd_regdump. apply wp_bind, wp_driver_call; [simpl; lia|lia|].
  intros a _ E2 E3 E4 E5 E6. eapply wp_mono; [exact (register_dump_read (drv p) m l len bos c a R Ha E4 E2 E3 E5 E6)|].
  intros r u' (vs & -> & Hr). pose proof Hr as (_ & Hl & _). simpl in Hl. eexists. split; [done|].
  intros out s' Eu Eo. specialize (Eo eq_refl). cbn [with_output scalarOutputCount scalarOutput] in Eo.
  change (Z.to_nat 8) with 8%nat in Eo. rewrite take_app_le, take_ge in Eo by (rewrite Hl; done). subst out.
  cbv beta iota. change (fst _ =? KERN_SUCCESS) with true. cbn [negb].
  apply wp_bind, wp_modify. eapply wp_mono; [apply print_regs_run; by rewrite Hl|].
  intros _ p' ->. exists vs. unfold drv. cbn [stdout stderr system]. rewrite Eu. split; [|done].
  rewrite <- app_assoc. unfold reg_lines. by rewrite imap_wrap32 by (by eapply reg_run_u32).
Qed.

Lemma clamp_mkbuf_range bytes : is_u32 bytes -> 1 <= clamp_mkbuf bytes <= 0x1000000.
Proof.
  unfold clamp_mkbuf, is_u32. intros Hb.
  destruct (Z.eqb_spec bytes 0); [change (16 * 1024 * 1024 <? 4096) with false; lia|].
  destruct (Z.ltb_spec (16 * 1024 * 1024) bytes); lia.
Qed.

Lemma mkbuf_run x p m l len bos bytes :
  running (base (drv p)) m l len bos -> attached (drv p) c ->
  is_u32 bytes -> Z.of_nat (List.length bos) < 2 ^ 32 - 1 ->
  wp (cmd_mkbuf x conn bytes)
     (fun _ p' =>
        (stdout p' = stdout p /\
         stderr p' = stderr p ++ [("createBuffer failed: 0x%x"%string, [LZ kIOReturnNoResources])]) \/
        exists b cookie, stderr p' = stderr p /\
          stdout p' = stdout p ++ [("Created buffer cookie=0x%llx (size=%u)"%string,
                                    [LZ cookie; LZ (clamp_mkbuf bytes)])] /\
          boFromCookie cookie (base (drv p')) = Done (Some b) (base (drv p')) /\
          clamp_mkbuf bytes <= o_len (look (kern (base (drv p'))) b) < clamp_mkbuf bytes + 4096) p.
Proof.
  intros R Ha Hb Hn. pose proof (clamp_mkbuf_range bytes Hb) as Hc.
  unfold cmd_mkbuf. apply wp_bind, wp_driver_call; [simpl; lia|lia|].
  intros a E1 E2 E3 E4 E5 E6.
  eapply wp_mono; [exact (create_request_run (drv p) m l len bos c a (clamp_mkbuf bytes) R Ha E4 Hn E1 E2 E3 E5 E6)|].
  intros r u' [(-> & _)|(b & cookie & -> & _ & Hbo & _ & _ & Hsz & _)];
    (eexists; split; [done|]; intros out s' Eu Eo; cbv beta iota).
  - change (fst _ =? KERN_SUCCESS) with false. cbn [negb]. left. done.
  - specialize (Eo eq_refl). cbn in Eo. subst out.
    change (fst _ =? KERN_SUCCESS) with true. cbn [negb]. right. exists b, cookie.
    rewrite Z.mod_small in Hsz by lia. unfold drv. simpl. rewrite Eu. split; [done|]. split; [done|].
    split; [done|]. apply Hsz. lia.
Qed.


End Connected.
End EndToEnd.

(** ** Concrete libraries *)

Import Service ServiceRegs ServiceLife UserClient Sim.

(** A library on top of the simulated driver: connection 1 is its client,
    object 7, and a call runs the dispatcher on a block of sixteen zeroes. *)
Definition demo_block (ins : list Z) (cap : Z) : arguments :=
  mkArgs ins (Z.of_nat (List.length ins)) 0 (replicate 16 0) cap 0.

Definition DemoIOKit : IOKitUser := {|
  sys := uworld (D := SimDevice) (K := SimKernel);
  io_matching u := (true, u);
  io_services u := (0, 1, u);
  io_next _ u := (1, u);
  io_open _ u := (0, 1, u);
  io_call _ sel ins cap u :=
    match externalMethod 7%positive sel (Some (demo_block ins cap)) u with
    | Done (kr, Some a) u' => (kr, take (Z.to_nat (scalarOutputCount a)) (scalarOutput a), u')
    | Done (kr, None) u' => (kr, [], u')
    | Fault u' => (1, [], u')
    end
|}.

#[export] Instance demo_delivers : Delivers (U := DemoIOKit) 7%positive 1.
Proof.
  refine {| driver := fun u : sys (IOKitUser := DemoIOKit) => u |}.
  intros sel ins cap s Hi Hc. exists (demo_block ins cap). repeat (split; [done|]).
  intros kr a' u' E. cbn [io_call DemoIOKit]. rewrite E. eauto.
Defined.

Definition tool : proc (U := DemoIOKit) := mkProc (U := DemoIOKit) client_world [] [] [] [].


(** A library that finds the service and answers every call with as many
    sevens as were asked for. *)
Definition SevensIOKit : IOKitUser := {|
  sys := unit;
  io_matching u := (true, u);
  io_services u := (0, 5, u);
  io_next _ u := (6, u);
  io_open _ u := (0, 8, u);
  io_call _ _ _ cap u := (0, replicate (Z.to_nat cap) 7, u)
|}.

Lemma sevens_bounded : bounded_counts (U := SevensIOKit).
Proof. intros c sel ins cap s kr out s' Hc [= <- <- <-]. rewrite length_replicate. lia. Qed.


End Xectl.
