(* ===== verification/Race.v ===== *)
(** * Race: two clients inside [XeService::ucCreateBuffer]

    The service has no lock and no command gate, so two user clients can be
    inside [ucCreateBuffer] ([src/kexts/XeService.cpp]) at once.  Here the
    function is cut at its calls into shared objects, each call being atomic,
    and two threads are interleaved by a schedule. *)

From Stdlib Require Import ZArith Lia Bool List String.
From stdpp Require Import base list option strings.
From S2P Require Import Prelude HwOffsets BootArgs IOReturn Kernel SimKernel Forcewake GGTT CommandStream Service ServiceRegs ServiceLife.
Import ListNotations.
Open Scope Z_scope.

Module Race.
Import BootArgs Kern IOReturn Service ServiceRegs ServiceLife.

(** Where a thread is: before the allocation, with the new buffer in hand, with
    the buffer in the array, or returned. *)
Inductive tstate : Type :=
| TRequest (bytes : Z)
| TBuffer (a b : obj) (sz : Z)
| TAdded (a b : obj) (sz : Z)
| TDone (r : Z * option Z).

Section Race.
Context `{D : Device} `{K : Kernel}.

(** One atomic step of [ucCreateBuffer]. *)
Definition tstep (t : tstate) : M world tstate :=
  match t with
  | TRequest bytes =>
      XeLog "XePCI: ucCreateBuffer: requested %u bytes" [LZ bytes] ;;;
      s <- get_svc ;;
      match m_boList s with
      | None =>
          XeLog "XePCI: ucCreateBuffer: ERROR - BO list not ready" [] ;;; ret (TDone (kIOReturnNotReady, None))
      | Some a =>
          let sz := page_align bytes in
          XeLog "XePCI: ucCreateBuffer: allocating %u bytes (page-aligned)" [LZ sz] ;;;
          md <- kcall (k_bmd_withOptions bo_options sz k_page_size) ;;
          match md with
          | None =>
              XeLog "XePCI: ucCreateBuffer: ERROR - allocation failed" [] ;;;
              ret (TDone (kIOReturnNoResources, None))
          | Some b => ret (TBuffer a b sz)
          end
      end
  | TBuffer a b sz =>
      ok <- kcall (k_array_setObject a b) ;;
      if negb ok then
        XeLog "XePCI: ucCreateBuffer: ERROR - failed to add to BO list" [] ;;;
        release b ;;;
        ret (TDone (kIOReturnNoResources, None))
      else ret (TAdded a b sz)
  | TAdded a b sz =>
      cookie <- getCount a ;;
      XeLog "XePCI: ucCreateBuffer: SUCCESS - cookie=%llu size=%u vaddr=%p" [LZ cookie; LZ sz] ;;;
      ret (TDone (kIOReturnSuccess, Some cookie))
  | TDone r => ret (TDone r)
  end.

(** [true] lets the first thread take a step, [false] the second. *)
Fixpoint interleave (sched : list bool) (t1 t2 : tstate) : M world (tstate * tstate) :=
  match sched with
  | [] => ret (t1, t2)
  | true :: sched' => t <- tstep t1 ;; interleave sched' t t2
  | false :: sched' => t <- tstep t2 ;; interleave sched' t1 t
  end.

Definition serial : list bool := [true; true; true; false; false; false].

(** Three steps without interruption are the function. *)
Lemma three_steps bytes w :
  (t <- tstep (TRequest bytes) ;; t <- tstep t ;; tstep t) w =
  (r <- ucCreateBuffer bytes ;; ret (TDone r)) w.
Proof.
  unfold ucCreateBuffer, tstep, bind, get_svc, gets, XeLog, modify, kcall, ret, getCount. cbn [kern svc add_log].
  destruct (m_boList (svc w)) as [a|]; [|reflexivity]. cbn [kern svc add_log].
  destruct (k_bmd_withOptions bo_options (page_align bytes) k_page_size (kern w)) as [[b|] k1]; [|reflexivity].
  cbn [fst snd kern set_kern]. destruct (k_array_setObject a b k1) as [[] k2]; reflexivity.
Qed.


End Race.

Import Sim.

(** C16. Cookies are not thread safe: run one after the other, two requests
    behave as two calls of [ucCreateBuffer]; but there is an interleaving of
    the same six steps, on a running service with two buffers, in which both
    succeed with the same cookie 4, so that the first caller's cookie names
    the second caller's buffer (object 8) and no caller was ever told the
    cookie of object 7. *)
Theorem cookie_race :
  (forall {D : Device} {K : Kernel} b1 b2 (w : world),
     interleave serial (TRequest b1) (TRequest b2) w =
     (r1 <- ucCreateBuffer b1 ;; r2 <- ucCreateBuffer b2 ;; ret (TDone r1, TDone r2)) w) /\
  exists sched, Permutation serial sched /\
    wp (r <- interleave sched (TRequest 4096) (TRequest 8192) ;;
        x <- boFromCookie 4 ;; y <- boFromCookie 3 ;; ret (r, x, y))
       (fun r _ => r = ((TDone (kIOReturnSuccess, Some 4), TDone (kIOReturnSuccess, Some 4)),
                        Some 8%positive, Some 7%positive)) run_world.
Proof.
  split.
  - intros D K b1 b2 w. pose proof (three_steps b1 w) as H1.
    unfold serial, interleave.
    unfold bind in *. destruct (tstep (TRequest b1) w) as [t1 w1|]; [|].
    + destruct (tstep t1 w1) as [t2 w2|]; [|].
      * destruct (tstep t2 w2) as [t3 w3|]; destruct (ucCreateBuffer b1 w) as [r1 w3'|]; try discriminate H1.
        -- injection H1 as -> ->. pose proof (three_steps b2 w3') as H2. unfold bind in H2.
           destruct (tstep (TRequest b2) w3') as [s1 v1|]; [destruct (tstep s1 v1) as [s2 v2|];
             [destruct (tstep s2 v2) as [s3 v3|]|]|]; destruct (ucCreateBuffer b2 w3') as [r2 v3'|];
             try discriminate H2; unfold ret in *; congruence.
        -- congruence.
      * destruct (ucCreateBuffer b1 w); [discriminate H1|congruence].
    + destruct (ucCreateBuffer b1 w); [discriminate H1|congruence].
  - exists [true; true; false; false; true; false]. split.
    + unfold serial. do 2 constructor. apply (Permutation_cons_app [false; false] [false]). reflexivity.
    + vm_compute. reflexivity.
Qed.

End Race.
