(* ===== verification/Builtins.v ===== *)
(** * Builtins: 64-bit arithmetic for 32-bit kernels,
    [src/MacKernelSDK/Library/kmod/i386_builtins.c]

    The compiler support routines a 32-bit kext links: shifts, bit counts and
    division on 64-bit values in terms of 32-bit halves and branch-free masks.
    Every routine is translated line by line at its machine width and proved
    equal to the mathematical operation. *)

From Stdlib Require Import ZArith Lia Bool List.
From stdpp Require Import base list option.
From S2P Require Import Prelude.
Import ListNotations.
Open Scope Z_scope.

Module Builtins.

(** ** The routines *)

(** The union [arith64_word]: a 64-bit value as its two halves. *)
Record arith64_word : Type := mkWord { hi : Z; lo : Z }.
Definition word_of (n : Z) : arith64_word := mkWord (wrap32 (Z.shiftr n 32)) (wrap32 n).
Definition u64 (w : arith64_word) : Z := hi w * 2 ^ 32 + lo w.
Definition s64 (w : arith64_word) : Z := to_s64 (u64 w).
Definition arith64_hi (n : Z) : Z := hi (word_of n).
Definition arith64_lo (n : Z) : Z := lo (word_of n).

(** [(a ^ ((b >= 0) - 1)) + (b < 0)] with [a] and the result taken at 64 bits.
    Where [a] is signed ([arith64_abs]) the addition of the C code overflows for
    the least 64-bit integer, which C leaves undefined; the model has the
    wrap-around of the machine's addition there, and so keeps that integer. *)
Definition arith64_neg (a b : Z) : Z :=
  wrap64 (Z.lxor a (wrap64 (Z.b2z (0 <=? to_s64 b) - 1)) + Z.b2z (to_s64 b <? 0)).
Definition arith64_abs (a : Z) : Z := arith64_neg (wrap64 a) a.

Definition absvdi2 (a : Z) : Z := to_s64 (arith64_abs a).

Definition ashldi3 (a b : Z) : Z :=
  let w := word_of a in
  let b := Z.land b 63 in
  let w :=
    if 32 <=? b then mkWord (wrap32 (Z.shiftl (lo w) (b - 32))) 0
    else if negb (b =? 0) then
      mkWord (Z.lor (Z.shiftr (lo w) (32 - b)) (wrap32 (Z.shiftl (hi w) b))) (wrap32 (Z.shiftl (lo w) b))
    else w in
  s64 w.

Definition ashrdi3 (a b : Z) : Z :=
  let w := word_of a in
  let b := Z.land b 63 in
  let w :=
    if 32 <=? b then
      mkWord (wrap32 (Z.shiftr (to_s32 (hi w)) 31)) (wrap32 (Z.shiftr (to_s32 (hi w)) (b - 32)))
    else if negb (b =? 0) then
      mkWord (wrap32 (Z.shiftr (to_s32 (hi w)) b)) (Z.lor (wrap32 (Z.shiftl (hi w) (32 - b))) (Z.shiftr (lo w) b))
    else w in
  s64 w.

Definition lshrdi3 (a b : Z) : Z :=
  let w := word_of a in
  let b := Z.land b 63 in
  let w :=
    if 32 <=? b then mkWord 0 (Z.shiftr (hi w) (b - 32))
    else if negb (b =? 0) then
      mkWord (Z.shiftr (hi w) b) (Z.lor (wrap32 (Z.shiftl (hi w) (32 - b))) (Z.shiftr (lo w) b))
    else w in
  u64 w.

(** [!(a & m) << k]: [k]-th power of two when no bit of [m] is set in [a]. *)
Definition none (a m k : Z) : Z := Z.shiftl (Z.b2z (Z.land a m =? 0)) k.

(** One line of the leading-zero search at width [w]: [(n, a)] becomes
    [(n + b, a << b)]. *)
Definition clz_step (w m k : Z) (na : Z * Z) : Z * Z :=
  let b := none (snd na) m k in (fst na + b, Z.shiftl (snd na) b mod 2 ^ w).
Definition ctz_step (m k : Z) (na : Z * Z) : Z * Z :=
  let b := none (snd na) m k in (fst na + b, Z.shiftr (snd na) b).

Definition clzsi2 (a : Z) : Z :=
  let na := clz_step 32 0xffff0000 4 (0, a) in
  let na := clz_step 32 0xff000000 3 na in
  let na := clz_step 32 0xf0000000 2 na in
  let na := clz_step 32 0xc0000000 1 na in
  fst na + Z.b2z (Z.land (snd na) 0x80000000 =? 0).

Definition clzdi2 (a : Z) : Z :=
  let na := clz_step 64 0xffffffff00000000 5 (0, a) in
  let na := clz_step 64 0xffff000000000000 4 na in
  let na := clz_step 64 0xff00000000000000 3 na in
  let na := clz_step 64 0xf000000000000000 2 na in
  let na := clz_step 64 0xc000000000000000 1 na in
  fst na + Z.b2z (Z.land (snd na) 0x8000000000000000 =? 0).

Definition ctzsi2 (a : Z) : Z :=
  let na := ctz_step 0x0000ffff 4 (0, a) in
  let na := ctz_step 0x000000ff 3 na in
  let na := ctz_step 0x0000000f 2 na in
  let na := ctz_step 0x00000003 1 na in
  fst na + Z.b2z (Z.land (snd na) 0x00000001 =? 0).

Definition ctzdi2 (a : Z) : Z :=
  let na := ctz_step 0x00000000ffffffff 5 (0, a) in
  let na := ctz_step 0x000000000000ffff 4 na in
  let na := ctz_step 0x00000000000000ff 3 na in
  let na := ctz_step 0x000000000000000f 2 na in
  let na := ctz_step 0x0000000000000003 1 na in
  fst na + Z.b2z (Z.land (snd na) 0x0000000000000001 =? 0).

(** One iteration of the long division: [(rem, a, wrap)]. *)
Definition div_step (b : Z) (st : Z * Z * Z) : Z * Z * Z :=
  let '(rem, a, wrap) := st in
  let rem := wrap64 (Z.lor (wrap64 (Z.shiftl rem 1)) (Z.shiftr a 63)) in
  let a := Z.lor (wrap64 (Z.shiftl a 1)) (Z.land wrap 1) in
  let wrap := wrap64 (Z.shiftr (to_s64 (b - rem - 1)) 63) in
  let rem := wrap64 (rem - Z.land b wrap) in
  (rem, a, wrap).

(** The quotient and the value stored through [c]; [None] is the division
    exception. *)
Definition divmoddi4 (a b : Z) : option (Z * Z) :=
  if a <? b then Some (0, a)
  else if (arith64_hi b =? 0) && (b =? 0) then None
  else if (arith64_hi b =? 0) && (b =? 1) then Some (a, 0)
  else if (arith64_hi b =? 0) && (arith64_hi a =? 0) then
    Some (arith64_lo a / arith64_lo b, arith64_lo a mod arith64_lo b)
  else
    let bits := clzdi2 b - clzdi2 a + 1 in
    let rem := Z.shiftr a bits in
    let a := wrap64 (Z.shiftl a (64 - bits)) in
    let '(rem, a, wrap) := Nat.iter (Z.to_nat bits) (div_step b) (rem, a, 0) in
    Some (Z.lor (wrap64 (Z.shiftl a 1)) (Z.land wrap 1), rem).

Definition divdi3 (a b : Z) : option Z :=
  match divmoddi4 (arith64_abs a) (arith64_abs b) with
  | Some (q, _) => Some (to_s64 (arith64_neg q (Z.lxor a b)))
  | None => None
  end.

Definition moddi3 (a b : Z) : option Z :=
  match divmoddi4 (arith64_abs a) (arith64_abs b) with
  | Some (_, r) => Some (to_s64 (arith64_neg r a))
  | None => None
  end.

Definition udivdi3 (a b : Z) : option Z := option_map fst (divmoddi4 a b).
Definition umoddi3 (a b : Z) : option Z := option_map snd (divmoddi4 a b).

Definition ffsdi2 (a : Z) : Z := if a =? 0 then 0 else ctzdi2 a + 1.

Definition popcountsi2 (a : Z) : Z :=
  let a := wrap32 (a - Z.land (Z.shiftr a 1) 0x55555555) in
  let a := wrap32 (Z.land (Z.shiftr a 2) 0x33333333 + Z.land a 0x33333333) in
  let a := Z.land (wrap32 (a + Z.shiftr a 4)) 0x0F0F0F0F in
  let a := wrap32 (a + Z.shiftr a 16) in
  Z.land (wrap32 (a + Z.shiftr a 8)) 63.

Definition popcountdi2 (a : Z) : Z :=
  let a := wrap64 (a - Z.land (Z.shiftr a 1) 0x5555555555555555) in
  let a := wrap64 (Z.land (Z.shiftr a 2) 0x3333333333333333 + Z.land a 0x3333333333333333) in
  let a := Z.land (wrap64 (a + Z.shiftr a 4)) 0x0F0F0F0F0F0F0F0F in
  let a := wrap64 (a + Z.shiftr a 32) in
  let a := wrap64 (a + Z.shiftr a 16) in
  Z.land (wrap64 (a + Z.shiftr a 8)) 127.

Example builtins_run :
  (ashldi3 5 33, ashrdi3 (-5) 1, lshrdi3 (2 ^ 63) 63, clzdi2 1, ctzdi2 48, popcountdi2 (2 ^ 64 - 1))
  = (5 * 2 ^ 33, -3, 1, 63, 4, 64) /\
  (divmoddi4 (2 ^ 64 - 1) (2 ^ 33 + 7), divdi3 (-7) 2, moddi3 (-7) 2, divdi3 (- 2 ^ 63) (-1))
  = (Some ((2 ^ 64 - 1) / (2 ^ 33 + 7), (2 ^ 64 - 1) mod (2 ^ 33 + 7)), Some (-3), Some (-1), Some (- 2 ^ 63)).
Proof. vm_compute. split; reflexivity. Qed.

(** ** Halves and shifts *)

Lemma wrap64_wrap64 x : wrap64 (wrap64 x) = wrap64 x.
Proof. unfold wrap64. by rewrite Z.mod_mod by lia. Qed.

Lemma to_s64_wrap x : to_s64 (wrap64 x) = to_s64 x.
Proof. unfold to_s64. by rewrite wrap64_wrap64. Qed.

Lemma to_s64_eqm x y : wrap64 x = wrap64 y -> to_s64 x = to_s64 y.
Proof. unfold to_s64. by intros ->. Qed.

Lemma to_s64_small x : - 2 ^ 63 <= x < 2 ^ 63 -> to_s64 x = x.
Proof.
  intros Hx. unfold to_s64, wrap64. destruct (Z.lt_ge_cases x 0).
  - replace (x mod 2 ^ 64) with (x + 2 ^ 64) by (apply (Z.mod_unique _ _ (-1)); lia).
    destruct (Z.ltb_spec (x + 2 ^ 64) (2 ^ 63)); lia.
  - rewrite Z.mod_small by lia. destruct (Z.ltb_spec x (2 ^ 63)); lia.
Qed.

Lemma to_s64_range x : - 2 ^ 63 <= to_s64 x < 2 ^ 63.
Proof.
  unfold to_s64. pose proof (wrap64_range x). destruct (Z.ltb_spec (wrap64 x) (2 ^ 63)); lia.
Qed.

Lemma wrap64_to_s64 x : wrap64 (to_s64 x) = wrap64 x.
Proof.
  unfold to_s64. destruct (_ <? _); [apply wrap64_wrap64|].
  unfold wrap64 at 1. replace (wrap64 x - 2 ^ 64) with (wrap64 x + (-1) * 2 ^ 64) by lia.
  rewrite Z.mod_add by lia. apply wrap64_wrap64.
Qed.

(** The halves of a word and back. *)
Lemma word_of_hi n : hi (word_of n) = wrap64 n / 2 ^ 32.
Proof.
  unfold word_of, wrap32, wrap64. simpl hi. rewrite Z.shiftr_div_pow2 by lia.
  change (2 ^ 64) with (2 ^ 32 * 2 ^ 32). rewrite Z.rem_mul_r by lia.
  rewrite (Z.mul_comm (2 ^ 32) (_ mod _)), Z.div_add by lia.
  rewrite (Z.div_small (n mod 2 ^ 32)) by (apply Z.mod_pos_bound; lia). done.
Qed.

Lemma word_of_lo n : lo (word_of n) = wrap64 n mod 2 ^ 32.
Proof.
  unfold word_of, wrap32, wrap64. simpl lo. change (2 ^ 64) with (2 ^ 32 * 2 ^ 32).
  rewrite Z.rem_mul_r, (Z.mul_comm (2 ^ 32) (_ mod _)), Z.mod_add, Z.mod_mod by lia. done.
Qed.

Lemma u64_word_of n : u64 (word_of n) = wrap64 n.
Proof.
  unfold u64. rewrite word_of_hi, word_of_lo. pose proof (Z.div_mod (wrap64 n) (2 ^ 32)). lia.
Qed.

Lemma word_ranges n : 0 <= hi (word_of n) < 2 ^ 32 /\ 0 <= lo (word_of n) < 2 ^ 32.
Proof. split; apply wrap32_range. Qed.

Lemma land63 b : Z.land b 63 = b mod 64.
Proof. change 63 with (Z.ones 6). by rewrite Z.land_ones by lia. Qed.

Lemma pow_split b : 0 <= b <= 32 -> 2 ^ 32 = 2 ^ b * 2 ^ (32 - b).
Proof. intros H. rewrite <- Z.pow_add_r by lia. f_equal. lia. Qed.

(** Shifting the halves left by [b < 32]. *)
Lemma shl_halves h l b : 0 <= l < 2 ^ 32 -> 0 <= h < 2 ^ 32 -> 0 <= b < 32 ->
  Z.lor (Z.shiftr l (32 - b)) (wrap32 (Z.shiftl h b)) * 2 ^ 32 + wrap32 (Z.shiftl l b)
  = wrap64 ((h * 2 ^ 32 + l) * 2 ^ b).
Proof.
  intros Hl Hh Hb. rewrite Z.shiftr_div_pow2, !Z.shiftl_mul_pow2 by lia. unfold wrap32, wrap64.
  assert (Hp : 0 < 2 ^ b) by (apply Z.pow_pos_nonneg; lia).
  assert (Hq : 0 < 2 ^ (32 - b)) by (apply Z.pow_pos_nonneg; lia).
  pose proof (pow_split b ltac:(lia)) as Hpq.
  assert (Hlt : 0 <= l / 2 ^ (32 - b) < 2 ^ b)
    by (split; [apply Z.div_pos; lia|apply Z.div_lt_upper_bound; lia]).
  assert (Hm : (h * 2 ^ b) mod 2 ^ 32 = h mod 2 ^ (32 - b) * 2 ^ b)
    by (rewrite Hpq, (Z.mul_comm h), Z.mul_mod_distr_l by lia; lia).
  rewrite Z.lor_comm, (lor_fields _ (h mod 2 ^ (32 - b)) _ b) by (rewrite ?Hm; lia).
  assert (Hl2 : l * 2 ^ b = l / 2 ^ (32 - b) * 2 ^ 32 + (l * 2 ^ b) mod 2 ^ 32).
  { rewrite (Z.mul_comm l) at 2. rewrite Hpq at 2. rewrite Z.mul_mod_distr_l by lia.
    pose proof (Z.div_mod l (2 ^ (32 - b))). nia. }
  pose proof (Z.mod_pos_bound (l * 2 ^ b) (2 ^ 32)). pose proof (Z.mod_pos_bound h (2 ^ (32 - b))).
  apply (Z.mod_unique _ _ (h / 2 ^ (32 - b))).
  - left. rewrite Hm. assert (h mod 2 ^ (32 - b) * 2 ^ b <= 2 ^ 32 - 2 ^ b) by nia. lia.
  - rewrite Hm. pose proof (Z.div_mod h (2 ^ (32 - b))) as Hd.
    change (2 ^ 64) with (2 ^ 32 * 2 ^ 32). nia.
Qed.

Lemma shl_high h l b : 0 <= l < 2 ^ 32 -> 32 <= b < 64 ->
  wrap32 (Z.shiftl l (b - 32)) * 2 ^ 32 = wrap64 ((h * 2 ^ 32 + l) * 2 ^ b).
Proof.
  intros Hl Hb. rewrite Z.shiftl_mul_pow2 by lia. unfold wrap32, wrap64.
  replace ((h * 2 ^ 32 + l) * 2 ^ b) with (l * 2 ^ (b - 32) * 2 ^ 32 + h * 2 ^ (b - 32) * 2 ^ 64).
  - rewrite Z.mod_add by lia. change (2 ^ 64) with (2 ^ 32 * 2 ^ 32).
    by rewrite Z.mul_mod_distr_r by lia.
  - replace b with (b - 32 + 32) at 3 by lia. rewrite Z.pow_add_r by lia. change (2 ^ 64) with (2 ^ 32 * 2 ^ 32). ring.
Qed.

Lemma ashldi3_eq a b : ashldi3 a b = to_s64 (Z.shiftl a (b mod 64)).
Proof.
  unfold ashldi3. rewrite land63. pose proof (Z.mod_pos_bound b 64 ltac:(lia)) as Hb.
  set (k := b mod 64) in *. destruct (word_ranges a) as [Hh Hl]. unfold s64.
  rewrite (Z.shiftl_mul_pow2 a k) by lia. apply to_s64_eqm.
  assert (Ha : wrap64 (a * 2 ^ k) = wrap64 ((hi (word_of a) * 2 ^ 32 + lo (word_of a)) * 2 ^ k)).
  { fold (u64 (word_of a)). rewrite u64_word_of. unfold wrap64. by rewrite Z.mul_mod_idemp_l by lia. }
  rewrite Ha. destruct (Z.leb_spec 32 k).
  - unfold u64. cbn [hi lo]. rewrite Z.add_0_r, (shl_high (hi (word_of a))) by lia. apply wrap64_wrap64.
  - destruct (Z.eqb_spec k 0) as [->|Hk]; simpl negb; cbv iota.
    + unfold u64. f_equal. lia.
    + unfold u64. cbn [hi lo]. rewrite shl_halves by lia. apply wrap64_wrap64.
Qed.

(** Shifting right: the bits that leave the high half enter the low one; [S] is
    the high half, signed or not. *)
Lemma shr_halves S l b : 0 <= l < 2 ^ 32 -> 0 <= b < 32 ->
  (S * 2 ^ 32 + l) / 2 ^ b = S / 2 ^ b * 2 ^ 32 + (S mod 2 ^ b * 2 ^ (32 - b) + l / 2 ^ b).
Proof.
  intros Hl Hb. pose proof (pow_split b ltac:(lia)) as Hpq.
  assert (Hp : 0 < 2 ^ b) by (apply Z.pow_pos_nonneg; lia).
  replace (S * 2 ^ 32 + l) with (l + S * 2 ^ (32 - b) * 2 ^ b) by (rewrite Hpq; ring).
  rewrite Z.div_add by lia. pose proof (Z.div_mod S (2 ^ b)). rewrite Hpq. nia.
Qed.

Lemma low_half S h l b : 0 <= l < 2 ^ 32 -> 0 < b < 32 -> S mod 2 ^ b = h mod 2 ^ b ->
  Z.lor (wrap32 (Z.shiftl h (32 - b))) (Z.shiftr l b) = S mod 2 ^ b * 2 ^ (32 - b) + l / 2 ^ b /\
  0 <= S mod 2 ^ b * 2 ^ (32 - b) + l / 2 ^ b < 2 ^ 32.
Proof.
  intros Hl Hb HS. pose proof (pow_split b ltac:(lia)) as Hpq.
  assert (Hp : 0 < 2 ^ b) by (apply Z.pow_pos_nonneg; lia).
  assert (Hq : 0 < 2 ^ (32 - b)) by (apply Z.pow_pos_nonneg; lia).
  rewrite Z.shiftl_mul_pow2, Z.shiftr_div_pow2 by lia. unfold wrap32.
  assert (Hm : (h * 2 ^ (32 - b)) mod 2 ^ 32 = S mod 2 ^ b * 2 ^ (32 - b))
    by (rewrite HS, Hpq, Z.mul_mod_distr_r by lia; done).
  assert (Hlt : 0 <= l / 2 ^ b < 2 ^ (32 - b))
    by (split; [apply Z.div_pos; lia|apply Z.div_lt_upper_bound; lia]).
  rewrite (lor_fields _ (S mod 2 ^ b) _ (32 - b)) by (rewrite ?Hm; lia). rewrite Hm.
  pose proof (Z.mod_pos_bound S (2 ^ b)). split; [done|]. nia.
Qed.

Lemma shr_high S l b : 0 <= l < 2 ^ 32 -> 32 <= b -> (S * 2 ^ 32 + l) / 2 ^ b = S / 2 ^ (b - 32).
Proof.
  intros Hl Hb. replace b with (32 + (b - 32)) at 1 by lia. rewrite Z.pow_add_r by lia.
  rewrite <- Z.div_div by (try apply Z.pow_pos_nonneg; lia).
  by rewrite Z.add_comm, Z.div_add, (Z.div_small l), Z.add_0_l by lia.
Qed.

Lemma lshrdi3_eq a b : lshrdi3 a b = Z.shiftr (wrap64 a) (b mod 64).
Proof.
  unfold lshrdi3. rewrite land63. pose proof (Z.mod_pos_bound b 64 ltac:(lia)) as Hb.
  set (k := b mod 64) in *. destruct (word_ranges a) as [Hh Hl].
  rewrite <- u64_word_of, (Z.shiftr_div_pow2 (u64 _)) by lia. unfold u64.
  destruct (Z.leb_spec 32 k).
  - cbn [hi lo]. rewrite Z.shiftr_div_pow2, shr_high by lia. lia.
  - destruct (Z.eqb_spec k 0) as [->|Hk]; cbn [negb]; [by rewrite Z.pow_0_r, Z.div_1_r|].
    cbn [hi lo]. destruct (low_half (hi (word_of a)) (hi (word_of a)) (lo (word_of a)) k) as [-> _]; [lia|lia|done|].
    rewrite Z.shiftr_div_pow2, shr_halves by lia. done.
Qed.

Lemma to_s32_mod x b : 0 <= b <= 32 -> to_s32 x mod 2 ^ b = wrap32 x mod 2 ^ b.
Proof.
  intros Hb. unfold to_s32. destruct (_ <? _); [done|].
  rewrite (pow_split b) by lia. replace (wrap32 x - 2 ^ b * 2 ^ (32 - b)) with (wrap32 x + - 2 ^ (32 - b) * 2 ^ b) by ring.
  apply Z.mod_add. pose proof (Z.pow_pos_nonneg 2 b). lia.
Qed.

(** A word read as a signed number, from the signed high half. *)
Lemma s64_halves a : to_s64 a = to_s32 (hi (word_of a)) * 2 ^ 32 + lo (word_of a).
Proof.
  destruct (word_ranges a) as [Hh Hl]. unfold to_s64, to_s32. rewrite <- u64_word_of. unfold u64.
  rewrite wrap32_small by done.
  destruct (Z.ltb_spec (hi (word_of a)) (2 ^ 31)), (Z.ltb_spec (hi (word_of a) * 2 ^ 32 + lo (word_of a)) (2 ^ 63)); lia.
Qed.

Lemma to_s32_range x : - 2 ^ 31 <= to_s32 x < 2 ^ 31.
Proof. unfold to_s32. pose proof (wrap32_range x). destruct (Z.ltb_spec (wrap32 x) (2 ^ 31)); lia. Qed.

Lemma wrap_halves X L : 0 <= L < 2 ^ 32 -> wrap64 (wrap32 X * 2 ^ 32 + L) = wrap64 (X * 2 ^ 32 + L).
Proof.
  intros HL. unfold wrap64, wrap32. change (2 ^ 64) with (2 ^ 32 * 2 ^ 32).
  rewrite <- Z.mul_mod_distr_r by lia. by rewrite Z.add_mod_idemp_l by lia.
Qed.

Lemma ashrdi3_eq a b : ashrdi3 a b = Z.shiftr (to_s64 a) (b mod 64).
Proof.
  unfold ashrdi3. rewrite land63. pose proof (Z.mod_pos_bound b 64 ltac:(lia)) as Hb.
  set (k := b mod 64) in *. destruct (word_ranges a) as [Hh Hl]. pose proof (to_s64_range a) as Hr.
  rewrite (Z.shiftr_div_pow2 (to_s64 a)) by lia.
  assert (Hk1 : 1 <= 2 ^ k) by (apply (Z.pow_le_mono_r 2 0); lia).
  rewrite <- (to_s64_small (to_s64 a / 2 ^ k))
    by (split; [apply Z.div_le_lower_bound|apply Z.div_lt_upper_bound]; nia).
  unfold s64. apply to_s64_eqm. rewrite s64_halves. pose proof (to_s32_range (hi (word_of a))) as HS.
  set (S := to_s32 (hi (word_of a))) in *. unfold u64. destruct (Z.leb_spec 32 k).
  - cbn [hi lo]. rewrite shr_high by lia. rewrite !Z.shiftr_div_pow2 by lia.
    assert (Hq : 1 <= 2 ^ (k - 32)) by (apply (Z.pow_le_mono_r 2 0); lia).
    assert (HX : - 2 ^ 31 <= S / 2 ^ (k - 32) < 2 ^ 31)
      by (split; [apply Z.div_le_lower_bound|apply Z.div_lt_upper_bound]; nia).
    assert (Hsign : S / 2 ^ 31 = if S / 2 ^ (k - 32) <? 0 then -1 else 0).
    { destruct (Z.ltb_spec (S / 2 ^ (k - 32)) 0) as [Hn|Hn].
      - symmetry. apply (Z.div_unique _ _ _ (S + 2 ^ 31)); [left|]; [|lia].
        assert (S < 0) by (apply Z.nle_gt; intros Hs; pose proof (Z.div_pos S (2 ^ (k - 32))); lia). lia.
      - apply Z.div_small. split; [|lia]. apply Z.nlt_ge. intros Hs.
        assert (S / 2 ^ (k - 32) < 0) by (apply Z.div_lt_upper_bound; lia). lia. }
    rewrite wrap_halves by apply wrap32_range. rewrite Hsign. unfold wrap32.
    destruct (Z.ltb_spec (S / 2 ^ (k - 32)) 0).
    + replace ((S / 2 ^ (k - 32)) mod 2 ^ 32) with (S / 2 ^ (k - 32) + 2 ^ 32) by (apply (Z.mod_unique _ _ (-1)); lia).
      f_equal. lia.
    + rewrite Z.mod_small by lia. f_equal. 
  - destruct (Z.eqb_spec k 0) as [->|Hk]; cbn [negb].
    + rewrite Z.pow_0_r, Z.div_1_r. fold S. unfold S. rewrite <- s64_halves, wrap64_to_s64.
      fold (u64 (word_of a)). by rewrite u64_word_of, wrap64_wrap64.
    + cbn [hi lo].
      destruct (low_half S (hi (word_of a)) (lo (word_of a)) k) as [-> HL]; [lia|lia| |].
      { unfold S. rewrite to_s32_mod by lia. by rewrite wrap32_small. }
      rewrite wrap_halves by done. rewrite Z.shiftr_div_pow2, <- shr_halves by lia. done.
Qed.

(** ** Counting zeros *)

Lemma land_high_mask w j x : 0 <= j <= w -> 0 <= x < 2 ^ w ->
  (Z.land x (2 ^ w - 2 ^ j) =? 0) = (x <? 2 ^ j).
Proof.
  intros Hj Hx. assert (Hp : 0 < 2 ^ j) by (apply Z.pow_pos_nonneg; lia).
  assert (Hs : Z.land x (2 ^ w - 2 ^ j) = x / 2 ^ j * 2 ^ j).
  { replace (2 ^ w - 2 ^ j) with (Z.shiftl (Z.ones (w - j)) j).
    - rewrite <- Z.shiftr_div_pow2, <- Z.shiftl_mul_pow2 by lia.
      apply Z.bits_inj'. intros n Hn. rewrite Z.land_spec, !Z.shiftl_spec by lia.
      destruct (Z.lt_ge_cases n j).
      { rewrite !(Z.testbit_neg_r _ (n - j)) by lia. apply andb_false_r. }
      rewrite Z.shiftr_spec by lia. replace (n - j + j) with n by lia.
      destruct (Z.lt_ge_cases n w); [rewrite Z.ones_spec_low by lia; apply andb_true_r|].
      rewrite Z.ones_spec_high, andb_false_r by lia.
      by rewrite <- (Z.mod_small x (2 ^ w)), Z.mod_pow2_bits_high by lia.
    - rewrite Z.shiftl_mul_pow2, Z.ones_equiv by lia. replace (2 ^ w) with (2 ^ (w - j) * 2 ^ j); [lia|].
      rewrite <- Z.pow_add_r by lia. f_equal. lia. }
  rewrite Hs. destruct (Z.ltb_spec x (2 ^ j)).
  - by rewrite Z.div_small by lia.
  - apply Z.eqb_neq. assert (1 <= x / 2 ^ j) by (apply Z.div_le_lower_bound; lia). nia.
Qed.

(** A line of the search keeps [x = a * 2 ^ n] and halves the room above. *)
Definition clz_inv (w a s : Z) (na : Z * Z) : Prop :=
  0 <= fst na /\ snd na = a * 2 ^ fst na /\ 2 ^ (w - s) <= snd na < 2 ^ w.

Lemma clz_step_inv w a s k m na :
  0 <= k -> s = 2 ^ k -> 2 * s <= w -> m = 2 ^ w - 2 ^ (w - s) ->
  clz_inv w a (2 * s) na -> clz_inv w a s (clz_step w m k na).
Proof.
  intros Hk -> Hw -> (Hn & Hx & Hlo & Hhi). unfold clz_step, none.
  assert (Hs : 0 < 2 ^ k) by (apply Z.pow_pos_nonneg; lia).
  assert (0 <= 2 ^ (w - 2 * 2 ^ k)) by (apply Z.pow_nonneg; lia).
  rewrite land_high_mask by lia. set (x := snd na) in *.
  destruct (Z.ltb_spec x (2 ^ (w - 2 ^ k))); simpl Z.b2z.
  - rewrite (Z.shiftl_mul_pow2 1), Z.mul_1_l by lia. rewrite (Z.shiftl_mul_pow2 x) by lia.
    assert (Hw1 : 2 ^ w = 2 ^ (w - 2 ^ k) * 2 ^ 2 ^ k) by (rewrite <- Z.pow_add_r by lia; f_equal; lia).
    assert (Hw2 : 2 ^ (w - 2 ^ k) = 2 ^ (w - 2 * 2 ^ k) * 2 ^ 2 ^ k) by (rewrite <- Z.pow_add_r by lia; f_equal; lia).
    assert (0 < 2 ^ 2 ^ k) by (apply Z.pow_pos_nonneg; lia).
    rewrite Z.mod_small by nia. split; [simpl; lia|]. simpl. split; [|nia].
    rewrite Hx, Z.pow_add_r by lia. ring.
  - rewrite Z.shiftl_0_l, Z.shiftl_0_r, Z.mod_small by lia. split; simpl; rewrite ?Z.add_0_r; auto.
Qed.

(** The last line. *)
Lemma clz_last w a na m : 1 <= w -> 0 < a -> m = 2 ^ w - 2 ^ (w - 1) -> clz_inv w a 2 na ->
  fst na + Z.b2z (Z.land (snd na) m =? 0) = w - 1 - Z.log2 a.
Proof.
  intros Hw Ha -> (Hn & Hx & Hlo & Hhi).
  assert (0 <= 2 ^ (w - 2)) by (apply Z.pow_nonneg; lia). rewrite land_high_mask by lia.
  assert (Hl : Z.log2 (snd na) = fst na + Z.log2 a).
  { rewrite Hx. rewrite Z.log2_mul_pow2 by lia. lia. }
  assert (0 < snd na) by (rewrite Hx; apply Z.mul_pos_pos; [lia|apply Z.pow_pos_nonneg; lia]).
  destruct (Z.ltb_spec (snd na) (2 ^ (w - 1))) as [Hlt|Hge]; simpl Z.b2z.
  - assert (Z.log2 (snd na) = w - 2); [|lia].
    apply Z.le_antisymm; [|by apply Z.log2_le_pow2].
    apply Z.lt_succ_r. replace (Z.succ (w - 2)) with (w - 1) by lia. by apply Z.log2_lt_pow2.
  - assert (Z.log2 (snd na) = w - 1); [|lia].
    apply Z.le_antisymm; [|by apply Z.log2_le_pow2].
    apply Z.lt_succ_r. replace (Z.succ (w - 1)) with w by lia. by apply Z.log2_lt_pow2.
Qed.

Lemma clz_start w a : 0 < a < 2 ^ w -> clz_inv w a w (0, a).
Proof. intros Ha. split; [simpl; lia|]. simpl. rewrite Z.sub_diag. lia. Qed.

(** Step [k] of the search, with [s = 2 ^ k]. *)
Ltac clz_line w a s k :=
  apply (clz_step_inv w a s k); [lia|reflexivity|lia|reflexivity|];
  let t := eval compute in (2 * s) in change (2 * s) with t.

Lemma clzsi2_eq a : 0 < a < 2 ^ 32 -> clzsi2 a = 31 - Z.log2 a.
Proof.
  intros Ha. unfold clzsi2. rewrite (clz_last 32 a); [done|lia|lia|reflexivity|].
  clz_line 32 a 2 1. clz_line 32 a 4 2. clz_line 32 a 8 3. clz_line 32 a 16 4. by apply clz_start.
Qed.

Lemma clzdi2_eq a : 0 < a < 2 ^ 64 -> clzdi2 a = 63 - Z.log2 a.
Proof.
  intros Ha. unfold clzdi2. rewrite (clz_last 64 a); [done|lia|lia|reflexivity|].
  clz_line 64 a 2 1. clz_line 64 a 4 2. clz_line 64 a 8 3. clz_line 64 a 16 4. clz_line 64 a 32 5.
  by apply clz_start.
Qed.

(** Trailing zeros: [a = x * 2 ^ n] and the low [s] bits of [x] are not all
    clear. *)
Definition ctz_inv (a s : Z) (na : Z * Z) : Prop :=
  0 <= fst na /\ 0 <= snd na /\ a = snd na * 2 ^ fst na /\ snd na mod 2 ^ s <> 0.

Lemma ctz_step_inv a s k m na :
  0 <= k -> s = 2 ^ k -> m = Z.ones s -> ctz_inv a (2 * s) na -> ctz_inv a s (ctz_step m k na).
Proof.
  intros Hk -> -> (Hn & Hp & Hx & Hnz). unfold ctz_step, none.
  assert (Hs : 0 < 2 ^ k) by (apply Z.pow_pos_nonneg; lia).
  rewrite Z.land_ones by lia. set (x := snd na) in *.
  destruct (Z.eqb_spec (x mod 2 ^ 2 ^ k) 0) as [Hz|Hnz2]; simpl Z.b2z.
  - rewrite (Z.shiftl_mul_pow2 1), Z.mul_1_l by lia. rewrite Z.shiftr_div_pow2 by lia.
    assert (Hq : 0 < 2 ^ 2 ^ k) by (apply Z.pow_pos_nonneg; lia).
    pose proof (Z.div_mod x (2 ^ 2 ^ k)) as Hd. split; [simpl; lia|]. simpl.
    split; [apply Z.div_pos; lia|]. split; [rewrite Hx, Z.pow_add_r by lia; nia|].
    intros E. apply Hnz. replace (2 * 2 ^ k) with (2 ^ k + 2 ^ k) by lia. rewrite Z.pow_add_r by lia.
    rewrite Z.rem_mul_r by lia. rewrite Hz, E. lia.
  - rewrite Z.shiftl_0_l, Z.shiftr_0_r. split; simpl; rewrite ?Z.add_0_r; auto.
Qed.

Lemma ctz_last a na : ctz_inv a 2 na ->
  let n := fst na + Z.b2z (Z.land (snd na) 1 =? 0) in
  0 <= n /\ exists x, a = x * 2 ^ n /\ Z.odd x = true.
Proof.
  intros (Hn & Hp & Hx & Hnz). change (Z.land (snd na) 1) with (Z.land (snd na) (Z.ones 1)).
  rewrite Z.land_ones by lia. change (2 ^ 1) with 2. cbv zeta. rewrite Zmod_odd.
  destruct (Z.odd (snd na)) eqn:Ho; simpl Z.b2z.
  - rewrite Z.add_0_r. eauto.
  - split; [lia|]. exists (snd na / 2). pose proof (Z.div_mod (snd na) 2) as Hd. rewrite Zmod_odd, Ho in Hd.
    split; [rewrite Hx, Z.pow_add_r by lia; lia|].
    destruct (Z.odd (snd na / 2)) eqn:Ho2; [done|]. exfalso. apply Hnz. change (2 ^ 2) with (2 * 2).
    rewrite Z.rem_mul_r by lia. rewrite !Zmod_odd, Ho, Ho2. done.
Qed.

Ltac ctz_line a s k :=
  apply (ctz_step_inv a s k); [lia|reflexivity|reflexivity|];
  let t := eval compute in (2 * s) in change (2 * s) with t.

Lemma ctz_start w a : 0 < a < 2 ^ w -> ctz_inv a w (0, a).
Proof. intros Ha. split; [simpl; lia|]. simpl. split; [lia|]. split; [lia|]. rewrite Z.mod_small by lia. lia. Qed.

Lemma ctzsi2_eq a : 0 < a < 2 ^ 32 -> 0 <= ctzsi2 a /\ exists x, a = x * 2 ^ ctzsi2 a /\ Z.odd x = true.
Proof.
  intros Ha. unfold ctzsi2. apply ctz_last.
  ctz_line a 2 1. ctz_line a 4 2. ctz_line a 8 3. ctz_line a 16 4. by apply ctz_start.
Qed.

Lemma ctzdi2_eq a : 0 < a < 2 ^ 64 -> 0 <= ctzdi2 a /\ exists x, a = x * 2 ^ ctzdi2 a /\ Z.odd x = true.
Proof.
  intros Ha. unfold ctzdi2. apply ctz_last.
  ctz_line a 2 1. ctz_line a 4 2. ctz_line a 8 3. ctz_line a 16 4. ctz_line a 32 5. by apply ctz_start.
Qed.

(** ** Long division *)

(** After [i] of [N] iterations: [q] is the quotient of the leading bits, all
    but its last bit are in [areg] below the bits still to come, the last one
    in [wrap]. *)
Definition div_inv (A b N i : Z) (st : Z * Z * Z) : Prop :=
  let '(rem, areg, wrap) := st in
  exists q, A / 2 ^ (N - i) = q * b + rem /\ 0 <= rem < b /\ 0 <= q < 2 ^ i /\
    areg = A mod 2 ^ (N - i) * 2 ^ (64 - N + i) + q / 2 /\ wrap = (if Z.odd q then 2 ^ 64 - 1 else 0).

Lemma wrap_low q : Z.land (if Z.odd q then 2 ^ 64 - 1 else 0) 1 = q mod 2.
Proof. rewrite Zmod_odd. by destruct (Z.odd q). Qed.

Lemma sign_mask x : - 2 ^ 63 <= x < 2 ^ 63 ->
  wrap64 (Z.shiftr (to_s64 x) 63) = if x <? 0 then 2 ^ 64 - 1 else 0.
Proof.
  intros Hx. rewrite to_s64_small by done. rewrite Z.shiftr_div_pow2 by lia.
  destruct (Z.ltb_spec x 0).
  - replace (x / 2 ^ 63) with (-1) by (apply (Z.div_unique _ _ _ (x + 2 ^ 63)); lia). reflexivity.
  - rewrite Z.div_small by lia. reflexivity.
Qed.

Lemma div_step_inv A b N i st :
  0 < b < 2 ^ 64 -> b <= A < 2 ^ 64 -> 0 <= i < N -> N <= 64 -> (2 ^ 63 < b -> N = 1) ->
  div_inv A b N i st -> div_inv A b N (i + 1) (div_step b st).
Proof.
  intros Hb HA Hi HN Hbig. destruct st as [[rem areg] wrap]. intros (q & Hq & Hrem & Hq2 & Ha & Hw).
  set (j := N - i - 1) in *. replace (N - i) with (j + 1) in * by lia.
  assert (Hj : 0 <= j) by lia. assert (Hpj : 0 < 2 ^ j) by (apply Z.pow_pos_nonneg; lia).
  assert (Hpj1 : 2 ^ (j + 1) = 2 * 2 ^ j) by (rewrite Z.pow_add_r by lia; lia).
  set (h := 2 ^ (64 - N + i)) in *. assert (Hh : 0 < h) by (apply Z.pow_pos_nonneg; lia).
  assert (H63 : 2 ^ j * h = 2 ^ 63) by (unfold h; rewrite <- Z.pow_add_r by lia; f_equal; lia).
  (* the next bit of the numerator *)
  set (bit := (A / 2 ^ j) mod 2). assert (Hbit : 0 <= bit < 2) by (apply Z.mod_pos_bound; lia).
  assert (HAj : A / 2 ^ j = 2 * (A / 2 ^ (j + 1)) + bit).
  { replace (2 ^ (j + 1)) with (2 ^ j * 2) by lia. rewrite <- Z.div_div by lia. apply Z.div_mod. lia. }
  assert (HAm : A mod 2 ^ (j + 1) = A mod 2 ^ j + 2 ^ j * bit).
  { replace (2 ^ (j + 1)) with (2 ^ j * 2) by lia. apply Z.rem_mul_r; lia. }
  assert (Hmj : 0 <= A mod 2 ^ j < 2 ^ j) by (apply Z.mod_pos_bound; lia).
  assert (Hqh : 0 <= q / 2 < h).
  { split; [apply Z.div_pos; lia|]. apply Z.div_lt_upper_bound; [lia|].
    assert (2 ^ i <= h) by (apply Z.pow_le_mono_r; lia). lia. }
  set (low := A mod 2 ^ j * h + q / 2). assert (Hlow : 0 <= low < 2 ^ 63) by (unfold low; nia).
  assert (Har : areg = bit * 2 ^ 63 + low) by (rewrite Ha, HAm; unfold low; nia).
  set (r1 := 2 * rem + bit).
  assert (Hr1 : A / 2 ^ j = 2 * q * b + r1) by (rewrite HAj, Hq; unfold r1; lia).
  assert (Hr1A : 0 <= r1 <= A).
  { split; [unfold r1; lia|]. assert (A / 2 ^ j <= A) by (apply Z.div_le_upper_bound; nia). nia. }
  assert (E1 : wrap64 (Z.lor (wrap64 (Z.shiftl rem 1)) (Z.shiftr areg 63)) = r1).
  { rewrite Z.shiftl_mul_pow2, Z.shiftr_div_pow2 by lia.
    replace (areg / 2 ^ 63) with bit by (rewrite Har, Z.div_add_l, (Z.div_small low) by lia; lia).
    unfold r1 in *. rewrite (wrap64_small (rem * 2 ^ 1)) by lia.
    rewrite (lor_fields _ rem _ 1) by lia.
    replace (rem * 2 ^ 1 + bit) with (2 * rem + bit) by lia. apply wrap64_small. lia. }
  assert (E2 : Z.lor (wrap64 (Z.shiftl areg 1)) (Z.land wrap 1) = A mod 2 ^ j * (2 * h) + q).
  { rewrite Hw, wrap_low, Z.shiftl_mul_pow2 by lia. unfold wrap64.
    replace ((areg * 2 ^ 1) mod 2 ^ 64) with (low * 2) by (apply (Z.mod_unique _ _ bit); lia).
    rewrite (lor_fields _ low _ 1) by (try apply Z.mod_pos_bound; lia).
    unfold low. pose proof (Z.div_mod q 2). lia. }
  assert (Hs : - 2 ^ 63 <= b - r1 - 1 < 2 ^ 63).
  { destruct (Z.le_gt_cases b (2 ^ 63)); [unfold r1 in *; lia|].
    assert (j = 0) as Hj0 by (unfold j; lia). rewrite Hj0, Z.pow_0_r, Z.div_1_r in Hr1.
    assert (i = 0) as Hi0 by lia. rewrite Hi0 in Hq2. assert (q = 0) by lia. subst q. lia. }
  assert (E3 : wrap64 (Z.shiftr (to_s64 (b - r1 - 1)) 63) = if b <=? r1 then 2 ^ 64 - 1 else 0).
  { rewrite sign_mask by done. destruct (Z.ltb_spec (b - r1 - 1) 0), (Z.leb_spec b r1); lia. }
  unfold div_step. rewrite E1, E2, E3. exists (2 * q + (if b <=? r1 then 1 else 0)).
  replace (N - (i + 1)) with j by lia. replace (64 - N + (i + 1)) with (64 - N + i + 1) by lia.
  rewrite (Z.pow_add_r 2 (64 - N + i)), (Z.pow_add_r 2 i) by lia. fold h. change (2 ^ 1) with 2.
  destruct (Z.leb_spec b r1).
  - replace (Z.land b (2 ^ 64 - 1)) with b
      by (change (2 ^ 64 - 1) with (Z.ones 64); rewrite Z.land_ones, Z.mod_small by lia; done).
    rewrite wrap64_small by (unfold r1 in *; lia).
    rewrite (Z.mul_comm 2 q), Z.div_add_l, Z.odd_add, Z.odd_mul, andb_false_r by lia. change (1 / 2) with 0.
    split; [lia|]. split; [unfold r1 in *; lia|]. split; [lia|]. split; [lia|done].
  - rewrite Z.land_0_r, Z.sub_0_r, wrap64_small by lia.
    rewrite Z.add_0_r, (Z.mul_comm 2 q), Z.div_mul, Z.odd_mul by lia. rewrite andb_false_r.
    split; [lia|]. split; [unfold r1 in *; lia|]. split; [lia|]. split; [lia|done].
Qed.

Lemma div_loop A b N : 0 < b < 2 ^ 64 -> b <= A < 2 ^ 64 -> 0 <= N <= 64 -> (2 ^ 63 < b -> N = 1) ->
  A / 2 ^ N < b ->
  div_inv A b N N (Nat.iter (Z.to_nat N) (div_step b) (Z.shiftr A N, wrap64 (Z.shiftl A (64 - N)), 0)).
Proof.
  intros Hb HA HN Hbig Hlt.
  assert (Hn : forall n, (n <= Z.to_nat N)%nat ->
    div_inv A b N (Z.of_nat n) (Nat.iter n (div_step b) (Z.shiftr A N, wrap64 (Z.shiftl A (64 - N)), 0))).
  { induction n as [|n IH]; intros Hle.
    - exists 0. rewrite Z.sub_0_r, Z.shiftr_div_pow2, Z.shiftl_mul_pow2 by lia.
      assert (0 < 2 ^ N) by (apply Z.pow_pos_nonneg; lia).
      split; [lia|]. split; [split; [apply Z.div_pos; lia|done]|]. split; [simpl; lia|]. split; [|done].
      change (0 / 2) with 0. rewrite !Z.add_0_r. unfold wrap64.
      replace (2 ^ 64) with (2 ^ N * 2 ^ (64 - N)) by (rewrite <- Z.pow_add_r by lia; f_equal; lia).
      apply Z.mul_mod_distr_r; [lia|]. apply Z.pow_nonzero; lia.
    - rewrite Nat.iter_succ, Nat2Z.inj_succ. apply div_step_inv; try lia. apply IH. lia. }
  specialize (Hn (Z.to_nat N) ltac:(lia)). by rewrite Z2Nat.id in Hn by lia.
Qed.

(** The number of iterations is right for the loop. *)
Lemma div_bits a b : 0 < b <= a -> a < 2 ^ 64 -> b < 2 ^ 64 ->
  let N := clzdi2 b - clzdi2 a + 1 in
  1 <= N <= 64 /\ (2 ^ 63 < b -> N = 1) /\ a / 2 ^ N < b.
Proof.
  intros Hb Ha Hb64. cbv zeta. rewrite !clzdi2_eq by lia.
  assert (Hla : Z.log2 a < 64) by (apply Z.log2_lt_pow2; lia).
  assert (Hle : Z.log2 b <= Z.log2 a) by (apply Z.log2_le_mono; lia).
  pose proof (Z.log2_nonneg b). replace (63 - Z.log2 b - (63 - Z.log2 a) + 1) with (Z.log2 a - Z.log2 b + 1) by lia.
  split; [lia|]. split.
  - intros Hbig. assert (63 <= Z.log2 b) by (apply Z.log2_le_pow2; lia). lia.
  - apply Z.div_lt_upper_bound; [apply Z.pow_pos_nonneg; lia|].
    destruct (Z.log2_spec b) as [Hb1 _]; [lia|]. destruct (Z.log2_spec a) as [_ Ha2]; [lia|].
    assert (2 ^ Z.succ (Z.log2 a) = 2 ^ (Z.log2 a - Z.log2 b + 1) * 2 ^ Z.log2 b)
      by (rewrite <- Z.pow_add_r by lia; f_equal; lia).
    assert (0 < 2 ^ (Z.log2 a - Z.log2 b + 1)) by (apply Z.pow_pos_nonneg; lia). nia.
Qed.

Lemma divmoddi4_eq a b : is_u64 a -> is_u64 b ->
  divmoddi4 a b = if b =? 0 then None else Some (a / b, a mod b).
Proof.
  unfold is_u64. intros Ha Hb. unfold divmoddi4. destruct (Z.ltb_spec a b) as [Hlt|Hge].
  { rewrite (proj2 (Z.eqb_neq b 0)), Z.div_small, Z.mod_small by lia. done. }
  unfold arith64_hi, arith64_lo. rewrite !word_of_hi, !word_of_lo, !wrap64_small by done.
  destruct (Z.eqb_spec b 0) as [->|Hb0]; [done|]. rewrite andb_false_r.
  destruct (Z.eqb_spec b 1) as [->|Hb1].
  { change (1 / 2 ^ 32 =? 0) with true. cbn [andb]. by rewrite Z.div_1_r, Z.mod_1_r. } rewrite andb_false_r.
  destruct ((b / 2 ^ 32 =? 0) && (a / 2 ^ 32 =? 0)) eqn:Hs.
  { apply andb_true_iff in Hs as [Hb32%Z.eqb_eq Ha32%Z.eqb_eq].
    pose proof (Z.div_mod a (2 ^ 32)). pose proof (Z.div_mod b (2 ^ 32)).
    rewrite !(Z.mod_small _ (2 ^ 32)) by (pose proof (Z.mod_pos_bound a (2 ^ 32)); pose proof (Z.mod_pos_bound b (2 ^ 32)); lia).
    done. }
  destruct (div_bits a b) as (HN & Hbig & Hlt); [lia|lia|lia|]. set (N := clzdi2 b - clzdi2 a + 1) in *.
  pose proof (div_loop a b N ltac:(lia) ltac:(lia) ltac:(lia) Hbig Hlt) as H. cbv zeta.
  destruct (Nat.iter _ _ _) as [[rem areg] wrap]. destruct H as (q & Hq & Hrem & Hq2 & -> & ->).
  rewrite Z.sub_diag in *. rewrite Z.pow_0_r, Z.div_1_r in Hq. rewrite Z.pow_0_r, Z.mod_1_r, Z.mul_0_l, Z.add_0_l.
  assert (Hq64 : q < 2 ^ 64) by (assert (2 ^ N <= 2 ^ 64) by (apply Z.pow_le_mono_r; lia); lia).
  rewrite wrap_low, Z.shiftl_mul_pow2 by lia. pose proof (Z.div_mod q 2) as Hd.
  pose proof (Z.mod_pos_bound q 2) as Hm. rewrite wrap64_small by lia.
  rewrite (lor_fields _ (q / 2) _ 1) by lia.
  rewrite <- (Z.div_unique a b q rem), <- (Z.mod_unique a b q rem) by lia. do 2 f_equal. lia.
Qed.

(** ** Signs *)

Lemma lxor_ones64 a : is_u64 a -> Z.lxor a (2 ^ 64 - 1) = 2 ^ 64 - 1 - a.
Proof.
  unfold is_u64. intros Ha. change (2 ^ 64 - 1) with (Z.ones 64).
  assert (Hhigh : forall n, 64 <= n -> Z.testbit a n = false).
  { intros n Hn. rewrite <- (Z.mod_small a (2 ^ 64)) by lia. apply Z.mod_pow2_bits_high. lia. }
  rewrite Z.sub_nocarry_ldiff.
  - apply Z.bits_inj'. intros n Hn. rewrite Z.lxor_spec, Z.ldiff_spec. destruct (Z.lt_ge_cases n 64).
    + rewrite Z.ones_spec_low by lia. by destruct (Z.testbit a n).
    + rewrite Z.ones_spec_high, Hhigh by lia. done.
  - rewrite Z.ldiff_ones_r by lia. rewrite Z.shiftr_div_pow2, Z.div_small by lia. done.
Qed.

Lemma arith64_neg_eq a b : is_u64 a -> arith64_neg a b = if to_s64 b <? 0 then wrap64 (- a) else a.
Proof.
  intros Ha. unfold arith64_neg. destruct (Z.ltb_spec (to_s64 b) 0) as [Hn|Hp].
  - rewrite (proj2 (Z.leb_gt 0 (to_s64 b))) by lia. simpl Z.b2z.
    change (wrap64 (0 - 1)) with (2 ^ 64 - 1). rewrite lxor_ones64 by done. unfold wrap64.
    replace (2 ^ 64 - 1 - a + 1) with (- a + 1 * 2 ^ 64) by lia. by apply Z.mod_add.
  - rewrite (proj2 (Z.leb_le 0 (to_s64 b))) by lia. simpl Z.b2z. change (wrap64 (1 - 1)) with 0.
    rewrite Z.lxor_0_r, Z.add_0_r. by apply wrap64_small.
Qed.

Lemma arith64_abs_eq a : - 2 ^ 63 <= a < 2 ^ 63 -> arith64_abs a = Z.abs a.
Proof.
  intros Ha. unfold arith64_abs. rewrite arith64_neg_eq by apply wrap64_range.
  rewrite to_s64_small by done. destruct (Z.ltb_spec a 0).
  - rewrite Z.abs_neq by lia. unfold wrap64.
    replace (a mod 2 ^ 64) with (a + 2 ^ 64) by (apply (Z.mod_unique _ _ (-1)); lia).
    replace (- (a + 2 ^ 64)) with (- a + (-1) * 2 ^ 64) by lia. rewrite Z.mod_add by lia. apply Z.mod_small. lia.
  - rewrite Z.abs_eq by lia. apply wrap64_small. lia.
Qed.

Lemma lxor_sign a b : - 2 ^ 63 <= a < 2 ^ 63 -> - 2 ^ 63 <= b < 2 ^ 63 ->
  (to_s64 (Z.lxor a b) <? 0) = xorb (a <? 0) (b <? 0).
Proof.
  intros Ha Hb.
  assert (Hs : forall x, - 2 ^ 63 <= x < 2 ^ 63 <-> Z.shiftr x 63 = (if x <? 0 then -1 else 0)).
  { intros x. rewrite Z.shiftr_div_pow2 by lia. pose proof (Z.div_mod x (2 ^ 63)) as Hd.
    pose proof (Z.mod_pos_bound x (2 ^ 63)) as Hm. destruct (Z.ltb_spec x 0); split; intros HH; lia. }
  pose proof (proj1 (Hs a) Ha) as Ea. pose proof (proj1 (Hs b) Hb) as Eb.
  assert (Hsgn : (Z.lxor a b <? 0) = xorb (a <? 0) (b <? 0)).
  { pose proof (Z.lxor_nonneg a b).
    destruct (Z.ltb_spec a 0), (Z.ltb_spec b 0), (Z.ltb_spec (Z.lxor a b) 0); simpl; try done; lia. }
  assert (Hr : - 2 ^ 63 <= Z.lxor a b < 2 ^ 63).
  { apply Hs. rewrite Z.shiftr_lxor, Ea, Eb, Hsgn. by destruct (a <? 0), (b <? 0). }
  by rewrite to_s64_small.
Qed.

Lemma divdi3_eq a b : - 2 ^ 63 <= a < 2 ^ 63 -> - 2 ^ 63 <= b < 2 ^ 63 ->
  divdi3 a b = if b =? 0 then None else Some (to_s64 (Z.quot a b)).
Proof.
  intros Ha Hb. unfold divdi3. rewrite !arith64_abs_eq by done.
  rewrite divmoddi4_eq by (unfold is_u64; lia).
  destruct (Z.eqb_spec b 0) as [->|Hb0]; [done|]. rewrite (proj2 (Z.eqb_neq (Z.abs b) 0)) by lia.
  assert (Hq : is_u64 (Z.abs a / Z.abs b)).
  { split; [apply Z.div_pos; lia|]. apply Z.div_lt_upper_bound; nia. }
  rewrite arith64_neg_eq, lxor_sign by done. f_equal. apply to_s64_eqm.
  assert (Hz : Z.quot a b = if xorb (a <? 0) (b <? 0) then - (Z.abs a / Z.abs b) else Z.abs a / Z.abs b).
  { rewrite Z.quot_div by lia.
    destruct (Z.ltb_spec a 0), (Z.ltb_spec b 0); simpl xorb; cbv iota;
      rewrite ?(Z.sgn_neg a), ?(Z.sgn_neg b), ?(Z.sgn_pos b) by lia; try lia;
      (destruct (Z.eq_dec a 0) as [->|]; [rewrite Z.abs_0, Z.div_0_l by lia; lia|rewrite (Z.sgn_pos a) by lia; lia]). }
  rewrite Hz. destruct (xorb _ _); [apply wrap64_wrap64|done].
Qed.

Lemma moddi3_eq a b : - 2 ^ 63 <= a < 2 ^ 63 -> - 2 ^ 63 <= b < 2 ^ 63 ->
  moddi3 a b = if b =? 0 then None else Some (Z.rem a b).
Proof.
  intros Ha Hb. unfold moddi3. rewrite !arith64_abs_eq by done.
  rewrite divmoddi4_eq by (unfold is_u64; lia).
  destruct (Z.eqb_spec b 0) as [->|Hb0]; [done|]. rewrite (proj2 (Z.eqb_neq (Z.abs b) 0)) by lia.
  pose proof (Z.mod_pos_bound (Z.abs a) (Z.abs b) ltac:(lia)) as Hm.
  rewrite arith64_neg_eq by (unfold is_u64; lia). f_equal. rewrite Z.rem_mod, (to_s64_small a) by lia.
  destruct (Z.ltb_spec a 0).
  - rewrite (Z.sgn_neg a), to_s64_wrap by lia. rewrite to_s64_small; lia.
  - rewrite to_s64_small by lia. destruct (Z.eq_dec a 0) as [->|]; [by rewrite Z.abs_0, Z.mod_0_l by lia|].
    rewrite (Z.sgn_pos a) by lia. lia.
Qed.

(** ** Counting set bits

    A word is a list of nibbles; the first two steps of the count work inside
    every nibble, the third adds neighbours. *)
Fixpoint pack (l : list Z) : Z :=
  match l with [] => 0 | d :: l => d + 2 ^ 4 * pack l end.
Fixpoint nibbles (k : nat) (a : Z) : list Z :=
  match k with O => [] | S k => a mod 2 ^ 4 :: nibbles k (a / 2 ^ 4) end.
Definition list_sum_Z (l : list Z) : Z := fold_right Z.add 0 l.
(** The number of set bits among the low [k]. *)
Fixpoint ones_count (k : nat) (a : Z) : Z :=
  match k with O => 0 | S k => Z.b2z (Z.odd a) + ones_count k (a / 2) end.

Definition nibble (d : Z) : Prop := 0 <= d < 2 ^ 4.

Lemma pack_nibbles k : forall a, 0 <= a < 2 ^ (4 * Z.of_nat k) -> pack (nibbles k a) = a.
Proof.
  induction k as [|k IH]; intros a Ha; cbn [nibbles pack].
  - change (2 ^ (4 * Z.of_nat 0)) with 1 in Ha. lia.
  - replace (4 * Z.of_nat (S k)) with (4 + 4 * Z.of_nat k) in Ha by lia. rewrite Z.pow_add_r in Ha by lia.
    rewrite IH by (split; [apply Z.div_pos; lia|apply Z.div_lt_upper_bound; lia]).
    pose proof (Z.div_mod a (2 ^ 4)). lia.
Qed.

Lemma nibbles_ok k : forall a, Forall nibble (nibbles k a).
Proof.
  induction k as [|k IH]; intros a; cbn [nibbles]; constructor; auto. by apply Z.mod_pos_bound.
Qed.

Lemma testbit_nibble d r n : nibble d -> 0 <= n ->
  Z.testbit (d + 2 ^ 4 * r) n = if n <? 4 then Z.testbit d n else Z.testbit r (n - 4).
Proof.
  unfold nibble. intros Hd Hn. destruct (Z.ltb_spec n 4).
  - rewrite <- (Z.mod_pow2_bits_low _ 4) by lia.
    by rewrite (Z.mul_comm (2 ^ 4)), Z.mod_add, Z.mod_small by lia.
  - replace n with (n - 4 + 4) at 1 by lia. rewrite <- Z.div_pow2_bits by lia.
    by rewrite (Z.mul_comm (2 ^ 4)), Z.div_add, Z.div_small by lia.
Qed.

Lemma land_nibble d r m s k : nibble d -> 0 <= k <= 4 -> 0 <= m < 2 ^ (4 - k) ->
  Z.land (Z.shiftr (d + 2 ^ 4 * r) k) (m + 2 ^ 4 * s)
  = Z.land (Z.shiftr d k) m + 2 ^ 4 * Z.land (Z.shiftr r k) s.
Proof.
  intros Hd Hk Hm. assert (Hle : 2 ^ (4 - k) <= 2 ^ 4) by (apply Z.pow_le_mono_r; lia).
  assert (Hz : forall n, 4 <= n + k -> Z.testbit m n = false).
  { intros n Hn. rewrite <- (Z.mod_small m (2 ^ (4 - k))) by lia. apply Z.mod_pow2_bits_high. lia. }
  assert (Hl : nibble (Z.land (Z.shiftr d k) m)).
  { assert (0 <= m) by lia. split; [apply Z.land_nonneg; lia|].
    pose proof (Z.mod_pos_bound (Z.land (Z.shiftr d k) m) (2 ^ 4)) as Hb.
    rewrite <- Z.land_ones in Hb by lia. rewrite <- Z.land_assoc, Z.land_ones, (Z.mod_small m) in Hb by lia. lia. }
  apply Z.bits_inj'. intros n Hn. rewrite Z.land_spec, Z.shiftr_spec, !testbit_nibble by (done || unfold nibble; lia).
  destruct (Z.ltb_spec n 4).
  - rewrite Z.land_spec, Z.shiftr_spec by lia. destruct (Z.ltb_spec (n + k) 4); [done|].
    by rewrite Hz, !andb_false_r by lia.
  - destruct (Z.ltb_spec (n + k) 4); [lia|]. rewrite Z.land_spec, Z.shiftr_spec by lia. do 2 f_equal; lia.
Qed.

Lemma land_nibble_0 d r m s : nibble d -> nibble m ->
  Z.land (d + 2 ^ 4 * r) (m + 2 ^ 4 * s) = Z.land d m + 2 ^ 4 * Z.land r s.
Proof.
  intros Hd Hm. pose proof (land_nibble d r m s 0 Hd ltac:(lia) Hm) as H. by rewrite !Z.shiftr_0_r in H.
Qed.

Lemma land_pack k m l : Forall nibble l -> 0 <= k <= 4 -> 0 <= m < 2 ^ (4 - k) ->
  Z.land (Z.shiftr (pack l) k) (pack (map (fun _ => m) l)) = pack (map (fun d => Z.land (Z.shiftr d k) m) l).
Proof.
  intros Hl Hk Hm. induction Hl as [|d l Hd Hl IH]; cbn [map pack].
  - apply Z.land_0_r.
  - by rewrite land_nibble, IH.
Qed.

(** The last mask keeps every other nibble. *)
Fixpoint alternate (l : list Z) : list Z :=
  match l with d :: _ :: l => d :: 0 :: alternate l | _ => l end.
Lemma land_alternate n : forall l, length l = (2 * n)%nat -> Forall nibble l ->
  Z.land (pack l) (pack (alternate (map (fun _ => 15) l))) = pack (alternate l).
Proof.
  induction n as [|n IH]; intros l Hlen Hl; [by destruct l|].
  destruct l as [|d [|e l]]; [done|simpl in Hlen; lia|]. apply Forall_cons_1 in Hl as [Hd Hl].
  apply Forall_cons_1 in Hl as [He Hl]. cbn [map alternate pack].
  rewrite !land_nibble_0 by (done || unfold nibble; lia). rewrite Z.land_0_r, IH by (done || simpl in Hlen; lia).
  change 15 with (Z.ones 4). rewrite Z.land_ones, Z.mod_small by (unfold nibble in *; lia). lia.
Qed.

Lemma ones_count_nibble k : forall d r, nibble d ->
  ones_count (4 + k) (d + 2 ^ 4 * r) = ones_count 4 d + ones_count k r.
Proof.
  intros d r Hd.
  assert (Hdiv : forall c x, (c + 2 * x) / 2 = c / 2 + x) by (intros c x; rewrite Z.mul_comm; apply Z.div_add; lia).
  cbn [ones_count Nat.add]. replace (2 ^ 4 * r) with (2 * (8 * r)) by lia. rewrite Hdiv.
  replace (8 * r) with (2 * (4 * r)) by lia. rewrite Hdiv.
  replace (4 * r) with (2 * (2 * r)) by lia. rewrite Hdiv. rewrite Hdiv.
  assert (Hodd' : forall c x, Z.odd (c + 2 * x) = Z.odd c)
    by (intros c x; rewrite Z.odd_add, Z.odd_mul; simpl; apply xorb_false_r).
  rewrite !Hodd'. unfold nibble in Hd. replace (d / 2 / 2 / 2 / 2) with 0; [rewrite Z.add_0_l; lia|].
  rewrite !Z.div_div by lia. symmetry. apply Z.div_small. lia.
Qed.

Lemma ones_count_pack l : Forall nibble l ->
  ones_count (4 * length l) (pack l) = list_sum_Z (map (ones_count 4) l).
Proof.
  induction 1 as [|d l Hd Hl IH]; [done|]. cbn [length pack map list_sum_Z].
  replace (4 * S (length l))%nat with (4 + 4 * length l)%nat by lia. by rewrite ones_count_nibble, IH.
Qed.

Lemma pack_add (f g : Z -> Z) l : pack (map f l) + pack (map g l) = pack (map (fun d => f d + g d) l).
Proof. induction l as [|d l IH]; cbn [map pack]; lia. Qed.

Lemma pack_sub (f : Z -> Z) l : pack l - pack (map f l) = pack (map (fun d => d - f d) l).
Proof. induction l as [|d l IH]; cbn [map pack]; lia. Qed.

Lemma pack_range l : Forall nibble l -> 0 <= pack l < 2 ^ (4 * Z.of_nat (length l)).
Proof.
  induction 1 as [|d l Hd Hl IH]; cbn [pack length]; [done|].
  replace (4 * Z.of_nat (S (length l))) with (4 + 4 * Z.of_nat (length l)) by lia.
  rewrite Z.pow_add_r by lia. unfold nibble in Hd. lia.
Qed.

(** The two steps inside a nibble count its bits. *)
Definition pairs (d : Z) : Z := d - Z.land (Z.shiftr d 1) 5.
Definition quads (d : Z) : Z := Z.land (Z.shiftr d 2) 3 + Z.land d 3.

Lemma nibble_cases (P : Z -> bool) : forallb P (map Z.of_nat (seq 0 16)) = true -> forall d, nibble d -> P d = true.
Proof.
  intros H d Hd. apply (proj1 (forallb_forall _ _) H). apply in_map_iff. exists (Z.to_nat d).
  unfold nibble in Hd. split; [lia|]. apply in_seq. lia.
Qed.

Lemma pairs_nibble d : nibble d -> nibble (pairs d).
Proof.
  intros Hd. assert (H : (0 <=? pairs d) && (pairs d <? 16) = true)
    by (revert d Hd; apply nibble_cases; by vm_compute).
  unfold nibble. lia.
Qed.

Lemma quads_pairs d : nibble d -> quads (pairs d) = ones_count 4 d.
Proof.
  intros Hd. apply Z.eqb_eq. revert d Hd.
  apply (nibble_cases (fun d => quads (pairs d) =? ones_count 4 d)). by vm_compute.
Qed.

Lemma ones_count_range k : forall a, 0 <= ones_count k a <= Z.of_nat k.
Proof.
  induction k as [|k IH]; intros a; cbn [ones_count]; [lia|]. specialize (IH (a / 2)).
  destruct (Z.odd a); simpl Z.b2z; lia.
Qed.

(** The state after the second step: every nibble holds its own count. *)
Lemma nibble_counts l : Forall nibble l ->
  let a := pack l in
  let a := a - Z.land (Z.shiftr a 1) (pack (map (fun _ => 5) l)) in
  0 <= a < 2 ^ (4 * Z.of_nat (length l)) /\
  Z.land (Z.shiftr a 2) (pack (map (fun _ => 3) l)) + Z.land a (pack (map (fun _ => 3) l))
  = pack (map (ones_count 4) l).
Proof.
  intros Hl. cbv zeta. rewrite land_pack, pack_sub by (done || lia). fold pairs.
  assert (Hp : Forall nibble (map pairs l)) by (apply Forall_map; eapply Forall_impl; [exact pairs_nibble|exact Hl]).
  assert (Hm : map (fun _ : Z => 3) l = map (fun _ => 3) (map pairs l)) by (rewrite map_map; done).
  split. { rewrite <- (length_map pairs l). by apply pack_range. }
  change (map (fun d => d - Z.land (Z.shiftr d 1) 5) l) with (map pairs l). rewrite Hm, land_pack by (done || lia).
  pose proof (land_pack 0 3 (map pairs l) Hp ltac:(lia) ltac:(lia)) as H0. rewrite Z.shiftr_0_r in H0. rewrite H0.
  rewrite pack_add, map_map. f_equal. apply map_ext_in. intros d Hd. rewrite Z.shiftr_0_r.
  apply quads_pairs. rewrite Forall_forall in Hl. by apply Hl.
Qed.

(** The third step adds the counts of two neighbouring nibbles. *)
Definition is_count (d : Z) : Prop := 0 <= d <= 4.

Lemma counts_ok l : Forall is_count (map (ones_count 4) l).
Proof. apply Forall_map, Forall_true. intros d. apply (ones_count_range 4). Qed.

(** Sums of neighbours, the last nibble alone. *)
Fixpoint neighbours (l : list Z) : list Z :=
  match l with d :: ((e :: _) as l') => (d + e) :: neighbours l' | _ => l end.

Lemma neighbours_pack l : Forall is_count l ->
  pack l + Z.shiftr (pack l) 4 = pack (neighbours l) /\ Forall nibble (neighbours l) /\
  length (neighbours l) = length l.
Proof.
  rewrite Z.shiftr_div_pow2 by lia. induction 1 as [|d l Hd Hl IH]; [done|].
  unfold is_count in Hd. destruct IH as (IHp & IHn & IHl). destruct l as [|e l].
  - cbn [pack neighbours length]. repeat constructor; try lia. rewrite Z.div_small; lia.
  - apply Forall_cons_1 in Hl as [He _]. unfold is_count in He.
    change (neighbours (d :: e :: l)) with ((d + e) :: neighbours (e :: l)).
    cbn [length] in *. split; [|split; [constructor; [unfold nibble; lia|done]|lia]].
    change (pack (d :: e :: l)) with (d + 2 ^ 4 * pack (e :: l)).
    change (pack (d + e :: neighbours (e :: l))) with (d + e + 2 ^ 4 * pack (neighbours (e :: l))).
    rewrite <- IHp. rewrite (Z.mul_comm (2 ^ 4)), Z.div_add, Z.div_small by lia.
    pose proof (Z.div_mod (pack (e :: l)) (2 ^ 4) ltac:(lia)) as Hdm.
    assert (Hmod : pack (e :: l) mod 2 ^ 4 = e)
      by (cbn [pack]; rewrite (Z.mul_comm (2 ^ 4)), Z.mod_add, Z.mod_small by lia; done).
    lia.
Qed.

(** From here the word is a list of bytes, each the count of its own bits. *)
Lemma byte_counts n l : length l = (2 * n)%nat -> Forall is_count l ->
  Z.land (pack l + Z.shiftr (pack l) 4) (pack (alternate (map (fun _ => 15) l)))
  = pack (alternate (neighbours l)).
Proof.
  intros Hn Hl. destruct (neighbours_pack l Hl) as (-> & Hnib & Hlen).
  rewrite <- (land_alternate n (neighbours l)) by (lia || done). do 3 f_equal.
  clear -Hlen. revert Hlen. generalize (neighbours l). induction l as [|x l IH]; intros [|y m]; simpl; try done.
  intros [= H]. f_equal. auto.
Qed.

Lemma shiftr_split x y k : 0 <= k -> 0 <= x < 2 ^ k -> Z.shiftr (x + 2 ^ k * y) k = y.
Proof.
  intros Hk Hx. rewrite Z.shiftr_div_pow2, Z.mul_comm, Z.div_add by lia. rewrite Z.div_small by lia. done.
Qed.

(** Adding up the bytes: halves of the word onto each other, the result in the
    low byte. *)
Lemma fold_bytes32 b0 b1 b2 b3 :
  0 <= b0 <= 8 -> 0 <= b1 <= 8 -> 0 <= b2 <= 8 -> 0 <= b3 <= 8 ->
  let a := b0 + 2 ^ 8 * b1 + 2 ^ 16 * (b2 + 2 ^ 8 * b3) in
  let a := wrap32 (a + Z.shiftr a 16) in
  Z.land (wrap32 (a + Z.shiftr a 8)) 63 = b0 + b1 + b2 + b3.
Proof.
  cbv zeta. intros. rewrite (shiftr_split (b0 + 2 ^ 8 * b1) (b2 + 2 ^ 8 * b3) 16) by lia.
  set (r := b1 + b3 + 2 ^ 8 * b2 + 2 ^ 16 * b3).
  rewrite (wrap32_small (_ + (b2 + 2 ^ 8 * b3))) by lia.
  replace (b0 + 2 ^ 8 * b1 + 2 ^ 16 * (b2 + 2 ^ 8 * b3) + (b2 + 2 ^ 8 * b3))
    with (b0 + b2 + 2 ^ 8 * r) by lia.
  rewrite (shiftr_split (b0 + b2) r 8), wrap32_small by lia.
  change 63 with (Z.ones 6). rewrite Z.land_ones by lia.
  symmetry. apply (Z.mod_unique _ _ (4 * r + 4 * b2 + 4 * 2 ^ 8 * b3)); lia.
Qed.

Lemma fold_bytes64 b0 b1 b2 b3 b4 b5 b6 b7 :
  0 <= b0 <= 8 -> 0 <= b1 <= 8 -> 0 <= b2 <= 8 -> 0 <= b3 <= 8 ->
  0 <= b4 <= 8 -> 0 <= b5 <= 8 -> 0 <= b6 <= 8 -> 0 <= b7 <= 8 ->
  let h := b4 + 2 ^ 8 * b5 + 2 ^ 16 * (b6 + 2 ^ 8 * b7) in
  let a := b0 + 2 ^ 8 * b1 + 2 ^ 16 * (b2 + 2 ^ 8 * b3) + 2 ^ 32 * h in
  let a := wrap64 (a + Z.shiftr a 32) in
  let a := wrap64 (a + Z.shiftr a 16) in
  Z.land (wrap64 (a + Z.shiftr a 8)) 127 = b0 + b1 + b2 + b3 + b4 + b5 + b6 + b7.
Proof.
  cbv zeta. intros. set (h := b4 + 2 ^ 8 * b5 + 2 ^ 16 * (b6 + 2 ^ 8 * b7)).
  rewrite (shiftr_split (b0 + 2 ^ 8 * b1 + 2 ^ 16 * (b2 + 2 ^ 8 * b3)) h 32) by lia.
  rewrite (wrap64_small (_ + h)) by lia.
  set (g := b2 + b6 + 2 ^ 8 * (b3 + b7) + 2 ^ 16 * h).
  replace (b0 + 2 ^ 8 * b1 + 2 ^ 16 * (b2 + 2 ^ 8 * b3) + 2 ^ 32 * h + h)
    with (b0 + b4 + 2 ^ 8 * (b1 + b5) + 2 ^ 16 * g) by lia.
  rewrite (shiftr_split (b0 + b4 + 2 ^ 8 * (b1 + b5)) g 16) by lia.
  rewrite (wrap64_small (_ + g)) by lia.
  set (f := b1 + b5 + b3 + b7 + 2 ^ 8 * g + 2 ^ 8 * h).
  replace (b0 + b4 + 2 ^ 8 * (b1 + b5) + 2 ^ 16 * g + g) with (b0 + b4 + b2 + b6 + 2 ^ 8 * f) by lia.
  rewrite (shiftr_split (b0 + b4 + b2 + b6) f 8), wrap64_small by lia.
  change 127 with (Z.ones 7). rewrite Z.land_ones by lia.
  symmetry. apply (Z.mod_unique _ _ (2 * f + 2 * g + 2 * h)); lia.
Qed.

(** The common part of both counts: from a word of [2 * n] nibbles to the bytes
    that are added up. *)
Lemma count_bytes n l : length l = (2 * n)%nat -> Forall nibble l ->
  let w := 2 ^ (8 * Z.of_nat n) in
  let a := (pack l - Z.land (Z.shiftr (pack l) 1) (pack (map (fun _ => 5) l))) mod w in
  let a := (Z.land (Z.shiftr a 2) (pack (map (fun _ => 3) l)) + Z.land a (pack (map (fun _ => 3) l))) mod w in
  Z.land ((a + Z.shiftr a 4) mod w) (pack (alternate (map (fun _ => 15) l)))
  = pack (alternate (neighbours (map (ones_count 4) l))).
Proof.
  intros Hn Hl. cbv zeta. destruct (nibble_counts l Hl) as [Hr Hc]. cbv zeta in Hr, Hc.
  replace (4 * Z.of_nat (length l)) with (8 * Z.of_nat n) in Hr by lia.
  rewrite (Z.mod_small (pack l - _)), Hc by done. clear Hc Hr.
  pose proof (counts_ok l) as Hk. assert (Hlen : length (map (ones_count 4) l) = (2 * n)%nat) by by rewrite length_map.
  replace (map (fun _ : Z => 15) l) with (map (fun _ : Z => 15) (map (ones_count 4) l)) by (rewrite map_map; done).
  clear Hn Hl. revert Hk Hlen. generalize (map (ones_count 4) l). clear l. intros l Hk Hlen.
  assert (Hl : Forall nibble l) by (eapply Forall_impl; [|exact Hk]; unfold nibble, is_count; intros; lia).
  pose proof (pack_range l Hl) as Hr. destruct (neighbours_pack l Hk) as (Hp & Hnib & Hlen').
  pose proof (pack_range _ Hnib) as Hr'. rewrite Hlen' in Hr'.
  replace (4 * Z.of_nat (length l)) with (8 * Z.of_nat n) in * by lia.
  rewrite !(Z.mod_small (pack l)) by done. rewrite Z.mod_small by (rewrite Hp; done). by apply (byte_counts n).
Qed.

Lemma popcountsi2_eq a : is_u32 a -> popcountsi2 a = ones_count 32 a.
Proof.
  intros Ha. rewrite <- (pack_nibbles 8 a) by exact Ha. pose proof (nibbles_ok 8 a) as Hl.
  assert (Hlen : length (nibbles 8 a) = 8%nat) by done. revert Hl Hlen. generalize (nibbles 8 a). clear a Ha.
  intros l Hl Hlen. pose proof (count_bytes 4 l Hlen Hl) as Hc. cbv zeta in Hc.
  pose proof (ones_count_pack l Hl) as Hs. rewrite Hlen in Hs. change (4 * 8)%nat with 32%nat in Hs. rewrite Hs.
  clear Hs Hl. unfold popcountsi2, wrap32. change (8 * Z.of_nat 4) with 32 in Hc.
  destruct l as [|n0 [|n1 [|n2 [|n3 [|n4 [|n5 [|n6 [|n7 [|]]]]]]]]]; try discriminate Hlen.
  change (pack (map (fun _ => 5) _)) with 0x55555555 in Hc.
  change (pack (map (fun _ => 3) _)) with 0x33333333 in Hc.
  change (pack (alternate (map (fun _ => 15) _))) with 0x0F0F0F0F in Hc.
  cbv zeta. rewrite Hc. clear Hc Hlen.
  pose proof (ones_count_range 4 n0). pose proof (ones_count_range 4 n1). pose proof (ones_count_range 4 n2).
  pose proof (ones_count_range 4 n3). pose proof (ones_count_range 4 n4). pose proof (ones_count_range 4 n5).
  pose proof (ones_count_range 4 n6). pose proof (ones_count_range 4 n7).
  etransitivity; [|etransitivity; [apply (fold_bytes32 (ones_count 4 n0 + ones_count 4 n1) (ones_count 4 n2 + ones_count 4 n3) (ones_count 4 n4 + ones_count 4 n5) (ones_count 4 n6 + ones_count 4 n7)); lia|]].
  - unfold wrap32. cbv zeta. cbn [map alternate neighbours pack]. repeat (f_equal; try lia).
  - cbn [map list_sum_Z fold_right]. unfold list_sum_Z. cbn [fold_right]. lia.
Qed.

Lemma popcountdi2_eq a : is_u64 a -> popcountdi2 a = ones_count 64 a.
Proof.
  intros Ha. rewrite <- (pack_nibbles 16 a) by exact Ha. pose proof (nibbles_ok 16 a) as Hl.
  assert (Hlen : length (nibbles 16 a) = 16%nat) by done. revert Hl Hlen. generalize (nibbles 16 a). clear a Ha.
  intros l Hl Hlen. pose proof (count_bytes 8 l Hlen Hl) as Hc. cbv zeta in Hc.
  pose proof (ones_count_pack l Hl) as Hs. rewrite Hlen in Hs. change (4 * 16)%nat with 64%nat in Hs. rewrite Hs.
  clear Hs Hl. unfold popcountdi2, wrap64. change (8 * Z.of_nat 8) with 64 in Hc.
  destruct l as [|n0 [|n1 [|n2 [|n3 [|n4 [|n5 [|n6 [|n7 [|n8 [|n9 [|n10 [|n11 [|n12 [|n13 [|n14 [|n15 [|]]]]]]]]]]]]]]]]]; try discriminate Hlen.
  change (pack (map (fun _ => 5) _)) with 0x5555555555555555 in Hc.
  change (pack (map (fun _ => 3) _)) with 0x3333333333333333 in Hc.
  change (pack (alternate (map (fun _ => 15) _))) with 0x0F0F0F0F0F0F0F0F in Hc.
  cbv zeta. rewrite Hc. clear Hc Hlen.
  pose proof (ones_count_range 4 n0). pose proof (ones_count_range 4 n1). pose proof (ones_count_range 4 n2).
  pose proof (ones_count_range 4 n3). pose proof (ones_count_range 4 n4). pose proof (ones_count_range 4 n5).
  pose proof (ones_count_range 4 n6). pose proof (ones_count_range 4 n7). pose proof (ones_count_range 4 n8).
  pose proof (ones_count_range 4 n9). pose proof (ones_count_range 4 n10). pose proof (ones_count_range 4 n11).
  pose proof (ones_count_range 4 n12). pose proof (ones_count_range 4 n13). pose proof (ones_count_range 4 n14).
  pose proof (ones_count_range 4 n15).
  etransitivity; [|etransitivity; [apply (fold_bytes64 (ones_count 4 n0 + ones_count 4 n1) (ones_count 4 n2 + ones_count 4 n3) (ones_count 4 n4 + ones_count 4 n5) (ones_count 4 n6 + ones_count 4 n7) (ones_count 4 n8 + ones_count 4 n9) (ones_count 4 n10 + ones_count 4 n11) (ones_count 4 n12 + ones_count 4 n13) (ones_count 4 n14 + ones_count 4 n15)); lia|]].
  - unfold wrap64. cbv zeta. cbn [map alternate neighbours pack]. repeat (f_equal; try lia).
  - cbn [map list_sum_Z fold_right]. unfold list_sum_Z. cbn [fold_right]. lia.
Qed.

(** ** What the routines compute *)

Lemma shifts_spec (a b : Z) :
  ashldi3 a b = to_s64 (a * 2 ^ (b mod 64)) /\
  ashrdi3 a b = to_s64 a / 2 ^ (b mod 64) /\
  lshrdi3 a b = wrap64 a / 2 ^ (b mod 64) /\
  absvdi2 (to_s64 a) = (if to_s64 a =? - 2 ^ 63 then - 2 ^ 63 else Z.abs (to_s64 a)).
Proof.
  pose proof (Z.mod_pos_bound b 64 ltac:(lia)) as Hb. pose proof (to_s64_range a) as Ha.
  rewrite ashldi3_eq, ashrdi3_eq, lshrdi3_eq, Z.shiftl_mul_pow2, !Z.shiftr_div_pow2 by lia.
  split_and!; [done..|]. unfold absvdi2. rewrite arith64_abs_eq by lia.
  destruct (Z.eqb_spec (to_s64 a) (- 2 ^ 63)) as [->|Hne]; [reflexivity|]. apply to_s64_small. lia.
Qed.

Lemma bit_counts_spec (a : Z) (Ha : is_u64 a) :
  (a <> 0 -> clzdi2 a = 63 - Z.log2 a /\
    exists x, a = (2 * x + 1) * 2 ^ ctzdi2 a /\ 0 <= ctzdi2 a /\ ffsdi2 a = ctzdi2 a + 1) /\
  (0 < a < 2 ^ 32 -> clzsi2 a = 31 - Z.log2 a /\ exists x, a = (2 * x + 1) * 2 ^ ctzsi2 a /\ 0 <= ctzsi2 a) /\
  popcountdi2 a = ones_count 64 a /\
  (a < 2 ^ 32 -> popcountsi2 a = ones_count 32 a) /\
  (clzdi2 0 = 63 /\ ctzdi2 0 = 63 /\ clzsi2 0 = 31 /\ ctzsi2 0 = 31 /\ ffsdi2 0 = 0).
Proof.
  unfold is_u64 in Ha. split_and!.
  - intros Hne. split; [apply clzdi2_eq; lia|]. destruct (ctzdi2_eq a) as (H0 & x & Hx & Hodd); [lia|].
    apply Z.odd_spec in Hodd as [y ->]. exists y. split; [done|]. split; [done|]. unfold ffsdi2.
    by rewrite (proj2 (Z.eqb_neq a 0)).
  - intros Hlt. split; [apply clzsi2_eq; lia|]. destruct (ctzsi2_eq a) as (H0 & x & Hx & Hodd); [lia|].
    apply Z.odd_spec in Hodd as [y ->]. by exists y.
  - by apply popcountdi2_eq.
  - intros Hlt. apply popcountsi2_eq. split; lia.
  - reflexivity.
  - reflexivity.
  - reflexivity.
  - reflexivity.
  - reflexivity.
Qed.

Lemma division_spec (a b : Z) :
  let ua := wrap64 a in let ub := wrap64 b in let sa := to_s64 a in let sb := to_s64 b in
  divmoddi4 ua ub = (if ub =? 0 then None else Some (ua / ub, ua mod ub)) /\
  udivdi3 ua ub = (if ub =? 0 then None else Some (ua / ub)) /\
  umoddi3 ua ub = (if ub =? 0 then None else Some (ua mod ub)) /\
  divdi3 sa sb = (if sb =? 0 then None else Some (to_s64 (Z.quot sa sb))) /\
  moddi3 sa sb = (if sb =? 0 then None else Some (Z.rem sa sb)) /\
  (sb <> 0 -> ~ (sa = - 2 ^ 63 /\ sb = -1) -> divdi3 sa sb = Some (Z.quot sa sb)) /\
  divdi3 (- 2 ^ 63) (-1) = Some (- 2 ^ 63).
Proof.
  cbv zeta. pose proof (wrap64_range a) as Ha. pose proof (wrap64_range b) as Hb.
  pose proof (to_s64_range a) as Hsa. pose proof (to_s64_range b) as Hsb.
  unfold udivdi3, umoddi3. rewrite divmoddi4_eq by done. rewrite divdi3_eq, moddi3_eq by done.
  split; [done|]. split; [by destruct (_ =? 0)|]. split; [by destruct (_ =? 0)|]. split; [done|]. split; [done|].
  split; [|by vm_compute].
  intros Hne Hov. rewrite (proj2 (Z.eqb_neq (to_s64 b) 0)) by done. f_equal. apply to_s64_small.
  generalize dependent (to_s64 b). generalize dependent (to_s64 a). intros x Hx y Hy Hne Hov.
  pose proof (Z.quot_abs x y Hne) as Habs. rewrite Z.quot_div_nonneg in Habs by lia.
  pose proof (Z.div_le_upper_bound (Z.abs x) (Z.abs y) (Z.abs x)) as Hub.
  destruct (Z.eq_dec y (-1)) as [->|H1].
  - replace (Z.quot x (-1)) with (- x) by (rewrite <- (Z.quot_1_r x) at 1; symmetry; apply (Z.quot_opp_r x 1); lia). lia.
  - destruct (Z.eq_dec x (- 2 ^ 63)) as [->|Hx'].
    + destruct (Z.eq_dec y 1) as [->|]; [rewrite Z.quot_1_r; lia|].
      assert (Z.abs (- 2 ^ 63) / Z.abs y < 2 ^ 63) by (apply Z.div_lt; lia). lia.
    + assert (Z.abs x / Z.abs y <= Z.abs x) by (apply Hub; nia). lia.
Qed.

(** C28. The 64-bit arithmetic on halves, for all operands.  Shifts: [ashldi3]
    is the wrapped product by a power of two, [ashrdi3] the arithmetic and
    [lshrdi3] the logical shift, each with the shift count taken modulo 64 as
    the mask in the code does; [absvdi2] is the absolute value except on the
    least number, which it returns unchanged instead of trapping.  Bit counts:
    for a nonzero argument [clz] is the distance of the highest set bit from
    the top, [ctz] and [ffs] find the lowest set bit; [popcount] is the number
    of set bits at 32 and 64 bits, all 64 of them included (the mask 127 keeps
    that count); on zero the searches end one short of the width.  Division:
    the shift-and-subtract loop of [divmoddi4] ends with quotient and
    remainder, and its callers are C's signed and unsigned division and
    remainder (truncation towards zero, the remainder with the sign of the
    dividend); a zero divisor raises the division exception in every one of
    them, and the quotient of the least number by -1 wraps. *)
Theorem builtins_correct (a b : Z) (Ha : is_u64 a) :
  ((ashldi3 a b = to_s64 (a * 2 ^ (b mod 64)) /\
  ashrdi3 a b = to_s64 a / 2 ^ (b mod 64) /\
  lshrdi3 a b = wrap64 a / 2 ^ (b mod 64) /\
  absvdi2 (to_s64 a) = (if to_s64 a =? - 2 ^ 63 then - 2 ^ 63 else Z.abs (to_s64 a))) /\
  (a <> 0 -> clzdi2 a = 63 - Z.log2 a /\
    exists x, a = (2 * x + 1) * 2 ^ ctzdi2 a /\ 0 <= ctzdi2 a /\ ffsdi2 a = ctzdi2 a + 1) /\
  (0 < a < 2 ^ 32 -> clzsi2 a = 31 - Z.log2 a /\ exists x, a = (2 * x + 1) * 2 ^ ctzsi2 a /\ 0 <= ctzsi2 a) /\
  popcountdi2 a = ones_count 64 a /\
  (a < 2 ^ 32 -> popcountsi2 a = ones_count 32 a) /\
  (clzdi2 0 = 63 /\ ctzdi2 0 = 63 /\ clzsi2 0 = 31 /\ ctzsi2 0 = 31 /\ ffsdi2 0 = 0)) /\
  (let ua := wrap64 a in let ub := wrap64 b in let sa := to_s64 a in let sb := to_s64 b in
  divmoddi4 ua ub = (if ub =? 0 then None else Some (ua / ub, ua mod ub)) /\
  udivdi3 ua ub = (if ub =? 0 then None else Some (ua / ub)) /\
  umoddi3 ua ub = (if ub =? 0 then None else Some (ua mod ub)) /\
  divdi3 sa sb = (if sb =? 0 then None else Some (to_s64 (Z.quot sa sb))) /\
  moddi3 sa sb = (if sb =? 0 then None else Some (Z.rem sa sb)) /\
  (sb <> 0 -> ~ (sa = - 2 ^ 63 /\ sb = -1) -> divdi3 sa sb = Some (Z.quot sa sb)) /\
  divdi3 (- 2 ^ 63) (-1) = Some (- 2 ^ 63)).
Proof. split; [split; [apply shifts_spec|by apply bit_counts_spec]|apply division_spec]. Qed.

Lemma builtins_correct_witness :
  clzdi2 40 = 63 - Z.log2 40 /\ popcountdi2 40 = 2 /\ ashldi3 40 65 = 80 /\ divdi3 40 (-7) = Some (-5).
Proof.
  destruct (builtins_correct 40 65) as (((H0 & _) & H1 & _ & H3 & _) & _); [unfold is_u64; lia|].
  destruct (builtins_correct 40 (-7)) as (_ & _ & _ & _ & _ & _ & H4 & _); [unfold is_u64; lia|].
  split; [apply H1; lia|]. rewrite H3, H0. split; [reflexivity|]. split; [reflexivity|].
  apply H4; [|intros [? ?]]; vm_compute in *; discriminate.
Defined.

End Builtins.
