(* ===== verification/Bits.v ===== *)
(** * Bits: bit fields and bitmaps,
    [src/MacKernelSDK/Headers/kern/bits.h]

    Module [Bits] has the macros and inline functions of the header at their C
    widths.  A bitmap is an array of 64-bit words; an access behind its end
    faults.  The theorems give every search its meaning on the set of set
    bits. *)

From Stdlib Require Import ZArith Lia Bool.
From stdpp Require Import base list option.
From S2P Require Import Prelude Builtins.
Open Scope Z_scope.

Module Bits.

(** ** Compiler builtins used by the header *)
Definition builtin_clzll (x : Z) : Z := 63 - Z.log2 x.
Fixpoint ctz_pos (p : positive) : Z := match p with xO p => 1 + ctz_pos p | _ => 0 end.
Definition builtin_ffsll (x : Z) : Z := match x with Zpos p => ctz_pos p + 1 | _ => 0 end.
Definition builtin_popcountll (x : Z) : Z := Builtins.ones_count 64 x.

(** ** Single words *)

Definition BIT (b : Z) : Z := wrap64 (Z.shiftl 1 b).
Definition mask (width : Z) : Z := if 64 <=? width then wrap64 (-1) else wrap64 (BIT width - 1).
Definition extract (x shift width : Z) : Z := Z.land (Z.shiftr (wrap64 x) shift) (mask width).
Definition bits (x hi lo : Z) : Z := extract x lo (hi - lo + 1).

Definition not64 (x : Z) : Z := wrap64 (-1 - x).
Definition bit_set (x b : Z) : Z := Z.lor x (BIT b).
Definition bit_clear (x b : Z) : Z := Z.land x (not64 (BIT b)).
Definition bit_test (x b : Z) : bool := negb (Z.land x (BIT b) =? 0).

(** 64-bit shifts; a count of 64 or more is undefined in C. *)
Definition shl64 (x n : Z) : option Z := if (0 <=? n) && (n <? 64) then Some (wrap64 (Z.shiftl x n)) else None.
Definition shr64 (x n : Z) : option Z := if (0 <=? n) && (n <? 64) then Some (Z.shiftr x n) else None.

Definition bit_ror64 (bitmap n : Z) : option Z :=
  let n := Z.land n 63 in
  a ← shr64 bitmap n; b ← shl64 bitmap (64 - n); Some (Z.lor a b).
Definition bit_rol64 (bitmap n : Z) : option Z :=
  let n := Z.land n 63 in
  a ← shl64 bitmap n; b ← shr64 bitmap (64 - n); Some (Z.lor a b).

(** The argument is a copy: the pair is the result and the local copy after
    the update, which the caller never sees. *)
Definition bit_clear_if_set (bitmap bit : Z) : bool * Z :=
  let bit_is_set := bit_test bitmap bit in (bit_is_set, bit_clear bitmap bit).
Definition bit_set_if_clear (bitmap bit : Z) : bool * Z :=
  let bit_is_set := bit_test bitmap bit in (negb bit_is_set, bit_set bitmap bit).

Definition bit_first (bitmap : Z) : Z := if bitmap =? 0 then -1 else 63 - builtin_clzll bitmap.

(** [__bit_next] *)
Definition bit_next_from (bitmap previous_bit : Z) : Z :=
  let m := if negb (previous_bit =? 0) then mask previous_bit else wrap64 (-1) in
  bit_first (Z.land bitmap m).
Definition bit_next (bitmap previous_bit : Z) : Z :=
  if previous_bit =? 0 then -1 else bit_next_from bitmap previous_bit.

Definition lsb_first (bitmap : Z) : Z := builtin_ffsll bitmap - 1.
Definition lsb_next (bitmap previous_bit : Z) : Z :=
  let m := mask (previous_bit + 1) in lsb_first (Z.land bitmap (not64 m)).

Definition bit_count (x : Z) : Z := builtin_popcountll x.
Definition bit_floor (n : Z) : Z := bit_first n.
Definition bit_ceiling (n : Z) : Z := if n =? 0 then -1 else bit_first (n - 1) + 1.
Definition bit_log2 (n : Z) : Z := bit_floor (wrap64 n).

(** The atomic operations return the old value of the bit and store the word. *)
Definition atomic_bit_set (map n : Z) : bool * Z := (bit_test map n, Z.lor map (BIT n)).
Definition atomic_bit_clear (map n : Z) : bool * Z := (bit_test map n, Z.land map (not64 (BIT n))).

(** ** Bitmaps *)

Definition BITMAP_LEN (n : Z) : Z := Z.shiftr (wrap32 (wrap32 n + 63)) 6.
Definition BITMAP_SIZE (n : Z) : Z := wrap32 (Z.shiftl (BITMAP_LEN n) 3).
Definition bitmap_bit (n : Z) : Z := bits n 5 0.
Definition bitmap_index (n : Z) : Z := bits n 63 6.

Abbreviation bitmap := (list Z).
Definition rd (i : Z) : M bitmap Z :=
  fun m => match m !! Z.to_nat i with Some w => Done w m | None => Fault m end.
Definition wr (i w : Z) : M bitmap unit :=
  fun m => if bool_decide (Z.to_nat i < length m)%nat then Done tt (<[Z.to_nat i := w]> m) else Fault m.

(** [memset] of [size] bytes, a multiple of 8: every byte becomes [c]. *)
Definition memset (c size : Z) : M bitmap unit :=
  let n := Z.to_nat (size / 8) in
  fun m => if bool_decide (n <= length m)%nat
           then Done tt (replicate n (c mod 2 ^ 8 * 0x0101010101010101) ++ drop n m) else Fault m.

Definition bitmap_zero (nbits : Z) : M bitmap unit := memset 0 (BITMAP_SIZE nbits).
Definition bitmap_full (nbits : Z) : M bitmap unit := memset (-1) (BITMAP_SIZE nbits).

(** [kalloc] returns that many bytes of any contents, or null; a failed
    assertion is a fault.  The result is the new bitmap. *)
Definition bitmap_alloc (kalloc : Z -> option bitmap) (nbits : Z) : outcome unit (option bitmap) :=
  if 0 <? nbits then
    match kalloc (BITMAP_SIZE nbits) with
    | None => Done None tt
    | Some m => match bitmap_zero nbits m with Done _ m => Done (Some m) tt | Fault _ => Fault tt end
    end
  else Fault tt.

(** [bitmap_free] passes its size to [kfree]: the bytes given back. *)
Definition bitmap_free (nbits : Z) : outcome unit Z :=
  if 0 <? nbits then Done (BITMAP_SIZE nbits) tt else Fault tt.

Definition bitmap_set (n : Z) : M bitmap unit :=
  w <- rd (bitmap_index n) ;; wr (bitmap_index n) (bit_set w (bitmap_bit n)).
Definition bitmap_clear (n : Z) : M bitmap unit :=
  w <- rd (bitmap_index n) ;; wr (bitmap_index n) (bit_clear w (bitmap_bit n)).
Definition bitmap_test (n : Z) : M bitmap bool :=
  w <- rd (bitmap_index n) ;; ret (bit_test w (bitmap_bit n)).

Definition atomic_bitmap_set (n : Z) : M bitmap bool :=
  w <- rd (bitmap_index n) ;;
  let '(old, w) := atomic_bit_set w (bitmap_bit n) in wr (bitmap_index n) w ;;; ret old.
Definition atomic_bitmap_clear (n : Z) : M bitmap bool :=
  w <- rd (bitmap_index n) ;;
  let '(old, w) := atomic_bit_clear w (bitmap_bit n) in wr (bitmap_index n) w ;;; ret old.

(** Downward search through the words [k - 1], ..., [0]. *)
Fixpoint search_down (k : nat) : M bitmap Z :=
  match k with
  | O => ret (-1)
  | S k => w <- rd (Z.of_nat k) ;;
           if w =? 0 then search_down k else ret (to_s32 (Z.shiftl (Z.of_nat k) 6 + bit_first w))
  end.
(** Upward search through [k] words from [i]. *)
Fixpoint search_up (k : nat) (i : Z) : M bitmap Z :=
  match k with
  | O => ret (-1)
  | S k => w <- rd i ;;
           if w =? 0 then search_up k (i + 1) else ret (to_s32 (Z.shiftl i 6 + lsb_first w))
  end.

Definition bitmap_first (nbits : Z) : M bitmap Z :=
  search_down (S (Z.to_nat (bitmap_index (wrap32 (nbits - 1))))).

Fixpoint and_not_down (mask : bitmap) (k : nat) : M bitmap Z :=
  match k with
  | O => ret (-1)
  | S k =>
    w <- rd (Z.of_nat k) ;;
    match mask !! k with
    | None => fault
    | Some x => if Z.land w (not64 x) =? 0 then and_not_down mask k
                else ret (to_s32 (Z.shiftl (Z.of_nat k) 6 + bit_first (Z.land w (not64 x))))
    end
  end.
Definition bitmap_and_not_mask_first (mask : bitmap) (nbits : Z) : M bitmap Z :=
  and_not_down mask (S (Z.to_nat (bitmap_index (wrap32 (nbits - 1))))).

Definition bitmap_lsb_first (nbits : Z) : M bitmap Z :=
  search_up (S (Z.to_nat (bitmap_index (wrap32 (nbits - 1))))) 0.

Definition bitmap_next (prev : Z) : M bitmap Z :=
  if prev =? 0 then ret (-1)
  else
    let i := bitmap_index (wrap32 (prev - 1)) in
    w <- rd i ;;
    let res := bit_next_from w (bits prev 5 0) in
    if 0 <=? res then ret (to_s32 (res + Z.shiftl i 6)) else search_down (Z.to_nat i).

Definition bitmap_lsb_next (nbits prev : Z) : M bitmap Z :=
  let p1 := wrap32 (prev + 1) in
  if nbits <=? p1 then ret (-1)
  else
    let i := bitmap_index p1 in
    let b := wrap32 (bits p1 5 0 - 1) in
    w <- rd i ;;
    let res := lsb_next w (to_s32 b) in
    if 0 <=? res then ret (to_s32 (res + Z.shiftl i 6))
    else search_up (Z.to_nat (bitmap_index (wrap32 (nbits - 1)) - i)) (i + 1).

Definition run_value {A} (m : M bitmap A) (b : bitmap) : option A :=
  match m b with Done a _ => Some a | Fault _ => None end.

Example bits_run :
  (bits 0xabcd 11 4, bit_first 40, bit_next 40 5, lsb_first 40, lsb_next 40 3, bit_ceiling 9, bit_ror64 1 4, bit_ror64 1 0)
  = (0xbc, 5, 3, 3, 5, 4, Some (2 ^ 60), None) /\
  (run_value (bitmap_first 128) [5; 9], run_value (bitmap_lsb_first 128) [0; 8], run_value (bitmap_next 64) [5; 9],
   run_value (bitmap_lsb_next 128 2) [5; 8], run_value (bitmap_lsb_next 128 (2 ^ 32 - 1)) [4; 8])
  = (Some 67, Some 67, Some 2, Some 67, Some 2).
Proof. vm_compute. split; reflexivity. Qed.

(** ** Meaning of the word operations *)

(** The largest member of [P] below [n], and the smallest from [a] on, -1 when
    there is none. *)
Definition max_below (P : Z -> bool) (n r : Z) : Prop :=
  (r = -1 /\ forall j, 0 <= j < n -> P j = false) \/
  (0 <= r < n /\ P r = true /\ forall j, r < j < n -> P j = false).
Definition min_from (P : Z -> bool) (a n r : Z) : Prop :=
  (r = -1 /\ forall j, a <= j < n -> P j = false) \/
  (a <= r < n /\ P r = true /\ forall j, a <= j < r -> P j = false).

Lemma u64_high x j : is_u64 x -> 64 <= j -> Z.testbit x j = false.
Proof. intros Hx Hj. rewrite <- (wrap64_small x) by done. apply Z.mod_pow2_bits_high. lia. Qed.

Lemma BIT_eq b : 0 <= b < 64 -> BIT b = 2 ^ b.
Proof.
  intros Hb. unfold BIT. rewrite Z.shiftl_1_l. apply wrap64_small.
  split; [apply Z.pow_nonneg; lia|apply Z.pow_lt_mono_r; lia].
Qed.

Lemma mask_eq w : 0 <= w -> mask w = Z.ones (Z.min w 64).
Proof.
  intros Hw. unfold mask. destruct (Z.leb_spec 64 w).
  - rewrite Z.min_r by lia. reflexivity.
  - rewrite BIT_eq, Z.min_l, Z.ones_equiv by lia. rewrite <- Z.sub_1_r. apply wrap64_small.
    assert (0 < 2 ^ w < 2 ^ 64) by (split; [apply Z.pow_pos_nonneg; lia|apply Z.pow_lt_mono_r; lia]). lia.
Qed.

Lemma mask_bits w j : 0 <= w -> 0 <= j < 64 -> Z.testbit (mask w) j = (j <? w).
Proof.
  intros Hw Hj. rewrite mask_eq by done. destruct (Z.ltb_spec j w).
  - apply Z.ones_spec_low. lia.
  - apply Z.ones_spec_high. lia.
Qed.

Lemma extract_eq x s w : 0 <= s -> 0 <= w <= 64 -> extract x s w = wrap64 x / 2 ^ s mod 2 ^ w.
Proof.
  intros Hs Hw. unfold extract. rewrite mask_eq, Z.min_l, Z.land_ones, Z.shiftr_div_pow2 by lia. done.
Qed.

Lemma not64_eq x : is_u64 x -> not64 x = 2 ^ 64 - 1 - x.
Proof.
  unfold is_u64. intros Hx. unfold not64, wrap64. replace (-1 - x) with (2 ^ 64 - 1 - x + (-1) * 2 ^ 64) by lia.
  rewrite Z.mod_add by lia. apply Z.mod_small. lia.
Qed.

Lemma not64_bits x j : is_u64 x -> 0 <= j < 64 -> Z.testbit (not64 x) j = negb (Z.testbit x j).
Proof.
  intros Hx Hj. rewrite not64_eq, <- Builtins.lxor_ones64 by done. rewrite Z.lxor_spec.
  change (2 ^ 64 - 1) with (Z.ones 64). rewrite Z.ones_spec_low by lia. apply xorb_true_r.
Qed.

Lemma not64_u64 x : is_u64 (not64 x).
Proof. apply wrap64_range. Qed.

Lemma BIT_bits b j : 0 <= b < 64 -> 0 <= j -> Z.testbit (BIT b) j = (j =? b).
Proof. intros Hb Hj. rewrite BIT_eq, Z.pow2_bits_eqb by lia. apply Z.eqb_sym. Qed.

Lemma u64_land x y : is_u64 x -> is_u64 y -> is_u64 (Z.land x y).
Proof.
  intros Hx [Hy _]. assert (Hn : 0 <= Z.land x y) by (apply Z.land_nonneg; lia). split; [done|].
  assert (E : Z.land x y = wrap64 (Z.land x y)).
  { apply Z.bits_inj'. intros n Hn'. unfold wrap64. destruct (Z.lt_ge_cases n 64).
    - by rewrite Z.mod_pow2_bits_low.
    - rewrite Z.mod_pow2_bits_high, Z.land_spec, (u64_high x) by (done || lia). done. }
  rewrite E. apply wrap64_range.
Qed.

Lemma bit_test_eq x b : 0 <= b < 64 -> bit_test x b = Z.testbit x b.
Proof.
  intros Hb. unfold bit_test. rewrite BIT_eq by done. destruct (Z.testbit x b) eqn:E.
  - destruct (Z.eqb_spec (Z.land x (2 ^ b)) 0) as [H|]; [|done].
    assert (H' : Z.testbit (Z.land x (2 ^ b)) b = true) by (by rewrite Z.land_spec, E, Z.pow2_bits_true by lia).
    by rewrite H, Z.bits_0 in H'.
  - replace (Z.land x (2 ^ b)) with 0; [done|]. symmetry. apply Z.bits_inj'. intros n Hn.
    rewrite Z.bits_0, Z.land_spec, Z.pow2_bits_eqb by lia. destruct (Z.eqb_spec b n) as [->|]; [by rewrite E|apply andb_false_r].
Qed.

Lemma bit_set_bits x b j : 0 <= b < 64 -> 0 <= j -> Z.testbit (bit_set x b) j = (j =? b) || Z.testbit x j.
Proof. intros Hb Hj. unfold bit_set. rewrite Z.lor_spec, BIT_bits by done. apply orb_comm. Qed.

Lemma bit_clear_bits x b j : is_u64 x -> 0 <= b < 64 -> 0 <= j ->
  Z.testbit (bit_clear x b) j = negb (j =? b) && Z.testbit x j.
Proof.
  intros Hx Hb Hj. unfold bit_clear. rewrite Z.land_spec. destruct (Z.lt_ge_cases j 64).
  - rewrite not64_bits, BIT_bits by (lia || apply wrap64_range). apply andb_comm.
  - rewrite (u64_high x) by (done || lia). by rewrite andb_false_r.
Qed.

Lemma bit_set_u64 x b : is_u64 x -> 0 <= b < 64 -> is_u64 (bit_set x b).
Proof.
  intros Hx Hb. assert (Hn : 0 <= bit_set x b).
  { unfold bit_set. apply Z.lor_nonneg. split; [apply Hx|]. rewrite BIT_eq by done. apply Z.pow_nonneg. lia. }
  assert (E : bit_set x b = wrap64 (bit_set x b)).
  { apply Z.bits_inj'. intros n Hn'. unfold wrap64. destruct (Z.lt_ge_cases n 64).
    - by rewrite Z.mod_pow2_bits_low.
    - rewrite Z.mod_pow2_bits_high, bit_set_bits, (u64_high x) by (done || lia).
      by rewrite (proj2 (Z.eqb_neq n b)) by lia. }
  rewrite E. apply wrap64_range.
Qed.

Lemma bit_clear_u64 x b : is_u64 x -> is_u64 (bit_clear x b).
Proof. intros Hx. apply u64_land; [done|apply not64_u64]. Qed.

(** *** Searches in a word *)

Lemma bit_first_max w : is_u64 w -> max_below (Z.testbit w) 64 (bit_first w).
Proof.
  intros Hw. unfold bit_first, builtin_clzll. destruct (Z.eqb_spec w 0) as [->|Hne].
  - left. split; [done|]. intros j _. apply Z.bits_0.
  - right. unfold is_u64 in Hw. replace (63 - (63 - Z.log2 w)) with (Z.log2 w) by lia.
    pose proof (Z.log2_nonneg w). assert (Z.log2 w < 64) by (apply Z.log2_lt_pow2; lia).
    split; [lia|]. split; [apply Z.bit_log2; lia|]. intros j Hj. apply Z.bits_above_log2; lia.
Qed.

Lemma max_below_ext P Q n r : (forall j, 0 <= j < n -> P j = Q j) -> max_below P n r -> max_below Q n r.
Proof.
  intros HPQ [[-> H]|(Hr & HP & H)]; [left; split; [done|]|right; split; [done|]; split; [by rewrite <- HPQ|]];
    intros j Hj; rewrite <- HPQ by lia; auto.
Qed.

(** The bits of [P] from [m] on do not matter when they are not set. *)
Lemma max_below_extend P m n r : m <= n -> (forall j, m <= j < n -> P j = false) -> max_below P m r -> max_below P n r.
Proof.
  intros Hmn HP [[-> H]|(Hr & HPr & H)].
  - left. split; [done|]. intros j Hj. destruct (Z.lt_ge_cases j m); auto with lia.
  - right. split; [lia|]. split; [done|]. intros j Hj. destruct (Z.lt_ge_cases j m); auto with lia.
Qed.

Lemma max_below_restrict P m n r : 0 <= m -> m <= n -> (forall j, m <= j < n -> P j = false) -> max_below P n r -> max_below P m r.
Proof.
  intros Hm Hmn HP [[-> H]|(Hr & HPr & H)].
  - left. split; [done|]. auto with lia.
  - destruct (Z.lt_ge_cases r m); [|by rewrite HP in HPr by lia]. right. split; [lia|]. split; [done|]. auto with lia.
Qed.

Lemma bit_next_from_max w p : is_u64 w -> 0 < p <= 64 -> max_below (Z.testbit w) p (bit_next_from w p).
Proof.
  intros Hw Hp. unfold bit_next_from. rewrite (proj2 (Z.eqb_neq p 0)) by lia. cbn [negb].
  assert (Hm : is_u64 (mask p)).
  { rewrite mask_eq, Z.ones_equiv by lia. assert (0 < 2 ^ Z.min p 64 <= 2 ^ 64)
      by (split; [apply Z.pow_pos_nonneg; lia|apply Z.pow_le_mono_r; lia]). unfold is_u64. lia. }
  pose proof (bit_first_max _ (u64_land w (mask p) Hw Hm)) as H.
  apply (max_below_restrict _ p) in H; [|lia|lia|].
  - eapply max_below_ext; [|exact H]. intros j Hj. simpl. rewrite Z.land_spec, mask_bits by lia.
    rewrite (proj2 (Z.ltb_lt j p)) by lia. apply andb_true_r.
  - intros j Hj. simpl. rewrite Z.land_spec, mask_bits by lia.
    rewrite (proj2 (Z.ltb_ge j p)) by lia. apply andb_false_r.
Qed.

Lemma bit_next_max w p : is_u64 w -> 0 <= p <= 64 -> max_below (Z.testbit w) p (bit_next w p).
Proof.
  intros Hw Hp. unfold bit_next. destruct (Z.eqb_spec p 0) as [->|].
  - left. split; [done|]. intros j Hj. lia.
  - apply bit_next_from_max; [done|lia].
Qed.

Lemma ctz_pos_spec p : 0 <= ctz_pos p /\ Z.testbit (Zpos p) (ctz_pos p) = true /\
  forall j, 0 <= j < ctz_pos p -> Z.testbit (Zpos p) j = false.
Proof.
  induction p as [p _|p (H0 & H1 & H2)|]; cbn [ctz_pos].
  - split; [lia|]. split; [done|]. intros j Hj. lia.
  - split; [lia|]. change (Zpos (xO p)) with (2 * Zpos p). split.
    + replace (1 + ctz_pos p) with (Z.succ (ctz_pos p)) by lia. by rewrite Z.testbit_even_succ by lia.
    + intros j Hj. destruct (Z.eq_dec j 0) as [->|]; [apply Z.testbit_even_0|].
      replace j with (Z.succ (j - 1)) by lia. rewrite Z.testbit_even_succ by lia. apply H2. lia.
  - split; [lia|]. split; [done|]. intros j Hj. lia.
Qed.

Lemma lsb_first_min w : is_u64 w -> min_from (Z.testbit w) 0 64 (lsb_first w).
Proof.
  intros Hw. unfold lsb_first, builtin_ffsll. destruct w as [|p|p]; [left|right|unfold is_u64 in Hw; lia].
  - split; [done|]. intros j _. apply Z.bits_0.
  - destruct (ctz_pos_spec p) as (H0 & H1 & H2). replace (ctz_pos p + 1 - 1) with (ctz_pos p) by lia.
    split; [|done]. split; [done|]. destruct (Z.lt_ge_cases (ctz_pos p) 64); [done|].
    by rewrite u64_high in H1.
Qed.

Lemma lsb_next_min w p : is_u64 w -> -1 <= p <= 63 -> min_from (Z.testbit w) (p + 1) 64 (lsb_next w p).
Proof.
  intros Hw Hp. unfold lsb_next.
  assert (Hm : is_u64 (mask (p + 1))).
  { rewrite mask_eq, Z.ones_equiv by lia. assert (0 < 2 ^ Z.min (p + 1) 64 <= 2 ^ 64)
      by (split; [apply Z.pow_pos_nonneg; lia|apply Z.pow_le_mono_r; lia]). unfold is_u64. lia. }
  assert (Hb : forall j, 0 <= j < 64 -> Z.testbit (Z.land w (not64 (mask (p + 1)))) j = Z.testbit w j && (p + 1 <=? j)).
  { intros j Hj. rewrite Z.land_spec, not64_bits, mask_bits by (done || lia). f_equal. lia. }
  destruct (lsb_first_min _ (u64_land w _ Hw (not64_u64 (mask (p + 1))))) as [[-> H]|(Hr & HP & H)].
  - left. split; [done|]. intros j Hj. specialize (H j ltac:(lia)). rewrite Hb in H by lia.
    rewrite (proj2 (Z.leb_le (p + 1) j)), andb_true_r in H by lia. done.
  - right. rewrite Hb in HP by lia. apply andb_true_iff in HP as [HP Hle%Z.leb_le]. split; [lia|]. split; [done|].
    intros j Hj. specialize (H j ltac:(lia)). rewrite Hb in H by lia.
    rewrite (proj2 (Z.leb_le (p + 1) j)), andb_true_r in H by lia. done.
Qed.

(** ** Bitmaps as sets of bit numbers *)

Definition member (m : bitmap) (n : Z) : bool :=
  match m !! Z.to_nat (n / 64) with Some w => Z.testbit w (n mod 64) | None => false end.
Definition words (m : bitmap) : Prop := Forall is_u64 m.

Lemma word_lookup m i : words m -> 0 <= i < Z.of_nat (length m) -> exists w, m !! Z.to_nat i = Some w /\ is_u64 w.
Proof.
  intros Hm Hi. destruct (lookup_lt_is_Some_2 m (Z.to_nat i)) as [w Hw]; [lia|]. exists w. split; [done|].
  by apply (Forall_lookup_1 is_u64 m (Z.to_nat i)).
Qed.

Lemma member_word m i w b : 0 <= i -> m !! Z.to_nat i = Some w -> 0 <= b < 64 -> member m (64 * i + b) = Z.testbit w b.
Proof.
  intros Hi Hw Hb. unfold member. replace ((64 * i + b) / 64) with i by (apply (Z.div_unique _ _ _ b); lia).
  rewrite Hw. f_equal. symmetry. apply (Z.mod_unique _ _ i); lia.
Qed.

Lemma split64 j : j = 64 * (j / 64) + j mod 64 /\ 0 <= j mod 64 < 64.
Proof. split; [apply Z.div_mod; lia|apply Z.mod_pos_bound; lia]. Qed.

(** The members in one word. *)
Lemma member_in_word m i w j : 0 <= i -> m !! Z.to_nat i = Some w -> 64 * i <= j < 64 * (i + 1) -> member m j = Z.testbit w (j - 64 * i).
Proof.
  intros Hi Hw Hj. rewrite <- (member_word m i w (j - 64 * i)) by (done || lia). f_equal. lia.
Qed.

Lemma to_s32_small x : - 2 ^ 31 <= x < 2 ^ 31 -> to_s32 x = x.
Proof.
  intros Hx. unfold to_s32, wrap32. destruct (Z.lt_ge_cases x 0).
  - replace (x mod 2 ^ 32) with (x + 2 ^ 32) by (apply (Z.mod_unique _ _ (-1)); lia).
    destruct (Z.ltb_spec (x + 2 ^ 32) (2 ^ 31)); lia.
  - rewrite Z.mod_small by lia. destruct (Z.ltb_spec x (2 ^ 31)); lia.
Qed.

Lemma wp_rd m i w (Q : Z -> bitmap -> Prop) : m !! Z.to_nat i = Some w -> Q w m -> wp (rd i) Q m.
Proof. unfold wp, rd. by intros ->. Qed.

Lemma wp_wr m i w (Q : unit -> bitmap -> Prop) : (Z.to_nat i < length m)%nat -> Q tt (<[Z.to_nat i := w]> m) -> wp (wr i w) Q m.
Proof. intros Hi HQ. unfold wp, wr. by rewrite bool_decide_true. Qed.

Lemma max_below_word m i w r : 0 <= i -> m !! Z.to_nat i = Some w -> forall p, 0 < p <= 64 ->
  max_below (Z.testbit w) p r -> 0 <= r -> max_below (member m) (64 * i + p) (64 * i + r).
Proof.
  intros Hi Hw p Hp [[-> _]|(Hr & HP & H)] Hr0; [lia|]. right. split; [lia|]. split; [by rewrite (member_word m i w) by (done || lia)|].
  intros j Hj. rewrite (member_in_word m i w) by (done || lia). apply H. lia.
Qed.

Lemma search_down_max m : words m -> Z.of_nat (length m) <= 2 ^ 25 -> forall k, (k <= length m)%nat ->
  wp (search_down k) (fun r m' => m' = m /\ max_below (member m) (64 * Z.of_nat k) r) m.
Proof.
  intros Hm Hlen. induction k as [|k IH]; intros Hk; cbn [search_down].
  - apply wp_ret. split; [done|]. left. split; [done|]. intros j Hj. lia.
  - destruct (word_lookup m (Z.of_nat k) Hm) as (w & Hw & Hu); [lia|]. apply wp_bind. eapply wp_rd; [exact Hw|].
    destruct (Z.eqb_spec w 0) as [->|Hne].
    + eapply wp_mono; [apply IH; lia|]. intros r m' [-> Hr]. split; [done|].
      eapply max_below_extend; [|..|exact Hr]; [lia|]. intros j Hj.
      rewrite (member_in_word m (Z.of_nat k) 0) by (done || lia). apply Z.bits_0.
    + apply wp_ret. split; [done|]. pose proof (bit_first_max w Hu) as H.
      assert (0 <= bit_first w < 64) as Hr.
      { destruct H as [[_ H]|[? _]]; [|done]. destruct Hne. apply Z.bits_inj'. intros n Hn. rewrite Z.bits_0.
        destruct (Z.lt_ge_cases n 64); [apply H; lia|by apply u64_high]. }
      rewrite Z.shiftl_mul_pow2, to_s32_small by lia. replace (Z.of_nat k * 2 ^ 6) with (64 * Z.of_nat k) by lia.
      replace (64 * Z.of_nat (S k)) with (64 * Z.of_nat k + 64) by lia.
      eapply max_below_word; eauto; lia.
Qed.

Lemma min_from_word m i w a r : 0 <= i -> m !! Z.to_nat i = Some w -> 0 <= a ->
  min_from (Z.testbit w) a 64 r -> 0 <= r -> forall n, 64 * (i + 1) <= n -> min_from (member m) (64 * i + a) n (64 * i + r).
Proof.
  intros Hi Hw Ha [[-> _]|(Hr & HP & H)] Hr0 n Hn; [lia|]. right. split; [lia|].
  split; [by rewrite (member_word m i w) by (done || lia)|].
  intros j Hj. rewrite (member_in_word m i w) by (done || lia). apply H. lia.
Qed.

Lemma min_from_extend P a b n r : 0 <= a -> a <= b <= n -> (forall j, a <= j < b -> P j = false) -> min_from P b n r -> min_from P a n r.
Proof.
  intros Ha Hab HP [[-> H]|(Hr & HPr & H)].
  - left. split; [done|]. intros j Hj. destruct (Z.lt_ge_cases j b); auto with lia.
  - right. split; [lia|]. split; [done|]. intros j Hj. destruct (Z.lt_ge_cases j b); auto with lia.
Qed.

Lemma search_up_min m : words m -> Z.of_nat (length m) <= 2 ^ 25 -> forall k i, 0 <= i -> i + Z.of_nat k <= Z.of_nat (length m) ->
  wp (search_up k i) (fun r m' => m' = m /\ min_from (member m) (64 * i) (64 * (i + Z.of_nat k)) r) m.
Proof.
  intros Hm Hlen. induction k as [|k IH]; intros i Hi Hk; cbn [search_up].
  - apply wp_ret. split; [done|]. left. split; [done|]. intros j Hj. lia.
  - destruct (word_lookup m i Hm) as (w & Hw & Hu); [lia|]. apply wp_bind. eapply wp_rd; [exact Hw|].
    destruct (Z.eqb_spec w 0) as [->|Hne].
    + eapply wp_mono; [apply IH; lia|]. intros r m' [-> Hr]. split; [done|].
      replace (i + 1 + Z.of_nat k) with (i + Z.of_nat (S k)) in Hr by lia.
      eapply min_from_extend; [| | |exact Hr]; [lia|lia|]. intros j Hj.
      rewrite (member_in_word m i 0) by (done || lia). apply Z.bits_0.
    + apply wp_ret. split; [done|]. pose proof (lsb_first_min w Hu) as H.
      assert (0 <= lsb_first w < 64) as Hr.
      { destruct H as [[_ H]|[? _]]; [|done]. destruct Hne. apply Z.bits_inj'. intros n Hn. rewrite Z.bits_0.
        destruct (Z.lt_ge_cases n 64); [apply H; lia|by apply u64_high]. }
      rewrite Z.shiftl_mul_pow2, to_s32_small by lia. replace (i * 2 ^ 6) with (64 * i) by lia.
      replace (64 * i) with (64 * i + 0) at 1 by lia. eapply min_from_word; eauto; lia.
Qed.

(** *** Index arithmetic *)

Lemma bitmap_index_eq n : 0 <= n < 2 ^ 32 -> bitmap_index n = n / 64.
Proof.
  intros Hn. unfold bitmap_index, bits. rewrite extract_eq, wrap64_small by lia. change (2 ^ 6) with 64.
  apply Z.mod_small. split; [apply Z.div_pos; lia|]. apply Z.div_lt_upper_bound; lia.
Qed.

Lemma bitmap_bit_eq n : 0 <= n < 2 ^ 32 -> bitmap_bit n = n mod 64.
Proof. intros Hn. unfold bitmap_bit, bits. rewrite extract_eq, wrap64_small, Z.div_1_r by lia. done. Qed.

Lemma BITMAP_LEN_eq n : 0 <= n <= 2 ^ 32 - 64 -> BITMAP_LEN n = (n + 63) / 64.
Proof.
  intros Hn. unfold BITMAP_LEN. rewrite (wrap32_small n), wrap32_small, Z.shiftr_div_pow2 by lia. done.
Qed.

Lemma BITMAP_SIZE_eq n : 0 <= n <= 2 ^ 32 - 64 -> BITMAP_SIZE n = 8 * ((n + 63) / 64).
Proof.
  intros Hn. unfold BITMAP_SIZE. rewrite BITMAP_LEN_eq, Z.shiftl_mul_pow2 by lia.
  assert (0 <= (n + 63) / 64 < 2 ^ 27) by (split; [apply Z.div_pos; lia|apply Z.div_lt_upper_bound; lia]).
  rewrite wrap32_small by lia. lia.
Qed.

(** The last word of a bitmap of [n] bits. *)
Lemma last_word n : 1 <= n <= 2 ^ 31 -> bitmap_index (wrap32 (n - 1)) = (n - 1) / 64 /\ (n - 1) / 64 + 1 = (n + 63) / 64.
Proof.
  intros Hn. rewrite wrap32_small by lia. split; [apply bitmap_index_eq; lia|].
  replace (n + 63) with (n - 1 + 1 * 64) by lia. by rewrite Z.div_add.
Qed.

(** *** Single bits *)

Lemma member_insert m i w j : 0 <= j -> (i < length m)%nat ->
  member (<[i := w]> m) j = if decide (i = Z.to_nat (j / 64)) then Z.testbit w (j mod 64) else member m j.
Proof.
  intros Hj Hi. unfold member. destruct (decide (i = Z.to_nat (j / 64))) as [->|Hne].
  - by rewrite list_lookup_insert_eq.
  - by rewrite list_lookup_insert_ne.
Qed.

(** Writing one word back after changing bit [n]. *)
Lemma update_bit m n w w' (f : bool -> bool) : words m -> 0 <= n < 2 ^ 32 -> m !! Z.to_nat (n / 64) = Some w -> is_u64 w' ->
  (forall b, 0 <= b < 64 -> Z.testbit w' b = if b =? n mod 64 then f (Z.testbit w b) else Z.testbit w b) ->
  let m' := <[Z.to_nat (n / 64) := w']> m in
  words m' /\ length m' = length m /\ forall j, 0 <= j -> member m' j = if j =? n then f (member m j) else member m j.
Proof.
  intros Hm Hn Hw Hw' Hb m'. pose proof (lookup_lt_Some _ _ _ Hw) as Hlt. split; [|split].
  - by apply Forall_insert.
  - apply length_insert.
  - intros j Hj. unfold m'. rewrite member_insert by done. destruct (split64 j) as [Ej Hmj], (split64 n) as [En Hmn].
    assert (0 <= j / 64 /\ 0 <= n / 64) as [? ?] by (split; apply Z.div_pos; lia).
    destruct (decide (Z.to_nat (n / 64) = Z.to_nat (j / 64))) as [E|Hne].
    + assert (Eq : j / 64 = n / 64) by lia. rewrite Hb by done. unfold member. rewrite Eq, Hw.
      destruct (Z.eqb_spec (j mod 64) (n mod 64)), (Z.eqb_spec j n); try done; lia.
    + destruct (Z.eqb_spec j n) as [->|]; done.
Qed.

Definition same_but (m m' : bitmap) (n : Z) (v : bool) : Prop :=
  words m' /\ length m' = length m /\ forall j, 0 <= j -> member m' j = if j =? n then v else member m j.

Lemma bit_access m n : words m -> 0 <= n < 2 ^ 32 -> n < 64 * Z.of_nat (length m) ->
  exists w, m !! Z.to_nat (n / 64) = Some w /\ is_u64 w /\ (Z.to_nat (n / 64) < length m)%nat /\
    0 <= n mod 64 < 64 /\ member m n = Z.testbit w (n mod 64).
Proof.
  intros Hm Hn Hlt. destruct (word_lookup m (n / 64) Hm) as (w & Hw & Hu).
  { split; [apply Z.div_pos; lia|apply Z.div_lt_upper_bound; lia]. }
  exists w. split; [done|]. split; [done|]. split; [by eapply lookup_lt_Some|]. split; [apply Z.mod_pos_bound; lia|].
  unfold member. by rewrite Hw.
Qed.

Lemma set_word m n w : words m -> 0 <= n < 2 ^ 32 -> m !! Z.to_nat (n / 64) = Some w -> is_u64 w ->
  same_but m (<[Z.to_nat (n / 64) := bit_set w (n mod 64)]> m) n true.
Proof.
  intros Hm Hn Hw Hu. pose proof (Z.mod_pos_bound n 64 ltac:(lia)) as Hb.
  apply (update_bit m n w _ (fun _ => true)); [done|done|done|by apply bit_set_u64|].
  intros b Hb'. rewrite bit_set_bits by lia. by destruct (b =? n mod 64).
Qed.

Lemma clear_word m n w : words m -> 0 <= n < 2 ^ 32 -> m !! Z.to_nat (n / 64) = Some w -> is_u64 w ->
  same_but m (<[Z.to_nat (n / 64) := bit_clear w (n mod 64)]> m) n false.
Proof.
  intros Hm Hn Hw Hu. pose proof (Z.mod_pos_bound n 64 ltac:(lia)) as Hb.
  apply (update_bit m n w _ (fun _ => false)); [done|done|done|by apply bit_clear_u64|].
  intros b Hb'. rewrite bit_clear_bits by (done || lia). by destruct (b =? n mod 64).
Qed.

Lemma bitmap_bits_run m n : words m -> 0 <= n < 2 ^ 32 -> n < 64 * Z.of_nat (length m) ->
  wp (bitmap_set n) (fun _ m' => same_but m m' n true) m /\
  wp (bitmap_clear n) (fun _ m' => same_but m m' n false) m /\
  wp (bitmap_test n) (fun r m' => r = member m n /\ m' = m) m /\
  wp (atomic_bitmap_set n) (fun r m' => r = member m n /\ same_but m m' n true) m /\
  wp (atomic_bitmap_clear n) (fun r m' => r = member m n /\ same_but m m' n false) m.
Proof.
  intros Hm Hn Hlt. destruct (bit_access m n Hm Hn Hlt) as (w & Hw & Hu & Hi & Hb & Hmem).
  unfold bitmap_set, bitmap_clear, bitmap_test, atomic_bitmap_set, atomic_bitmap_clear, atomic_bit_set, atomic_bit_clear.
  rewrite bitmap_index_eq, bitmap_bit_eq by done.
  split_and!; (apply wp_bind; eapply wp_rd; [exact Hw|]).
  - apply wp_wr; [done|]. by apply set_word.
  - apply wp_wr; [done|]. by apply clear_word.
  - apply wp_ret. by rewrite bit_test_eq, Hmem by done.
  - apply wp_bind, wp_wr; [done|]. apply wp_ret. rewrite bit_test_eq, Hmem by done. split; [done|]. by apply set_word.
  - apply wp_bind, wp_wr; [done|]. apply wp_ret. rewrite bit_test_eq, Hmem by done. split; [done|]. by apply clear_word.
Qed.

(** *** Searches *)

(** A bitmap of [nbits] bits. *)
Definition bitmap_of (m : bitmap) (nbits : Z) : Prop :=
  words m /\ 1 <= nbits <= 2 ^ 31 /\ Z.of_nat (length m) = (nbits + 63) / 64.

Lemma bitmap_of_len m nbits : bitmap_of m nbits ->
  Z.of_nat (length m) <= 2 ^ 25 /\ bitmap_index (wrap32 (nbits - 1)) = Z.of_nat (length m) - 1 /\
  nbits <= 64 * Z.of_nat (length m) < nbits + 64.
Proof.
  intros (Hm & Hn & Hl). destruct (last_word nbits Hn) as [E1 E2].
  assert ((nbits + 63) / 64 <= 2 ^ 25) by (apply Z.lt_succ_r, Z.div_lt_upper_bound; lia).
  pose proof (Z.div_mod (nbits + 63) 64). pose proof (Z.mod_pos_bound (nbits + 63) 64). lia.
Qed.

Lemma bitmap_first_run m nbits : bitmap_of m nbits ->
  wp (bitmap_first nbits) (fun r m' => m' = m /\ max_below (member m) (64 * Z.of_nat (length m)) r) m.
Proof.
  intros Hm. destruct (bitmap_of_len m nbits Hm) as (H1 & H2 & H3). destruct Hm as (Hw & Hn & _).
  unfold bitmap_first. rewrite H2. replace (S (Z.to_nat (Z.of_nat (length m) - 1))) with (length m) by lia.
  by apply search_down_max.
Qed.

Lemma bitmap_lsb_first_run m nbits : bitmap_of m nbits ->
  wp (bitmap_lsb_first nbits) (fun r m' => m' = m /\ min_from (member m) 0 (64 * Z.of_nat (length m)) r) m.
Proof.
  intros Hm. destruct (bitmap_of_len m nbits Hm) as (H1 & H2 & H3). destruct Hm as (Hw & Hn & _).
  unfold bitmap_lsb_first. rewrite H2. replace (S (Z.to_nat (Z.of_nat (length m) - 1))) with (length m) by lia.
  apply (search_up_min m Hw H1 (length m) 0); lia.
Qed.

Lemma bitmap_next_run m nbits prev : bitmap_of m nbits -> 0 <= prev <= 64 * Z.of_nat (length m) ->
  wp (bitmap_next prev) (fun r m' => m' = m /\ max_below (member m) prev r) m.
Proof.
  intros Hm Hp. destruct (bitmap_of_len m nbits Hm) as (H1 & H2 & H3). destruct Hm as (Hw & Hn & _).
  unfold bitmap_next. destruct (Z.eqb_spec prev 0) as [->|Hne].
  { apply wp_ret. split; [done|]. left. split; [done|]. intros j Hj. lia. }
  rewrite wrap32_small, bitmap_index_eq by lia. fold (bitmap_bit prev). rewrite bitmap_bit_eq by lia.
  destruct (split64 (prev - 1)) as [E Hb]. assert (Hi : 0 <= (prev - 1) / 64) by (apply Z.div_pos; lia).
  set (i := (prev - 1) / 64) in *. destruct (word_lookup m i Hw) as (w & Hwi & Hu); [lia|].
  apply wp_bind. eapply wp_rd; [exact Hwi|]. cbv zeta.
  assert (Hmax : max_below (Z.testbit w) (prev - 64 * i) (bit_next_from w (prev mod 64))).
  { destruct (Z.eq_dec ((prev - 1) mod 64) 63) as [E63|].
    - replace (prev mod 64) with 0 by (apply (Z.mod_unique _ _ (i + 1)); lia).
      replace (prev - 64 * i) with 64 by lia. replace (bit_next_from w 0) with (bit_first w); [by apply bit_first_max|].
      unfold bit_next_from. cbn [Z.eqb negb]. change (wrap64 (-1)) with (Z.ones 64).
      rewrite Z.land_ones, Z.mod_small by (unfold is_u64 in Hu; lia). done.
    - replace (prev mod 64) with (prev - 64 * i) by (apply (Z.mod_unique _ _ i); lia).
      apply bit_next_from_max; [done|lia]. }
  replace prev with (64 * i + (prev - 64 * i)) by lia. set (p := prev - 64 * i) in *.
  replace ((64 * i + p) mod 64) with (prev mod 64) by (f_equal; lia). set (r := bit_next_from w (prev mod 64)) in *.
  destruct (Z.leb_spec 0 r) as [Hr|Hr].
  - apply wp_ret. split; [done|]. rewrite Z.shiftl_mul_pow2 by lia. replace (r + i * 2 ^ 6) with (64 * i + r) by lia.
    assert (r < 64) by (destruct Hmax as [[? _]|[? _]]; lia).
    rewrite to_s32_small by lia. eapply max_below_word; eauto. lia.
  - eapply wp_mono; [apply search_down_max; [done|done|lia]|]. intros r' m' [-> Hr']. split; [done|].
    rewrite Z2Nat.id in Hr' by lia. eapply max_below_extend; [| |exact Hr']; [lia|].
    intros j Hj. rewrite (member_in_word m i w) by (done || lia). destruct Hmax as [[_ H]|[? _]]; [|lia]. apply H. lia.
Qed.

Lemma bitmap_lsb_next_run m nbits prev : bitmap_of m nbits -> -1 <= prev < nbits ->
  wp (bitmap_lsb_next nbits (wrap32 prev)) (fun r m' => m' = m /\
    if nbits <=? prev + 1 then r = -1 else min_from (member m) (prev + 1) (64 * Z.of_nat (length m)) r) m.
Proof.
  intros Hm Hp. destruct (bitmap_of_len m nbits Hm) as (H1 & H2 & H3). destruct Hm as (Hw & Hn & _).
  unfold bitmap_lsb_next. assert (Ep : wrap32 (wrap32 prev + 1) = prev + 1).
  { unfold wrap32. rewrite Z.add_mod_idemp_l by lia. apply Z.mod_small. lia. }
  rewrite Ep. cbv zeta. destruct (Z.leb_spec nbits (prev + 1)); [by apply wp_ret|].
  rewrite bitmap_index_eq by lia. fold (bitmap_bit (prev + 1)). rewrite bitmap_bit_eq by lia.
  destruct (split64 (prev + 1)) as [E Hb]. assert (Hi : 0 <= (prev + 1) / 64) by (apply Z.div_pos; lia).
  set (i := (prev + 1) / 64) in *. set (b := (prev + 1) mod 64) in *.
  destruct (word_lookup m i Hw) as (w & Hwi & Hu); [lia|]. apply wp_bind. eapply wp_rd; [exact Hwi|].
  assert (Eb : to_s32 (wrap32 (b - 1)) = b - 1).
  { unfold to_s32. assert (E' : wrap32 (wrap32 (b - 1)) = wrap32 (b - 1)) by (unfold wrap32; by rewrite Z.mod_mod by lia).
    rewrite E'. apply (to_s32_small (b - 1)). lia. }
  rewrite Eb. pose proof (lsb_next_min w (b - 1) Hu ltac:(lia)) as Hmin. replace (b - 1 + 1) with b in Hmin by lia.
  set (r := lsb_next w (b - 1)) in *. rewrite E. destruct (Z.leb_spec 0 r) as [Hr|Hr].
  - apply wp_ret. split; [done|]. rewrite Z.shiftl_mul_pow2 by lia. replace (r + i * 2 ^ 6) with (64 * i + r) by lia.
    assert (r < 64) by (destruct Hmin as [[? _]|[? _]]; lia).
    rewrite to_s32_small by lia. eapply min_from_word; eauto; lia.
  - rewrite H2. eapply wp_mono; [apply search_up_min; [done|done|lia|lia]|]. intros r' m' [-> Hr']. split; [done|].
    replace (i + 1 + Z.of_nat (Z.to_nat (Z.of_nat (length m) - 1 - i))) with (Z.of_nat (length m)) in Hr' by lia.
    eapply min_from_extend; [| | |exact Hr']; [lia|lia|]. intros j Hj. rewrite (member_in_word m i w) by (done || lia).
    destruct Hmin as [[_ H']|[? _]]; [|lia]. apply H'. lia.
Qed.

(** The masked search is the search in the difference of the bitmaps. *)
Definition difference (m mask : bitmap) : bitmap := zip_with (fun w x => Z.land w (not64 x)) m mask.

Lemma and_not_down_eq mask m : forall k, (k <= length m)%nat -> (k <= length mask)%nat ->
  and_not_down mask k m = match search_down k (difference m mask) with Done r _ => Done r m | Fault _ => Fault m end.
Proof.
  induction k as [|k IH]; intros Hk Hk'; [done|]. cbn [and_not_down search_down]. unfold bind, rd. rewrite Nat2Z.id.
  destruct (lookup_lt_is_Some_2 m k) as [w Hw]; [lia|]. destruct (lookup_lt_is_Some_2 mask k) as [x Hx]; [lia|].
  rewrite Hw, Hx. unfold difference. rewrite lookup_zip_with, Hw, Hx. simpl.
  destruct (_ =? 0); [by rewrite IH by lia|done].
Qed.

Lemma difference_words m mask : words m -> words (difference m mask).
Proof.
  intros Hm. revert mask. induction Hm as [|w m Hw Hm IH]; intros [|x mask]; simpl; constructor.
  - apply u64_land; [done|apply not64_u64].
  - apply IH.
Qed.

Lemma difference_member m mask j : words mask -> length mask = length m ->
  0 <= j -> member (difference m mask) j = member m j && negb (member mask j).
Proof.
  intros Hx Hl Hj. unfold member, difference. rewrite lookup_zip_with.
  destruct (m !! Z.to_nat (j / 64)) as [w|] eqn:Hw; [|done]. simpl.
  destruct (lookup_lt_is_Some_2 mask (Z.to_nat (j / 64))) as [x Hxi]; [rewrite Hl; by eapply lookup_lt_Some|].
  rewrite Hxi. simpl. pose proof (Z.mod_pos_bound j 64 ltac:(lia)).
  rewrite Z.land_spec, not64_bits; [done| |lia]. by apply (Forall_lookup_1 is_u64 mask (Z.to_nat (j / 64))).
Qed.

Lemma bitmap_and_not_run m mask nbits : bitmap_of m nbits -> words mask -> length mask = length m ->
  wp (bitmap_and_not_mask_first mask nbits)
     (fun r m' => m' = m /\ max_below (fun j => member m j && negb (member mask j)) (64 * Z.of_nat (length m)) r) m.
Proof.
  intros Hm Hx Hl. destruct (bitmap_of_len m nbits Hm) as (H1 & H2 & H3). destruct Hm as (Hw & Hn & _).
  unfold bitmap_and_not_mask_first. rewrite H2. replace (S (Z.to_nat (Z.of_nat (length m) - 1))) with (length m) by lia.
  assert (Hd : length (difference m mask) = length m) by (unfold difference; rewrite length_zip_with; lia).
  pose proof (search_down_max (difference m mask) (difference_words m mask Hw) ltac:(lia) (length m) ltac:(lia)) as H.
  unfold wp in *. rewrite and_not_down_eq by lia. destruct (search_down _ _) as [r m'|]; [|done].
  destruct H as [_ H]. split; [done|]. eapply max_below_ext; [|exact H]. intros j Hj. by rewrite difference_member by (done || lia).
Qed.

(** *** Whole bitmaps *)

Lemma memset_run c m n : 0 <= n -> n <= Z.of_nat (length m) ->
  wp (memset c (8 * n)) (fun _ m' => length m' = length m /\
    m' = replicate (Z.to_nat n) (c mod 2 ^ 8 * 0x0101010101010101) ++ drop (Z.to_nat n) m) m.
Proof.
  intros Hn Hl. unfold wp, memset. replace (8 * n / 8) with n by (rewrite Z.mul_comm, Z.div_mul; lia).
  rewrite bool_decide_true by lia. split; [|done]. rewrite length_app, length_replicate, length_drop. lia.
Qed.

Lemma member_replicate n w m j : 0 <= j < 64 * Z.of_nat n -> member (replicate n w ++ m) j = Z.testbit w (j mod 64).
Proof.
  intros Hj. assert (0 <= j / 64 < Z.of_nat n) by (split; [apply Z.div_pos; lia|apply Z.div_lt_upper_bound; lia]).
  unfold member. rewrite lookup_app_l by (rewrite length_replicate; lia). rewrite lookup_replicate_2 by lia. done.
Qed.

Lemma bitmap_fill_run m nbits : 1 <= nbits <= 2 ^ 32 - 64 -> (nbits + 63) / 64 <= Z.of_nat (length m) ->
  wp (bitmap_zero nbits) (fun _ m' => length m' = length m /\
    forall j, 0 <= j < 64 * ((nbits + 63) / 64) -> member m' j = false) m /\
  wp (bitmap_full nbits) (fun _ m' => length m' = length m /\
    forall j, 0 <= j < 64 * ((nbits + 63) / 64) -> member m' j = true) m.
Proof.
  intros Hn Hl. assert (Hq : 0 <= (nbits + 63) / 64) by (apply Z.div_pos; lia).
  unfold bitmap_zero, bitmap_full. rewrite BITMAP_SIZE_eq by lia.
  split; (eapply wp_mono; [by apply memset_run|]); intros [] m' [Hlen ->]; (split; [done|]); intros j Hj;
    rewrite member_replicate by lia.
  - apply Z.bits_0.
  - change ((-1) mod 2 ^ 8 * 0x0101010101010101) with (Z.ones 64). pose proof (Z.mod_pos_bound j 64 ltac:(lia)).
    apply Z.ones_spec_low. lia.
Qed.

(** *** Rotations *)

Lemma ror64_eq x n : is_u64 x -> n mod 64 <> 0 ->
  bit_ror64 x n = Some (x / 2 ^ (n mod 64) + (x mod 2 ^ (n mod 64)) * 2 ^ (64 - n mod 64)).
Proof.
  intros Hx Hn. unfold is_u64 in Hx. unfold bit_ror64. rewrite Builtins.land63. set (k := n mod 64) in *.
  pose proof (Z.mod_pos_bound n 64 ltac:(lia)) as Hk. fold k in Hk. cbv zeta. unfold shr64, shl64.
  replace ((0 <=? k) && (k <? 64)) with true by lia. replace ((0 <=? 64 - k) && (64 - k <? 64)) with true by lia. simpl.
  f_equal. rewrite Z.shiftr_div_pow2, Z.shiftl_mul_pow2 by lia. unfold wrap64.
  assert (E : 2 ^ 64 = 2 ^ k * 2 ^ (64 - k)) by (rewrite <- Z.pow_add_r by lia; f_equal; lia).
  assert (0 < 2 ^ k /\ 0 < 2 ^ (64 - k)) as [? ?] by (split; apply Z.pow_pos_nonneg; lia).
  rewrite E at 1. rewrite Z.mul_mod_distr_r by lia.
  rewrite Z.lor_comm, (lor_fields _ (x mod 2 ^ k) _ (64 - k)); [lia|lia| |done].
  split; [apply Z.div_pos; lia|]. apply Z.div_lt_upper_bound; lia.
Qed.

Lemma rotations x n : is_u64 x -> n mod 64 <> 0 ->
  bit_ror64 x n = Some (x / 2 ^ (n mod 64) + (x mod 2 ^ (n mod 64)) * 2 ^ (64 - n mod 64)) /\
  bit_rol64 x n = bit_ror64 x (- n).
Proof.
  intros Hx Hn. split; [by apply ror64_eq|]. unfold bit_ror64, bit_rol64. rewrite !Builtins.land63.
  pose proof (Z.mod_pos_bound n 64 ltac:(lia)). rewrite Z.mod_opp_l_nz by lia. set (k := n mod 64) in *. cbv zeta.
  replace (64 - (64 - k)) with k by lia. unfold shr64, shl64.
  replace ((0 <=? k) && (k <? 64)) with true by lia. replace ((0 <=? 64 - k) && (64 - k <? 64)) with true by lia.
  simpl. by rewrite Z.lor_comm.
Qed.

Lemma rotation_zero x n : n mod 64 = 0 -> bit_ror64 x n = None /\ bit_rol64 x n = None.
Proof. intros Hn. unfold bit_ror64, bit_rol64. rewrite Builtins.land63, Hn. done. Qed.

(** ** Properties *)

(** C29. The word functions on all arguments in range: [bits] is the field
    between two bit positions, set, clear and test change and read one bit,
    [bit_first] and [bit_next] find the highest set bit (below a position),
    [lsb_first] and [lsb_next] the lowest (above a position), [bit_floor] and
    [bit_ceiling] are the rounded logarithms (not the powers of two the
    comments promise), and the rotations are rotations except that a count
    that is a multiple of 64 shifts by 64, which C leaves undefined. *)
Theorem word_bits (x b : Z) (Hx : is_u64 x) (Hb : 0 <= b < 64) :
  (forall hi lo, 0 <= lo <= hi -> hi < 64 -> bits x hi lo = x / 2 ^ lo mod 2 ^ (hi - lo + 1)) /\
  (bit_test x b = Z.testbit x b /\ forall j, 0 <= j ->
    Z.testbit (bit_set x b) j = (j =? b) || Z.testbit x j /\
    Z.testbit (bit_clear x b) j = negb (j =? b) && Z.testbit x j) /\
  (max_below (Z.testbit x) 64 (bit_first x) /\ max_below (Z.testbit x) b (bit_next x b)) /\
  (min_from (Z.testbit x) 0 64 (lsb_first x) /\ min_from (Z.testbit x) (b + 1) 64 (lsb_next x b) /\
    lsb_next x (-1) = lsb_first x) /\
  (0 < x -> 2 ^ bit_floor x <= x < 2 ^ (bit_floor x + 1) /\
    x <= 2 ^ bit_ceiling x /\ (1 < x -> 2 ^ (bit_ceiling x - 1) < x)) /\
  (forall n, n mod 64 <> 0 ->
    bit_ror64 x n = Some (x / 2 ^ (n mod 64) + (x mod 2 ^ (n mod 64)) * 2 ^ (64 - n mod 64)) /\
    bit_rol64 x n = bit_ror64 x (- n)) /\
  (forall n, n mod 64 = 0 -> bit_ror64 x n = None /\ bit_rol64 x n = None).
Proof.
  split; [|split; [|split; [|split; [|split; [|split]]]]].
  - intros hi lo Hlo Hhi. unfold bits. rewrite extract_eq, wrap64_small by (done || lia). done.
  - split; [by apply bit_test_eq|]. intros j Hj. split; [by apply bit_set_bits|by apply bit_clear_bits].
  - split; [by apply bit_first_max|]. apply bit_next_max; [done|lia].
  - split; [by apply lsb_first_min|]. split; [apply lsb_next_min; [done|lia]|].
    unfold lsb_next. f_equal. change (not64 (mask (-1 + 1))) with (Z.ones 64). rewrite Z.land_ones by lia. by apply Z.mod_small.
  - intros Hpos. unfold bit_floor, bit_ceiling, bit_first, builtin_clzll. rewrite (proj2 (Z.eqb_neq x 0)) by lia.
    replace (63 - (63 - Z.log2 x)) with (Z.log2 x) by lia.
    split; [replace (Z.log2 x + 1) with (Z.succ (Z.log2 x)) by lia; by apply Z.log2_spec|].
    destruct (Z.eqb_spec (x - 1) 0) as [E|Hne].
    + change (2 ^ (-1 + 1)) with 1. split; lia.
    + replace (63 - (63 - Z.log2 (x - 1))) with (Z.log2 (x - 1)) by lia. destruct (Z.log2_spec (x - 1)) as [H1 H2]; [lia|].
      replace (Z.log2 (x - 1) + 1 - 1) with (Z.log2 (x - 1)) by lia.
      replace (Z.log2 (x - 1) + 1) with (Z.succ (Z.log2 (x - 1))) by lia. split; lia.
  - intros n Hn. apply rotations; done.
  - intros n Hn. apply rotation_zero. done.
Qed.

Lemma word_bits_witness : bit_next 40 5 = 3 /\ bit_ror64 40 3 = Some 5.
Proof.
  destruct (word_bits 40 5) as (_ & _ & [_ H] & _ & _ & Hr & _); [unfold is_u64; lia|lia|]. split.
  - destruct H as [[_ H]|(H0 & H1 & H2)]; [specialize (H 3 ltac:(lia)); discriminate|].
    assert (C : bit_next 40 5 = 0 \/ bit_next 40 5 = 1 \/ bit_next 40 5 = 2 \/ bit_next 40 5 = 3 \/ bit_next 40 5 = 4) by lia.
    destruct C as [C|[C|[C|[C|C]]]]; rewrite C in *; (done || discriminate H1).
  - destruct (Hr 3) as [E _]; [by vm_compute|]. rewrite E. reflexivity.
Defined.

Lemma bitmap_operations_spec (m : bitmap) (nbits : Z) (Hm : bitmap_of m nbits) :
  (forall n, 0 <= n < nbits ->
    wp (bitmap_set n) (fun _ m' => same_but m m' n true) m /\
    wp (bitmap_clear n) (fun _ m' => same_but m m' n false) m /\
    wp (bitmap_test n) (fun r m' => r = member m n /\ m' = m) m /\
    wp (atomic_bitmap_set n) (fun r m' => r = member m n /\ same_but m m' n true) m /\
    wp (atomic_bitmap_clear n) (fun r m' => r = member m n /\ same_but m m' n false) m) /\
  wp (bitmap_first nbits) (fun r m' => m' = m /\ max_below (member m) (64 * Z.of_nat (length m)) r) m /\
  wp (bitmap_lsb_first nbits) (fun r m' => m' = m /\ min_from (member m) 0 (64 * Z.of_nat (length m)) r) m /\
  (forall mask, words mask -> length mask = length m ->
    wp (bitmap_and_not_mask_first mask nbits) (fun r m' => m' = m /\
      max_below (fun j => member m j && negb (member mask j)) (64 * Z.of_nat (length m)) r) m) /\
  (forall prev, 0 <= prev <= nbits -> wp (bitmap_next prev) (fun r m' => m' = m /\ max_below (member m) prev r) m) /\
  (forall prev, -1 <= prev < nbits -> wp (bitmap_lsb_next nbits (wrap32 prev)) (fun r m' => m' = m /\
    if nbits <=? prev + 1 then r = -1 else min_from (member m) (prev + 1) (64 * Z.of_nat (length m)) r) m).
Proof.
  destruct (bitmap_of_len m nbits Hm) as (H1 & H2 & H3).
  split; [intros n Hn; destruct Hm as (Hw & ? & _); apply bitmap_bits_run; [done|lia|lia]|].
  split; [by apply bitmap_first_run|]. split; [by apply bitmap_lsb_first_run|].
  split; [intros mask; by apply bitmap_and_not_run|].
  split; [intros prev Hp; apply (bitmap_next_run m nbits); [done|lia]|].
  intros prev Hp. by apply bitmap_lsb_next_run.
Qed.

Lemma bitmap_allocation_spec (kalloc : Z -> option bitmap) (nbits : Z)
  (Hk : forall size m, kalloc size = Some m -> 8 * Z.of_nat (length m) = size) :
  (1 <= nbits <= 2 ^ 32 - 64 ->
    bitmap_free nbits = Done (8 * ((nbits + 63) / 64)) tt /\
    match bitmap_alloc kalloc nbits with
    | Done None _ => kalloc (8 * ((nbits + 63) / 64)) = None
    | Done (Some m) _ => Z.of_nat (length m) = (nbits + 63) / 64 /\ forall j, 0 <= j < nbits -> member m j = false
    | Fault _ => False
    end) /\
  (forall m, 1 <= nbits <= 2 ^ 32 - 64 -> (nbits + 63) / 64 <= Z.of_nat (length m) ->
    wp (bitmap_full nbits) (fun _ m' => length m' = length m /\
      forall j, 0 <= j < 64 * ((nbits + 63) / 64) -> member m' j = true) m) /\
  (bitmap_alloc kalloc 0 = Fault tt /\ bitmap_free 0 = Fault tt) /\
  (2 ^ 32 - 64 < nbits < 2 ^ 32 -> BITMAP_SIZE nbits = 0).
Proof.
  split; [|split; [intros m Hn Hl; by apply bitmap_fill_run|split; [done|]]].
  - intros Hn. unfold bitmap_alloc, bitmap_free. rewrite BITMAP_SIZE_eq, (proj2 (Z.ltb_lt 0 nbits)) by lia.
    split; [done|]. destruct (kalloc _) as [m|] eqn:Ek; [|done]. apply Hk in Ek.
    destruct (bitmap_fill_run m nbits) as [Hz _]; [lia|lia|]. unfold wp in Hz.
    destruct (bitmap_zero nbits m) as [[] m'|]; [|done]. destruct Hz as [Hl Hj]. split; [lia|].
    intros j Hj'. apply Hj. pose proof (Z.div_mod (nbits + 63) 64). pose proof (Z.mod_pos_bound (nbits + 63) 64). lia.
  - intros Hn. unfold BITMAP_SIZE, BITMAP_LEN. rewrite (wrap32_small nbits) by lia.
    replace (wrap32 (nbits + 63)) with (nbits + 63 - 2 ^ 32) by (apply (Z.mod_unique _ _ 1); lia).
    rewrite Z.shiftr_div_pow2, Z.div_small by lia. done.
Qed.

(** C30. Bitmaps of up to 2^31 bits are sets of bit numbers: set, clear and test
    (plain and atomic) change and read exactly the bit they name, the atomic
    ones return its old value; [bitmap_first], [bitmap_lsb_first],
    [bitmap_and_not_mask_first], [bitmap_next] and [bitmap_lsb_next] find the
    largest, smallest, next lower and next higher member of the whole words,
    or return -1; no access leaves the array.  [bitmap_alloc] returns null or a
    bitmap of the whole words for its bits with none of them set,
    [bitmap_free] gives back the size that was allocated, [bitmap_full] sets
    every bit of the words and no other, and an empty bitmap trips the
    assertion; but the size is computed at 32 bits, so that it is 0 for the 63
    largest bit counts. *)
Theorem bitmap_operations (kalloc : Z -> option bitmap)
  (Hk : forall size m, kalloc size = Some m -> 8 * Z.of_nat (length m) = size) :
  (forall m nbits, bitmap_of m nbits ->
  (forall n, 0 <= n < nbits ->
      wp (bitmap_set n) (fun _ m' => same_but m m' n true) m /\
      wp (bitmap_clear n) (fun _ m' => same_but m m' n false) m /\
      wp (bitmap_test n) (fun r m' => r = member m n /\ m' = m) m /\
      wp (atomic_bitmap_set n) (fun r m' => r = member m n /\ same_but m m' n true) m /\
      wp (atomic_bitmap_clear n) (fun r m' => r = member m n /\ same_but m m' n false) m) /\
    wp (bitmap_first nbits) (fun r m' => m' = m /\ max_below (member m) (64 * Z.of_nat (length m)) r) m /\
    wp (bitmap_lsb_first nbits) (fun r m' => m' = m /\ min_from (member m) 0 (64 * Z.of_nat (length m)) r) m /\
    (forall mask, words mask -> length mask = length m ->
      wp (bitmap_and_not_mask_first mask nbits) (fun r m' => m' = m /\
        max_below (fun j => member m j && negb (member mask j)) (64 * Z.of_nat (length m)) r) m) /\
    (forall prev, 0 <= prev <= nbits -> wp (bitmap_next prev) (fun r m' => m' = m /\ max_below (member m) prev r) m) /\
    (forall prev, -1 <= prev < nbits -> wp (bitmap_lsb_next nbits (wrap32 prev)) (fun r m' => m' = m /\
      if nbits <=? prev + 1 then r = -1 else min_from (member m) (prev + 1) (64 * Z.of_nat (length m)) r) m)) /\
  (forall nbits,
  (1 <= nbits <= 2 ^ 32 - 64 ->
      bitmap_free nbits = Done (8 * ((nbits + 63) / 64)) tt /\
      match bitmap_alloc kalloc nbits with
      | Done None _ => kalloc (8 * ((nbits + 63) / 64)) = None
      | Done (Some m) _ => Z.of_nat (length m) = (nbits + 63) / 64 /\ forall j, 0 <= j < nbits -> member m j = false
      | Fault _ => False
      end) /\
    (forall m, 1 <= nbits <= 2 ^ 32 - 64 -> (nbits + 63) / 64 <= Z.of_nat (length m) ->
      wp (bitmap_full nbits) (fun _ m' => length m' = length m /\
        forall j, 0 <= j < 64 * ((nbits + 63) / 64) -> member m' j = true) m) /\
    (bitmap_alloc kalloc 0 = Fault tt /\ bitmap_free 0 = Fault tt) /\
    (2 ^ 32 - 64 < nbits < 2 ^ 32 -> BITMAP_SIZE nbits = 0)).
Proof. split; [intros m nbits; apply bitmap_operations_spec|intros nbits; by apply bitmap_allocation_spec]. Qed.

Lemma bitmap_operations_witness :
  wp (bitmap_next 67) (fun r m' => m' = [5; 8] /\ max_below (member [5; 8]) 67 r) [5; 8] /\
  bitmap_free 100 = Done 16 tt /\ bitmap_alloc (fun size => Some (replicate (Z.to_nat (size / 8)) 7)) 100 = Done (Some [0; 0]) tt.
Proof.
  destruct (bitmap_operations (fun size => if size mod 8 =? 0 then if 0 <=? size then Some (replicate (Z.to_nat (size / 8)) 7) else None else None))
    as [Ho Ha].
  - intros size m. destruct (Z.eqb_spec (size mod 8) 0); [|done]. destruct (Z.leb_spec 0 size); [|done]. intros [= <-].
    rewrite length_replicate. pose proof (Z.div_mod size 8). pose proof (Z.div_pos size 8). lia.
  - split.
    + destruct (Ho [5; 8] 100) as (_ & _ & _ & _ & H & _); [|apply H; lia].
      split; [repeat constructor; unfold is_u64; lia|]. split; [lia|reflexivity].
    + destruct (Ha 100) as [[H _] _]; [lia|]. split; [exact H|by vm_compute].
Defined.

End Bits.
