(* ===== verification/Ring.v ===== *)
(** * Ring: pointer memory and circular link structures

    The list headers of the kernel SDK ([kern/queue.h], [kern/circle_queue.h],
    [sys/queue.h]) are pointer manipulations on embedded link fields.  Their
    memory is a finite map from the addresses of pointer-sized cells to the
    pointers they hold; an access to an unmapped cell, the null pointer
    included, faults.

    All of them are rings of nodes, with or without a head node, that differ
    in where the links are and what a link stores: the section [Ring] is the
    theory they share. *)

From Stdlib Require Import ZArith Lia Bool.
From stdpp Require Import base list option gmap.
From S2P Require Import Prelude.
Open Scope Z_scope.

(** ** Memory *)

Abbreviation mem := (gmap Z Z).
Definition NULL : Z := 0.

Definition load (a : Z) : M mem Z :=
  fun h => match h !! a with Some v => Done v h | None => Fault h end.
Definition store (a v : Z) : M mem unit :=
  fun h => match h !! a with Some _ => Done tt (<[a := v]> h) | None => Fault h end.

Lemma wp_load a v (Q : Z -> mem -> Prop) (h : mem) : h !! a = Some v -> Q v h -> wp (load a) Q h.
Proof. unfold wp, load. by intros ->. Qed.

Lemma wp_store a v (Q : unit -> mem -> Prop) (h : mem) :
  is_Some (h !! a) -> Q tt (<[a := v]> h) -> wp (store a v) Q h.
Proof. unfold wp, store. by intros [? ->]. Qed.

Lemma is_Some_insert (h : mem) a b v : is_Some (h !! b) -> is_Some (<[a := v]> h !! b).
Proof.
  intros Hb. destruct (decide (a = b)) as [->|]; [rewrite lookup_insert_eq; eauto|by rewrite lookup_insert_ne].
Qed.

(** What a cell holds, mapped or not. *)
Definition cellat (h : mem) (a : Z) : Z := default 0 (h !! a).

Lemma cellat_insert h a v b : cellat (<[a := v]> h) b = if decide (a = b) then v else cellat h b.
Proof.
  unfold cellat. destruct (decide (a = b)) as [->|Hne]; [by rewrite lookup_insert_eq|by rewrite lookup_insert_ne].
Qed.

(** ** Places in a cyclic list that starts at [q] *)

Definition successor (a : Z) (l : list Z) : Z := match l with [] => a | b :: _ => b end.

(** The node in front of position [length l1] of the ring [q :: l1 ++ _]. *)
Definition predecessor (q : Z) (l1 : list Z) : Z := List.last l1 q.

Lemma predecessor_snoc q l p : predecessor q (l ++ [p]) = p.
Proof. apply List.last_last. Qed.

Lemma predecessor_nil q : predecessor q [] = q.
Proof. done. Qed.

Lemma predecessor_elem q l : predecessor q l ∈ q :: l.
Proof.
  destruct l as [|p l _] using rev_ind; [simpl; set_solver|]. rewrite predecessor_snoc. set_solver.
Qed.

Lemma predecessor_cons q n x l : predecessor q (x :: l) = predecessor n (x :: l).
Proof. revert x. induction l as [|y l IH]; intros x; [done|]. exact (IH y). Qed.

Lemma predecessor_in q x l : predecessor q (x :: l) ∈ x :: l.
Proof. replace (predecessor q (x :: l)) with (predecessor x l) by (destruct l; [done|exact (predecessor_cons x q _ _)]). apply predecessor_elem. Qed.

Lemma successor_elem q l : successor q l ∈ q :: l.
Proof. destruct l; simpl; set_solver. Qed.

(** The two neighbours of a place are different nodes, but in an empty ring. *)
Lemma neighbours q l1 l2 : NoDup (q :: l1 ++ l2) -> l1 ++ l2 <> [] -> predecessor q l1 <> successor q l2.
Proof.
  intros [Hq Hnd]%NoDup_cons Hne. apply NoDup_app in Hnd as (_ & Hd & _).
  destruct l1 as [|p l1 _] using rev_ind; destruct l2 as [|s l2]; rewrite ?predecessor_snoc; simpl in *.
  - done.
  - set_solver.
  - set_solver.
  - intros ->. apply (Hd s); set_solver.
Qed.

(** The ring seen from the predecessor of a position. *)
Definition rest (q : Z) (l1 l2 : list Z) : list Z :=
  match l1 with [] => l2 | _ => l2 ++ q :: List.removelast l1 end.

Lemma rest_cons q l1 e l2 : rest q l1 (e :: l2) = e :: rest q l1 l2.
Proof. by destruct l1. Qed.

Lemma rest_snoc q l p l2 : rest q (l ++ [p]) l2 = l2 ++ q :: l.
Proof. unfold rest. rewrite List.removelast_last. by destruct l. Qed.

Lemma successor_rest q l1 l2 : successor (predecessor q l1) (rest q l1 l2) = successor q l2.
Proof.
  destruct l1 as [|p l1 _] using rev_ind; [done|]. rewrite predecessor_snoc, rest_snoc. by destruct l2.
Qed.

Lemma elem_rest q l1 l2 x : x ∈ predecessor q l1 :: rest q l1 l2 <-> x ∈ q :: l1 ++ l2.
Proof.
  destruct l1 as [|p l1 _] using rev_ind; [done|]. rewrite predecessor_snoc, rest_snoc. set_solver.
Qed.

(** ** Rings

    [nx x] is the cell of the forward link of node [x] and [pv x] the cell of
    its backward link, if it has one; a forward link to [y] stores [fw y], a
    backward link to [x] stores [bk x]. *)
Record shape : Type := mkShape {
  nx : Z -> Z;
  pv : Z -> option Z;
  fw : Z -> Z;
  bk : Z -> Z
}.

Section Ring.
Context (S : shape).

Definition linked (h : mem) (a b : Z) : Prop :=
  h !! nx S a = Some (fw S b) /\ forall c, pv S b = Some c -> h !! c = Some (bk S a).

Fixpoint chain (h : mem) (l : list Z) : Prop :=
  match l with
  | a :: ((b :: _) as l') => linked h a b /\ chain h l'
  | _ => True
  end.

Lemma chain_app h l1 x l2 : chain h (l1 ++ x :: l2) <-> chain h (l1 ++ [x]) /\ chain h (x :: l2).
Proof.
  induction l1 as [|a l1 IH]; [simpl; tauto|]. destruct l1 as [|b l1].
  - simpl. tauto.
  - change (linked h a b /\ chain h ((b :: l1) ++ x :: l2)
      <-> (linked h a b /\ chain h ((b :: l1) ++ [x])) /\ chain h (x :: l2)). rewrite IH. tauto.
Qed.

Lemma linked_frame h h' a b :
  h' !! nx S a = h !! nx S a -> (forall c, pv S b = Some c -> h' !! c = h !! c) -> linked h a b -> linked h' a b.
Proof.
  intros Ha Hb [H1 H2]. split; [by rewrite Ha|]. intros c Hc. rewrite (Hb c Hc). auto.
Qed.

(** A path is kept when the forward links of all nodes but the last and the
    backward links of all but the first are. *)
Lemma chain_frame h h' : forall l a z,
  (forall x, x ∈ a :: l -> h' !! nx S x = h !! nx S x) ->
  (forall x c, x ∈ l ++ [z] -> pv S x = Some c -> h' !! c = h !! c) ->
  chain h (a :: l ++ [z]) -> chain h' (a :: l ++ [z]).
Proof.
  induction l as [|b l IH]; intros a z Hn Hp.
  - simpl. intros [H _]. split; [|done]. eapply linked_frame; [| |exact H].
    + apply Hn. set_solver.
    + intros c. apply Hp. set_solver.
  - simpl app. intros [H Hc]. split.
    + eapply linked_frame; [| |exact H]; [apply Hn; set_solver|]. intros c. apply Hp. set_solver.
    + apply IH; [set_solver| |exact Hc]. intros x c Hx. apply Hp. set_solver.
Qed.

(** [h'] is [h] up to the cells named. *)
Definition upto (h h' : mem) (ks : list Z) : Prop := forall k, k ∉ ks -> h' !! k = h !! k.
Definition cells_pv (x : Z) : list Z := match pv S x with Some c => [c] | None => [] end.

Lemma elem_cells_pv x c : c ∈ cells_pv x <-> pv S x = Some c.
Proof. unfold cells_pv. destruct (pv S x); set_solver. Qed.

(** The nodes in use, whose cells do not overlap. *)
Context (D : Z -> Prop).

Definition disjoint_cells : Prop := forall x y, D x -> D y ->
  (nx S x = nx S y -> x = y) /\
  (forall c, pv S x = Some c -> pv S y = Some c -> x = y) /\
  pv S y <> Some (nx S x).

(** [l] is the ring starting at its first node. *)
Definition ring (h : mem) (l : list Z) : Prop :=
  NoDup l /\ Forall D l /\ match l with [] => True | a :: _ => chain h (l ++ [a]) end.

(** The cells of the nodes [l]. *)
Definition cell_of (l : list Z) (k : Z) : Prop := exists x, x ∈ l /\ (k = nx S x \/ pv S x = Some k).
(** Only cells of the nodes [l] may differ. *)
Definition touches (l : list Z) (h h' : mem) : Prop :=
  forall k, ~ cell_of l k -> h' !! k = h !! k.

Lemma ring_frame h h' l :
  (forall k, cell_of l k -> h' !! k = h !! k) -> ring h l -> ring h' l.
Proof.
  intros Hf (Hnd & HD & Hc). split; [done|]. split; [done|]. destruct l as [|a l]; [done|].
  apply (chain_frame h h' l a a); [| |exact Hc].
  - intros x Hx. apply Hf. exists x. auto.
  - intros x c Hx Hc'. apply Hf. exists x. split; [set_solver|auto].
Qed.

Lemma ring_rotate h a l1 b l2 : ring h (a :: l1 ++ b :: l2) -> ring h (b :: l2 ++ a :: l1).
Proof.
  intros (Hnd & HD & Hc). split; [|split].
  - change (NoDup ((b :: l2) ++ a :: l1)). by rewrite (Permutation_app_comm (b :: l2)).
  - rewrite Forall_forall in *. set_solver.
  - change (chain h ((a :: l1 ++ b :: l2) ++ [a])) in Hc.
    replace ((a :: l1 ++ b :: l2) ++ [a]) with ((a :: l1) ++ b :: (l2 ++ [a])) in Hc
      by (simpl; by rewrite <- app_assoc).
    apply chain_app in Hc as [H1 H2].
    replace ((b :: l2 ++ a :: l1) ++ [b]) with ((b :: l2) ++ a :: (l1 ++ [b])) by (simpl; by rewrite <- app_assoc).
    apply chain_app. split; [exact H2|exact H1].
Qed.

Lemma ring_linked h a l : ring h (a :: l) -> linked h a (successor a l).
Proof. intros (_ & _ & Hc). destruct l; simpl in *; tauto. Qed.

Lemma ring_D h l x : ring h l -> x ∈ l -> D x.
Proof. intros (_ & HD & _). rewrite Forall_forall in HD. auto. Qed.

Hypothesis cells : disjoint_cells.

Lemma nx_inj x y : D x -> D y -> nx S x = nx S y -> x = y.
Proof. intros Hx Hy. by destruct (cells x y Hx Hy) as [? _]. Qed.
Lemma pv_inj x y c : D x -> D y -> pv S x = Some c -> pv S y = Some c -> x = y.
Proof. intros Hx Hy. destruct (cells x y Hx Hy) as (_ & H & _). eauto. Qed.
Lemma nx_pv x y c : D x -> D y -> pv S y = Some c -> nx S x <> c.
Proof. intros Hx Hy Hc <-. by destruct (cells x y Hx Hy) as (_ & _ & H). Qed.

(** The rest of a ring does not see a change of the links around [e]. *)
Lemma path_upto h h' p e s r : NoDup (p :: e :: s :: r) -> Forall D (p :: e :: s :: r) ->
  upto h h' (nx S p :: nx S e :: cells_pv e ++ cells_pv s) ->
  chain h (s :: r ++ [p]) -> chain h' (s :: r ++ [p]).
Proof.
  intros Hnd HD Hup. rewrite !NoDup_cons, !not_elem_of_cons in Hnd. rewrite Forall_forall in HD.
  destruct Hnd as ((Hpe & Hps & Hpr) & (Hes & Her) & Hsr & _).
  assert (HDp : D p) by (apply HD; set_solver). assert (HDe : D e) by (apply HD; set_solver).
  assert (HDs : D s) by (apply HD; set_solver). assert (HDr : forall x, x ∈ r -> D x) by (intros; apply HD; set_solver).
  apply chain_frame.
  - intros x Hx. assert (HDx : D x) by (apply elem_of_cons in Hx as [->|]; auto).
    apply Hup. rewrite !not_elem_of_cons, not_elem_of_app, !elem_cells_pv. split; [|split; [|split]].
    + intros E%nx_inj; [|auto..]. set_solver.
    + intros E%nx_inj; [|auto..]. set_solver.
    + intros E. by apply (nx_pv x e _) in E.
    + intros E. by apply (nx_pv x s _) in E.
  - intros x c Hx Hxc.
    assert (HDx : D x) by (apply elem_of_app in Hx as [Hx| ->%list_elem_of_singleton]; auto).
    apply Hup. rewrite !not_elem_of_cons, not_elem_of_app, !elem_cells_pv. split; [|split; [|split]].
    + intros ->. by apply (nx_pv p x _) in Hxc.
    + intros ->. by apply (nx_pv e x _) in Hxc.
    + intros E. assert (x = e) as -> by eauto using pv_inj. set_solver.
    + intros E. assert (x = s) as -> by eauto using pv_inj. set_solver.
Qed.

(** Linking a new node behind the first one. *)
Lemma ring_insert h h' p e r : ring h (p :: r) -> e ∉ p :: r -> D e ->
  linked h' p e -> linked h' e (successor p r) ->
  upto h h' (nx S p :: nx S e :: cells_pv e ++ cells_pv (successor p r)) ->
  ring h' (p :: e :: r).
Proof.
  intros (Hnd & HD & Hc) He HDe Hpe Hes Hup.
  assert (Hnd' : NoDup (p :: e :: r)).
  { rewrite !NoDup_cons in *. set_solver. }
  assert (HD' : Forall D (p :: e :: r)) by (inversion_clear HD; by repeat constructor).
  split; [done|]. split; [done|]. split; [done|]. destruct r as [|s r]; [by split|]. split; [done|].
  eapply path_upto; [exact Hnd'|exact HD'|exact Hup|apply Hc].
Qed.

(** Unlinking the node behind the first one. *)
Lemma ring_delete h h' p e r : ring h (p :: e :: r) ->
  linked h' p (successor p r) ->
  upto h h' (nx S p :: nx S e :: cells_pv e ++ cells_pv (successor p r)) ->
  ring h' (p :: r).
Proof.
  intros (Hnd & HD & Hc) Hl Hup. split; [|split].
  - rewrite !NoDup_cons in *. set_solver.
  - inversion_clear HD as [|? ? ? HD']. inversion_clear HD'. by constructor.
  - destruct r as [|s r]; [by split|]. split; [done|].
    eapply path_upto; [exact Hnd|exact HD|exact Hup|apply Hc].
Qed.

(** ** The same operations at any place of a ring that starts at its head *)

Lemma ring_at h q l1 l2 : ring h (q :: l1 ++ l2) <-> ring h (predecessor q l1 :: rest q l1 l2).
Proof.
  destruct l1 as [|p l1 _] using rev_ind; [done|]. rewrite predecessor_snoc, rest_snoc, <- app_assoc.
  split; intros H; by apply ring_rotate.
Qed.

Lemma ring_linked_at h q l1 l2 : ring h (q :: l1 ++ l2) -> linked h (predecessor q l1) (successor q l2).
Proof. intros H%ring_at%ring_linked. by rewrite successor_rest in H. Qed.

Lemma ring_insert_at h h' q l1 l2 e : ring h (q :: l1 ++ l2) -> e ∉ q :: l1 ++ l2 -> D e ->
  linked h' (predecessor q l1) e -> linked h' e (successor q l2) ->
  upto h h' (nx S (predecessor q l1) :: nx S e :: cells_pv e ++ cells_pv (successor q l2)) ->
  ring h' (q :: l1 ++ e :: l2).
Proof.
  intros Hr He HD Hp Hs Hup. apply ring_at. rewrite rest_cons. apply ring_at in Hr.
  apply (ring_insert h); rewrite ?successor_rest; try done. by rewrite elem_rest.
Qed.

Lemma ring_delete_at h h' q l1 e l2 : ring h (q :: l1 ++ e :: l2) ->
  linked h' (predecessor q l1) (successor q l2) ->
  upto h h' (nx S (predecessor q l1) :: nx S e :: cells_pv e ++ cells_pv (successor q l2)) ->
  ring h' (q :: l1 ++ l2).
Proof.
  intros Hr Hl Hup. apply ring_at. apply ring_at in Hr. rewrite rest_cons in Hr.
  apply (ring_delete h _ _ e); rewrite ?successor_rest; done.
Qed.

(** Rings on other nodes are not affected. *)
Lemma touches_ring h h' l l' : Forall D l -> (forall x, x ∈ l -> x ∉ l') ->
  touches l h h' -> ring h l' -> ring h' l'.
Proof.
  intros HD Hd Ht Hr. rewrite Forall_forall in HD. eapply ring_frame; [|exact Hr].
  intros k (x & Hx & Hk). apply Ht. intros (y & Hy & Hk'). pose proof (ring_D _ _ _ Hr Hx) as HDx.
  specialize (HD y Hy). apply (Hd y Hy). enough (x = y) by congruence.
  destruct Hk as [->|Hk], Hk' as [Hk'|Hk'].
  - by apply nx_inj.
  - by apply (nx_pv x y) in Hk'.
  - subst. by apply (nx_pv y x) in Hk.
  - by apply (pv_inj x y k).
Qed.

End Ring.
