(* ===== verification/Lists.v ===== *)
(** * Lists: any number of linked lists in one memory

    The list headers of the kernel SDK keep each list behind a head and link
    its members by fields inside them.  The specification state maps the
    address of every head to the list of its members; [repr] says that memory
    holds these lists as rings of some [shape], on disjoint sets of nodes.
    This file has what all of them share: how a change of a few links changes
    the specification state. *)

From Stdlib Require Import ZArith Lia Bool.
From stdpp Require Import base list option gmap.
From S2P Require Import Prelude Ring.
Open Scope Z_scope.

Abbreviation queues := (gmap Z (list Z)).

(** [x] is a head or a member. *)
Definition used (A : queues) (x : Z) : Prop := exists q l, A !! q = Some l /\ x ∈ q :: l.

#[export] Instance used_dec A x : Decision (used A x).
Proof.
  pose (P := fun (q : Z) (l : list Z) => x ∈ q :: l).
  assert (HP : forall q l, Decision (P q l)) by (intros q l; unfold P; apply _).
  exact (map_Exists_dec P A).
Defined.

(** No node is on two lists. *)
Definition separate (A : queues) : Prop := forall q1 q2 l1 l2 x,
  A !! q1 = Some l1 -> A !! q2 = Some l2 -> x ∈ q1 :: l1 -> x ∈ q2 :: l2 -> q1 = q2.

Lemma used_ne A q l x e : A !! q = Some l -> x ∈ q :: l -> ~ used A e -> x <> e.
Proof. intros Hq Hx Hu ->. apply Hu. exists q, l. auto. Qed.

Lemma separate_delete A q : separate A -> separate (delete q A).
Proof. intros H q1 q2 l1 l2 x. rewrite !lookup_delete_Some. intros [_ ?] [_ ?]. eauto. Qed.

(** One list gets other nodes: its old ones, or free ones. *)
Lemma separate_insert A q l' : separate A ->
  (forall x q2 l2, x ∈ q :: l' -> q2 <> q -> A !! q2 = Some l2 -> x ∉ q2 :: l2) -> separate (<[q := l']> A).
Proof.
  intros Hs Hnew q1 q2 l1 l2 x.
  destruct (decide (q1 = q)) as [->|H1], (decide (q2 = q)) as [->|H2];
    rewrite ?lookup_insert_eq, ?lookup_insert_ne by done; try done.
  - intros [= <-] Hq2 Hx Hx2. by destruct (Hnew x q2 l2).
  - intros Hq1 [= <-] Hx Hx2. by destruct (Hnew x q1 l1).
  - apply Hs.
Qed.

Lemma last_predecessor q l x : x ∈ l -> predecessor q l = x -> last l = Some x.
Proof.
  destruct l as [|z m _] using rev_ind; [by intros ?%not_elem_of_nil|]. rewrite predecessor_snoc, last_snoc. congruence.
Qed.

Lemma head_successor q l x : x ∈ l -> successor q l = x -> head l = Some x.
Proof. destruct l; [by intros ?%not_elem_of_nil|]. simpl. congruence. Qed.

Lemma apart_lists A q1 l1 q2 l2 x : separate A -> A !! q1 = Some l1 -> A !! q2 = Some l2 -> q1 <> q2 ->
  x ∈ q1 :: l1 -> x ∉ q2 :: l2.
Proof. intros Hs H1 H2 Hne Hx Hx2. apply Hne. exact (Hs _ _ _ _ _ H1 H2 Hx Hx2). Qed.

(** [h'] has the cells of [h]. *)
Definition same_cells (h h' : mem) : Prop := forall k, is_Some (h !! k) -> is_Some (h' !! k).

Section Lists.
Context (S : shape).

Lemma chain_l h l1 l2 : chain S h (l1 ++ l2) -> chain S h l1.
Proof.
  destruct l1 as [|z l1 _] using rev_ind; [done|]. rewrite <- app_assoc. simpl. intros H. apply chain_app in H. apply H.
Qed.

Lemma chain_r h l1 l2 : chain S h (l1 ++ l2) -> chain S h l2.
Proof. destruct l2 as [|x l2]; [done|]. intros H. by apply chain_app in H as [_ H]. Qed.

Lemma chain_join h l1 x l2 : chain S h l1 -> chain S h (x :: l2) ->
  (forall m z, l1 = m ++ [z] -> linked S h z x) -> chain S h (l1 ++ x :: l2).
Proof.
  intros H1 H2 Hl. destruct l1 as [|z l1 _] using rev_ind; [done|]. rewrite <- app_assoc. simpl.
  apply chain_app. split; [done|]. split; [|done]. by apply (Hl l1).
Qed.

(** *** Changes named by nodes

    At most the forward links of the nodes [fs] and the backward links of the
    nodes [bs] change. *)
Definition changed (h h' : mem) (fs bs : list Z) : Prop := forall k,
  (forall x, x ∈ fs -> k <> nx S x) -> (forall x, x ∈ bs -> pv S x <> Some k) -> h' !! k = h !! k.

Lemma changed_touches h h' fs bs X : fs ++ bs ⊆ X -> changed h h' fs bs -> touches S X h h'.
Proof.
  intros HX Hc k Hk. apply Hc.
  - intros x Hx ->. apply Hk. exists x. split; [apply HX; set_solver|auto].
  - intros x Hx E. apply Hk. exists x. split; [apply HX; set_solver|auto].
Qed.

Lemma changed_upto h h' p e s : changed h h' [p; e] [e; s] ->
  upto h h' (nx S p :: nx S e :: cells_pv S e ++ cells_pv S s).
Proof.
  intros Hc k Hk. rewrite !not_elem_of_cons, not_elem_of_app, !elem_cells_pv in Hk.
  destruct Hk as (? & ? & ? & ?). apply Hc; intros x Hx;
    rewrite !elem_of_cons, elem_of_nil in Hx; destruct Hx as [->|[->|[]]]; done.
Qed.

Context (U : gset Z).

Abbreviation in_U := (fun x => x ∈ U).

Record repr (h : mem) (A : queues) : Prop := mkRepr {
  repr_ring q l : A !! q = Some l -> ring S in_U h (q :: l);
  repr_disjoint : separate A;
  repr_cells k : cell_of S (elements U) k -> is_Some (h !! k)
}.

(** Memory outside the nodes is not written. *)
Definition outside (h h' : mem) : Prop := touches S (elements U) h h'.

(** A node that is no member of a list, and no head or a head whose members
    are given up. *)
Definition reusable (A : queues) (q : Z) : Prop := q ∈ U /\ ~ used (delete q A) q.

Lemma outside_trans h1 h2 h3 : outside h1 h2 -> outside h2 h3 -> outside h1 h3.
Proof. intros H1 H2 k Hk. by rewrite H2, H1. Qed.

Lemma repr_U h A q l x : repr h A -> A !! q = Some l -> x ∈ q :: l -> x ∈ U.
Proof. intros HR Hq. apply (ring_D _ _ _ _ _ (repr_ring _ _ HR q l Hq)). Qed.

Lemma repr_NoDup h A q l : repr h A -> A !! q = Some l -> NoDup (q :: l).
Proof. intros HR Hq. apply (repr_ring _ _ HR q l Hq). Qed.

Lemma touches_outside X h h' : Forall in_U X -> touches S X h h' -> outside h h'.
Proof.
  intros HX Ht k Hk. apply Ht. intros (x & Hx & Hkx). apply Hk. exists x. split; [|done].
  apply elem_of_elements. exact (proj1 (Forall_forall _ _) HX x Hx).
Qed.

(** Forgetting a list. *)
Lemma forget_repr h A q : repr h A -> repr h (delete q A).
Proof.
  intros [H1 H2 H3]. split; [|by apply separate_delete|done].
  intros q' l. rewrite lookup_delete_Some. intros [_ ?]. auto.
Qed.

(** A member that was deleted is free. *)
Lemma deleted_unused h A q l1 e l2 : repr h A -> A !! q = Some (l1 ++ e :: l2) -> ~ used (<[q := l1 ++ l2]> A) e.
Proof.
  intros HR Hq (q' & l' & Hq' & Hin). pose proof (repr_NoDup h A q _ HR Hq) as Hnd.
  destruct (decide (q' = q)) as [->|Hne].
  - rewrite lookup_insert_eq in Hq'. injection Hq' as <-.
    rewrite NoDup_cons, NoDup_app, NoDup_cons in Hnd. set_solver.
  - rewrite lookup_insert_ne in Hq' by done. apply Hne.
    eapply (repr_disjoint _ _ HR); [exact Hq'|exact Hq|exact Hin|set_solver].
Qed.

Lemma separate_update A q l l' : separate A -> A !! q = Some l ->
  (forall x, x ∈ l' -> x ∈ l \/ ~ used A x) -> separate (<[q := l']> A).
Proof.
  intros Hs Hq Hl'. apply separate_insert; [done|]. intros x q2 l2 Hx Hne Hq2 Hx2.
  assert (Hx' : x ∈ q :: l \/ ~ used A x).
  { apply elem_of_cons in Hx as [->|Hx]; [left; set_solver|]. destruct (Hl' x Hx); [left; set_solver|auto]. }
  destruct Hx' as [Hx'|Hx'].
  - apply Hne. exact (Hs q2 q l2 l x Hq2 Hq Hx2 Hx').
  - apply Hx'. exists q2, l2. auto.
Qed.

(** The links around a position. *)
Lemma repr_linked h A q l1 l2 : repr h A -> A !! q = Some (l1 ++ l2) ->
  linked S h (predecessor q l1) (successor q l2) /\ predecessor q l1 ∈ U /\ successor q l2 ∈ U.
Proof.
  intros HR Hq. pose proof (repr_ring _ _ HR _ _ Hq) as Hr. split; [by apply (ring_linked_at _ _ _ _ _ _ Hr)|].
  pose proof (predecessor_elem q l1). pose proof (successor_elem q l2).
  split; eapply repr_U; [exact HR|exact Hq|set_solver|exact HR|exact Hq|set_solver].
Qed.

Hypothesis cells : disjoint_cells S in_U.

(** Only links of the nodes [X] change; the lists that have none of them are
    kept. *)
Lemma repr_change h h' A A' X : repr h A -> separate A' -> Forall in_U X ->
  touches S X h h' -> same_cells h h' ->
  (forall q l, A' !! q = Some l ->
    ring S in_U h' (q :: l) \/ A !! q = Some l /\ forall x, x ∈ X -> x ∉ q :: l) ->
  repr h' A' /\ outside h h'.
Proof.
  intros HR Hs HX Ht Hc Hl. split; [|by apply (touches_outside X)]. split; [|done|].
  - intros q l Hq. destruct (Hl q l Hq) as [Hr|[Hr Hd]]; [done|].
    apply (touches_ring S in_U cells h h' X); [done|done|done|]. by apply (repr_ring _ _ HR).
  - intros k Hk. by apply Hc, (repr_cells _ _ HR).
Qed.

(** One list changes, taking in free nodes. *)
Lemma repr_update h h' A q l l' : repr h A -> A !! q = Some l -> ring S in_U h' (q :: l') ->
  (forall x, x ∈ l' -> x ∈ l \/ ~ used A x) ->
  touches S (q :: l ++ l') h h' -> same_cells h h' ->
  repr h' (<[q := l']> A) /\ outside h h'.
Proof.
  intros HR Hq Hr Hl' Ht Hc.
  apply (repr_change h h' A _ (q :: l ++ l') HR); [|  |done|done|].
  - apply (separate_update A q l); [apply (repr_disjoint _ _ HR)|done|done].
  - rewrite Forall_forall. intros x Hx. rewrite elem_of_cons, elem_of_app in Hx.
    destruct Hx as [->|[Hx|Hx]]; [apply (repr_U h A q l q HR Hq); set_solver|apply (repr_U h A q l x HR Hq); set_solver|].
    apply (ring_D _ _ _ _ _ Hr). set_solver.
  - intros q2 l2. destruct (decide (q2 = q)) as [->|Hne].
    + rewrite lookup_insert_eq. intros [= <-]. by left.
    + rewrite lookup_insert_ne by done. intros Hq2. right. split; [done|]. intros x Hx Hx2. apply Hne.
      rewrite elem_of_cons, elem_of_app in Hx.
      assert (Hx' : x ∈ q :: l \/ ~ used A x) by (destruct Hx as [->|[?|?]]; [set_solver|set_solver|destruct (Hl' x); [done|set_solver|auto]]).
      destruct Hx' as [Hx'|Hx']; [exact (repr_disjoint _ _ HR q2 q l2 l x Hq2 Hq Hx2 Hx')|].
      destruct Hx'. exists q2, l2. auto.
Qed.

(** A fresh node becomes the head of a new list. *)
Lemma new_repr h h' A q l : repr h A -> ~ used A q -> (forall x, x ∈ l -> ~ used A x) ->
  ring S in_U h' (q :: l) -> touches S (q :: l) h h' -> same_cells h h' ->
  repr h' (<[q := l]> A) /\ outside h h'.
Proof.
  intros HR Hu Hl Hr Ht Hc.
  assert (Hnew : forall q2 l2 x, A !! q2 = Some l2 -> x ∈ q :: l -> x ∉ q2 :: l2).
  { intros q2 l2 x Hq2 Hx Hx2. assert (~ used A x) as Hux by (apply elem_of_cons in Hx as [->|]; auto).
    apply Hux. exists q2, l2. auto. }
  apply (repr_change h h' A _ (q :: l) HR); [|apply Hr|done|done|].
  - apply separate_insert; [apply (repr_disjoint _ _ HR)|]. intros x q2 l2 Hx _ Hq2. by apply Hnew.
  - intros q2 l2. destruct (decide (q2 = q)) as [->|Hne].
    + rewrite lookup_insert_eq. intros [= <-]. by left.
    + rewrite lookup_insert_ne by done. intros Hq2. right. split; [done|]. intros x. by apply Hnew.
Qed.

(** A stretch of nodes keeps its links when no forward link but the last and
    no backward link but the first changes. *)
Lemma chain_kept h h' fs bs l : Forall in_U l -> Forall in_U (fs ++ bs) -> changed h h' fs bs ->
  (forall x, x ∈ fs -> x ∉ List.removelast l) -> (forall x, x ∈ bs -> x ∉ tail l) ->
  chain S h l -> chain S h' l.
Proof.
  intros HU HX Hc Hf Hb. destruct l as [|a l]; [done|]. destruct l as [|z l _] using rev_ind; [done|].
  rewrite app_comm_cons, List.removelast_last in Hf. simpl tail in Hb.
  rewrite Forall_forall in HU, HX. apply (chain_frame S h h' l a z).
  - intros x Hx. apply Hc.
    + intros y Hy E. apply (nx_inj S in_U cells) in E; [subst; by apply (Hf y)|apply HU; set_solver|apply HX; set_solver].
    + intros y Hy E. apply (nx_pv S in_U cells x y) in E; [done|apply HU; set_solver|apply HX; set_solver].
  - intros x c Hx Hxc. apply Hc.
    + intros y Hy ->. apply (nx_pv S in_U cells y x) in Hxc; [done|apply HX; set_solver|apply HU; set_solver].
    + intros y Hy E. assert (x = y) as -> by (apply (pv_inj S in_U cells x y c); [apply HU; set_solver|apply HX; set_solver|done|done]).
      by apply (Hb y).
Qed.

(** A ring is its inner stretch and the two links of its head. *)
Lemma ring_close h q l : NoDup (q :: l) -> Forall in_U (q :: l) -> chain S h l ->
  linked S h q (successor q l) -> linked S h (predecessor q l) q -> ring S in_U h (q :: l).
Proof.
  intros Hnd HU Hc Hf Hb. split; [done|]. split; [done|].
  destruct l as [|z m _] using rev_ind; [by split|]. rewrite predecessor_snoc in Hb.
  replace ((q :: m ++ [z]) ++ [q]) with ((q :: m) ++ z :: [q]) by (simpl; by rewrite <- app_assoc).
  rewrite chain_app. split; [|by split]. destruct m; by split.
Qed.

Lemma ring_chain h q l : ring S in_U h (q :: l) -> chain S h l.
Proof.
  intros (_ & _ & Hc). change (chain S h ([q] ++ l ++ [q])) in Hc. by apply chain_r, chain_l in Hc.
Qed.

(** *** What the operations do to the lists, whatever the order of their writes *)

Lemma insert_lists h h' A q l1 l2 e : repr h A -> A !! q = Some (l1 ++ l2) -> e ∈ U -> ~ used A e ->
  linked S h' (predecessor q l1) e -> linked S h' e (successor q l2) ->
  changed h h' [predecessor q l1; e] [e; successor q l2] -> same_cells h h' ->
  repr h' (<[q := l1 ++ e :: l2]> A) /\ outside h h'.
Proof.
  intros HR Hq He Hu Hp Hs Hc Hsc. apply (repr_update h h' A q (l1 ++ l2)); [done|done| | | |done].
  - apply (ring_insert_at S in_U cells h); [by apply (repr_ring _ _ HR)| |done|done|done|by apply changed_upto].
    intros Hin. by apply (used_ne A q _ e e Hq).
  - set_solver.
  - eapply changed_touches; [|exact Hc]. pose proof (predecessor_elem q l1). pose proof (successor_elem q l2). set_solver.
Qed.

Lemma delete_lists h h' A q l1 e l2 : repr h A -> A !! q = Some (l1 ++ e :: l2) ->
  linked S h' (predecessor q l1) (successor q l2) ->
  changed h h' [predecessor q l1; e] [e; successor q l2] -> same_cells h h' ->
  repr h' (<[q := l1 ++ l2]> A) /\ outside h h'.
Proof.
  intros HR Hq Hl Hc Hsc. apply (repr_update h h' A q (l1 ++ e :: l2)); [done|done| | | |done].
  - apply (ring_delete_at S in_U cells h _ _ _ e); [by apply (repr_ring _ _ HR)|done|by apply changed_upto].
  - set_solver.
  - eapply changed_touches; [|exact Hc]. pose proof (predecessor_elem q l1). pose proof (successor_elem q l2). set_solver.
Qed.

(** A head whose members, if any, are given up. *)
Lemma init_lists h h' A q : repr h A -> reusable A q ->
  linked S h' q q -> changed h h' [q] [q] -> same_cells h h' ->
  repr h' (<[q := []]> A) /\ outside h h'.
Proof.
  intros HR [HqU Hu] Hl Hc Hsc. rewrite <- (insert_delete_eq A q []).
  apply (new_repr h); [by apply forget_repr|done|set_solver| | |done].
  - split; [apply NoDup_singleton|]. split; [by constructor|]. by split.
  - apply (changed_touches h h' [q] [q]); [set_solver|done].
Qed.

(** The stretch [l] between two changes of links: only its last node may have
    another successor and only its first another predecessor. *)
Lemma stretch_kept h h' fs bs l : NoDup l -> Forall in_U l -> Forall in_U (fs ++ bs) -> changed h h' fs bs ->
  (forall x, x ∈ fs -> x ∈ l -> last l = Some x) -> (forall x, x ∈ bs -> x ∈ l -> head l = Some x) ->
  chain S h l -> chain S h' l.
Proof.
  intros Hnd HU HX Hc Hf Hb. apply (chain_kept h h' fs bs); [done|done|done| |].
  - intros x Hx Hin. destruct l as [|z m _] using rev_ind; [by apply not_elem_of_nil in Hin|].
    rewrite List.removelast_last in Hin. specialize (Hf x Hx ltac:(set_solver)). rewrite last_snoc in Hf.
    apply NoDup_app in Hnd as (_ & Hd & _). apply (Hd x Hin). set_solver.
  - intros x Hx Hin. destruct l as [|z m]; [by apply not_elem_of_nil in Hin|]. simpl in Hin.
    specialize (Hb x Hx ltac:(set_solver)). simpl in Hb. apply NoDup_cons in Hnd as [Hz _]. congruence.
Qed.

(** Members get a (new) head. *)
Lemma ring_adopt h h' fs bs n l : NoDup (n :: l) -> Forall in_U (n :: l) -> Forall in_U (fs ++ bs) ->
  changed h h' fs bs ->
  (forall x, x ∈ fs -> x ∈ l -> last l = Some x) -> (forall x, x ∈ bs -> x ∈ l -> head l = Some x) ->
  chain S h l -> linked S h' n (successor n l) -> linked S h' (predecessor n l) n -> ring S in_U h' (n :: l).
Proof.
  intros Hnd HU HX Hc Hf Hb Hl Hfirst Hlast. apply ring_close; [done|done| |done|done].
  apply NoDup_cons in Hnd as [_ Hnd]. inversion_clear HU. by apply (stretch_kept h h' fs bs).
Qed.

(** The first nodes of a list are dropped. *)
Lemma drop_lists h h' A q l1 l2 : repr h A -> A !! q = Some (l1 ++ l2) ->
  linked S h' q (successor q l2) -> linked S h' (predecessor q l2) q ->
  changed h h' [q] [q; successor q l2] -> same_cells h h' ->
  repr h' (<[q := l2]> A) /\ outside h h'.
Proof.
  intros HR Hq Hf Hb Hc Hsc. pose proof (repr_ring _ _ HR _ _ Hq) as Hr. destruct Hr as (Hnd & HU & _).
  assert (Hnd' : NoDup (q :: l2)) by (rewrite NoDup_cons, NoDup_app in Hnd; apply NoDup_cons; set_solver).
  assert (HU' : Forall in_U (q :: l2)) by (rewrite Forall_forall in *; set_solver).
  pose proof (successor_elem q l2) as Hs. apply NoDup_cons in Hnd as [Hqn _].
  apply (repr_update h h' A q (l1 ++ l2)); [done|done| |set_solver| |done].
  - apply (ring_adopt h h' [q] [q; successor q l2]); [done|done| |done|set_solver| | |done|done].
    + rewrite Forall_forall in *. set_solver.
    + intros x Hx Hin. apply (head_successor q); set_solver.
    + apply (chain_r h l1). by apply (ring_chain h q), (repr_ring _ _ HR).
  - eapply changed_touches; [|exact Hc]. set_solver.
Qed.

(** Two lists change their members among themselves. *)
Lemma pair_lists h h' A q1 l1 q2 l2 m1 m2 : repr h A -> A !! q1 = Some l1 -> A !! q2 = Some l2 -> q1 <> q2 ->
  (forall x, x ∈ m1 ++ m2 -> x ∈ l1 ++ l2) -> (forall x, x ∈ m1 -> x ∉ m2) ->
  ring S in_U h' (q1 :: m1) -> ring S in_U h' (q2 :: m2) ->
  touches S (q1 :: q2 :: l1 ++ l2) h h' -> same_cells h h' ->
  repr h' (<[q2 := m2]> (<[q1 := m1]> A)) /\ outside h h'.
Proof.
  intros HR H1 H2 Hne Hm Hd Hr1 Hr2 Ht Hsc. pose proof (repr_disjoint _ _ HR) as Hsep.
  assert (Hother : forall q l x, q <> q1 -> q <> q2 -> A !! q = Some l -> x ∈ q1 :: q2 :: l1 ++ l2 -> x ∉ q :: l).
  { intros q l x Hn1 Hn2 Hq Hx. rewrite !elem_of_cons, elem_of_app in Hx.
    assert (x ∈ q1 :: l1 \/ x ∈ q2 :: l2) as [Hx'|Hx'] by set_solver; [by apply (apart_lists A q1 l1)|by apply (apart_lists A q2 l2)]. }
  assert (Hin1 : forall x, x ∈ q1 :: m1 -> x ∈ q1 :: q2 :: l1 ++ l2) by set_solver.
  assert (Hin2 : forall x, x ∈ q2 :: m2 -> x ∈ q1 :: q2 :: l1 ++ l2) by set_solver.
  assert (Hq1 : q1 ∉ q2 :: m2).
  { intros [->|Hin]%elem_of_cons; [done|]. assert (q1 ∈ l1 ++ l2) as Hin' by set_solver.
    apply elem_of_app in Hin' as [Hin'|Hin'].
    - pose proof (repr_NoDup _ _ _ _ HR H1) as [? _]%NoDup_cons. done.
    - apply (apart_lists A q1 l1 q2 l2 q1); [done|done|done|done|set_solver|set_solver]. }
  assert (Hq2 : q2 ∉ q1 :: m1).
  { intros [->|Hin]%elem_of_cons; [done|]. assert (q2 ∈ l1 ++ l2) as Hin' by set_solver.
    apply elem_of_app in Hin' as [Hin'|Hin'].
    - apply (apart_lists A q2 l2 q1 l1 q2); [done|done|done|done|set_solver|set_solver].
    - pose proof (repr_NoDup _ _ _ _ HR H2) as [? _]%NoDup_cons. done. }
  apply (repr_change h h' A _ (q1 :: q2 :: l1 ++ l2)); [done| | |done|done|].
  - rewrite <- (insert_delete_eq (<[q1 := m1]> A) q2), delete_insert_ne by done.
    apply separate_insert; [apply separate_insert; [by apply separate_delete|]|].
    + intros x q l Hx Hn. rewrite lookup_delete_Some. intros [Hn2 Hq]. by apply Hother; auto.
    + intros x q l Hx Hn. destruct (decide (q = q1)) as [->|Hn1].
      * rewrite lookup_insert_eq. intros [= <-]. set_solver.
      * rewrite lookup_insert_ne by done. rewrite lookup_delete_Some. intros [_ Hq]. by apply Hother; auto.
  - rewrite Forall_forall. intros x Hx. rewrite !elem_of_cons, elem_of_app in Hx.
    assert (x ∈ q1 :: l1 \/ x ∈ q2 :: l2) as [Hx'|Hx'] by set_solver;
      [by apply (repr_U h A q1 l1)|by apply (repr_U h A q2 l2)].
  - intros q l. destruct (decide (q = q2)) as [->|Hn2]; [rewrite lookup_insert_eq; intros [= <-]; by left|].
    rewrite lookup_insert_ne by done.
    destruct (decide (q = q1)) as [->|Hn1]; [rewrite lookup_insert_eq; intros [= <-]; by left|].
    rewrite lookup_insert_ne by done. intros Hq. right. split; [done|]. intros x. by apply Hother.
Qed.

(** The second list is appended to the first. *)
Lemma concat_lists h h' A q1 l1 q2 x l2 : repr h A -> A !! q1 = Some l1 -> A !! q2 = Some (x :: l2) -> q1 <> q2 ->
  linked S h' (predecessor q1 l1) x -> linked S h' (predecessor q2 (x :: l2)) q1 -> linked S h' q2 q2 ->
  changed h h' [predecessor q1 l1; q2] [x; q1; q2] -> same_cells h h' ->
  repr h' (<[q2 := []]> (<[q1 := l1 ++ x :: l2]> A)) /\ outside h h'.
Proof.
  intros HR H1 H2 Hne Hj He Hh Hc Hsc. pose proof (repr_disjoint _ _ HR) as Hsep.
  pose proof (fun y => apart_lists A q1 l1 q2 (x :: l2) y Hsep H1 H2 Hne) as Hap.
  destruct (repr_ring _ _ HR _ _ H1) as (Hnd1 & HU1 & _), (repr_ring _ _ HR _ _ H2) as (Hnd2 & HU2 & _).
  pose proof (ring_chain _ _ _ (repr_ring _ _ HR _ _ H1)) as Hl1.
  pose proof (ring_chain _ _ _ (repr_ring _ _ HR _ _ H2)) as Hl2.
  pose proof (predecessor_elem q1 l1) as Hp. apply NoDup_cons in Hnd1 as [Hq1 Hnd1], Hnd2 as [Hq2 Hnd2].
  pose proof (proj1 (Forall_forall _ _) HU1) as HU1'. pose proof (proj1 (Forall_forall _ _) HU2) as HU2'.
  assert (HX : Forall in_U ([predecessor q1 l1; q2] ++ [x; q1; q2])).
  { rewrite Forall_forall. intros y Hy. assert (y ∈ q1 :: l1 \/ y ∈ q2 :: x :: l2) as [?|?] by set_solver; auto. }
  assert (Hk1 : chain S h' (q1 :: l1)).
  { apply (stretch_kept h h' [predecessor q1 l1; q2] [x; q1; q2]); [by apply NoDup_cons|done|done|done| | |].
    - intros y Hy Hin. assert (predecessor q1 l1 = y) as Ey by (specialize (Hap y); set_solver).
      destruct l1 as [|z m _] using rev_ind; [by rewrite <- Ey|]. rewrite predecessor_snoc in Ey. subst.
      by rewrite app_comm_cons, last_snoc.
    - intros y Hy Hin. simpl. f_equal. specialize (Hap y). set_solver.
    - destruct (repr_ring _ _ HR _ _ H1) as (_ & _ & Hc1). by apply (chain_l h _ [q1]). }
  assert (Hk2 : chain S h' (x :: l2)).
  { apply (stretch_kept h h' [predecessor q1 l1; q2] [x; q1; q2]); [done|by inversion_clear HU2|done|done| | |done].
    - intros y Hy Hin. specialize (Hap y). set_solver.
    - intros y Hy Hin. apply (head_successor q2); [done|]. specialize (Hap y). simpl. set_solver. }
  apply (pair_lists h h' A q1 l1 q2 (x :: l2)); [done|done|done|done|set_solver|set_solver| | | |done].
  - apply ring_close.
    + apply NoDup_cons. split; [specialize (Hap q1); set_solver|]. apply NoDup_app. split; [done|]. split; [|done].
      intros y Hy. specialize (Hap y). set_solver.
    + rewrite Forall_forall. intros y Hy. rewrite elem_of_cons, elem_of_app in Hy.
      destruct Hy as [->|[Hy|Hy]]; [apply HU1'; set_solver|apply HU1'; set_solver|apply HU2'; set_solver].
    + apply chain_join; [by apply (chain_r h' [q1])|done|]. intros m z ->. by rewrite predecessor_snoc in Hj.
    + destruct l1; [done|]. apply Hk1.
    + destruct (x :: l2) as [|z m _] eqn:E using rev_ind; [done|]. rewrite predecessor_snoc in He.
      by rewrite app_assoc, predecessor_snoc.
  - split; [apply NoDup_singleton|]. split; [by inversion_clear HU2; constructor|by split].
  - eapply changed_touches; [|exact Hc]. set_solver.
Qed.

(** Two lists exchange their members. *)
Lemma swap_lists h h' A q1 l1 q2 l2 : repr h A -> A !! q1 = Some l1 -> A !! q2 = Some l2 -> q1 <> q2 ->
  linked S h' q1 (successor q1 l2) -> linked S h' (predecessor q1 l2) q1 ->
  linked S h' q2 (successor q2 l1) -> linked S h' (predecessor q2 l1) q2 ->
  changed h h' [q1; q2] [q1; q2; successor q1 l1; successor q2 l2] -> same_cells h h' ->
  repr h' (<[q2 := l1]> (<[q1 := l2]> A)) /\ outside h h'.
Proof.
  intros HR H1 H2 Hne Hf1 Hb1 Hf2 Hb2 Hc Hsc. pose proof (repr_disjoint _ _ HR) as Hsep.
  pose proof (fun y => apart_lists A q1 l1 q2 l2 y Hsep H1 H2 Hne) as Hap.
  destruct (repr_ring _ _ HR _ _ H1) as (Hnd1 & HU1 & _), (repr_ring _ _ HR _ _ H2) as (Hnd2 & HU2 & _).
  pose proof (ring_chain _ _ _ (repr_ring _ _ HR _ _ H1)) as Hl1.
  pose proof (ring_chain _ _ _ (repr_ring _ _ HR _ _ H2)) as Hl2.
  apply NoDup_cons in Hnd1 as [Hq1 Hnd1], Hnd2 as [Hq2 Hnd2].
  pose proof (proj1 (Forall_forall _ _) HU1) as HU1'. pose proof (proj1 (Forall_forall _ _) HU2) as HU2'.
  pose proof (successor_elem q1 l1) as Hs1. pose proof (successor_elem q2 l2) as Hs2.
  assert (HX : Forall in_U ([q1; q2] ++ [q1; q2; successor q1 l1; successor q2 l2])).
  { rewrite Forall_forall. intros y Hy. assert (y ∈ q1 :: l1 \/ y ∈ q2 :: l2) as [?|?] by set_solver; auto. }
  apply (pair_lists h h' A q1 l1 q2 l2); [done|done|done|done|set_solver|..|done].
  - intros y Hy Hy1. apply (Hap y); set_solver.
  - apply (ring_adopt h h' [q1; q2] [q1; q2; successor q1 l1; successor q2 l2]); [| |done|done| | |done|done|done].
    + apply NoDup_cons. split; [|done]. specialize (Hap q1). set_solver.
    + constructor; [apply HU1'; set_solver|by inversion_clear HU2].
    + intros y Hy Hin. specialize (Hap y). set_solver.
    + intros y Hy Hin. apply (head_successor q2); [done|]. specialize (Hap y). set_solver.
  - apply (ring_adopt h h' [q1; q2] [q1; q2; successor q1 l1; successor q2 l2]); [| |done|done| | |done|done|done].
    + apply NoDup_cons. split; [|done]. intros Hin. apply (Hap q2); set_solver.
    + constructor; [apply HU2'; set_solver|by inversion_clear HU1].
    + intros y Hy Hin. specialize (Hap y). set_solver.
    + intros y Hy Hin. apply (head_successor q1); [done|]. specialize (Hap y). set_solver.
  - eapply changed_touches; [|exact Hc]. set_solver.
Qed.

End Lists.
