(* ===== verification/KernQueue.v ===== *)
(** * KernQueue: the doubly linked queues of
    [src/MacKernelSDK/Headers/kern/queue.h]

    Module [KernQueue] has both sets of operations on [struct queue_entry]: the
    functions that chain entries ("method 1") and the macros that chain the
    elements the entries are embedded in ("method 2"), and proves that every
    operation is its counterpart on lists, for any number of queues that share
    the memory. *)

From Stdlib Require Import ZArith Lia Bool.
From stdpp Require Import base list option gmap.
From S2P Require Import Prelude Ring Lists.
Open Scope Z_scope.

Module KernQueue.

(** ** [struct queue_entry]: the addresses of its two fields *)
Record queue_entry : Type := mkEntry { next : Z; prev : Z }.
Definition entry (p : Z) : queue_entry := mkEntry p (p + 8).

(** ** Method 1: chains of entries *)

Definition enqueue_head (que elt : Z) : M mem unit :=
  old_head <- load (next (entry que)) ;;
  store (next (entry elt)) old_head ;;;
  store (prev (entry elt)) que ;;;
  store (prev (entry old_head)) elt ;;;
  store (next (entry que)) elt.

Definition enqueue_tail (que elt : Z) : M mem unit :=
  old_tail <- load (prev (entry que)) ;;
  store (next (entry elt)) que ;;;
  store (prev (entry elt)) old_tail ;;;
  store (next (entry old_tail)) elt ;;;
  store (prev (entry que)) elt.

Definition dequeue_head (que : Z) : M mem Z :=
  n <- load (next (entry que)) ;;
  if negb (n =? que) then
    elt <- load (next (entry que)) ;;
    new_head <- load (next (entry elt)) ;;
    store (prev (entry new_head)) que ;;;
    store (next (entry que)) new_head ;;;
    ret elt
  else ret NULL.

Definition dequeue_tail (que : Z) : M mem Z :=
  p <- load (prev (entry que)) ;;
  if negb (p =? que) then
    elt <- load (prev (entry que)) ;;
    new_tail <- load (prev (entry elt)) ;;
    store (next (entry new_tail)) que ;;;
    store (prev (entry que)) new_tail ;;;
    ret elt
  else ret NULL.

Definition enqueue (queue elt : Z) : M mem unit := enqueue_tail queue elt.
Definition dequeue (queue : Z) : M mem Z := dequeue_head queue.

Definition remqueue (elt : Z) : M mem unit :=
  next_elt <- load (next (entry elt)) ;;
  prev_elt <- load (prev (entry elt)) ;;
  store (prev (entry next_elt)) prev_elt ;;;
  store (next (entry prev_elt)) next_elt.

Definition insque (ent pred : Z) : M mem unit :=
  successor <- load (next (entry pred)) ;;
  store (next (entry ent)) successor ;;;
  store (prev (entry ent)) pred ;;;
  store (prev (entry successor)) ent ;;;
  store (next (entry pred)) ent.

Definition remque (elt : Z) : M mem unit :=
  next_elt <- load (next (entry elt)) ;;
  prev_elt <- load (prev (entry elt)) ;;
  store (prev (entry next_elt)) prev_elt ;;;
  store (next (entry prev_elt)) next_elt.

Definition re_queue_head (que elt : Z) : M mem unit :=
  n_elt <- load (next (entry elt)) ;;
  p_elt <- load (prev (entry elt)) ;;
  store (prev (entry n_elt)) p_elt ;;;
  store (next (entry p_elt)) n_elt ;;;
  n_elt <- load (next (entry que)) ;;
  store (next (entry elt)) n_elt ;;;
  store (prev (entry elt)) que ;;;
  store (prev (entry n_elt)) elt ;;;
  store (next (entry que)) elt.

Definition re_queue_tail (que elt : Z) : M mem unit :=
  n_elt <- load (next (entry elt)) ;;
  p_elt <- load (prev (entry elt)) ;;
  store (prev (entry n_elt)) p_elt ;;;
  store (next (entry p_elt)) n_elt ;;;
  p_elt <- load (prev (entry que)) ;;
  store (next (entry elt)) que ;;;
  store (prev (entry elt)) p_elt ;;;
  store (next (entry p_elt)) elt ;;;
  store (prev (entry que)) elt.

Definition queue_init (q : Z) : M mem unit :=
  store (next (entry q)) q ;;; store (prev (entry q)) q.
Definition queue_head_init (q : Z) : M mem unit := queue_init q.
Definition queue_chain_init (q : Z) : M mem unit := queue_init q.
Definition queue_first (q : Z) : M mem Z := load (next (entry q)).
Definition queue_next (qc : Z) : M mem Z := load (next (entry qc)).
Definition queue_last (q : Z) : M mem Z := load (prev (entry q)).
Definition queue_prev (qc : Z) : M mem Z := load (prev (entry qc)).
Definition queue_end (q qe : Z) : bool := q =? qe.
Definition queue_empty (q : Z) : M mem bool := f <- queue_first q ;; ret (queue_end q f).

Definition movqueue (_old _new : Z) : M mem unit :=
  e <- queue_empty _old ;;
  if e then queue_init _new
  else
    next_elt <- load (next (entry _old)) ;;
    prev_elt <- load (prev (entry _old)) ;;
    store (next (entry _new)) next_elt ;;;
    store (prev (entry _new)) prev_elt ;;;
    store (prev (entry next_elt)) _new ;;;
    store (next (entry prev_elt)) _new ;;;
    queue_init _old.

(** The loops run a body on every entry.  [None]: out of fuel. *)
Definition qe_element (off qe : Z) : Z := qe - off.

Section Loops.
Context (head : Z) (body : Z -> M mem unit).

(** [for (qe = head->next; qe != head; qe = qe->next)]. *)
Fixpoint qe_loop (fuel : nat) (qe : Z) : M mem (option unit) :=
  match fuel with
  | O => ret None
  | S fuel =>
    if qe =? head then ret (Some tt)
    else body qe ;;; n <- load (next (entry qe)) ;; qe_loop fuel n
  end.
Definition qe_foreach (fuel : nat) : M mem (option unit) :=
  qe <- load (next (entry head)) ;; qe_loop fuel qe.

(** The safe loop reads the successor before the body runs. *)
Fixpoint qe_loop_safe (fuel : nat) (qe ne : Z) : M mem (option unit) :=
  match fuel with
  | O => ret None
  | S fuel =>
    if qe =? head then ret (Some tt)
    else body qe ;;; n <- load (next (entry ne)) ;; qe_loop_safe fuel ne n
  end.
Definition qe_foreach_safe (fuel : nat) : M mem (option unit) :=
  f <- load (next (entry head)) ;;
  ne <- load (next (entry f)) ;;
  qe <- load (next (entry head)) ;;
  qe_loop_safe fuel qe ne.

End Loops.

(** The loops over elements whose entries are at offset [off]. *)
Section ElementLoops.
Context (off head : Z) (body : Z -> M mem unit).

Fixpoint qe_element_loop (fuel : nat) (elt : Z) : M mem (option unit) :=
  match fuel with
  | O => ret None
  | S fuel =>
    if elt + off =? head then ret (Some tt)
    else body elt ;;; n <- load (next (entry (elt + off))) ;; qe_element_loop fuel (qe_element off n)
  end.
Definition qe_foreach_element (fuel : nat) : M mem (option unit) :=
  n <- load (next (entry head)) ;; qe_element_loop fuel (qe_element off n).

Fixpoint qe_element_loop_safe (fuel : nat) (elt nelt : Z) : M mem (option unit) :=
  match fuel with
  | O => ret None
  | S fuel =>
    if elt + off =? head then ret (Some tt)
    else body elt ;;; n <- load (next (entry (nelt + off))) ;; qe_element_loop_safe fuel nelt (qe_element off n)
  end.
Definition qe_foreach_element_safe (fuel : nat) : M mem (option unit) :=
  f <- load (next (entry head)) ;;
  ne <- load (next (entry f)) ;;
  n <- load (next (entry head)) ;;
  qe_element_loop_safe fuel (qe_element off n) (qe_element off ne).

End ElementLoops.

(** ** Method 2: chains of elements

    [field] is the offset of the chain in an element. *)
Section Elements.
Context (field : Z).

(** [&elt->field] *)
Definition chain_of (elt : Z) : queue_entry := entry (elt + field).

Definition queue_enter (head elt : Z) : M mem unit :=
  __prev <- load (prev (entry head)) ;;
  store (prev (chain_of elt)) __prev ;;;
  store (next (chain_of elt)) head ;;;
  (if head =? __prev then store (next (entry head)) elt
   else store (next (chain_of __prev)) elt) ;;;
  store (prev (entry head)) elt.

Definition queue_enter_first (head elt : Z) : M mem unit :=
  __next <- load (next (entry head)) ;;
  (if head =? __next then store (prev (entry head)) elt
   else store (prev (chain_of __next)) elt) ;;;
  store (next (chain_of elt)) __next ;;;
  store (prev (chain_of elt)) head ;;;
  store (next (entry head)) elt.

Definition queue_insert_before (head elt cur : Z) : M mem unit :=
  if head =? cur then
    store (next (chain_of elt)) head ;;;
    n <- load (next (entry head)) ;;
    (if n =? head then
       store (prev (chain_of elt)) head ;;;
       store (next (entry head)) elt
     else
       __prev <- load (prev (entry head)) ;;
       store (prev (chain_of elt)) __prev ;;;
       store (next (chain_of __prev)) elt) ;;;
    store (prev (entry head)) elt
  else
    store (next (chain_of elt)) cur ;;;
    n <- load (next (entry head)) ;;
    (if n =? cur then
       store (prev (chain_of elt)) head ;;;
       store (next (entry head)) elt
     else
       __prev <- load (prev (chain_of cur)) ;;
       store (prev (chain_of elt)) __prev ;;;
       store (next (chain_of __prev)) elt) ;;;
    store (prev (chain_of cur)) elt.

Definition queue_insert_after (head elt cur : Z) : M mem unit :=
  if head =? cur then
    store (prev (chain_of elt)) head ;;;
    n <- load (next (entry head)) ;;
    (if n =? head then
       store (next (chain_of elt)) head ;;;
       store (prev (entry head)) elt
     else
       __next <- load (next (entry head)) ;;
       store (next (chain_of elt)) __next ;;;
       store (prev (chain_of __next)) elt) ;;;
    store (next (entry head)) elt
  else
    store (prev (chain_of elt)) cur ;;;
    p <- load (prev (entry head)) ;;
    (if p =? cur then
       store (next (chain_of elt)) head ;;;
       store (prev (entry head)) elt
     else
       __next <- load (next (chain_of cur)) ;;
       store (next (chain_of elt)) __next ;;;
       store (prev (chain_of __next)) elt) ;;;
    store (next (chain_of cur)) elt.

Definition queue_field (head thing : Z) : queue_entry :=
  if head =? thing then entry head else chain_of thing.

Definition queue_remove (head elt : Z) : M mem unit :=
  __next <- load (next (chain_of elt)) ;;
  __prev <- load (prev (chain_of elt)) ;;
  (if head =? __next then store (prev (entry head)) __prev
   else store (prev (chain_of __next)) __prev) ;;;
  (if head =? __prev then store (next (entry head)) __next
   else store (next (chain_of __prev)) __next) ;;;
  store (next (chain_of elt)) NULL ;;;
  store (prev (chain_of elt)) NULL.

Definition queue_remove_first (head : Z) : M mem Z :=
  ent <- load (next (entry head)) ;;
  __next <- load (next (chain_of ent)) ;;
  (if head =? __next then store (prev (entry head)) head
   else store (prev (chain_of __next)) head) ;;;
  store (next (entry head)) __next ;;;
  store (next (chain_of ent)) NULL ;;;
  store (prev (chain_of ent)) NULL ;;;
  ret ent.

Definition queue_remove_last (head : Z) : M mem Z :=
  ent <- load (prev (entry head)) ;;
  __prev <- load (prev (chain_of ent)) ;;
  (if head =? __prev then store (next (entry head)) head
   else store (next (chain_of __prev)) head) ;;;
  store (prev (entry head)) __prev ;;;
  store (next (chain_of ent)) NULL ;;;
  store (prev (chain_of ent)) NULL ;;;
  ret ent.

(** Structure assignment [*to = *from]. *)
Definition copy_entry (to from : Z) : M mem unit :=
  n <- load (next (entry from)) ;;
  p <- load (prev (entry from)) ;;
  store (next (entry to)) n ;;;
  store (prev (entry to)) p.

Definition queue_assign (to from : Z) : M mem unit :=
  p <- load (prev (entry from)) ;;
  store (next (chain_of p)) to ;;;
  n <- load (next (entry from)) ;;
  store (prev (chain_of n)) to ;;;
  copy_entry to from.

Definition queue_new_head (old new : Z) : M mem unit :=
  e <- queue_empty old ;;
  if negb e then
    copy_entry new old ;;;
    n <- load (next (entry new)) ;;
    store (prev (chain_of n)) new ;;;
    p <- load (prev (entry new)) ;;
    store (next (chain_of p)) new
  else queue_init new.

Fixpoint iterate_loop (head : Z) (body : Z -> M mem unit) (fuel : nat) (elt : Z) : M mem (option unit) :=
  match fuel with
  | O => ret None
  | S fuel =>
    if queue_end head elt then ret (Some tt)
    else body elt ;;; n <- queue_next (elt + field) ;; iterate_loop head body fuel n
  end.
Definition queue_iterate (head : Z) (body : Z -> M mem unit) (fuel : nat) : M mem (option unit) :=
  elt <- queue_first head ;; iterate_loop head body fuel elt.

End Elements.

(** ** Queues as lists

    The state of the specification maps the head of every queue to the list of
    its nodes.  [ent x] is the address of the entry of node [x]: the node
    itself with method 1, the head itself or the chain of an element with
    method 2. *)
Definition qshape (ent : Z -> Z) : shape := mkShape ent (fun x => Some (ent x + 8)) id id.

Section Refinement.
Context (ent : Z -> Z) (U : gset Z).

(** The entries of the nodes [U] do not overlap. *)
Definition spaced : Prop := forall x y, x ∈ U -> y ∈ U -> x <> y -> 16 <= Z.abs (ent x - ent y).

Abbreviation in_U := (fun x => x ∈ U).
Abbreviation qrepr := (repr (qshape ent) U).
Abbreviation qoutside := (outside (qshape ent) U).

(** Both cells of every entry are mapped. *)
Definition mapped (h : mem) : Prop := forall x, x ∈ U -> is_Some (h !! ent x) /\ is_Some (h !! (ent x + 8)).

Lemma repr_alloc h A : qrepr h A -> mapped h.
Proof.
  intros HR x Hx. split; apply (repr_cells _ _ _ _ HR); exists x; (split; [by apply elem_of_elements|simpl; auto]).
Qed.

Lemma qrepr_intro h A : (forall q l, A !! q = Some l -> ring (qshape ent) in_U h (q :: l)) -> separate A -> mapped h -> qrepr h A.
Proof.
  intros Hr Hs Hm. split; [done|done|]. intros k (x & Hx & Hk). apply elem_of_elements in Hx. destruct (Hm x Hx).
  destruct Hk as [->|Hk]; [done|]. simpl in Hk. by injection Hk as <-.
Qed.

Hypothesis apart : spaced.

Lemma qcells : disjoint_cells (qshape ent) in_U.
Proof.
  intros x y Hx Hy. specialize (apart x y Hx Hy). simpl. split; [|split].
  - intros E. destruct (decide (x = y)); [done|]. rewrite E, Z.sub_diag in apart. specialize (apart n). lia.
  - intros c E1 E2. destruct (decide (x = y)); [done|]. specialize (apart n). simplify_eq. lia.
  - intros E. simplify_eq. destruct (decide (x = y)) as [->|n]; [lia|]. specialize (apart n). lia.
Qed.

Lemma qapart x y : x ∈ U -> y ∈ U -> ent x = ent y \/ 16 <= Z.abs (ent x - ent y).
Proof. intros Hx Hy. destruct (decide (x = y)) as [->|]; [by left|right; auto]. Qed.

(** The links a ring fixes around a position. *)
Lemma repr_links h A q l1 l2 : qrepr h A -> A !! q = Some (l1 ++ l2) ->
  h !! ent (predecessor q l1) = Some (successor q l2) /\
  h !! (ent (successor q l2) + 8) = Some (predecessor q l1) /\
  predecessor q l1 ∈ U /\ successor q l2 ∈ U.
Proof.
  intros HR Hq. pose proof (repr_ring _ _ _ _ HR _ _ Hq) as Hr. destruct (ring_linked_at _ _ _ _ _ _ Hr) as [H1 H2].
  split; [exact H1|]. split; [by apply H2|].
  pose proof (predecessor_elem q l1). pose proof (successor_elem q l2).
  split; eapply (repr_U (qshape ent)); [exact HR|exact Hq|set_solver|exact HR|exact Hq|set_solver].
Qed.

(** The changes of a deletion or an insertion between [p] and [s]. *)
Lemma upto_changed h h' p e s : upto h h' [ent p; ent e; ent e + 8; ent s + 8] ->
  changed (qshape ent) h h' [p; e] [e; s].
Proof.
  intros Hup k Hf Hb. apply Hup. rewrite !not_elem_of_cons.
  split; [apply (Hf p); set_solver|]. split; [apply (Hf e); set_solver|].
  split; [intros ->; apply (Hb e); [set_solver|done]|]. split; [intros ->; apply (Hb s); [set_solver|done]|].
  apply not_elem_of_nil.
Qed.

Lemma upto_cells_kept (h h' : mem) ks : upto h h' ks -> (forall k, k ∈ ks -> is_Some (h' !! k)) -> same_cells h h'.
Proof. intros Hup Hks k Hk. destruct (decide (k ∈ ks)); [auto|by rewrite Hup]. Qed.

Ltac four_cells := intros ?k; rewrite !elem_of_cons, elem_of_nil; intros [->|[->|[->|[->|[]]]]]; eauto.
Ltac qlinked := split; [done|]; simpl; by intros ?c [= <-].

(** An insertion, whatever the order of its writes. *)
Lemma insert_repr h h' A q l1 l2 e : qrepr h A -> A !! q = Some (l1 ++ l2) -> e ∈ U -> ~ used A e ->
  let p := predecessor q l1 in let s := successor q l2 in
  h' !! ent p = Some e -> h' !! (ent e + 8) = Some p -> h' !! ent e = Some s -> h' !! (ent s + 8) = Some e ->
  upto h h' [ent p; ent e; ent e + 8; ent s + 8] ->
  qrepr h' (<[q := l1 ++ e :: l2]> A) /\ qoutside h h'.
Proof.
  intros HR Hq He Hfree p s Hpe Hep Hes Hse Hup.
  apply (insert_lists _ _ qcells h); [done|done|done|done|qlinked|qlinked|by apply upto_changed|].
  eapply upto_cells_kept; [exact Hup|four_cells].
Qed.

(** A deletion; the entry of the deleted node may be written. *)
Lemma delete_repr h h' A q l1 e l2 : qrepr h A -> A !! q = Some (l1 ++ e :: l2) ->
  let p := predecessor q l1 in let s := successor q l2 in
  h' !! ent p = Some s -> h' !! (ent s + 8) = Some p ->
  is_Some (h' !! ent e) -> is_Some (h' !! (ent e + 8)) ->
  upto h h' [ent p; ent e; ent e + 8; ent s + 8] ->
  qrepr h' (<[q := l1 ++ l2]> A) /\ qoutside h h'.
Proof.
  intros HR Hq p s Hps Hsp Hae Hae' Hup.
  apply (delete_lists _ _ qcells h _ _ _ _ e); [done|done|qlinked|by apply upto_changed|].
  eapply upto_cells_kept; [exact Hup|four_cells].
Qed.

(** What an insertion between [p] and [s] finds in memory. *)
Lemma insert_facts h A q l1 l2 e : qrepr h A -> A !! q = Some (l1 ++ l2) -> e ∈ U -> ~ used A e ->
  let p := predecessor q l1 in let s := successor q l2 in
  (h !! ent p = Some s /\ h !! (ent s + 8) = Some p) /\
  (16 <= Z.abs (ent p - ent e) /\ 16 <= Z.abs (ent s - ent e) /\ (ent p = ent s \/ 16 <= Z.abs (ent p - ent s))) /\
  (is_Some (h !! ent e) /\ is_Some (h !! (ent e + 8))).
Proof.
  intros HR Hq He Hu p s. destruct (repr_links h A q l1 l2 HR Hq) as (Hn & Hp & HpU & HsU).
  assert (Hpe : p <> e) by (eapply used_ne; eauto; pose proof (predecessor_elem q l1); set_solver).
  assert (Hse : s <> e) by (eapply used_ne; eauto; pose proof (successor_elem q l2); set_solver).
  split; [done|]. split; [|by apply (repr_alloc _ _ HR)]. split; [auto|]. split; [auto|]. by apply qapart.
Qed.

(** What a deletion of [e] between [p] and [s] finds. *)
Lemma delete_facts h A q l1 e l2 : qrepr h A -> A !! q = Some (l1 ++ e :: l2) ->
  let p := predecessor q l1 in let s := successor q l2 in
  (h !! ent p = Some e /\ h !! (ent e + 8) = Some p /\ h !! ent e = Some s /\ h !! (ent s + 8) = Some e) /\
  (16 <= Z.abs (ent p - ent e) /\ 16 <= Z.abs (ent s - ent e) /\ (ent p = ent s \/ 16 <= Z.abs (ent p - ent s))) /\
  (p <> e /\ s <> e) /\
  is_Some (h !! ent p) /\ is_Some (h !! (ent s + 8)) /\ is_Some (h !! ent e) /\ is_Some (h !! (ent e + 8)).
Proof.
  intros HR Hq p s. destruct (repr_links h A q l1 (e :: l2) HR Hq) as (H1 & H2 & HpU & HeU).
  assert (Hq' : A !! q = Some ((l1 ++ [e]) ++ l2)) by (by rewrite <- app_assoc).
  destruct (repr_links h A q (l1 ++ [e]) l2 HR Hq') as (H3 & H4 & _ & HsU). rewrite predecessor_snoc in H3, H4.
  simpl successor in *. pose proof (repr_ring _ _ _ _ HR _ _ Hq) as (Hnd & _).
  assert (Hne : ~ (e ∈ q :: l1) /\ ~ (e ∈ q :: l2)).
  { apply NoDup_cons in Hnd as [Hqn Hnd]. apply NoDup_app in Hnd as (_ & Hd & Hnd). apply NoDup_cons in Hnd as [Hel _].
    split; [|set_solver]. intros [->|Hin]%elem_of_cons; [set_solver|]. eapply Hd; [exact Hin|set_solver]. }
  pose proof (predecessor_elem q l1) as Hpin. pose proof (successor_elem q l2) as Hsin. fold p in Hpin. fold s in Hsin.
  assert (Hpe : p <> e) by (intros ->; tauto). assert (Hse : s <> e) by (intros ->; tauto).
  split; [done|]. split; [split; [auto|]; split; [auto|]; by apply qapart|]. split; [done|]. unfold p, s. rewrite H1, H2, H3, H4. eauto.
Qed.

Lemma init_repr h A q : qrepr h A -> reusable U A q ->
  let h' := <[ent q + 8 := q]> (<[ent q := q]> h) in qrepr h' (<[q := []]> A) /\ qoutside h h'.
Proof.
  intros HR Hre h'. destruct (repr_alloc _ _ HR q (proj1 Hre)).
  apply (init_lists _ _ qcells h); [done|done| | |].
  - unfold h'. split; simpl; [rewrite lookup_insert_ne by lia|intros c [= <-]]; apply lookup_insert_eq.
  - intros k Hf Hb. unfold h'. rewrite !lookup_insert_ne; [done|..].
    + apply not_eq_sym, (Hf q). set_solver.
    + intros <-. apply (Hb q); [set_solver|done].
  - intros k Hk. by repeat apply is_Some_insert.
Qed.

(** The members of [o] get the head [n]; the head [o] is given up. *)
Lemma rebase_repr h h1 A o n x l : qrepr h A -> A !! o = Some (x :: l) -> n <> o -> reusable U A n ->
  let z := predecessor o (x :: l) in
  h1 !! ent n = Some x -> h1 !! (ent n + 8) = Some z -> h1 !! (ent x + 8) = Some n -> h1 !! ent z = Some n ->
  upto h h1 [ent n; ent n + 8; ent x + 8; ent z] ->
  qrepr h1 (<[n := x :: l]> (delete o (delete n A))) /\ qoutside h h1.
Proof.
  intros HR Ho Hno [HnU Hu] z H1 H2 H3 H4 Hup.
  assert (Ho' : delete n A !! o = Some (x :: l)) by (rewrite lookup_delete_ne; done).
  pose proof (forget_repr _ _ h A n HR) as HR1. set (A1 := delete n A) in *.
  pose proof (repr_ring _ _ _ _ HR1 _ _ Ho') as Hr. destruct Hr as (Hnd & HD & _).
  assert (Hn : n ∉ o :: x :: l) by (intros Hin; apply Hu; exists o, (x :: l); auto).
  pose proof (predecessor_in o x l) as Hz. fold z in Hz.
  assert (Hc : changed (qshape ent) h h1 [n; z] [n; x]).
  { intros k Hf Hb. apply Hup. rewrite !not_elem_of_cons.
    split; [apply (Hf n); set_solver|]. split; [intros ->; apply (Hb n); [set_solver|done]|].
    split; [intros ->; apply (Hb x); [set_solver|done]|]. split; [apply (Hf z); set_solver|apply not_elem_of_nil]. }
  apply NoDup_cons in Hnd as [Ho1 Hnd]. inversion_clear HD as [|? ? HoU HlU]. rewrite Forall_forall in HlU.
  apply (new_repr _ _ qcells h); [by apply forget_repr| | | | |].
  - intros (q' & l' & Hq' & Hin). rewrite lookup_delete_Some in Hq'. apply Hu. exists q', l'. tauto.
  - intros y Hy (q' & l' & Hq' & Hin). rewrite lookup_delete_Some in Hq'. destruct Hq' as [Hne Hq'].
    apply Hne. apply (repr_disjoint _ _ _ _ HR1 o q' (x :: l) l' y); [done|done|set_solver|done].
  - apply (ring_adopt _ _ qcells h h1 [n; z] [n; x]); [by apply NoDup_cons; set_solver| | |done| | | | |].
    + rewrite Forall_forall. set_solver.
    + rewrite Forall_forall. set_solver.
    + intros y Hy Hin. apply (last_predecessor o); [done|]. fold z. set_solver.
    + intros y Hy Hin. simpl. f_equal. set_solver.
    + by apply (ring_chain _ U _ o), (repr_ring _ _ _ _ HR1).
    + qlinked.
    + replace (predecessor n (x :: l)) with z by (unfold z; by apply predecessor_cons). qlinked.
  - eapply changed_touches; [|exact Hc]. set_solver.
  - eapply upto_cells_kept; [exact Hup|four_cells].
Qed.

(** What moving the members of [o] to [n] finds in memory. *)
Lemma rebase_facts h A o n x l : qrepr h A -> A !! o = Some (x :: l) -> n <> o -> reusable U A n ->
  let z := predecessor o (x :: l) in
  (is_Some (h !! ent n) /\ is_Some (h !! (ent n + 8)) /\ is_Some (h !! (ent x + 8)) /\ is_Some (h !! ent z)) /\
  16 <= Z.abs (ent n - ent z) /\ 16 <= Z.abs (ent n - ent x) /\ (ent x = ent z \/ 16 <= Z.abs (ent x - ent z)).
Proof.
  intros HR Ho Hno [HnU Hu] z.
  assert (Hn : n ∉ o :: x :: l).
  { intros Hin. apply Hu. exists o, (x :: l). by rewrite lookup_delete_ne. }
  assert (HU : forall y, y ∈ o :: x :: l -> y ∈ U) by (intros y Hy; eapply (repr_U _ _ h A); eauto).
  pose proof (predecessor_elem o (x :: l)) as Hz. fold z in Hz. assert (Hx : x ∈ o :: x :: l) by set_solver.
  split.
  - destruct (repr_alloc _ _ HR n HnU), (repr_alloc _ _ HR x (HU x Hx)), (repr_alloc _ _ HR z (HU z Hz)). tauto.
  - split; [apply apart; auto; intros ->; tauto|]. split; [apply apart; auto; intros ->; tauto|]. apply qapart; auto.
Qed.

End Refinement.

(** ** Method 1 refines the list operations *)

Ltac lk := repeat first [rewrite lookup_insert_eq | rewrite lookup_insert_ne by lia].
Ltac some_cell := repeat apply is_Some_insert; eauto.
Ltac step := match goal with
  | |- wp (bind _ _) _ _ => apply wp_bind; step
  | |- wp (load _) _ _ => eapply wp_load; [lk; first [eassumption | reflexivity]|]
  | |- wp (store _ _) _ _ => apply wp_store; [some_cell|]
  | |- wp (ret _) _ _ => apply wp_ret
  end.
Ltac upto_cells := intros ?k ?Hk; rewrite !not_elem_of_cons in Hk; destruct Hk as (? & ? & ? & ? & _);
  rewrite !lookup_insert_ne by congruence; done.

Section Method1.
Context (U : gset Z).
Abbreviation self := (fun x : Z => x).
Abbreviation repr1 := (repr (qshape self) U).
Hypothesis apart : spaced self U.

(** Insertion behind [p]: [insque] and the two functions that enqueue. *)
Lemma insque_run h A q l1 l2 e : repr1 h A -> A !! q = Some (l1 ++ l2) -> e ∈ U -> ~ used A e ->
  wp (insque e (predecessor q l1)) (fun _ h' => repr1 h' (<[q := l1 ++ e :: l2]> A) /\ outside (qshape self) U h h') h.
Proof.
  intros HR Hq He Hu. destruct (insert_facts self U apart h A q l1 l2 e HR Hq He Hu) as ([Hn Hp] & (? & ? & ?) & ? & ?).
  pose proof (fun h' => insert_repr self U apart h h' A q l1 l2 e HR Hq He Hu) as HI. cbv zeta in HI.
  set (p := predecessor q l1) in *. set (s := successor q l2) in *.
  unfold insque. cbn [next prev entry]. repeat step. apply HI; [lk; done..|upto_cells].
Qed.

Lemma enqueue_head_run h A q l e : repr1 h A -> A !! q = Some l -> e ∈ U -> ~ used A e ->
  wp (enqueue_head q e) (fun _ h' => repr1 h' (<[q := e :: l]> A) /\ outside (qshape self) U h h') h.
Proof. exact (insque_run h A q [] l e). Qed.

Lemma enqueue_tail_run h A q l e : repr1 h A -> A !! q = Some l -> e ∈ U -> ~ used A e ->
  wp (enqueue_tail q e) (fun _ h' => repr1 h' (<[q := l ++ [e]]> A) /\ outside (qshape self) U h h') h.
Proof.
  intros HR Hq He Hu. rewrite <- (app_nil_r l) in Hq.
  destruct (insert_facts self U apart h A q l [] e HR Hq He Hu) as ([Hn Hp] & (? & ? & ?) & ? & ?).
  pose proof (fun h' => insert_repr self U apart h h' A q l [] e HR Hq He Hu) as HI. cbv zeta in HI.
  simpl successor in *. set (p := predecessor q l) in *.
  unfold enqueue_tail. cbn [next prev entry]. repeat step. apply HI; [lk; done..|upto_cells].
Qed.

(** Deletion of a member. *)
Lemma remqueue_run h A q l1 e l2 : repr1 h A -> A !! q = Some (l1 ++ e :: l2) ->
  wp (remqueue e) (fun _ h' => repr1 h' (<[q := l1 ++ l2]> A) /\ outside (qshape self) U h h') h.
Proof.
  intros HR Hq.
  destruct (delete_facts self U apart h A q l1 e l2 HR Hq) as ((H1 & H2 & H3 & H4) & (? & ? & ?) & _ & ? & ? & ? & ?).
  pose proof (fun h' => delete_repr self U apart h h' A q l1 e l2 HR Hq) as HD. cbv zeta in HD.
  set (p := predecessor q l1) in *. set (s := successor q l2) in *.
  unfold remqueue. cbn [next prev entry]. repeat step. apply HD; [lk; done..|some_cell|some_cell|upto_cells].
Qed.

Lemma dequeue_head_run h A q l : repr1 h A -> A !! q = Some l ->
  wp (dequeue_head q) (fun r h' => r = match l with [] => NULL | e :: _ => e end /\
    repr1 h' (<[q := tl l]> A) /\ outside (qshape self) U h h') h.
Proof.
  intros HR Hq. unfold dequeue_head. cbn [next prev entry]. destruct l as [|e l].
  - destruct (repr_links self U apart h A q [] [] HR Hq) as (Hn & _). simpl in Hn. step.
    rewrite Z.eqb_refl. apply wp_ret. split; [done|]. rewrite insert_id by done. by split.
  - destruct (delete_facts self U apart h A q [] e l HR Hq) as ((H1 & H2 & H3 & H4) & (? & ? & ?) & [Hqe _] & ? & ? & ? & ?).
    pose proof (fun h' => delete_repr self U apart h h' A q [] e l HR Hq) as HD. cbv zeta in HD.
    simpl predecessor in *. set (s := successor q l) in *.
    step. rewrite (proj2 (Z.eqb_neq e q)) by done. cbn [negb]. repeat step. split; [done|].
    apply HD; [lk; done..|some_cell|some_cell|upto_cells].
Qed.

Lemma dequeue_tail_run h A q l : repr1 h A -> A !! q = Some l ->
  wp (dequeue_tail q) (fun r h' => r = List.last l NULL /\
    repr1 h' (<[q := List.removelast l]> A) /\ outside (qshape self) U h h') h.
Proof.
  intros HR Hq. unfold dequeue_tail. cbn [next prev entry]. destruct l as [|e l _] using rev_ind.
  - destruct (repr_links self U apart h A q [] [] HR Hq) as (_ & Hn & _). simpl in Hn. step.
    rewrite Z.eqb_refl. apply wp_ret. split; [done|]. simpl. rewrite insert_id by done. by split.
  - destruct (delete_facts self U apart h A q l e [] HR Hq) as ((H1 & H2 & H3 & H4) & (? & ? & ?) & [_ Hqe] & ? & ? & ? & ?).
    pose proof (fun h' => delete_repr self U apart h h' A q l e [] HR Hq) as HD. cbv zeta in HD.
    simpl successor in *. set (p := predecessor q l) in *. rewrite List.last_last, List.removelast_last.
    rewrite app_nil_r in HD.
    step. rewrite (proj2 (Z.eqb_neq e q)) by done. cbn [negb]. repeat step. split; [done|].
    apply HD; [lk; done..|some_cell|some_cell|upto_cells].
Qed.

Lemma wp_assoc4 {B} (m1 m2 : M mem Z) (m3 m4 : Z -> Z -> M mem unit) (k : M mem B) Q (h : mem) :
  wp (bind (n <- m1 ;; p <- m2 ;; m3 n p ;;; m4 n p) (fun _ => k)) Q h ->
  wp (n <- m1 ;; p <- m2 ;; m3 n p ;;; m4 n p ;;; k) Q h.
Proof.
  unfold wp, bind. destruct (m1 h) as [n h1|]; [|done]. destruct (m2 h1) as [p h2|]; [|done].
  destruct (m3 n p h2) as [[] h3|]; [|done]. by destruct (m4 n p h3) as [[] h4|].
Qed.

Lemma re_queue_head_run h A q0 l1 e l2 q l : repr1 h A -> A !! q0 = Some (l1 ++ e :: l2) -> e ∈ U ->
  <[q0 := l1 ++ l2]> A !! q = Some l ->
  wp (re_queue_head q e) (fun _ h' => repr1 h' (<[q := e :: l]> (<[q0 := l1 ++ l2]> A)) /\ outside (qshape self) U h h') h.
Proof.
  intros HR Hq0 He Hq. unfold re_queue_head.
  apply (wp_assoc4 _ _ (fun n p => store (prev (entry n)) p) (fun n p => store (next (entry p)) n) (enqueue_head q e)).
  apply wp_bind. eapply wp_mono; [by apply (remqueue_run h A q0)|]. intros [] h1 [HR1 Ho1]. simpl.
  eapply wp_mono; [eapply enqueue_head_run; eauto using deleted_unused|].
  intros [] h2 [HR2 Ho2]. eauto using outside_trans.
Qed.

Lemma re_queue_tail_run h A q0 l1 e l2 q l : repr1 h A -> A !! q0 = Some (l1 ++ e :: l2) -> e ∈ U ->
  <[q0 := l1 ++ l2]> A !! q = Some l ->
  wp (re_queue_tail q e) (fun _ h' => repr1 h' (<[q := l ++ [e]]> (<[q0 := l1 ++ l2]> A)) /\ outside (qshape self) U h h') h.
Proof.
  intros HR Hq0 He Hq. unfold re_queue_tail.
  apply (wp_assoc4 _ _ (fun n p => store (prev (entry n)) p) (fun n p => store (next (entry p)) n) (enqueue_tail q e)).
  apply wp_bind. eapply wp_mono; [by apply (remqueue_run h A q0)|]. intros [] h1 [HR1 Ho1]. simpl.
  eapply wp_mono; [eapply enqueue_tail_run; eauto using deleted_unused|].
  intros [] h2 [HR2 Ho2]. eauto using outside_trans.
Qed.

Lemma queue_init_run h A q : repr1 h A -> reusable U A q ->
  wp (queue_init q) (fun _ h' => repr1 h' (<[q := []]> A) /\ outside (qshape self) U h h') h.
Proof.
  intros HR Hre. unfold queue_init. cbn [next prev entry].
  destruct (repr_alloc _ _ _ _ HR q (proj1 Hre)) as [? ?]. repeat step. exact (init_repr self U apart h A q HR Hre).
Qed.

Lemma movqueue_run h A o n l : repr1 h A -> A !! o = Some l -> n <> o -> reusable U A n ->
  wp (movqueue o n) (fun _ h' => repr1 h' (<[o := []]> (<[n := l]> A)) /\ outside (qshape self) U h h') h.
Proof.
  intros HR Ho Hno Hre. unfold movqueue, queue_empty, queue_first, queue_end.
  destruct (repr_links self U apart h A o [] l HR Ho) as (Hf & _). simpl predecessor in Hf.
  rewrite <- (app_nil_r l) in Ho. destruct (repr_links self U apart h A o l [] HR Ho) as (_ & Hl & _).
  rewrite app_nil_r in Ho. simpl successor in Hl. cbn [next prev entry]. repeat (apply wp_bind; step). apply wp_ret.
  destruct l as [|x l].
  - simpl. rewrite Z.eqb_refl. eapply wp_mono; [by apply (queue_init_run h A)|]. intros _ h' [HR' Ho'].
    split; [|done]. by rewrite (insert_id (<[n := []]> A)) by (by rewrite lookup_insert_ne).
  - destruct (repr_ring _ _ _ _ HR _ _ Ho) as (Hnd & _). apply NoDup_cons in Hnd as [Hox _].
    simpl successor in *. rewrite (proj2 (Z.eqb_neq o x)) by set_solver.
    pose proof (fun h1 => rebase_repr self U apart h h1 A o n x l HR Ho Hno Hre) as HB. cbv zeta in HB.
    pose proof (rebase_facts self U apart h A o n x l HR Ho Hno Hre) as HF. cbv zeta in HF.
    set (z := predecessor o (x :: l)) in *. destruct HF as ((? & ? & ? & ?) & ? & ? & ?).
    do 6 (apply wp_bind; step). destruct (HB (<[z := n]> (<[x + 8 := n]> (<[n + 8 := z]> (<[n := x]> h)))))
      as [HR1 Ho1]; [lk; done..|upto_cells|].
    eapply wp_mono; [apply (queue_init_run _ _ o HR1)|].
    + split; [apply (repr_U (qshape self) U h A o _ o HR Ho); set_solver|]. intros (q' & l' & Hq' & Hin).
      rewrite lookup_delete_Some in Hq'. destruct Hq' as [Hne Hq']. destruct (decide (q' = n)) as [->|Hn'].
      * rewrite lookup_insert_eq in Hq'. injection Hq' as <-. set_solver.
      * rewrite lookup_insert_ne, !lookup_delete_Some in Hq' by done. apply Hne.
        apply (repr_disjoint _ _ _ _ HR o q' (x :: l) l' o); [done|apply Hq'|set_solver|done].
    + intros _ h' [HR' Ho']. split; [|eauto using outside_trans].
      replace (<[o := []]> (<[n := x :: l]> A)) with (<[o := []]> (<[n := x :: l]> (delete o (delete n A)))); [done|].
      apply map_eq. intros i. destruct (decide (i = o)) as [->|]; [by rewrite !lookup_insert_eq|].
      rewrite !(lookup_insert_ne _ o) by done. destruct (decide (i = n)) as [->|]; [by rewrite !lookup_insert_eq|].
      by rewrite !lookup_insert_ne, !lookup_delete_ne by done.
Qed.

(** ** Programs on queues *)

Inductive op : Type :=
| Op_init (q : Z)
| Op_enqueue (q e : Z)
| Op_enqueue_head (q e : Z)
| Op_enqueue_tail (q e : Z)
| Op_dequeue (q : Z)
| Op_dequeue_head (q : Z)
| Op_dequeue_tail (q : Z)
| Op_remqueue (e : Z)
| Op_remque (e : Z)
| Op_insque (e p : Z)
| Op_re_queue_head (q e : Z)
| Op_re_queue_tail (q e : Z)
| Op_movqueue (o n : Z)
| Op_empty (q : Z)
| Op_first (q : Z)
| Op_last (q : Z)
| Op_next (x : Z)
| Op_prev (x : Z).

Definition noval (m : M mem unit) : M mem Z := m ;;; ret NULL.

Definition exec (o : op) : M mem Z :=
  match o with
  | Op_init q => noval (queue_init q)
  | Op_enqueue q e => noval (enqueue q e)
  | Op_enqueue_head q e => noval (enqueue_head q e)
  | Op_enqueue_tail q e => noval (enqueue_tail q e)
  | Op_dequeue q => dequeue q
  | Op_dequeue_head q => dequeue_head q
  | Op_dequeue_tail q => dequeue_tail q
  | Op_remqueue e => noval (remqueue e)
  | Op_remque e => noval (remque e)
  | Op_insque e p => noval (insque e p)
  | Op_re_queue_head q e => noval (re_queue_head q e)
  | Op_re_queue_tail q e => noval (re_queue_tail q e)
  | Op_movqueue o n => noval (movqueue o n)
  | Op_empty q => b <- queue_empty q ;; ret (Z.b2z b)
  | Op_first q => queue_first q
  | Op_last q => queue_last q
  | Op_next x => queue_next x
  | Op_prev x => queue_prev x
  end.

Fixpoint exec_all (os : list op) : M mem (list Z) :=
  match os with
  | [] => ret []
  | o :: os => r <- exec o ;; rs <- exec_all os ;; ret (r :: rs)
  end.

(** What the operations mean on lists: [qstep A o r A'] says that [o] is legal
    in the state [A], returns [r] and leaves the state [A'].  A position of a
    queue is given by the parts [l1] and [l2] before and behind it. *)
Inductive qstep : queues -> op -> Z -> queues -> Prop :=
| Q_init A q : reusable U A q -> qstep A (Op_init q) NULL (<[q := []]> A)
| Q_enqueue A q l e : A !! q = Some l -> e ∈ U -> ~ used A e -> qstep A (Op_enqueue q e) NULL (<[q := l ++ [e]]> A)
| Q_enqueue_head A q l e : A !! q = Some l -> e ∈ U -> ~ used A e ->
    qstep A (Op_enqueue_head q e) NULL (<[q := e :: l]> A)
| Q_enqueue_tail A q l e : A !! q = Some l -> e ∈ U -> ~ used A e ->
    qstep A (Op_enqueue_tail q e) NULL (<[q := l ++ [e]]> A)
| Q_dequeue A q l : A !! q = Some l ->
    qstep A (Op_dequeue q) (match l with [] => NULL | e :: _ => e end) (<[q := tl l]> A)
| Q_dequeue_head A q l : A !! q = Some l ->
    qstep A (Op_dequeue_head q) (match l with [] => NULL | e :: _ => e end) (<[q := tl l]> A)
| Q_dequeue_tail A q l : A !! q = Some l ->
    qstep A (Op_dequeue_tail q) (List.last l NULL) (<[q := List.removelast l]> A)
| Q_remqueue A q l1 e l2 : A !! q = Some (l1 ++ e :: l2) -> qstep A (Op_remqueue e) NULL (<[q := l1 ++ l2]> A)
| Q_remque A q l1 e l2 : A !! q = Some (l1 ++ e :: l2) -> qstep A (Op_remque e) NULL (<[q := l1 ++ l2]> A)
| Q_insque A q l1 l2 e : A !! q = Some (l1 ++ l2) -> e ∈ U -> ~ used A e ->
    qstep A (Op_insque e (predecessor q l1)) NULL (<[q := l1 ++ e :: l2]> A)
| Q_re_queue_head A q0 l1 e l2 q l : A !! q0 = Some (l1 ++ e :: l2) -> <[q0 := l1 ++ l2]> A !! q = Some l ->
    qstep A (Op_re_queue_head q e) NULL (<[q := e :: l]> (<[q0 := l1 ++ l2]> A))
| Q_re_queue_tail A q0 l1 e l2 q l : A !! q0 = Some (l1 ++ e :: l2) -> <[q0 := l1 ++ l2]> A !! q = Some l ->
    qstep A (Op_re_queue_tail q e) NULL (<[q := l ++ [e]]> (<[q0 := l1 ++ l2]> A))
| Q_movqueue A o n l : A !! o = Some l -> n <> o -> reusable U A n ->
    qstep A (Op_movqueue o n) NULL (<[o := []]> (<[n := l]> A))
| Q_empty A q l : A !! q = Some l -> qstep A (Op_empty q) (match l with [] => 1 | _ => 0 end) A
| Q_first A q l : A !! q = Some l -> qstep A (Op_first q) (successor q l) A
| Q_last A q l : A !! q = Some l -> qstep A (Op_last q) (predecessor q l) A
| Q_next A q l1 l2 : A !! q = Some (l1 ++ l2) -> qstep A (Op_next (predecessor q l1)) (successor q l2) A
| Q_prev A q l1 l2 : A !! q = Some (l1 ++ l2) -> qstep A (Op_prev (successor q l2)) (predecessor q l1) A.

Inductive qsteps : queues -> list op -> list Z -> queues -> Prop :=
| Q_nil A : qsteps A [] [] A
| Q_cons A o r A1 os rs A2 : qstep A o r A1 -> qsteps A1 os rs A2 -> qsteps A (o :: os) (r :: rs) A2.

Lemma wp_noval (m : M mem unit) (P : mem -> Prop) (h : mem) :
  wp m (fun _ h' => P h') h -> wp (noval m) (fun r h' => r = NULL /\ P h') h.
Proof. intros H. unfold noval. apply wp_bind. eapply wp_mono; [exact H|]. intros [] h' HP. by apply wp_ret. Qed.

Lemma exec_run h A o r A' : repr1 h A -> qstep A o r A' ->
  wp (exec o) (fun r' h' => r' = r /\ repr1 h' A' /\ outside (qshape self) U h h') h.
Proof.
  intros HR Hs. destruct Hs; simpl exec;
    try match goal with |- wp (noval _) _ _ => apply wp_noval end.
  - by apply queue_init_run.
  - by apply enqueue_tail_run.
  - by apply enqueue_head_run.
  - by apply enqueue_tail_run.
  - by apply dequeue_head_run.
  - by apply dequeue_head_run.
  - by apply dequeue_tail_run.
  - by apply remqueue_run.
  - by apply remqueue_run.
  - by apply insque_run.
  - eapply re_queue_head_run; eauto. eapply (repr_U (qshape self) U h A); eauto. set_solver.
  - eapply re_queue_tail_run; eauto. eapply (repr_U (qshape self) U h A); eauto. set_solver.
  - by apply movqueue_run.
  - destruct (repr_links self U apart h A q [] l HR H) as (Hf & _). unfold queue_empty, queue_first, queue_end.
    cbn [next prev entry]. apply wp_bind, wp_bind. step. apply wp_ret, wp_ret. split; [|done].
    destruct l as [|x l]; simpl; [by rewrite Z.eqb_refl|].
    destruct (repr_ring _ _ _ _ HR _ _ H) as (Hnd & _). apply NoDup_cons in Hnd as [Hox _].
    by rewrite (proj2 (Z.eqb_neq q x)) by set_solver.
  - destruct (repr_links self U apart h A q [] l HR H) as (Hf & _). by eapply wp_load.
  - rewrite <- (app_nil_r l) in H. destruct (repr_links self U apart h A q l [] HR H) as (_ & Hf & _). by eapply wp_load.
  - destruct (repr_links self U apart h A q l1 l2 HR H) as (Hf & _). by eapply wp_load.
  - destruct (repr_links self U apart h A q l1 l2 HR H) as (_ & Hf & _). by eapply wp_load.
Qed.

Lemma exec_all_run h A os rs A' : repr1 h A -> qsteps A os rs A' ->
  wp (exec_all os) (fun rs' h' => rs' = rs /\ repr1 h' A' /\ outside (qshape self) U h h') h.
Proof.
  intros HR Hs. revert h HR. induction Hs as [A|A o r A1 os rs A2 Hs Hss IH]; intros h HR; simpl.
  - by apply wp_ret.
  - apply wp_bind. eapply wp_mono; [by apply (exec_run h A o r A1)|]. intros r' h1 (-> & HR1 & Ho1). simpl.
    apply wp_bind. eapply wp_mono; [by apply IH|]. intros rs' h2 (-> & HR2 & Ho2). simpl.
    apply wp_ret. eauto using outside_trans.
Qed.

(** ** The loops *)

(** A body that keeps the queue sees its members in order. *)
Lemma qe_foreach_run A q l body (I : list Z -> mem -> Prop) : A !! q = Some l ->
  (forall done h, I done h -> repr1 h A) ->
  (forall done e todo h, l = done ++ e :: todo -> I done h -> wp (body e) (fun _ h' => I (done ++ [e]) h') h) ->
  forall fuel h, (length l < fuel)%nat -> I [] h ->
  wp (qe_foreach q body fuel) (fun r h' => r = Some tt /\ I l h') h.
Proof.
  intros Hq HI Hbody.
  assert (Hloop : forall todo done fuel h, l = done ++ todo -> (length todo < fuel)%nat -> I done h ->
    wp (qe_loop q body fuel (successor q todo)) (fun r h' => r = Some tt /\ I l h') h).
  { induction todo as [|e todo IH]; intros done [|fuel] h Hl Hf Hd; simpl in Hf; [lia| |lia|]; simpl qe_loop.
    - rewrite Z.eqb_refl. apply wp_ret. by rewrite Hl, app_nil_r.
    - destruct (repr_ring _ _ _ _ (HI _ _ Hd) _ _ Hq) as (Hnd & _). apply NoDup_cons in Hnd as [Hox _].
      rewrite (proj2 (Z.eqb_neq e q)) by (rewrite Hl in Hox; set_solver).
      apply wp_bind. eapply wp_mono; [by apply (Hbody done e todo)|]. intros [] h1 Hd1. cbn beta in Hd1.
      assert (Hl' : l = (done ++ [e]) ++ todo) by by rewrite <- app_assoc. assert (Hq' := Hq). rewrite Hl' in Hq'.
      destruct (repr_links self U apart h1 A q (done ++ [e]) todo (HI _ _ Hd1) Hq') as (Hn & _).
      rewrite predecessor_snoc in Hn. apply wp_bind. eapply wp_load; [exact Hn|]. apply (IH (done ++ [e])); [done|lia|done]. }
  intros fuel h Hf Hd. destruct (repr_links self U apart h A q [] l (HI _ _ Hd) Hq) as (Hn & _).
  unfold qe_foreach. apply wp_bind. eapply wp_load; [exact Hn|]. by apply (Hloop l []).
Qed.

(** The safe loop only needs the members it has not reached yet. *)
Lemma qe_foreach_safe_run q l body (I : list Z -> list Z -> mem -> Prop) :
  (forall done todo h, I done todo h -> exists A l0, repr1 h A /\ A !! q = Some (l0 ++ todo)) ->
  (forall done e todo h, l = done ++ e :: todo -> I done (e :: todo) h -> wp (body e) (fun _ h' => I (done ++ [e]) todo h') h) ->
  forall fuel h A, (length l < fuel)%nat -> I [] l h -> repr1 h A -> A !! q = Some l ->
  wp (qe_foreach_safe q body fuel) (fun r h' => r = Some tt /\ I l [] h') h.
Proof.
  intros HI Hbody.
  assert (Hlinks : forall done todo h, I done todo h ->
    (exists v, h !! successor q todo = Some v /\ forall e t, todo = e :: t -> v = successor q t) /\
    (forall e t, todo = e :: t -> e <> q) /\ is_Some (h !! q)).
  { intros done todo h Hd. destruct (HI _ _ _ Hd) as (A & l0 & HR & Hq).
    assert (Hqa : is_Some (h !! q)) by (apply (repr_alloc _ _ _ _ HR), (repr_U (qshape self) U h A q _ q HR Hq); set_solver).
    split; [|split; [|done]].
    - destruct todo as [|e t]; simpl; [destruct Hqa as [v Hv]; by exists v|].
      replace (l0 ++ e :: t) with ((l0 ++ [e]) ++ t) in Hq by by rewrite <- app_assoc.
      destruct (repr_links self U apart h A q (l0 ++ [e]) t HR Hq) as (Hn & _). rewrite predecessor_snoc in Hn.
      exists (successor q t). split; [done|]. by intros ? ? [= <- <-].
    - intros e t ->. destruct (repr_ring _ _ _ _ HR _ _ Hq) as (Hnd & _). apply NoDup_cons in Hnd as [Hox _]. set_solver. }
  assert (Hloop : forall todo done fuel h ne, l = done ++ todo -> (length todo < fuel)%nat -> I done todo h ->
    (forall e t, todo = e :: t -> ne = successor q t) ->
    wp (qe_loop_safe q body fuel (successor q todo) ne) (fun r h' => r = Some tt /\ I l [] h') h).
  { induction todo as [|e todo IH]; intros done [|fuel] h ne Hl Hf Hd Hne; simpl in Hf; [lia| |lia|]; simpl qe_loop_safe.
    - rewrite Z.eqb_refl. apply wp_ret. by rewrite Hl, app_nil_r.
    - destruct (Hlinks _ _ _ Hd) as (_ & Hq & _). rewrite (proj2 (Z.eqb_neq e q)) by eauto.
      apply wp_bind. eapply wp_mono; [by apply (Hbody done e todo)|]. intros [] h1 Hd1. cbn beta in Hd1.
      rewrite (Hne e todo eq_refl). destruct (Hlinks _ _ _ Hd1) as ((v & Hv & Hvs) & _ & _).
      apply wp_bind. eapply wp_load; [exact Hv|].
      apply (IH (done ++ [e])); [by rewrite <- app_assoc|lia|done|done]. }
  intros fuel h A Hf Hd HR Hq. destruct (repr_links self U apart h A q [] l HR Hq) as (Hn & _).
  simpl predecessor in Hn. destruct (Hlinks _ _ _ Hd) as ((v & Hv & Hvs) & _ & _).
  unfold qe_foreach_safe. apply wp_bind. eapply wp_load; [exact Hn|]. apply wp_bind. eapply wp_load; [exact Hv|].
  apply wp_bind. eapply wp_load; [exact Hn|]. by apply (Hloop l []).
Qed.

Lemma drain_run h A q l fuel : repr1 h A -> A !! q = Some l -> (length l < fuel)%nat ->
  wp (qe_foreach_safe q remqueue fuel) (fun r h' => r = Some tt /\ repr1 h' (<[q := []]> A) /\ outside (qshape self) U h h') h.
Proof.
  intros HR Hq Hf.
  apply (qe_foreach_safe_run q l remqueue
    (fun _ todo h' => repr1 h' (<[q := todo]> A) /\ outside (qshape self) U h h')) with (A := A); try done.
  - intros done todo h' [HR' _]. exists (<[q := todo]> A), []. split; [done|]. by rewrite lookup_insert_eq.
  - intros done e todo h1 Hl [HR1 Ho1].
    eapply wp_mono; [apply (remqueue_run h1 (<[q := e :: todo]> A) q [] e todo HR1); by rewrite lookup_insert_eq|].
    intros [] h2 [HR2 Ho2]. rewrite insert_insert_eq in HR2. eauto using outside_trans.
  - split; [by rewrite insert_id|done].
Qed.

(** The element loops are the entry loops on the elements around the entries. *)
Lemma element_loops off head body fuel (h : mem) :
  qe_foreach_element off head body fuel h = qe_foreach head (fun qe => body (qe_element off qe)) fuel h /\
  qe_foreach_element_safe off head body fuel h = qe_foreach_safe head (fun qe => body (qe_element off qe)) fuel h.
Proof.
  assert (Hq : forall qe, qe_element off qe + off = qe) by (intros qe; unfold qe_element; lia).
  split.
  - unfold qe_foreach_element, qe_foreach, bind. destruct (load _ h) as [qe h1|]; [|done]. revert qe h1.
    induction fuel as [|fuel IH]; intros qe h1; [done|]. simpl. rewrite Hq. destruct (qe =? head); [done|].
    unfold bind. destruct (body _ h1) as [[] h2|]; [|done]. destruct (load _ h2) as [n h3|]; [|done]. apply IH.
  - unfold qe_foreach_element_safe, qe_foreach_safe, bind. destruct (load _ h) as [f h1|]; [|done].
    destruct (load _ h1) as [ne h2|]; [|done]. destruct (load _ h2) as [qe h3|]; [|done]. revert qe ne h3.
    induction fuel as [|fuel IH]; intros qe ne h3; [done|]. simpl. rewrite !Hq. destruct (qe =? head); [done|].
    unfold bind. destruct (body _ h3) as [[] h4|]; [|done]. destruct (load _ h4) as [n h5|]; [|done]. apply IH.
Qed.

End Method1.

(** ** The queue functions are list operations *)

(** C22. Any legal program of method-1 calls on any number of queues in one
    memory ([queue_init], the enqueue and dequeue functions, [remqueue],
    [remque], [insque], [re_queue_head], [re_queue_tail], [movqueue] and the
    queries) runs without a bad access, returns what the list operations
    return, leaves every queue holding exactly its list, and writes nothing but
    the entries it was given. *)
Theorem queue_functions_refine (U : gset Z) (h : mem) (A : queues) os rs A' :
  spaced (fun x => x) U -> repr (qshape (fun x => x)) U h A -> qsteps U A os rs A' ->
  exists h', exec_all os h = Done rs h' /\ repr (qshape (fun x => x)) U h' A' /\ outside (qshape (fun x => x)) U h h'.
Proof.
  intros Hsp HR Hs. destruct (proj1 (wp_run _ _ _) (exec_all_run U Hsp h A os rs A' HR Hs)) as (rs' & h' & Hrun & -> & H).
  eauto.
Qed.

(** Four entries with nothing in them. *)
Definition demo_nodes : gset Z := {[ 16; 32; 48; 64 ]}.
Definition demo_mem : mem := list_to_map (map (fun a => (a, 0)) [16; 24; 32; 40; 48; 56; 64; 72]).
Definition demo_ops : list op :=
  [Op_init 16; Op_enqueue_head 16 32; Op_enqueue_tail 16 48; Op_init 64; Op_re_queue_tail 64 32;
   Op_movqueue 64 16; Op_dequeue_head 16; Op_dequeue_head 16; Op_empty 64].

Lemma demo_cases x : x ∈ demo_nodes -> x = 16 \/ x = 32 \/ x = 48 \/ x = 64.
Proof. unfold demo_nodes. set_solver. Qed.

Lemma demo_spaced : spaced (fun x => x) demo_nodes.
Proof. intros x y Hx%demo_cases Hy%demo_cases. lia. Qed.

Lemma demo_repr : repr (qshape (fun x => x)) demo_nodes demo_mem ∅.
Proof.
  apply qrepr_intro; [done|done|]. intros x [->|[->|[->| ->]]]%demo_cases; split; vm_compute; eauto.
Qed.

Lemma queue_functions_refine_witness :
  exists h', exec_all demo_ops demo_mem = Done [0; 0; 0; 0; 0; 0; 32; 0; 1] h' /\
    repr (qshape (fun x => x)) demo_nodes h' {[ 16 := []; 64 := [] ]} /\ outside (qshape (fun x => x)) demo_nodes demo_mem h'.
Proof.
  apply (queue_functions_refine demo_nodes demo_mem ∅); [exact demo_spaced|exact demo_repr|].
  eapply Q_cons; [apply Q_init; split; [set_solver|by apply (bool_decide_unpack _); vm_compute]|].
  eapply Q_cons; [apply (Q_enqueue_head _ _ 16 []); [reflexivity|set_solver|by apply (bool_decide_unpack _); vm_compute]|].
  eapply Q_cons; [apply (Q_enqueue_tail _ _ 16 [32]); [reflexivity|set_solver|by apply (bool_decide_unpack _); vm_compute]|].
  eapply Q_cons; [apply Q_init; split; [set_solver|by apply (bool_decide_unpack _); vm_compute]|].
  eapply Q_cons; [apply (Q_re_queue_tail _ _ 16 [] 32 [48] 64 []); reflexivity|].
  eapply Q_cons; [apply (Q_movqueue _ _ 64 16 [32]); [reflexivity|done|split; [set_solver|by apply (bool_decide_unpack _); vm_compute]]|].
  eapply Q_cons; [apply (Q_dequeue_head _ _ 16 [32]); reflexivity|].
  eapply Q_cons; [apply (Q_dequeue_head _ _ 16 []); reflexivity|].
  eapply Q_cons; [apply (Q_empty _ _ 64 []); reflexivity|].
  apply Q_nil.
Defined.

(** C23. The loops: [qe_foreach] calls its body on the members in order,
    whatever the body does as long as the queues are left alone;
    [qe_foreach_safe] allows the body to take the current member out, so that
    with [remqueue] as its body it empties the queue; both need no more rounds
    than the queue has members plus one; and the element loops are the same
    loops seen through [qe_element]. *)
Theorem queue_loops (U : gset Z) (h : mem) (A : queues) q l :
  spaced (fun x => x) U -> repr (qshape (fun x => x)) U h A -> A !! q = Some l ->
  (forall body (I : list Z -> mem -> Prop) fuel,
    (forall done h1, I done h1 -> repr (qshape (fun x => x)) U h1 A) ->
    (forall done e todo h1, l = done ++ e :: todo -> I done h1 ->
      exists h2, body e h1 = Done tt h2 /\ I (done ++ [e]) h2) ->
    (length l < fuel)%nat -> I [] h ->
    exists h', qe_foreach q body fuel h = Done (Some tt) h' /\ I l h') /\
  (forall fuel, (length l < fuel)%nat ->
    exists h', qe_foreach_safe q remqueue fuel h = Done (Some tt) h' /\ repr (qshape (fun x => x)) U h' (<[q := []]> A)) /\
  (forall off body fuel,
    qe_foreach_element off q body fuel h = qe_foreach q (fun qe => body (qe_element off qe)) fuel h /\
    qe_foreach_element_safe off q body fuel h = qe_foreach_safe q (fun qe => body (qe_element off qe)) fuel h).
Proof.
  intros Hsp HR Hq. split; [|split].
  - intros body I fuel HI Hb Hf H0.
    destruct (proj1 (wp_run _ _ _) (qe_foreach_run U Hsp A q l body I Hq HI
      ltac:(intros done e todo h1 Hl Hd; apply wp_run; destruct (Hb done e todo h1 Hl Hd) as (h2 & ? & ?); eauto) fuel h Hf H0))
      as (r & h' & Hrun & -> & HI'). eauto.
  - intros fuel Hf.
    destruct (proj1 (wp_run _ _ _) (drain_run U Hsp h A q l fuel HR Hq Hf)) as (r & h' & Hrun & -> & HR' & _). eauto.
  - intros. apply element_loops.
Qed.

Definition demo_queue : mem :=
  list_to_map [(16, 32); (24, 48); (32, 48); (40, 16); (48, 16); (56, 32); (64, 0); (72, 0)].

Lemma demo_queue_repr : repr (qshape (fun x => x)) demo_nodes demo_queue {[ 16 := [32; 48] ]}.
Proof.
  apply qrepr_intro.
  - intros q l [<- <-]%lookup_singleton_Some. split; [apply (bool_decide_unpack _); by vm_compute|]. split.
    + apply (bool_decide_unpack _). by vm_compute.
    + repeat split; try reflexivity; intros c [= <-]; reflexivity.
  - intros q1 q2 l1 l2 x [<- _]%lookup_singleton_Some [<- _]%lookup_singleton_Some. done.
  - intros x [->|[->|[->| ->]]]%demo_cases; split; vm_compute; eauto.
Qed.

Lemma queue_loops_witness :
  exists h', qe_foreach_safe 16 remqueue 3 demo_queue = Done (Some tt) h' /\
    repr (qshape (fun x => x)) demo_nodes h' {[ 16 := [] ]}.
Proof.
  destruct (queue_loops demo_nodes demo_queue {[ 16 := [32; 48] ]} 16 [32; 48] demo_spaced demo_queue_repr eq_refl)
    as (_ & H & _).
  apply (H 3%nat). simpl. lia.
Defined.

End KernQueue.
