(* ===== verification/ElementQueue.v ===== *)
(** * ElementQueue: the element chains of
    [src/MacKernelSDK/Headers/kern/queue.h]

    The "method 2" macros of [KernQueue] chain elements, not entries: a link
    holds the address of an element, whose entry is [field] bytes further, or
    the address of the head.  Module [ElementQueue] proves that they too are
    the operations on lists. *)

From Stdlib Require Import ZArith Lia Bool.
From stdpp Require Import base list option gmap.
From S2P Require Import Prelude Ring Lists KernQueue.
Import KernQueue.
Open Scope Z_scope.

Module ElementQueue.

Section Method2.
Context (field : Z) (U heads : gset Z).

(** Where the entry of a node is. *)
Definition entry_of (x : Z) : Z := if decide (x ∈ heads) then x else x + field.
Hypothesis apart : spaced entry_of U.

Abbreviation repr2 := (repr (qshape entry_of) U).
Abbreviation outside2 := (outside (qshape entry_of) U).

(** Heads are heads and members are elements. *)
Definition roles (A : queues) : Prop :=
  forall q l, A !! q = Some l -> q ∈ heads /\ forall x, x ∈ l -> x ∉ heads.

Lemma entry_of_head q : q ∈ heads -> entry_of q = q.
Proof. unfold entry_of. by destruct (decide _). Qed.

Lemma entry_of_elt e : e ∉ heads -> entry_of e = e + field.
Proof. unfold entry_of. by destruct (decide _). Qed.

Lemma member_entry A q l x : roles A -> A !! q = Some l -> x ∈ l -> entry_of x = x + field /\ q <> x.
Proof.
  intros Hr Hq Hx. destruct (Hr _ _ Hq) as [Hh Hm]. specialize (Hm x Hx).
  split; [by apply entry_of_elt|]. intros ->. done.
Qed.

Lemma head_entry A q l : roles A -> A !! q = Some l -> entry_of q = q.
Proof. intros Hr Hq. apply entry_of_head, (Hr _ _ Hq). Qed.

(** Uses the known positions of entries everywhere. *)
Ltac plain := repeat match goal with
  | E : entry_of ?x = _, H : context [entry_of ?x] |- _ => assert_fails (constr_eq H E); rewrite E in H
  | E : entry_of ?x = _ |- context [entry_of ?x] => rewrite E
  end.
Ltac decide_eqb := repeat match goal with
  | |- context [?x =? ?x] => rewrite (Z.eqb_refl x)
  | H : ?x <> ?y |- context [?x =? ?y] => rewrite (proj2 (Z.eqb_neq x y) H)
  | H : ?x <> ?y |- context [?y =? ?x] => rewrite (proj2 (Z.eqb_neq y x) (not_eq_sym H))
  end; cbn [negb].
Ltac finish HI := apply HI; [lk; done..|upto_cells].

(** *** Insertions *)

Definition insertion (h : mem) (A : queues) (q : Z) (l1 l2 : list Z) (e : Z) : Prop :=
  repr2 h A /\ roles A /\ A !! q = Some (l1 ++ l2) /\ e ∈ U /\ ~ used A e /\ e ∉ heads.

Lemma head_apart h A q l e : repr2 h A -> A !! q = Some l -> e ∈ U -> ~ used A e ->
  16 <= Z.abs (entry_of q - entry_of e).
Proof.
  intros HR Hq He Hu. apply apart; [apply (repr_U _ _ h A q l q HR Hq); set_solver|done|].
  apply (used_ne A q l); [done|set_solver|done].
Qed.

(** All that an insertion needs, with the entries in place. *)
Ltac start_insertion Hins :=
  let HR := fresh "HR" in let Hr := fresh "Hr" in let Hq := fresh "Hq" in
  let He := fresh "He" in let Hu := fresh "Hu" in let Helt := fresh "Helt" in
  destruct Hins as (HR & Hr & Hq & He & Hu & Helt);
  pose proof (entry_of_elt _ Helt) as ?Ee; pose proof (head_entry _ _ _ Hr Hq) as ?Eq;
  match type of Hu with ~ used ?A ?e => match type of HR with repr _ _ ?h _ => match type of Hq with _ !! ?q = Some (?l1 ++ ?l2) =>
    let HF := fresh "HF" in let HI := fresh "HI" in
    pose proof (insert_facts entry_of U apart h A q l1 l2 e HR Hq He Hu) as HF;
    pose proof (fun h' => insert_repr entry_of U apart h h' A q l1 l2 e HR Hq He Hu) as HI;
    pose proof (head_apart h A q _ e HR Hq He Hu) as ?Hqe;
    cbv zeta in HF, HI; rewrite ?predecessor_snoc in HF, HI; cbn [predecessor List.last successor] in HF, HI
  end end end.

Lemma queue_enter_run h A q l e : insertion h A q l [] e ->
  wp (queue_enter field q e) (fun _ h' => repr2 h' (<[q := l ++ [e]]> A) /\ outside2 h h') h.
Proof.
  intros Hins. start_insertion Hins. unfold queue_enter. cbn [next prev entry chain_of].
  destruct l as [|z l _] using rev_ind.
  - cbn [predecessor List.last] in HF, HI. plain. destruct HF as ([? ?] & (? & ? & ?) & ? & ?).
    step. decide_eqb. repeat step. finish HI.
  - rewrite predecessor_snoc in HF, HI.
    destruct (member_entry A q _ z Hr Hq) as [Ez Hz]; [set_solver|]. plain.
    destruct HF as ([? ?] & (? & ? & ?) & ? & ?).
    apply wp_bind. step. decide_eqb. repeat step. finish HI.
Qed.

Lemma queue_enter_first_run h A q l e : insertion h A q [] l e ->
  wp (queue_enter_first field q e) (fun _ h' => repr2 h' (<[q := e :: l]> A) /\ outside2 h h') h.
Proof.
  intros Hins. start_insertion Hins. unfold queue_enter_first. cbn [next prev entry chain_of].
  destruct l as [|z l]; cbn [successor] in HF, HI.
  - plain. destruct HF as ([? ?] & (? & ? & ?) & ? & ?). apply wp_bind. step. decide_eqb. repeat step. finish HI.
  - destruct (member_entry A q _ z Hr Hq) as [Ez Hz]; [set_solver|]. plain.
    destruct HF as ([? ?] & (? & ? & ?) & ? & ?). apply wp_bind. step. decide_eqb. repeat step. finish HI.
Qed.

Lemma queue_insert_before_run h A q l1 l2 e : insertion h A q l1 l2 e ->
  wp (queue_insert_before field q e (successor q l2))
     (fun _ h' => repr2 h' (<[q := l1 ++ e :: l2]> A) /\ outside2 h h') h.
Proof.
  intros Hins. start_insertion Hins. unfold queue_insert_before. cbn [next prev entry chain_of].
  pose proof (repr_links entry_of U apart h A q [] (l1 ++ l2) HR Hq) as (Hf & _). cbn [predecessor List.last] in Hf.
  destruct l2 as [|c l2]; destruct l1 as [|z l1 _] using rev_ind; cbn [successor predecessor List.last app] in *;
    rewrite ?predecessor_snoc in *.
  - plain. destruct HF as ([? ?] & (? & ? & ?) & ? & ?). decide_eqb. repeat (apply wp_bind; step). decide_eqb.
    repeat step. finish HI.
  - destruct (member_entry A q _ z Hr Hq) as [Ez Hz]; [set_solver|].
    assert (Hne : successor q ((l1 ++ [z]) ++ []) <> q)
      by (destruct l1; simpl; [done|]; apply not_eq_sym; eapply member_entry; eauto; set_solver).
    plain. destruct HF as ([? ?] & (? & ? & ?) & ? & ?). decide_eqb. apply wp_bind. step. apply wp_bind. step. decide_eqb.
    repeat step. finish HI.
  - destruct (member_entry A q _ c Hr Hq) as [Ec Hc]; [set_solver|]. plain.
    destruct HF as ([? ?] & (? & ? & ?) & ? & ?). decide_eqb. apply wp_bind. step. apply wp_bind. step. decide_eqb.
    repeat step. finish HI.
  - destruct (member_entry A q _ z Hr Hq) as [Ez Hz]; [set_solver|].
    destruct (member_entry A q _ c Hr Hq) as [Ec Hc]; [set_solver|].
    assert (Hne : successor q ((l1 ++ [z]) ++ c :: l2) <> c).
    { destruct (repr_ring _ _ _ _ HR _ _ Hq) as (Hnd & _). apply NoDup_cons in Hnd as [_ Hnd].
      apply NoDup_app in Hnd as (_ & Hd & _). intros E. apply (Hd c); [|set_solver].
      destruct l1; simpl in E; subst; set_solver. }
    plain. destruct HF as ([? ?] & (? & ? & ?) & ? & ?). decide_eqb. apply wp_bind. step. apply wp_bind. step. decide_eqb.
    repeat step. finish HI.
Qed.

Lemma queue_insert_after_run h A q l1 l2 e : insertion h A q l1 l2 e ->
  wp (queue_insert_after field q e (predecessor q l1))
     (fun _ h' => repr2 h' (<[q := l1 ++ e :: l2]> A) /\ outside2 h h') h.
Proof.
  intros Hins. start_insertion Hins. unfold queue_insert_after. cbn [next prev entry chain_of].
  pose proof (repr_links entry_of U apart h A q [] (l1 ++ l2) HR Hq) as (Hf & _). cbn [predecessor List.last] in Hf.
  assert (Hq2 := Hq). rewrite <- (app_nil_r (l1 ++ l2)) in Hq2.
  pose proof (repr_links entry_of U apart h A q (l1 ++ l2) [] HR Hq2) as (_ & Hl & _). cbn [successor] in Hl.
  destruct l2 as [|c l2]; destruct l1 as [|z l1 _] using rev_ind; cbn [successor predecessor List.last app] in *;
    rewrite ?predecessor_snoc in *.
  - plain. destruct HF as ([? ?] & (? & ? & ?) & ? & ?). decide_eqb. repeat (apply wp_bind; step). decide_eqb.
    repeat step. finish HI.
  - destruct (member_entry A q _ z Hr Hq) as [Ez Hz]; [set_solver|]. rewrite app_nil_r, predecessor_snoc in Hl.
    plain. destruct HF as ([? ?] & (? & ? & ?) & ? & ?). decide_eqb. apply wp_bind. step. apply wp_bind. step. decide_eqb.
    repeat step. finish HI.
  - destruct (member_entry A q _ c Hr Hq) as [Ec Hc]; [set_solver|]. plain.
    destruct HF as ([? ?] & (? & ? & ?) & ? & ?). decide_eqb. apply wp_bind. step. apply wp_bind. step. decide_eqb.
    repeat step. finish HI.
  - destruct (member_entry A q _ z Hr Hq) as [Ez Hz]; [set_solver|].
    destruct (member_entry A q _ c Hr Hq) as [Ec Hc]; [set_solver|].
    assert (Hne : predecessor q ((l1 ++ [z]) ++ c :: l2) <> z).
    { destruct (repr_ring _ _ _ _ HR _ _ Hq) as (Hnd & _). apply NoDup_cons in Hnd as [_ Hnd].
      apply NoDup_app in Hnd as (_ & Hd & _). intros E. apply (Hd z); [set_solver|]. rewrite <- E.
      change (c :: l2) with ([c] ++ l2). rewrite app_assoc. destruct l2 as [|y l2 _] using rev_ind.
      - rewrite app_nil_r, predecessor_snoc. set_solver.
      - rewrite app_assoc, predecessor_snoc. set_solver. }
    plain. destruct HF as ([? ?] & (? & ? & ?) & ? & ?). decide_eqb. apply wp_bind. step. apply wp_bind. step. decide_eqb.
    repeat step. finish HI.
Qed.

(** *** Deletions *)

Definition deletion (h : mem) (A : queues) (q : Z) (l1 : list Z) (e : Z) (l2 : list Z) : Prop :=
  repr2 h A /\ roles A /\ A !! q = Some (l1 ++ e :: l2).

Ltac start_deletion Hdel :=
  let HR := fresh "HR" in let Hr := fresh "Hr" in let Hq := fresh "Hq" in
  destruct Hdel as (HR & Hr & Hq);
  match type of HR with repr _ _ ?h ?A => match type of Hq with _ !! ?q = Some (?l1 ++ ?e :: ?l2) =>
    let HF := fresh "HF" in let HI := fresh "HI" in
    pose proof (delete_facts entry_of U apart h A q l1 e l2 HR Hq) as HF;
    pose proof (fun h' => delete_repr entry_of U apart h h' A q l1 e l2 HR Hq) as HI;
    destruct (member_entry A q (l1 ++ e :: l2) e Hr Hq) as [?Ee ?Hqe]; [set_solver|];
    pose proof (head_entry _ _ _ Hr Hq) as ?Eq; cbv zeta in HF, HI
  end end.
Ltac finish_deletion HI := apply HI; [lk; done..|some_cell|some_cell|upto_cells].

Lemma queue_remove_run h A q l1 e l2 : deletion h A q l1 e l2 ->
  wp (queue_remove field q e) (fun _ h' => repr2 h' (<[q := l1 ++ l2]> A) /\ outside2 h h') h.
Proof.
  intros Hdel. start_deletion Hdel. unfold queue_remove. cbn [next prev entry chain_of].
  assert (Hp : l1 = [] \/ exists l0 z, l1 = l0 ++ [z]) by (destruct l1 as [|z l0 _] using rev_ind; eauto).
  destruct l2 as [|c l2]; (destruct Hp as [->|(l0 & z & ->)]; [|destruct (member_entry A q _ z Hr Hq) as [Ez Hz]; [set_solver|]]);
    try (destruct (member_entry A q _ c Hr Hq) as [Ec Hc]; [set_solver|]);
    rewrite ?predecessor_snoc in HF, HI; cbn [successor predecessor List.last] in HF, HI; plain;
    destruct HF as ((? & ? & ? & ?) & (? & ? & ?) & _ & ? & ? & ? & ?);
    repeat (apply wp_bind; step); decide_eqb; repeat step; finish_deletion HI.
Qed.

Lemma queue_remove_first_run h A q e l2 : deletion h A q [] e l2 ->
  wp (queue_remove_first field q) (fun r h' => r = e /\ repr2 h' (<[q := l2]> A) /\ outside2 h h') h.
Proof.
  intros Hdel. start_deletion Hdel. unfold queue_remove_first. cbn [next prev entry chain_of].
  destruct l2 as [|c l2]; [|destruct (member_entry A q _ c Hr Hq) as [Ec Hc]; [set_solver|]];
    cbn [successor predecessor List.last app] in HF, HI; plain;
    destruct HF as ((? & ? & ? & ?) & (? & ? & ?) & _ & ? & ? & ? & ?);
    repeat (apply wp_bind; step); decide_eqb; repeat step; (split; [done|]); finish_deletion HI.
Qed.

Lemma queue_remove_last_run h A q l1 e : deletion h A q l1 e [] ->
  wp (queue_remove_last field q) (fun r h' => r = e /\ repr2 h' (<[q := l1]> A) /\ outside2 h h') h.
Proof.
  intros Hdel. start_deletion Hdel. unfold queue_remove_last. cbn [next prev entry chain_of].
  assert (Hp : l1 = [] \/ exists l0 z, l1 = l0 ++ [z]) by (destruct l1 as [|z l0 _] using rev_ind; eauto).
  rewrite app_nil_r in HI.
  (destruct Hp as [->|(l0 & z & ->)]; [|destruct (member_entry A q _ z Hr Hq) as [Ez Hz]; [set_solver|]]);
    rewrite ?predecessor_snoc in HF, HI; cbn [successor predecessor List.last app] in HF, HI; plain;
    destruct HF as ((? & ? & ? & ?) & (? & ? & ?) & _ & ? & ? & ? & ?);
    repeat (apply wp_bind; step); decide_eqb; repeat step; (split; [done|]); finish_deletion HI.
Qed.

(** *** Heads *)

Lemma queue_init2_run h A q : repr2 h A -> reusable U A q -> q ∈ heads ->
  wp (queue_init q) (fun _ h' => repr2 h' (<[q := []]> A) /\ outside2 h h') h.
Proof.
  intros HR Hre Hh. unfold queue_init. cbn [next prev entry].
  destruct (repr_alloc _ _ _ _ HR q (proj1 Hre)) as [? ?]. pose proof (init_repr entry_of U apart h A q HR Hre) as HI.
  cbv zeta in HI. pose proof (entry_of_head q Hh) as Eq. plain. repeat step. exact HI.
Qed.

Lemma heads_apart h A o n y l : repr2 h A -> roles A -> A !! o = Some l -> n <> o -> reusable U A n -> y ∈ l ->
  16 <= Z.abs (entry_of o - entry_of y) /\ 16 <= Z.abs (entry_of o - entry_of n).
Proof.
  intros HR Hr Ho Hno [Hn _] Hy. assert (HU : forall z, z ∈ o :: l -> z ∈ U) by (intros z; by apply (repr_U (qshape entry_of) U h A o l)).
  split; apply apart; auto; [apply HU; set_solver|apply HU; set_solver| |apply HU; set_solver].
  by apply (member_entry A o l y).
Qed.

Ltac start_rebase HR Hr Ho Hno Hre Hh := 
  match type of HR with repr _ _ ?h ?A => match type of Ho with _ !! ?o = Some (?x :: ?l) => match type of Hno with ?n <> _ =>
  let HF := fresh "HF" in let HI := fresh "HI" in
  pose proof (rebase_facts entry_of U apart h A o n x l HR Ho Hno Hre) as HF;
  pose proof (fun h1 => rebase_repr entry_of U apart h h1 A o n x l HR Ho Hno Hre) as HI;
  destruct (repr_links entry_of U apart h A o [] (x :: l) HR Ho) as (?Hf & _);
  let Ho2 := fresh in assert (Ho2 := Ho); rewrite <- (app_nil_r (x :: l)) in Ho2;
  destruct (repr_links entry_of U apart h A o (x :: l) [] HR Ho2) as (_ & ?Hl & _); clear Ho2;
  pose proof (entry_of_head n Hh) as ?En; pose proof (head_entry _ _ _ Hr Ho) as ?Eo;
  destruct (member_entry A o _ x Hr Ho) as [?Ex ?Hx]; [set_solver|];
  destruct (member_entry A o _ _ Hr Ho (predecessor_in o x l)) as [?Ez ?Hz];
  destruct (heads_apart h A o n x (x :: l) HR Hr Ho Hno Hre) as [?Hox ?Hon]; [set_solver|];
  destruct (heads_apart h A o n _ (x :: l) HR Hr Ho Hno Hre (predecessor_in o x l)) as [?Hoz _];
  cbv zeta in HF, HI; cbn [successor] in *; set (z := predecessor o (x :: l)) in *
  end end end.

Lemma queue_assign_run h A o n x l : repr2 h A -> roles A -> A !! o = Some (x :: l) -> n <> o -> reusable U A n -> n ∈ heads ->
  wp (queue_assign field n o) (fun _ h' => repr2 h' (<[n := x :: l]> (delete o (delete n A))) /\ outside2 h h') h.
Proof.
  intros HR Hr Ho Hno Hre Hh. start_rebase HR Hr Ho Hno Hre Hh.
  cbn [predecessor List.last] in Hf. plain. destruct HF as ((? & ? & ? & ?) & ? & ? & ?).
  unfold queue_assign, copy_entry. cbn [next prev entry chain_of]. repeat step. finish HI.
Qed.

Lemma queue_new_head_run h A o n l : repr2 h A -> roles A -> A !! o = Some l -> n <> o -> reusable U A n -> n ∈ heads ->
  wp (queue_new_head field o n) (fun _ h' => repr2 h' (<[n := l]> (delete o (delete n A))) /\ outside2 h h') h.
Proof.
  intros HR Hr Ho Hno Hre Hh. unfold queue_new_head, queue_empty, queue_first, queue_end, copy_entry. destruct l as [|x l].
  - destruct (repr_links entry_of U apart h A o [] [] HR Ho) as (Hf & _). cbn [predecessor List.last successor] in Hf.
    rewrite (head_entry _ _ _ Hr Ho) in Hf. cbn [next prev entry]. repeat (apply wp_bind; step). apply wp_ret. decide_eqb.
    eapply wp_mono; [by apply (queue_init2_run h A n)|]. intros [] h' [HR' Hout]. split; [|done].
    rewrite delete_delete, insert_delete_eq, insert_delete_ne by done. by apply forget_repr.
  - start_rebase HR Hr Ho Hno Hre Hh. cbn [predecessor List.last] in Hf. plain. destruct HF as ((? & ? & ? & ?) & ? & ? & ?).
    cbn [next prev entry chain_of]. apply wp_bind, wp_bind. step. apply wp_ret. decide_eqb.
    apply wp_bind. repeat step. finish HI.
Qed.

(** *** The loop *)

Lemma queue_iterate_run A q l body (I : list Z -> mem -> Prop) : roles A -> A !! q = Some l ->
  (forall done h, I done h -> repr2 h A) ->
  (forall done e todo h, l = done ++ e :: todo -> I done h -> wp (body e) (fun _ h' => I (done ++ [e]) h') h) ->
  forall fuel h, (length l < fuel)%nat -> I [] h ->
  wp (queue_iterate field q body fuel) (fun r h' => r = Some tt /\ I l h') h.
Proof.
  intros Hr Hq HI Hbody.
  assert (Hloop : forall todo done fuel h, l = done ++ todo -> (length todo < fuel)%nat -> I done h ->
    wp (iterate_loop field q body fuel (successor q todo)) (fun r h' => r = Some tt /\ I l h') h).
  { induction todo as [|e todo IH]; intros done [|fuel] h Hl Hf Hd; simpl in Hf; [lia| |lia|]; simpl iterate_loop;
      unfold queue_end.
    - rewrite Z.eqb_refl. apply wp_ret. by rewrite Hl, app_nil_r.
    - destruct (member_entry A q l e Hr Hq) as [Ee Hqe]; [rewrite Hl; set_solver|]. decide_eqb.
      apply wp_bind. eapply wp_mono; [by apply (Hbody done e todo)|]. intros [] h1 Hd1. cbn beta in Hd1.
      assert (Hl' : l = (done ++ [e]) ++ todo) by by rewrite <- app_assoc. assert (Hq' := Hq). rewrite Hl' in Hq'.
      destruct (repr_links entry_of U apart h1 A q (done ++ [e]) todo (HI _ _ Hd1) Hq') as (Hn & _).
      rewrite predecessor_snoc, Ee in Hn. apply wp_bind. eapply wp_load; [exact Hn|].
      apply (IH (done ++ [e])); [done|lia|done]. }
  intros fuel h Hf Hd. destruct (repr_links entry_of U apart h A q [] l (HI _ _ Hd) Hq) as (Hn & _).
  cbn [predecessor List.last] in Hn. rewrite (head_entry _ _ _ Hr Hq) in Hn.
  unfold queue_iterate. apply wp_bind. eapply wp_load; [exact Hn|]. by apply (Hloop l []).
Qed.

(** *** Programs *)

Inductive macro : Type :=
| Mac_init (q : Z)
| Mac_enter (q e : Z)
| Mac_enter_first (q e : Z)
| Mac_insert_before (q e cur : Z)
| Mac_insert_after (q e cur : Z)
| Mac_remove (q e : Z)
| Mac_remove_first (q : Z)
| Mac_remove_last (q : Z)
| Mac_assign (to from : Z)
| Mac_new_head (old new : Z).

Definition exec_macro (o : macro) : M mem Z :=
  match o with
  | Mac_init q => noval (queue_init q)
  | Mac_enter q e => noval (queue_enter field q e)
  | Mac_enter_first q e => noval (queue_enter_first field q e)
  | Mac_insert_before q e cur => noval (queue_insert_before field q e cur)
  | Mac_insert_after q e cur => noval (queue_insert_after field q e cur)
  | Mac_remove q e => noval (queue_remove field q e)
  | Mac_remove_first q => queue_remove_first field q
  | Mac_remove_last q => queue_remove_last field q
  | Mac_assign to from => noval (queue_assign field to from)
  | Mac_new_head old new => noval (queue_new_head field old new)
  end.

Fixpoint exec_macros (os : list macro) : M mem (list Z) :=
  match os with
  | [] => ret []
  | o :: os => r <- exec_macro o ;; rs <- exec_macros os ;; ret (r :: rs)
  end.

(** A node that can be linked in. *)
Definition free_element (A : queues) (e : Z) : Prop := e ∈ U /\ ~ used A e /\ e ∉ heads.

Inductive mstep : queues -> macro -> Z -> queues -> Prop :=
| M_init A q : reusable U A q -> q ∈ heads -> mstep A (Mac_init q) NULL (<[q := []]> A)
| M_enter A q l e : A !! q = Some l -> free_element A e -> mstep A (Mac_enter q e) NULL (<[q := l ++ [e]]> A)
| M_enter_first A q l e : A !! q = Some l -> free_element A e -> mstep A (Mac_enter_first q e) NULL (<[q := e :: l]> A)
| M_insert_before A q l1 l2 e : A !! q = Some (l1 ++ l2) -> free_element A e ->
    mstep A (Mac_insert_before q e (successor q l2)) NULL (<[q := l1 ++ e :: l2]> A)
| M_insert_after A q l1 l2 e : A !! q = Some (l1 ++ l2) -> free_element A e ->
    mstep A (Mac_insert_after q e (predecessor q l1)) NULL (<[q := l1 ++ e :: l2]> A)
| M_remove A q l1 e l2 : A !! q = Some (l1 ++ e :: l2) -> mstep A (Mac_remove q e) NULL (<[q := l1 ++ l2]> A)
| M_remove_first A q e l : A !! q = Some (e :: l) -> mstep A (Mac_remove_first q) e (<[q := l]> A)
| M_remove_last A q e l : A !! q = Some (l ++ [e]) -> mstep A (Mac_remove_last q) e (<[q := l]> A)
| M_assign A o n x l : A !! o = Some (x :: l) -> n <> o -> reusable U A n -> n ∈ heads ->
    mstep A (Mac_assign n o) NULL (<[n := x :: l]> (delete o (delete n A)))
| M_new_head A o n l : A !! o = Some l -> n <> o -> reusable U A n -> n ∈ heads ->
    mstep A (Mac_new_head o n) NULL (<[n := l]> (delete o (delete n A))).

Inductive msteps : queues -> list macro -> list Z -> queues -> Prop :=
| M_nil A : msteps A [] [] A
| M_cons A o r A1 os rs A2 : mstep A o r A1 -> msteps A1 os rs A2 -> msteps A (o :: os) (r :: rs) A2.

Lemma roles_insert A q l : roles A -> q ∈ heads -> (forall x, x ∈ l -> x ∉ heads) -> roles (<[q := l]> A).
Proof.
  intros Hr Hq Hl q' l'. destruct (decide (q' = q)) as [->|Hne].
  - rewrite lookup_insert_eq. by intros [= <-].
  - rewrite lookup_insert_ne by done. apply Hr.
Qed.

Lemma roles_delete A q : roles A -> roles (delete q A).
Proof. intros Hr q' l'. rewrite lookup_delete_Some. intros [_ H]. by apply Hr. Qed.

Lemma mstep_roles A o r A' : roles A -> mstep A o r A' -> roles A'.
Proof.
  intros Hr Hs. destruct Hs;
    repeat match goal with H : free_element _ _ |- _ => destruct H as (? & ? & ?) end;
    try (match goal with H : A !! _ = Some _ |- _ => destruct (Hr _ _ H) as [Hh Hm] end);
    apply roles_insert; auto using roles_delete; try set_solver; intros x Hx; try (apply Hm; set_solver).
Qed.

Lemma exec_macro_run h A o r A' : repr2 h A -> roles A -> mstep A o r A' ->
  wp (exec_macro o) (fun r' h' => r' = r /\ repr2 h' A' /\ outside2 h h') h.
Proof.
  intros HR Hr Hs. destruct Hs; simpl exec_macro; try match goal with |- wp (noval _) _ _ => apply wp_noval end;
    try match goal with H : free_element _ _ |- _ => destruct H as (? & ? & ?) end.
  - by apply queue_init2_run.
  - apply queue_enter_run. rewrite <- (app_nil_r l) in H. by (unfold insertion; split_and!).
  - apply queue_enter_first_run. by (unfold insertion; split_and!).
  - apply queue_insert_before_run. by (unfold insertion; split_and!).
  - apply queue_insert_after_run. by (unfold insertion; split_and!).
  - by apply queue_remove_run.
  - by apply queue_remove_first_run.
  - by apply queue_remove_last_run.
  - by apply queue_assign_run.
  - by apply queue_new_head_run.
Qed.

Lemma exec_macros_run h A os rs A' : repr2 h A -> roles A -> msteps A os rs A' ->
  wp (exec_macros os) (fun rs' h' => rs' = rs /\ repr2 h' A' /\ roles A' /\ outside2 h h') h.
Proof.
  intros HR Hr Hs. revert h HR. induction Hs as [A|A o r A1 os rs A2 Hs Hss IH]; intros h HR; simpl.
  - by apply wp_ret.
  - apply wp_bind. eapply wp_mono; [by apply (exec_macro_run h A o r A1)|]. intros r' h1 (-> & HR1 & Ho1). simpl.
    apply wp_bind. eapply wp_mono; [apply IH; eauto using mstep_roles|]. intros rs' h2 (-> & HR2 & Hr2 & Ho2). simpl.
    apply wp_ret. eauto 6 using outside_trans.
Qed.

End Method2.

(** C24. Any legal program of method-2 macros on any number of queues whose
    elements hold their chain at one offset ([queue_init], [queue_enter],
    [queue_enter_first], [queue_insert_before], [queue_insert_after],
    [queue_remove], [queue_remove_first], [queue_remove_last],
    [queue_assign], [queue_new_head]) runs without a bad access, returns the
    elements the list operations return, leaves every queue holding exactly
    its list with heads and elements kept apart, and writes nothing else; and
    [queue_iterate] visits the members in order and ends. *)
Theorem queue_macros_refine (field : Z) (U heads : gset Z) (h : mem) (A : queues) :
  spaced (entry_of field heads) U -> repr (qshape (entry_of field heads)) U h A -> roles heads A ->
  (forall os rs A', msteps U heads A os rs A' ->
    exists h', exec_macros field os h = Done rs h' /\ repr (qshape (entry_of field heads)) U h' A' /\ roles heads A' /\
      outside (qshape (entry_of field heads)) U h h') /\
  (forall q l body (I : list Z -> mem -> Prop) fuel, A !! q = Some l ->
    (forall done h1, I done h1 -> repr (qshape (entry_of field heads)) U h1 A) ->
    (forall done e todo h1, l = done ++ e :: todo -> I done h1 ->
      exists h2, body e h1 = Done tt h2 /\ I (done ++ [e]) h2) ->
    (length l < fuel)%nat -> I [] h ->
    exists h', queue_iterate field q body fuel h = Done (Some tt) h' /\ I l h').
Proof.
  intros Hsp HR Hr. split.
  - intros os rs A' Hs.
    destruct (proj1 (wp_run _ _ _) (exec_macros_run field U heads Hsp h A os rs A' HR Hr Hs)) as (rs' & h' & Hrun & -> & H).
    eauto.
  - intros q l body I fuel Hq HI Hb Hf H0.
    destruct (proj1 (wp_run _ _ _) (queue_iterate_run field U heads Hsp A q l body I Hr Hq HI
      ltac:(intros done e todo h1 Hl Hd; apply wp_run; destruct (Hb done e todo h1 Hl Hd) as (h2 & ? & ?); eauto) fuel h Hf H0))
      as (r & h' & Hrun & -> & HI'). eauto.
Qed.

(** Two heads and two elements whose chains are 8 bytes into them. *)
Definition demo_U : gset Z := {[ 16; 32; 64; 96 ]}.
Definition demo_heads : gset Z := {[ 16; 32 ]}.
Definition demo_cells : mem := list_to_map (map (fun a => (a, 0)) [16; 24; 32; 40; 72; 80; 104; 112]).

Lemma demo_U_cases x : x ∈ demo_U -> x = 16 \/ x = 32 \/ x = 64 \/ x = 96.
Proof. unfold demo_U. set_solver. Qed.

Lemma queue_macros_refine_witness :
  exists h', exec_macros 8 [Mac_init 16; Mac_enter 16 64; Mac_insert_before 16 96 64; Mac_new_head 16 32;
      Mac_remove_last 32; Mac_remove_first 32] demo_cells
    = Done [0; 0; 0; 0; 64; 96] h'.
Proof.
  assert (Hsp : spaced (entry_of 8 demo_heads) demo_U).
  { intros x y [->|[->|[->| ->]]]%demo_U_cases [->|[->|[->| ->]]]%demo_U_cases Hne; vm_compute; done. }
  assert (HR : repr (qshape (entry_of 8 demo_heads)) demo_U demo_cells ∅).
  { apply qrepr_intro; [done|done|]. intros x [->|[->|[->| ->]]]%demo_U_cases; split; vm_compute; eauto. }
  destruct (queue_macros_refine 8 demo_U demo_heads demo_cells ∅ Hsp HR ltac:(done)) as [H _].
  assert (Hfree : forall B e, bool_decide (e ∈ demo_U /\ ~ used B e /\ e ∉ demo_heads) = true -> free_element demo_U demo_heads B e)
    by (intros B e Hb; exact (bool_decide_eq_true_1 _ Hb)).
  assert (Hre : forall B e, bool_decide (e ∈ demo_U /\ ~ used (delete e B) e) = true -> reusable demo_U B e)
    by (intros B e Hb; exact (bool_decide_eq_true_1 _ Hb)).
  edestruct H as (h' & Hrun & _); [|eauto].
  eapply M_cons; [apply M_init; [apply Hre; by vm_compute|set_solver]|].
  eapply M_cons; [apply (M_enter _ _ _ 16 [] 64); [reflexivity|apply Hfree; by vm_compute]|].
  eapply M_cons; [apply (M_insert_before _ _ _ 16 [] [64] 96); [reflexivity|apply Hfree; by vm_compute]|].
  eapply M_cons; [apply (M_new_head _ _ _ 16 32 [96; 64]); [reflexivity|done|apply Hre; by vm_compute|set_solver]|].
  eapply M_cons; [apply (M_remove_last _ _ _ 32 64 [96]); reflexivity|].
  eapply M_cons; [apply (M_remove_first _ _ _ 32 96 []); reflexivity|].
  apply M_nil.
Defined.

End ElementQueue.
