(* ===== verification/CircleQueue.v ===== *)
(** * CircleQueue: queues with a single head pointer,
    [src/MacKernelSDK/Headers/kern/circle_queue.h]

    The entries form a ring without a head node and the queue is a pointer to
    the first of them, null when there is none.  Module [CircleQueue] models
    every function and macro of the header and proves that they are list
    operations, rotations included. *)

From Stdlib Require Import ZArith Lia Bool.
From stdpp Require Import base list option gmap.
From S2P Require Import Prelude Ring Lists KernQueue.
Import KernQueue.
Open Scope Z_scope.

Module CircleQueue.

(** [struct circle_queue_head]: the address of its field. *)
Record circle_queue_head : Type := mkHead { head : Z }.
Definition circle (cq : Z) : circle_queue_head := mkHead cq.

(** A failed [assert] or [__builtin_assume] is a fault. *)
Definition ensure (b : bool) : M mem unit := if b then ret tt else fault.

Definition circle_queue_init (q : Z) : M mem unit := store (head (circle q)) NULL.

Definition circle_queue_empty (cq : Z) : M mem bool :=
  h <- load (head (circle cq)) ;; ret (h =? NULL).

Definition circle_queue_first (cq : Z) : M mem Z := load (head (circle cq)).

Definition circle_queue_last (cq : Z) : M mem Z :=
  elt <- circle_queue_first cq ;;
  if negb (elt =? NULL) then
    p <- load (prev (entry elt)) ;;
    ensure (negb (p =? NULL)) ;;;
    load (prev (entry elt))
  else ret NULL.

Definition circle_queue_next (cq elt : Z) : M mem Z :=
  n <- load (next (entry elt)) ;;
  h <- load (head (circle cq)) ;;
  if n =? h then ret NULL else load (next (entry elt)).

Fixpoint length_loop (cq : Z) (fuel : nat) (elt n : Z) : M mem (option Z) :=
  match fuel with
  | O => ret None
  | S fuel =>
    if elt =? NULL then ret (Some n)
    else e <- circle_queue_next cq elt ;; length_loop cq fuel e (wrap64 (n + 1))
  end.
Definition circle_queue_length (cq : Z) (fuel : nat) : M mem (option Z) :=
  elt <- circle_queue_first cq ;; length_loop cq fuel elt 0.

Definition circle_enqueue_tail (cq elt : Z) : M mem unit :=
  hd <- circle_queue_first cq ;;
  tail <- circle_queue_last cq ;;
  if hd =? NULL then
    store (prev (entry elt)) elt ;;;
    store (next (entry elt)) elt ;;;
    store (head (circle cq)) elt
  else
    store (next (entry elt)) hd ;;;
    store (prev (entry elt)) tail ;;;
    store (next (entry tail)) elt ;;;
    store (prev (entry hd)) elt.

Definition circle_enqueue_head (cq elt : Z) : M mem unit :=
  circle_enqueue_tail cq elt ;;; store (head (circle cq)) elt.

Definition circle_dequeue (cq elt : Z) : M mem unit :=
  elt_prev <- load (prev (entry elt)) ;;
  elt_next <- load (next (entry elt)) ;;
  if elt =? elt_next then
    h <- load (head (circle cq)) ;;
    ensure (h =? elt) ;;;
    store (head (circle cq)) NULL
  else
    store (next (entry elt_prev)) elt_next ;;;
    store (prev (entry elt_next)) elt_prev ;;;
    h <- load (head (circle cq)) ;;
    when (h =? elt) (store (head (circle cq)) elt_next).

Definition circle_dequeue_head (cq : Z) : M mem Z :=
  elt <- circle_queue_first cq ;;
  when (negb (elt =? NULL)) (circle_dequeue cq elt) ;;;
  ret elt.

Definition circle_dequeue_tail (cq : Z) : M mem Z :=
  elt <- circle_queue_last cq ;;
  when (negb (elt =? NULL)) (circle_dequeue cq elt) ;;;
  ret elt.

Definition circle_queue_rotate_head_forward (cq : Z) : M mem unit :=
  first <- circle_queue_first cq ;;
  when (negb (first =? NULL)) (n <- load (next (entry first)) ;; store (head (circle cq)) n).

Definition circle_queue_rotate_head_backward (cq : Z) : M mem unit :=
  last <- circle_queue_last cq ;;
  when (negb (last =? NULL)) (store (head (circle cq)) last).

(** Entries and the elements around them, [off] bytes before. *)
Definition cqe_element (off qe : Z) : Z := qe - off.
Definition cqe_result (off entry : Z) : Z := if negb (entry =? NULL) then cqe_element off entry else NULL.
Definition cqe_dequeue_head (off hd : Z) : M mem Z := e <- circle_dequeue_head hd ;; ret (cqe_result off e).
Definition cqe_dequeue_tail (off hd : Z) : M mem Z := e <- circle_dequeue_tail hd ;; ret (cqe_result off e).
Definition cqe_queue_first (off hd : Z) : M mem Z := e <- circle_queue_first hd ;; ret (cqe_result off e).
Definition cqe_queue_next (off elt hd : Z) : M mem Z := e <- circle_queue_next hd elt ;; ret (cqe_result off e).
Definition cqe_queue_last (off hd : Z) : M mem Z := e <- circle_queue_last hd ;; ret (cqe_result off e).

Section Loops.
Context (off cq : Z) (body : Z -> M mem unit).

Fixpoint cqe_loop (fuel : nat) (qe : Z) : M mem (option unit) :=
  match fuel with
  | O => ret None
  | S fuel =>
    if qe =? NULL then ret (Some tt)
    else body qe ;;; n <- circle_queue_next cq qe ;; cqe_loop fuel n
  end.
Definition cqe_foreach (fuel : nat) : M mem (option unit) :=
  qe <- circle_queue_first cq ;; cqe_loop fuel qe.

Fixpoint cqe_loop_safe (fuel : nat) (qe : Z) : M mem (option unit) :=
  match fuel with
  | O => ret None
  | S fuel =>
    if qe =? NULL then ret (Some tt)
    else ne <- circle_queue_next cq qe ;; body qe ;;; cqe_loop_safe fuel ne
  end.
Definition cqe_foreach_safe (fuel : nat) : M mem (option unit) :=
  qe <- circle_queue_first cq ;; cqe_loop_safe fuel qe.

Fixpoint cqe_element_loop (fuel : nat) (qe : Z) : M mem (option unit) :=
  match fuel with
  | O => ret None
  | S fuel =>
    if qe =? NULL then ret (Some tt)
    else body (cqe_element off qe) ;;; n <- circle_queue_next cq qe ;; cqe_element_loop fuel n
  end.
Definition cqe_foreach_element (fuel : nat) : M mem (option unit) :=
  qe <- circle_queue_first cq ;; cqe_element_loop fuel qe.

Fixpoint cqe_element_loop_safe (fuel : nat) (qe : Z) : M mem (option unit) :=
  match fuel with
  | O => ret None
  | S fuel =>
    if qe =? NULL then ret (Some tt)
    else ne <- circle_queue_next cq qe ;; body (cqe_element off qe) ;;; cqe_element_loop_safe fuel ne
  end.
Definition cqe_foreach_element_safe (fuel : nat) : M mem (option unit) :=
  qe <- circle_queue_first cq ;; cqe_element_loop_safe fuel qe.

End Loops.

(** ** The queue as a list *)

Section Refinement.
Context (U : gset Z) (cq : Z).
Abbreviation self := (fun x : Z => x).
Abbreviation in_U := (fun x => x ∈ U).
Abbreviation qring := (ring (qshape self) in_U).

(** The entries do not overlap each other or the head pointer, and are not
    null. *)
Record layout : Prop := mkLayout {
  layout_spaced : spaced self U;
  layout_head x : x ∈ U -> x <> cq /\ x + 8 <> cq;
  layout_null : 0 ∉ U
}.

Definition first (l : list Z) : Z := match l with [] => NULL | x :: _ => x end.

Record crepr (h : mem) (l : list Z) : Prop := mkCrepr {
  crepr_head : h !! cq = Some (first l);
  crepr_ring : qring h l;
  crepr_alloc x : x ∈ U -> is_Some (h !! x) /\ is_Some (h !! (x + 8))
}.

Hypothesis L : layout.

(** Another value in the head pointer. *)
Lemma head_store h h0 l : (forall x, x ∈ U -> is_Some (h !! x) /\ is_Some (h !! (x + 8))) ->
  h0 = <[cq := first l]> h -> qring h l -> crepr h0 l.
Proof.
  intros Ha -> Hr. split.
  - apply lookup_insert_eq.
  - eapply ring_frame; [|exact Hr]. intros k (x & Hx & Hk).
    destruct (layout_head L x (ring_D _ _ _ _ _ Hr Hx)) as [H1 H2].
    apply lookup_insert_ne. simpl in Hk. destruct Hk as [->|[= <-]]; congruence.
  - intros x Hx. destruct (Ha x Hx). split; by apply is_Some_insert.
Qed.

Lemma crepr_U h l x : crepr h l -> x ∈ l -> x ∈ U /\ x <> NULL.
Proof.
  intros HR Hx. pose proof (ring_D _ _ _ _ _ (crepr_ring _ _ HR) Hx) as HU. split; [done|].
  intros ->. by apply (layout_null L).
Qed.

Lemma circle_links h x l : crepr h (x :: l) ->
  h !! predecessor x l = Some x /\ h !! (x + 8) = Some (predecessor x l) /\
  predecessor x l ∈ U /\ predecessor x l <> NULL /\ x ∈ U /\ x <> NULL.
Proof.
  intros HR. pose proof (crepr_ring _ _ HR) as Hr.
  pose proof Hr as Hr'. rewrite <- (app_nil_r l) in Hr'. apply ring_linked_at in Hr' as [H1 H2].
  pose proof (crepr_U _ _ _ HR (predecessor_elem x l)). pose proof (crepr_U h (x :: l) x HR ltac:(set_solver)).
  split; [done|]. split; [by apply H2|]. tauto.
Qed.

Lemma circle_queue_last_run h l (Q : Z -> mem -> Prop) : crepr h l ->
  Q (match l with [] => NULL | x :: l => predecessor x l end) h -> wp (circle_queue_last cq) Q h.
Proof.
  intros HR HQ. unfold circle_queue_last, circle_queue_first. cbn [head circle prev next entry].
  apply wp_bind. eapply wp_load; [apply (crepr_head _ _ HR)|]. destruct l as [|x l]; simpl first; [by apply wp_ret|].
  destruct (circle_links _ _ _ HR) as (_ & Hp & _ & Hpn & _ & Hx).
  rewrite (proj2 (Z.eqb_neq x NULL)) by done. cbn [negb]. apply wp_bind. eapply wp_load; [exact Hp|].
  apply wp_bind. rewrite (proj2 (Z.eqb_neq (predecessor x l) NULL)) by done. apply wp_ret. by eapply wp_load.
Qed.

(** Only entries and the head pointer are written. *)
Definition coutside (h h' : mem) : Prop :=
  forall k, k <> cq -> (forall x, x ∈ U -> k <> x /\ k <> x + 8) -> h' !! k = h !! k.

Lemma coutside_trans h1 h2 h3 : coutside h1 h2 -> coutside h2 h3 -> coutside h1 h3.
Proof. intros H1 H2 k Hk HU. by rewrite H2, H1. Qed.

Lemma coutside_store h h1 k v : coutside h h1 -> k = cq \/ (exists x, x ∈ U /\ (k = x \/ k = x + 8)) ->
  coutside h (<[k := v]> h1).
Proof.
  intros Ho Hk j Hj HU. rewrite lookup_insert_ne; [by apply Ho|]. intros <-.
  destruct Hk as [->|(x & Hx & Hk)]; [done|]. destruct (HU x Hx). tauto.
Qed.

Ltac in_cells := match goal with
  | |- coutside ?h ?h => done
  | |- coutside _ (<[_ := _]> _) => apply coutside_store; [in_cells|first [left; done | right; eexists; split; [|solve [auto]]; done]]
  end.

Lemma qself_cells : disjoint_cells (qshape self) in_U.
Proof. exact (qcells self U (layout_spaced L)). Qed.

(** An entry linked in between the last and the first one. *)
Lemma circle_insert h h' x l e : crepr h (x :: l) -> e ∈ U -> e ∉ x :: l ->
  let p := predecessor x l in
  h' = <[x + 8 := e]> (<[p := e]> (<[e + 8 := p]> (<[e := x]> h))) ->
  crepr h' (x :: l ++ [e]) /\ coutside h h'.
Proof.
  intros HR He Hne p ->. destruct (circle_links _ _ _ HR) as (H1 & H2 & HpU & _ & HxU & _). fold p in H1, H2, HpU.
  pose proof (layout_spaced L) as Hsp.
  assert (Hpe : p <> e) by (intros E; apply Hne; rewrite <- E; apply predecessor_elem).
  assert (Hxe : x <> e) by set_solver.
  pose proof (Hsp p e HpU He Hpe). pose proof (Hsp x e HxU He Hxe). pose proof (qapart _ _ Hsp p x HpU HxU).
  destruct (layout_head L p HpU), (layout_head L x HxU), (layout_head L e He).
  destruct (crepr_alloc _ _ HR p HpU), (crepr_alloc _ _ HR x HxU), (crepr_alloc _ _ HR e He).
  split; [split|in_cells].
  - lk. apply (crepr_head _ _ HR).
  - apply (ring_insert_at _ _ qself_cells h _ x l [] e); [rewrite app_nil_r; apply (crepr_ring _ _ HR)|by rewrite app_nil_r|done| | |].
    + fold p. split; simpl; [by lk|]. intros c [= <-]. by lk.
    + split; simpl; [by lk|]. intros c [= <-]. by lk.
    + fold p. intros k. unfold cells_pv. cbn [nx pv qshape app successor]. rewrite !not_elem_of_cons.
      intros (? & ? & ? & ? & _). by rewrite !lookup_insert_ne by congruence.
  - intros y Hy. destruct (crepr_alloc _ _ HR y Hy). split; some_cell.
Qed.

Lemma ring_singleton h x : x ∈ U -> h !! x = Some x -> h !! (x + 8) = Some x -> qring h [x].
Proof.
  intros Hx H1 H2. split; [apply NoDup_singleton|]. split; [by constructor|]. split; [|done].
  split; [done|]. by intros c [= <-].
Qed.

Lemma circle_enqueue_tail_run h l e : crepr h l -> e ∈ U -> e ∉ l ->
  wp (circle_enqueue_tail cq e) (fun _ h' => crepr h' (l ++ [e]) /\ coutside h h') h.
Proof.
  intros HR He Hne. unfold circle_enqueue_tail. apply wp_bind. eapply wp_load; [apply (crepr_head _ _ HR)|].
  apply wp_bind. eapply circle_queue_last_run; [exact HR|]. cbn [head circle prev next entry].
  destruct (crepr_alloc _ _ HR e He) as [? ?]. destruct (layout_head L e He).
  assert (is_Some (h !! cq)) by (rewrite (crepr_head _ _ HR); eauto).
  destruct l as [|x l]; simpl first.
  - rewrite Z.eqb_refl. repeat step. split; [|in_cells].
    eapply (head_store (<[e := e]> (<[e + 8 := e]> h)) _ [e]); [|done|].
    + intros y Hy. destruct (crepr_alloc _ _ HR y Hy). split; some_cell.
    + apply ring_singleton; [done|by lk|by lk].
  - destruct (circle_links _ _ _ HR) as (H1' & H2' & HpU & _ & HxU & Hx).
    rewrite (proj2 (Z.eqb_neq x NULL)) by done.
    destruct (crepr_alloc _ _ HR _ HpU), (crepr_alloc _ _ HR x HxU). repeat step. by apply circle_insert.
Qed.

(** The first entry can be any entry of the ring. *)
Lemma circle_enqueue_head_run h l e : crepr h l -> e ∈ U -> e ∉ l ->
  wp (circle_enqueue_head cq e) (fun _ h' => crepr h' (e :: l) /\ coutside h h') h.
Proof.
  intros HR He Hne. unfold circle_enqueue_head. apply wp_bind.
  eapply wp_mono; [by apply circle_enqueue_tail_run|]. intros [] h1 [HR1 Ho1]. cbn [head circle].
  apply wp_store; [rewrite (crepr_head _ _ HR1); eauto|]. split.
  - eapply head_store; [apply (crepr_alloc _ _ HR1)|done|]. pose proof (crepr_ring _ _ HR1) as Hr. destruct l as [|x l]; [done|].
    by apply (ring_rotate _ _ _ x l e []).
  - eapply coutside_trans; [exact Ho1|]. in_cells.
Qed.

(** Unlinking [e] from a ring with another entry. *)
Lemma circle_unlink h q m1 e m2 : qring h (q :: m1 ++ e :: m2) ->
  let p := predecessor q m1 in let s := successor q m2 in
  h !! (e + 8) = Some p /\ h !! e = Some s /\ p ∈ U /\ s ∈ U /\ e <> s /\
  qring (<[s + 8 := p]> (<[p := s]> h)) (q :: m1 ++ m2).
Proof.
  intros Hr p s. pose proof (ring_linked_at _ _ _ _ _ _ Hr) as [H1 H2].
  replace (q :: m1 ++ e :: m2) with (q :: (m1 ++ [e]) ++ m2) in Hr by (by rewrite <- app_assoc).
  pose proof (ring_linked_at _ _ _ _ _ _ Hr) as [H3 H4]. rewrite predecessor_snoc in H3, H4.
  rewrite <- app_assoc in Hr. simpl app in Hr.
  assert (HpU : p ∈ U) by (apply (ring_D _ _ _ _ _ Hr); pose proof (predecessor_elem q m1); set_solver).
  assert (HsU : s ∈ U) by (apply (ring_D _ _ _ _ _ Hr); pose proof (successor_elem q m2); set_solver).
  assert (Hes : e <> s).
  { destruct Hr as (Hnd & _). apply NoDup_cons in Hnd as [Hq Hnd]. apply NoDup_app in Hnd as (_ & _ & Hnd).
    apply NoDup_cons in Hnd as [Hnd _]. pose proof (successor_elem q m2) as Hin. fold s in Hin. intros ->.
    apply elem_of_cons in Hin as [->|]; set_solver. }
  split; [by apply H2|]. split; [done|]. split; [done|]. split; [done|]. split; [done|].
  pose proof (qapart _ _ (layout_spaced L) p s HpU HsU).
  apply (ring_delete_at _ _ qself_cells h _ q m1 e m2); [done| |].
  - fold p s. split; simpl; [by lk|]. intros c [= <-]. by lk.
  - fold p s. intros k. unfold cells_pv. cbn [nx pv qshape app]. rewrite !not_elem_of_cons.
    intros (? & ? & ? & ? & _). by rewrite !lookup_insert_ne by congruence.
Qed.

Lemma circle_dequeue_run h l1 e l2 : crepr h (l1 ++ e :: l2) ->
  wp (circle_dequeue cq e) (fun _ h' => crepr h' (l1 ++ l2) /\ coutside h h') h.
Proof.
  intros HR. unfold circle_dequeue. cbn [head circle prev next entry].
  assert (Hcq : is_Some (h !! cq)) by (rewrite (crepr_head _ _ HR); eauto).
  destruct (decide (l1 ++ l2 = [])) as [[-> ->]%app_nil|Hne].
  { destruct (circle_links _ _ _ HR) as (Hn & Hp & _). simpl in Hn, Hp. pose proof (crepr_head _ _ HR) as Hh. simpl in Hh.
    repeat (apply wp_bind; step). rewrite Z.eqb_refl. apply wp_bind. step. apply wp_bind. rewrite Z.eqb_refl.
    apply wp_ret. step. split; [|in_cells]. eapply head_store; [apply (crepr_alloc _ _ HR)|done|]. split; [apply NoDup_nil_2|done]. }
  assert (exists q m1 m2, qring h (q :: m1 ++ e :: m2) /\ l1 ++ l2 = q :: m1 ++ m2 /\
    (l1 = [] -> successor q m2 = q) /\ (l1 <> [] -> e <> first (l1 ++ e :: l2))) as (q & m1 & m2 & Hr & El & Hfirst & Hother).
  { pose proof (crepr_ring _ _ HR) as Hr. destruct l1 as [|x l1].
    - destruct l2 as [|y l2]; [done|]. exists y, l2, []. simpl app in *.
      split; [by apply (ring_rotate _ _ _ e [] y l2)|]. rewrite app_nil_r. done.
    - exists x, l1, l2. split; [done|]. split; [done|]. split; [done|]. intros _ E. simpl in E.
      destruct Hr as (Hnd & _). apply NoDup_cons in Hnd as [Hnd _]. set_solver. }
  destruct (circle_unlink _ _ _ _ _ Hr) as (Hp & Hn & HpU & HsU & Hes & Hr').
  set (p := predecessor q m1) in *. set (s := successor q m2) in *. pose proof (layout_spaced L) as Hsp.
  destruct (layout_head L p HpU), (layout_head L s HsU).
  destruct (crepr_alloc _ _ HR p HpU), (crepr_alloc _ _ HR s HsU).
  assert (Ha : forall x, x ∈ U -> is_Some (<[s + 8 := p]> (<[p := s]> h) !! x) /\ is_Some (<[s + 8 := p]> (<[p := s]> h) !! (x + 8)))
    by (intros x Hx; destruct (crepr_alloc _ _ HR x Hx); split; some_cell).
  pose proof (crepr_head _ _ HR) as Hh.
  repeat (apply wp_bind; step). rewrite (proj2 (Z.eqb_neq e s)) by done. repeat (apply wp_bind; step). rewrite El.
  destruct l1 as [|x l1].
  - simpl first. rewrite Z.eqb_refl. simpl when. step. split; [|in_cells].
    apply (head_store (<[s + 8 := p]> (<[p := s]> h))); [done|simpl; by rewrite (Hfirst eq_refl)|done].
  - rewrite (proj2 (Z.eqb_neq _ e)) by (apply not_eq_sym, Hother; done). apply wp_ret. split; [|in_cells].
    split; [|done|done]. lk. rewrite Hh. simpl in El. injection El as -> _. done.
Qed.

Lemma circle_queue_next_run h l1 x l2 : crepr h (l1 ++ x :: l2) ->
  wp (circle_queue_next cq x) (fun r h' => r = first l2 /\ h' = h) h.
Proof.
  intros HR. unfold circle_queue_next. cbn [head circle prev next entry].
  pose proof (crepr_ring _ _ HR) as Hr. pose proof (crepr_head _ _ HR) as Hh.
  assert (Hn : h !! x = Some (successor (first (l1 ++ [x])) l2)).
  { destruct l1 as [|y l1]; simpl in *.
    - by destruct (ring_linked_at _ _ _ x [] l2 Hr) as [H _].
    - replace (l1 ++ x :: l2) with ((l1 ++ [x]) ++ l2) in Hr by by rewrite <- app_assoc.
      destruct (ring_linked_at _ _ _ y (l1 ++ [x]) l2 Hr) as [H _]. by rewrite predecessor_snoc in H. }
  assert (Hf : first (l1 ++ x :: l2) = first (l1 ++ [x])) by (by destruct l1). rewrite Hf in Hh.
  repeat (apply wp_bind; step). destruct l2 as [|y l2]; simpl successor in *.
  - rewrite Z.eqb_refl. by apply wp_ret.
  - rewrite (proj2 (Z.eqb_neq _ _)); [by eapply wp_load|]. destruct Hr as (Hnd & _).
    destruct l1 as [|z l1]; simpl in *; apply NoDup_cons in Hnd as [Hnd _]; set_solver.
Qed.

Lemma circle_dequeue_head_run h l : crepr h l ->
  wp (circle_dequeue_head cq) (fun r h' => r = first l /\ crepr h' (tl l) /\ coutside h h') h.
Proof.
  intros HR. unfold circle_dequeue_head. apply wp_bind. eapply wp_load; [apply (crepr_head _ _ HR)|].
  destruct l as [|x l]; simpl first; [by apply wp_bind, wp_ret, wp_ret|].
  destruct (crepr_U _ _ x HR) as [_ Hx]; [set_solver|]. rewrite (proj2 (Z.eqb_neq x NULL)) by done. simpl when.
  apply wp_bind. eapply wp_mono; [by apply (circle_dequeue_run h [] x l)|]. intros [] h1 [HR1 Ho1]. by apply wp_ret.
Qed.

Lemma circle_dequeue_tail_run h l : crepr h l ->
  wp (circle_dequeue_tail cq) (fun r h' => r = List.last l NULL /\ crepr h' (List.removelast l) /\ coutside h h') h.
Proof.
  intros HR. unfold circle_dequeue_tail. apply wp_bind. eapply circle_queue_last_run; [exact HR|].
  destruct l as [|z l _] using rev_ind; [by apply wp_bind, wp_ret, wp_ret|].
  rewrite List.last_last, List.removelast_last.
  assert (Hp : match l ++ [z] with [] => NULL | x :: m => predecessor x m end = z).
  { destruct l as [|x l]; [done|]. apply (predecessor_snoc x l z). }
  rewrite Hp. destruct (crepr_U _ _ z HR) as [_ Hz]; [set_solver|]. rewrite (proj2 (Z.eqb_neq z NULL)) by done. simpl when.
  apply wp_bind. eapply wp_mono; [by apply (circle_dequeue_run h l z [])|]. intros [] h1 [HR1 Ho1]. rewrite app_nil_r in HR1.
  by apply wp_ret.
Qed.

Definition rotate_forward (l : list Z) : list Z := match l with [] => [] | x :: l => l ++ [x] end.
Definition rotate_backward (l : list Z) : list Z :=
  match l with [] => [] | x :: m => predecessor x m :: List.removelast l end.

Lemma rotate_forward_run h l : crepr h l ->
  wp (circle_queue_rotate_head_forward cq) (fun _ h' => crepr h' (rotate_forward l) /\ coutside h h') h.
Proof.
  intros HR. unfold circle_queue_rotate_head_forward. apply wp_bind. eapply wp_load; [apply (crepr_head _ _ HR)|].
  destruct l as [|x l]; simpl first; [by apply wp_ret|].
  destruct (crepr_U _ _ x HR) as [_ Hx]; [set_solver|]. rewrite (proj2 (Z.eqb_neq x NULL)) by done. simpl when.
  pose proof (crepr_ring _ _ HR) as Hr. destruct (ring_linked_at _ _ _ x [] l Hr) as [Hn _]. simpl in Hn.
  cbn [head circle next prev entry]. assert (is_Some (h !! cq)) by (rewrite (crepr_head _ _ HR); eauto).
  repeat step. split; [|in_cells]. apply (head_store h); [apply (crepr_alloc _ _ HR)| |].
  - destruct l as [|y l]; done.
  - destruct l as [|y l]; [done|]. by apply (ring_rotate _ _ _ x [] y l).
Qed.

Lemma rotate_backward_run h l : crepr h l ->
  wp (circle_queue_rotate_head_backward cq) (fun _ h' => crepr h' (rotate_backward l) /\ coutside h h') h.
Proof.
  intros HR. unfold circle_queue_rotate_head_backward. apply wp_bind. eapply circle_queue_last_run; [exact HR|].
  destruct l as [|x l]; [by apply wp_ret|]. destruct (circle_links _ _ _ HR) as (_ & _ & _ & Hp & _).
  rewrite (proj2 (Z.eqb_neq _ NULL)) by done. simpl when. cbn [head circle].
  assert (is_Some (h !! cq)) by (rewrite (crepr_head _ _ HR); eauto). step. split; [|in_cells].
  apply (head_store h); [apply (crepr_alloc _ _ HR)|done|]. pose proof (crepr_ring _ _ HR) as Hr. unfold rotate_backward.
  destruct l as [|z l _] using rev_ind; [done|]. rewrite predecessor_snoc.
  change (x :: l ++ [z]) with ((x :: l) ++ [z]). rewrite List.removelast_last. by apply (ring_rotate _ _ _ x l z []).
Qed.

(** The iteration counts every entry once. *)
Lemma circle_queue_length_run h l fuel : crepr h l -> (length l < fuel)%nat -> Z.of_nat (length l) < 2 ^ 64 ->
  wp (circle_queue_length cq fuel) (fun r h' => r = Some (Z.of_nat (length l)) /\ h' = h) h.
Proof.
  intros HR Hf Hl. unfold circle_queue_length. apply wp_bind. eapply wp_load; [apply (crepr_head _ _ HR)|].
  assert (Hloop : forall todo done fuel, l = done ++ todo -> (length todo < fuel)%nat ->
    wp (length_loop cq fuel (first todo) (Z.of_nat (length done))) (fun r h' => r = Some (Z.of_nat (length l)) /\ h' = h) h).
  { induction todo as [|x todo IH]; intros done [|f] El Hlt; simpl in Hlt; [lia| |lia|]; simpl length_loop; simpl first.
    - apply wp_ret. by rewrite El, app_nil_r.
    - destruct (crepr_U _ l x HR) as [_ Hx]; [rewrite El; set_solver|]. rewrite (proj2 (Z.eqb_neq x NULL)) by done.
      apply wp_bind. eapply wp_mono; [apply (circle_queue_next_run h done x todo); by rewrite <- El|].
      intros r h1 [-> ->]. assert (El' : l = (done ++ [x]) ++ todo) by (by rewrite <- app_assoc).
      specialize (IH (done ++ [x]) f El' ltac:(lia)). rewrite length_app in IH. simpl in IH.
      rewrite El, length_app in Hl. simpl in Hl. rewrite wrap64_small by lia.
      replace (Z.of_nat (length done) + 1) with (Z.of_nat (length done + 1)) by lia. exact IH. }
  by apply (Hloop l []).
Qed.

(** *** Loops *)

Lemma cqe_foreach_run l body (I : list Z -> mem -> Prop) :
  (forall done h, I done h -> crepr h l) ->
  (forall done e todo h, l = done ++ e :: todo -> I done h -> wp (body e) (fun _ h' => I (done ++ [e]) h') h) ->
  forall fuel h, (length l < fuel)%nat -> I [] h ->
  wp (cqe_foreach cq body fuel) (fun r h' => r = Some tt /\ I l h') h.
Proof.
  intros HI Hbody.
  assert (Hloop : forall todo done fuel h, l = done ++ todo -> (length todo < fuel)%nat -> I done h ->
    wp (cqe_loop cq body fuel (first todo)) (fun r h' => r = Some tt /\ I l h') h).
  { induction todo as [|e todo IH]; intros done [|fuel] h Hl Hf Hd; simpl in Hf; [lia| |lia|]; simpl cqe_loop; simpl first.
    - apply wp_ret. by rewrite Hl, app_nil_r.
    - destruct (crepr_U _ l e (HI _ _ Hd)) as [_ He]; [rewrite Hl; set_solver|]. rewrite (proj2 (Z.eqb_neq e NULL)) by done.
      apply wp_bind. eapply wp_mono; [by apply (Hbody done e todo)|]. intros [] h1 Hd1. cbn beta in Hd1. apply wp_bind.
      eapply wp_mono; [apply (circle_queue_next_run h1 done e todo); rewrite <- Hl; eauto|]. intros r h2 [-> ->].
      apply (IH (done ++ [e])); [by rewrite <- app_assoc|lia|done]. }
  intros fuel h Hf Hd. unfold cqe_foreach. apply wp_bind. eapply wp_load; [apply (crepr_head _ _ (HI _ _ Hd))|].
  by apply (Hloop l []).
Qed.

Lemma cqe_drain_run h l fuel : crepr h l -> (length l < fuel)%nat ->
  wp (cqe_foreach_safe cq (circle_dequeue cq) fuel) (fun r h' => r = Some tt /\ crepr h' [] /\ coutside h h') h.
Proof.
  intros HR Hf. unfold cqe_foreach_safe. apply wp_bind. eapply wp_load; [apply (crepr_head _ _ HR)|].
  assert (Hloop : forall l fuel h0, crepr h0 l -> coutside h h0 -> (length l < fuel)%nat ->
    wp (cqe_loop_safe cq (circle_dequeue cq) fuel (first l)) (fun r h' => r = Some tt /\ crepr h' [] /\ coutside h h') h0).
  { clear l fuel HR Hf. induction l as [|e l IH]; intros [|fuel] h0 HR Ho Hf; simpl in Hf; [lia| |lia|]; simpl cqe_loop_safe; simpl first.
    - by apply wp_ret.
    - destruct (crepr_U _ _ e HR) as [_ He]; [set_solver|]. rewrite (proj2 (Z.eqb_neq e NULL)) by done.
      apply wp_bind. eapply wp_mono; [by apply (circle_queue_next_run h0 [] e l)|]. intros r h1 [-> ->].
      apply wp_bind. eapply wp_mono; [by apply (circle_dequeue_run h0 [] e l)|]. intros [] h1 [HR1 Ho1].
      apply IH; [done|eauto using coutside_trans|lia]. }
  by apply Hloop.
Qed.

Lemma cqe_element_loops off body fuel (h : mem) :
  cqe_foreach_element off cq body fuel h = cqe_foreach cq (fun qe => body (cqe_element off qe)) fuel h /\
  cqe_foreach_element_safe off cq body fuel h = cqe_foreach_safe cq (fun qe => body (cqe_element off qe)) fuel h.
Proof.
  split.
  - unfold cqe_foreach_element, cqe_foreach, bind. destruct (circle_queue_first cq h) as [qe h1|]; [|done]. revert qe h1.
    induction fuel as [|fuel IH]; intros qe h1; [done|]. simpl. destruct (qe =? NULL); [done|].
    unfold bind. destruct (body _ h1) as [[] h2|]; [|done]. destruct (circle_queue_next cq qe h2) as [n h3|]; [|done]. apply IH.
  - unfold cqe_foreach_element_safe, cqe_foreach_safe, bind. destruct (circle_queue_first cq h) as [qe h1|]; [|done]. revert qe h1.
    induction fuel as [|fuel IH]; intros qe h1; [done|]. simpl. destruct (qe =? NULL); [done|].
    unfold bind. destruct (circle_queue_next cq qe h1) as [n h2|]; [|done]. destruct (body _ h2) as [[] h3|]; [|done]. apply IH.
Qed.

(** *** Programs *)

Inductive cop : Type :=
| C_init | C_enqueue_tail (e : Z) | C_enqueue_head (e : Z) | C_dequeue (e : Z)
| C_dequeue_head (off : Z) | C_dequeue_tail (off : Z) | C_rotate_forward | C_rotate_backward
| C_empty | C_first (off : Z) | C_last (off : Z) | C_next (off x : Z) | C_length (fuel : nat).

Definition exec_cop (o : cop) : M mem Z :=
  match o with
  | C_init => noval (circle_queue_init cq)
  | C_enqueue_tail e => noval (circle_enqueue_tail cq e)
  | C_enqueue_head e => noval (circle_enqueue_head cq e)
  | C_dequeue e => noval (circle_dequeue cq e)
  | C_dequeue_head off => cqe_dequeue_head off cq
  | C_dequeue_tail off => cqe_dequeue_tail off cq
  | C_rotate_forward => noval (circle_queue_rotate_head_forward cq)
  | C_rotate_backward => noval (circle_queue_rotate_head_backward cq)
  | C_empty => b <- circle_queue_empty cq ;; ret (Z.b2z b)
  | C_first off => cqe_queue_first off cq
  | C_last off => cqe_queue_last off cq
  | C_next off x => cqe_queue_next off x cq
  | C_length fuel => r <- circle_queue_length cq fuel ;; match r with Some n => ret n | None => fault end
  end.

Fixpoint exec_cops (os : list cop) : M mem (list Z) :=
  match os with [] => ret [] | o :: os => r <- exec_cop o ;; rs <- exec_cops os ;; ret (r :: rs) end.

(** The operations on the list; the element macros shift what they return. *)
Inductive cstep : list Z -> cop -> Z -> list Z -> Prop :=
| CS_init l : cstep l C_init NULL []
| CS_enqueue_tail l e : e ∈ U -> e ∉ l -> cstep l (C_enqueue_tail e) NULL (l ++ [e])
| CS_enqueue_head l e : e ∈ U -> e ∉ l -> cstep l (C_enqueue_head e) NULL (e :: l)
| CS_dequeue l1 e l2 : cstep (l1 ++ e :: l2) (C_dequeue e) NULL (l1 ++ l2)
| CS_dequeue_head off l : cstep l (C_dequeue_head off) (cqe_result off (first l)) (tl l)
| CS_dequeue_tail off l : cstep l (C_dequeue_tail off) (cqe_result off (List.last l NULL)) (List.removelast l)
| CS_rotate_forward l : cstep l C_rotate_forward NULL (rotate_forward l)
| CS_rotate_backward l : cstep l C_rotate_backward NULL (rotate_backward l)
| CS_empty l : cstep l C_empty (match l with [] => 1 | _ => 0 end) l
| CS_first off l : cstep l (C_first off) (cqe_result off (first l)) l
| CS_last off l : cstep l (C_last off) (cqe_result off (List.last l NULL)) l
| CS_next off l1 x l2 : cstep (l1 ++ x :: l2) (C_next off x) (cqe_result off (first l2)) (l1 ++ x :: l2)
| CS_length l fuel : (length l < fuel)%nat -> Z.of_nat (length l) < 2 ^ 64 ->
    cstep l (C_length fuel) (Z.of_nat (length l)) l.

Inductive csteps : list Z -> list cop -> list Z -> list Z -> Prop :=
| CS_nil l : csteps l [] [] l
| CS_cons l o r l1 os rs l2 : cstep l o r l1 -> csteps l1 os rs l2 -> csteps l (o :: os) (r :: rs) l2.

Lemma wp_result (m : M mem Z) (f : Z -> Z) v (P : mem -> Prop) (h : mem) :
  wp m (fun r h' => r = v /\ P h') h -> wp (r <- m ;; ret (f r)) (fun r h' => r = f v /\ P h') h.
Proof. intros H. apply wp_bind. eapply wp_mono; [exact H|]. intros r h' [-> HP]. by apply wp_ret. Qed.

Lemma circle_last l : match l with [] => NULL | x :: m => predecessor x m end = List.last l NULL.
Proof.
  destruct l as [|z l _] using rev_ind; [done|]. rewrite List.last_last. destruct l as [|x l]; [done|].
  apply (predecessor_snoc x l z).
Qed.

Lemma exec_cop_run h l o r l' : crepr h l -> cstep l o r l' ->
  wp (exec_cop o) (fun r' h' => r' = r /\ crepr h' l' /\ coutside h h') h.
Proof.
  intros HR Hs. pose proof (crepr_head _ _ HR) as Hh. destruct Hs; simpl exec_cop;
    try match goal with |- wp (noval _) _ _ => apply wp_noval end.
  - apply wp_store; [eauto|]. split; [|in_cells]. apply (head_store h); [apply (crepr_alloc _ _ HR)|done|].
    split; [apply NoDup_nil_2|done].
  - by apply circle_enqueue_tail_run.
  - by apply circle_enqueue_head_run.
  - by apply circle_dequeue_run.
  - apply (wp_result (circle_dequeue_head cq) (cqe_result off)). by apply circle_dequeue_head_run.
  - apply (wp_result (circle_dequeue_tail cq) (cqe_result off)). by apply circle_dequeue_tail_run.
  - by apply rotate_forward_run.
  - by apply rotate_backward_run.
  - unfold circle_queue_empty. cbn [head circle]. apply wp_bind, wp_bind. eapply wp_load; [exact Hh|]. apply wp_ret, wp_ret.
    split; [|done]. destruct l as [|x l]; [done|]. destruct (crepr_U _ _ x HR) as [_ Hx]; [set_solver|].
    simpl. by rewrite (proj2 (Z.eqb_neq x NULL)).
  - apply (wp_result (circle_queue_first cq) (cqe_result off)). by eapply wp_load.
  - apply (wp_result (circle_queue_last cq) (cqe_result off)). eapply circle_queue_last_run; [exact HR|].
    by rewrite circle_last.
  - apply (wp_result (circle_queue_next cq x) (cqe_result off)).
    eapply wp_mono; [by apply (circle_queue_next_run h l1 x l2)|]. by intros r h' [-> ->].
  - apply wp_bind. eapply wp_mono; [by apply circle_queue_length_run|]. intros r h' [-> ->]. by apply wp_ret.
Qed.

Lemma exec_cops_run h l os rs l' : crepr h l -> csteps l os rs l' ->
  wp (exec_cops os) (fun rs' h' => rs' = rs /\ crepr h' l' /\ coutside h h') h.
Proof.
  intros HR Hs. revert h HR. induction Hs as [l|l o r l1 os rs l2 Hs Hss IH]; intros h HR; simpl.
  - by apply wp_ret.
  - apply wp_bind. eapply wp_mono; [by apply (exec_cop_run h l o r l1)|]. intros r' h1 (-> & HR1 & Ho1). simpl.
    apply wp_bind. eapply wp_mono; [by apply IH|]. intros rs' h2 (-> & HR2 & Ho2). simpl.
    apply wp_ret. eauto using coutside_trans.
Qed.

End Refinement.

(** C25. Any legal program of circle queue calls (enqueue and dequeue at both
    ends or anywhere, rotations of the head in both directions, the peeks, the
    length) runs without a bad access or a failed assertion, returns what the
    list operations return and leaves the queue holding the resulting list;
    the loops visit the entries in order and end, and draining the queue from
    the safe loop leaves it empty; and the element loops are the same loops
    seen through [cqe_element]. *)
Theorem circle_queue_refines (U : gset Z) (cq : Z) (h : mem) (l : list Z) :
  layout U cq -> crepr U cq h l ->
  (forall os rs l', csteps U l os rs l' ->
    exists h', exec_cops cq os h = Done rs h' /\ crepr U cq h' l' /\ coutside U cq h h') /\
  (forall body (I : list Z -> mem -> Prop) fuel,
    (forall done h1, I done h1 -> crepr U cq h1 l) ->
    (forall done e todo h1, l = done ++ e :: todo -> I done h1 ->
      exists h2, body e h1 = Done tt h2 /\ I (done ++ [e]) h2) ->
    (length l < fuel)%nat -> I [] h ->
    exists h', cqe_foreach cq body fuel h = Done (Some tt) h' /\ I l h') /\
  (forall fuel, (length l < fuel)%nat ->
    exists h', cqe_foreach_safe cq (circle_dequeue cq) fuel h = Done (Some tt) h' /\ crepr U cq h' []) /\
  (forall off body fuel,
    cqe_foreach_element off cq body fuel h = cqe_foreach cq (fun qe => body (cqe_element off qe)) fuel h /\
    cqe_foreach_element_safe off cq body fuel h = cqe_foreach_safe cq (fun qe => body (cqe_element off qe)) fuel h).
Proof.
  intros L HR. split; [|split; [|split]].
  - intros os rs l' Hs.
    destruct (proj1 (wp_run _ _ _) (exec_cops_run U cq L h l os rs l' HR Hs)) as (rs' & h' & Hrun & -> & H). eauto.
  - intros body I fuel HI Hb Hf H0.
    destruct (proj1 (wp_run _ _ _) (cqe_foreach_run U cq L l body I HI
      ltac:(intros done e todo h1 Hl Hd; apply wp_run; destruct (Hb done e todo h1 Hl Hd) as (h2 & ? & ?); eauto) fuel h Hf H0))
      as (r & h' & Hrun & -> & HI'). eauto.
  - intros fuel Hf.
    destruct (proj1 (wp_run _ _ _) (cqe_drain_run U cq L h l fuel HR Hf)) as (r & h' & Hrun & -> & HR' & _). eauto.
  - intros. apply cqe_element_loops.
Qed.

Lemma circle_queue_refines_witness :
  exists h', exec_cops 8 [C_enqueue_tail 16; C_enqueue_tail 32; C_enqueue_head 48; C_rotate_forward; C_dequeue 32;
      C_length 9; C_dequeue_tail 0; C_dequeue_head 8] (<[8 := 0]> demo_mem)
    = Done [0; 0; 0; 0; 0; 2; 48; 8] h'.
Proof.
  assert (L : layout demo_nodes 8).
  { split; [exact demo_spaced| |by apply (bool_decide_unpack _); vm_compute].
    intros x [->|[->|[->| ->]]]%demo_cases; done. }
  assert (HR : crepr demo_nodes 8 (<[8 := 0]> demo_mem) []).
  { split; [reflexivity|split; [apply NoDup_nil_2|done]|].
    intros x [->|[->|[->| ->]]]%demo_cases; split; vm_compute; eauto. }
  destruct (circle_queue_refines demo_nodes 8 _ [] L HR) as (H & _).
  assert (Hin : forall x, bool_decide (x ∈ demo_nodes) = true -> x ∈ demo_nodes) by (intros x; apply bool_decide_eq_true_1).
  edestruct H as (h' & Hrun & _); [|eauto].
  eapply CS_cons; [apply CS_enqueue_tail; [by apply Hin|set_solver]|].
  eapply CS_cons; [apply CS_enqueue_tail; [by apply Hin|set_solver]|].
  eapply CS_cons; [apply CS_enqueue_head; [by apply Hin|set_solver]|].
  eapply CS_cons; [apply CS_rotate_forward|].
  eapply CS_cons; [apply (CS_dequeue _ [16] 32 [48])|].
  eapply CS_cons; [apply CS_length; simpl; lia|].
  eapply CS_cons; [apply CS_dequeue_tail|].
  eapply CS_cons; [apply CS_dequeue_head|].
  apply CS_nil.
Defined.

End CircleQueue.
