(* ===== verification/SysQueue.v ===== *)
(** * SysQueue: the list macros of [src/MacKernelSDK/Headers/sys/queue.h]

    Module [SysQueue] has one definition per macro of the five families:
    singly-linked lists ([SLIST]), singly-linked tail queues ([STAILQ]), lists
    ([LIST]), tail queues ([TAILQ]) and circular queues ([CIRCLEQ]), on the
    pointer memory of [Ring].  Pointers to elements are addresses of the
    elements, whose links are [field] bytes further; pointers to links
    ([struct type **]) are addresses of cells.  The debug macros
    ([QMD_TRACE_*], [TRASHIT], [*_CHECK_*]) expand to nothing, as they do
    without [QUEUE_MACRO_DEBUG].  [SysQueueSpec] proves them correct. *)

From Stdlib Require Import ZArith Lia Bool.
From stdpp Require Import base list option gmap.
From S2P Require Import Prelude Ring.
Open Scope Z_scope.

Module SysQueue.

(** The C [for] statement over one pointer variable.  [None]: out of fuel. *)
Fixpoint c_for (cond : Z -> bool) (next : Z -> M mem Z) (body : Z -> M mem unit) (fuel : nat) (var : Z) : M mem (option unit) :=
  match fuel with
  | O => ret None
  | S fuel =>
    if cond var then body var ;;; n <- next var ;; c_for cond next body fuel n
    else ret (Some tt)
  end.

(** The same with [tvar], which is loaded in the condition. *)
Fixpoint c_for_safe (cond : Z -> bool) (next : Z -> M mem Z) (body : Z -> M mem unit) (fuel : nat) (var : Z) : M mem (option unit) :=
  match fuel with
  | O => ret None
  | S fuel =>
    if cond var then tvar <- next var ;; body var ;;; c_for_safe cond next body fuel tvar
    else ret (Some tt)
  end.

(** A pointer used as a condition. *)
Definition nonnull (p : Z) : bool := negb (p =? NULL).

(** [while (NEXT(curelm) != elm) curelm = NEXT(curelm);] gives the last [curelm]. *)
Fixpoint find_before (next : Z -> M mem Z) (elm : Z) (fuel : nat) (curelm : Z) : M mem (option Z) :=
  match fuel with
  | O => ret None
  | S fuel =>
    n <- next curelm ;;
    if negb (n =? elm) then find_before next elm fuel n else ret (Some curelm)
  end.

Section Macros.
(** The offset of the link field in the elements. *)
Context (field : Z).

(** ** Singly-linked lists *)

Definition slh_first (head : Z) : Z := head.
Definition sle_next (elm : Z) : Z := elm + field.

Definition SLIST_FIRST (head : Z) : M mem Z := load (slh_first head).
Definition SLIST_EMPTY (head : Z) : M mem bool := f <- SLIST_FIRST head ;; ret (f =? NULL).
Definition SLIST_NEXT (elm : Z) : M mem Z := load (sle_next elm).

Definition SLIST_FOREACH (head : Z) (body : Z -> M mem unit) (fuel : nat) : M mem (option unit) :=
  var <- SLIST_FIRST head ;; c_for nonnull SLIST_NEXT body fuel var.

Definition SLIST_FOREACH_SAFE (head : Z) (body : Z -> M mem unit) (fuel : nat) : M mem (option unit) :=
  var <- SLIST_FIRST head ;; c_for_safe nonnull SLIST_NEXT body fuel var.

(** The body is given the element and the address of the pointer to it. *)
Fixpoint prevptr_loop (body : Z -> Z -> M mem unit) (fuel : nat) (varp : Z) : M mem (option unit) :=
  match fuel with
  | O => ret None
  | S fuel =>
    var <- load varp ;;
    if negb (var =? NULL) then body var varp ;;; prevptr_loop body fuel (sle_next var)
    else ret (Some tt)
  end.
Definition SLIST_FOREACH_PREVPTR (head : Z) (body : Z -> Z -> M mem unit) (fuel : nat) : M mem (option unit) :=
  prevptr_loop body fuel (slh_first head).

Definition SLIST_INIT (head : Z) : M mem unit := store (slh_first head) NULL.

Definition SLIST_INSERT_AFTER (slistelm elm : Z) : M mem unit :=
  n <- SLIST_NEXT slistelm ;;
  store (sle_next elm) n ;;;
  store (sle_next slistelm) elm.

Definition SLIST_INSERT_HEAD (head elm : Z) : M mem unit :=
  f <- SLIST_FIRST head ;;
  store (sle_next elm) f ;;;
  store (slh_first head) elm.

Definition SLIST_REMOVE_AFTER (elm : Z) : M mem unit :=
  n <- SLIST_NEXT elm ;;
  nn <- SLIST_NEXT n ;;
  store (sle_next elm) nn.

Definition SLIST_REMOVE_HEAD (head : Z) : M mem unit :=
  f <- SLIST_FIRST head ;;
  n <- SLIST_NEXT f ;;
  store (slh_first head) n.

Definition SLIST_REMOVE (fuel : nat) (head elm : Z) : M mem (option unit) :=
  f <- SLIST_FIRST head ;;
  if f =? elm then SLIST_REMOVE_HEAD head ;;; ret (Some tt)
  else
    curelm <- SLIST_FIRST head ;;
    r <- find_before SLIST_NEXT elm fuel curelm ;;
    match r with
    | Some curelm => SLIST_REMOVE_AFTER curelm ;;; ret (Some tt)
    | None => ret None
    end.

(** ** Singly-linked tail queues *)

Definition stqh_first (head : Z) : Z := head.
Definition stqh_last (head : Z) : Z := head + 8.
Definition stqe_next (elm : Z) : Z := elm + field.

Definition STAILQ_FIRST (head : Z) : M mem Z := load (stqh_first head).
Definition STAILQ_EMPTY (head : Z) : M mem bool := f <- STAILQ_FIRST head ;; ret (f =? NULL).
Definition STAILQ_NEXT (elm : Z) : M mem Z := load (stqe_next elm).

Definition STAILQ_INIT (head : Z) : M mem unit :=
  store (stqh_first head) NULL ;;;
  store (stqh_last head) (stqh_first head).

Definition STAILQ_CONCAT (head1 head2 : Z) : M mem unit :=
  e <- STAILQ_EMPTY head2 ;;
  if negb e then
    last1 <- load (stqh_last head1) ;;
    first2 <- load (stqh_first head2) ;;
    store last1 first2 ;;;
    last2 <- load (stqh_last head2) ;;
    store (stqh_last head1) last2 ;;;
    STAILQ_INIT head2
  else ret tt.

Definition STAILQ_FOREACH (head : Z) (body : Z -> M mem unit) (fuel : nat) : M mem (option unit) :=
  var <- STAILQ_FIRST head ;; c_for nonnull STAILQ_NEXT body fuel var.

Definition STAILQ_FOREACH_SAFE (head : Z) (body : Z -> M mem unit) (fuel : nat) : M mem (option unit) :=
  var <- STAILQ_FIRST head ;; c_for_safe nonnull STAILQ_NEXT body fuel var.

Definition STAILQ_INSERT_AFTER (head tqelm elm : Z) : M mem unit :=
  n <- STAILQ_NEXT tqelm ;;
  store (stqe_next elm) n ;;;
  when (n =? NULL) (store (stqh_last head) (stqe_next elm)) ;;;
  store (stqe_next tqelm) elm.

Definition STAILQ_INSERT_HEAD (head elm : Z) : M mem unit :=
  f <- STAILQ_FIRST head ;;
  store (stqe_next elm) f ;;;
  when (f =? NULL) (store (stqh_last head) (stqe_next elm)) ;;;
  store (stqh_first head) elm.

Definition STAILQ_INSERT_TAIL (head elm : Z) : M mem unit :=
  store (stqe_next elm) NULL ;;;
  last <- load (stqh_last head) ;;
  store last elm ;;;
  store (stqh_last head) (stqe_next elm).

Definition STAILQ_LAST (head : Z) : M mem Z :=
  e <- STAILQ_EMPTY head ;;
  if (e : bool) then ret NULL
  else last <- load (stqh_last head) ;; ret (last - field).

Definition STAILQ_REMOVE_HEAD (head : Z) : M mem unit :=
  f <- STAILQ_FIRST head ;;
  n <- STAILQ_NEXT f ;;
  store (stqh_first head) n ;;;
  when (n =? NULL) (store (stqh_last head) (stqh_first head)).

Definition STAILQ_REMOVE_HEAD_UNTIL (head elm : Z) : M mem unit :=
  n <- STAILQ_NEXT elm ;;
  store (stqh_first head) n ;;;
  when (n =? NULL) (store (stqh_last head) (stqh_first head)).

Definition STAILQ_REMOVE_AFTER (head elm : Z) : M mem unit :=
  n <- STAILQ_NEXT elm ;;
  nn <- STAILQ_NEXT n ;;
  store (stqe_next elm) nn ;;;
  when (nn =? NULL) (store (stqh_last head) (stqe_next elm)).

Definition STAILQ_REMOVE (fuel : nat) (head elm : Z) : M mem (option unit) :=
  f <- STAILQ_FIRST head ;;
  if f =? elm then STAILQ_REMOVE_HEAD head ;;; ret (Some tt)
  else
    curelm <- STAILQ_FIRST head ;;
    r <- find_before STAILQ_NEXT elm fuel curelm ;;
    match r with
    | Some curelm => STAILQ_REMOVE_AFTER head curelm ;;; ret (Some tt)
    | None => ret None
    end.

Definition STAILQ_SWAP (head1 head2 : Z) : M mem unit :=
  swap_first <- STAILQ_FIRST head1 ;;
  swap_last <- load (stqh_last head1) ;;
  first2 <- STAILQ_FIRST head2 ;;
  store (stqh_first head1) first2 ;;;
  last2 <- load (stqh_last head2) ;;
  store (stqh_last head1) last2 ;;;
  store (stqh_first head2) swap_first ;;;
  store (stqh_last head2) swap_last ;;;
  e1 <- STAILQ_EMPTY head1 ;;
  when e1 (store (stqh_last head1) (stqh_first head1)) ;;;
  e2 <- STAILQ_EMPTY head2 ;;
  when e2 (store (stqh_last head2) (stqh_first head2)).

(** ** Lists *)

Definition lh_first (head : Z) : Z := head.
Definition le_next (elm : Z) : Z := elm + field.
Definition le_prev (elm : Z) : Z := elm + field + 8.

Definition LIST_FIRST (head : Z) : M mem Z := load (lh_first head).
Definition LIST_EMPTY (head : Z) : M mem bool := f <- LIST_FIRST head ;; ret (f =? NULL).
Definition LIST_NEXT (elm : Z) : M mem Z := load (le_next elm).

Definition LIST_FOREACH (head : Z) (body : Z -> M mem unit) (fuel : nat) : M mem (option unit) :=
  var <- LIST_FIRST head ;; c_for nonnull LIST_NEXT body fuel var.

Definition LIST_FOREACH_SAFE (head : Z) (body : Z -> M mem unit) (fuel : nat) : M mem (option unit) :=
  var <- LIST_FIRST head ;; c_for_safe nonnull LIST_NEXT body fuel var.

Definition LIST_INIT (head : Z) : M mem unit := store (lh_first head) NULL.

Definition LIST_INSERT_AFTER (listelm elm : Z) : M mem unit :=
  n <- LIST_NEXT listelm ;;
  store (le_next elm) n ;;;
  when (nonnull n) (m <- LIST_NEXT listelm ;; store (le_prev m) (le_next elm)) ;;;
  store (le_next listelm) elm ;;;
  store (le_prev elm) (le_next listelm).

Definition LIST_INSERT_BEFORE (listelm elm : Z) : M mem unit :=
  p <- load (le_prev listelm) ;;
  store (le_prev elm) p ;;;
  store (le_next elm) listelm ;;;
  p' <- load (le_prev listelm) ;;
  store p' elm ;;;
  store (le_prev listelm) (le_next elm).

Definition LIST_INSERT_HEAD (head elm : Z) : M mem unit :=
  f <- LIST_FIRST head ;;
  store (le_next elm) f ;;;
  when (nonnull f) (g <- LIST_FIRST head ;; store (le_prev g) (le_next elm)) ;;;
  store (lh_first head) elm ;;;
  store (le_prev elm) (lh_first head).

Definition LIST_REMOVE (elm : Z) : M mem unit :=
  n <- LIST_NEXT elm ;;
  when (nonnull n) (m <- LIST_NEXT elm ;; p <- load (le_prev elm) ;; store (le_prev m) p) ;;;
  p <- load (le_prev elm) ;;
  n' <- LIST_NEXT elm ;;
  store p n'.

Definition LIST_SWAP (head1 head2 : Z) : M mem unit :=
  swap_tmp <- LIST_FIRST head1 ;;
  f2 <- LIST_FIRST head2 ;;
  store (lh_first head1) f2 ;;;
  store (lh_first head2) swap_tmp ;;;
  swap_tmp <- LIST_FIRST head1 ;;
  when (nonnull swap_tmp) (store (le_prev swap_tmp) (lh_first head1)) ;;;
  swap_tmp <- LIST_FIRST head2 ;;
  when (nonnull swap_tmp) (store (le_prev swap_tmp) (lh_first head2)).

(** ** Tail queues *)

Definition tqh_first (head : Z) : Z := head.
Definition tqh_last (head : Z) : Z := head + 8.
Definition tqe_next (elm : Z) : Z := elm + field.
Definition tqe_prev (elm : Z) : Z := elm + field + 8.

Definition TAILQ_FIRST (head : Z) : M mem Z := load (tqh_first head).
Definition TAILQ_EMPTY (head : Z) : M mem bool := f <- TAILQ_FIRST head ;; ret (f =? NULL).
Definition TAILQ_NEXT (elm : Z) : M mem Z := load (tqe_next elm).

(** A [struct type **] is read as a pointer to a head, whose second word is
    the address of the cell that points to the element looked for. *)
Definition TAILQ_LAST (head : Z) : M mem Z :=
  l <- load (tqh_last head) ;;
  c <- load (tqh_last l) ;;
  load c.

Definition TAILQ_PREV (elm : Z) : M mem Z :=
  p <- load (tqe_prev elm) ;;
  c <- load (tqh_last p) ;;
  load c.

Definition TAILQ_INIT (head : Z) : M mem unit :=
  store (tqh_first head) NULL ;;;
  store (tqh_last head) (tqh_first head).

Definition TAILQ_CONCAT (head1 head2 : Z) : M mem unit :=
  e <- TAILQ_EMPTY head2 ;;
  if negb e then
    last1 <- load (tqh_last head1) ;;
    first2 <- load (tqh_first head2) ;;
    store last1 first2 ;;;
    first2' <- load (tqh_first head2) ;;
    last1' <- load (tqh_last head1) ;;
    store (tqe_prev first2') last1' ;;;
    last2 <- load (tqh_last head2) ;;
    store (tqh_last head1) last2 ;;;
    TAILQ_INIT head2
  else ret tt.

Definition TAILQ_FOREACH (head : Z) (body : Z -> M mem unit) (fuel : nat) : M mem (option unit) :=
  var <- TAILQ_FIRST head ;; c_for nonnull TAILQ_NEXT body fuel var.

Definition TAILQ_FOREACH_SAFE (head : Z) (body : Z -> M mem unit) (fuel : nat) : M mem (option unit) :=
  var <- TAILQ_FIRST head ;; c_for_safe nonnull TAILQ_NEXT body fuel var.

Definition TAILQ_FOREACH_REVERSE (head : Z) (body : Z -> M mem unit) (fuel : nat) : M mem (option unit) :=
  var <- TAILQ_LAST head ;; c_for nonnull TAILQ_PREV body fuel var.

Definition TAILQ_FOREACH_REVERSE_SAFE (head : Z) (body : Z -> M mem unit) (fuel : nat) : M mem (option unit) :=
  var <- TAILQ_LAST head ;; c_for_safe nonnull TAILQ_PREV body fuel var.

Definition TAILQ_INSERT_AFTER (head listelm elm : Z) : M mem unit :=
  n <- TAILQ_NEXT listelm ;;
  store (tqe_next elm) n ;;;
  (if nonnull n then m <- TAILQ_NEXT elm ;; store (tqe_prev m) (tqe_next elm)
   else store (tqh_last head) (tqe_next elm)) ;;;
  store (tqe_next listelm) elm ;;;
  store (tqe_prev elm) (tqe_next listelm).

Definition TAILQ_INSERT_BEFORE (listelm elm : Z) : M mem unit :=
  p <- load (tqe_prev listelm) ;;
  store (tqe_prev elm) p ;;;
  store (tqe_next elm) listelm ;;;
  p' <- load (tqe_prev listelm) ;;
  store p' elm ;;;
  store (tqe_prev listelm) (tqe_next elm).

Definition TAILQ_INSERT_HEAD (head elm : Z) : M mem unit :=
  f <- TAILQ_FIRST head ;;
  store (tqe_next elm) f ;;;
  (if nonnull f then g <- TAILQ_FIRST head ;; store (tqe_prev g) (tqe_next elm)
   else store (tqh_last head) (tqe_next elm)) ;;;
  store (tqh_first head) elm ;;;
  store (tqe_prev elm) (tqh_first head).

Definition TAILQ_INSERT_TAIL (head elm : Z) : M mem unit :=
  store (tqe_next elm) NULL ;;;
  last <- load (tqh_last head) ;;
  store (tqe_prev elm) last ;;;
  last' <- load (tqh_last head) ;;
  store last' elm ;;;
  store (tqh_last head) (tqe_next elm).

Definition TAILQ_REMOVE (head elm : Z) : M mem unit :=
  n <- TAILQ_NEXT elm ;;
  (if nonnull n then m <- TAILQ_NEXT elm ;; p <- load (tqe_prev elm) ;; store (tqe_prev m) p
   else p <- load (tqe_prev elm) ;; store (tqh_last head) p) ;;;
  p <- load (tqe_prev elm) ;;
  n' <- TAILQ_NEXT elm ;;
  store p n'.

Definition TAILQ_SWAP (head1 head2 : Z) : M mem unit :=
  swap_first <- load (tqh_first head1) ;;
  swap_last <- load (tqh_last head1) ;;
  first2 <- load (tqh_first head2) ;;
  store (tqh_first head1) first2 ;;;
  last2 <- load (tqh_last head2) ;;
  store (tqh_last head1) last2 ;;;
  store (tqh_first head2) swap_first ;;;
  store (tqh_last head2) swap_last ;;;
  swap_first <- load (tqh_first head1) ;;
  (if nonnull swap_first then store (tqe_prev swap_first) (tqh_first head1)
   else store (tqh_last head1) (tqh_first head1)) ;;;
  swap_first <- load (tqh_first head2) ;;
  (if nonnull swap_first then store (tqe_prev swap_first) (tqh_first head2)
   else store (tqh_last head2) (tqh_first head2)).

(** ** Circular queues *)

Definition cqh_first (head : Z) : Z := head.
Definition cqh_last (head : Z) : Z := head + 8.
Definition cqe_next (elm : Z) : Z := elm + field.
Definition cqe_prev (elm : Z) : Z := elm + field + 8.

Definition CIRCLEQ_FIRST (head : Z) : M mem Z := load (cqh_first head).
Definition CIRCLEQ_LAST (head : Z) : M mem Z := load (cqh_last head).
Definition CIRCLEQ_NEXT (elm : Z) : M mem Z := load (cqe_next elm).
Definition CIRCLEQ_PREV (elm : Z) : M mem Z := load (cqe_prev elm).
Definition CIRCLEQ_EMPTY (head : Z) : M mem bool := f <- load (cqh_first head) ;; ret (f =? head).

Definition CIRCLEQ_FOREACH (head : Z) (body : Z -> M mem unit) (fuel : nat) : M mem (option unit) :=
  var <- load (cqh_first head) ;; c_for (fun var => negb (var =? head)) (fun var => load (cqe_next var)) body fuel var.

Definition CIRCLEQ_INIT (head : Z) : M mem unit :=
  store (cqh_first head) head ;;;
  store (cqh_last head) head.

Definition CIRCLEQ_INSERT_AFTER (head listelm elm : Z) : M mem unit :=
  n <- load (cqe_next listelm) ;;
  store (cqe_next elm) n ;;;
  store (cqe_prev elm) listelm ;;;
  n' <- load (cqe_next listelm) ;;
  (if n' =? head then store (cqh_last head) elm
   else m <- load (cqe_next listelm) ;; store (cqe_prev m) elm) ;;;
  store (cqe_next listelm) elm.

Definition CIRCLEQ_INSERT_BEFORE (head listelm elm : Z) : M mem unit :=
  store (cqe_next elm) listelm ;;;
  p <- load (cqe_prev listelm) ;;
  store (cqe_prev elm) p ;;;
  p' <- load (cqe_prev listelm) ;;
  (if p' =? head then store (cqh_first head) elm
   else m <- load (cqe_prev listelm) ;; store (cqe_next m) elm) ;;;
  store (cqe_prev listelm) elm.

Definition CIRCLEQ_INSERT_HEAD (head elm : Z) : M mem unit :=
  f <- load (cqh_first head) ;;
  store (cqe_next elm) f ;;;
  store (cqe_prev elm) head ;;;
  l <- load (cqh_last head) ;;
  (if l =? head then store (cqh_last head) elm
   else g <- load (cqh_first head) ;; store (cqe_prev g) elm) ;;;
  store (cqh_first head) elm.

Definition CIRCLEQ_INSERT_TAIL (head elm : Z) : M mem unit :=
  store (cqe_next elm) head ;;;
  l <- load (cqh_last head) ;;
  store (cqe_prev elm) l ;;;
  f <- load (cqh_first head) ;;
  (if f =? head then store (cqh_first head) elm
   else g <- load (cqh_last head) ;; store (cqe_next g) elm) ;;;
  store (cqh_last head) elm.

Definition CIRCLEQ_REMOVE (head elm : Z) : M mem unit :=
  n <- load (cqe_next elm) ;;
  (if n =? head then p <- load (cqe_prev elm) ;; store (cqh_last head) p
   else m <- load (cqe_next elm) ;; p <- load (cqe_prev elm) ;; store (cqe_prev m) p) ;;;
  p <- load (cqe_prev elm) ;;
  if p =? head then n <- load (cqe_next elm) ;; store (cqh_first head) n
  else m <- load (cqe_prev elm) ;; n <- load (cqe_next elm) ;; store (cqe_next m) n.

End Macros.

End SysQueue.
