(* ===== verification/SysQueueSpec.v ===== *)
(** * SysQueueSpec: the memory of the lists of [sys/queue.h]

    All five families of [SysQueue] are rings in the sense of [Ring] and
    [Lists]: they differ in which nodes have a backward link, in what a link
    to the head stores (the null pointer, or the head for [CIRCLEQ]) and in
    whether a backward link is the address of a node or of a cell.  Module
    [SysQueueSpec] takes the family as a parameter, says what the links are, and
    what links an operation on the lists has to leave behind; [SysQueueRefine]
    runs the macros. *)

From Stdlib Require Import ZArith Lia Bool.
From stdpp Require Import base list option gmap.
From S2P Require Import Prelude Ring Lists SysQueue.
Import SysQueue.
Open Scope Z_scope.

Module SysQueueSpec.

Inductive family : Type := SLIST | STAILQ | LIST | TAILQ | CIRCLEQ.

(** Which nodes of a family have a backward link. *)
Definition back (K : family) (head : bool) : bool :=
  match K with
  | SLIST => false
  | STAILQ => head
  | LIST => negb head
  | TAILQ | CIRCLEQ => true
  end.

Section Family.
Context (K : family) (field : Z) (U heads : gset Z).

Definition is_head (x : Z) : bool := bool_decide (x ∈ heads).
(** Where the links of a node are, and their size. *)
Definition ent (x : Z) : Z := if is_head x then x else x + field.
Definition size_of (x : Z) : Z := if back K (is_head x) then 16 else 8.

Definition sys_shape : shape := mkShape ent
  (fun x => if back K (is_head x) then Some (ent x + 8) else None)
  (fun y => match K with CIRCLEQ => y | _ => if is_head y then NULL else y end)
  (fun x => match K with CIRCLEQ => x | _ => ent x end).

(** The links of different nodes do not overlap, and no node is at the null
    pointer. *)
Definition layout : Prop := NULL ∉ U /\
  forall x y, x ∈ U -> y ∈ U -> x <> y -> ent x + size_of x <= ent y \/ ent y + size_of y <= ent x.

(** Heads are heads and members are elements. *)
Definition roles (A : queues) : Prop :=
  forall q l, A !! q = Some l -> q ∈ heads /\ forall x, x ∈ l -> x ∉ heads.

(** An element that can be linked in. *)
Definition free_element (A : queues) (e : Z) : Prop := e ∈ U /\ ~ used A e /\ e ∉ heads.

Hypothesis Hlay : layout.

Lemma size_bounds x : 8 <= size_of x <= 16.
Proof. unfold size_of. destruct (back _ _); lia. Qed.

Lemma sys_cells : disjoint_cells sys_shape (fun x => x ∈ U).
Proof.
  intros x y Hx Hy. destruct Hlay as [_ Hap]. specialize (Hap x y Hx Hy). simpl.
  pose proof (size_bounds x). pose proof (size_bounds y). unfold size_of in *. split; [|split].
  - intros E. destruct (decide (x = y)) as [|n]; [done|]. specialize (Hap n). lia.
  - intros c E1 E2. destruct (decide (x = y)) as [|n]; [done|]. specialize (Hap n).
    destruct (back K (is_head x)); [|done]. destruct (back K (is_head y)); [|done]. simplify_eq. lia.
  - intros E. destruct (back K (is_head y)); [|done]. injection E as E.
    destruct (decide (x = y)) as [->|n]; [lia|]. specialize (Hap n). lia.
Qed.

(** The cells of two nodes, which may be the same, or are different. *)
Lemma cells_maybe x y : x ∈ U -> y ∈ U ->
  (back K (is_head y) = true -> ent x <> ent y + 8) /\ (back K (is_head x) = true -> ent y <> ent x + 8).
Proof.
  intros Hx Hy. split; intros Hb E.
  - apply (nx_pv sys_shape _ sys_cells x y (ent y + 8) Hx Hy); [simpl; by rewrite Hb|exact E].
  - apply (nx_pv sys_shape _ sys_cells y x (ent x + 8) Hy Hx); [simpl; by rewrite Hb|exact E].
Qed.

Lemma cells_apart x y : x ∈ U -> y ∈ U -> x <> y ->
  ent x <> ent y /\ (back K (is_head x) = true -> back K (is_head y) = true -> ent x + 8 <> ent y + 8) /\
  (back K (is_head y) = true -> ent x <> ent y + 8) /\ (back K (is_head x) = true -> ent y <> ent x + 8).
Proof.
  intros Hx Hy Hne. split; [|split; [|by apply cells_maybe]].
  - intros E. by apply (nx_inj sys_shape _ sys_cells x y Hx Hy) in E.
  - intros Hbx Hby E. apply Hne, (pv_inj sys_shape _ sys_cells x y (ent x + 8) Hx Hy); simpl; [by rewrite Hbx|by rewrite Hby, E].
Qed.

Lemma not_null x : x ∈ U -> x <> NULL.
Proof. intros Hx ->. by apply Hlay. Qed.

(** What is known of a node of each role. *)
Lemma elt_facts x : x ∈ U -> x ∉ heads ->
  ent x = x + field /\ fw sys_shape x = x /\ is_head x = false /\ (x =? NULL) = false.
Proof.
  intros HU Hx. assert (is_head x = false) as Hh by by apply bool_decide_eq_false.
  unfold ent. simpl. rewrite Hh. split; [done|]. split; [by destruct K|]. split; [done|].
  by apply Z.eqb_neq, not_null.
Qed.

Lemma head_facts q : q ∈ heads -> ent q = q /\ is_head q = true.
Proof. intros Hq. assert (is_head q = true) as Hh by by apply bool_decide_eq_true. unfold ent. by rewrite Hh. Qed.

(** The cells of a node are mapped. *)
Lemma cells_mapped h A x : repr sys_shape U h A -> x ∈ U ->
  is_Some (h !! ent x) /\ (back K (is_head x) = true -> is_Some (h !! (ent x + 8))).
Proof.
  intros HR Hx. split; [|intros Hb]; apply (repr_cells _ _ _ _ HR); exists x;
    (split; [by apply elem_of_elements|]); simpl; [by left|rewrite Hb; by right].
Qed.

Lemma links h A q l1 l2 : repr sys_shape U h A -> A !! q = Some (l1 ++ l2) ->
  h !! ent (predecessor q l1) = Some (fw sys_shape (successor q l2)) /\
  (back K (is_head (successor q l2)) = true ->
    h !! (ent (successor q l2) + 8) = Some (bk sys_shape (predecessor q l1))).
Proof.
  intros HR Hq. destruct (repr_linked sys_shape U h A q l1 l2 HR Hq) as ([H1 H2] & _). split; [exact H1|].
  intros Hb. apply H2. simpl. by rewrite Hb.
Qed.

(** All that is known of an element and of a head. *)
Lemma elt_node h A x : repr sys_shape U h A -> x ∈ U -> x ∉ heads ->
  (ent x = x + field /\ fw sys_shape x = x /\ is_head x = false /\ (x =? NULL) = false) /\
  is_Some (h !! (x + field)) /\ (back K false = true -> is_Some (h !! (x + field + 8))).
Proof.
  intros HR HU Hx. destruct (elt_facts x HU Hx) as (He & Hf & Hh & Hn). destruct (cells_mapped h A x HR HU) as [H1 H2].
  rewrite Hh, He in *. auto 10.
Qed.

Lemma head_node h A q : repr sys_shape U h A -> q ∈ U -> q ∈ heads ->
  (ent q = q /\ fw sys_shape q = match K with CIRCLEQ => q | _ => NULL end /\ is_head q = true) /\
  is_Some (h !! q) /\ (back K true = true -> is_Some (h !! (q + 8))).
Proof.
  intros HR HU Hx. destruct (head_facts q Hx) as (He & Hh). destruct (cells_mapped h A q HR HU) as [H1 H2].
  simpl. rewrite Hh, He in *. split; [|auto]. split; [done|]. split; [by destruct K|done].
Qed.

(** A link, by its cells; and a cell that is none of the changed ones. *)
Lemma linked_to h a b : h !! ent a = Some (fw sys_shape b) ->
  (back K (is_head b) = true -> h !! (ent b + 8) = Some (bk sys_shape a)) -> linked sys_shape h a b.
Proof.
  intros H1 H2. split; [exact H1|]. simpl pv. destruct (back K (is_head b)); [|done]. intros c [= <-]. by apply H2.
Qed.

Lemma not_back k x (bs : list Z) : (forall y, y ∈ bs -> pv sys_shape y <> Some k) -> x ∈ bs ->
  back K (is_head x) = true -> k <> ent x + 8.
Proof. intros Hb Hx Eb ->. apply (Hb x Hx). simpl. by rewrite Eb. Qed.

Lemma not_back_head k q (bs : list Z) : (forall y, y ∈ bs -> pv sys_shape y <> Some k) -> q ∈ bs -> q ∈ heads ->
  back K true = true -> k <> q + 8.
Proof.
  intros Hb Hq Hh. destruct (head_facts q Hh) as [He Hi]. pose proof (not_back k q bs Hb Hq) as H. by rewrite He, Hi in H.
Qed.

Lemma not_back_elt k x (bs : list Z) : (forall y, y ∈ bs -> pv sys_shape y <> Some k) -> x ∈ bs -> is_head x = false ->
  back K false = true -> k <> ent x + 8.
Proof. intros Hb Hx Hi. pose proof (not_back k x bs Hb Hx) as H. by rewrite Hi in H. Qed.

(** *** Insertions *)

Definition insertion (h : mem) (A : queues) (q : Z) (l1 l2 : list Z) (e : Z) : Prop :=
  repr sys_shape U h A /\ roles A /\ A !! q = Some (l1 ++ l2) /\ free_element A e.

(** The state [h'] with the lists [A']. *)
Definition becomes (h : mem) (A' : queues) (h' : mem) : Prop :=
  repr sys_shape U h' A' /\ outside sys_shape U h h'.

(** The nodes around a place: the head, its neighbours and [e]. *)
Lemma insertion_nodes h A q l1 l2 e : insertion h A q l1 l2 e ->
  (q ∈ U /\ q ∈ heads) /\ (e ∈ U /\ e ∉ heads) /\
  (predecessor q l1 ∈ U /\ successor q l2 ∈ U) /\
  (forall x, x ∈ l1 ++ l2 -> x ∈ U /\ x ∉ heads) /\
  (q <> e /\ predecessor q l1 <> e /\ successor q l2 <> e) /\
  (l1 ++ l2 <> [] -> predecessor q l1 <> successor q l2).
Proof.
  intros (HR & Hr & Hq & HeU & Hu & Heh). destruct (Hr q _ Hq) as [Hqh Hm].
  destruct (repr_linked _ _ _ _ _ _ _ HR Hq) as (_ & Hp & Hs).
  pose proof (predecessor_elem q l1). pose proof (successor_elem q l2).
  split; [split; [apply (repr_U _ _ _ _ _ _ _ HR Hq); set_solver|done]|]. split; [done|]. split; [done|]. split.
  - intros x Hx. split; [apply (repr_U _ _ _ _ _ _ _ HR Hq); set_solver|auto].
  - split; [|by apply neighbours, (repr_NoDup _ _ _ _ _ _ HR Hq)]. split_and!; apply (used_ne A q (l1 ++ l2)); try done; set_solver.
Qed.

(** The links an insertion has to leave. *)
Lemma insertion_done h h' A q l1 l2 e : insertion h A q l1 l2 e ->
  let p := predecessor q l1 in let s := successor q l2 in
  h' !! ent p = Some e -> (back K false = true -> h' !! (ent e + 8) = Some (bk sys_shape p)) ->
  h' !! ent e = Some (fw sys_shape s) ->
  (back K (is_head s) = true -> h' !! (ent s + 8) = Some (bk sys_shape e)) ->
  (forall k, k <> ent p -> k <> ent e -> (back K false = true -> k <> ent e + 8) ->
    (back K (is_head s) = true -> k <> ent s + 8) -> h' !! k = h !! k) ->
  same_cells h h' -> becomes h (<[q := l1 ++ e :: l2]> A) h'.
Proof.
  intros Hins p s H1 H2 H3 H4 H5 H6. destruct (insertion_nodes _ _ _ _ _ _ Hins) as (_ & [HeU He] & _).
  destruct (elt_facts e HeU He) as (_ & Hfe & Hhe & _). destruct Hins as (HR & Hr & Hq & _ & Hu & _).
  apply (insert_lists sys_shape U sys_cells h); [done|done|done|done| | | |done].
  - apply linked_to; [by rewrite Hfe|by rewrite Hhe].
  - by apply linked_to.
  - intros k Hf Hb. apply H5.
    + apply (Hf p). set_solver.
    + apply (Hf e). set_solver.
    + apply (not_back_elt k e _ Hb); [set_solver|done].
    + apply (not_back k s _ Hb). set_solver.
Qed.

(** *** Deletions *)

Definition deletion (h : mem) (A : queues) (q : Z) (l1 : list Z) (e : Z) (l2 : list Z) : Prop :=
  repr sys_shape U h A /\ roles A /\ A !! q = Some (l1 ++ e :: l2).

Lemma deletion_nodes h A q l1 e l2 : deletion h A q l1 e l2 ->
  (q ∈ U /\ q ∈ heads) /\ (e ∈ U /\ e ∉ heads) /\
  (predecessor q l1 ∈ U /\ successor q l2 ∈ U) /\
  (forall x, x ∈ l1 ++ l2 -> x ∈ U /\ x ∉ heads /\ x <> e) /\
  (predecessor q l1 <> e /\ successor q l2 <> e) /\
  (l1 ++ l2 <> [] -> predecessor q l1 <> successor q l2).
Proof.
  intros (HR & Hr & Hq). destruct (Hr q _ Hq) as [Hqh Hm].
  pose proof (predecessor_elem q l1) as Hp. pose proof (successor_elem q l2) as Hs.
  assert (HU : forall x, x ∈ q :: l1 ++ e :: l2 -> x ∈ U) by (intros x; by apply (repr_U sys_shape U h A)).
  pose proof (repr_NoDup _ _ _ _ _ _ HR Hq) as Hnd. rewrite NoDup_cons, NoDup_app, NoDup_cons in Hnd.
  destruct Hnd as (Hq1 & Hl1 & Hd & He2 & Hl2).
  assert (Hne : forall x, x ∈ q :: l1 ++ l2 -> x <> e).
  { intros x Hx ->. rewrite elem_of_cons, elem_of_app in Hx. destruct Hx as [->|[Hx|Hx]]; [set_solver| |done].
    apply (Hd e Hx). set_solver. }
  split; [split; [apply HU; set_solver|done]|]. split; [split; [apply HU|apply Hm]; set_solver|].
  split; [split; apply HU; set_solver|]. split; [|split; [split; apply Hne; set_solver|]].
  - intros x Hx. split; [apply HU; set_solver|]. split; [apply Hm; set_solver|]. apply Hne. set_solver.
  - apply neighbours. rewrite NoDup_cons, NoDup_app. split; [set_solver|]. split; [done|]. split; [set_solver|done].
Qed.

Lemma deletion_done h h' A q l1 e l2 : deletion h A q l1 e l2 ->
  let p := predecessor q l1 in let s := successor q l2 in
  h' !! ent p = Some (fw sys_shape s) ->
  (back K (is_head s) = true -> h' !! (ent s + 8) = Some (bk sys_shape p)) ->
  (forall k, k <> ent p -> (back K (is_head s) = true -> k <> ent s + 8) -> h' !! k = h !! k) ->
  same_cells h h' -> becomes h (<[q := l1 ++ l2]> A) h'.
Proof.
  intros (HR & Hr & Hq) p s H1 H2 H3 H4. apply (delete_lists sys_shape U sys_cells h _ _ _ _ e); [done|done| | |done].
  - by apply linked_to.
  - intros k Hf Hb. apply H3; [apply (Hf p); set_solver|]. apply (not_back k s _ Hb). set_solver.
Qed.

(** *** Whole lists *)

Lemma init_done h h' A q : repr sys_shape U h A -> reusable U A q -> q ∈ heads ->
  h' !! q = Some (fw sys_shape q) -> (back K true = true -> h' !! (q + 8) = Some (bk sys_shape q)) ->
  (forall k, k <> q -> (back K true = true -> k <> q + 8) -> h' !! k = h !! k) ->
  same_cells h h' -> becomes h (<[q := []]> A) h'.
Proof.
  intros HR Hre Hqh H1 H2 H3 H4. destruct (head_facts q Hqh) as [He Hh].
  apply (init_lists sys_shape U sys_cells h); [done|done| | |done].
  - apply linked_to; [by rewrite He|by rewrite Hh, He].
  - intros k Hf Hb. apply H3.
    + rewrite <- He. apply (Hf q). set_solver.
    + apply (not_back_head k q _ Hb); [set_solver|done].
Qed.

(** All members up to one are dropped. *)
Lemma drop_done h h' A q l1 l2 : repr sys_shape U h A -> roles A -> A !! q = Some (l1 ++ l2) ->
  let s := successor q l2 in let z := predecessor q l2 in
  h' !! q = Some (fw sys_shape s) -> (back K (is_head s) = true -> h' !! (ent s + 8) = Some (bk sys_shape q)) ->
  h' !! ent z = Some (fw sys_shape q) -> (back K true = true -> h' !! (q + 8) = Some (bk sys_shape z)) ->
  (forall k, k <> q -> (back K true = true -> k <> q + 8) -> (back K (is_head s) = true -> k <> ent s + 8) -> h' !! k = h !! k) ->
  same_cells h h' -> becomes h (<[q := l2]> A) h'.
Proof.
  intros HR Hr Hq s z H1 H2 H3 H4 H5 H6. destruct (Hr q _ Hq) as [Hqh _]. destruct (head_facts q Hqh) as [He Hh].
  apply (drop_lists sys_shape U sys_cells h _ _ _ l1); [done|done| | | |done].
  - apply linked_to; [by rewrite He|done].
  - apply linked_to; [done|by rewrite Hh, He].
  - intros k Hf Hb. apply H5.
    + rewrite <- He. apply (Hf q). set_solver.
    + apply (not_back_head k q _ Hb); [set_solver|done].
    + apply (not_back k s _ Hb). set_solver.
Qed.

Lemma concat_done h h' A q1 l1 q2 x l2 : repr sys_shape U h A -> roles A ->
  A !! q1 = Some l1 -> A !! q2 = Some (x :: l2) -> q1 <> q2 ->
  let p := predecessor q1 l1 in let z := predecessor q2 (x :: l2) in
  h' !! ent p = Some x -> (back K false = true -> h' !! (ent x + 8) = Some (bk sys_shape p)) ->
  h' !! ent z = Some (fw sys_shape q1) -> (back K true = true -> h' !! (q1 + 8) = Some (bk sys_shape z)) ->
  h' !! q2 = Some (fw sys_shape q2) -> (back K true = true -> h' !! (q2 + 8) = Some (bk sys_shape q2)) ->
  (forall k, k <> ent p -> (back K false = true -> k <> ent x + 8) -> (back K true = true -> k <> q1 + 8) ->
    k <> q2 -> (back K true = true -> k <> q2 + 8) -> h' !! k = h !! k) ->
  same_cells h h' -> becomes h (<[q2 := []]> (<[q1 := l1 ++ x :: l2]> A)) h'.
Proof.
  intros HR Hr Hq1 Hq2 Hne p z H1 H2 H3 H4 H5 H6 H7 H8.
  destruct (Hr q1 _ Hq1) as [Hh1 _]. destruct (head_facts q1 Hh1) as [He1 Hi1].
  destruct (Hr q2 _ Hq2) as [Hh2 Hm2]. destruct (head_facts q2 Hh2) as [He2 Hi2].
  assert (Hx : x ∈ x :: l2) by set_solver.
  assert (HxU : x ∈ U) by (apply (repr_U sys_shape U h A q2 (x :: l2) x HR Hq2), elem_of_cons; auto).
  destruct (elt_facts x HxU (Hm2 x Hx)) as (Hex & Hfx & Hix & _).
  apply (concat_lists sys_shape U sys_cells h); [done|done|done|done| | | | |done].
  - apply linked_to; [by rewrite Hfx|by rewrite Hix].
  - apply linked_to; [done|by rewrite Hi1, He1].
  - apply linked_to; [by rewrite He2|by rewrite Hi2, He2].
  - intros k Hf Hb. apply H7.
    + apply (Hf p). set_solver.
    + apply (not_back_elt k x _ Hb); [set_solver|done].
    + apply (not_back_head k q1 _ Hb); [set_solver|done].
    + rewrite <- He2. apply (Hf q2). set_solver.
    + apply (not_back_head k q2 _ Hb); [set_solver|done].
Qed.

Lemma swap_done h h' A q1 l1 q2 l2 : repr sys_shape U h A -> roles A ->
  A !! q1 = Some l1 -> A !! q2 = Some l2 -> q1 <> q2 ->
  let s1 := successor q1 l2 in let z1 := predecessor q1 l2 in
  let s2 := successor q2 l1 in let z2 := predecessor q2 l1 in
  h' !! q1 = Some (fw sys_shape s1) -> (back K (is_head s1) = true -> h' !! (ent s1 + 8) = Some (bk sys_shape q1)) ->
  h' !! ent z1 = Some (fw sys_shape q1) -> (back K true = true -> h' !! (q1 + 8) = Some (bk sys_shape z1)) ->
  h' !! q2 = Some (fw sys_shape s2) -> (back K (is_head s2) = true -> h' !! (ent s2 + 8) = Some (bk sys_shape q2)) ->
  h' !! ent z2 = Some (fw sys_shape q2) -> (back K true = true -> h' !! (q2 + 8) = Some (bk sys_shape z2)) ->
  (forall k, k <> q1 -> k <> q2 -> (back K true = true -> k <> q1 + 8) -> (back K true = true -> k <> q2 + 8) ->
    (back K (is_head (successor q1 l1)) = true -> k <> ent (successor q1 l1) + 8) ->
    (back K (is_head (successor q2 l2)) = true -> k <> ent (successor q2 l2) + 8) -> h' !! k = h !! k) ->
  same_cells h h' -> becomes h (<[q2 := l1]> (<[q1 := l2]> A)) h'.
Proof.
  intros HR Hr Hq1 Hq2 Hne s1 z1 s2 z2 H1 H2 H3 H4 H5 H6 H7 H8 H9 H10.
  destruct (Hr q1 _ Hq1) as [Hh1 _]. destruct (head_facts q1 Hh1) as [He1 Hi1].
  destruct (Hr q2 _ Hq2) as [Hh2 _]. destruct (head_facts q2 Hh2) as [He2 Hi2].
  apply (swap_lists sys_shape U sys_cells h); [done|done|done|done| | | | | |done].
  - apply linked_to; [by rewrite He1|done].
  - apply linked_to; [done|by rewrite Hi1, He1].
  - apply linked_to; [by rewrite He2|done].
  - apply linked_to; [done|by rewrite Hi2, He2].
  - intros k Hf Hb. apply H9.
    + rewrite <- He1. apply (Hf q1). set_solver.
    + rewrite <- He2. apply (Hf q2). set_solver.
    + apply (not_back_head k q1 _ Hb); [set_solver|done].
    + apply (not_back_head k q2 _ Hb); [set_solver|done].
    + apply (not_back k (successor q1 l1) _ Hb). set_solver.
    + apply (not_back k (successor q2 l2) _ Hb). set_solver.
Qed.

End Family.

Ltac other := first [assumption | apply not_eq_sym; assumption | clear; lia].
Ltac lk := repeat first [rewrite lookup_insert_eq | rewrite lookup_insert_ne by other].
Ltac mapped := repeat apply is_Some_insert; assumption.
(** One access, or one known condition. *)
Ltac step := first
  [ match goal with |- wp (bind _ _) _ _ => apply wp_bind; step end
  | match goal with |- wp (load _) _ _ => eapply wp_load; [lk; first [eassumption|reflexivity]|] end
  | match goal with |- wp (store _ _) _ _ => apply wp_store; [mapped|] end
  | match goal with |- wp (ret _) _ _ => apply wp_ret end ].

Ltac of_true := repeat match goal with
  | H : true = true -> _ |- _ => specialize (H eq_refl)
  | H : false = true -> _ |- _ => clear H
  end.

(** Brings the facts about nodes down to addresses. *)
Ltac norm := repeat match goal with
  | E : ent _ _ ?x = _, H : context [ent _ _ ?x] |- _ => assert_fails (constr_eq H E); rewrite E in H
  | E : fw _ ?x = _, H : context [fw _ ?x] |- _ => assert_fails (constr_eq H E); rewrite E in H
  | E : is_head _ ?x = _, H : context [is_head _ ?x] |- _ => assert_fails (constr_eq H E); rewrite E in H
  end; cbn [bk sys_shape] in *; cbn [back negb] in *; of_true;
  repeat match goal with
  | E : ent _ _ ?x = _, H : context [ent _ _ ?x] |- _ => assert_fails (constr_eq H E); rewrite E in H
  end.

Ltac cond := cbv beta; unfold nonnull, when; repeat match goal with
  | E : (?a =? ?b) = _ |- context [?a =? ?b] => rewrite E
  | |- context [?a =? ?a] => rewrite Z.eqb_refl
  | N : ?a <> ?b |- context [?a =? ?b] => rewrite (proj2 (Z.eqb_neq a b) N)
  | N : ?b <> ?a |- context [?a =? ?b] => rewrite (proj2 (Z.eqb_neq a b) (not_eq_sym N))
  end; cbn [negb].
(** Runs a macro. *)
Ltac run := repeat (cond; step); cbv beta.
(** Closes a goal about the links in the final memory. *)
Ltac finish HI := apply HI;
  [intros; lk; done .. | intros ?k; intros; of_true; rewrite !lookup_insert_ne by other; done | intros ?k ?Hk; mapped].

End SysQueueSpec.
