(* ===== verification/SysQueueRefine.v ===== *)
(** * SysQueueRefine: the macros of [sys/queue.h] are the list operations

    Module [SysQueueRefine] runs the macros of [SysQueue] on the memory of
    [SysQueueSpec].  One specification serves the five families; [offers] is
    the table at the head of [src/MacKernelSDK/Headers/sys/queue.h] that says
    which family has which macro. *)

From Stdlib Require Import ZArith Lia Bool.
From stdpp Require Import base list option gmap.
From S2P Require Import Prelude Ring Lists SysQueue SysQueueSpec.
Import SysQueue SysQueueSpec.
Open Scope Z_scope.

Module SysQueueRefine.

(** ** Programs *)

Inductive op : Type :=
| Init (q : Z)
| Insert_head (q e : Z)
| Insert_tail (q e : Z)
| Insert_after (q x e : Z)
| Insert_before (q x e : Z)
| Remove_head (q : Z)
| Remove_after (q x : Z)
| Remove_head_until (q x : Z)
| Remove (q e : Z)
| Concat (q1 q2 : Z)
| Swap (q1 q2 : Z)
| First (q : Z)
| Last (q : Z)
| Next (x : Z)
| Prev (x : Z)
| Empty (q : Z).

(** The table of the header. *)
Definition offers (K : family) (o : op) : bool :=
  match o with
  | Init _ | Insert_head _ _ | Insert_after _ _ _ | Remove _ _ | First _ | Next _ | Empty _ => true
  | Insert_tail _ _ => match K with STAILQ | TAILQ | CIRCLEQ => true | _ => false end
  | Insert_before _ _ _ => match K with LIST | TAILQ | CIRCLEQ => true | _ => false end
  | Remove_head _ | Remove_after _ _ => match K with SLIST | STAILQ => true | _ => false end
  | Remove_head_until _ _ => match K with STAILQ => true | _ => false end
  | Concat _ _ => match K with STAILQ | TAILQ => true | _ => false end
  | Swap _ _ => match K with LIST | STAILQ | TAILQ => true | _ => false end
  | Last _ => match K with STAILQ | TAILQ | CIRCLEQ => true | _ => false end
  | Prev _ => match K with TAILQ | CIRCLEQ => true | _ => false end
  end.

Definition noval (m : M mem unit) : M mem Z := m ;;; ret NULL.
Definition flagged (m : M mem bool) : M mem Z := b <- m ;; ret (if (b : bool) then 1 else 0).
(** A loop that does not end has no result. *)
Definition ended (m : M mem (option unit)) : M mem Z :=
  r <- m ;; match r with Some _ => ret NULL | None => fault end.

Section Exec.
Context (K : family) (field : Z) (fuel : nat).

Definition exec (o : op) : M mem Z :=
  match o, K with
  | Init q, SLIST => noval (SLIST_INIT q)
  | Init q, STAILQ => noval (STAILQ_INIT q)
  | Init q, LIST => noval (LIST_INIT q)
  | Init q, TAILQ => noval (TAILQ_INIT q)
  | Init q, CIRCLEQ => noval (CIRCLEQ_INIT q)
  | Insert_head q e, SLIST => noval (SLIST_INSERT_HEAD field q e)
  | Insert_head q e, STAILQ => noval (STAILQ_INSERT_HEAD field q e)
  | Insert_head q e, LIST => noval (LIST_INSERT_HEAD field q e)
  | Insert_head q e, TAILQ => noval (TAILQ_INSERT_HEAD field q e)
  | Insert_head q e, CIRCLEQ => noval (CIRCLEQ_INSERT_HEAD field q e)
  | Insert_tail q e, STAILQ => noval (STAILQ_INSERT_TAIL field q e)
  | Insert_tail q e, TAILQ => noval (TAILQ_INSERT_TAIL field q e)
  | Insert_tail q e, CIRCLEQ => noval (CIRCLEQ_INSERT_TAIL field q e)
  | Insert_after q x e, SLIST => noval (SLIST_INSERT_AFTER field x e)
  | Insert_after q x e, STAILQ => noval (STAILQ_INSERT_AFTER field q x e)
  | Insert_after q x e, LIST => noval (LIST_INSERT_AFTER field x e)
  | Insert_after q x e, TAILQ => noval (TAILQ_INSERT_AFTER field q x e)
  | Insert_after q x e, CIRCLEQ => noval (CIRCLEQ_INSERT_AFTER field q x e)
  | Insert_before q x e, LIST => noval (LIST_INSERT_BEFORE field x e)
  | Insert_before q x e, TAILQ => noval (TAILQ_INSERT_BEFORE field x e)
  | Insert_before q x e, CIRCLEQ => noval (CIRCLEQ_INSERT_BEFORE field q x e)
  | Remove_head q, SLIST => noval (SLIST_REMOVE_HEAD field q)
  | Remove_head q, STAILQ => noval (STAILQ_REMOVE_HEAD field q)
  | Remove_after q x, SLIST => noval (SLIST_REMOVE_AFTER field x)
  | Remove_after q x, STAILQ => noval (STAILQ_REMOVE_AFTER field q x)
  | Remove_head_until q x, STAILQ => noval (STAILQ_REMOVE_HEAD_UNTIL field q x)
  | Remove q e, SLIST => ended (SLIST_REMOVE field fuel q e)
  | Remove q e, STAILQ => ended (STAILQ_REMOVE field fuel q e)
  | Remove q e, LIST => noval (LIST_REMOVE field e)
  | Remove q e, TAILQ => noval (TAILQ_REMOVE field q e)
  | Remove q e, CIRCLEQ => noval (CIRCLEQ_REMOVE field q e)
  | Concat q1 q2, STAILQ => noval (STAILQ_CONCAT q1 q2)
  | Concat q1 q2, TAILQ => noval (TAILQ_CONCAT field q1 q2)
  | Swap q1 q2, LIST => noval (LIST_SWAP field q1 q2)
  | Swap q1 q2, STAILQ => noval (STAILQ_SWAP q1 q2)
  | Swap q1 q2, TAILQ => noval (TAILQ_SWAP field q1 q2)
  | First q, SLIST => SLIST_FIRST q
  | First q, STAILQ => STAILQ_FIRST q
  | First q, LIST => LIST_FIRST q
  | First q, TAILQ => TAILQ_FIRST q
  | First q, CIRCLEQ => CIRCLEQ_FIRST q
  | Last q, STAILQ => STAILQ_LAST field q
  | Last q, TAILQ => TAILQ_LAST q
  | Last q, CIRCLEQ => CIRCLEQ_LAST q
  | Next x, SLIST => SLIST_NEXT field x
  | Next x, STAILQ => STAILQ_NEXT field x
  | Next x, LIST => LIST_NEXT field x
  | Next x, TAILQ => TAILQ_NEXT field x
  | Next x, CIRCLEQ => CIRCLEQ_NEXT field x
  | Prev x, TAILQ => TAILQ_PREV field x
  | Prev x, CIRCLEQ => CIRCLEQ_PREV field x
  | Empty q, SLIST => flagged (SLIST_EMPTY q)
  | Empty q, STAILQ => flagged (STAILQ_EMPTY q)
  | Empty q, LIST => flagged (LIST_EMPTY q)
  | Empty q, TAILQ => flagged (TAILQ_EMPTY q)
  | Empty q, CIRCLEQ => flagged (CIRCLEQ_EMPTY q)
  | _, _ => fault
  end.

Fixpoint exec_all (os : list op) : M mem (list Z) :=
  match os with
  | [] => ret []
  | o :: os => r <- exec o ;; rs <- exec_all os ;; ret (r :: rs)
  end.

(** The loops of a family. *)
Definition foreach (q : Z) (body : Z -> M mem unit) : M mem (option unit) :=
  match K with
  | SLIST => SLIST_FOREACH field q body fuel
  | STAILQ => STAILQ_FOREACH field q body fuel
  | LIST => LIST_FOREACH field q body fuel
  | TAILQ => TAILQ_FOREACH field q body fuel
  | CIRCLEQ => CIRCLEQ_FOREACH field q body fuel
  end.

Definition foreach_safe (q : Z) (body : Z -> M mem unit) : M mem (option unit) :=
  match K with
  | SLIST => SLIST_FOREACH_SAFE field q body fuel
  | STAILQ => STAILQ_FOREACH_SAFE field q body fuel
  | LIST => LIST_FOREACH_SAFE field q body fuel
  | TAILQ => TAILQ_FOREACH_SAFE field q body fuel
  | CIRCLEQ => fault
  end.

(** Removal as the body of a loop. *)
Definition remove_from (q e : Z) : M mem unit := exec (Remove q e) ;;; ret tt.

End Exec.

(** What the end of a list looks like: the null pointer, or the head. *)
Definition end_of (K : family) (q : Z) : Z := match K with CIRCLEQ => q | _ => NULL end.

(** A [for] loop whose variable runs through [l] and then has the value [fin]. *)
Lemma c_for_run (cond : Z -> bool) next body fin l (I : list Z -> mem -> Prop) :
  cond fin = false -> (forall x, x ∈ l -> cond x = true) ->
  (forall done e todo h, l = done ++ e :: todo -> I (done ++ [e]) h ->
    wp (next e) (fun r h' => r = successor fin todo /\ h' = h) h) ->
  (forall done e todo h, l = done ++ e :: todo -> I done h -> wp (body e) (fun _ h' => I (done ++ [e]) h') h) ->
  forall fuel h, (length l < fuel)%nat -> I [] h ->
  wp (c_for cond next body fuel (successor fin l)) (fun r h' => r = Some tt /\ I l h') h.
Proof.
  intros Hfin Hcond Hnext Hbody.
  assert (Hloop : forall todo done fuel h, l = done ++ todo -> (length todo < fuel)%nat -> I done h ->
    wp (c_for cond next body fuel (successor fin todo)) (fun r h' => r = Some tt /\ I l h') h).
  { induction todo as [|e todo IH]; intros done [|fuel] h Hl Hf Hd; simpl in Hf; [lia| |lia|]; simpl c_for.
    - rewrite Hfin. apply wp_ret. by rewrite Hl, app_nil_r.
    - rewrite Hcond by (rewrite Hl; set_solver). apply wp_bind. eapply wp_mono; [by apply (Hbody done e todo)|].
      intros [] h1 Hd1. cbn beta in Hd1. apply wp_bind. eapply wp_mono; [by apply (Hnext done e todo)|].
      intros r h2 [-> ->]. apply (IH (done ++ [e])); [by rewrite <- app_assoc|lia|done]. }
  intros fuel h. by apply (Hloop l []).
Qed.

Lemma c_for_safe_run (cond : Z -> bool) next body fin l (I : list Z -> list Z -> mem -> Prop) :
  cond fin = false -> (forall x, x ∈ l -> cond x = true) ->
  (forall done e todo h, l = done ++ e :: todo -> I done (e :: todo) h ->
    wp (next e) (fun r h' => r = successor fin todo /\ h' = h) h) ->
  (forall done e todo h, l = done ++ e :: todo -> I done (e :: todo) h -> wp (body e) (fun _ h' => I (done ++ [e]) todo h') h) ->
  forall fuel h, (length l < fuel)%nat -> I [] l h ->
  wp (c_for_safe cond next body fuel (successor fin l)) (fun r h' => r = Some tt /\ I l [] h') h.
Proof.
  intros Hfin Hcond Hnext Hbody.
  assert (Hloop : forall todo done fuel h, l = done ++ todo -> (length todo < fuel)%nat -> I done todo h ->
    wp (c_for_safe cond next body fuel (successor fin todo)) (fun r h' => r = Some tt /\ I l [] h') h).
  { induction todo as [|e todo IH]; intros done [|fuel] h Hl Hf Hd; simpl in Hf; [lia| |lia|]; simpl c_for_safe.
    - rewrite Hfin. apply wp_ret. by rewrite Hl, app_nil_r.
    - rewrite Hcond by (rewrite Hl; set_solver). apply wp_bind. eapply wp_mono; [by apply (Hnext done e todo)|].
      intros r h1 [-> ->]. apply wp_bind. eapply wp_mono; [by apply (Hbody done e todo)|].
      intros [] h2 Hd2. apply (IH (done ++ [e])); [by rewrite <- app_assoc|lia|done]. }
  intros fuel h. by apply (Hloop l []).
Qed.

Lemma predecessor_rev q l : predecessor q (List.rev l) = successor q l.
Proof. destruct l; [done|]. apply predecessor_snoc. Qed.

Lemma noval_inv (m : M mem unit) (P : mem -> Prop) (h : mem) :
  wp (noval m) (fun r h' => r = NULL /\ P h') h -> wp m (fun _ h' => P h') h.
Proof. unfold wp, noval, bind, ret. destruct (m h); [tauto|done]. Qed.

Lemma run_wp {B} (m : M mem B) (Q : B -> mem -> Prop) (h : mem) : (exists a h', m h = Done a h' /\ Q a h') -> wp m Q h.
Proof. apply wp_run. Qed.

(** ** Running the macros *)

Ltac code := unfold
  SLIST_INIT, SLIST_INSERT_HEAD, SLIST_INSERT_AFTER, SLIST_REMOVE_HEAD, SLIST_REMOVE_AFTER, SLIST_EMPTY, SLIST_FIRST, SLIST_NEXT, slh_first, sle_next,
  STAILQ_CONCAT, STAILQ_SWAP, STAILQ_INIT, STAILQ_INSERT_HEAD, STAILQ_INSERT_TAIL, STAILQ_INSERT_AFTER, STAILQ_REMOVE_HEAD, STAILQ_REMOVE_AFTER,
  STAILQ_REMOVE_HEAD_UNTIL, STAILQ_LAST, STAILQ_EMPTY, STAILQ_FIRST, STAILQ_NEXT, stqh_first, stqh_last, stqe_next,
  LIST_SWAP, LIST_INIT, LIST_INSERT_HEAD, LIST_INSERT_AFTER, LIST_INSERT_BEFORE, LIST_REMOVE, LIST_EMPTY, LIST_FIRST, LIST_NEXT, lh_first, le_next, le_prev,
  TAILQ_CONCAT, TAILQ_SWAP, TAILQ_INIT, TAILQ_INSERT_HEAD, TAILQ_INSERT_TAIL, TAILQ_INSERT_AFTER, TAILQ_INSERT_BEFORE, TAILQ_REMOVE,
  TAILQ_LAST, TAILQ_PREV, TAILQ_EMPTY, TAILQ_FIRST, TAILQ_NEXT, tqh_first, tqh_last, tqe_next, tqe_prev,
  CIRCLEQ_INIT, CIRCLEQ_INSERT_HEAD, CIRCLEQ_INSERT_TAIL, CIRCLEQ_INSERT_AFTER, CIRCLEQ_INSERT_BEFORE, CIRCLEQ_REMOVE,
  CIRCLEQ_EMPTY, CIRCLEQ_FIRST, CIRCLEQ_LAST, CIRCLEQ_NEXT, CIRCLEQ_PREV, cqh_first, cqh_last, cqe_next, cqe_prev in *.

(** Two different nodes, or two nodes that may be the same. *)
Ltac apart x y := match goal with HL : layout ?K ?f ?U ?hs |- _ =>
  let E := fresh in let N := fresh "Hne" in
  assert (N : x <> y) by first [assumption|apply not_eq_sym; assumption|intros ->; contradiction];
  assert (E := cells_apart K f U hs HL x y ltac:(assumption) ltac:(assumption) N); destruct E as (?&?&?&?) end.
Ltac maybe x y := match goal with HL : layout ?K ?f ?U ?hs |- _ =>
  let E := fresh in assert (E := cells_maybe K f U hs HL x y ltac:(assumption) ltac:(assumption)); destruct E as [? ?] end.
(** Elements, heads, and nodes that may be either. *)
Ltac elt x := match goal with HL : layout ?K ?f ?U ?hs, HR : repr _ _ ?h ?A |- _ =>
  let E := fresh in
  assert (E := elt_node K f U hs HL h A x HR ltac:(assumption) ltac:(assumption)); destruct E as ((?&?&?&?)&?&?) end.
Ltac hd q := match goal with HR : repr (sys_shape ?K ?f ?hs) ?U ?h ?A |- _ =>
  let E := fresh in
  assert (E := head_node K f U hs h A q HR ltac:(assumption) ltac:(assumption)); destruct E as ((?&?&?)&?&?) end.
Ltac node p := match goal with HR : repr (sys_shape ?K ?f ?hs) ?U ?h ?A |- _ =>
  let E := fresh in
  assert (E := cells_mapped K f U hs h A p HR ltac:(assumption)); destruct E as [? _] end.
Ltac done_with HI := simpl exec; unfold noval; code; norm; run; (split; [done|]); finish HI.
Ltac places := rewrite ?predecessor_nil, ?predecessor_snoc in *; cbn [successor app] in *.

Ltac member Hm x := let E := fresh in assert (E := Hm x ltac:(clear; set_solver)); destruct_and? E.

Section Macros.
Context (K : family) (field : Z) (U heads : gset Z).
Hypothesis HL : layout K field U heads.
Abbreviation ins := (insertion K field U heads).
Abbreviation del := (deletion K field U heads).
Abbreviation holds := (repr (sys_shape K field heads) U).
Abbreviation bec := (becomes K field U heads).

(** Poses what an insertion finds; [HI] is how it ends. *)
Ltac insert_at Hins :=
  pose proof (insertion_nodes _ _ _ _ HL _ _ _ _ _ _ Hins) as ((?HqU & ?Hqh) & (?HeU & ?Heh) & (?HpU & ?HsU) & ?Hm & (?Hqe & ?Hpe & ?Hse) & ?Hps);
  pose proof (fun h' => insertion_done _ _ _ _ HL _ h' _ _ _ _ _ Hins) as HI; cbv zeta in HI;
  destruct Hins as (?HR & ?Hr & ?Hq & _);
  match goal with HR : repr _ _ _ _, Hq : _ !! _ = Some _ |- _ =>
    pose proof (links _ _ _ _ _ _ _ _ _ HR Hq) as [?Hn ?Hb] end;
  places.
Lemma insert_after_run fuel h A q l1 x l2 e : ins h A q (l1 ++ [x]) l2 e ->
  wp (exec K field fuel (Insert_after q x e)) (fun r h' => r = NULL /\ bec h (<[q := (l1 ++ [x]) ++ e :: l2]> A) h') h.
Proof.
  intros Hins. insert_at Hins. member Hm x. elt x. elt e. hd q. apart x e. apart q e. apart q x.
  destruct l2 as [|s l2]; places; [destruct K; done_with HI|].
  specialize (Hps ltac:(by destruct l1)). member Hm s. elt s. apart s e. apart s q. apart s x. destruct K; done_with HI.
Qed.

(** The last node of the list, as the head knows it. *)
Lemma last_link h A q l : holds h A -> A !! q = Some l ->
  h !! ent field heads (predecessor q l) = Some (fw (sys_shape K field heads) q) /\
  (back K (is_head heads q) = true -> h !! (ent field heads q + 8) = Some (bk (sys_shape K field heads) (predecessor q l))).
Proof. intros HR Hq. rewrite <- (app_nil_r l) in Hq. exact (links K field U heads h A q l [] HR Hq). Qed.

Ltac the_last HR Hq := let E := fresh in assert (E := last_link _ _ _ _ HR Hq); destruct E as [?Hl ?Hlb].

Lemma insert_head_run fuel h A q l e : ins h A q [] l e ->
  wp (exec K field fuel (Insert_head q e)) (fun r h' => r = NULL /\ bec h (<[q := e :: l]> A) h') h.
Proof.
  intros Hins. insert_at Hins. elt e. hd q. apart q e. the_last HR Hq.
  destruct l as [|s l]; places; [destruct K; done_with HI|].
  member Hm s. elt s. apart s e. apart s q. pose proof (predecessor_in q s l) as Hz.
  set (z := predecessor q (s :: l)) in *. destruct (Hm z Hz). apart z q. destruct K; done_with HI.
Qed.

Lemma insert_before_run fuel h A q l1 x l2 e : offers K (Insert_before q x e) = true ->
  ins h A q l1 (x :: l2) e ->
  wp (exec K field fuel (Insert_before q x e)) (fun r h' => r = NULL /\ bec h (<[q := l1 ++ e :: x :: l2]> A) h') h.
Proof.
  intros HK Hins. insert_at Hins. elt e. hd q. apart q e. member Hm x. elt x. apart x e. apart x q.
  destruct K; try discriminate HK.
  - node (predecessor q l1). apart (predecessor q l1) e. specialize (Hps ltac:(by destruct l1)). apart (predecessor q l1) x. done_with HI.
  - node (predecessor q l1). apart (predecessor q l1) e. specialize (Hps ltac:(by destruct l1)). apart (predecessor q l1) x. done_with HI.
  - destruct l1 as [|p l1 _] using rev_ind; places; [done_with HI|].
    member Hm p. elt p. apart p e. apart p q. specialize (Hps ltac:(by destruct l1)). apart p x. done_with HI.
Qed.

Lemma insert_tail_run fuel h A q l e : offers K (Insert_tail q e) = true -> ins h A q l [] e ->
  wp (exec K field fuel (Insert_tail q e)) (fun r h' => r = NULL /\ bec h (<[q := l ++ [e]]> A) h') h.
Proof.
  intros HK Hins. insert_at Hins. elt e. hd q. apart q e. rewrite app_nil_r in Hq, Hm.
  pose proof (links K field U heads h A q [] l HR Hq) as [Hf _]. places. destruct K; try discriminate HK.
  - node (predecessor q l). apart (predecessor q l) e. maybe (predecessor q l) q. done_with HI.
  - node (predecessor q l). apart (predecessor q l) e. maybe (predecessor q l) q. done_with HI.
  - destruct l as [|z l _] using rev_ind; places; [done_with HI|]. member Hm z. elt z. apart z e. apart z q.
    assert (Hs : successor q (l ++ [z]) ∈ l ++ [z]) by (destruct l; simpl; set_solver).
    set (s := successor q (l ++ [z])) in *. destruct (Hm s Hs). elt s. apart s q. done_with HI.
Qed.

(** Poses what a deletion finds. *)
Ltac delete_at Hdel :=
  pose proof (deletion_nodes _ _ _ _ HL _ _ _ _ _ _ Hdel) as ((?HqU & ?Hqh) & (?HeU & ?Heh) & (?HpU & ?HsU) & ?Hm & (?Hpe & ?Hse) & ?Hps);
  pose proof (fun h' => deletion_done _ _ _ _ HL _ h' _ _ _ _ _ Hdel) as HI; cbv zeta in HI;
  destruct Hdel as (?HR & ?Hr & ?Hq);
  match goal with HR : repr _ _ ?h ?A, Hq : ?A !! ?q = Some (?l1 ++ ?e :: ?l2) |- _ =>
    pose proof (links K field U heads h A q l1 (e :: l2) HR Hq) as [?Hn ?Hb];
    pose proof (links K field U heads h A q (l1 ++ [e]) l2 HR ltac:(by rewrite <- app_assoc)) as [?Hn2 ?Hb2] end;
  places.

Lemma remove_head_run fuel h A q e l : offers K (Remove_head q) = true -> del h A q [] e l ->
  wp (exec K field fuel (Remove_head q)) (fun r h' => r = NULL /\ bec h (<[q := l]> A) h') h.
Proof.
  intros HK Hdel. delete_at Hdel. elt e. hd q. apart q e.
  destruct l as [|s l]; places; [|member Hm s; elt s; apart s e; apart s q]; destruct K; try discriminate HK; done_with HI.
Qed.

Lemma remove_after_run fuel h A q l1 x e l2 : offers K (Remove_after q x) = true -> del h A q (l1 ++ [x]) e l2 ->
  wp (exec K field fuel (Remove_after q x)) (fun r h' => r = NULL /\ bec h (<[q := (l1 ++ [x]) ++ l2]> A) h') h.
Proof.
  intros HK Hdel. delete_at Hdel. elt e. hd q. apart q e. member Hm x. elt x. apart x e. apart x q.
  destruct l2 as [|s l]; places; [|member Hm s; elt s; apart s e; apart s q; specialize (Hps ltac:(by destruct l1)); apart s x];
    destruct K; try discriminate HK; done_with HI.
Qed.

Lemma linked_remove_run fuel h A q l1 e l2 : match K with SLIST | STAILQ => False | _ => True end -> del h A q l1 e l2 ->
  wp (exec K field fuel (Remove q e)) (fun r h' => r = NULL /\ bec h (<[q := l1 ++ l2]> A) h') h.
Proof.
  intros HK Hdel. delete_at Hdel. elt e. hd q. apart q e.
  assert (match K with CIRCLEQ => True | _ => False end \/ match K with LIST | TAILQ => True | _ => False end) as [HC|HC]
    by (destruct K; auto).
  - destruct l1 as [|p l1 _] using rev_ind; destruct l2 as [|s l2]; places;
      try (specialize (Hps ltac:(by destruct l1))); try (member Hm p; elt p; apart p e; apart p q);
      try (member Hm s; elt s; apart s e; apart s q); try apart s p; destruct K; try done; done_with HI.
  - node (predecessor q l1). apart (predecessor q l1) e. maybe (predecessor q l1) q.
    destruct l2 as [|s l2]; places; [|member Hm s; elt s; apart s e; apart s q; maybe (predecessor q l1) s];
      destruct K; try done; done_with HI.
Qed.

(** The search for the element in front of [e]. *)
Lemma find_before_run next h A q e l2 : (forall x, next x = load (x + field)) -> holds h A -> roles heads A ->
  forall t a cur fuel, A !! q = Some ((a ++ cur :: t) ++ e :: l2) -> (length t < fuel)%nat ->
  wp (find_before next e fuel cur) (fun r h' => r = Some (predecessor cur t) /\ h' = h) h.
Proof.
  intros Hnext HR Hr. induction t as [|y t IH]; intros a cur [|fuel] Hq Hf; simpl in Hf; [lia| |lia|]; simpl find_before; rewrite Hnext.
  - destruct (Hr _ _ Hq) as [_ Hm]. destruct (links K field U heads h A q (a ++ [cur]) (e :: l2) HR Hq) as [Hn _].
    assert (HU : forall x, x ∈ [cur; e] -> x ∈ U) by (intros x Hx; apply (repr_U (sys_shape K field heads) U h A q _ x HR Hq); set_solver).
    assert (cur ∈ U) by (apply HU; set_solver). assert (e ∈ U) by (apply HU; set_solver).
    assert (cur ∉ heads) by (apply Hm; set_solver). assert (e ∉ heads) by (apply Hm; set_solver).
    rewrite predecessor_snoc in Hn. simpl successor in Hn. elt cur. elt e. norm. run. done.
  - destruct (Hr _ _ Hq) as [_ Hm]. pose proof (repr_NoDup _ _ _ _ _ _ HR Hq) as [_ Hnd]%NoDup_cons.
    assert (Hq' : A !! q = Some (((a ++ [cur]) ++ y :: t) ++ e :: l2)) by (by rewrite <- (app_assoc a)).
    assert (Hye : y <> e) by (intros ->; apply NoDup_app in Hnd as (_ & Hd & _); apply (Hd e); set_solver).
    assert (Hq2 : A !! q = Some ((a ++ [cur]) ++ y :: t ++ e :: l2)) by (by rewrite <- app_assoc in Hq').
    destruct (links K field U heads h A q (a ++ [cur]) (y :: t ++ e :: l2) HR Hq2) as [Hn _].
    assert (HU : forall x, x ∈ [cur; y] -> x ∈ U) by (intros x Hx; apply (repr_U (sys_shape K field heads) U h A q _ x HR Hq); set_solver).
    assert (cur ∈ U) by (apply HU; set_solver). assert (y ∈ U) by (apply HU; set_solver).
    assert (cur ∉ heads) by (apply Hm; set_solver). assert (y ∉ heads) by (apply Hm; set_solver).
    rewrite predecessor_snoc in Hn. simpl successor in Hn. elt cur. elt y. norm. step. cond.
    eapply wp_mono; [apply (IH (a ++ [cur]) y fuel Hq'); lia|]. intros r h' [-> ->]. split; [|done].
    destruct t as [|z t]; [done|]. f_equal. exact (predecessor_cons y cur z t).
Qed.

Lemma list_length h A q l : holds h A -> A !! q = Some l -> (length l <= size U)%nat.
Proof.
  intros HR Hq. pose proof (repr_NoDup _ _ _ _ _ _ HR Hq) as [_ Hnd]%NoDup_cons.
  rewrite <- (size_list_to_set (C:=gset Z) l Hnd). apply subseteq_size. intros x Hx%elem_of_list_to_set.
  apply (repr_U (sys_shape K field heads) U h A q l x HR Hq). set_solver.
Qed.

Lemma remove_run fuel h A q l1 e l2 : (size U <= fuel)%nat -> del h A q l1 e l2 ->
  wp (exec K field fuel (Remove q e)) (fun r h' => r = NULL /\ bec h (<[q := l1 ++ l2]> A) h') h.
Proof.
  intros Hfuel Hdel. assert (match K with SLIST | STAILQ => False | _ => True end \/ match K with SLIST | STAILQ => True | _ => False end) as [HK|HK]
    by (destruct K; auto); [by apply linked_remove_run|].
  pose proof Hdel as (HR & Hr & Hq). destruct (Hr _ _ Hq) as [Hqh Hm].
  pose proof (deletion_nodes _ _ _ _ HL _ _ _ _ _ _ Hdel) as ((HqU & _) & (HeU & Heh) & _ & Hm' & _). hd q.
  pose proof (links K field U heads h A q [] (l1 ++ e :: l2) HR Hq) as [Hn _]. places. elt e.
  assert (Hlen := list_length h A q _ HR Hq). rewrite length_app in Hlen. simpl in Hlen.
  destruct l1 as [|cur t].
  - assert (Hrun : offers K (Remove_head q) = true -> _) by (intros HO; exact (remove_head_run fuel h A q e l2 HO Hdel)).
    places. destruct K; try done; norm; specialize (Hrun eq_refl); simpl exec in *; apply noval_inv in Hrun;
      unfold ended, SLIST_REMOVE, STAILQ_REMOVE, SLIST_FIRST, STAILQ_FIRST, slh_first, stqh_first; (apply wp_bind, wp_bind; step; cond);
      apply wp_bind; (eapply wp_mono; [exact Hrun|]); intros [] h' Hb; by repeat step.
  - assert (Hcur : cur ∈ (cur :: t) ++ l2) by set_solver. destruct (Hm' cur Hcur) as (HcU & Hch & Hce). elt cur.
    assert (Hl : cur :: t = List.removelast (cur :: t) ++ [predecessor cur t]).
    { rewrite (List.app_removelast_last cur (l := cur :: t)) at 1 by done. f_equal. f_equal. destruct t; [done|]. exact (predecessor_cons cur cur _ _). }
    assert (Hrun : offers K (Remove_after q (predecessor cur t)) = true -> _)
      by (intros HO; rewrite Hl in Hdel; exact (remove_after_run fuel h A q _ _ e l2 HO Hdel)).
    rewrite <- Hl in Hrun.
    assert (Hfind : forall next, (forall x, next x = load (x + field)) ->
      wp (find_before next e fuel cur) (fun r h' => r = Some (predecessor cur t) /\ h' = h) h).
    { intros next Hnext. apply (find_before_run next h A q e l2 Hnext HR Hr t []); [exact Hq|]. simpl in Hlen. lia. }
    places. destruct K; try done; norm; specialize (Hrun eq_refl); simpl exec in *; apply noval_inv in Hrun;
      unfold ended, SLIST_REMOVE, STAILQ_REMOVE, SLIST_FIRST, STAILQ_FIRST, slh_first, stqh_first; (apply wp_bind, wp_bind; step; cond; step; cond);
      apply wp_bind; (eapply wp_mono; [by apply Hfind|]); intros r h1 [-> ->]; apply wp_bind; (eapply wp_mono; [exact Hrun|]);
      intros [] h' Hb; by repeat step.
Qed.

(** *** Whole lists *)

Lemma init_run fuel h A q : holds h A -> reusable U A q -> q ∈ heads ->
  wp (exec K field fuel (Init q)) (fun r h' => r = NULL /\ bec h (<[q := []]> A) h') h.
Proof.
  intros HR Hre Hh. pose proof (fun h' => init_done K field U heads HL h h' A q HR Hre Hh) as HI.
  destruct Hre as [HqU _]. hd q. destruct K; done_with HI.
Qed.

(** The nodes of a list. *)
Lemma list_nodes h A q l : holds h A -> roles heads A -> A !! q = Some l ->
  (q ∈ U /\ q ∈ heads) /\ (forall x, x ∈ l -> x ∈ U /\ x ∉ heads) /\ predecessor q l ∈ U /\ successor q l ∈ U.
Proof.
  intros HR Hr Hq. destruct (Hr q _ Hq) as [Hqh Hm].
  assert (HU : forall x, x ∈ q :: l -> x ∈ U) by (intros x; by apply (repr_U (sys_shape K field heads) U h A)).
  pose proof (predecessor_elem q l). pose proof (successor_elem q l).
  split; [split; [apply HU; set_solver|done]|]. split; [|auto]. intros x Hx. split; [apply HU; set_solver|auto].
Qed.

Lemma remove_head_until_run fuel h A q l1 x l2 : offers K (Remove_head_until q x) = true ->
  holds h A -> roles heads A -> A !! q = Some ((l1 ++ [x]) ++ l2) ->
  wp (exec K field fuel (Remove_head_until q x)) (fun r h' => r = NULL /\ bec h (<[q := l2]> A) h') h.
Proof.
  intros HK HR Hr Hq. pose proof (fun h' => drop_done K field U heads HL h h' A q _ l2 HR Hr Hq) as HI. cbv zeta in HI.
  destruct (list_nodes h A q _ HR Hr Hq) as ((HqU & Hqh) & Hm & _). the_last HR Hq.
  pose proof (links K field U heads h A q (l1 ++ [x]) l2 HR Hq) as [Hn Hb]. hd q. member Hm x. elt x. apart x q.
  destruct l2 as [|s l2]; places.
  - rewrite app_nil_r, predecessor_snoc in *. destruct K; try discriminate HK. done_with HI.
  - member Hm s. elt s. apart s q. assert (Hp : predecessor q ((l1 ++ [x]) ++ s :: l2) = predecessor q (s :: l2)).
    { destruct (s :: l2) as [|z m _] eqn:E using rev_ind; [done|]. by rewrite app_assoc, !predecessor_snoc. }
    rewrite Hp in *. pose proof (predecessor_in q s l2) as Hz. set (z := predecessor q (s :: l2)) in *.
    destruct (Hm z ltac:(apply elem_of_app; by right)). elt z. apart z q.
    destruct K; try discriminate HK. done_with HI.
Qed.

Lemma concat_run fuel h A q1 l1 q2 l2 : offers K (Concat q1 q2) = true -> holds h A -> roles heads A ->
  A !! q1 = Some l1 -> A !! q2 = Some l2 -> q1 <> q2 ->
  wp (exec K field fuel (Concat q1 q2)) (fun r h' => r = NULL /\ bec h (<[q2 := []]> (<[q1 := l1 ++ l2]> A)) h') h.
Proof.
  intros HK HR Hr Hq1 Hq2 Hne.
  destruct (list_nodes h A q1 _ HR Hr Hq1) as ((Hq1U & Hqh1) & Hm1 & Hp1 & _).
  destruct (list_nodes h A q2 _ HR Hr Hq2) as ((Hq2U & Hqh2) & Hm2 & _).
  pose proof (links K field U heads h A q2 [] l2 HR Hq2) as [Hf Hfb]. hd q1. hd q2. apart q1 q2.
  the_last HR Hq1. the_last HR Hq2. destruct l2 as [|x l2]; places.
  - rewrite app_nil_r. rewrite (insert_id A q1 l1), (insert_id A q2 []) by done.
    destruct K; try discriminate HK; simpl exec; unfold noval; code; norm; run; split; [done| |done|]; by split.
  - pose proof (fun h' => concat_done K field U heads HL h h' A q1 l1 q2 x l2 HR Hr Hq1 Hq2 Hne) as HI. cbv zeta in HI.
    pose proof (repr_disjoint _ _ _ _ HR) as Hsep.
    assert (Hpx : forall y, y ∈ q1 :: l1 -> y ∉ q2 :: x :: l2) by (intros y; by apply (apart_lists A q1 l1 q2 (x :: l2))).
    pose proof (predecessor_elem q1 l1) as Hpe1. pose proof (predecessor_in q2 x l2) as Hz.
    set (p := predecessor q1 l1) in *. set (z := predecessor q2 (x :: l2)) in *. pose proof (Hpx p Hpe1) as Hpn.
    assert (Hpx' : p <> x) by (intros ->; apply Hpn; clear; set_solver).
    assert (Hpz : p <> z) by (intros E; apply Hpn; rewrite E; apply elem_of_cons; by right).
    assert (Hpq : p <> q2) by (intros E; apply Hpn; rewrite E; clear; set_solver).
    destruct (Hm2 x ltac:(clear; set_solver)). elt x. destruct (Hm2 z Hz). elt z. node p. apart p x. apart p z. apart p q2. maybe p q1.
    apart x q1. apart x q2. apart z q1. apart z q2. maybe x z.
    destruct K; try discriminate HK; done_with HI.
Qed.

Lemma swap_run fuel h A q1 l1 q2 l2 : offers K (Swap q1 q2) = true -> holds h A -> roles heads A ->
  A !! q1 = Some l1 -> A !! q2 = Some l2 -> q1 <> q2 ->
  wp (exec K field fuel (Swap q1 q2)) (fun r h' => r = NULL /\ bec h (<[q2 := l1]> (<[q1 := l2]> A)) h') h.
Proof.
  intros HK HR Hr Hq1 Hq2 Hne.
  destruct (list_nodes h A q1 _ HR Hr Hq1) as ((Hq1U & Hqh1) & Hm1 & _).
  destruct (list_nodes h A q2 _ HR Hr Hq2) as ((Hq2U & Hqh2) & Hm2 & _).
  pose proof (fun h' => swap_done K field U heads HL h h' A q1 l1 q2 l2 HR Hr Hq1 Hq2 Hne) as HI. cbv zeta in HI.
  pose proof (links K field U heads h A q1 [] l1 HR Hq1) as [Hf1 Hfb1].
  pose proof (links K field U heads h A q2 [] l2 HR Hq2) as [Hf2 Hfb2]. hd q1. hd q2. apart q1 q2.
  the_last HR Hq1. the_last HR Hq2.
  pose proof (fun y => apart_lists A q1 l1 q2 l2 y (repr_disjoint _ _ _ _ HR) Hq1 Hq2 Hne) as Hd.
  destruct l1 as [|x1 l1]; places;
    [|destruct (Hm1 x1 ltac:(clear; set_solver)); elt x1; apart x1 q1; apart x1 q2; pose proof (predecessor_in q1 x1 l1) as Hz1;
      rewrite <- ?(predecessor_cons q1 q2 x1 l1) in HI;
      set (z1 := predecessor q1 (x1 :: l1)) in *; destruct (Hm1 z1 Hz1); elt z1; apart z1 q1; apart z1 q2; maybe x1 z1];
  (destruct l2 as [|x2 l2]; places;
    [|destruct (Hm2 x2 ltac:(clear; set_solver)); elt x2; apart x2 q1; apart x2 q2; pose proof (predecessor_in q2 x2 l2) as Hz2;
      rewrite ?(predecessor_cons q1 q2 x2 l2) in HI;
      set (z2 := predecessor q2 (x2 :: l2)) in *; destruct (Hm2 z2 Hz2); elt z2; apart z2 q1; apart z2 q2; maybe x2 z2]).
  - destruct K; try discriminate HK; done_with HI.
  - destruct K; try discriminate HK; done_with HI.
  - destruct K; try discriminate HK; done_with HI.
  - assert (Hd' : forall a b, a ∈ x1 :: l1 -> b ∈ x2 :: l2 -> a <> b).
    { intros a b Ha Hb ->. apply (Hd b); apply elem_of_cons; by right. }
    assert (x1 <> x2) by (apply Hd'; clear; set_solver). assert (z1 <> x2) by (apply Hd'; [done|clear; set_solver]).
    assert (x1 <> z2) by (apply Hd'; [clear; set_solver|done]). apart x1 x2. apart z1 x2. apart x1 z2.
    destruct K; try discriminate HK; done_with HI.
Qed.

(** *** Queries *)

Ltac query := simpl exec; unfold flagged; code; norm; run; try done.

Lemma first_run fuel h A q l : holds h A -> roles heads A -> A !! q = Some l ->
  wp (exec K field fuel (First q)) (fun r h' => r = successor (end_of K q) l /\ h' = h) h.
Proof.
  intros HR Hr Hq. destruct (list_nodes h A q _ HR Hr Hq) as ((HqU & Hqh) & Hm & _).
  pose proof (links K field U heads h A q [] l HR Hq) as [Hn _]. places. hd q.
  destruct l as [|s l]; places; [|member Hm s; elt s]; destruct K; query.
Qed.

Lemma empty_run fuel h A q l : holds h A -> roles heads A -> A !! q = Some l ->
  wp (exec K field fuel (Empty q)) (fun r h' => r = (if decide (l = []) then 1 else 0) /\ h' = h) h.
Proof.
  intros HR Hr Hq. destruct (list_nodes h A q _ HR Hr Hq) as ((HqU & Hqh) & Hm & _).
  pose proof (links K field U heads h A q [] l HR Hq) as [Hn _]. places. hd q.
  destruct l as [|s l]; places; [|member Hm s; elt s; apart s q]; destruct K; query.
Qed.

Lemma next_run fuel h A q l1 x l2 : holds h A -> roles heads A -> A !! q = Some ((l1 ++ [x]) ++ l2) ->
  wp (exec K field fuel (Next x)) (fun r h' => r = successor (end_of K q) l2 /\ h' = h) h.
Proof.
  intros HR Hr Hq. destruct (list_nodes h A q _ HR Hr Hq) as ((HqU & Hqh) & Hm & _).
  pose proof (links K field U heads h A q (l1 ++ [x]) l2 HR Hq) as [Hn _]. places. hd q. member Hm x. elt x.
  destruct l2 as [|s l2]; places; [|member Hm s; elt s]; destruct K; query.
Qed.

Lemma last_run fuel h A q l : offers K (Last q) = true -> holds h A -> roles heads A -> A !! q = Some l ->
  wp (exec K field fuel (Last q)) (fun r h' => r = predecessor (end_of K q) l /\ h' = h) h.
Proof.
  intros HK HR Hr Hq. destruct (list_nodes h A q _ HR Hr Hq) as ((HqU & Hqh) & Hm & _).
  pose proof (links K field U heads h A q [] l HR Hq) as [Hf _]. the_last HR Hq. places. hd q.
  destruct l as [|z l _] using rev_ind; places; [destruct K; try discriminate HK; query|].
  pose proof (links K field U heads h A q l [z] HR Hq) as [Hn Hb]. places. member Hm z. elt z.
  assert (Hs : successor q (l ++ [z]) ∈ l ++ [z]) by (destruct l; simpl; clear; set_solver).
  set (s := successor q (l ++ [z])) in *. destruct (Hm s Hs). elt s.
  destruct K; try discriminate HK; query. split; [lia|done].
Qed.

Lemma prev_run fuel h A q l1 x l2 : offers K (Prev x) = true -> holds h A -> roles heads A -> A !! q = Some (l1 ++ x :: l2) ->
  wp (exec K field fuel (Prev x)) (fun r h' => r = predecessor (end_of K q) l1 /\ h' = h) h.
Proof.
  intros HK HR Hr Hq. destruct (list_nodes h A q _ HR Hr Hq) as ((HqU & Hqh) & Hm & _). the_last HR Hq.
  pose proof (links K field U heads h A q l1 (x :: l2) HR Hq) as [Hn Hb]. places. hd q. member Hm x. elt x.
  destruct l1 as [|p l1 _] using rev_ind; places; [destruct K; try discriminate HK; query|].
  rewrite <- app_assoc in Hq. pose proof (links K field U heads h A q l1 ([p] ++ x :: l2) HR Hq) as [Hn2 Hb2]. places.
  member Hm p. elt p. destruct K; try discriminate HK; query.
Qed.

(** ** All programs *)

Abbreviation free := (free_element U heads).

Inductive sstep : queues -> op -> Z -> queues -> Prop :=
| S_init A q : reusable U A q -> q ∈ heads -> sstep A (Init q) NULL (<[q := []]> A)
| S_insert_head A q l e : A !! q = Some l -> free A e -> sstep A (Insert_head q e) NULL (<[q := e :: l]> A)
| S_insert_tail A q l e : A !! q = Some l -> free A e -> sstep A (Insert_tail q e) NULL (<[q := l ++ [e]]> A)
| S_insert_after A q l1 x l2 e : A !! q = Some (l1 ++ x :: l2) -> free A e ->
    sstep A (Insert_after q x e) NULL (<[q := l1 ++ x :: e :: l2]> A)
| S_insert_before A q l1 x l2 e : A !! q = Some (l1 ++ x :: l2) -> free A e ->
    sstep A (Insert_before q x e) NULL (<[q := l1 ++ e :: x :: l2]> A)
| S_remove_head A q e l : A !! q = Some (e :: l) -> sstep A (Remove_head q) NULL (<[q := l]> A)
| S_remove_after A q l1 x e l2 : A !! q = Some (l1 ++ x :: e :: l2) ->
    sstep A (Remove_after q x) NULL (<[q := l1 ++ x :: l2]> A)
| S_remove_head_until A q l1 x l2 : A !! q = Some (l1 ++ x :: l2) -> sstep A (Remove_head_until q x) NULL (<[q := l2]> A)
| S_remove A q l1 e l2 : A !! q = Some (l1 ++ e :: l2) -> sstep A (Remove q e) NULL (<[q := l1 ++ l2]> A)
| S_concat A q1 l1 q2 l2 : A !! q1 = Some l1 -> A !! q2 = Some l2 -> q1 <> q2 ->
    sstep A (Concat q1 q2) NULL (<[q2 := []]> (<[q1 := l1 ++ l2]> A))
| S_swap A q1 l1 q2 l2 : A !! q1 = Some l1 -> A !! q2 = Some l2 -> q1 <> q2 ->
    sstep A (Swap q1 q2) NULL (<[q2 := l1]> (<[q1 := l2]> A))
| S_first A q l : A !! q = Some l -> sstep A (First q) (successor (end_of K q) l) A
| S_last A q l : A !! q = Some l -> sstep A (Last q) (predecessor (end_of K q) l) A
| S_next A q l1 x l2 : A !! q = Some (l1 ++ x :: l2) -> sstep A (Next x) (successor (end_of K q) l2) A
| S_prev A q l1 x l2 : A !! q = Some (l1 ++ x :: l2) -> sstep A (Prev x) (predecessor (end_of K q) l1) A
| S_empty A q l : A !! q = Some l -> sstep A (Empty q) (if decide (l = []) then 1 else 0) A.

Inductive ssteps : queues -> list op -> list Z -> queues -> Prop :=
| S_nil A : ssteps A [] [] A
| S_cons A o r A1 os rs A2 : offers K o = true -> sstep A o r A1 -> ssteps A1 os rs A2 -> ssteps A (o :: os) (r :: rs) A2.

Lemma sys_roles_insert A q l : roles heads A -> q ∈ heads -> (forall x, x ∈ l -> x ∉ heads) -> roles heads (<[q := l]> A).
Proof.
  intros Hr Hq Hl q' l'. destruct (decide (q' = q)) as [->|Hne].
  - rewrite lookup_insert_eq. by intros [= <-].
  - rewrite lookup_insert_ne by done. apply Hr.
Qed.

Lemma sstep_roles A o r A' : roles heads A -> sstep A o r A' -> roles heads A'.
Proof.
  intros Hr Hs. destruct Hs;
    repeat match goal with H : free _ _ |- _ => destruct H as (? & ? & ?) end;
    repeat match goal with H : A !! _ = Some _ |- _ => destruct (Hr _ _ H) as [? ?]; clear H end;
    try done; repeat apply sys_roles_insert; try done; set_solver.
Qed.

Lemma same_state h A (r : Z) : holds h A -> forall r' h', r' = r /\ h' = h -> r' = r /\ bec h A h'.
Proof. intros HR r' h' [-> ->]. split; [done|]. by split. Qed.

Lemma sys_exec_run fuel h A o r A' : (size U <= fuel)%nat -> holds h A -> roles heads A -> offers K o = true -> sstep A o r A' ->
  wp (exec K field fuel o) (fun r' h' => r' = r /\ bec h A' h') h.
Proof.
  intros Hf HR Hr HK Hs. destruct Hs.
  - by apply init_run.
  - by apply insert_head_run.
  - apply insert_tail_run; [done|]. split; [done|]. split; [done|]. by rewrite app_nil_r.
  - rewrite (app_cons_snoc l1) in H |- *. by apply insert_after_run.
  - by apply insert_before_run.
  - by apply (remove_head_run fuel h A q e).
  - rewrite (app_cons_snoc l1) in H |- *. by apply (remove_after_run fuel h A q l1 x e).
  - rewrite (app_cons_snoc l1) in H. by apply (remove_head_until_run fuel h A q l1 x).
  - by apply remove_run.
  - by apply concat_run.
  - by apply swap_run.
  - eapply wp_mono; [by apply (first_run fuel h A q l)|by apply same_state].
  - eapply wp_mono; [by apply (last_run fuel h A q l)|by apply same_state].
  - rewrite (app_cons_snoc l1) in H. eapply wp_mono; [by apply (next_run fuel h A q l1 x l2)|by apply same_state].
  - eapply wp_mono; [by apply (prev_run fuel h A q l1 x l2)|by apply same_state].
  - eapply wp_mono; [by apply (empty_run fuel h A q l)|by apply same_state].
Qed.

Lemma sys_exec_all_run fuel h A os rs A' : (size U <= fuel)%nat -> holds h A -> roles heads A -> ssteps A os rs A' ->
  wp (exec_all K field fuel os) (fun rs' h' => rs' = rs /\ bec h A' h' /\ roles heads A') h.
Proof.
  intros Hf HR Hr Hs. revert h HR. induction Hs as [A|A o r A1 os rs A2 HK Hs Hss IH]; intros h HR; simpl.
  - apply wp_ret. split; [done|]. split; [by split|done].
  - apply wp_bind. eapply wp_mono; [by apply (sys_exec_run fuel h A o r A1)|]. intros r' h1 (-> & HR1 & Ho1). simpl.
    apply wp_bind. eapply wp_mono; [apply IH; eauto using sstep_roles|]. intros rs' h2 (-> & [HR2 Ho2] & Hr2). simpl.
    apply wp_ret. split; [done|]. split; [|done]. split; [done|]. by apply (outside_trans _ _ h h1).
Qed.

(** ** Loops *)

(** What the two loops of a family do, with its own queries. *)
Lemma foreach_shape q body fuel : foreach K field fuel q body =
  (var <- exec K field fuel (First q) ;;
   c_for (fun x => negb (x =? end_of K q)) (fun x => exec K field fuel (Next x)) body fuel var).
Proof. destruct K; reflexivity. Qed.

Lemma foreach_safe_shape q body fuel : K <> CIRCLEQ -> foreach_safe K field fuel q body =
  (var <- exec K field fuel (First q) ;;
   c_for_safe (fun x => negb (x =? end_of K q)) (fun x => exec K field fuel (Next x)) body fuel var).
Proof. intros HK. destruct K; [reflexivity..|done]. Qed.

Lemma not_end h A q l x : holds h A -> roles heads A -> A !! q = Some l -> x ∈ l -> negb (x =? end_of K q) = true.
Proof.
  intros HR Hr Hq Hx. destruct (list_nodes h A q l HR Hr Hq) as ((_ & Hqh) & Hm & _). destruct (Hm x Hx) as [HxU Hxh].
  apply negb_true_iff, Z.eqb_neq. assert (x <> q) by (intros ->; done). assert (x <> NULL) by (by apply (not_null K field U heads HL)).
  by destruct K.
Qed.

Lemma foreach_run A q l body (I : list Z -> mem -> Prop) : roles heads A -> A !! q = Some l ->
  (forall done h, I done h -> holds h A) ->
  (forall done e todo h, l = done ++ e :: todo -> I done h -> wp (body e) (fun _ h' => I (done ++ [e]) h') h) ->
  forall fuel h, (length l < fuel)%nat -> I [] h ->
  wp (foreach K field fuel q body) (fun r h' => r = Some tt /\ I l h') h.
Proof.
  intros Hr Hq HI Hb fuel h Hf H0. rewrite foreach_shape. apply wp_bind. pose proof (HI _ _ H0) as HR.
  eapply wp_mono; [by apply (first_run fuel h A q l)|]. intros r h1 [-> ->].
  apply c_for_run; [by rewrite Z.eqb_refl|intros x; by apply (not_end h A)| |done|done|done].
  intros done e todo h2 Hl Hd. apply (next_run fuel h2 A q done); [by apply (HI _ _ Hd)|done|]. by rewrite <- app_assoc, Hq, Hl.
Qed.

(** The body may take out the current member, or change what is behind. *)
Lemma foreach_safe_run q l body (I : list Z -> list Z -> mem -> Prop) : K <> CIRCLEQ ->
  (forall done todo h, I done todo h -> exists A pre, holds h A /\ roles heads A /\ A !! q = Some (pre ++ todo)) ->
  (forall done e todo h, l = done ++ e :: todo -> I done (e :: todo) h -> wp (body e) (fun _ h' => I (done ++ [e]) todo h') h) ->
  forall fuel h A, (length l < fuel)%nat -> I [] l h -> holds h A -> roles heads A -> A !! q = Some l ->
  wp (foreach_safe K field fuel q body) (fun r h' => r = Some tt /\ I l [] h') h.
Proof.
  intros HK HI Hb fuel h A Hf H0 HR Hr Hq. rewrite foreach_safe_shape by done. apply wp_bind.
  eapply wp_mono; [by apply (first_run fuel h A q l)|]. intros r h1 [-> ->].
  apply c_for_safe_run; [by rewrite Z.eqb_refl|intros x; by apply (not_end h A)| |done|done|done].
  intros done e todo h2 Hl Hd. destruct (HI _ _ _ Hd) as (A2 & pre & HR2 & Hr2 & Hq2).
  apply (next_run fuel h2 A2 q pre); [done|done|]. by rewrite <- app_assoc.
Qed.

(** With the removal of the current member as its body the loop empties the list. *)
Lemma sys_drain_run h A q l fuel : K <> CIRCLEQ -> (size U < fuel)%nat -> holds h A -> roles heads A -> A !! q = Some l ->
  wp (foreach_safe K field fuel q (remove_from K field fuel q)) (fun r h' => r = Some tt /\ bec h (<[q := []]> A) h') h.
Proof.
  intros HK Hf HR Hr Hq. pose proof (list_length h A q l HR Hq).
  assert (Hrt : forall todo, (forall x, x ∈ todo -> x ∈ l) -> roles heads (<[q := todo]> A)).
  { intros todo Ht. destruct (Hr _ _ Hq) as [Hqh Hm]. apply sys_roles_insert; [done|done|]. auto. }
  eapply wp_mono; [apply (foreach_safe_run q l _ (fun _ todo h' => bec h (<[q := todo]> A) h' /\ forall x, x ∈ todo -> x ∈ l) HK)
    with (A := A); try done|].
  - intros done todo h1 [[HR1 _] Hin]. exists (<[q := todo]> A), []. split; [done|]. split; [auto|]. by rewrite lookup_insert_eq.
  - intros done e todo h1 Hl [[HR1 Ho1] Hin]. apply wp_bind.
    eapply wp_mono; [apply (remove_run fuel h1 (<[q := e :: todo]> A) q [] e todo)|].
    + lia.
    + split; [done|]. split; [auto|]. by rewrite lookup_insert_eq.
    + intros r h2 [_ [HR2 Ho2]]. apply wp_ret. rewrite insert_insert_eq in HR2. split; [|intros x Hx; apply Hin; set_solver].
      split; [done|]. by apply (outside_trans _ _ h h1).
  - lia.
  - split; [|done]. split; [by rewrite insert_id|done].
  - intros r h' [-> [Hb _]]. done.
Qed.

End Macros.

(** *** The loops of one family only *)

Section Reverse.
Context (field : Z) (U heads : gset Z).
Hypothesis HL : layout TAILQ field U heads.
Abbreviation tholds := (repr (sys_shape TAILQ field heads) U).

Lemma reverse_run A q l body (I : list Z -> mem -> Prop) : roles heads A -> A !! q = Some l ->
  (forall done h, I done h -> tholds h A) ->
  (forall done e todo h, List.rev l = done ++ e :: todo -> I done h -> wp (body e) (fun _ h' => I (done ++ [e]) h') h) ->
  forall fuel h, (length l < fuel)%nat -> I [] h ->
  wp (TAILQ_FOREACH_REVERSE field q body fuel) (fun r h' => r = Some tt /\ I (List.rev l) h') h.
Proof.
  intros Hr Hq HI Hb fuel h Hf H0. unfold TAILQ_FOREACH_REVERSE. apply wp_bind. pose proof (HI _ _ H0) as HR.
  eapply wp_mono; [by apply (last_run TAILQ field U heads HL fuel h A q l)|]. intros r h1 [-> ->].
  rewrite <- (List.rev_involutive l) at 1. rewrite predecessor_rev. apply c_for_run; [done| | |done|by rewrite List.length_rev|done].
  - intros x Hx%list_elem_of_In%List.in_rev%list_elem_of_In. by apply (not_end TAILQ field U heads HL h A q l).
  - intros done e todo h2 Hl Hd. rewrite <- predecessor_rev.
    apply (prev_run TAILQ field U heads HL fuel h2 A q _ e (List.rev done)); [done|by apply (HI _ _ Hd)|done|].
    rewrite Hq. f_equal. rewrite <- (List.rev_involutive l), Hl, List.rev_app_distr. simpl. by rewrite <- app_assoc.
Qed.

(** The body may take out the current member, or change what it has left
    behind. *)
Lemma reverse_safe_run q l body (I : list Z -> list Z -> mem -> Prop) :
  (forall done todo h, I done todo h ->
    exists A post, tholds h A /\ roles heads A /\ A !! q = Some (List.rev todo ++ post)) ->
  (forall done e todo h, List.rev l = done ++ e :: todo -> I done (e :: todo) h ->
    wp (body e) (fun _ h' => I (done ++ [e]) todo h') h) ->
  forall fuel h A, (length l < fuel)%nat -> I [] (List.rev l) h -> tholds h A -> roles heads A -> A !! q = Some l ->
  wp (TAILQ_FOREACH_REVERSE_SAFE field q body fuel) (fun r h' => r = Some tt /\ I (List.rev l) [] h') h.
Proof.
  intros HI Hb fuel h A Hf H0 HR Hr Hq. unfold TAILQ_FOREACH_REVERSE_SAFE. apply wp_bind.
  eapply wp_mono; [by apply (last_run TAILQ field U heads HL fuel h A q l)|]. intros r h1 [-> ->].
  rewrite <- (List.rev_involutive l) at 1. rewrite predecessor_rev.
  apply c_for_safe_run; [done| | |done|by rewrite List.length_rev|done].
  - intros x Hx%list_elem_of_In%List.in_rev%list_elem_of_In. by apply (not_end TAILQ field U heads HL h A q l).
  - intros done e todo h2 Hl Hd. destruct (HI _ _ _ Hd) as (A2 & post & HR2 & Hr2 & Hq2). rewrite <- predecessor_rev.
    apply (prev_run TAILQ field U heads HL fuel h2 A2 q _ e post); [done|done|done|].
    rewrite Hq2. simpl. by rewrite <- app_assoc.
Qed.

Lemma reverse_drain_run h A q l fuel : (size U < fuel)%nat -> tholds h A -> roles heads A -> A !! q = Some l ->
  wp (TAILQ_FOREACH_REVERSE_SAFE field q (remove_from TAILQ field fuel q) fuel)
     (fun r h' => r = Some tt /\ becomes TAILQ field U heads h (<[q := []]> A) h') h.
Proof.
  intros Hf HR Hr Hq. pose proof (list_length TAILQ field U heads HL h A q l HR Hq) as Hlen.
  assert (Hrt : forall done todo, List.rev l = done ++ todo -> roles heads (<[q := List.rev todo]> A)).
  { intros done todo Ht. destruct (Hr _ _ Hq) as [Hqh Hm]. apply sys_roles_insert; [done|done|]. intros x Hx. apply Hm.
    apply list_elem_of_In, List.in_rev. rewrite Ht. apply List.in_or_app. right. apply List.in_rev. by apply list_elem_of_In. }
  eapply wp_mono; [apply (reverse_safe_run q l _
    (fun done todo h' => List.rev l = done ++ todo /\ becomes TAILQ field U heads h (<[q := List.rev todo]> A) h'))
    with (A := A); try done|].
  - intros done todo h2 [Hl [HR2 _]]. exists (<[q := List.rev todo]> A), [].
    split; [done|]. split; [by apply (Hrt done)|]. by rewrite lookup_insert_eq, app_nil_r.
  - intros done e todo h2 Hl [_ [HR2 Ho2]]. apply wp_bind.
    eapply wp_mono; [apply (remove_run TAILQ field U heads HL fuel h2 (<[q := List.rev (e :: todo)]> A) q (List.rev todo) e [])|].
    + lia.
    + split; [done|]. split; [by apply (Hrt done)|]. by rewrite lookup_insert_eq.
    + intros r h3 [_ [HR3 Ho3]]. apply wp_ret. rewrite insert_insert_eq, app_nil_r in HR3.
      split; [by rewrite <- app_assoc|]. split; [done|]. by apply (outside_trans _ _ h h2).
  - lia.
  - split; [done|]. split; [rewrite List.rev_involutive; by rewrite insert_id|done].
  - intros r h' [-> [_ Hb]]. done.
Qed.

End Reverse.

Section Prevptr.
Context (field : Z) (U heads : gset Z).
Hypothesis HL : layout SLIST field U heads.
Abbreviation sholds := (repr (sys_shape SLIST field heads) U).

(** The body is told where the pointer to the member is. *)
Lemma prevptr_run A q l body (I : list Z -> mem -> Prop) : roles heads A -> A !! q = Some l ->
  (forall done h, I done h -> sholds h A) ->
  (forall done e todo h, l = done ++ e :: todo -> I done h -> h !! ent field heads (predecessor q done) = Some e ->
    wp (body e (ent field heads (predecessor q done))) (fun _ h' => I (done ++ [e]) h') h) ->
  forall fuel h, (length l < fuel)%nat -> I [] h ->
  wp (SLIST_FOREACH_PREVPTR field q body fuel) (fun r h' => r = Some tt /\ I l h') h.
Proof.
  intros Hr Hq HI Hbody.
  assert (Hloop : forall todo done fuel h, l = done ++ todo -> (length todo < fuel)%nat -> I done h ->
    wp (prevptr_loop field body fuel (ent field heads (predecessor q done))) (fun r h' => r = Some tt /\ I l h') h).
  { induction todo as [|e todo IH]; intros done [|fuel] h Hl Hf Hd; simpl in Hf; [lia| |lia|]; simpl prevptr_loop;
      pose proof (HI _ _ Hd) as HR; assert (Hq' := Hq); rewrite Hl in Hq';
      destruct (list_nodes SLIST field U heads HL h A q _ HR Hr Hq') as ((HqU & Hqh) & Hm & _);
      pose proof (links SLIST field U heads h A q _ _ HR Hq') as [Hn _]; simpl successor in Hn; hd q.
    - norm. step. cond. apply wp_ret. by rewrite Hl, app_nil_r.
    - member Hm e. elt e. norm. step. cond. apply wp_bind. eapply wp_mono; [by apply (Hbody done e todo)|].
      intros [] h1 Hd1. cbn beta in Hd1. replace (sle_next field e) with (ent field heads (predecessor q (done ++ [e])))
        by (rewrite predecessor_snoc; done).
      apply (IH (done ++ [e])); [by rewrite <- app_assoc|lia|done]. }
  intros fuel h Hf H0. destruct (Hr _ _ Hq) as [Hqh _]. destruct (head_facts field heads q Hqh) as [He _].
  unfold SLIST_FOREACH_PREVPTR, slh_first. rewrite <- He at 1. by apply (Hloop l []).
Qed.

End Prevptr.

(** C26. For each of the five families, any legal program of the macros the
    family offers, on any number of lists in one memory, runs without a bad
    access, returns what the operations on lists return (the end of a list is
    the null pointer, and the head for [CIRCLEQ]), leaves every list holding
    exactly its members, and writes nothing but the links of the nodes.  The
    loops inside [SLIST_REMOVE] and [STAILQ_REMOVE] end: as many rounds as
    there are nodes are enough. *)
Theorem sys_queues_refine (K : family) (field : Z) (U heads : gset Z) (h : mem) (A : queues) fuel os rs A' :
  layout K field U heads -> repr (sys_shape K field heads) U h A -> roles heads A -> (size U <= fuel)%nat ->
  ssteps K U heads A os rs A' ->
  exists h', exec_all K field fuel os h = Done rs h' /\ repr (sys_shape K field heads) U h' A' /\ roles heads A' /\
    outside (sys_shape K field heads) U h h'.
Proof.
  intros HL HR Hr Hf Hs.
  destruct (proj1 (wp_run _ _ _) (sys_exec_all_run K field U heads HL fuel h A os rs A' Hf HR Hr Hs)) as (rs' & h' & Hrun & -> & [HR' Ho] & Hr').
  eauto.
Qed.

(** C27. The loops.  [FOREACH] visits the members in order, whatever the body
    does as long as the lists are left alone.  [FOREACH_SAFE] visits them in
    order even when the body takes out the current member, links it elsewhere
    or overwrites its links: all that is asked after each round is that the
    members still to come are the end of the list (the successor is read before
    the body, so a loop that reads it from the member afterwards does not do
    this).  With removal as its body it empties the list.  The reverse loops of
    tail queues do the same from the back, and [SLIST_FOREACH_PREVPTR] gives
    the body the address of the very pointer that leads to the member.  All of
    them end after one round per member and the final test. *)
Theorem sys_queue_loops (K : family) (field : Z) (U heads : gset Z) (h : mem) (A : queues) q l :
  layout K field U heads -> repr (sys_shape K field heads) U h A -> roles heads A -> A !! q = Some l ->
  (forall body (I : list Z -> mem -> Prop) fuel,
    (forall done h1, I done h1 -> repr (sys_shape K field heads) U h1 A) ->
    (forall done e todo h1, l = done ++ e :: todo -> I done h1 ->
      exists h2, body e h1 = Done tt h2 /\ I (done ++ [e]) h2) ->
    (length l < fuel)%nat -> I [] h ->
    exists h', foreach K field fuel q body h = Done (Some tt) h' /\ I l h') /\
  (K <> CIRCLEQ -> forall body (I : list Z -> list Z -> mem -> Prop) fuel,
    (forall done todo h1, I done todo h1 -> exists A1 pre,
      repr (sys_shape K field heads) U h1 A1 /\ roles heads A1 /\ A1 !! q = Some (pre ++ todo)) ->
    (forall done e todo h1, l = done ++ e :: todo -> I done (e :: todo) h1 ->
      exists h2, body e h1 = Done tt h2 /\ I (done ++ [e]) todo h2) ->
    (length l < fuel)%nat -> I [] l h ->
    exists h', foreach_safe K field fuel q body h = Done (Some tt) h' /\ I l [] h') /\
  (K <> CIRCLEQ -> forall fuel, (size U < fuel)%nat ->
    exists h', foreach_safe K field fuel q (remove_from K field fuel q) h = Done (Some tt) h' /\
      becomes K field U heads h (<[q := []]> A) h') /\
  (K = TAILQ -> forall body (I : list Z -> mem -> Prop) fuel,
    (forall done h1, I done h1 -> repr (sys_shape K field heads) U h1 A) ->
    (forall done e todo h1, List.rev l = done ++ e :: todo -> I done h1 ->
      exists h2, body e h1 = Done tt h2 /\ I (done ++ [e]) h2) ->
    (length l < fuel)%nat -> I [] h ->
    exists h', TAILQ_FOREACH_REVERSE field q body fuel h = Done (Some tt) h' /\ I (List.rev l) h') /\
  (K = TAILQ -> forall body (I : list Z -> list Z -> mem -> Prop) fuel,
    (forall done todo h1, I done todo h1 -> exists A1 post,
      repr (sys_shape K field heads) U h1 A1 /\ roles heads A1 /\ A1 !! q = Some (List.rev todo ++ post)) ->
    (forall done e todo h1, List.rev l = done ++ e :: todo -> I done (e :: todo) h1 ->
      exists h2, body e h1 = Done tt h2 /\ I (done ++ [e]) todo h2) ->
    (length l < fuel)%nat -> I [] (List.rev l) h ->
    exists h', TAILQ_FOREACH_REVERSE_SAFE field q body fuel h = Done (Some tt) h' /\ I (List.rev l) [] h') /\
  (K = TAILQ -> forall fuel, (size U < fuel)%nat ->
    exists h', TAILQ_FOREACH_REVERSE_SAFE field q (remove_from K field fuel q) fuel h = Done (Some tt) h' /\
      becomes K field U heads h (<[q := []]> A) h') /\
  (K = SLIST -> forall body (I : list Z -> mem -> Prop) fuel,
    (forall done h1, I done h1 -> repr (sys_shape K field heads) U h1 A) ->
    (forall done e todo h1, l = done ++ e :: todo -> I done h1 ->
      h1 !! ent field heads (predecessor q done) = Some e ->
      exists h2, body e (ent field heads (predecessor q done)) h1 = Done tt h2 /\ I (done ++ [e]) h2) ->
    (length l < fuel)%nat -> I [] h ->
    exists h', SLIST_FOREACH_PREVPTR field q body fuel h = Done (Some tt) h' /\ I l h').
Proof.
  intros HL HR Hr Hq.
  assert (Hwp : forall (P : mem -> Prop) (m : M mem unit) h1, (exists h2, m h1 = Done tt h2 /\ P h2) -> wp m (fun _ => P) h1)
    by (intros P m h1 (h2 & E & HP); apply run_wp; eauto).
  repeat split.
  - intros body I fuel HI Hb Hf H0.
    destruct (proj1 (wp_run _ _ _) (foreach_run K field U heads HL A q l body I Hr Hq HI
      ltac:(eauto) fuel h Hf H0)) as (r & h' & Hrun & -> & HI'). eauto.
  - intros HK body I fuel HI Hb Hf H0.
    destruct (proj1 (wp_run _ _ _) (foreach_safe_run K field U heads HL q l body I HK HI
      ltac:(eauto) fuel h A Hf H0 HR Hr Hq)) as (r & h' & Hrun & -> & HI'). eauto.
  - intros HK fuel Hf.
    destruct (proj1 (wp_run _ _ _) (sys_drain_run K field U heads HL h A q l fuel HK Hf HR Hr Hq)) as (r & h' & Hrun & -> & HI'). eauto.
  - intros -> body I fuel HI Hb Hf H0.
    destruct (proj1 (wp_run _ _ _) (reverse_run field U heads HL A q l body I Hr Hq HI
      ltac:(eauto) fuel h Hf H0)) as (r & h' & Hrun & -> & HI'). eauto.
  - intros -> body I fuel HI Hb Hf H0.
    destruct (proj1 (wp_run _ _ _) (reverse_safe_run field U heads HL q l body I HI
      ltac:(eauto) fuel h A Hf H0 HR Hr Hq)) as (r & h' & Hrun & -> & HI'). eauto.
  - intros -> fuel Hf.
    destruct (proj1 (wp_run _ _ _) (reverse_drain_run field U heads HL h A q l fuel Hf HR Hr Hq)) as (r & h' & Hrun & -> & HI'). eauto.
  - intros -> body I fuel HI Hb Hf H0.
    destruct (proj1 (wp_run _ _ _) (prevptr_run field U heads HL A q l body I Hr Hq HI
      ltac:(eauto) fuel h Hf H0)) as (r & h' & Hrun & -> & HI'). eauto.
Qed.

(** *** Two heads and two elements whose links are 8 bytes into them *)

Definition sys_demo_U : gset Z := {[ 16; 32; 64; 96 ]}.
Definition sys_demo_heads : gset Z := {[ 16; 32 ]}.
Definition sys_demo_cells : mem := list_to_map (map (fun a => (a, 0)) [16; 24; 32; 40; 72; 80; 104; 112]).

Lemma sys_demo_U_cases x : x ∈ sys_demo_U -> x = 16 \/ x = 32 \/ x = 64 \/ x = 96.
Proof. unfold sys_demo_U. set_solver. Qed.

Lemma sys_demo_layout K : layout K 8 sys_demo_U sys_demo_heads.
Proof.
  split; [by vm_compute|]. intros x y [->|[->|[->| ->]]]%sys_demo_U_cases [->|[->|[->| ->]]]%sys_demo_U_cases Hne; try done;
    destruct K; vm_compute; intuition discriminate.
Qed.

Lemma sys_demo_repr K : repr (sys_shape K 8 sys_demo_heads) sys_demo_U sys_demo_cells ∅.
Proof.
  split; [done|done|]. intros k (x & Hx & Hk). apply elem_of_elements in Hx.
  destruct (sys_demo_U_cases x Hx) as [->|[->|[->| ->]]], Hk as [->|Hk]; destruct K; vm_compute in *; simplify_eq; eauto.
Qed.

Lemma sys_queues_refine_witness :
  exists h', exec_all TAILQ 8 4 [Init 16; Init 32; Insert_tail 16 64; Insert_before 16 64 96; Concat 32 16; Last 32; Prev 64;
      Remove 32 96; First 32; Empty 16] sys_demo_cells = Done [0; 0; 0; 0; 0; 64; 96; 0; 64; 1] h'.
Proof.
  assert (Hfree : forall B e, bool_decide (e ∈ sys_demo_U /\ ~ used B e /\ e ∉ sys_demo_heads) = true -> free_element sys_demo_U sys_demo_heads B e)
    by (intros B e Hb; exact (bool_decide_eq_true_1 _ Hb)).
  assert (Hre : forall B e, bool_decide (e ∈ sys_demo_U /\ ~ used (delete e B) e) = true -> reusable sys_demo_U B e)
    by (intros B e Hb; exact (bool_decide_eq_true_1 _ Hb)).
  edestruct (sys_queues_refine TAILQ 8 sys_demo_U sys_demo_heads sys_demo_cells ∅ 4) as (h' & Hrun & _);
    [apply sys_demo_layout|apply sys_demo_repr|done|by vm_compute| |eauto].
  eapply S_cons; [done|apply S_init; [apply Hre; by vm_compute|set_solver]|].
  eapply S_cons; [done|apply S_init; [apply Hre; by vm_compute|set_solver]|].
  eapply S_cons; [done|apply (S_insert_tail _ _ _ _ 16 [] 64); [reflexivity|apply Hfree; by vm_compute]|].
  eapply S_cons; [done|apply (S_insert_before _ _ _ _ 16 [] 64 [] 96); [reflexivity|apply Hfree; by vm_compute]|].
  eapply S_cons; [done|apply (S_concat _ _ _ _ 32 [] 16 [96; 64]); [reflexivity|reflexivity|done]|].
  eapply S_cons; [done|apply (S_last _ _ _ _ 32 [96; 64]); reflexivity|].
  eapply S_cons; [done|apply (S_prev _ _ _ _ 32 [96] 64 []); reflexivity|].
  eapply S_cons; [done|apply (S_remove _ _ _ _ 32 [] 96 [64]); reflexivity|].
  eapply S_cons; [done|apply (S_first _ _ _ _ 32 [64]); reflexivity|].
  eapply S_cons; [done|apply (S_empty _ _ _ _ 16 []); reflexivity|].
  apply S_nil.
Defined.

Definition sys_demo_list : mem :=
  list_to_map [(16, 96); (24, 72); (32, 0); (40, 32); (72, 0); (80, 104); (104, 64); (112, 16)].

(** A body that takes the member out and then clears its links, and the
    memories the loop goes through. *)
Definition scrub (e : Z) : M mem unit :=
  remove_from TAILQ 8 5 16 e ;;; store (e + 8) 0 ;;; store (e + 16) 0.
Definition scrubbed (e : Z) (h : mem) : mem := match scrub e h with Done _ h' => h' | Fault h' => h' end.
Definition sys_demo_one : mem := Eval vm_compute in scrubbed 96 sys_demo_list.
Definition sys_demo_none : mem := Eval vm_compute in scrubbed 64 sys_demo_one.

Lemma sys_demo_list_repr h l :
  (h, l) = (sys_demo_list, [96; 64]) \/ (h, l) = (sys_demo_one, [64]) \/ (h, l) = (sys_demo_none, []) ->
  repr (sys_shape TAILQ 8 sys_demo_heads) sys_demo_U h {[ 16 := l ]}.
Proof.
  intros H. split.
  - intros q l' [<- <-]%lookup_singleton_Some.
    destruct H as [[= -> ->]|[[= -> ->]|[= -> ->]]]; (split; [apply (bool_decide_unpack _); by vm_compute|]);
      (split; [apply (bool_decide_unpack _); by vm_compute|]); repeat split; try reflexivity; intros c [= <-]; reflexivity.
  - intros q1 q2 l1 l2 x [<- _]%lookup_singleton_Some [<- _]%lookup_singleton_Some. done.
  - intros k (x & Hx & Hk). apply elem_of_elements in Hx.
    destruct H as [[= -> ->]|[[= -> ->]|[= -> ->]]], (sys_demo_U_cases x Hx) as [->|[->|[->| ->]]], Hk as [->|Hk];
      vm_compute in *; simplify_eq; eauto.
Qed.

Lemma sys_demo_roles l : (forall x, x ∈ l -> x = 64 \/ x = 96) -> roles sys_demo_heads {[ 16 := l ]}.
Proof.
  intros Hl q l' [<- <-]%lookup_singleton_Some. split; [set_solver|]. intros x Hx. unfold sys_demo_heads.
  destruct (Hl x Hx) as [-> | ->]; set_solver.
Qed.

(** The safe loop clears both members; the plain loop is led astray after the
    first. *)
Lemma sys_queue_loops_witness :
  (exists h', TAILQ_FOREACH_SAFE 8 16 scrub 5 sys_demo_list = Done (Some tt) h' /\ h' = sys_demo_none) /\
  TAILQ_FOREACH 8 16 scrub 5 sys_demo_list = Done (Some tt) sys_demo_one /\ sys_demo_one <> sys_demo_none /\
  exists h', TAILQ_FOREACH_REVERSE_SAFE 8 16 (remove_from TAILQ 8 5 16) 5 sys_demo_list = Done (Some tt) h' /\
    becomes TAILQ 8 sys_demo_U sys_demo_heads sys_demo_list (<[16 := []]> {[ 16 := [96; 64] ]}) h'.
Proof.
  assert (Hr : forall l, l = [96; 64] \/ l = [64] \/ l = [] -> roles sys_demo_heads {[ 16 := l ]})
    by (intros l Hl; apply sys_demo_roles; destruct Hl as [->|[->| ->]]; set_solver).
  destruct (sys_queue_loops TAILQ 8 sys_demo_U sys_demo_heads sys_demo_list {[ 16 := [96; 64] ]} 16 [96; 64]
    (sys_demo_layout TAILQ) (sys_demo_list_repr _ _ (or_introl eq_refl)) (Hr _ (or_introl eq_refl)) eq_refl)
    as (_ & Hs & _ & _ & _ & H & _).
  split; [|split; [by vm_compute|split; [by vm_compute|apply (H eq_refl 5%nat); by vm_compute]]].
  destruct (Hs ltac:(done) scrub (fun _ todo h => (h, todo) = (sys_demo_list, [96; 64]) \/
    (h, todo) = (sys_demo_one, [64]) \/ (h, todo) = (sys_demo_none, [])) 5%nat) as (h' & E & HI).
  - intros done todo h1 HI. exists {[ 16 := todo ]}, []. split; [by apply sys_demo_list_repr|].
    split; [apply Hr; destruct HI as [[= _ ->]|[[= _ ->]|[= _ ->]]]; auto|reflexivity].
  - intros done e todo h1 _ [[= -> -> ->]|[[= -> -> ->]|[= ]]]; eexists; (split; [vm_compute; reflexivity|]); auto.
  - simpl. lia.
  - auto.
  - exists h'. split; [exact E|]. destruct HI as [[= ]|[[= ]|[= ->]]]; reflexivity.
Defined.

End SysQueueRefine.
