(* ===== verification/PriorityQueue.v ===== *)
(** * PriorityQueue: the pairing heap of
    [src/MacKernelSDK/Headers/kern/priority_queue.h]

    An entry has three words: the pointers [next] and [prev], and a word whose
    low 8 bits are the key and whose upper 56 bits are the pointer to the first
    child (the bit fields of a 64-bit platform).  The queue is one word, the
    pointer to the root with two flag bits.  [PriorityQueueSpec] has the
    theorems.  The comparison block is an argument, and so is
    [pqueue_pair_meld], which the header only declares. *)

From Stdlib Require Import ZArith Lia Bool.
From stdpp Require Import base list option gmap.
From S2P Require Import Prelude Ring.
Open Scope Z_scope.

Module PriorityQueue.

Definition PRIORITY_QUEUE_KEY_NONE : Z := 0.
Definition PRIORITY_QUEUE_BUILTIN_KEY : Z := 0x0.
Definition PRIORITY_QUEUE_GENERIC_KEY : Z := 0x1.
Definition PRIORITY_QUEUE_MAX_HEAP : Z := 0x0.
Definition PRIORITY_QUEUE_MIN_HEAP : Z := 0x2.
Definition PRIORITY_QUEUE_BUILTIN_MAX_HEAP : Z := Z.lor PRIORITY_QUEUE_MAX_HEAP PRIORITY_QUEUE_BUILTIN_KEY.
Definition PRIORITY_QUEUE_ENTRY_CHILD_BITS : Z := 56.
Definition PRIORITY_QUEUE_ENTRY_KEY_BITS : Z := 8.
Definition PRIORITY_QUEUE_ROOT_FLAGS_MASK : Z := 3.
Definition PRIORITY_QUEUE_ROOT_POINTER_MASK : Z := 2 ^ 64 - 1 - PRIORITY_QUEUE_ROOT_FLAGS_MASK.

(** ** The entry *)

Record priority_queue_entry : Type := mkEntry { next : Z; prev : Z; packed : Z }.
Definition entry (p : Z) : priority_queue_entry := mkEntry p (p + 8) (p + 16).

(** The bit fields of the third word: signed, the key first. *)
Definition key_of (w : Z) : Z :=
  let k := Z.land w 255 in if k <? 128 then k else k - 256.
Definition child_of (w : Z) : Z :=
  let c := Z.shiftr w PRIORITY_QUEUE_ENTRY_KEY_BITS in wrap64 (if c <? 2 ^ 55 then c else c - 2 ^ 56).
Definition with_key (w k : Z) : Z :=
  Z.lor (Z.shiftl (Z.shiftr w PRIORITY_QUEUE_ENTRY_KEY_BITS) PRIORITY_QUEUE_ENTRY_KEY_BITS) (Z.land k 255).
Definition with_child (w c : Z) : Z :=
  Z.lor (Z.shiftl (c mod 2 ^ PRIORITY_QUEUE_ENTRY_CHILD_BITS) PRIORITY_QUEUE_ENTRY_KEY_BITS) (Z.land w 255).

Definition get_key (qe : Z) : M mem Z := w <- load (packed (entry qe)) ;; ret (key_of w).
Definition set_key (qe k : Z) : M mem unit := w <- load (packed (entry qe)) ;; store (packed (entry qe)) (with_key w k).

Definition pqueue_entry_pack_child (qe child_ptr : Z) : M mem unit :=
  w <- load (packed (entry qe)) ;; store (packed (entry qe)) (with_child w child_ptr).
Definition pqueue_entry_unpack_child (qe : Z) : M mem Z := w <- load (packed (entry qe)) ;; ret (child_of w).

(** [assert(b)]. *)
Definition assert (b : bool) : M mem unit := if b then ret tt else fault.

(** ** Comparisons *)

Definition priority_queue_element_builtin_key_compare (e1 e2 : Z) : M mem Z :=
  k2 <- get_key e2 ;; k1 <- get_key e1 ;; ret (k2 - k1).
Definition PRIORITY_QUEUE_SCHED_PRI_MAX_HEAP_COMPARE (e1 e2 : Z) : M mem Z :=
  c <- priority_queue_element_builtin_key_compare e1 e2 ;; ret (- c).
Definition PRIORITY_QUEUE_SCHED_PRI_MIN_HEAP_COMPARE (e1 e2 : Z) : M mem Z :=
  priority_queue_element_builtin_key_compare e1 e2.

(** The comparator on elements whose links are [field] bytes into them. *)
Definition pqe_element_fast (field qe : Z) : Z := qe - field.
Definition pqe_element (field qe : Z) : Z := if negb (qe =? NULL) then pqe_element_fast field qe else NULL.
Definition priority_heap_make_comparator (field : Z) (body : Z -> Z -> M mem Z) (e1 e2 : Z) : M mem Z :=
  body (pqe_element_fast field e1) (pqe_element_fast field e2).

(** ** The head *)

Definition pq_root_packed (q : Z) : Z := q.

Definition pqueue_has_generic_keys (p : Z) : M mem bool :=
  r <- load (pq_root_packed p) ;; ret (negb (Z.land r PRIORITY_QUEUE_GENERIC_KEY =? 0)).
Definition pqueue_has_builtin_keys (p : Z) : M mem bool :=
  r <- load (pq_root_packed p) ;; ret (Z.land r PRIORITY_QUEUE_GENERIC_KEY =? 0).
Definition pqueue_is_min_heap (p : Z) : M mem bool :=
  r <- load (pq_root_packed p) ;; ret (negb (Z.land r PRIORITY_QUEUE_MIN_HEAP =? 0)).
Definition pqueue_is_max_heap (p : Z) : M mem bool :=
  r <- load (pq_root_packed p) ;; ret (Z.land r PRIORITY_QUEUE_MIN_HEAP =? 0).

Definition pqueue_pack_root (q root_ptr : Z) : M mem unit :=
  r <- load (pq_root_packed q) ;;
  let __flags := Z.land r PRIORITY_QUEUE_ROOT_FLAGS_MASK in
  store (pq_root_packed q) (Z.lor root_ptr __flags).

Definition pqueue_unpack_root (q : Z) : M mem Z :=
  r <- load (pq_root_packed q) ;; ret (Z.land r PRIORITY_QUEUE_ROOT_POINTER_MASK).

(** ** Lists of siblings *)

Definition pqueue_list_remove (elt : Z) : M mem unit :=
  p <- load (prev (entry elt)) ;;
  assert (negb (p =? NULL)) ;;;
  p <- load (prev (entry elt)) ;;
  c <- pqueue_entry_unpack_child p ;;
  (if c =? elt then
     p <- load (prev (entry elt)) ;;
     n <- load (next (entry elt)) ;;
     pqueue_entry_pack_child p n
   else
     p <- load (prev (entry elt)) ;;
     n <- load (next (entry elt)) ;;
     store (next (entry p)) n) ;;;
  n <- load (next (entry elt)) ;;
  when (negb (n =? NULL)) (
    n <- load (next (entry elt)) ;;
    p <- load (prev (entry elt)) ;;
    store (prev (entry n)) p).

Section Heap.
(** The comparison block, and the routine the header declares. *)
Context (cmp_fn : Z -> Z -> M mem Z) (pqueue_pair_meld : Z -> M mem Z).

Definition pqueue_merge (subtree_a subtree_b : Z) : M mem Z :=
  if subtree_a =? NULL then ret subtree_b
  else if (subtree_b =? NULL) || (subtree_a =? subtree_b) then ret subtree_a
  else
    c <- cmp_fn subtree_a subtree_b ;;
    let parent := if c <? 0 then subtree_b else subtree_a in
    let child := if c <? 0 then subtree_a else subtree_b in
    f <- pqueue_entry_unpack_child parent ;;
    store (next (entry child)) f ;;;
    store (prev (entry child)) parent ;;;
    f <- pqueue_entry_unpack_child parent ;;
    when (negb (f =? NULL)) (
      g <- pqueue_entry_unpack_child parent ;;
      store (prev (entry g)) child) ;;;
    pqueue_entry_pack_child parent child ;;;
    store (next (entry parent)) NULL ;;;
    store (prev (entry parent)) NULL ;;;
    ret parent.

Definition pqueue_update_key (que elt new_key : Z) : M mem unit :=
  b <- pqueue_has_builtin_keys que ;;
  if (b : bool) then assert (new_key <=? 255) ;;; set_key elt new_key
  else assert (new_key =? PRIORITY_QUEUE_KEY_NONE).

Definition pqueue_remove_root (que old_root : Z) : M mem Z :=
  new_root <- pqueue_entry_unpack_child old_root ;;
  new_root <- (if negb (new_root =? NULL) then pqueue_pair_meld new_root else ret new_root) ;;
  pqueue_pack_root que new_root ;;;
  ret old_root.

Definition pqueue_remove_non_root (que elt : Z) : M mem Z :=
  pqueue_list_remove elt ;;;
  child <- pqueue_entry_unpack_child elt ;;
  when (negb (child =? NULL)) (
    child <- pqueue_pair_meld child ;;
    r <- pqueue_unpack_root que ;;
    new_root <- pqueue_merge r child ;;
    pqueue_pack_root que new_root) ;;;
  ret elt.

(** ** The operations *)

Definition priority_queue_empty (q : Z) : M mem bool := r <- pqueue_unpack_root q ;; ret (r =? NULL).

Definition priority_queue_entry_key (q elt : Z) : M mem Z :=
  b <- pqueue_has_builtin_keys q ;;
  assert b ;;;
  k <- get_key elt ;; ret (k mod 256).

Definition priority_queue_init (q flags : Z) : M mem unit :=
  pqueue_pack_root q NULL ;;;
  store (pq_root_packed q) flags.

Definition priority_queue_entry_init (qe : Z) : M mem unit :=
  store (next (entry qe)) NULL ;;;
  store (prev (entry qe)) NULL ;;;
  pqueue_entry_pack_child qe NULL ;;;
  set_key qe PRIORITY_QUEUE_KEY_NONE.

Definition priority_queue_insert (que elt new_key : Z) : M mem bool :=
  pqueue_update_key que elt new_key ;;;
  r <- pqueue_unpack_root que ;;
  new_root <- pqueue_merge r elt ;;
  pqueue_pack_root que new_root ;;;
  ret (new_root =? elt).

Definition priority_queue_remove (que elt : Z) : M mem bool :=
  r <- pqueue_unpack_root que ;;
  if elt =? r then
    _ <- pqueue_remove_root que elt ;;
    priority_queue_entry_init elt ;;;
    ret true
  else
    _ <- pqueue_remove_non_root que elt ;;
    priority_queue_entry_init elt ;;;
    ret false.

Definition priority_queue_entry_decrease (que elt new_key : Z) : M mem bool :=
  was_root <- priority_queue_remove que elt ;;
  _ <- priority_queue_insert que elt new_key ;;
  ret was_root.

Definition priority_queue_entry_increase (que elt new_key : Z) : M mem bool :=
  r <- pqueue_unpack_root que ;;
  if elt =? r then pqueue_update_key que elt new_key ;;; ret true
  else
    pqueue_list_remove elt ;;;
    priority_queue_insert que elt new_key.

Definition priority_queue_max (field q : Z) : M mem Z :=
  b <- pqueue_is_max_heap q ;;
  assert b ;;;
  r <- pqueue_unpack_root q ;; ret (pqe_element field r).

Definition priority_queue_min (field q : Z) : M mem Z :=
  b <- pqueue_is_min_heap q ;;
  assert b ;;;
  r <- pqueue_unpack_root q ;; ret (pqe_element field r).

Definition priority_queue_max_key (q : Z) : M mem Z :=
  b <- pqueue_is_max_heap q ;;
  assert b ;;;
  r <- pqueue_unpack_root q ;; priority_queue_entry_key q r.

Definition priority_queue_remove_max (field q : Z) : M mem Z :=
  b <- pqueue_is_max_heap q ;;
  assert b ;;;
  r <- pqueue_unpack_root q ;;
  o <- pqueue_remove_root q r ;; ret (pqe_element field o).

Definition priority_queue_remove_min (field q : Z) : M mem Z :=
  b <- pqueue_is_min_heap q ;;
  assert b ;;;
  r <- pqueue_unpack_root q ;;
  o <- pqueue_remove_root q r ;; ret (pqe_element field o).

End Heap.

End PriorityQueue.
