(* ===== verification/PriorityQueueSpec.v ===== *)
(** * PriorityQueueSpec: the pairing heap keeps the element of highest rank at
    its root

    The entries of a heap form a binary tree in memory: the first child and
    the next sibling of an entry are its two sons, and both point back to it
    with [prev].  Module [PriorityQueueSpec] proves the operations of
    [PriorityQueue] against sets of elements with ranks: a rank is what the
    comparison block compares, the key of the entry or something else. *)

From Stdlib Require Import ZArith Lia Bool.
From stdpp Require Import base list option gmap.
From S2P Require Import Prelude Ring PriorityQueue.
Import PriorityQueue.
Open Scope Z_scope.

Module PriorityQueueSpec.

(** ** The third word *)

Definition canonical (p : Z) : Prop := 0 <= p < 2 ^ 55 \/ 2 ^ 64 - 2 ^ 55 <= p < 2 ^ 64.
Definition sext8 (k : Z) : Z := let b := k mod 256 in if b <? 128 then b else b - 256.

Lemma land255 z : Z.land z 255 = z mod 256.
Proof. exact (Z.land_ones z 8 ltac:(lia)). Qed.

Lemma with_child_eq w c : with_child w c = (c mod 2 ^ 56) * 256 + w mod 256.
Proof.
  unfold with_child, PRIORITY_QUEUE_ENTRY_CHILD_BITS, PRIORITY_QUEUE_ENTRY_KEY_BITS.
  rewrite land255, Z.shiftl_mul_pow2 by lia.
  apply (lor_fields _ (c mod 2 ^ 56) (w mod 256) 8); [lia| |done]. apply Z.mod_pos_bound. lia.
Qed.

Lemma with_key_eq w k : with_key w k = (w / 256) * 256 + k mod 256.
Proof.
  unfold with_key, PRIORITY_QUEUE_ENTRY_KEY_BITS.
  rewrite land255, Z.shiftl_mul_pow2, Z.shiftr_div_pow2 by lia.
  apply (lor_fields _ (w / 256) (k mod 256) 8); [lia| |done]. apply Z.mod_pos_bound. lia.
Qed.

Lemma key_of_eq w : key_of w = sext8 w.
Proof. unfold key_of, sext8. by rewrite land255. Qed.

Lemma child_of_eq w : child_of w = wrap64 (if w / 256 <? 2 ^ 55 then w / 256 else w / 256 - 2 ^ 56).
Proof. unfold child_of, PRIORITY_QUEUE_ENTRY_KEY_BITS. by rewrite Z.shiftr_div_pow2 by lia. Qed.

Lemma join_div a b : 0 <= b < 256 -> (a * 256 + b) / 256 = a.
Proof. intros Hb. rewrite Z.div_add_l, Z.div_small by lia. lia. Qed.
Lemma join_mod a b : 0 <= b < 256 -> (a * 256 + b) mod 256 = b.
Proof. intros Hb. rewrite Z.add_comm, Z.mod_add, Z.mod_small by lia. lia. Qed.

Lemma sext8_mod z : sext8 (z mod 256) = sext8 z.
Proof. unfold sext8. by rewrite Z.mod_mod. Qed.

(** The two bit fields are independent, and a kernel pointer survives. *)
Lemma packing w c k : 0 <= w < 2 ^ 64 ->
  (0 <= with_child w c < 2 ^ 64 /\ 0 <= with_key w k < 2 ^ 64) /\
  (canonical c -> child_of (with_child w c) = c) /\ key_of (with_child w c) = key_of w /\
  child_of (with_key w k) = child_of w /\ key_of (with_key w k) = sext8 k.
Proof.
  intros Hw. rewrite !child_of_eq, !key_of_eq, with_child_eq, with_key_eq.
  pose proof (Z.mod_pos_bound w 256 ltac:(lia)) as Hm. pose proof (Z.mod_pos_bound k 256 ltac:(lia)) as Hk.
  pose proof (Z.mod_pos_bound c (2 ^ 56) ltac:(lia)) as Hc. pose proof (Z.div_mod w 256 ltac:(lia)) as Hd.
  rewrite !join_div by done.
  assert (Hs : forall a b, 0 <= b < 256 -> sext8 (a * 256 + b) = sext8 b)
    by (intros a b Hb; rewrite <- sext8_mod, join_mod by done; done).
  rewrite !Hs, !sext8_mod by done. split; [split; lia|]. split; [|done].
  intros [Hc1|Hc1].
  - rewrite (Z.mod_small c) by lia. rewrite (proj2 (Z.ltb_lt c (2 ^ 55))) by lia. apply wrap64_small. lia.
  - replace (c mod 2 ^ 56) with (c - 2 ^ 64 + 2 ^ 56)
      by (apply (Z.mod_unique_pos c (2 ^ 56) 255); lia).
    rewrite (proj2 (Z.ltb_ge _ _)) by lia. unfold wrap64. replace (c - 2 ^ 64 + 2 ^ 56 - 2 ^ 56) with (c + (-1) * 2 ^ 64) by lia.
    rewrite Z.mod_add, Z.mod_small by lia. done.
Qed.

(** The root word. *)
Lemma land3 z : Z.land z 3 = z mod 4.
Proof. exact (Z.land_ones z 2 ltac:(lia)). Qed.

Lemma root_word r fl : 0 <= r < 2 ^ 64 -> r mod 4 = 0 -> 0 <= fl < 4 ->
  Z.land (Z.lor r fl) PRIORITY_QUEUE_ROOT_POINTER_MASK = r /\ Z.land (Z.lor r fl) PRIORITY_QUEUE_ROOT_FLAGS_MASK = fl.
Proof.
  intros Hr Hm Hf. assert (Hq : r = (r / 4) * 2 ^ 2) by (pose proof (Z.div_mod r 4); lia).
  rewrite (lor_fields r (r / 4) fl 2) by (done || lia). unfold PRIORITY_QUEUE_ROOT_POINTER_MASK, PRIORITY_QUEUE_ROOT_FLAGS_MASK.
  split.
  - assert (Hn : Z.land (r + fl) (Z.lnot 3) = r).
    { rewrite <- Z.ldiff_land. change 3 with (Z.ones 2). rewrite Z.ldiff_ones_r, Z.shiftl_mul_pow2, Z.shiftr_div_pow2 by lia.
      rewrite Hq at 1. rewrite Z.div_add_l, (Z.div_small fl) by lia. lia. }
    rewrite <- Hn at 2. apply Z.bits_inj'. intros n Hn0. rewrite !Z.land_spec.
    destruct (Z.lt_ge_cases n 64) as [Hl|Hl].
    + f_equal. replace (2 ^ 64 - 1 - 3) with (Z.lnot 3 mod 2 ^ 64) by reflexivity. by rewrite Z.mod_pow2_bits_low.
    + rewrite <- (Z.mod_small (r + fl) (2 ^ 64)) by lia. by rewrite Z.mod_pow2_bits_high by lia.
  - rewrite land3, Hq. change (2 ^ 2) with 4. rewrite Z.add_comm, Z.mod_add, Z.mod_small by lia. done.
Qed.

(** ** Memory as fields of entries *)

Definition nextat (h : mem) (x : Z) : Z := cellat h x.
Definition prevat (h : mem) (x : Z) : Z := cellat h (x + 8).
Definition childat (h : mem) (x : Z) : Z := child_of (cellat h (x + 16)).
Definition keyat (h : mem) (x : Z) : Z := key_of (cellat h (x + 16)).

Definition setnext (h : mem) (x v : Z) : mem := <[x := v]> h.
Definition setprev (h : mem) (x v : Z) : mem := <[x + 8 := v]> h.
Definition setchild (h : mem) (x c : Z) : mem := <[x + 16 := with_child (cellat h (x + 16)) c]> h.
Definition setkey (h : mem) (x k : Z) : mem := <[x + 16 := with_key (cellat h (x + 16)) k]> h.

(** ** Trees *)

(** [Bin x c s]: the entry [x], its children [c] and its siblings [s] behind it. *)
Inductive btree : Type := Leaf | Bin (x : Z) (c s : btree).

#[global] Instance btree_eq_dec : EqDecision btree.
Proof. solve_decision. Defined.

Definition hd (t : btree) : Z := match t with Leaf => NULL | Bin x _ _ => x end.

Fixpoint nodes (t : btree) : list Z :=
  match t with Leaf => [] | Bin x c s => x :: nodes c ++ nodes s end.

(** Memory holds the siblings [t] behind [p]. *)
Fixpoint at_ (h : mem) (p : Z) (t : btree) : Prop :=
  match t with
  | Leaf => True
  | Bin x c s => nextat h x = hd s /\ prevat h x = p /\ childat h x = hd c /\ at_ h x c /\ at_ h x s
  end.

(** A whole heap: a root, whose [next] and [prev] are not used. *)
Definition top (h : mem) (t : btree) : Prop :=
  match t with
  | Leaf => True
  | Bin r c s => s = Leaf /\ childat h r = hd c /\ at_ h r c
  end.

(** No entry has a higher rank than its parent, which is [p]. *)
Fixpoint heap (rk : Z -> Z) (p : Z) (t : btree) : Prop :=
  match t with
  | Leaf => True
  | Bin x c s => rk x <= rk p /\ heap rk x c /\ heap rk p s
  end.

(** The same for siblings whatever their parent is. *)
Fixpoint forest (rk : Z -> Z) (t : btree) : Prop :=
  match t with
  | Leaf => True
  | Bin x c s => heap rk x c /\ forest rk s
  end.

Definition is_top (t : btree) : Prop := match t with Leaf => True | Bin _ _ s => s = Leaf end.

Lemma at_ext h h' t : forall p,
  (forall x, x ∈ nodes t -> nextat h' x = nextat h x /\ prevat h' x = prevat h x /\ childat h' x = childat h x) ->
  at_ h p t -> at_ h' p t.
Proof.
  induction t as [|x c IHc s IHs]; intros p Hf; simpl; [done|]. intros (H1 & H2 & H3 & Hc & Hs).
  destruct (Hf x) as (-> & -> & ->); [simpl; set_solver|].
  split_and!; try done; [apply IHc|apply IHs]; try done; intros y Hy; apply Hf; simpl; set_solver.
Qed.

(** The siblings get another predecessor. *)
Lemma at_moved h h' p p' t :
  (forall x, x ∈ nodes t -> nextat h' x = nextat h x /\ childat h' x = childat h x /\
    prevat h' x = if decide (x = hd t) then p' else prevat h x) ->
  NoDup (nodes t) -> at_ h p t -> at_ h' p' t.
Proof.
  destruct t as [|x c s]; simpl; [done|]. intros Hf [Hx Hnd]%NoDup_cons (H1 & H2 & H3 & Hc & Hs).
  destruct (Hf x) as (-> & -> & ->); [set_solver|]. rewrite decide_True by done.
  split_and!; try done; (eapply at_ext; [|done]); intros y Hy; destruct (Hf y) as (? & ? & E); [set_solver| |set_solver|];
    (rewrite decide_False in E by set_solver); done.
Qed.

Lemma heap_ext rk rk' t : forall p, rk' p = rk p -> (forall x, x ∈ nodes t -> rk' x = rk x) -> heap rk p t -> heap rk' p t.
Proof.
  induction t as [|x c IHc s IHs]; intros p Hp Hf; simpl; [done|]. intros (H1 & Hc & Hs).
  assert (Hx : rk' x = rk x) by (apply Hf; simpl; set_solver). rewrite Hp, Hx.
  split; [done|]. split; [apply IHc|apply IHs]; try done; intros y Hy; apply Hf; simpl; set_solver.
Qed.

Lemma heap_forest rk p t : heap rk p t -> forest rk t.
Proof. revert p. induction t as [|x c _ s IHs]; intros p; simpl; [done|]. intros (_ & ? & ?). eauto. Qed.

(** A higher rank of the parent does no harm. *)
Lemma heap_raise rk rk' p t : rk p <= rk' p -> (forall x, x ∈ nodes t -> rk' x = rk x) -> heap rk p t -> heap rk' p t.
Proof.
  intros Hle. induction t as [|x c _ s IHs]; simpl; [done|]. intros Hf (H1 & Hc & Hs).
  assert (Hx : rk' x = rk x) by (apply Hf; set_solver). split; [lia|]. split; [|apply IHs; [set_solver|done]].
  apply (heap_ext rk); [done|intros y Hy; apply Hf; set_solver|done].
Qed.

Lemma forest_ext f g t : (forall x, x ∈ nodes t -> g x = f x) -> forest f t -> forest g t.
Proof.
  induction t as [|x c _ s IH]; simpl; [done|]. intros Hf [Hc Hs]. split; [|apply IH; set_solver].
  apply (heap_ext f); [apply Hf; set_solver|intros y Hy; apply Hf; set_solver|done].
Qed.

(** The root of a heap is the greatest. *)
Lemma heap_max rk t : forall p x, heap rk p t -> x ∈ nodes t -> rk x <= rk p.
Proof.
  induction t as [|y c IHc s IHs]; intros p x; simpl; [by intros _ ?%not_elem_of_nil|]. intros (Hy & Hc & Hs).
  rewrite elem_of_cons, elem_of_app. intros [->|[Hx|Hx]]; [done| |eauto]. specialize (IHc y x Hc Hx). lia.
Qed.

(** ** Taking an entry out of its list of siblings *)

(** [e] goes with its children, its siblings stay. *)
Fixpoint cut (e : Z) (t : btree) : btree :=
  match t with
  | Leaf => Leaf
  | Bin x c s => if decide (x = e) then s else Bin x (cut e c) (cut e s)
  end.

(** The children of [e]. *)
Fixpoint kids (e : Z) (t : btree) : btree :=
  match t with
  | Leaf => Leaf
  | Bin x c s => if decide (x = e) then c else match kids e c with Leaf => kids e s | k => k end
  end.

Lemma nodup_bin x c s : NoDup (nodes (Bin x c s)) -> NoDup (nodes c) /\ NoDup (nodes s).
Proof. simpl. rewrite NoDup_cons, NoDup_app. tauto. Qed.

Lemma kids_notin e t : e ∉ nodes t -> kids e t = Leaf /\ cut e t = t.
Proof.
  induction t as [|x c IHc s IHs]; simpl; [done|]. rewrite not_elem_of_cons, not_elem_of_app. intros (Hx & Hc & Hs).
  rewrite !decide_False by done. destruct IHc as [-> ->]; [done|]. by destruct IHs as [-> ->].
Qed.

(** Where the children and the rest are. *)
Lemma kids_cases e x c s : NoDup (nodes (Bin x c s)) -> e ∈ nodes (Bin x c s) ->
  (x = e /\ kids e (Bin x c s) = c /\ cut e (Bin x c s) = s) \/
  (x <> e /\ e ∈ nodes c /\ kids e (Bin x c s) = kids e c /\ cut e (Bin x c s) = Bin x (cut e c) s) \/
  (x <> e /\ e ∈ nodes s /\ kids e (Bin x c s) = kids e s /\ cut e (Bin x c s) = Bin x c (cut e s)).
Proof.
  simpl. rewrite NoDup_cons, NoDup_app. intros (Hx & Hc & Hd & Hs) He. rewrite elem_of_cons, elem_of_app in He.
  destruct (decide (x = e)) as [->|Hne]; [by left|]. right. destruct He as [->|[He|He]]; [done| |].
  - left. destruct (kids_notin e s (Hd e He)) as [-> ->]. split_and!; try done. by destruct (kids e c).
  - right. assert (Hn : e ∉ nodes c) by (intros Hc'; by apply (Hd e)). destruct (kids_notin e c Hn) as [-> ->]. done.
Qed.

Lemma kids_nodes e t : NoDup (nodes t) -> e ∈ nodes t -> nodes t ≡ₚ e :: nodes (kids e t) ++ nodes (cut e t).
Proof.
  induction t as [|x c IHc s IHs]; [by intros _ ?%not_elem_of_nil|]. intros Hnd He.
  destruct (nodup_bin x c s Hnd) as [Hc Hs].
  destruct (kids_cases e x c s Hnd He) as [(<- & -> & ->)|[(_ & Hi & -> & ->)|(_ & Hi & -> & ->)]]; simpl; [done| |].
  - rewrite (IHc Hc Hi) at 1. solve_Permutation.
  - rewrite (IHs Hs Hi) at 1. solve_Permutation.
Qed.

Lemma cut_heap rk e t : forall p, heap rk p t -> heap rk p (cut e t).
Proof.
  induction t as [|x c IHc s IHs]; intros p; simpl; [done|]. intros (H1 & Hc & Hs). destruct (decide _); simpl; auto.
Qed.

Lemma kids_heap rk e t : forall p, heap rk p t -> heap rk e (kids e t).
Proof.
  induction t as [|x c IHc s IHs]; intros p; simpl; [done|]. intros (H1 & Hc & Hs).
  destruct (decide (x = e)) as [->|]; [done|]. specialize (IHc _ Hc). destruct (kids e c); [eauto|done].
Qed.

Lemma kids_at h e t : forall p, NoDup (nodes t) -> e ∈ nodes t -> at_ h p t ->
  childat h e = hd (kids e t) /\ at_ h e (kids e t).
Proof.
  induction t as [|x c IHc s IHs]; intros p; [by intros _ ?%not_elem_of_nil|]. intros Hnd He Hat.
  destruct (nodup_bin x c s Hnd) as [Hc Hs].
  destruct Hat as (H1 & H2 & H3 & Ha & Hb).
  destruct (kids_cases e x c s Hnd He) as [(<- & -> & _)|[(_ & Hi & -> & _)|(_ & Hi & -> & _)]]; eauto.
Qed.

(** Links of a tree stay inside it. *)
Lemma hd_in t : hd t = NULL \/ hd t ∈ nodes t.
Proof. destruct t; simpl; [by left|right; set_solver]. Qed.

Lemma links_in h t : forall p x, at_ h p t -> x ∈ nodes t ->
  (nextat h x = NULL \/ nextat h x ∈ nodes t) /\ (childat h x = NULL \/ childat h x ∈ nodes t).
Proof.
  induction t as [|y c IHc s IHs]; intros p x; simpl; [by intros _ ?%not_elem_of_nil|].
  intros (H1 & H2 & H3 & Hc & Hs). rewrite elem_of_cons, elem_of_app. intros [->|[Hx|Hx]].
  - rewrite H1, H3. destruct (hd_in c), (hd_in s); split; set_solver.
  - destruct (IHc _ _ Hc Hx) as [[?|?] [?|?]]; split; set_solver.
  - destruct (IHs _ _ Hs Hx) as [[?|?] [?|?]]; split; set_solver.
Qed.

(** [prev] undoes [next] and [child]. *)
Lemma hd_prev h p t : at_ h p t -> hd t <> NULL -> prevat h (hd t) = p.
Proof. destruct t; [done|]. by intros (_ & ? & _). Qed.

Lemma links_prev h t : forall p x, at_ h p t -> x ∈ nodes t ->
  (nextat h x <> NULL -> prevat h (nextat h x) = x) /\ (childat h x <> NULL -> prevat h (childat h x) = x).
Proof.
  induction t as [|y c IHc s IHs]; intros p x; simpl; [by intros _ ?%not_elem_of_nil|].
  intros (H1 & H2 & H3 & Hc & Hs). rewrite elem_of_cons, elem_of_app. intros [->|[Hx|Hx]]; [|eauto|eauto].
  rewrite H1, H3. split; by apply hd_prev.
Qed.

(** An entry is the head of the list or linked from its predecessor, in one way. *)
Lemma pred_links h t : forall p e, NoDup (nodes t) -> (forall x, x ∈ nodes t -> x <> NULL) -> at_ h p t -> e ∈ nodes t ->
  e = hd t /\ prevat h e = p \/
  (prevat h e ∈ nodes t /\ prevat h e <> e) /\
    (childat h (prevat h e) = e /\ nextat h (prevat h e) <> e \/ childat h (prevat h e) <> e /\ nextat h (prevat h e) = e).
Proof.
  induction t as [|y c IHc s IHs]; intros p e; simpl; [by intros _ _ _ ?%not_elem_of_nil|].
  rewrite NoDup_cons, NoDup_app. intros (Hy & Hnc & Hd & Hns) Hnn (H1 & H2 & H3 & Hc & Hs) He.
  rewrite elem_of_cons, elem_of_app in He. destruct He as [->|[He|He]]; [by left| |]; right.
  - destruct (IHc y e) as [[-> Hp]|[[Hp Hq] Hl]]; [done|intros; apply Hnn; set_solver|done|done| |split; [split; [set_solver|done]|done]].
    rewrite Hp. split; [split; [set_solver|intros ->; set_solver]|left]. split; [done|]. rewrite H1. intros E.
    destruct (hd_in s) as [E'|E']; [by apply (Hnn (hd c)); [set_solver|congruence]|]. apply (Hd (hd c)); [done|congruence].
  - destruct (IHs y e) as [[-> Hp]|[[Hp Hq] Hl]]; [done|intros; apply Hnn; set_solver|done|done| |split; [split; [set_solver|done]|done]].
    rewrite Hp. split; [split; [set_solver|intros ->; set_solver]|right]. split; [|done]. rewrite H3. intros E.
    destruct (hd_in c) as [E'|E']; [by apply (Hnn (hd s)); [set_solver|congruence]|]. apply (Hd (hd s)); [congruence|done].
Qed.

Lemma next_cut h e t : forall p, NoDup (nodes t) -> e ∈ nodes t -> at_ h p t -> nextat h e = NULL \/ nextat h e ∈ nodes (cut e t).
Proof.
  induction t as [|x c IHc s IHs]; intros p; [by intros _ ?%not_elem_of_nil|]. intros Hnd He Hat.
  destruct (nodup_bin x c s Hnd) as [Hc Hs].
  destruct Hat as (H1 & H2 & H3 & Ha & Hb).
  destruct (kids_cases e x c s Hnd He) as [(<- & _ & ->)|[(_ & Hi & _ & ->)|(_ & Hi & _ & ->)]].
  - rewrite H1. apply hd_in.
  - destruct (IHc x) as [?|?]; [done|done|done|by left|right; simpl; set_solver].
  - destruct (IHs x) as [?|?]; [done|done|done|by left|right; simpl; set_solver].
Qed.

Lemma hd_cut h p e t : e <> NULL -> at_ h p t -> hd (cut e t) = if decide (hd t = e) then nextat h e else hd t.
Proof.
  intros He. destruct t as [|x c s]; simpl; [by destruct (decide _)|]. intros (H1 & _). destruct (decide (x = e)) as [->|]; done.
Qed.

(** The links around [e] bypass it: the rest is the tree without it. *)
Lemma cut_at h h' e t : forall p,
  (forall x, x ∈ nodes t -> x <> e ->
    nextat h' x = (if decide (nextat h x = e) then nextat h e else nextat h x) /\
    childat h' x = (if decide (childat h x = e) then nextat h e else childat h x) /\
    prevat h' x = (if decide (x = nextat h e) then prevat h e else prevat h x)) ->
  (forall x, x ∈ nodes t -> x = nextat h e -> prevat h x = e) ->
  e <> NULL -> p <> e -> NoDup (nodes t) -> (forall x, x ∈ nodes t -> x <> NULL) -> at_ h p t -> at_ h' p (cut e t).
Proof.
  induction t as [|x c IHc s IHs]; intros p Hf Hn He Hp Hnd Hnn; [done|]. intros (H1 & H2 & H3 & Hc & Hs).
  simpl in Hnd. rewrite NoDup_cons, NoDup_app, not_elem_of_app in Hnd. destruct Hnd as ((Hxc & Hxs) & Hnc & Hd & Hns).
  assert (Hi : forall y, y ∈ nodes c \/ y ∈ nodes s -> y ∈ nodes (Bin x c s)) by (intros y Hy; simpl; by rewrite elem_of_cons, elem_of_app; auto).
  assert (Hx : x ∈ nodes (Bin x c s)) by by left. simpl. destruct (decide (x = e)) as [->|Hxe].
  - apply (at_moved h _ e); [|done|done]. intros y Hy. destruct (links_in _ _ _ _ Hs Hy) as [Hy1 Hy2].
    destruct (Hf y) as (-> & -> & ->); [auto|by intros ->|].
    rewrite (decide_False (P := nextat h y = e)) by (intros E; rewrite E in Hy1; tauto).
    rewrite (decide_False (P := childat h y = e)) by (intros E; rewrite E in Hy2; tauto). by rewrite H1, H2.
  - destruct (Hf x Hx Hxe) as (E1 & E2 & E3).
    cbn [at_]. rewrite E1, E2, E3, H1, H2, H3, (decide_False (P := x = nextat h e)) by (intros E; specialize (Hn x Hx E); congruence).
    rewrite (hd_cut h x e c), (hd_cut h x e s) by done. do 3 (split; [done|]).
    split; [apply IHc|apply IHs]; auto.
Qed.

Section Queue.
(** The entries in use and the head of the queue. *)
Context (U : gset Z) (q : Z).

Record layout : Prop := mkLayout {
  lay_apart x y : x ∈ U -> y ∈ U -> x <> y -> 24 <= Z.abs (x - y);
  lay_head x : x ∈ U -> x + 24 <= q \/ q + 8 <= x;
  lay_entry x : x ∈ U -> 0 < x < 2 ^ 64 /\ x mod 4 = 0 /\ canonical x
}.

(** The cells of the entries and of the head are mapped. *)
Definition mapped (h : mem) : Prop := is_Some (h !! q) /\ forall x, x ∈ U ->
  is_Some (h !! x) /\ is_Some (h !! (x + 8)) /\ exists w, h !! (x + 16) = Some w /\ 0 <= w < 2 ^ 64.

Definition setroot (h : mem) (v : Z) : mem := <[q := v]> h.

Hypothesis HL : layout.

Lemma word_range h x : mapped h -> x ∈ U -> 0 <= cellat h (x + 16) < 2 ^ 64.
Proof. intros [_ Hm] Hx. destruct (Hm x Hx) as (_ & _ & w & Hw & Hr). unfold cellat. by rewrite Hw. Qed.

(** Different cells of different entries. *)
Ltac cells x y := let E := fresh in
  destruct (decide (x = y)) as [->|E]; [|pose proof (lay_apart HL x y ltac:(assumption) ltac:(assumption) E)].
Ltac fields := intros; unfold nextat, prevat, childat, keyat, setnext, setprev, setchild, setkey, setroot;
  rewrite ?cellat_insert; repeat match goal with |- context [decide ?P] => destruct (decide P); try lia end; try done.

Lemma next_setnext h x v y : nextat (setnext h x v) y = if decide (x = y) then v else nextat h y.
Proof. fields. Qed.
Lemma prev_setnext h x v y : x ∈ U -> y ∈ U -> prevat (setnext h x v) y = prevat h y.
Proof. intros. cells x y; fields. Qed.
Lemma child_setnext h x v y : x ∈ U -> y ∈ U -> childat (setnext h x v) y = childat h y.
Proof. intros. cells x y; fields. Qed.
Lemma key_setnext h x v y : x ∈ U -> y ∈ U -> keyat (setnext h x v) y = keyat h y.
Proof. intros. cells x y; fields. Qed.

Lemma next_setprev h x v y : x ∈ U -> y ∈ U -> nextat (setprev h x v) y = nextat h y.
Proof. intros. cells x y; fields. Qed.
Lemma prev_setprev h x v y : prevat (setprev h x v) y = if decide (x = y) then v else prevat h y.
Proof. fields. Qed.
Lemma child_setprev h x v y : x ∈ U -> y ∈ U -> childat (setprev h x v) y = childat h y.
Proof. intros. cells x y; fields. Qed.
Lemma key_setprev h x v y : x ∈ U -> y ∈ U -> keyat (setprev h x v) y = keyat h y.
Proof. intros. cells x y; fields. Qed.

Lemma next_setchild h x v y : x ∈ U -> y ∈ U -> nextat (setchild h x v) y = nextat h y.
Proof. intros. cells x y; fields. Qed.
Lemma prev_setchild h x v y : x ∈ U -> y ∈ U -> prevat (setchild h x v) y = prevat h y.
Proof. intros. cells x y; fields. Qed.
Lemma child_setchild h x v y : mapped h -> x ∈ U -> canonical v ->
  childat (setchild h x v) y = if decide (x = y) then v else childat h y.
Proof.
  intros Hm Hx Hv. unfold childat, setchild. rewrite cellat_insert.
  destruct (decide (x = y)) as [->|Hne]; [rewrite decide_True by done|by rewrite decide_False by lia].
  by apply (packing _ v 0 (word_range h y Hm Hx)).
Qed.
Lemma key_setchild h x v y : mapped h -> x ∈ U -> keyat (setchild h x v) y = keyat h y.
Proof.
  intros Hm Hx. unfold keyat, setchild. rewrite cellat_insert. destruct (decide _) as [E|]; [|done].
  replace y with x by lia. by apply (packing _ v 0 (word_range h x Hm Hx)).
Qed.

Lemma next_setkey h x v y : x ∈ U -> y ∈ U -> nextat (setkey h x v) y = nextat h y.
Proof. intros. cells x y; fields. Qed.
Lemma prev_setkey h x v y : x ∈ U -> y ∈ U -> prevat (setkey h x v) y = prevat h y.
Proof. intros. cells x y; fields. Qed.
Lemma child_setkey h x v y : mapped h -> x ∈ U -> childat (setkey h x v) y = childat h y.
Proof.
  intros Hm Hx. unfold childat, setkey. rewrite cellat_insert. destruct (decide _) as [E|]; [|done].
  replace y with x by lia. by apply (packing _ 0 v (word_range h x Hm Hx)).
Qed.
Lemma key_setkey h x v y : mapped h -> x ∈ U -> keyat (setkey h x v) y = if decide (x = y) then sext8 v else keyat h y.
Proof.
  intros Hm Hx. unfold keyat, setkey. rewrite cellat_insert.
  destruct (decide (x = y)) as [->|Hne]; [rewrite decide_True by done|by rewrite decide_False by lia].
  by apply (packing _ 0 v (word_range h y Hm Hx)).
Qed.

Lemma fields_setroot h v y : y ∈ U ->
  nextat (setroot h v) y = nextat h y /\ prevat (setroot h v) y = prevat h y /\
  childat (setroot h v) y = childat h y /\ keyat (setroot h v) y = keyat h y.
Proof. intros Hy. pose proof (lay_head HL y Hy). split_and!; fields. Qed.

Lemma root_set h x v : x ∈ U ->
  cellat (setnext h x v) q = cellat h q /\ cellat (setprev h x v) q = cellat h q /\
  cellat (setchild h x v) q = cellat h q /\ cellat (setkey h x v) q = cellat h q.
Proof. intros Hx. pose proof (lay_head HL x Hx). split_and!; fields. Qed.

(** Writing fields keeps everything mapped. *)
Lemma mapped_write h a v : mapped h -> (forall x, x ∈ U -> a = x + 16 -> 0 <= v < 2 ^ 64) -> mapped (<[a := v]> h).
Proof.
  intros [Hq Hm] Hv. split; [by apply is_Some_insert|]. intros x Hx. destruct (Hm x Hx) as (H1 & H2 & w & Hw & Hr).
  split; [by apply is_Some_insert|]. split; [by apply is_Some_insert|].
  destruct (decide (a = x + 16)) as [->|Hne].
  - exists v. rewrite lookup_insert_eq. eauto.
  - exists w. by rewrite lookup_insert_ne.
Qed.

Lemma mapped_setnext h x v : mapped h -> x ∈ U -> mapped (setnext h x v).
Proof. intros Hm Hx. apply mapped_write; [done|]. intros y Hy E. cells x y; lia. Qed.
Lemma mapped_setprev h x v : mapped h -> x ∈ U -> mapped (setprev h x v).
Proof. intros Hm Hx. apply mapped_write; [done|]. intros y Hy E. cells x y; lia. Qed.
Lemma mapped_setchild h x v : mapped h -> x ∈ U -> mapped (setchild h x v).
Proof. intros Hm Hx. apply mapped_write; [done|]. intros y Hy E. by apply (packing _ v 0 (word_range h x Hm Hx)). Qed.
Lemma mapped_setkey h x v : mapped h -> x ∈ U -> mapped (setkey h x v).
Proof. intros Hm Hx. apply mapped_write; [done|]. intros y Hy E. by apply (packing _ 0 v (word_range h x Hm Hx)). Qed.
Lemma mapped_setroot h v : mapped h -> mapped (setroot h v).
Proof. intros Hm. apply mapped_write; [done|]. intros y Hy E. pose proof (lay_head HL y Hy). lia. Qed.

(** *** The accesses of the code *)

Lemma some_cellat h a : is_Some (h !! a) -> h !! a = Some (cellat h a).
Proof. unfold cellat. by intros [v ->]. Qed.

Lemma wp_next h x (Q : Z -> mem -> Prop) : mapped h -> x ∈ U -> Q (nextat h x) h -> wp (load (next (entry x))) Q h.
Proof. intros [_ Hm] Hx. apply wp_load, some_cellat. by apply Hm. Qed.
Lemma wp_prev h x (Q : Z -> mem -> Prop) : mapped h -> x ∈ U -> Q (prevat h x) h -> wp (load (prev (entry x))) Q h.
Proof. intros [_ Hm] Hx. apply wp_load, some_cellat. by apply Hm. Qed.
Lemma wp_word h x (Q : Z -> mem -> Prop) : mapped h -> x ∈ U -> Q (cellat h (x + 16)) h -> wp (load (packed (entry x))) Q h.
Proof. intros [_ Hm] Hx. apply wp_load, some_cellat. destruct (Hm x Hx) as (_ & _ & w & Hw & _). eauto. Qed.
Lemma wp_child h x (Q : Z -> mem -> Prop) : mapped h -> x ∈ U -> Q (childat h x) h -> wp (pqueue_entry_unpack_child x) Q h.
Proof. intros Hm Hx H. apply wp_bind, wp_word; [done|done|]. exact H. Qed.
Lemma wp_key h x (Q : Z -> mem -> Prop) : mapped h -> x ∈ U -> Q (keyat h x) h -> wp (get_key x) Q h.
Proof. intros Hm Hx H. apply wp_bind, wp_word; [done|done|]. exact H. Qed.
Lemma wp_root h (Q : Z -> mem -> Prop) : mapped h -> Q (cellat h q) h -> wp (load (pq_root_packed q)) Q h.
Proof. intros [Hq _]. by apply wp_load, some_cellat. Qed.

Lemma wp_setnext h x v (Q : unit -> mem -> Prop) : mapped h -> x ∈ U -> Q tt (setnext h x v) -> wp (store (next (entry x)) v) Q h.
Proof. intros [_ Hm] Hx. apply wp_store. by apply Hm. Qed.
Lemma wp_setprev h x v (Q : unit -> mem -> Prop) : mapped h -> x ∈ U -> Q tt (setprev h x v) -> wp (store (prev (entry x)) v) Q h.
Proof. intros [_ Hm] Hx. apply wp_store. by apply Hm. Qed.
Lemma wp_setchild h x v (Q : unit -> mem -> Prop) : mapped h -> x ∈ U -> Q tt (setchild h x v) -> wp (pqueue_entry_pack_child x v) Q h.
Proof.
  intros Hm Hx H. apply wp_bind, wp_word; [done|done|]. apply wp_store; [|exact H].
  destruct Hm as [_ Hm]. destruct (Hm x Hx) as (_ & _ & w & Hw & _). eauto.
Qed.
Lemma wp_setkey h x v (Q : unit -> mem -> Prop) : mapped h -> x ∈ U -> Q tt (setkey h x v) -> wp (set_key x v) Q h.
Proof.
  intros Hm Hx H. apply wp_bind, wp_word; [done|done|]. apply wp_store; [|exact H].
  destruct Hm as [_ Hm]. destruct (Hm x Hx) as (_ & _ & w & Hw & _). eauto.
Qed.
Lemma wp_setroot h v (Q : unit -> mem -> Prop) : mapped h -> Q tt (setroot h v) -> wp (store (pq_root_packed q) v) Q h.
Proof. intros [Hq _]. by apply wp_store. Qed.

(** ** Steps

    What a piece of code may do: change the links of the entries [l], and
    nothing else. *)
Record step (h h' : mem) (l : list Z) : Prop := mkStep {
  step_mapped : mapped h';
  step_key x : x ∈ U -> keyat h' x = keyat h x;
  step_links x : x ∈ U -> x ∉ l -> nextat h' x = nextat h x /\ prevat h' x = prevat h x /\ childat h' x = childat h x;
  step_root : cellat h' q = cellat h q;
  step_out k : k <> q -> (forall x, x ∈ U -> k <> x /\ k <> x + 8 /\ k <> x + 16) -> h' !! k = h !! k
}.

Lemma step_refl h l : mapped h -> step h h l.
Proof. by split. Qed.

Lemma step_trans h1 h2 h3 l1 l2 l : step h1 h2 l1 -> step h2 h3 l2 -> l1 ++ l2 ⊆ l -> step h1 h3 l.
Proof.
  intros [A1 A2 A3 A4 A5] [B1 B2 B3 B4 B5] Hl. split.
  - done.
  - intros x Hx. by rewrite B2, A2.
  - intros x Hx Hn. destruct (A3 x Hx) as (<- & <- & <-); [set_solver|]. apply B3; [done|set_solver].
  - by rewrite B4.
  - intros k Hk Hu. by rewrite B5, A5.
Qed.

Lemma out_cell h x a v k : x ∈ U -> a = x \/ a = x + 8 \/ a = x + 16 ->
  (forall y, y ∈ U -> k <> y /\ k <> y + 8 /\ k <> y + 16) -> (<[a := v]> h : mem) !! k = h !! k.
Proof. intros Hx Ha Hk. destruct (Hk x Hx) as (? & ? & ?). apply lookup_insert_ne. destruct Ha as [->|[->| ->]]; auto. Qed.

Ltac one_field h x := split; [|intros y Hy|intros y Hy Hn; apply not_elem_of_cons in Hn as [Hn _]| |intros k Hk Hu; apply (out_cell h x); auto].

Lemma step_setnext h x v : mapped h -> x ∈ U -> step h (setnext h x v) [x].
Proof.
  intros Hm Hx. one_field h x; [by apply mapped_setnext|by apply key_setnext| |by apply root_set].
  rewrite next_setnext, prev_setnext, child_setnext by done. by rewrite decide_False.
Qed.
Lemma step_setprev h x v : mapped h -> x ∈ U -> step h (setprev h x v) [x].
Proof.
  intros Hm Hx. one_field h x; [by apply mapped_setprev|by apply key_setprev| |by apply root_set].
  rewrite next_setprev, prev_setprev, child_setprev by done. by rewrite decide_False.
Qed.
Lemma step_setchild h x v : mapped h -> x ∈ U -> canonical v -> step h (setchild h x v) [x].
Proof.
  intros Hm Hx Hv. one_field h x; [by apply mapped_setchild|by apply key_setchild| |by apply root_set].
  rewrite next_setchild, prev_setchild, child_setchild by done. by rewrite decide_False.
Qed.

(** ** Running the code *)

Lemma canonical_null : canonical NULL.
Proof. left. unfold NULL. lia. Qed.
Lemma canonical_entry x : x ∈ U -> canonical x.
Proof. intros Hx. by apply (lay_entry HL). Qed.
Lemma entry_nonnull x : x ∈ U -> (x =? NULL) = false.
Proof. intros Hx. apply Z.eqb_neq. pose proof (lay_entry HL x Hx). unfold NULL. lia. Qed.
Lemma canonical_hd t : (forall x, x ∈ nodes t -> x ∈ U) -> canonical (hd t).
Proof. intros Ht. destruct t; [apply canonical_null|]. apply canonical_entry, Ht. simpl. set_solver. Qed.

Ltac mp := repeat match goal with
  | |- mapped ?h => is_var h; assumption
  | |- mapped (setnext _ _ _) => apply mapped_setnext
  | |- mapped (setprev _ _ _) => apply mapped_setprev
  | |- mapped (setchild _ _ _) => apply mapped_setchild
  | |- mapped (setkey _ _ _) => apply mapped_setkey
  | |- mapped (setroot _ _) => apply mapped_setroot
  | |- _ => assumption
  end.
Ltac can := first [assumption | apply canonical_null | apply canonical_entry; assumption].
(** Reads fields through writes. *)
Ltac look := repeat first
  [ rewrite next_setnext | rewrite prev_setprev | rewrite prev_setnext by assumption | rewrite child_setnext by assumption
  | rewrite key_setnext by assumption | rewrite next_setprev by assumption | rewrite child_setprev by assumption
  | rewrite key_setprev by assumption | rewrite next_setchild by assumption | rewrite prev_setchild by assumption
  | rewrite child_setchild by (mp || can) | rewrite key_setchild by (mp || can)
  | rewrite next_setkey by assumption | rewrite prev_setkey by assumption | rewrite child_setkey by mp | rewrite key_setkey by mp ].
(** Settles the tests of addresses. *)
Ltac dec := repeat match goal with
  | |- context [decide (?a = ?b)] =>
      first [rewrite (decide_True (P := a = b)) by congruence | rewrite (decide_False (P := a = b)) by congruence]
  end.
Ltac go := first
  [ match goal with |- wp (bind _ _) _ _ => apply wp_bind; go end
  | match goal with |- wp (load (next _)) _ _ => apply wp_next; [mp|assumption|] end
  | match goal with |- wp (load (prev _)) _ _ => apply wp_prev; [mp|assumption|] end
  | match goal with |- wp (load (pq_root_packed _)) _ _ => apply wp_root; [mp|] end
  | match goal with |- wp (pqueue_entry_unpack_child _) _ _ => apply wp_child; [mp|assumption|] end
  | match goal with |- wp (get_key _) _ _ => apply wp_key; [mp|assumption|] end
  | match goal with |- wp (store (next _) _) _ _ => apply wp_setnext; [mp|assumption|] end
  | match goal with |- wp (store (prev _) _) _ _ => apply wp_setprev; [mp|assumption|] end
  | match goal with |- wp (store (pq_root_packed _) _) _ _ => apply wp_setroot; [mp|] end
  | match goal with |- wp (pqueue_entry_pack_child _ _) _ _ => apply wp_setchild; [mp|assumption|] end
  | match goal with |- wp (set_key _ _) _ _ => apply wp_setkey; [mp|assumption|] end
  | match goal with |- wp (ret _) _ _ => apply wp_ret end ].

(** A chain of writes is a step. *)
Ltac steps := repeat match goal with
  | |- step ?h (setnext ?h1 ?x ?v) _ => eapply step_trans; [|apply step_setnext; [mp|assumption]|reflexivity]
  | |- step ?h (setprev ?h1 ?x ?v) _ => eapply step_trans; [|apply step_setprev; [mp|assumption]|reflexivity]
  | |- step ?h (setchild ?h1 ?x ?v) _ => eapply step_trans; [|apply step_setchild; [mp|assumption|can]|reflexivity]
  | |- step ?h ?h _ => apply (step_refl h []); assumption
  end.

Lemma step_sub h h' l l' : step h h' l -> l ⊆ l' -> step h h' l'.
Proof. intros [A1 A2 A3 A4 A5] Hl. split; [done|done| |done|done]. intros x Hx Hn. apply A3; [done|]. set_solver. Qed.

(** The end of [pqueue_merge]: [child] becomes the first child of [parent]. *)
Definition link (parent child : Z) : M mem Z :=
  f <- pqueue_entry_unpack_child parent ;;
  store (next (entry child)) f ;;;
  store (prev (entry child)) parent ;;;
  f <- pqueue_entry_unpack_child parent ;;
  when (negb (f =? NULL)) (
    g <- pqueue_entry_unpack_child parent ;;
    store (prev (entry g)) child) ;;;
  pqueue_entry_pack_child parent child ;;;
  store (next (entry parent)) NULL ;;;
  store (prev (entry parent)) NULL ;;;
  ret parent.

Lemma link_run h p cp x cx : mapped h -> top h (Bin p cp Leaf) -> top h (Bin x cx Leaf) ->
  NoDup (nodes (Bin p cp Leaf) ++ nodes (Bin x cx Leaf)) ->
  (forall y, y ∈ nodes (Bin p cp Leaf) ++ nodes (Bin x cx Leaf) -> y ∈ U) ->
  wp (link p x) (fun r h' => r = p /\ top h' (Bin p (Bin x cx cp) Leaf) /\
    step h h' (nodes (Bin p cp Leaf) ++ nodes (Bin x cx Leaf))) h.
Proof.
  simpl nodes. rewrite !app_nil_r. simpl app. intros Hm (_ & Hcp & Hap) (_ & Hcx & Hax) Hnd HU.
  assert (HpU : p ∈ U) by (apply HU; set_solver). assert (HxU : x ∈ U) by (apply HU; set_solver).
  rewrite NoDup_cons, NoDup_app, NoDup_cons in Hnd. destruct Hnd as (Hp & Hndp & Hd & Hx & _).
  assert (Hpx : p <> x) by set_solver.
  assert (Hcx' : forall y, y ∈ nodes cx -> y ∈ U /\ y <> p /\ y <> x /\ y <> hd cp).
  { intros y Hy. split; [apply HU; set_solver|]. split; [set_solver|]. split; [set_solver|].
    destruct cp as [|y1 ? ?]; simpl; [|intros ->; apply (Hd y1); [simpl|]; set_solver].
    intros ->. assert (NULL ∈ U) as Hn by (apply HU; set_solver). apply (lay_entry HL) in Hn. unfold NULL in Hn. lia. }
  assert (Hcp' : forall y, y ∈ nodes cp -> y ∈ U /\ y <> p /\ y <> x) by (intros y Hy; split; [apply HU; set_solver|set_solver]).
  unfold link. do 4 go. look. rewrite Hcp.
  destruct cp as [|y1 c1 s1]; cbn [hd].
  - rewrite Z.eqb_refl. cbn [negb when]. repeat go. split; [done|]. split.
    + simpl. look. dec. split_and!; try done. eapply at_ext; [|exact Hax].
      intros y Hy. destruct (Hcx' y Hy) as (? & ? & ? & _). look. by dec.
    + eapply step_sub; [steps|]. set_solver.
  - assert (Hy1U : y1 ∈ U) by (apply Hcp'; simpl; set_solver).
    assert (y1 <> p /\ y1 <> x) as [Hy1p Hy1x] by (apply Hcp'; simpl; set_solver).
    rewrite entry_nonnull by done. cbn [negb when]. go. look. rewrite Hcp. cbn [hd]. repeat go. split; [done|]. split.
    + split; [done|]. split; [look; by dec|]. do 4 (split; [look; by dec|] || split).
      * eapply at_ext; [|exact Hax]. intros y Hy. destruct (Hcx' y Hy) as (? & ? & ? & ?). look. cbn [hd] in *. by dec.
      * apply (at_moved h _ p x (Bin y1 c1 s1)); [|done|done].
        intros y Hy. destruct (Hcp' y Hy) as (? & ? & ?). look. cbn [hd]. dec.
        split; [done|]. split; [done|]. destruct (decide (y1 = y)) as [->|Hne]; by dec.
    + eapply step_sub; [steps|]. set_solver.
Qed.

(** The trees the code works on: in memory, ordered, of entries in use. *)
Definition tree (h : mem) (rk : Z -> Z) (t : btree) : Prop :=
  top h t /\ forest rk t /\ NoDup (nodes t) /\ forall x, x ∈ nodes t -> x ∈ U.

Lemma tree_leaf h f : tree h f Leaf.
Proof. split; [done|]. split; [done|]. split; [apply NoDup_nil_2|by intros ? ?%not_elem_of_nil]. Qed.

Lemma nodes_hd t : hd t <> NULL -> hd t ∈ nodes t.
Proof. destruct t; [done|]. simpl. set_solver. Qed.

Lemma nodes_perm_U t l : nodes t ≡ₚ l -> NoDup l -> (forall x, x ∈ l -> x ∈ U) ->
  NoDup (nodes t) /\ forall x, x ∈ nodes t -> x ∈ U.
Proof. intros Hp Hnd HU. split; [by rewrite Hp|]. intros x. rewrite Hp. apply HU. Qed.

(** *** [pqueue_list_remove] *)

(** What it leaves: the predecessor of [e] linked to its successor. *)
Definition bypass (h : mem) (e : Z) : mem :=
  let h1 := if decide (childat h (prevat h e) = e) then setchild h (prevat h e) (nextat h e)
            else setnext h (prevat h e) (nextat h e) in
  if decide (nextat h e = NULL) then h1 else setprev h1 (nextat h e) (prevat h e).

Definition null_or_entry (x : Z) : Prop := x = NULL \/ x ∈ U.

Lemma null_or_entry_canonical x : null_or_entry x -> canonical x.
Proof. intros [->|Hx]; can. Qed.

Lemma bypass_run h e (Q : unit -> mem -> Prop) : mapped h -> e ∈ U -> prevat h e ∈ U -> prevat h e <> e ->
  null_or_entry (nextat h e) -> Q tt (bypass h e) -> wp (pqueue_list_remove e) Q h.
Proof.
  intros Hm He Hp Hpe Hn HQ. unfold pqueue_list_remove. go. rewrite entry_nonnull by done. cbn [negb assert]. do 3 go.
  unfold bypass in HQ. apply wp_bind.
  assert (Hcan : canonical (nextat h e)) by by apply null_or_entry_canonical.
  destruct (decide (childat h (prevat h e) = e)) as [E|E];
    [rewrite (proj2 (Z.eqb_eq _ _)) by done|rewrite (proj2 (Z.eqb_neq _ _)) by done]; do 3 go; cbn beta; go; look; dec.
  all: destruct (decide (nextat h e = NULL)) as [E'|E'].
  all: try (rewrite (proj2 (Z.eqb_eq _ _)) by exact E'; cbn [negb when]; by apply wp_ret).
  all: rewrite (proj2 (Z.eqb_neq _ _)) by done; cbn [negb when]; do 2 go; look; dec.
  all: apply wp_setprev; [mp|by destruct Hn|exact HQ].
Qed.

Lemma bypass_step h e l : mapped h -> prevat h e ∈ U -> null_or_entry (nextat h e) ->
  prevat h e ∈ l -> (nextat h e <> NULL -> nextat h e ∈ l) -> step h (bypass h e) l.
Proof.
  intros Hm Hp Hn Hpl Hnl. pose proof (null_or_entry_canonical _ Hn) as Hcan. unfold bypass.
  destruct (decide (nextat h e = NULL)) as [E'|E'].
  - eapply (step_sub _ _ [prevat h e]); [|set_solver]. destruct (decide _); [by apply step_setchild|by apply step_setnext].
  - destruct Hn as [|Hn]; [done|]. eapply (step_sub _ _ ([prevat h e] ++ [nextat h e])); [|set_solver].
    eapply step_trans; [|apply step_setprev|done]; [|destruct (decide _); mp|done].
    destruct (decide _); [by apply step_setchild|by apply step_setnext].
Qed.

Lemma bypass_links h e x : mapped h -> prevat h e ∈ U -> null_or_entry (nextat h e) -> x ∈ U ->
  nextat (bypass h e) x = (if decide (prevat h e = x /\ childat h (prevat h e) <> e) then nextat h e else nextat h x) /\
  childat (bypass h e) x = (if decide (prevat h e = x /\ childat h (prevat h e) = e) then nextat h e else childat h x) /\
  prevat (bypass h e) x = (if decide (x = nextat h e) then prevat h e else prevat h x).
Proof.
  intros Hm Hp Hn Hx. pose proof (null_or_entry_canonical _ Hn) as Hcan.
  assert (Hx0 : x <> NULL) by (intros ->; by apply entry_nonnull in Hx). unfold bypass.
  destruct (decide (nextat h e = NULL)) as [E'|E'].
  - rewrite (decide_False (P := x = nextat h e)) by congruence.
    destruct (decide (childat h (prevat h e) = e)) as [E|E]; look.
    + rewrite decide_False by tauto. split; [done|]. split; [|done].
      destruct (decide (prevat h e = x)) as [<-|]; [by rewrite decide_True|by rewrite decide_False by tauto].
    + rewrite (decide_False (P := _ /\ _ = e)) by tauto. split; [|done].
      destruct (decide (prevat h e = x)) as [<-|]; [by rewrite decide_True|by rewrite decide_False by tauto].
  - destruct Hn as [|Hn]; [done|]. destruct (decide (childat h (prevat h e) = e)) as [E|E]; look.
    + rewrite decide_False by tauto. split; [done|]. split.
      * destruct (decide (prevat h e = x)) as [<-|]; [by rewrite decide_True|by rewrite decide_False by tauto].
      * destruct (decide (nextat h e = x)), (decide (x = nextat h e)); congruence.
    + rewrite (decide_False (P := _ /\ _ = e)) by tauto. split; [|split; [done|]].
      * destruct (decide (prevat h e = x)) as [<-|]; [by rewrite decide_True|by rewrite decide_False by tauto].
      * destruct (decide (nextat h e = x)), (decide (x = nextat h e)); congruence.
Qed.

Section Unlink.
(** A heap with the root [r], and an entry [e] below it. *)
Context (h : mem) (r : Z) (c : btree) (e : Z) (Hm : mapped h) (Hrc : childat h r = hd c) (Hat : at_ h r c)
  (Hr : r ∉ nodes c) (Hnd : NoDup (nodes c)) (HU : forall x, x ∈ r :: nodes c -> x ∈ U) (He : e ∈ nodes c).

Lemma below_U x : x ∈ nodes c -> x ∈ U.
Proof using HU. clear - HU. intros Hx. apply HU. by right. Qed.

Lemma below_nonnull x : x ∈ nodes c -> x <> NULL.
Proof using HL HU. clear - HL HU. intros Hx%below_U ->. by apply entry_nonnull in Hx. Qed.

(** The neighbours of [e]. *)
Lemma below_ready : prevat h e ∈ r :: nodes c /\ prevat h e ∈ U /\ prevat h e <> e /\
  (nextat h e = NULL \/ nextat h e ∈ nodes c) /\ null_or_entry (nextat h e).
Proof using All.
  destruct (links_in h c r e Hat He) as [Hn _]. pose proof (pred_links h c r e Hnd below_nonnull Hat He) as Hpred.
  assert (Hp : prevat h e ∈ r :: nodes c /\ prevat h e <> e).
  { destruct Hpred as [[_ ->]|[[? ?] _]]; split; try done; [by left|by intros ->|by right]. }
  destruct Hp. split_and!; auto. destruct Hn; [by left|right; by apply below_U].
Qed.

Lemma bypass_siblings x : x ∈ nodes c -> x <> e ->
  nextat (bypass h e) x = (if decide (nextat h x = e) then nextat h e else nextat h x) /\
  childat (bypass h e) x = (if decide (childat h x = e) then nextat h e else childat h x) /\
  prevat (bypass h e) x = (if decide (x = nextat h e) then prevat h e else prevat h x).
Proof using All.
  intros Hx Hxe. destruct below_ready as (_ & Hp & _ & _ & Hn). pose proof (below_nonnull e He) as Hne.
  pose proof (pred_links h c r e Hnd below_nonnull Hat He) as Hpred.
  destruct (bypass_links h e x) as (-> & -> & ->); [done|done|done|by apply below_U|].
  destruct (links_prev h c r x Hat Hx) as [L1 L2]. split; [|split; [|done]].
  - destruct (decide (nextat h x = e)) as [E|E].
    + rewrite E in L1. specialize (L1 Hne). rewrite decide_True; [done|]. split; [done|].
      destruct Hpred as [[_ Er]|[_ [[_ F]|[F _]]]]; [|congruence|done]. destruct Hr. by rewrite <- Er, L1.
    + rewrite decide_False; [done|]. intros [<- F]. destruct Hpred as [[Eh Er]|[_ [[F' _]|[_ F']]]]; [|done|done].
      apply Hr. by rewrite <- Er.
  - destruct (decide (childat h x = e)) as [E|E].
    + rewrite E in L2. specialize (L2 Hne). rewrite decide_True; [done|]. split; [done|congruence].
    + rewrite decide_False; [done|]. intros [<- F]. done.
Qed.

Lemma bypass_rest : top (bypass h e) (Bin r (cut e c) Leaf).
Proof using All.
  destruct below_ready as (_ & Hp & Hpe & _ & Hn). pose proof (below_nonnull e He) as Hne.
  destruct (links_prev h c r e Hat He) as [Hnp _].
  destruct (bypass_links h e r) as (_ & E & _); [done|done|done|apply HU; by left|].
  split; [done|]. split.
  - rewrite E, Hrc, (hd_cut h r e c) by done. destruct (decide (hd c = e)) as [Eh|Eh].
    + assert (prevat h e = r) as -> by (rewrite <- Eh; apply hd_prev; congruence). by rewrite Hrc, decide_True.
    + rewrite decide_False; [done|]. intros [<- F]. congruence.
  - apply (cut_at h); try done; [exact bypass_siblings| |by intros ->|exact below_nonnull].
    intros x Hx ->. apply Hnp. by apply below_nonnull.
Qed.

Lemma bypass_kids : top (bypass h e) (Bin e (kids e c) Leaf).
Proof using All.
  destruct below_ready as (_ & Hp & Hpe & _ & Hn). pose proof (below_nonnull e He) as Hne.
  destruct (bypass_links h e e) as (_ & E & _); [done|done|done|by apply below_U|].
  destruct (kids_at h e c r Hnd He Hat) as [K1 K2]. split; [done|]. split.
  { rewrite E, decide_False; [done|]. by intros [? _]. }
  pose proof (kids_nodes e c Hnd He) as Hperm. pose proof Hnd as Hnd'.
  rewrite Hperm, NoDup_cons, NoDup_app in Hnd'. destruct Hnd' as (Hk & _ & Hd & _). rewrite not_elem_of_app in Hk.
  apply (at_ext h); [|done]. intros x Hx. assert (Hxc : x ∈ nodes c) by (rewrite Hperm, elem_of_cons, elem_of_app; auto).
  assert (Hxe : x <> e) by (intros ->; tauto).
  destruct (bypass_siblings x Hxc Hxe) as (-> & -> & ->). destruct (links_in _ _ _ _ K2 Hx) as [J1 J2].
  rewrite (decide_False (P := nextat h x = e)) by (intros F; rewrite F in J1; tauto).
  rewrite (decide_False (P := childat h x = e)) by (intros F; rewrite F in J2; tauto).
  split; [done|]. split; [|done]. rewrite decide_False; [done|]. intros ->.
  destruct (next_cut h e c r Hnd He Hat) as [F|F]; [by apply (below_nonnull (nextat h e))|by apply (Hd (nextat h e))].
Qed.

End Unlink.

(** The entry leaves with its children, as a heap of its own. *)
Lemma list_remove_run h f r c e : mapped h -> tree h f (Bin r c Leaf) -> e ∈ nodes c ->
  wp (pqueue_list_remove e) (fun _ h' => tree h' f (Bin r (cut e c) Leaf) /\ tree h' f (Bin e (kids e c) Leaf) /\
    step h h' (nodes (Bin r c Leaf))) h.
Proof.
  intros Hm ((_ & Hrc & Hat) & (Hheap & _) & Hnd & HU) He. simpl nodes in *. rewrite app_nil_r in *.
  apply NoDup_cons in Hnd as [Hr Hnd].
  destruct (below_ready h r c e) as (Hp & HpU & Hpe & Hn & HnU); try done.
  pose proof (kids_nodes e c Hnd He) as Hperm.
  apply bypass_run; try done; [by apply (below_U r c)|]. split; [|split].
  - split; [by apply bypass_rest|]. split; [split; [by apply cut_heap|done]|]. simpl. rewrite app_nil_r.
    rewrite Hperm in Hnd, Hr. rewrite NoDup_cons, NoDup_app in Hnd. rewrite NoDup_cons.
    split; [split; [|tauto]|]; [intros F; apply Hr; set_solver|]. intros x Hx. apply HU. rewrite Hperm. set_solver.
  - split; [by apply (bypass_kids h r)|]. split; [split; [by apply (kids_heap f e c r)|done]|]. simpl. rewrite app_nil_r.
    rewrite Hperm in Hnd. rewrite NoDup_cons, NoDup_app, not_elem_of_app in Hnd. rewrite NoDup_cons.
    split; [tauto|]. intros x Hx. apply HU. rewrite Hperm. set_solver.
  - apply bypass_step; try done. intros ?. right. by destruct Hn.
Qed.

(** ** Comparisons and ranks *)

(** Memory that is neither the head nor an entry is the same. *)
Definition outside (h h' : mem) : Prop :=
  forall k, k <> q -> (forall x, x ∈ U -> k <> x /\ k <> x + 8 /\ k <> x + 16) -> h' !! k = h !! k.

(** What the code relies on a comparison block for: it changes nothing, it
    returns a negative number exactly if the first entry ranks below the
    second, and the rank of an entry depends on its key and on memory that
    does not belong to the heap. *)
Class Ranked (cmp_fn : Z -> Z -> M mem Z) (rk : mem -> Z -> Z) : Prop := {
  cmp_run h a b : mapped h -> a ∈ U -> b ∈ U -> exists v, cmp_fn a b h = Done v h /\ (v < 0 <-> rk h a < rk h b);
  rk_same h h' x : x ∈ U -> keyat h' x = keyat h x -> outside h h' -> rk h' x = rk h x
}.

(** What an operation may do: change the links of the entries [l], the keys of
    the entries [K], and the head. *)
Record effect (h h' : mem) (l K : list Z) : Prop := mkEffect {
  eff_key x : x ∈ U -> x ∉ K -> keyat h' x = keyat h x;
  eff_links x : x ∈ U -> x ∉ l -> nextat h' x = nextat h x /\ prevat h' x = prevat h x /\ childat h' x = childat h x;
  eff_out : outside h h'
}.

Lemma effect_refl h l K : effect h h l K.
Proof. by split. Qed.
Lemma effect_trans h1 h2 h3 l1 K1 l2 K2 l K : effect h1 h2 l1 K1 -> effect h2 h3 l2 K2 -> l1 ++ l2 ⊆ l -> K1 ++ K2 ⊆ K ->
  effect h1 h3 l K.
Proof.
  intros [A1 A2 A3] [B1 B2 B3] Hl HK. split.
  - intros x Hx Hn. rewrite B1, A1; [done|done|set_solver|done|set_solver].
  - intros x Hx Hn. destruct (A2 x Hx) as (<- & <- & <-); [set_solver|]. apply B2; [done|set_solver].
  - intros k Hk Hu. by rewrite B3, A3.
Qed.
Lemma step_effect h h' l : step h h' l -> effect h h' l [].
Proof. intros [A1 A2 A3 A4 A5]. split; [by intros; apply A2|done|exact A5]. Qed.
Lemma setroot_effect h v : effect h (setroot h v) [] [].
Proof.
  split; [intros x Hx _; by apply fields_setroot|intros x Hx _; by destruct (fields_setroot h v x Hx) as (? & ? & ? & _)|].
  intros k Hk _. by apply lookup_insert_ne.
Qed.

Lemma tree_effect h h' f t l K : effect h h' l K -> (forall x, x ∈ nodes t -> x ∉ l) -> tree h f t -> tree h' f t.
Proof.
  intros He Hl (H1 & H2 & H3 & HU). split; [|done].
  assert (Hx : forall x, x ∈ nodes t -> nextat h' x = nextat h x /\ prevat h' x = prevat h x /\ childat h' x = childat h x)
    by (intros x Hx; apply (eff_links _ _ _ _ He); auto).
  destruct t as [|r c s]; [done|]. destruct H1 as (-> & Hc & Hat). split; [done|].
  destruct (Hx r) as (_ & _ & ->); [by left|]. split; [done|]. apply (at_ext h); [|done]. intros x Hi. apply Hx. simpl. set_solver.
Qed.

Lemma effect_sub h h' l l' K K' : effect h h' l K -> l ⊆ l' -> K ⊆ K' -> effect h h' l' K'.
Proof. intros [A1 A2 A3] Hl HK. split; [|intros; apply A2; auto|done]. intros x Hx Hn. apply A1; auto. Qed.

Section Compare.
Context (cmp_fn : Z -> Z -> M mem Z) (rk : mem -> Z -> Z) {HR : Ranked cmp_fn rk}.

Lemma step_rk h h' l x : step h h' l -> x ∈ U -> rk h' x = rk h x.
Proof. intros Hs Hx. apply rk_same; [done|by apply (step_key _ _ _ Hs)|]. exact (step_out _ _ _ Hs). Qed.

(** The two trees become one, the root of lower rank the first child of the
    other. *)
Lemma merge_run h f a b : mapped h -> tree h f a -> tree h f b -> (forall x, x ∈ nodes a ++ nodes b -> f x = rk h x) ->
  (forall x, x ∈ nodes a -> x ∉ nodes b) ->
  wp (pqueue_merge cmp_fn (hd a) (hd b)) (fun r h' => exists t, r = hd t /\ tree h' f t /\
    nodes t ≡ₚ nodes a ++ nodes b /\ step h h' (nodes a ++ nodes b)) h.
Proof.
  intros Hm (Hta & Hfa & Hna & HUa) (Htb & Hfb & Hnb & HUb) Hrk Hab. unfold pqueue_merge.
  destruct a as [|x cx sx].
  { cbn [hd]. rewrite Z.eqb_refl. apply wp_ret. exists b. split_and!; first [done | by apply step_refl]. }
  cbn [hd]. assert (HxU : x ∈ U) by (apply HUa; simpl; set_solver). rewrite (entry_nonnull x) by done.
  destruct b as [|y cy sy].
  { cbn [hd]. rewrite Z.eqb_refl. cbn [orb]. apply wp_ret. exists (Bin x cx sx). rewrite app_nil_r. split_and!; first [done | by apply step_refl]. }
  cbn [hd]. assert (HyU : y ∈ U) by (apply HUb; simpl; set_solver). rewrite (entry_nonnull y) by done.
  assert (Hne : x <> y) by (intros ->; apply (Hab y); simpl; set_solver). rewrite (proj2 (Z.eqb_neq x y)) by done. cbn [orb].
  destruct Hta as (-> & Hta), Htb as (-> & Htb). destruct Hfa as [Hfa _], Hfb as [Hfb _].
  assert (Hfx : f x = rk h x) by (apply Hrk; simpl; set_solver). assert (Hfy : f y = rk h y) by (apply Hrk; simpl; set_solver).
  assert (Hnd : NoDup (nodes (Bin x cx Leaf) ++ nodes (Bin y cy Leaf))) by (apply NoDup_app; auto).
  assert (HU : forall z, z ∈ nodes (Bin x cx Leaf) ++ nodes (Bin y cy Leaf) -> z ∈ U) by (intros z [?|?]%elem_of_app; auto).
  apply wp_bind. destruct (cmp_run h x y Hm HxU HyU) as (v & Hv & Hlt). unfold wp at 1. rewrite Hv.
  destruct (v <? 0) eqn:E; [apply Z.ltb_lt, Hlt in E|apply Z.ltb_ge in E].
  - eapply wp_mono; [apply (link_run h y cy x cx); [done|by split|by split|by rewrite Permutation_app_comm|]|].
    { intros z Hz. apply HU. by rewrite Permutation_app_comm. }
    intros r h' (-> & Ht & Hs). exists (Bin y (Bin x cx cy) Leaf). split; [done|].
    assert (Hp : nodes (Bin y (Bin x cx cy) Leaf) ≡ₚ nodes (Bin x cx Leaf) ++ nodes (Bin y cy Leaf))
      by (simpl; solve_Permutation).
    destruct (nodes_perm_U _ _ Hp Hnd HU) as [??]. split; [|split; [done|eapply step_sub; [exact Hs|clear; set_solver]]].
    split; [done|]. split; [|done]. simpl. split_and!; try done. lia.
  - eapply wp_mono; [apply (link_run h x cx y cy); [done|by split|by split|done|done]|].
    intros r h' (-> & Ht & Hs). exists (Bin x (Bin y cy cx) Leaf). split; [done|].
    assert (Hp : nodes (Bin x (Bin y cy cx) Leaf) ≡ₚ nodes (Bin x cx Leaf) ++ nodes (Bin y cy Leaf))
      by (simpl; solve_Permutation).
    destruct (nodes_perm_U _ _ Hp Hnd HU) as [??]. split; [|done].
    split; [done|]. split; [|done]. simpl. split_and!; try done. lia.
Qed.

(** ** Queues *)

(** What [pqueue_pair_meld] promises: the siblings become one tree. *)
Class Melds (pair_meld : Z -> M mem Z) : Prop :=
  meld_run h f p t : mapped h -> at_ h p t -> forest f t -> NoDup (nodes t) -> (forall x, x ∈ nodes t -> x ∈ U) ->
    t <> Leaf -> (forall x, x ∈ nodes t -> f x = rk h x) ->
    wp (pair_meld (hd t)) (fun r h' => exists t', r = hd t' /\ tree h' f t' /\ nodes t' ≡ₚ nodes t /\ step h h' (nodes t)) h.

Context (pqueue_pair_meld : Z -> M mem Z) {HM : Melds pqueue_pair_meld} (fl : Z) (Hfl : 0 <= fl < 4).

Definition queue (h : mem) (f : Z -> Z) (t : btree) : Prop := mapped h /\ tree h f t /\ cellat h q = Z.lor (hd t) fl.

Lemma hd_root t : (forall x, x ∈ nodes t -> x ∈ U) -> 0 <= hd t < 2 ^ 64 /\ hd t mod 4 = 0.
Proof.
  intros HU. destruct t as [|x c s]; [simpl; unfold NULL; split; [lia|done]|].
  destruct (lay_entry HL x) as (? & ? & _); [apply HU; simpl; set_solver|]. simpl. lia.
Qed.

Lemma wp_unpack_root h f t (Q : Z -> mem -> Prop) : queue h f t -> Q (hd t) h -> wp (pqueue_unpack_root q) Q h.
Proof.
  intros (Hm & (_ & _ & _ & HU) & Hw) HQ. unfold pqueue_unpack_root. go. apply wp_ret. rewrite Hw.
  destruct (hd_root t HU) as [H1 H2]. by rewrite (proj1 (root_word (hd t) fl H1 H2 Hfl)).
Qed.

Lemma wp_pack_root h t v (Q : unit -> mem -> Prop) : mapped h -> (forall x, x ∈ nodes t -> x ∈ U) -> cellat h q = Z.lor (hd t) fl ->
  Q tt (setroot h (Z.lor v fl)) -> wp (pqueue_pack_root q v) Q h.
Proof.
  intros Hm HU Hw HQ. unfold pqueue_pack_root. go. rewrite Hw.
  destruct (hd_root t HU) as [H1 H2]. rewrite (proj2 (root_word (hd t) fl H1 H2 Hfl)). by apply wp_setroot.
Qed.

(** A flag of the head. *)
Lemma flag_word r b : 0 <= r < 2 ^ 64 -> r mod 4 = 0 -> 0 <= b < 4 -> Z.land (Z.lor r fl) b = Z.land fl b.
Proof.
  intros Hr Hm Hb. assert (Z.land 3 b = b) as <-.
  { rewrite Z.land_comm, land3. by apply Z.mod_small. }
  destruct (root_word r fl Hr Hm Hfl) as [_ E]. unfold PRIORITY_QUEUE_ROOT_FLAGS_MASK in E.
  rewrite !Z.land_assoc, E, land3. by rewrite Z.mod_small.
Qed.

Lemma setroot_queue h f t : mapped h -> tree h f t -> queue (setroot h (Z.lor (hd t) fl)) f t.
Proof.
  intros Hm Ht. split; [by apply mapped_setroot|]. split.
  - apply (tree_effect h _ f t _ _ (setroot_effect h _)); [intros; apply not_elem_of_nil|done].
  - unfold setroot. rewrite cellat_insert. by rewrite decide_True.
Qed.

(** The tree is replaced by another one. *)
Lemma repack_run h0 h f t0 t (Q : unit -> mem -> Prop) l : queue h0 f t0 -> step h0 h l -> tree h f t ->
  (forall h', queue h' f t -> effect h0 h' l [] -> Q tt h') ->
  wp (pqueue_pack_root q (hd t)) Q h.
Proof.
  intros (Hm0 & (_ & _ & _ & HU0) & Hw) Hs Ht HQ. pose proof (step_mapped _ _ _ Hs) as Hm.
  apply (wp_pack_root h t0); [done|done|by rewrite (step_root _ _ _ Hs)|].
  assert (He : effect h0 (setroot h (Z.lor (hd t) fl)) l []).
  { eapply effect_trans; [by apply step_effect|apply setroot_effect|by rewrite app_nil_r|done]. }
  apply HQ; [by apply setroot_queue|done].
Qed.

Lemma remove_root_run h f r c : queue h f (Bin r c Leaf) -> (forall x, x ∈ nodes c -> f x = rk h x) ->
  wp (pqueue_remove_root pqueue_pair_meld q r) (fun o h' => o = r /\ exists t, queue h' f t /\ nodes t ≡ₚ nodes c /\
    effect h h' (nodes c) []) h.
Proof.
  intros Hq Hrk. pose proof Hq as (Hm & ((_ & Hrc & Hat) & (Hheap & _) & Hnd & HU) & Hw).
  assert (HrU : r ∈ U) by (apply HU; by left). simpl in Hnd, HU. rewrite app_nil_r in Hnd, HU.
  apply NoDup_cons in Hnd as [Hr Hnd].
  assert (HUc : forall x, x ∈ nodes c -> x ∈ U) by (intros x Hx; apply HU; by right).
  unfold pqueue_remove_root. go. rewrite Hrc. destruct (decide (c = Leaf)) as [->|Hc].
  - cbn [hd]. rewrite Z.eqb_refl. cbn [negb]. go. apply wp_bind.
    apply (repack_run h h f (Bin r Leaf Leaf) Leaf _ []); [done|by apply step_refl|apply tree_leaf|].
    intros h' H1 H2. apply wp_ret. split; [done|]. by exists Leaf.
  - rewrite (entry_nonnull (hd c)) by (apply HUc; destruct c; [done|by left]). cbn [negb]. apply wp_bind.
    eapply wp_mono; [apply (meld_run h f r c); try done; by eapply heap_forest|].
    intros ? h1 (t & -> & Ht & Hp & Hs). apply wp_bind.
    apply (repack_run h h1 f (Bin r c Leaf) t _ (nodes c)); [done|done|done|].
    intros h' H1 H2. apply wp_ret. split; [done|]. by exists t.
Qed.

Lemma queue_step h h' f f' t t' l : step h h' l -> queue h f t -> hd t' = hd t -> tree h' f' t' -> queue h' f' t'.
Proof. intros Hs (_ & _ & Hw) Hh Ht. split; [by apply (step_mapped _ _ _ Hs)|]. split; [done|]. by rewrite (step_root _ _ _ Hs), Hh. Qed.

Lemma remove_non_root_run h f r c e : queue h f (Bin r c Leaf) -> e ∈ nodes c ->
  (forall x, x ∈ nodes (Bin r c Leaf) -> x <> e -> f x = rk h x) ->
  wp (pqueue_remove_non_root cmp_fn pqueue_pair_meld q e) (fun o h' => o = e /\ exists t, queue h' f t /\
    e :: nodes t ≡ₚ nodes (Bin r c Leaf) /\ effect h h' (nodes (Bin r c Leaf)) []) h.
Proof.
  intros Hq He Hrk. pose proof Hq as (Hm & Ht & Hw). pose proof Ht as (_ & _ & Hnd & HU).
  assert (HeU : e ∈ U) by (apply HU; simpl; set_solver).
  unfold pqueue_remove_non_root. apply wp_bind. eapply wp_mono; [by apply (list_remove_run h f r c e)|].
  intros [] h1 (Hrest & Hkids & Hs1). pose proof (step_mapped _ _ _ Hs1) as Hm1.
  assert (Hperm : nodes (Bin r c Leaf) ≡ₚ e :: nodes (kids e c) ++ nodes (Bin r (cut e c) Leaf)).
  { apply nodup_bin in Hnd as [Hndc _]. simpl. rewrite (kids_nodes e c Hndc He) at 1. solve_Permutation. }
  rewrite Hperm, NoDup_cons, NoDup_app, not_elem_of_app in Hnd. destruct Hnd as ((He1 & He2) & _ & Hdis & _).
  assert (Hq1 : queue h1 f (Bin r (cut e c) Leaf)) by (by apply (queue_step h h1 f f (Bin r c Leaf) _ _ Hs1)).
  pose proof Hkids as ((_ & Hk1 & Hk2) & (Hk3 & _) & Hk4 & Hk5). apply nodup_bin in Hk4 as [Hk4 _].
  assert (Hk6 : forall x, x ∈ nodes (kids e c) -> x ∈ U) by (intros x Hx; apply Hk5; simpl; set_solver).
  assert (Hrk1 : forall x, x ∈ nodes (kids e c) ++ nodes (Bin r (cut e c) Leaf) -> f x = rk h1 x).
  { intros x Hx. assert (Hx' : x ∈ nodes (Bin r c Leaf)) by (rewrite Hperm; by right).
    rewrite (step_rk h h1 _ x Hs1) by auto. apply Hrk; [done|]. intros ->. rewrite elem_of_app in Hx. tauto. }
  go. rewrite Hk1. apply wp_bind. destruct (decide (kids e c = Leaf)) as [E|Hne].
  - rewrite E in *. cbn [hd]. rewrite Z.eqb_refl. cbn [negb when]. apply wp_ret, wp_ret. split; [done|].
    exists (Bin r (cut e c) Leaf). split; [done|]. split; [by rewrite Hperm|by apply step_effect].
  - rewrite (entry_nonnull (hd (kids e c))) by (apply Hk6; destruct (kids e c); [done|by left]). cbn [negb when].
    apply wp_bind. eapply wp_mono.
    { apply (meld_run h1 f e (kids e c)); try done; [by eapply heap_forest|]. intros x Hx. apply Hrk1. rewrite elem_of_app. by left. }
    intros ? h2 (tk & -> & Htk & Hpk & Hs2).
    assert (Hr2 : tree h2 f (Bin r (cut e c) Leaf)).
    { apply (tree_effect h1 _ _ _ _ _ (step_effect _ _ _ Hs2)); [|done]. intros x Hx Hx'. by apply (Hdis x). }
    apply wp_bind, (wp_unpack_root h2 f (Bin r (cut e c) Leaf)); [by apply (queue_step h1 h2 f f _ _ _ Hs2 Hq1)|].
    apply wp_bind. eapply wp_mono.
    { apply (merge_run h2 f (Bin r (cut e c) Leaf) tk); [by apply (step_mapped _ _ _ Hs2)|done|done| |].
      - intros x. rewrite Hpk, Permutation_app_comm. intros Hx. rewrite (step_rk h1 h2 _ x Hs2); [by apply Hrk1|].
        apply elem_of_app in Hx as [Hx|Hx]; [by apply Hk6|by apply Hrest].
      - intros x Hx. rewrite Hpk. intros Hx'. by apply (Hdis x). }
    intros ? h3 (t & -> & Ht3 & Hp3 & Hs3).
    assert (Hs : step h h3 (nodes (Bin r c Leaf))).
    { eapply step_trans; [exact Hs1|eapply step_trans; [exact Hs2|exact Hs3|reflexivity]|].
      intros x. rewrite Hpk, Hperm, !elem_of_app, !elem_of_cons, !elem_of_app. tauto. }
    apply (repack_run h h3 f (Bin r c Leaf) t _ (nodes (Bin r c Leaf))); [done|done|done|].
    intros h' H1 H2. apply wp_ret. split; [done|]. exists t. split; [done|]. split; [|done].
    rewrite Hp3, Hpk, Hperm. simpl. solve_Permutation.
Qed.

(** *** Keys *)

Definition builtin : Prop := Z.land fl PRIORITY_QUEUE_GENERIC_KEY = 0.
Definition key_ok (k : Z) : Prop := if decide builtin then 0 <= k <= 255 else k = PRIORITY_QUEUE_KEY_NONE.
Definition rekey (h : mem) (e k : Z) : mem := if decide builtin then setkey h e k else h.

Lemma queue_effect h h' f t l K : effect h h' l K -> mapped h' -> cellat h' q = cellat h q -> (forall x, x ∈ nodes t -> x ∉ l) ->
  queue h f t -> queue h' f t.
Proof. intros He Hm Hw Hl (_ & Ht & Hw'). split; [done|]. split; [by eapply tree_effect|by rewrite Hw]. Qed.

Lemma rk_effect h h' l K x : effect h h' l K -> x ∈ U -> x ∉ K -> rk h' x = rk h x.
Proof. intros [A1 _ A3] Hx Hn. apply rk_same; [done|by apply A1|done]. Qed.

Lemma setkey_effect h e k : mapped h -> e ∈ U -> effect h (setkey h e k) [] [e] /\ cellat (setkey h e k) q = cellat h q.
Proof.
  intros Hm He. split; [|by apply root_set]. split.
  - intros x Hx Hn. apply not_elem_of_cons in Hn as [Hn _]. look. by dec.
  - intros x Hx _. by look.
  - intros x Hx Hu. apply (out_cell h e); auto.
Qed.

Lemma rekey_effect h e k : mapped h -> e ∈ U ->
  effect h (rekey h e k) [] [e] /\ cellat (rekey h e k) q = cellat h q /\ mapped (rekey h e k).
Proof.
  intros Hm He. unfold rekey. destruct (decide builtin).
  - destruct (setkey_effect h e k) as [? ?]; [done|done|]. split_and!; try done. mp.
  - split; [apply effect_refl|done].
Qed.

Lemma head_flag h f t b : queue h f t -> 0 <= b < 4 -> Z.land (cellat h q) b = Z.land fl b.
Proof. intros (_ & (_ & _ & _ & HU) & ->) Hb. destruct (hd_root t HU). by apply flag_word. Qed.

Lemma update_key_run h f t e k (Q : unit -> mem -> Prop) : queue h f t -> e ∈ U -> key_ok k -> Q tt (rekey h e k) ->
  wp (pqueue_update_key q e k) Q h.
Proof.
  intros Hq He Hk HQ. pose proof Hq as (Hm & _ & _). unfold pqueue_update_key, pqueue_has_builtin_keys. go. go.
  rewrite (head_flag h f t _ Hq) by (unfold PRIORITY_QUEUE_GENERIC_KEY; lia).
  revert Hk HQ. unfold key_ok, rekey, builtin. destruct (decide _) as [E|E]; intros Hk HQ.
  - rewrite (proj2 (Z.eqb_eq _ _)) by done. rewrite (proj2 (Z.leb_le _ _)) by lia. cbn [assert]. by repeat go.
  - rewrite (proj2 (Z.eqb_neq _ _)) by done. rewrite Hk, Z.eqb_refl. cbn [assert]. by go.
Qed.

(** ** The operations on trees *)

(** A heap [te] under a new entry, or an entry taken out with its children,
    joins the queue; [f] has the ranks after the update of the key. *)
Lemma insert_run h f t e ce k : queue h f t -> tree h f (Bin e ce Leaf) -> (forall x, x ∈ nodes t -> x ∉ nodes (Bin e ce Leaf)) ->
  key_ok k -> (forall x, x ∈ nodes t ++ nodes (Bin e ce Leaf) -> f x = rk (rekey h e k) x) ->
  wp (priority_queue_insert cmp_fn q e k) (fun b h' => exists t', queue h' f t' /\ nodes t' ≡ₚ nodes t ++ nodes (Bin e ce Leaf) /\
    b = (hd t' =? e) /\ effect (rekey h e k) h' (nodes t ++ nodes (Bin e ce Leaf)) []) h.
Proof.
  intros Hq Hte Hdis Hk Hf. assert (HeU : e ∈ U) by (apply Hte; by left). pose proof Hq as (Hm & _).
  destruct (rekey_effect h e k Hm HeU) as (He & Hw & Hm1).
  assert (Hq1 : queue (rekey h e k) f t) by (apply (queue_effect h _ f t _ _ He); try done; intros; apply not_elem_of_nil).
  assert (Hte1 : tree (rekey h e k) f (Bin e ce Leaf)) by (apply (tree_effect h _ f _ _ _ He); [intros; apply not_elem_of_nil|done]).
  unfold priority_queue_insert. apply wp_bind, (update_key_run h f t); [done|done|done|].
  apply wp_bind, (wp_unpack_root _ f t); [done|]. apply wp_bind.
  eapply wp_mono; [by apply (merge_run (rekey h e k) f t (Bin e ce Leaf)); [|apply Hq1| | |]|].
  intros ? h2 (t' & -> & Ht' & Hp & Hs). apply wp_bind.
  apply (repack_run (rekey h e k) h2 f t t' _ (nodes t ++ nodes (Bin e ce Leaf))); [done|done|done|].
  intros h' H1 H2. apply wp_ret. by exists t'.
Qed.

(** The entry as [priority_queue_entry_init] leaves it. *)
Definition fresh (h : mem) (e : Z) : Prop := nextat h e = NULL /\ prevat h e = NULL /\ childat h e = NULL /\ keyat h e = 0.

Lemma entry_init_run h e (Q : unit -> mem -> Prop) : mapped h -> e ∈ U ->
  (forall h', mapped h' -> cellat h' q = cellat h q -> fresh h' e -> effect h h' [e] [e] -> Q tt h') ->
  wp (priority_queue_entry_init e) Q h.
Proof.
  intros Hm He HQ. unfold priority_queue_entry_init. pose proof canonical_null as Hc. repeat go. set (h1 := setchild _ e NULL).
  assert (Hs : step h h1 [e]) by (eapply step_sub; [unfold h1; steps|set_solver]).
  pose proof (step_mapped _ _ _ Hs) as Hm1. destruct (setkey_effect h1 e PRIORITY_QUEUE_KEY_NONE Hm1 He) as [Hk Hw].
  apply HQ; [mp|by rewrite Hw, (step_root _ _ _ Hs)| |].
  - unfold fresh. look. unfold h1. look. by dec.
  - eapply effect_trans; [apply step_effect, Hs|exact Hk|by rewrite app_nil_r|done].
Qed.

Lemma remove_entry_run h f t e : queue h f t -> e ∈ nodes t -> (forall x, x ∈ nodes t -> x <> e -> f x = rk h x) ->
  wp (priority_queue_remove cmp_fn pqueue_pair_meld q e) (fun b h' => exists t', queue h' f t' /\ e :: nodes t' ≡ₚ nodes t /\
    b = (e =? hd t) /\ fresh h' e /\ effect h h' (nodes t) [e]) h.
Proof.
  intros Hq He Hrk. pose proof Hq as (Hm & (Ht & _ & Hnd & HU) & _). unfold priority_queue_remove.
  apply wp_bind, (wp_unpack_root h f t); [done|].
  assert (Hfin : forall h1 t', queue h1 f t' -> e :: nodes t' ≡ₚ nodes t -> effect h h1 (nodes t) [] -> forall b : bool,
    wp (priority_queue_entry_init e ;;; ret b) (fun b' h' => exists t', queue h' f t' /\ e :: nodes t' ≡ₚ nodes t /\
      b' = b /\ fresh h' e /\ effect h h' (nodes t) [e]) h1).
  { intros h1 t' Hq1 Hp He1 b. apply wp_bind, entry_init_run; [apply Hq1|auto|]. intros h2 Hm2 Hw2 Hf2 He2. apply wp_ret.
    rewrite <- Hp, NoDup_cons in Hnd. destruct Hnd as [Hn _]. exists t'. split.
    - apply (queue_effect h1 h2 f t' _ _ He2); try done. intros x Hx E%list_elem_of_singleton. by subst.
    - split_and!; try done. eapply effect_trans; [exact He1|exact He2| |done]. rewrite <- Hp. clear. set_solver. }
  destruct t as [|r c s]; [by apply not_elem_of_nil in He|]. destruct Ht as (-> & _). cbn [hd].
  destruct (Z.eqb_spec e r) as [->|Hne].
  - apply wp_bind. eapply wp_mono; [apply (remove_root_run h f r c); [done|]|].
    { intros x Hx. simpl in Hnd. apply NoDup_cons in Hnd as [Hn _]. rewrite app_nil_r in Hn.
      apply Hrk; [simpl; rewrite app_nil_r; by right|]. by intros ->. }
    intros ? h1 (_ & t' & Hq1 & Hp & He1). apply (Hfin h1 t'); [done|simpl; by rewrite Hp, app_nil_r|].
    eapply effect_trans; [exact He1|apply (effect_refl _ [] [])| |done]. simpl. clear. set_solver.
  - apply wp_bind. eapply wp_mono; [apply (remove_non_root_run h f r c e); [done| |done]|].
    { simpl in He. rewrite app_nil_r in He. apply elem_of_cons in He as [|]; done. }
    intros ? h1 (_ & t' & Hq1 & Hp & He1). by apply (Hfin h1 t').
Qed.

(** ** The operations on sets of entries *)

(** The queue holds the entries [S], ordered by the ranks [f]. *)
Definition pq (h : mem) (f : Z -> Z) (S : gset Z) : Prop := exists t, queue h f t /\ forall x, x ∈ S <-> x ∈ nodes t.

(** [e] has the highest rank of [S]. *)
Definition greatest (f : Z -> Z) (S : gset Z) (e : Z) : Prop := e ∈ S /\ forall x, x ∈ S -> f x <= f e.

Lemma root_greatest f r c : heap f r c -> forall x, x ∈ nodes (Bin r c Leaf) -> f x <= f r.
Proof. intros Hh x. simpl. rewrite app_nil_r, elem_of_cons. intros [->|Hx]; [lia|by eapply heap_max]. Qed.

Lemma queue_greatest h f t (S : gset Z) : queue h f t -> (forall x, x ∈ S <-> x ∈ nodes t) -> t <> Leaf -> greatest f S (hd t).
Proof.
  intros (_ & (Ht & Hf & _) & _) HS Hn. destruct t as [|r c s]; [done|]. destruct Ht as (-> & _), Hf as (Hf & _).
  split; [apply HS; by left|]. intros x Hx%HS. by apply (root_greatest f r c).
Qed.

Lemma queue_empty h f t (S : gset Z) : queue h f t -> (forall x, x ∈ S <-> x ∈ nodes t) -> t = Leaf <-> S = ∅.
Proof.
  intros _ HS. split; [intros ->; set_solver|]. intros ->. destruct t as [|r c s]; [done|].
  exfalso. apply (not_elem_of_empty (C := gset Z) r), HS. by left.
Qed.

Lemma nodes_elements (t : btree) (S : gset Z) : (forall x, x ∈ S <-> x ∈ nodes t) -> nodes t ⊆ elements S.
Proof. intros HS x Hx. by apply elem_of_elements, HS. Qed.

(** The ranks of the entries after an operation. *)
Lemma queue_ranks h f g t : queue h f t -> (forall x, x ∈ nodes t -> g x = f x) -> queue h g t.
Proof. intros (Hm & (H1 & H2 & H3 & H4) & Hw) Hg. split; [done|]. split; [|done]. split; [done|]. split; [by eapply forest_ext|done]. Qed.

Lemma init_pq h : mapped h -> wp (priority_queue_init q fl) (fun _ h' => pq h' (rk h') ∅ /\ effect h h' [] []) h.
Proof.
  intros Hm. unfold priority_queue_init, pqueue_pack_root. repeat go. set (h1 := setroot h _).
  assert (Hm1 : mapped h1) by by apply mapped_setroot. split.
  - exists Leaf. split; [|set_solver]. apply (setroot_queue h1 _ Leaf); [done|apply tree_leaf].
  - eapply effect_trans; [apply setroot_effect|apply setroot_effect|done|done].
Qed.

Lemma empty_pq h f S : pq h f S -> wp (priority_queue_empty q) (fun b h' => h' = h /\ (b = true <-> S = ∅)) h.
Proof.
  intros (t & Hq & HS). unfold priority_queue_empty. apply wp_bind, (wp_unpack_root h f t); [done|]. apply wp_ret. split; [done|].
  rewrite <- (queue_empty h f t S Hq HS), Z.eqb_eq. destruct Hq as (_ & (_ & _ & _ & HU) & _). split; [|by intros ->].
  destruct t as [|r c s]; [done|]. intros E. assert (HrU : r ∈ U) by (apply HU; by left). apply entry_nonnull, Z.eqb_neq in HrU. done.
Qed.

(** What a look at the root gives. *)
Lemma root_pq h f S (Q : Z -> mem -> Prop) : pq h f S ->
  (S = ∅ -> Q NULL h) -> (forall r, greatest f S r -> Q r h) -> wp (pqueue_unpack_root q) Q h.
Proof.
  intros (t & Hq & HS) H0 H1. apply (wp_unpack_root h f t); [done|]. destruct (decide (t = Leaf)) as [E|E].
  - rewrite E. apply H0. by apply (queue_empty h f t S).
  - by apply H1, (queue_greatest h f t S).
Qed.

Lemma flag_pq h f S b : pq h f S -> 0 <= b < 4 -> Z.land (cellat h q) b = Z.land fl b.
Proof. intros (t & Hq & _). by apply (head_flag h f t). Qed.

Lemma pq_mapped h f S : pq h f S -> mapped h.
Proof. by intros (t & [Hm _] & _). Qed.

Lemma greatest_U h f S r : pq h f S -> greatest f S r -> r ∈ U.
Proof. intros (t & (_ & (_ & _ & _ & HU) & _) & HS) [Hr _]. by apply HU, HS. Qed.

Definition max_heap : Prop := Z.land fl PRIORITY_QUEUE_MIN_HEAP = 0.

(** The tests of the flags. *)
Lemma max_flag_pq h f S (Q : unit -> mem -> Prop) : max_heap -> pq h f S -> Q tt h ->
  wp (b <- pqueue_is_max_heap q ;; assert b) Q h.
Proof.
  intros Hx Hp HQ. pose proof (pq_mapped _ _ _ Hp) as Hm. unfold pqueue_is_max_heap. go. go.
  rewrite (flag_pq h f S) by (done || (unfold PRIORITY_QUEUE_MIN_HEAP; lia)). rewrite Hx, Z.eqb_refl. cbn [assert]. by go.
Qed.
Lemma min_flag_pq h f S (Q : unit -> mem -> Prop) : ~ max_heap -> pq h f S -> Q tt h ->
  wp (b <- pqueue_is_min_heap q ;; assert b) Q h.
Proof.
  intros Hx Hp HQ. pose proof (pq_mapped _ _ _ Hp) as Hm. unfold pqueue_is_min_heap. go. go.
  rewrite (flag_pq h f S) by (done || (unfold PRIORITY_QUEUE_MIN_HEAP; lia)).
  rewrite (proj2 (Z.eqb_neq _ _) Hx). cbn [assert negb]. by go.
Qed.

Lemma assert_first {A} (m : M mem bool) (k : M mem A) (Q : A -> mem -> Prop) h :
  wp (b <- m ;; assert b) (fun _ => wp k Q) h -> wp (b <- m ;; assert b ;;; k) Q h.
Proof. unfold wp, bind. destruct (m h) as [b h'|h']; [|done]. by destruct (assert b h'). Qed.

Lemma peek_pq h f S field : pq h f S -> wp (r <- pqueue_unpack_root q ;; ret (pqe_element field r)) (fun v h' => h' = h /\
  (S = ∅ /\ v = NULL \/ exists r, greatest f S r /\ v = r - field)) h.
Proof.
  intros Hp. apply wp_bind, (root_pq h f S); [done| |].
  - intros E. apply wp_ret. unfold pqe_element. rewrite Z.eqb_refl. auto.
  - intros r Hr. apply wp_ret. unfold pqe_element, pqe_element_fast. rewrite (entry_nonnull r) by by apply (greatest_U h f S).
    cbn [negb]. eauto.
Qed.

Lemma max_key_pq h f S : max_heap -> builtin -> pq h f S -> S <> ∅ -> wp (priority_queue_max_key q) (fun k h' => h' = h /\
  exists r, greatest f S r /\ k = keyat h r mod 256) h.
Proof.
  intros Hx Hb Hp Hn. pose proof (pq_mapped _ _ _ Hp) as Hm. apply assert_first, (max_flag_pq h f S); [done|done|].
  apply wp_bind, (root_pq h f S); [done|done|]. intros r Hr. pose proof (greatest_U h f S r Hp Hr) as HrU.
  unfold priority_queue_entry_key, pqueue_has_builtin_keys. go. go.
  rewrite (flag_pq h f S) by (done || (unfold PRIORITY_QUEUE_GENERIC_KEY; lia)). rewrite Hb, Z.eqb_refl. cbn [assert].
  repeat go. eauto.
Qed.

(** The root is taken out. *)
Lemma pop_pq h S field : pq h (rk h) S -> S <> ∅ ->
  wp (r <- pqueue_unpack_root q ;; o <- pqueue_remove_root pqueue_pair_meld q r ;; ret (pqe_element field o))
    (fun v h' => exists r, v = r - field /\ greatest (rk h) S r /\ pq h' (rk h') (S ∖ {[r]}) /\
      effect h h' (elements (S ∖ {[r]})) []) h.
Proof.
  intros (t & Hq & HS) Hn. apply wp_bind, (wp_unpack_root h (rk h) t); [done|]. apply wp_bind.
  assert (Ht : t <> Leaf) by (intros E; by apply Hn, (queue_empty h (rk h) t S Hq HS)).
  pose proof (queue_greatest h (rk h) t S Hq HS Ht) as Hg. destruct t as [|r c s]; [done|]. cbn [hd] in *.
  pose proof Hq as (_ & ((-> & _) & _ & Hnd & HU) & _). assert (HrU : r ∈ U) by (apply HU; by left).
  eapply wp_mono; [by apply (remove_root_run h (rk h) r c)|]. intros o h' (-> & t & Hq' & Hp & He). apply wp_ret. exists r.
  unfold pqe_element, pqe_element_fast. rewrite entry_nonnull by done. split; [done|]. split; [done|].
  simpl in Hnd, HU, HS. rewrite app_nil_r in *. apply NoDup_cons in Hnd as [Hn' _].
  assert (HS' : forall x, x ∈ S ∖ {[r]} <-> x ∈ nodes t).
  { intros x. rewrite elem_of_difference, elem_of_singleton, HS, Hp, elem_of_cons. split; [tauto|]. intros Hx. split; [tauto|]. by intros ->. }
  split.
  - exists t. split; [|done]. apply (queue_ranks h' (rk h)); [done|]. intros x Hx. eapply rk_effect; [exact He| |apply not_elem_of_nil].
    apply HU. right. by rewrite <- Hp.
  - eapply effect_sub; [exact He| |done]. rewrite <- Hp. by apply nodes_elements.
Qed.

(** The result of the operations that tell whether [e] is the root. *)
Definition verdict (f : Z -> Z) (S : gset Z) (e : Z) (b : bool) : Prop :=
  if b then greatest f S e else exists x, x ∈ S /\ x <> e /\ f e <= f x.

Definition newkey (h : mem) (e k : Z) : Z := if decide builtin then sext8 k else keyat h e.

Lemma rekey_key h e k : mapped h -> e ∈ U -> keyat (rekey h e k) e = newkey h e k.
Proof. intros Hm He. unfold rekey, newkey. destruct (decide builtin); [|done]. look. by dec. Qed.

Lemma queue_verdict h f t (S : gset Z) e : queue h f t -> (forall x, x ∈ S <-> x ∈ nodes t) -> e ∈ S -> verdict f S e (hd t =? e).
Proof.
  intros Hq HS He. assert (Ht : t <> Leaf) by (intros ->; by apply HS, not_elem_of_nil in He).
  pose proof (queue_greatest h f t S Hq HS Ht) as Hg. unfold verdict. destruct (Z.eqb_spec (hd t) e) as [<-|Hne]; [done|].
  destruct Hg as [H1 H2]. exists (hd t). auto.
Qed.

(** An entry with its children joins the others. *)
Lemma add_pq h t e ce k (S : gset Z) : let f := rk (rekey h e k) in
  queue h f t -> tree h f (Bin e ce Leaf) -> (forall x, x ∈ nodes t -> x ∉ nodes (Bin e ce Leaf)) -> key_ok k ->
  (forall x, x ∈ S <-> x ∈ nodes t ++ nodes (Bin e ce Leaf)) ->
  wp (priority_queue_insert cmp_fn q e k) (fun b h' => pq h' (rk h') S /\ verdict (rk h') S e b /\
    keyat h' e = newkey h e k /\ effect h h' (elements S) [e]) h.
Proof.
  intros f Hq Hte Hdis Hk HS. assert (HeU : e ∈ U) by (apply Hte; by left). pose proof Hq as (Hm & Ht & _).
  destruct (rekey_effect h e k Hm HeU) as (He & Hw & Hm1).
  eapply wp_mono; [by apply (insert_run h f t e ce k)|]. intros b h' (t' & Hq' & Hp & -> & He').
  assert (HS' : forall x, x ∈ S <-> x ∈ nodes t') by (intros x; by rewrite HS, Hp).
  assert (Hq2 : queue h' (rk h') t').
  { apply (queue_ranks h' f); [done|]. intros x Hx. eapply rk_effect; [exact He'| |apply not_elem_of_nil]. by apply Hq'. }
  split; [by exists t'|]. split; [apply (queue_verdict h'); try done; rewrite HS; simpl; set_solver|]. split.
  - rewrite (eff_key _ _ _ _ He') by (done || apply not_elem_of_nil). by apply rekey_key.
  - eapply effect_trans; [exact He|exact He'| |done]. intros x Hx. by apply elem_of_elements, HS.
Qed.

Lemma insert_pq h S e k : pq h (rk h) S -> e ∈ U -> e ∉ S -> childat h e = NULL -> key_ok k ->
  wp (priority_queue_insert cmp_fn q e k) (fun b h' => pq h' (rk h') ({[e]} ∪ S) /\ verdict (rk h') ({[e]} ∪ S) e b /\
    keyat h' e = newkey h e k /\ effect h h' (elements ({[e]} ∪ S)) [e]) h.
Proof.
  intros (t & Hq & HS) HeU HeS Hc Hk. pose proof Hq as (Hm & (_ & _ & _ & HU) & _). rewrite HS in HeS.
  destruct (rekey_effect h e k Hm HeU) as (He & _ & _). apply (add_pq h t e Leaf k).
  - apply (queue_ranks h (rk h)); [done|]. intros x Hx. eapply rk_effect; [exact He|by apply HU|]. intros E%list_elem_of_singleton. by subst.
  - split; [done|]. split; [done|]. split; [apply NoDup_singleton|]. by intros x ->%list_elem_of_singleton.
  - intros x Hx E%list_elem_of_singleton. by subst.
  - done.
  - intros x. rewrite elem_of_union, elem_of_singleton, elem_of_app, HS. simpl. rewrite list_elem_of_singleton. tauto.
Qed.

Lemma remove_pq h f S e : pq h f S -> e ∈ S -> (forall x, x ∈ S -> x <> e -> f x = rk h x) ->
  wp (priority_queue_remove cmp_fn pqueue_pair_meld q e) (fun b h' => pq h' (rk h') (S ∖ {[e]}) /\ verdict f S e b /\
    fresh h' e /\ effect h h' (elements S) [e]) h.
Proof.
  intros (t & Hq & HS) He Hrk. pose proof Hq as (Hm & (_ & _ & Hnd & HU) & _).
  eapply wp_mono; [apply (remove_entry_run h f t e); [done|by apply HS|intros x Hx; apply Hrk; by apply HS]|].
  intros b h' (t' & Hq' & Hp & -> & Hf & Heff). rewrite <- Hp, NoDup_cons in Hnd. destruct Hnd as [Hn _].
  split; [|split; [rewrite Z.eqb_sym; by apply (queue_verdict h f t)|split; [done|]]].
  - exists t'. split.
    + apply (queue_ranks h' f); [done|]. intros x Hx. assert (Hxe : x <> e) by by intros ->.
      assert (HxS : x ∈ nodes t) by (rewrite <- Hp; by right).
      rewrite (rk_effect h h' _ _ x Heff); [|by apply HU|by intros ?%list_elem_of_singleton]. symmetry. apply Hrk; [by apply HS|done].
    + intros x. rewrite elem_of_difference, elem_of_singleton, HS, <- Hp, elem_of_cons. split; [tauto|]. intros Hx. split; [tauto|].
      by intros ->.
  - eapply effect_sub; [exact Heff|by apply nodes_elements|done].
Qed.

Lemma decrease_pq h f S e k : pq h f S -> e ∈ S -> (forall x, x ∈ S -> x <> e -> f x = rk h x) -> key_ok k ->
  wp (priority_queue_entry_decrease cmp_fn pqueue_pair_meld q e k) (fun b h' => pq h' (rk h') S /\ verdict f S e b /\
    keyat h' e = (if decide builtin then sext8 k else 0) /\ effect h h' (elements S) [e]) h.
Proof.
  intros Hp He Hrk Hk. assert (HeU : e ∈ U) by (destruct Hp as (t & (_ & Ht & _) & HS); by apply Ht, HS).
  unfold priority_queue_entry_decrease. apply wp_bind. eapply wp_mono; [by apply (remove_pq h f S e)|].
  intros b h1 (Hp1 & Hv & (_ & _ & Hc & Hk0) & He1). apply wp_bind.
  eapply wp_mono; [apply (insert_pq h1 (S ∖ {[e]}) e k); try done; set_solver|].
  assert (HSe : {[e]} ∪ S ∖ {[e]} = S) by (rewrite <- union_difference_singleton_L; done). rewrite HSe.
  intros b2 h2 (Hp2 & _ & Hk2 & He2). apply wp_ret. split; [done|]. split; [done|]. split.
  - rewrite Hk2. unfold newkey. by destruct (decide builtin).
  - eapply effect_trans; [exact He1|exact He2|clear; set_solver|clear; set_solver].
Qed.

Lemma tree_raise h f g r c : tree h f (Bin r c Leaf) -> f r <= g r -> (forall x, x ∈ nodes c -> g x = f x) -> tree h g (Bin r c Leaf).
Proof. intros (H1 & (H2 & _) & H3 & H4) Hr Hc. split; [done|]. split; [split; [by eapply heap_raise|done]|done]. Qed.

Lemma rekey_rk h h1 l e k x : mapped h -> step h h1 l -> e ∈ U -> x ∈ U -> rk (rekey h1 e k) x = rk (rekey h e k) x.
Proof.
  intros Hm Hs He Hx. pose proof (step_mapped _ _ _ Hs) as Hm1. unfold rekey.
  destruct (decide builtin); [|by eapply step_rk].
  apply rk_same; [done|look; by rewrite (step_key _ _ _ Hs)|]. intros j Hj Hu. unfold setkey.
  rewrite !(out_cell _ e) by (done || auto). by apply (step_out _ _ _ Hs).
Qed.

Section Increase.
(** The rank of [e] after the update of its key is not lower than before. *)
Context (h : mem) (f : Z -> Z) (S : gset Z) (e k : Z) (r : Z) (c : btree) (Hq : queue h f (Bin r c Leaf))
  (HS : forall x, x ∈ S <-> x ∈ nodes (Bin r c Leaf)) (Hrk : forall x, x ∈ S -> x <> e -> f x = rk h x)
  (Hup : f e <= rk (rekey h e k) e) (Hk : key_ok k).

Definition increased (b : bool) (h' : mem) : Prop :=
  pq h' (rk h') S /\ verdict (rk h') S e b /\ keyat h' e = newkey h e k /\ effect h h' (elements S) [e].

Lemma increase_ranks x : e ∈ S -> x ∈ nodes (Bin r c Leaf) -> x <> e -> rk (rekey h e k) x = f x.
Proof using All.
  intros He Hx Hne. destruct Hq as (Hm & (_ & _ & _ & HU) & _). assert (HeU : e ∈ U) by by apply HU, HS.
  destruct (rekey_effect h e k Hm HeU) as (Heff & _). rewrite (rk_effect _ _ _ _ x Heff); [|by apply HU|by intros ?%list_elem_of_singleton].
  symmetry. apply Hrk; [by apply HS|done].
Qed.

Lemma increase_root : r = e -> wp (pqueue_update_key q e k ;;; ret true) increased h.
Proof using All.
  intros Hr. pose proof Hq as (Hm & Ht & Hw). pose proof Ht as (_ & _ & Hnd & HU).
  assert (HeU : e ∈ U) by (apply HU; rewrite <- Hr; by left). assert (HeS : e ∈ S) by (apply HS; rewrite <- Hr; by left).
  destruct (rekey_effect h e k Hm HeU) as (Heff & Hw1 & Hm1). simpl in Hnd. apply NoDup_cons in Hnd as [Hn _]. rewrite app_nil_r in Hn.
  apply wp_bind, (update_key_run h f (Bin r c Leaf)); [done|done|done|]. apply wp_ret.
  assert (Hq1 : queue (rekey h e k) (rk (rekey h e k)) (Bin r c Leaf)).
  { apply (queue_effect h _ _ _ _ _ Heff); try done; [intros; apply not_elem_of_nil|]. split; [done|]. split; [|done].
    apply (tree_raise h f); [done|by rewrite Hr|]. intros x Hx. apply increase_ranks; [done|simpl; rewrite app_nil_r; by right|].
    rewrite <- Hr. by intros ->. }
  split; [by exists (Bin r c Leaf)|]. split; [|split; [by apply rekey_key|by eapply effect_sub; [exact Heff|clear; set_solver|]]].
  replace true with (hd (Bin r c Leaf) =? e) by (simpl; by apply Z.eqb_eq). by apply (queue_verdict (rekey h e k)).
Qed.

Lemma increase_non_root : r <> e -> e ∈ S -> wp (pqueue_list_remove e ;;; priority_queue_insert cmp_fn q e k) increased h.
Proof using All.
  intros Hr HeS. pose proof Hq as (Hm & Ht & Hw). pose proof Ht as (_ & _ & Hnd & HU).
  assert (HeU : e ∈ U) by by apply HU, HS.
  assert (Hec : e ∈ nodes c).
  { pose proof (proj1 (HS e) HeS) as Hi. simpl in Hi. rewrite app_nil_r in Hi. apply elem_of_cons in Hi as [|]; [congruence|done]. }
  apply wp_bind. eapply wp_mono; [by apply (list_remove_run h f r c e)|]. intros [] h1 (Hrest & Hkids & Hs).
  assert (Hperm : nodes (Bin r c Leaf) ≡ₚ nodes (Bin r (cut e c) Leaf) ++ nodes (Bin e (kids e c) Leaf)).
  { apply nodup_bin in Hnd as [Hndc _]. simpl. rewrite (kids_nodes e c Hndc Hec) at 1. solve_Permutation. }
  rewrite Hperm, NoDup_app in Hnd. destruct Hnd as (_ & Hdis & Hnd2).
  assert (Hf1 : forall x, x ∈ nodes (Bin r c Leaf) -> x <> e -> rk (rekey h1 e k) x = f x).
  { intros x Hx Hne. rewrite (rekey_rk h h1 _ e k x Hm Hs) by auto. by apply increase_ranks. }
  eapply wp_mono; [apply (add_pq h1 (Bin r (cut e c) Leaf) e (kids e c) k S)|].
  - apply (queue_ranks h1 f); [by apply (queue_step h h1 f f (Bin r c Leaf) _ _ Hs)|]. intros x Hx.
    apply Hf1; [rewrite Hperm, elem_of_app; by left|]. intros ->. apply (Hdis e Hx). by left.
  - apply (tree_raise h1 f); [done|by rewrite (rekey_rk h h1 _ e k e Hm Hs)|]. intros x Hx.
    simpl in Hnd2. rewrite app_nil_r in Hnd2. apply NoDup_cons in Hnd2 as [Hn2 _].
    apply Hf1; [rewrite Hperm, elem_of_app; right; simpl; rewrite app_nil_r; by right|]. by intros ->.
  - done.
  - done.
  - intros x. by rewrite HS, Hperm.
  - intros b h' (H1 & H2 & H3 & H4). split; [done|]. split; [done|]. split.
    + rewrite H3. unfold newkey. destruct (decide builtin); [done|]. by apply (step_key _ _ _ Hs).
    + eapply effect_trans; [apply step_effect, Hs|exact H4| |done].
      intros x [Hx|Hx]%elem_of_app; [by apply elem_of_elements, HS|done].
Qed.

End Increase.

Lemma increase_pq h f S e k : pq h f S -> e ∈ S -> (forall x, x ∈ S -> x <> e -> f x = rk h x) -> f e <= rk (rekey h e k) e -> key_ok k ->
  wp (priority_queue_entry_increase cmp_fn q e k) (increased h S e k) h.
Proof.
  intros (t & Hq & HS) He Hrk Hup Hk. unfold priority_queue_entry_increase. apply wp_bind, (wp_unpack_root h f t); [done|].
  destruct t as [|r c s]; [by apply HS, not_elem_of_nil in He|]. pose proof Hq as (_ & ((-> & _) & _) & _). cbn [hd].
  destruct (Z.eqb_spec e r) as [E|E]; [by apply (increase_root h f S e k r c)|by apply (increase_non_root h f S e k r c)].
Qed.

(** ** Beyond the contract *)

Lemma min_pq h f S field : ~ max_heap -> pq h f S -> wp (priority_queue_min field q) (fun v h' => h' = h /\
  (S = ∅ /\ v = NULL \/ exists r, greatest f S r /\ v = r - field)) h.
Proof. intros Hx Hp. apply assert_first, (min_flag_pq h f S); [done|done|]. by apply peek_pq. Qed.

(** [increase] never moves the root, whatever its new rank. *)
Lemma increase_top h S r k field : pq h (rk h) S -> r ∈ S -> (forall y, y ∈ S -> y <> r -> rk h y < rk h r) ->
  key_ok k -> ~ max_heap ->
  wp (b <- priority_queue_entry_increase cmp_fn q r k ;; v <- priority_queue_min field q ;; ret (b, v))
     (fun bv h' => bv = (true, r - field) /\ h' = rekey h r k) h.
Proof.
  intros Hp Hr Htop Hk Hx.
  assert (Honly : forall v, greatest (rk h) S v -> v = r).
  { intros v [Hv Hg]. destruct (decide (v = r)) as [|Hne]; [done|]. specialize (Htop v Hv Hne). specialize (Hg r Hr). lia. }
  pose proof Hp as (t & Hq & HS). pose proof Hq as (Hm & (_ & _ & _ & HU) & _).
  assert (HrU : r ∈ U) by by apply HU, HS. destruct (rekey_effect h r k Hm HrU) as (He & Hw & Hm').
  assert (Hp' : pq (rekey h r k) (rk h) S)
    by (exists t; split; [eapply queue_effect; [exact He|done|done|intros; apply not_elem_of_nil|done]|done]).
  apply wp_bind. unfold priority_queue_entry_increase.
  apply wp_bind, (root_pq h (rk h) S); [done|intros ->; set_solver|]. intros r' ->%Honly. rewrite Z.eqb_refl.
  apply wp_bind, (update_key_run h (rk h) t r k); [done|done|done|]. apply wp_ret, wp_bind.
  eapply wp_mono; [by apply (min_pq _ (rk h) S)|].
  intros v h' [-> [[E _]|(r' & ->%Honly & ->)]]; [subst S; set_solver|]. by apply wp_ret.
Qed.

(** The entry [remove_max] takes out keeps its pointer to its first child, which
    is still in the queue. *)
Lemma pop_child h S field : pq h (rk h) S -> S <> ∅ -> max_heap ->
  wp (priority_queue_remove_max pqueue_pair_meld field q) (fun v h' => exists r, v = r - field /\ r ∈ S /\
    childat h' r = childat h r /\ (S <> {[r]} -> childat h' r ∈ S ∖ {[r]})) h.
Proof.
  intros Hp Hn Hx. apply assert_first, (max_flag_pq h (rk h) S); [done|done|]. destruct Hp as (t & Hq & HS).
  apply wp_bind, (wp_unpack_root h (rk h) t); [done|]. apply wp_bind.
  assert (Ht : t <> Leaf) by (intros E; by apply Hn, (queue_empty h (rk h) t S Hq HS)).
  destruct t as [|r c s]; [done|]. cbn [hd]. pose proof Hq as (_ & ((-> & Hc & _) & _ & Hnd & HU) & _).
  assert (HrU : r ∈ U) by (apply HU; by left).
  eapply wp_mono; [by apply (remove_root_run h (rk h) r c)|]. intros o h' (-> & t & _ & _ & He). apply wp_ret. exists r.
  unfold pqe_element, pqe_element_fast. rewrite entry_nonnull by done. split; [done|]. split; [apply HS; by left|].
  simpl in Hnd, HS. rewrite app_nil_r in *. apply NoDup_cons in Hnd as [Hr _].
  destruct (eff_links _ _ _ _ He r HrU Hr) as (_ & _ & E). split; [done|]. intros HS1. rewrite E, Hc.
  destruct c as [|y c1 c2]; simpl in *.
  - destruct HS1. apply set_eq. intros x. rewrite HS. set_solver.
  - rewrite elem_of_difference, elem_of_singleton, HS. split; [set_solver|]. intros ->. set_solver.
Qed.

(** On an empty queue the child of the null entry is read. *)
Lemma empty_pop_faults any_meld h f field : pq h f ∅ -> max_heap -> h !! packed (entry NULL) = None ->
  faults (priority_queue_remove_max any_meld field q) h.
Proof.
  intros Hp Hx Hnull. pose proof (pq_mapped _ _ _ Hp) as Hm.
  assert (Hf : faults (r <- pqueue_unpack_root q ;; o <- pqueue_remove_root any_meld q r ;; ret (pqe_element field o)) h).
  { apply faults_later, (root_pq h f ∅); [done| |intros r [Hr _]; set_solver]. intros _.
    do 3 apply faults_here. exists h. unfold load. by rewrite Hnull. }
  destruct Hf as [h' Hf]. exists h'. unfold priority_queue_remove_max.
  pose proof (max_flag_pq h f ∅ (fun _ h1 => h1 = h) Hx Hp eq_refl) as Hfl1. unfold wp, bind in Hfl1 |- *.
  destruct (pqueue_is_max_heap q h) as [b h1|]; [|done]. destruct (assert b h1) as [[] h2|]; [|done]. subst h2. exact Hf.
Qed.

End Compare.

(** ** The builtin comparisons, and a meld *)

Lemma max_compare_ranked : Ranked PRIORITY_QUEUE_SCHED_PRI_MAX_HEAP_COMPARE keyat.
Proof.
  split; [|by intros]. intros h a b Hm Ha Hb.
  destruct (wp_run (PRIORITY_QUEUE_SCHED_PRI_MAX_HEAP_COMPARE a b) (fun v h' => v = - (keyat h b - keyat h a) /\ h' = h) h) as [Hr _].
  destruct Hr as (v & h' & -> & -> & ->); [unfold PRIORITY_QUEUE_SCHED_PRI_MAX_HEAP_COMPARE, priority_queue_element_builtin_key_compare; by repeat go|].
  eexists. split; [done|]. lia.
Qed.

Lemma min_compare_ranked : Ranked PRIORITY_QUEUE_SCHED_PRI_MIN_HEAP_COMPARE (fun h x => - keyat h x).
Proof.
  split; [|by intros h h' x _ ->]. intros h a b Hm Ha Hb.
  destruct (wp_run (PRIORITY_QUEUE_SCHED_PRI_MIN_HEAP_COMPARE a b) (fun v h' => v = keyat h b - keyat h a /\ h' = h) h) as [Hr _].
  destruct Hr as (v & h' & -> & -> & ->); [unfold PRIORITY_QUEUE_SCHED_PRI_MIN_HEAP_COMPARE, priority_queue_element_builtin_key_compare; by repeat go|].
  eexists. split; [done|]. lia.
Qed.

(** Melding from right to left. *)
Fixpoint meld (cmp_fn : Z -> Z -> M mem Z) (n : nat) (x : Z) : M mem Z :=
  match n with
  | O => fault
  | Datatypes.S n =>
      s <- load (next (entry x)) ;;
      if s =? NULL then ret x else
        r <- meld cmp_fn n s ;;
        pqueue_merge cmp_fn x r
  end.

Lemma length_U (l : list Z) : NoDup l -> (forall x, x ∈ l -> x ∈ U) -> (length l <= size U)%nat.
Proof.
  intros Hnd HU. rewrite <- (size_list_to_set (C := gset Z) l Hnd). apply subseteq_size. intros x. rewrite elem_of_list_to_set. apply HU.
Qed.

Section Meld.
Context (cmp_fn : Z -> Z -> M mem Z) (rk : mem -> Z -> Z) {HR : Ranked cmp_fn rk}.

Lemma meld_siblings t : forall n h f p, (length (nodes t) <= n)%nat -> mapped h -> at_ h p t -> forest f t -> NoDup (nodes t) ->
  (forall x, x ∈ nodes t -> x ∈ U) -> t <> Leaf -> (forall x, x ∈ nodes t -> f x = rk h x) ->
  wp (meld cmp_fn n (hd t)) (fun r h' => exists t', r = hd t' /\ tree h' f t' /\ nodes t' ≡ₚ nodes t /\ step h h' (nodes t)) h.
Proof.
  induction t as [|x c _ s IHs]; [done|]. intros n h f p Hn Hm (H1 & _ & H3 & Hc & Hs) (Hfc & Hfs) Hnd HU _ Hrk.
  destruct n as [|n]; [simpl in Hn; lia|]. simpl in Hn. rewrite length_app in Hn.
  assert (HxU : x ∈ U) by (apply HU; by left). destruct (nodup_bin _ _ _ Hnd) as [Hndc Hnds].
  simpl in Hnd. rewrite NoDup_cons, NoDup_app, not_elem_of_app in Hnd. destruct Hnd as ((Hxc & Hxs) & _ & Hd & _).
  simpl nodes in HU, Hrk. setoid_rewrite elem_of_cons in HU. setoid_rewrite elem_of_app in HU.
  setoid_rewrite elem_of_cons in Hrk. setoid_rewrite elem_of_app in Hrk.
  assert (Ht : tree h f (Bin x c Leaf)).
  { split; [done|]. split; [done|]. simpl. rewrite app_nil_r, NoDup_cons. split; [done|]. intros y. rewrite elem_of_cons. intros Hy. apply HU. tauto. }
  cbn [meld hd]. go. rewrite H1. destruct (decide (s = Leaf)) as [->|Hne].
  - cbn [hd]. rewrite Z.eqb_refl. apply wp_ret. exists (Bin x c Leaf). split; [done|]. split; [done|]. split; [done|by apply step_refl].
  - rewrite (entry_nonnull (hd s)) by (apply HU; right; right; destruct s; [done|by left]). apply wp_bind.
    eapply wp_mono; [by apply (IHs n h f x); auto; lia|]. intros ? h1 (t1 & -> & Ht1 & Hp1 & Hs1).
    assert (Htx : tree h1 f (Bin x c Leaf)).
    { apply (tree_effect h h1 f _ (nodes s) []); [by apply step_effect| |done]. intros y. simpl. rewrite app_nil_r, elem_of_cons.
      intros [->|Hy]; [done|by apply Hd]. }
    eapply wp_mono; [apply (merge_run cmp_fn rk h1 f (Bin x c Leaf) t1); [by apply (step_mapped _ _ _ Hs1)|done|done| |]|].
    + intros y. rewrite Hp1. simpl. rewrite app_nil_r, elem_of_cons, elem_of_app. intros Hy.
      rewrite (step_rk cmp_fn rk h h1 _ y Hs1) by (apply HU; tauto). apply Hrk. tauto.
    + intros y. rewrite Hp1. simpl. rewrite app_nil_r, elem_of_cons. intros [->|Hy]; [done|by apply Hd].
    + intros ? h2 (t' & -> & Ht' & Hp' & Hs2). exists t'. split; [done|]. split; [done|]. split.
      * rewrite Hp', Hp1. simpl. by rewrite app_nil_r.
      * eapply step_trans; [exact Hs1|exact Hs2|]. rewrite Hp1. simpl. clear. set_solver.
Qed.

Lemma meld_melds : Melds rk (meld cmp_fn (size U)).
Proof. intros h f p t Hm Hat Hf Hnd HU Hne Hrk. apply (meld_siblings t _ h f p); try done. by apply length_U. Qed.

End Meld.

(** Keys from 128 on are negative: they rank below every smaller key. *)
Lemma insert_negative fl h S e x k : 0 <= fl < 4 -> builtin fl -> pq fl h (keyat h) S -> e ∈ U -> e ∉ S -> childat h e = NULL ->
  128 <= k <= 255 -> x ∈ S -> 0 <= keyat h x ->
  wp (priority_queue_insert PRIORITY_QUEUE_SCHED_PRI_MAX_HEAP_COMPARE q e k)
     (fun b h' => b = false /\ pq fl h' (keyat h') ({[e]} ∪ S) /\ keyat h' e = k - 256 /\ keyat h' e < keyat h' x) h.
Proof.
  intros Hfl Hb Hp He HeS Hc Hk Hx Hkx. pose proof max_compare_ranked as HR.
  pose proof (meld_melds PRIORITY_QUEUE_SCHED_PRI_MAX_HEAP_COMPARE keyat) as HM.
  assert (HxU : x ∈ U) by (destruct Hp as (t & (_ & Ht & _) & HS); by apply Ht, HS).
  eapply wp_mono; [apply (insert_pq _ keyat _ fl Hfl h S e k); try done; unfold key_ok; rewrite decide_True by done; lia|].
  intros b h' (Hp' & Hv & Hke & Heff). unfold newkey in Hke. rewrite decide_True in Hke by done.
  assert (E : keyat h' e = k - 256).
  { rewrite Hke. unfold sext8. rewrite Z.mod_small by lia. by rewrite (proj2 (Z.ltb_ge k 128)) by lia. }
  assert (Ex : keyat h' x = keyat h x).
  { apply (eff_key _ _ _ _ Heff); [done|]. intros Hxe%list_elem_of_singleton. by subst. }
  split; [|split; [done|split; [done|lia]]]. destruct b; [|done].
  destruct Hv as [_ Hg]. specialize (Hg x ltac:(set_solver)). lia.
Qed.

(** [decrease] tells whether the entry was at the root, not whether it is now. *)
Lemma decrease_to_root fl meld h S e x k field : 0 <= fl < 4 -> Melds (fun h x => - keyat h x) meld -> builtin fl -> ~ max_heap fl ->
  pq fl h (fun x => - keyat h x) S -> e ∈ S -> x ∈ S -> keyat h x < keyat h e -> 0 <= k <= 255 ->
  (forall y, y ∈ S -> y <> e -> sext8 k < keyat h y) ->
  wp (v <- priority_queue_min field q ;;
      b <- priority_queue_entry_decrease PRIORITY_QUEUE_SCHED_PRI_MIN_HEAP_COMPARE meld q e k ;;
      w <- priority_queue_min field q ;; ret (v, b, w))
     (fun r h' => exists v, r = (v, false, e - field) /\ v <> e - field) h.
Proof.
  intros Hfl HM Hb Hx Hp He HxS Hlt Hk Hmin. pose proof min_compare_ranked as HR.
  apply wp_bind. eapply wp_mono; [by eapply (min_pq _ _ meld fl Hfl)|]. intros v h0 [-> [[-> _]|(r & [Hr Hg] & ->)]]; [set_solver|].
  assert (Hre : r <> e) by (intros ->; specialize (Hg x HxS); simpl in Hg; lia). apply wp_bind.
  eapply wp_mono; [apply (decrease_pq _ _ meld fl Hfl h _ S e k Hp He); [done|unfold key_ok; by rewrite decide_True]|].
  intros b h' (Hp' & Hv & Hke & Heff). rewrite decide_True in Hke by done.
  apply wp_bind. eapply wp_mono; [by eapply (min_pq _ _ meld fl Hfl)|]. intros w h1 [-> [[-> _]|(r' & [Hr' Hg'] & ->)]]; [set_solver|].
  apply wp_ret. exists (r - field). split; [|lia]. f_equal; [f_equal|].
  - destruct b; [|done]. destruct Hv as [_ Hv]. specialize (Hv x HxS). simpl in Hv. lia.
  - destruct (decide (r' = e)) as [->|Hne]; [done|]. exfalso. specialize (Hg' e He). specialize (Hmin r' Hr' Hne).
    assert (HrU : r' ∈ U) by (destruct Hp' as (t & (_ & Ht & _) & HS); by apply Ht, HS).
    assert (E : keyat h' r' = keyat h r') by (apply (eff_key _ _ _ _ Heff); [done|by intros ?%list_elem_of_singleton]). lia.
Qed.

End Queue.

(** ** The contract of the header *)

(** C33. For every comparison block that orders entries by a rank, every
    [pqueue_pair_meld] that melds the trees of a list into one ordered tree,
    and both kinds of keys and of heaps, the operations of
    [kern/priority_queue.h] work on the set of entries in the queue: none of
    them faults, [max] and [min] give the element of highest rank (the null
    pointer for an empty queue), [remove_max] and [remove_min] take it out,
    [insert] adds an entry without children, [remove] takes an entry out and
    resets it, [decrease] keeps the set and gives the entry its new key, higher
    or lower, and so does [increase] provided that the entry's rank does not get
    lower.  [insert] and [increase] return whether the entry is now the one of
    highest rank; [remove] and [decrease] return whether it was before the call,
    which for [decrease] is not what the header announces.  The heap may be
    ordered by an older rank of the entry an operation is about, only; what
    the operations do not touch is unchanged: the entries outside the queue,
    the keys of the other entries and the rest of memory.  The two builtin
    comparisons order entries by their signed 8-bit keys, and the reverse. *)
Theorem priority_queue_operations (U : gset Z) (q fl : Z) cmp_fn rk pqueue_pair_meld :
  layout U q -> 0 <= fl < 4 -> Ranked U q cmp_fn rk -> Melds U q rk pqueue_pair_meld ->
  (Ranked U q PRIORITY_QUEUE_SCHED_PRI_MAX_HEAP_COMPARE keyat /\
   Ranked U q PRIORITY_QUEUE_SCHED_PRI_MIN_HEAP_COMPARE (fun h x => - keyat h x)) /\
  (forall h, mapped U q h ->
    wp (priority_queue_init q fl) (fun _ h' => pq U q fl h' (rk h') ∅ /\ effect U q h h' [] []) h) /\
  (forall h f S, pq U q fl h f S ->
    wp (priority_queue_empty q) (fun b h' => h' = h /\ (b = true <-> S = ∅)) h /\
    forall field, let answer v h' := h' = h /\ (S = ∅ /\ v = NULL \/ exists r, greatest f S r /\ v = r - field) in
    (max_heap fl -> wp (priority_queue_max field q) answer h) /\
    (~ max_heap fl -> wp (priority_queue_min field q) answer h)) /\
  (forall h f S, pq U q fl h f S -> S <> ∅ -> max_heap fl -> builtin fl ->
    wp (priority_queue_max_key q) (fun k h' => h' = h /\ exists r, greatest f S r /\ k = keyat h r mod 256) h) /\
  (forall h S, pq U q fl h (rk h) S -> S <> ∅ ->
    forall field, let taken v h' := exists r, v = r - field /\ greatest (rk h) S r /\ pq U q fl h' (rk h') (S ∖ {[r]}) /\
                              effect U q h h' (elements (S ∖ {[r]})) [] in
    (max_heap fl -> wp (priority_queue_remove_max pqueue_pair_meld field q) taken h) /\
    (~ max_heap fl -> wp (priority_queue_remove_min pqueue_pair_meld field q) taken h)) /\
  (forall h S e k, pq U q fl h (rk h) S -> e ∈ U -> e ∉ S -> childat h e = NULL -> key_ok fl k ->
    wp (priority_queue_insert cmp_fn q e k) (fun b h' => pq U q fl h' (rk h') ({[e]} ∪ S) /\ verdict (rk h') ({[e]} ∪ S) e b /\
      keyat h' e = newkey fl h e k /\ effect U q h h' (elements ({[e]} ∪ S)) [e]) h) /\
  (forall h f S e, pq U q fl h f S -> e ∈ S -> (forall x, x ∈ S -> x <> e -> f x = rk h x) ->
    wp (priority_queue_remove cmp_fn pqueue_pair_meld q e) (fun b h' => pq U q fl h' (rk h') (S ∖ {[e]}) /\ verdict f S e b /\
      fresh h' e /\ effect U q h h' (elements S) [e]) h /\
    forall k, key_ok fl k ->
      wp (priority_queue_entry_decrease cmp_fn pqueue_pair_meld q e k) (fun b h' => pq U q fl h' (rk h') S /\ verdict f S e b /\
        keyat h' e = (if decide (builtin fl) then sext8 k else 0) /\ effect U q h h' (elements S) [e]) h /\
      (f e <= rk (rekey fl h e k) e ->
        wp (priority_queue_entry_increase cmp_fn q e k) (fun b h' => pq U q fl h' (rk h') S /\ verdict (rk h') S e b /\
          keyat h' e = newkey fl h e k /\ effect U q h h' (elements S) [e]) h)).
Proof.
  intros HL Hfl HR HM. split; [split; [by apply max_compare_ranked|by apply min_compare_ranked]|].
  split; [intros h Hm; by eapply init_pq|]. split.
  { intros h f S Hp. split; [by eapply empty_pq|]. intros field. split; intros Hx.
    - by eapply assert_first, max_flag_pq, peek_pq.
    - by eapply assert_first, min_flag_pq, peek_pq. }
  split; [intros h f S Hp Hn Hx Hb; by eapply max_key_pq|]. split.
  { intros h S Hp Hn field. split; intros Hx.
    - by eapply assert_first, max_flag_pq, pop_pq.
    - by eapply assert_first, min_flag_pq, pop_pq. }
  split; [intros h S e k ? ? ? ? ?; by eapply insert_pq|]. intros h f S e Hp He Hrk. split; [by eapply remove_pq|].
  intros k Hk. split; [by eapply decrease_pq|]. intros Hup. by eapply increase_pq.
Qed.

(** Three entries and a head, zeroed. *)
Definition three : gset Z := {[64; 96; 128]}.
Definition blank : mem := list_to_map ((8, 0) :: flat_map (fun x => [(x, 0); (x + 8, 0); (x + 16, 0)]) [64; 96; 128]).

Lemma three_cases x : x ∈ three -> x = 64 \/ x = 96 \/ x = 128.
Proof. unfold three. rewrite !elem_of_union, !elem_of_singleton. tauto. Qed.

Lemma three_layout : layout three 8.
Proof.
  split.
  - intros x y Hx%three_cases Hy%three_cases. lia.
  - intros x Hx%three_cases. lia.
  - intros x Hx%three_cases. unfold canonical. split; [lia|]. split; [|lia]. by destruct Hx as [->|[->| ->]].
Qed.

Lemma blank_mapped : mapped three 8 blank.
Proof.
  split; [by eexists|]. intros x Hx%three_cases.
  destruct Hx as [->|[->| ->]]; (split; [by eexists|]); (split; [by eexists|]); exists 0; (split; [reflexivity|lia]).
Qed.

(** The queue at work: the entries come out in the order of their keys. *)
Definition session (meld : Z -> M mem Z) : M mem (Z * Z * Z * Z) :=
  let cmp := PRIORITY_QUEUE_SCHED_PRI_MAX_HEAP_COMPARE in
  priority_queue_init 8 PRIORITY_QUEUE_BUILTIN_MAX_HEAP ;;;
  _ <- priority_queue_insert cmp 8 64 5 ;;
  _ <- priority_queue_insert cmp 8 96 9 ;;
  _ <- priority_queue_insert cmp 8 128 7 ;;
  a <- priority_queue_max 0 8 ;;
  _ <- priority_queue_entry_decrease cmp meld 8 96 1 ;;
  b <- priority_queue_remove_max meld 0 8 ;;
  _ <- priority_queue_entry_increase cmp 8 96 6 ;;
  c <- priority_queue_remove_max meld 0 8 ;;
  d <- priority_queue_max 0 8 ;;
  ret (a, b, c, d).

Lemma priority_queue_operations_witness :
  let cmp := PRIORITY_QUEUE_SCHED_PRI_MAX_HEAP_COMPARE in
  let fl := PRIORITY_QUEUE_BUILTIN_MAX_HEAP in
  (exists h, session (meld cmp 3) blank = Done (96, 128, 96, 64) h) /\
  wp (priority_queue_init 8 fl ;;; priority_queue_insert cmp 8 64 5)
    (fun b h => b = true /\ pq three 8 fl h (keyat h) ({[64]} ∪ ∅) /\ keyat h 64 = 5) blank.
Proof.
  split; [eexists; vm_compute; reflexivity|].
  pose proof (max_compare_ranked three 8) as HR.
  destruct (priority_queue_operations three 8 PRIORITY_QUEUE_BUILTIN_MAX_HEAP PRIORITY_QUEUE_SCHED_PRI_MAX_HEAP_COMPARE
    (fun h => keyat h) (meld PRIORITY_QUEUE_SCHED_PRI_MAX_HEAP_COMPARE 3))
    as (_ & Hinit & _ & _ & _ & Hinsert & _);
    [apply three_layout|by vm_compute|exact HR|apply (meld_melds three 8 three_layout _ _ (HR := HR))|].
  apply wp_bind. eapply wp_mono; [by apply Hinit, blank_mapped|]. intros [] h1 [Hp1 He1].
  assert (H64 : 64 ∈ three) by (unfold three; set_solver).
  assert (Hc : childat h1 64 = NULL).
  { destruct (eff_links _ _ _ _ _ _ He1 64 H64) as (_ & _ & ->); [apply not_elem_of_nil|]. by vm_compute. }
  eapply wp_mono; [apply (Hinsert h1 ∅ 64 5); [done|done|apply not_elem_of_empty|done|by vm_compute]|].
  intros b h2 (Hp2 & Hv & Hk & _). split; [|split; [done|by rewrite Hk; vm_compute]].
  destruct b; [done|]. destruct Hv as (x & Hx & Hne & _). exfalso. set_solver.
Defined.

(** C34. Where the operations do not do what their descriptions say, for every
    queue, memory and correct [pqueue_pair_meld].  Keys from 128 to 255, which
    [insert] accepts, are stored as negative numbers: such an entry ranks below
    every entry with a key from 0 to 127 and does not become the maximum.  On a
    min-heap, [increase] of the strictly least entry to a key above another's leaves it
    at the root, returns true, and [min] goes on giving it.  On a min-heap,
    [decrease] of another entry to the new least key changes the root but
    returns false.  The entry [remove_max] takes out, if others are left, still
    points to its first child, one of them (so that it must be initialised
    before it is inserted again); and [remove_max] of an empty queue reads the null entry,
    which faults when it is not mapped. *)
Theorem priority_queue_hazards (U : gset Z) (q fl : Z) (pqueue_pair_meld : Z -> M mem Z) (h : mem) (S : gset Z) (field : Z) :
  layout U q -> 0 <= fl < 4 ->
  let mx := PRIORITY_QUEUE_SCHED_PRI_MAX_HEAP_COMPARE in
  let mn := PRIORITY_QUEUE_SCHED_PRI_MIN_HEAP_COMPARE in
  (builtin fl -> pq U q fl h (keyat h) S ->
    forall e x k, e ∈ U -> e ∉ S -> childat h e = NULL -> 128 <= k <= 255 -> x ∈ S -> 0 <= keyat h x ->
    wp (priority_queue_insert mx q e k) (fun b h' => b = false /\ pq U q fl h' (keyat h') ({[e]} ∪ S) /\
      keyat h' e = k - 256 /\ keyat h' e < keyat h' x) h) /\
  (builtin fl -> ~ max_heap fl -> pq U q fl h (fun x => - keyat h x) S ->
    forall r x k, r ∈ S -> (forall y, y ∈ S -> y <> r -> keyat h r < keyat h y) -> x ∈ S -> x <> r ->
    0 <= k <= 255 -> keyat h x < sext8 k ->
    wp (b <- priority_queue_entry_increase mn q r k ;; v <- priority_queue_min field q ;; ret (b, v))
      (fun bv h' => bv = (true, r - field) /\ keyat h' x < keyat h' r) h) /\
  (builtin fl -> ~ max_heap fl -> Melds U q (fun h x => - keyat h x) pqueue_pair_meld -> pq U q fl h (fun x => - keyat h x) S ->
    forall e x k, e ∈ S -> x ∈ S -> keyat h x < keyat h e -> 0 <= k <= 255 ->
    (forall y, y ∈ S -> y <> e -> sext8 k < keyat h y) ->
    wp (v <- priority_queue_min field q ;; b <- priority_queue_entry_decrease mn pqueue_pair_meld q e k ;;
        w <- priority_queue_min field q ;; ret (v, b, w))
      (fun r _ => exists v, r = (v, false, e - field) /\ v <> e - field) h) /\
  (forall cmp_fn rk, Ranked U q cmp_fn rk -> Melds U q rk pqueue_pair_meld -> pq U q fl h (rk h) S -> S <> ∅ -> max_heap fl ->
    wp (priority_queue_remove_max pqueue_pair_meld field q) (fun v h' => exists r, v = r - field /\ r ∈ S /\
      childat h' r = childat h r /\ (S <> {[r]} -> childat h' r ∈ S ∖ {[r]})) h) /\
  (max_heap fl -> forall f, pq U q fl h f ∅ -> h !! packed (entry NULL) = None ->
    faults (priority_queue_remove_max pqueue_pair_meld field q) h).
Proof.
  intros HL Hfl mx mn. split; [|split; [|split; [|split]]].
  - intros Hb Hp e x k. by apply (insert_negative U q HL fl h S).
  - intros Hb Hx Hp r x k Hr Hmin HxS Hne Hk Hlt. pose proof (min_compare_ranked U q) as HR.
    pose proof (meld_melds U q HL mn _ (HR := HR)) as HM.
    assert (HU : forall y, y ∈ S -> y ∈ U) by (destruct Hp as (t & (_ & Ht & _) & HS); intros y Hy; by apply Ht, HS).
    eapply wp_mono; [apply (increase_top U q HL mn _ (HR := HR) _ (HM := HM) fl Hfl h S r k field Hp Hr); try done|].
    + intros y Hy Hyr. specialize (Hmin y Hy Hyr). lia.
    + unfold key_ok. by rewrite decide_True.
    + intros bv h' [-> ->]. split; [done|]. assert (Hm : mapped U q h) by by destruct Hp as (t & [? _] & _).
      assert (E : keyat (rekey fl h r k) r = newkey fl h r k) by (eapply rekey_key; eauto).
      rewrite E. unfold newkey. rewrite decide_True by done.
      assert (He : effect U q h (rekey fl h r k) [] [r]) by (eapply rekey_effect; eauto).
      rewrite (eff_key _ _ _ _ _ _ He); [done|auto|]. by intros ?%list_elem_of_singleton.
  - intros Hb Hx HM Hp e x k. by apply (decrease_to_root U q HL fl).
  - intros cmp_fn rk HR HM Hp Hn Hx. by eapply (pop_child U q HL cmp_fn rk).
  - intros Hx f Hp Hnull. pose proof (max_compare_ranked U q) as HR.
    pose proof (meld_melds U q HL mx _ (HR := HR)) as HM.
    by apply (empty_pop_faults U q HL mx keyat (HR := HR) _ (HM := HM) fl Hfl _ h f).
Qed.

(** The entries 64 with key 100 and 96 with key 200: the latter does not become
    the root.  Two entries of a max-heap, the root taken out and inserted again
    as it is: each is then the child of the other. *)
Lemma priority_queue_hazards_witness :
  let mx := PRIORITY_QUEUE_SCHED_PRI_MAX_HEAP_COMPARE in
  let fl := PRIORITY_QUEUE_BUILTIN_MAX_HEAP in
  let put e k := _ <- priority_queue_insert mx 8 e k ;; ret tt in
  wp (priority_queue_init 8 fl ;;; _ <- priority_queue_insert mx 8 64 100 ;; priority_queue_insert mx 8 96 200)
    (fun b h => b = false /\ keyat h 96 = -56) blank /\
  wp (priority_queue_init 8 fl ;;; put 64 5 ;;; put 96 9 ;;; _ <- priority_queue_remove_max (meld mx 3) 0 8 ;; put 96 1)
    (fun _ h => childat h 64 = 96 /\ childat h 96 = 64) blank.
Proof.
  intros mx fl put. split; [|by vm_compute]. pose proof (max_compare_ranked three 8) as HR.
  pose proof (meld_melds three 8 three_layout _ _ (HR := HR)) as HM.
  assert (H64 : 64 ∈ three) by (unfold three; set_solver). assert (H96 : 96 ∈ three) by (unfold three; set_solver).
  assert (Hfl : 0 <= fl < 4) by by vm_compute.
  apply wp_bind. eapply wp_mono; [by apply (init_pq three 8 three_layout mx keyat (meld mx (size three)) fl Hfl), blank_mapped|].
  intros [] h1 [Hp1 He1].
  assert (Hc : forall x, x ∈ three -> childat h1 x = NULL).
  { intros x Hx. destruct (eff_links _ _ _ _ _ _ He1 x Hx) as (_ & _ & ->); [apply not_elem_of_nil|].
    by destruct (three_cases x Hx) as [->|[->| ->]]; vm_compute. }
  apply wp_bind. eapply wp_mono; [by apply (insert_pq three 8 three_layout mx keyat (meld mx (size three)) fl Hfl h1 ∅ 64 100);
    auto; [apply not_elem_of_empty|vm_compute]|].
  intros b h2 (Hp2 & _ & Hk & He2).
  destruct (priority_queue_hazards three 8 fl (meld mx 3) h2 ({[64]} ∪ ∅) 0 three_layout Hfl) as (H & _).
  eapply wp_mono; [apply (H eq_refl Hp2 96 64 200)|].
  - done.
  - set_solver.
  - destruct (eff_links _ _ _ _ _ _ He2 96 H96) as (_ & _ & ->); [set_solver|]. by apply Hc.
  - lia.
  - set_solver.
  - rewrite Hk. by vm_compute.
  - intros b' h3 (-> & _ & E & _). split; [done|]. by rewrite E.
Defined.

End PriorityQueueSpec.
