(* ===== verification/SearchList.v ===== *)
(** * SearchList: lists sorted by a key, and comparisons that find the key

    What the splay trees and the red-black trees of [libkern/tree.h] share: a
    tree stands for the list of its elements in order, and the comparison
    function the macros get orders them by a key.  Left and right are the
    booleans [false] and [true]. *)

From Stdlib Require Import ZArith Lia Bool.
From stdpp Require Import base list option gmap sorting.
From S2P Require Import Prelude Ring.
Open Scope Z_scope.

Module SearchList.

(** [a] comes before [b] on the way in the direction [d]. *)
Definition past (d : bool) (a b : Z) : Prop := if d then b < a else a < b.

#[global] Instance past_decision d a b : Decision (past d a b).
Proof. destruct d; unfold past; apply _. Defined.

(** The result of a comparison that sends a search in the direction [d]. *)
Definition toward (d : bool) (c : Z) : Prop := if d then 0 < c else c < 0.

Lemma toward_cases c : c = 0 \/ exists d, toward d c.
Proof.
  destruct (decide (c = 0)); [by left|]. right. destruct (decide (c < 0)); [by exists false|exists true; unfold toward; lia].
Qed.

(** In memories where [D] holds, the comparison orders the elements of [U] by
    [key]; what the operations of a tree change ([outside] relates the memory
    before and after) does not matter to it. *)
Class Orders (U : gset Z) (outside : mem -> mem -> Prop) (cmp : Z -> Z -> M mem Z) (D : mem -> Prop) (key : Z -> Z) : Prop := {
  cmp_run h a b : D h -> a ∈ U -> b ∈ U ->
    exists v, cmp a b h = Done v h /\ (v < 0 <-> key a < key b) /\ (0 < v <-> key b < key a);
  D_same h h' : outside h h' -> D h -> D h'
}.

Lemma wp_cmp {U outside cmp D key} `{HO : !Orders U outside cmp D key} h a b Q : D h -> a ∈ U -> b ∈ U ->
  (forall v, (forall d, toward d v <-> past d (key a) (key b)) -> (v = 0 <-> key a = key b) -> Q v h) -> wp (cmp a b) Q h.
Proof.
  intros HD Ha Hb HQ. destruct (cmp_run h a b HD Ha Hb) as (v & Hv & H1 & H2). apply wp_run. exists v, h. split; [done|].
  apply HQ; [by intros []|lia].
Qed.

(** A comparison: the key of an element is its first word. *)
Definition compare_keys (a b : Z) : M mem Z :=
  ka <- load a ;; kb <- load b ;; ret (if ka <? kb then -1 else if kb <? ka then 1 else 0).

Lemma compare_keys_run h a b ka kb : h !! a = Some ka -> h !! b = Some kb ->
  exists v, compare_keys a b h = Done v h /\ (v < 0 <-> ka < kb) /\ (0 < v <-> kb < ka).
Proof.
  intros Ha Hb. exists (if ka <? kb then -1 else if kb <? ka then 1 else 0).
  split; [unfold compare_keys, bind, load, ret; by rewrite Ha, Hb|]. destruct (Z.ltb_spec ka kb), (Z.ltb_spec kb ka); lia.
Qed.

Section Keys.
Context (key : Z -> Z).

Definition sorted (l : list Z) : Prop := StronglySorted (fun a b => key a < key b) l.

(** The result of a search. *)
Definition found (l : list Z) (elm v : Z) : Prop :=
  v ∈ l /\ key v = key elm \/ v = NULL /\ forall y, y ∈ l -> key y <> key elm.

(** The result of an insertion that may find the key taken. *)
Definition inserted (l : list Z) (elm v : Z) (has : list Z -> Prop) : Prop :=
  (v ∈ l /\ key v = key elm /\ has l) \/
  (v = NULL /\ (forall y, y ∈ l -> key y <> key elm) /\ exists l1 l2, l = l1 ++ l2 /\ has (l1 ++ elm :: l2)).

Lemma sorted_app l1 l2 : sorted (l1 ++ l2) <-> (forall a b, a ∈ l1 -> b ∈ l2 -> key a < key b) /\ sorted l1 /\ sorted l2.
Proof. unfold sorted. rewrite StronglySorted_app. done. Qed.

Lemma sorted_cons x l : sorted (x :: l) <-> (forall b, b ∈ l -> key x < key b) /\ sorted l.
Proof. unfold sorted. by rewrite StronglySorted_cons, Forall_forall. Qed.

Lemma sorted_drop l1 x l2 : sorted (l1 ++ x :: l2) -> sorted (l1 ++ l2).
Proof.
  rewrite !sorted_app, sorted_cons. intros (H1 & H2 & _ & H3). split_and!; try done.
  intros a b Ha Hb. apply H1; [done|]. by right.
Qed.

(** An element between what is below and what is above it. *)
Lemma sorted_insert l1 x l2 : sorted (l1 ++ l2) -> (forall a, a ∈ l1 -> key a < key x) -> (forall b, b ∈ l2 -> key x < key b) ->
  sorted (l1 ++ x :: l2).
Proof.
  rewrite !sorted_app, sorted_cons. intros (H1 & H2 & H3) Ha Hb. split_and!; try done. intros a b Hai Hbi.
  apply elem_of_cons in Hbi as [->|Hbi]; auto.
Qed.

End Keys.

Lemma NoDup_drop (l1 : list Z) x l2 : NoDup (l1 ++ x :: l2) -> NoDup (l1 ++ l2).
Proof. rewrite <- Permutation_middle, NoDup_cons. tauto. Qed.

(** The place of an element in a list is determined. *)
Lemma app_inj_pivot' (x : Z) l1 l2 k1 k2 : l1 ++ x :: l2 = k1 ++ x :: k2 -> x ∉ l1 -> x ∉ k1 -> l1 = k1 /\ l2 = k2.
Proof.
  revert k1. induction l1 as [|a l1 IH]; intros [|b k1]; simpl; intros E H1 H2; simplify_eq; set_solver.
Qed.

Lemma nodup_pivot (x : Z) l1 l2 k1 k2 : NoDup (l1 ++ x :: l2) -> l1 ++ x :: l2 = k1 ++ x :: k2 -> l1 = k1 /\ l2 = k2.
Proof.
  intros Hnd E. pose proof Hnd as Hnd'. rewrite E in Hnd'. apply NoDup_app in Hnd as (_ & N1 & _). apply NoDup_app in Hnd' as (_ & N2 & _).
  apply app_inj_pivot' with x; [done|intros H; apply (N1 x H); set_solver|intros H; apply (N2 x H); set_solver].
Qed.

End SearchList.
