(* ===== verification/SplayTree.v ===== *)
(** * SplayTree: the splay trees of [src/MacKernelSDK/Headers/libkern/tree.h]

    An element has two links, [field] bytes into it; the head has one cell, the
    pointer to the root.  The comparison of elements and the address of the
    local element [__node] are parameters.  [SplayTreeSpec] has the theorems. *)

From Stdlib Require Import ZArith Lia Bool.
From stdpp Require Import base list option gmap.
From S2P Require Import Prelude Ring.
Open Scope Z_scope.

Module SplayTree.

Section Splay.
Context (field : Z) (cmp : Z -> Z -> M mem Z) (__node : Z).

(** The fields of an element and of the head. *)
Definition SPLAY_LEFT (elm : Z) : Z := elm + field.
Definition SPLAY_RIGHT (elm : Z) : Z := elm + field + 8.
Definition sph_root (head : Z) : Z := head.

Definition SPLAY_INIT (root : Z) : M mem unit := store (sph_root root) NULL.
Definition SPLAY_ROOT (head : Z) : M mem Z := load (sph_root head).
Definition SPLAY_EMPTY (head : Z) : M mem bool := r <- SPLAY_ROOT head ;; ret (r =? NULL).

Definition SPLAY_ROTATE_RIGHT (head tmp : Z) : M mem unit :=
  root <- load (sph_root head) ;;
  r <- load (SPLAY_RIGHT tmp) ;;
  store (SPLAY_LEFT root) r ;;;
  root <- load (sph_root head) ;;
  store (SPLAY_RIGHT tmp) root ;;;
  store (sph_root head) tmp.

Definition SPLAY_ROTATE_LEFT (head tmp : Z) : M mem unit :=
  root <- load (sph_root head) ;;
  l <- load (SPLAY_LEFT tmp) ;;
  store (SPLAY_RIGHT root) l ;;;
  root <- load (sph_root head) ;;
  store (SPLAY_LEFT tmp) root ;;;
  store (sph_root head) tmp.

(** Both return the new value of [tmp]. *)
Definition SPLAY_LINKLEFT (head tmp : Z) : M mem Z :=
  root <- load (sph_root head) ;;
  store (SPLAY_LEFT tmp) root ;;;
  tmp <- load (sph_root head) ;;
  root <- load (sph_root head) ;;
  l <- load (SPLAY_LEFT root) ;;
  store (sph_root head) l ;;;
  ret tmp.

Definition SPLAY_LINKRIGHT (head tmp : Z) : M mem Z :=
  root <- load (sph_root head) ;;
  store (SPLAY_RIGHT tmp) root ;;;
  tmp <- load (sph_root head) ;;
  root <- load (sph_root head) ;;
  r <- load (SPLAY_RIGHT root) ;;
  store (sph_root head) r ;;;
  ret tmp.

Definition SPLAY_ASSEMBLE (head node left right : Z) : M mem unit :=
  root <- load (sph_root head) ;;
  l <- load (SPLAY_LEFT root) ;;
  store (SPLAY_RIGHT left) l ;;;
  root <- load (sph_root head) ;;
  r <- load (SPLAY_RIGHT root) ;;
  store (SPLAY_LEFT right) r ;;;
  root <- load (sph_root head) ;;
  l <- load (SPLAY_RIGHT node) ;;
  store (SPLAY_LEFT root) l ;;;
  root <- load (sph_root head) ;;
  r <- load (SPLAY_LEFT node) ;;
  store (SPLAY_RIGHT root) r.

(** One round of the loop of [name##_SPLAY] and of [name##_SPLAY_MINMAX] that
    goes to the left: [test] is the second comparison.  [None]: the loop ends. *)
Definition go_left (head right : Z) (test : Z -> M mem bool) : M mem (option Z) :=
  root <- load (sph_root head) ;;
  __tmp <- load (SPLAY_LEFT root) ;;
  if __tmp =? NULL then ret None else
  b <- test __tmp ;;
  brk <- (if (b : bool) then
            SPLAY_ROTATE_RIGHT head __tmp ;;;
            root <- load (sph_root head) ;;
            l <- load (SPLAY_LEFT root) ;;
            ret (l =? NULL)
          else ret false) ;;
  if (brk : bool) then ret None else
  right <- SPLAY_LINKLEFT head right ;;
  ret (Some right).

Definition go_right (head left : Z) (test : Z -> M mem bool) : M mem (option Z) :=
  root <- load (sph_root head) ;;
  __tmp <- load (SPLAY_RIGHT root) ;;
  if __tmp =? NULL then ret None else
  b <- test __tmp ;;
  brk <- (if (b : bool) then
            SPLAY_ROTATE_LEFT head __tmp ;;;
            root <- load (sph_root head) ;;
            r <- load (SPLAY_RIGHT root) ;;
            ret (r =? NULL)
          else ret false) ;;
  if (brk : bool) then ret None else
  left <- SPLAY_LINKRIGHT head left ;;
  ret (Some left).

(** The loop of [name##_SPLAY]; it returns [__left] and [__right]. *)
Fixpoint splay_loop (fuel : nat) (head elm left right : Z) : M mem (Z * Z) :=
  match fuel with
  | O => fault
  | S fuel =>
      root <- load (sph_root head) ;;
      __comp <- cmp elm root ;;
      if __comp =? 0 then ret (left, right)
      else if __comp <? 0 then
        o <- go_left head right (fun __tmp => c <- cmp elm __tmp ;; ret (c <? 0)) ;;
        match o with None => ret (left, right) | Some __right => splay_loop fuel head elm left __right end
      else if 0 <? __comp then
        o <- go_right head left (fun __tmp => c <- cmp elm __tmp ;; ret (0 <? c)) ;;
        match o with None => ret (left, right) | Some __left => splay_loop fuel head elm __left right end
      else splay_loop fuel head elm left right
  end.

Definition SPLAY (fuel : nat) (head elm : Z) : M mem unit :=
  store (SPLAY_RIGHT __node) NULL ;;;
  store (SPLAY_LEFT __node) NULL ;;;
  p <- splay_loop fuel head elm __node __node ;;
  SPLAY_ASSEMBLE head __node (fst p) (snd p).

Fixpoint minmax_loop (fuel : nat) (head __comp left right : Z) : M mem (Z * Z) :=
  match fuel with
  | O => fault
  | S fuel =>
      if __comp <? 0 then
        o <- go_left head right (fun _ => ret (__comp <? 0)) ;;
        match o with None => ret (left, right) | Some __right => minmax_loop fuel head __comp left __right end
      else if 0 <? __comp then
        o <- go_right head left (fun _ => ret (0 <? __comp)) ;;
        match o with None => ret (left, right) | Some __left => minmax_loop fuel head __comp __left right end
      else minmax_loop fuel head __comp left right
  end.

Definition SPLAY_MINMAX (fuel : nat) (head __comp : Z) : M mem unit :=
  store (SPLAY_RIGHT __node) NULL ;;;
  store (SPLAY_LEFT __node) NULL ;;;
  p <- minmax_loop fuel head __comp __node __node ;;
  SPLAY_ASSEMBLE head __node (fst p) (snd p).

(** ** The operations *)

Definition SPLAY_FIND (fuel : nat) (head elm : Z) : M mem Z :=
  e <- SPLAY_EMPTY head ;;
  if (e : bool) then ret NULL else
  SPLAY fuel head elm ;;;
  root <- load (sph_root head) ;;
  c <- cmp elm root ;;
  if c =? 0 then load (sph_root head) else ret NULL.

(** [while (SPLAY_LEFT(elm, field) != NULL) elm = SPLAY_LEFT(elm, field)]. *)
Fixpoint leftmost (fuel : nat) (elm : Z) : M mem Z :=
  match fuel with
  | O => fault
  | S fuel =>
      l <- load (SPLAY_LEFT elm) ;;
      if negb (l =? NULL) then elm <- load (SPLAY_LEFT elm) ;; leftmost fuel elm else ret elm
  end.

Definition SPLAY_NEXT (fuel : nat) (head elm : Z) : M mem Z :=
  SPLAY fuel head elm ;;;
  r <- load (SPLAY_RIGHT elm) ;;
  if negb (r =? NULL) then elm <- load (SPLAY_RIGHT elm) ;; leftmost fuel elm
  else ret NULL.

Definition SPLAY_MIN_MAX (fuel : nat) (head val : Z) : M mem Z :=
  SPLAY_MINMAX fuel head val ;;;
  SPLAY_ROOT head.

Definition SPLAY_INSERT (fuel : nat) (head elm : Z) : M mem Z :=
  e <- SPLAY_EMPTY head ;;
  dup <- (if (e : bool) then
            store (SPLAY_RIGHT elm) NULL ;;;
            store (SPLAY_LEFT elm) NULL ;;;
            ret None
          else
            SPLAY fuel head elm ;;;
            root <- load (sph_root head) ;;
            __comp <- cmp elm root ;;
            if __comp <? 0 then
              root <- load (sph_root head) ;;
              l <- load (SPLAY_LEFT root) ;;
              store (SPLAY_LEFT elm) l ;;;
              root <- load (sph_root head) ;;
              store (SPLAY_RIGHT elm) root ;;;
              root <- load (sph_root head) ;;
              store (SPLAY_LEFT root) NULL ;;;
              ret None
            else if 0 <? __comp then
              root <- load (sph_root head) ;;
              r <- load (SPLAY_RIGHT root) ;;
              store (SPLAY_RIGHT elm) r ;;;
              root <- load (sph_root head) ;;
              store (SPLAY_LEFT elm) root ;;;
              root <- load (sph_root head) ;;
              store (SPLAY_RIGHT root) NULL ;;;
              ret None
            else
              root <- load (sph_root head) ;;
              ret (Some root)) ;;
  match dup with
  | Some r => ret r
  | None => store (sph_root head) elm ;;; ret NULL
  end.

Definition SPLAY_REMOVE (fuel : nat) (head elm : Z) : M mem Z :=
  e <- SPLAY_EMPTY head ;;
  if (e : bool) then ret NULL else
  SPLAY fuel head elm ;;;
  root <- load (sph_root head) ;;
  c <- cmp elm root ;;
  if c =? 0 then
    root <- load (sph_root head) ;;
    l <- load (SPLAY_LEFT root) ;;
    (if l =? NULL then
       root <- load (sph_root head) ;;
       r <- load (SPLAY_RIGHT root) ;;
       store (sph_root head) r
     else
       root <- load (sph_root head) ;;
       __tmp <- load (SPLAY_RIGHT root) ;;
       root <- load (sph_root head) ;;
       l <- load (SPLAY_LEFT root) ;;
       store (sph_root head) l ;;;
       SPLAY fuel head elm ;;;
       root <- load (sph_root head) ;;
       store (SPLAY_RIGHT root) __tmp) ;;;
    ret elm
  else ret NULL.

Definition SPLAY_NEGINF : Z := -1.
Definition SPLAY_INF : Z := 1.

Definition SPLAY_MIN (fuel : nat) (x : Z) : M mem Z :=
  e <- SPLAY_EMPTY x ;;
  if (e : bool) then ret NULL else SPLAY_MIN_MAX fuel x SPLAY_NEGINF.
Definition SPLAY_MAX (fuel : nat) (x : Z) : M mem Z :=
  e <- SPLAY_EMPTY x ;;
  if (e : bool) then ret NULL else SPLAY_MIN_MAX fuel x SPLAY_INF.

(** The loop from the element [x] on. *)
Fixpoint foreach_from (n fuel : nat) (head : Z) (body : Z -> M mem unit) (x : Z) : M mem unit :=
  match n with
  | O => fault
  | S n =>
      if negb (x =? NULL) then
        body x ;;;
        x <- SPLAY_NEXT fuel head x ;;
        foreach_from n fuel head body x
      else ret tt
  end.
Definition SPLAY_FOREACH (n fuel : nat) (head : Z) (body : Z -> M mem unit) : M mem unit :=
  x <- SPLAY_MIN fuel head ;;
  foreach_from n fuel head body x.

End Splay.

End SplayTree.
