(* ===== verification/SplayTreeSpec.v ===== *)
(** * SplayTreeSpec: the splay trees of [libkern/tree.h] hold sorted lists

    The operations of [SplayTree] are proved against the list of the elements
    in the order of the comparison.  Left and right are the booleans [false]
    and [true]: what [tree.h] writes out twice is proved once.  While a tree is
    splayed, the elements passed on the way down hang on two spines that start
    at the local element [__node]. *)

From Stdlib Require Import ZArith Lia Bool.
From stdpp Require Import base list option gmap sorting.
From S2P Require Import Prelude Ring SearchList SplayTree.
Import SearchList SplayTree.
Open Scope Z_scope.

Module SplayTreeSpec.

(** ** Trees, spines and their elements in order *)

Inductive tree : Type := Leaf | Node (l : tree) (x : Z) (r : tree).

#[global] Instance tree_eq_dec : EqDecision tree.
Proof. solve_decision. Defined.

Definition hd (t : tree) : Z := match t with Leaf => NULL | Node _ x _ => x end.

Fixpoint inorder (t : tree) : list Z :=
  match t with Leaf => [] | Node l x r => inorder l ++ x :: inorder r end.

(** The node [x] with [near] in the direction [d] and [far] in the other. *)
Definition mk (d : bool) (near : tree) (x : Z) (far : tree) : tree :=
  if d then Node far x near else Node near x far.

(** The nodes of a spine with what hangs on them. *)
Abbreviation spine := (list (Z * tree)).

Fixpoint lst (p : Z) (l : spine) : Z :=
  match l with [] => p | (x, _) :: l => lst x l end.

(** A spine in the direction [d] in order: its last node is the innermost. *)
Fixpoint flat (d : bool) (l : spine) : list Z :=
  match l with
  | [] => []
  | (x, s) :: l => if d then inorder s ++ x :: flat d l else flat d l ++ x :: inorder s
  end.

(** [t] at the end of a spine. *)
Fixpoint close (d : bool) (l : spine) (t : tree) : tree :=
  match l with [] => t | (x, s) :: l => mk d (close d l t) x s end.

(** The two spines, by direction, around a tree. *)
Definition whole (S : bool -> spine) (t : tree) : list Z :=
  flat true (S true) ++ inorder t ++ flat false (S false).

Definition push (S : bool -> spine) (d : bool) (i : Z * tree) : bool -> spine :=
  fun e => if decide (e = d) then S e ++ [i] else S e.

Lemma hd_mk d n x f : hd (mk d n x f) = x.
Proof. by destruct d. Qed.

Lemma mk_cases d t : t = Leaf \/ exists n x f, t = mk d n x f.
Proof. destruct t as [|l x r]; [by left|]. right. destruct d; [by exists r, x, l|by exists l, x, r]. Qed.

Lemma inorder_mk d n x f y : y ∈ inorder (mk d n x f) <-> y = x \/ y ∈ inorder n \/ y ∈ inorder f.
Proof. destruct d; simpl; rewrite elem_of_app, elem_of_cons; tauto. Qed.

Lemma mk_perm d n x f : inorder (mk d n x f) ≡ₚ x :: inorder n ++ inorder f.
Proof. destruct d; simpl; solve_Permutation. Qed.

Lemma length_mk d n x f : length (inorder (mk d n x f)) = S (length (inorder n) + length (inorder f)).
Proof. destruct d; simpl; rewrite length_app; simpl; lia. Qed.

Lemma lst_snoc p l x s : lst p (l ++ [(x, s)]) = x.
Proof. revert p. induction l as [|[y u] l IH]; intros p; simpl; auto. Qed.

Lemma lst_in d p l : lst p l = p \/ lst p l ∈ flat d l.
Proof.
  revert p. induction l as [|[x s] l IH]; intros p; simpl; [by left|]. right.
  destruct (IH x) as [->|H]; destruct d; set_solver.
Qed.

Lemma flat_snoc d l x s y : y ∈ flat d (l ++ [(x, s)]) <-> y ∈ flat d l \/ y = x \/ y ∈ inorder s.
Proof. induction l as [|[z u] l IH]; simpl; destruct d; set_solver. Qed.

Lemma flat_snoc_true l x s : flat true (l ++ [(x, s)]) = flat true l ++ inorder s ++ [x].
Proof. induction l as [|[z u] l IH]; simpl; [done|]. by rewrite IH, <- !app_assoc. Qed.

Lemma flat_snoc_false l x s : flat false (l ++ [(x, s)]) = x :: inorder s ++ flat false l.
Proof. induction l as [|[z u] l IH]; simpl; [by rewrite app_nil_r|]. rewrite IH. simpl. by rewrite <- !app_assoc. Qed.

Lemma whole_push S d x a f : whole (push S d (x, f)) a = whole S (mk d a x f).
Proof.
  unfold whole, push. destruct d; simpl.
  - rewrite flat_snoc_true, <- !app_assoc. simpl. done.
  - rewrite flat_snoc_false, <- !app_assoc. done.
Qed.

Lemma inorder_rotate d a y b x f : inorder (mk d (mk d a y b) x f) = inorder (mk d a y (mk d b x f)).
Proof. destruct d; simpl; by rewrite <- !app_assoc. Qed.

Lemma whole_rotate S d a y b x f : whole S (mk d (mk d a y b) x f) = whole S (mk d a y (mk d b x f)).
Proof. unfold whole. by rewrite inorder_rotate. Qed.

Lemma inorder_close_true l t : inorder (close true l t) = flat true l ++ inorder t.
Proof. induction l as [|[x s] l IH]; simpl; [done|]. by rewrite IH, <- app_assoc. Qed.

Lemma inorder_close_false l t : inorder (close false l t) = inorder t ++ flat false l.
Proof. induction l as [|[x s] l IH]; simpl; [by rewrite app_nil_r|]. by rewrite IH, <- app_assoc. Qed.

(** The parts of the whole are disjoint. *)
Lemma whole_elem S t x : x ∈ whole S t <-> x ∈ inorder t \/ exists d, x ∈ flat d (S d).
Proof.
  unfold whole. rewrite !elem_of_app. split.
  - intros [H|[H|H]]; [right; by exists true|by left|right; by exists false].
  - intros [H|[[] H]]; auto.
Qed.

Lemma whole_nodup S t : NoDup (whole S t) ->
  NoDup (inorder t) /\ (forall d, NoDup (flat d (S d))) /\ (forall d x, x ∈ inorder t -> x ∉ flat d (S d)) /\
  forall d x, x ∈ flat d (S d) -> x ∉ flat (negb d) (S (negb d)).
Proof.
  unfold whole. rewrite !NoDup_app. intros (H1 & H2 & H3 & H4 & H5). split_and!; [done| | |].
  - by intros [].
  - intros [] x Hx Hf; [|by apply (H4 x)]. apply (H2 x Hf). rewrite elem_of_app. by left.
  - intros [] x Hx Hf; apply (H2 x); rewrite ?elem_of_app; auto.
Qed.

(** ** Links

    [k d x] is the link of [x] in the direction [d]. *)
Fixpoint tr (k : bool -> Z -> Z) (t : tree) : Prop :=
  match t with
  | Leaf => True
  | Node l x r => k false x = hd l /\ k true x = hd r /\ tr k l /\ tr k r
  end.

(** The link of the last node in the direction [d] may be anything. *)
Fixpoint strung (k : bool -> Z -> Z) (d : bool) (p : Z) (l : spine) : Prop :=
  match l with
  | [] => True
  | (x, s) :: l => k d p = x /\ k (negb d) x = hd s /\ tr k s /\ strung k d x l
  end.

Lemma tr_mk k d n x f : tr k (mk d n x f) <-> k d x = hd n /\ k (negb d) x = hd f /\ tr k n /\ tr k f.
Proof. destruct d; simpl; tauto. Qed.

Lemma tr_ext k k' t : (forall d x, x ∈ inorder t -> k' d x = k d x) -> tr k t -> tr k' t.
Proof.
  induction t as [|l IHl x r IHr]; simpl; [done|]. intros Hf (H1 & H2 & Hl & Hr).
  rewrite !(Hf _ x) by set_solver. split_and!; try done; [apply IHl|apply IHr]; try done; intros d y Hy; apply Hf; set_solver.
Qed.

(** Spines that hang on [p] keep their shape when the cells they use do: not
    the open link of the last node, nor the other link of [p]. *)
Lemma strung_ext k k' d l : forall p, p ∉ flat d l -> NoDup (flat d l) ->
  (forall e x, x ∈ p :: flat d l -> (e, x) <> (d, lst p l) -> (e, x) <> (negb d, p) -> k' e x = k e x) ->
  strung k d p l -> strung k' d p l.
Proof.
  induction l as [|[x s] l IH]; intros p Hp Hnd Hf; [done|]. intros (H1 & H2 & Hs & Hl).
  assert (Hin : forall y, y ∈ flat d ((x, s) :: l) <-> y = x \/ y ∈ inorder s \/ y ∈ flat d l) by (intros y; destruct d; simpl; set_solver).
  assert (Hdis : x ∉ inorder s /\ x ∉ flat d l /\ NoDup (flat d l) /\ forall y, y ∈ inorder s -> y ∉ flat d l).
  { destruct d; simpl in Hnd; apply NoDup_app in Hnd as (N1 & N2 & N3); apply NoDup_cons in N3 as [N3 N4];
      (split_and!; [|done || (intros Hx; apply (N2 x Hx); set_solver)|done|]); try done.
    - intros Hx. apply (N2 x Hx). set_solver.
    - intros y Hy Hy'. apply (N2 y Hy). set_solver.
    - intros y Hy Hy'. apply (N2 y Hy'). set_solver. }
  destruct Hdis as (Hxs & Hxl & Hndl & Hd). assert (Hp' : p <> x /\ p ∉ inorder s /\ p ∉ flat d l) by (rewrite Hin in Hp; tauto).
  destruct Hp' as (Hpx & Hps & Hpl).
  assert (Hlst : lst x l = x \/ lst x l ∈ flat d l) by apply lst_in.
  assert (Hnb : negb d <> d) by (by destruct d).
  simpl. split_and!.
  - rewrite Hf; [done|set_solver| |by intros [= ?]]. simpl. intros [= E]. destruct Hlst; [congruence|]. set_solver.
  - rewrite Hf; [done|rewrite elem_of_cons, Hin; auto|by intros [= ?]|by intros [= ->]].
  - apply (tr_ext k); [|done]. intros e y Hy. apply Hf; [rewrite elem_of_cons, Hin; auto| |intros [= _ ->]; done].
    simpl. intros [= _ ->]. destruct Hlst as [E|E]; [by rewrite E in Hy|by apply (Hd (lst x l))].
  - apply IH; try done. intros e y Hy H3 H4. apply Hf; [rewrite elem_of_cons, Hin; set_solver|done|].
    intros [= -> ->]. set_solver.
Qed.

Lemma strung_snoc k d l x s : forall p,
  strung k d p (l ++ [(x, s)]) <-> strung k d p l /\ k d (lst p l) = x /\ k (negb d) x = hd s /\ tr k s.
Proof. induction l as [|[y u] l IH]; intros p; simpl; [tauto|]. rewrite IH. tauto. Qed.

Lemma strung_close k d t l : forall p, strung k d p l -> k d (lst p l) = hd t -> tr k t ->
  k d p = hd (close d l t) /\ tr k (close d l t).
Proof.
  induction l as [|[x s] l IH]; intros p; simpl; [done|]. intros (H1 & H2 & Hs & Hl) He Ht.
  destruct (IH x Hl He Ht). by rewrite hd_mk, tr_mk.
Qed.

(** ** Order *)

Lemma sorted_far key d n y g k : sorted key (inorder (mk d n y g)) -> past d k (key y) ->
  forall z, z ∈ inorder g -> past d k (key z).
Proof.
  unfold sorted, past. destruct d; simpl; rewrite StronglySorted_app, StronglySorted_cons, Forall_forall;
    intros (H1 & H2 & H3 & H4) Hk z Hz.
  - specialize (H1 z y Hz ltac:(set_solver)). simpl in H1. lia.
  - specialize (H3 z Hz). simpl in H3. lia.
Qed.

Lemma sorted_whole key S t : sorted key (whole S t) -> sorted key (inorder t).
Proof. unfold sorted, whole. rewrite !StronglySorted_app. tauto. Qed.

(** ** Memory *)

Section Memory.
(** The elements that may be in the tree or compared, the offset of their
    links, the local element and the head. *)
Context (U : gset Z) (field __node head : Z).

Definition fld (d : bool) (x : Z) : Z := if d then SPLAY_RIGHT field x else SPLAY_LEFT field x.
Definition local (x : Z) : Prop := x ∈ U \/ x = __node.

Record layout : Prop := mkLayout {
  lay_apart x y : local x -> local y -> x <> y -> 16 <= Z.abs (x - y);
  lay_head x : local x -> x + field + 16 <= head \/ head + 8 <= x + field;
  lay_node : __node ∉ U;
  lay_null : NULL ∉ U
}.

(** The head and the links are mapped. *)
Definition mapped (h : mem) : Prop :=
  is_Some (h !! sph_root head) /\ forall d x, local x -> is_Some (h !! fld d x).

Definition lk (h : mem) (d : bool) (x : Z) : Z := cellat h (fld d x).
Definition rt (h : mem) : Z := cellat h (sph_root head).
Definition setlk (h : mem) (d : bool) (x v : Z) : mem := <[fld d x := v]> h.
Definition setrt (h : mem) (v : Z) : mem := <[sph_root head := v]> h.

(** Nothing but the head and links changes. *)
Definition outside (h h' : mem) : Prop :=
  forall a, a <> sph_root head -> (forall d x, local x -> a <> fld d x) -> h' !! a = h !! a.

(** What an operation on the elements [l] may do. *)
Record effect (h h' : mem) (l : list Z) : Prop := mkEffect {
  eff_mapped : mapped h';
  eff_out : outside h h';
  eff_links d x : x ∈ U -> x ∉ l -> lk h' d x = lk h d x
}.

Lemma effect_none h l : mapped h -> effect h h l.
Proof. by split. Qed.

Lemma effect_both h1 h2 h3 l1 l2 l3 : effect h1 h2 l1 -> effect h2 h3 l2 ->
  (forall x, x ∈ l1 \/ x ∈ l2 -> x ∈ l3) -> effect h1 h3 l3.
Proof.
  intros [? O1 L1] [? O2 L2] Hl. split; [done| |].
  - intros a H1 H2. by rewrite O2, O1.
  - intros d x Hx Hn. rewrite L2, L1; [done|done|intros ?; apply Hn; auto|done|intros ?; apply Hn; auto].
Qed.

Lemma load_cell h a Q : is_Some (h !! a) -> Q (cellat h a) h -> wp (load a) Q h.
Proof. intros [v Hv] HQ. eapply wp_load; [exact Hv|]. unfold cellat in HQ. by rewrite Hv in HQ. Qed.

Lemma wp_sph_root h Q : mapped h -> Q (rt h) h -> wp (load (sph_root head)) Q h.
Proof. intros [Hm _]. by apply load_cell. Qed.

Lemma wp_link h d x Q : mapped h -> local x -> Q (lk h d x) h -> wp (load (fld d x)) Q h.
Proof. intros [_ Hm] Hx. apply load_cell. auto. Qed.

Lemma wp_set_sph_root h v Q : mapped h -> Q tt (setrt h v) -> wp (store (sph_root head) v) Q h.
Proof. intros [Hm _]. by apply wp_store. Qed.

Lemma wp_setlink h d x v Q : mapped h -> local x -> Q tt (setlk h d x v) -> wp (store (fld d x) v) Q h.
Proof. intros [_ Hm] Hx. apply wp_store. auto. Qed.

Lemma links_insert h a v : mapped h -> mapped (<[a := v]> h).
Proof. intros [H1 H2]. split; intros; apply is_Some_insert; auto. Qed.

Lemma mapped_setlk h d x v : mapped h -> mapped (setlk h d x v).
Proof. apply links_insert. Qed.

Lemma mapped_setrt h v : mapped h -> mapped (setrt h v).
Proof. apply links_insert. Qed.

Hint Resolve mapped_setlk mapped_setrt : core.

Context (HL : layout).

Lemma fld_inj d e x y : local x -> local y -> fld d x = fld e y -> d = e /\ x = y.
Proof.
  intros Hx Hy. unfold fld, SPLAY_LEFT, SPLAY_RIGHT. destruct (decide (x = y)) as [->|Hne].
  - destruct d, e; intros E; split; (done || lia).
  - pose proof (lay_apart HL x y Hx Hy Hne). destruct d, e; lia.
Qed.

Lemma fld_head d x : local x -> fld d x <> sph_root head.
Proof. intros Hx. pose proof (lay_head HL x Hx). unfold fld, SPLAY_LEFT, SPLAY_RIGHT, sph_root. destruct d; lia. Qed.

Lemma lk_setlk h d x v e y : local x -> local y ->
  lk (setlk h d x v) e y = if decide (e = d /\ y = x) then v else lk h e y.
Proof.
  intros Hx Hy. unfold lk, setlk. rewrite cellat_insert. destruct (decide (e = d /\ y = x)) as [[-> ->]|Hn].
  - by rewrite decide_True.
  - rewrite decide_False; [done|]. intros E. destruct (fld_inj d e x y Hx Hy E). by apply Hn.
Qed.

Lemma lk_setlk_eq h d x v : local x -> lk (setlk h d x v) d x = v.
Proof. intros Hx. by rewrite lk_setlk, decide_True. Qed.

Lemma lk_setlk_ne h d x v e y : local x -> local y -> (e, y) <> (d, x) -> lk (setlk h d x v) e y = lk h e y.
Proof. intros Hx Hy Hn. rewrite lk_setlk by done. rewrite decide_False; [done|]. intros [-> ->]. by apply Hn. Qed.

Lemma lk_setrt h v e y : local y -> lk (setrt h v) e y = lk h e y.
Proof. intros Hy. unfold lk, setrt. rewrite cellat_insert, decide_False; [done|]. by apply not_eq_sym, fld_head. Qed.

Lemma rt_setlk h d x v : local x -> rt (setlk h d x v) = rt h.
Proof. intros Hx. unfold rt, setlk. rewrite cellat_insert, decide_False; [done|]. by apply fld_head. Qed.

Lemma rt_setrt h v : rt (setrt h v) = v.
Proof. unfold rt, setrt. by rewrite cellat_insert, decide_True. Qed.

Lemma effect_setlk h h1 d x v l : effect h h1 l -> local x -> (x ∈ U -> x ∈ l) -> effect h (setlk h1 d x v) l.
Proof.
  intros [Hm Ho Hk] Hx Hl. split; [auto| |].
  - intros a Hr Ha. unfold setlk. rewrite lookup_insert_ne; [by apply Ho|]. apply not_eq_sym. by apply Ha.
  - intros e y Hy Hn. rewrite lk_setlk_ne; [by apply Hk|done|by left|]. intros [= _ ->]. auto.
Qed.

Lemma effect_setrt h h1 v l : effect h h1 l -> effect h (setrt h1 v) l.
Proof.
  intros [Hm Ho Hk]. split; [auto| |].
  - intros a Ha Hx. unfold setrt. rewrite lookup_insert_ne; [by apply Ho|done].
  - intros e y Hy Hn. rewrite lk_setrt by (by left). by apply Hk.
Qed.

(** Two operations on the same elements, or on some of them. *)
Lemma effect_then h1 h2 h3 l : effect h1 h2 l -> effect h2 h3 l -> effect h1 h3 l.
Proof. intros H1 H2. eapply effect_both; [exact H1|exact H2|tauto]. Qed.

Lemma effect_weaken h h' l l' : effect h h' l -> (forall x, x ∈ l -> x ∈ l') -> effect h h' l'.
Proof. intros [Hm Ho Hk] Hl. split; [done|done|]. intros d x Hx Hn. apply Hk; auto. Qed.

Ltac effects := repeat first [apply effect_setrt | apply effect_setlk]; auto using effect_none.

Lemma local_U x : x ∈ U -> local x.
Proof. by left. Qed.
Lemma local_node : local __node.
Proof. by right. Qed.
Hint Resolve local_U local_node : core.

(** ** The state of the loops *)

Record st (h : mem) (S : bool -> spine) (t : tree) : Prop := mkSt {
  st_mapped : mapped h;
  st_root : rt h = hd t;
  st_tree : tr (lk h) t;
  st_strung d : strung (lk h) d __node (S d);
  st_nodup : NoDup (whole S t);
  st_U x : x ∈ whole S t -> x ∈ U
}.

Lemma st_lst h S t d : st h S t -> local (lst __node (S d)).
Proof.
  intros Hs. destruct (lst_in d __node (S d)) as [->|H]; [done|]. apply local_U, (st_U _ _ _ Hs), whole_elem. eauto.
Qed.

Lemma st_elem h S t x : st h S t -> x ∈ inorder t -> local x.
Proof. intros Hs Hx. apply local_U, (st_U _ _ _ Hs), whole_elem. by left. Qed.

(** Spines are kept by changes to the links of other nodes. *)
Lemma st_spines h h' S t : st h S t ->
  (forall d e x, x ∈ __node :: flat d (S d) -> (e, x) <> (d, lst __node (S d)) -> (e, x) <> (negb d, __node) -> lk h' e x = lk h e x) ->
  forall d, strung (lk h') d __node (S d).
Proof.
  intros Hs Hf d. destruct (whole_nodup S t (st_nodup _ _ _ Hs)) as (_ & Hnd & _).
  apply (strung_ext (lk h)); [|apply Hnd|apply Hf|apply Hs].
  intros Hn. apply (lay_node HL), (st_U _ _ _ Hs), whole_elem. eauto.
Qed.

(** The open links at the ends of the spines are in neither spine. *)
Lemma st_holes h S t d e z : st h S t -> z ∈ __node :: flat d (S d) -> (e, z) <> (d, lst __node (S d)) ->
  (e, z) <> (negb d, __node) -> forall c, (e, z) <> (c, lst __node (S c)).
Proof.
  intros Hs Hi H1 H2 c [= -> ->]. destruct (whole_nodup _ _ (st_nodup _ _ _ Hs)) as (_ & _ & _ & Hdis).
  destruct (decide (d = c)) as [->|Hdc]; [done|]. assert (E : d = negb c) by (destruct c, d; done). subst d.
  rewrite negb_involutive in H2. apply elem_of_cons in Hi as [E|Hi]; [by rewrite E in H2|].
  destruct (lst_in c __node (S c)) as [E|E]; [|by apply (Hdis c (lst __node (S c)))].
  apply (lay_node HL), (st_U _ _ _ Hs), whole_elem. right. exists (negb c). by rewrite <- E.
Qed.

(** The ends of the spines are not in the tree. *)
Lemma st_ends h S t d z : st h S t -> z ∈ inorder t -> z <> lst __node (S d) /\ local z /\ z <> __node.
Proof.
  intros Hs Hz. destruct (whole_nodup _ _ (st_nodup _ _ _ Hs)) as (_ & _ & Hdis & _).
  assert (Hn : z <> __node) by (intros ->; apply (lay_node HL), (st_U _ _ _ Hs), whole_elem; by left).
  split; [|by split; [apply (st_elem _ _ _ _ Hs)|]].
  destruct (lst_in d __node (S d)) as [->|E]; [done|]. intros ->. by apply (Hdis d (lst __node (S d))).
Qed.

(** A rotation. *)
Lemma st_rotate h S d a y b x f : st h S (mk d (mk d a y b) x f) ->
  st (setrt (setlk (setlk h d x (hd b)) (negb d) y x) y) S (mk d a y (mk d b x f)).
Proof.
  intros Hs. destruct (whole_nodup _ _ (st_nodup _ _ _ Hs)) as (Hnd & _ & Hdis & _).
  assert (Hxy : local x /\ local y) by (split; apply (st_elem _ _ _ _ Hs); rewrite !inorder_mk; auto).
  destruct Hxy as [Hx Hy].
  assert (Hne : x <> y /\ (forall z, z ∈ inorder a \/ z ∈ inorder b \/ z ∈ inorder f -> z <> x /\ z <> y /\ local z)).
  { rewrite !mk_perm in Hnd. simpl in Hnd. apply NoDup_cons in Hnd as [Nx Hnd]. apply NoDup_cons in Hnd as [Ny _].
    rewrite elem_of_cons, !elem_of_app in Nx. rewrite !elem_of_app in Ny. split; [tauto|].
    intros z Hz. split_and!; [| |apply (st_elem _ _ _ _ Hs); rewrite !inorder_mk; tauto]; intros ->; tauto. }
  destruct Hne as [Hne Hz].
  assert (Hk : forall e z, local z -> z <> x -> z <> y ->
    lk (setrt (setlk (setlk h d x (hd b)) (negb d) y x) y) e z = lk h e z).
  { intros e z Hlz H1 H2. rewrite lk_setrt, !lk_setlk_ne; try done; by intros [= _ ->]. }
  pose proof (st_tree _ _ _ Hs) as Ht. rewrite !tr_mk, hd_mk in Ht. destruct Ht as (T1 & T2 & (T3 & T4 & Ta & Tb) & Tf).
  split.
  - pose proof (st_mapped _ _ _ Hs). auto.
  - by rewrite rt_setrt, hd_mk.
  - rewrite !tr_mk, hd_mk. assert (Hdd : negb d <> d) by (by destruct d).
    split_and!; try (eapply tr_ext; [|eassumption]; intros e z Hi; destruct (Hz z) as (? & ? & ?); [tauto|]; by apply Hk).
    + rewrite lk_setrt, lk_setlk_ne, lk_setlk_ne; try done; intros [=]; congruence.
    + by rewrite lk_setrt, lk_setlk_eq.
    + rewrite lk_setrt, lk_setlk_ne, lk_setlk_eq; try done. intros [=]; congruence.
    + rewrite lk_setrt, lk_setlk_ne, lk_setlk_ne; try done; intros [=]; congruence.
  - apply (st_spines h _ S _ Hs). intros e e' z Hi _ _. apply Hk.
    + apply elem_of_cons in Hi as [->|Hi]; [done|]. apply local_U, (st_U _ _ _ Hs), whole_elem. eauto.
    + intros ->. apply elem_of_cons in Hi as [->|Hi]; [|apply (Hdis e x); [rewrite inorder_mk; auto|done]].
      apply (lay_node HL), (st_U _ _ _ Hs), whole_elem. left. rewrite inorder_mk. auto.
    + intros ->. apply elem_of_cons in Hi as [->|Hi]; [|apply (Hdis e y); [rewrite !inorder_mk; auto|done]].
      apply (lay_node HL), (st_U _ _ _ Hs), whole_elem. left. rewrite !inorder_mk. auto.
  - rewrite <- whole_rotate. apply Hs.
  - intros z. rewrite <- whole_rotate. apply Hs.
Qed.

(** A node goes to the end of its spine. *)
Lemma st_link h S d a x f : st h S (mk d a x f) ->
  st (setrt (setlk h d (lst __node (S d)) x) (hd a)) (push S d (x, f)) a.
Proof.
  intros Hs. set (p := lst __node (S d)). pose proof (st_lst _ _ _ d Hs : local p) as Hp.
  assert (Hpt : forall z, z ∈ inorder (mk d a x f) -> z <> p /\ local z).
  { intros z Hz. destruct (st_ends _ _ _ d z Hs Hz) as (? & ? & _). done. }
  assert (Hk : forall e z, local z -> (e, z) <> (d, p) -> lk (setrt (setlk h d p x) (hd a)) e z = lk h e z).
  { intros e z Hz Hn. by rewrite lk_setrt, lk_setlk_ne. }
  assert (Htr : forall u, (forall z, z ∈ inorder u -> z ∈ inorder (mk d a x f)) -> tr (lk h) u -> tr (lk (setrt (setlk h d p x) (hd a))) u).
  { intros u Hu. apply tr_ext. intros e z Hz. destruct (Hpt z (Hu z Hz)). apply Hk; [done|]. by intros [= _ ->]. }
  pose proof (st_tree _ _ _ Hs) as Ht. rewrite tr_mk in Ht. destruct Ht as (T1 & T2 & Ta & Tf).
  assert (Hsp : forall e, strung (lk (setrt (setlk h d p x) (hd a))) e __node (S e)).
  { apply (st_spines h _ S _ Hs). intros e e' z Hi H1 H2. apply Hk.
    - apply elem_of_cons in Hi as [->|Hi]; [done|]. apply local_U, (st_U _ _ _ Hs), whole_elem. eauto.
    - by apply (st_holes h S (mk d a x f) e). }
  split.
  - pose proof (st_mapped _ _ _ Hs). auto.
  - apply rt_setrt.
  - apply Htr; [|done]. intros z Hz. rewrite inorder_mk. auto.
  - intros e. unfold push. destruct (decide (e = d)) as [->|]; [|apply Hsp]. rewrite strung_snoc. split_and!; [apply Hsp| | |].
    + fold p. by rewrite lk_setrt, lk_setlk_eq.
    + destruct (Hpt x) as [Hx Hlx]; [rewrite inorder_mk; auto|]. rewrite Hk; [done|done|]. by intros [= _ ->].
    + apply Htr; [|done]. intros z Hz. rewrite inorder_mk. auto.
  - rewrite whole_push. apply Hs.
  - intros z. rewrite whole_push. apply Hs.
Qed.

(** ** The macros, whatever the direction *)

Definition ROTATE (d : bool) (tmp : Z) : M mem unit :=
  root <- load (sph_root head) ;;
  v <- load (fld (negb d) tmp) ;;
  store (fld d root) v ;;;
  root <- load (sph_root head) ;;
  store (fld (negb d) tmp) root ;;;
  store (sph_root head) tmp.

Definition LINK (d : bool) (tmp : Z) : M mem Z :=
  root <- load (sph_root head) ;;
  store (fld d tmp) root ;;;
  tmp <- load (sph_root head) ;;
  root <- load (sph_root head) ;;
  l <- load (fld d root) ;;
  store (sph_root head) l ;;;
  ret tmp.

Definition go (d : bool) (side : Z) (test : Z -> M mem bool) : M mem (option Z) :=
  root <- load (sph_root head) ;;
  __tmp <- load (fld d root) ;;
  if __tmp =? NULL then ret None else
  b <- test __tmp ;;
  brk <- (if (b : bool) then
            ROTATE d __tmp ;;;
            root <- load (sph_root head) ;;
            l <- load (fld d root) ;;
            ret (l =? NULL)
          else ret false) ;;
  if (brk : bool) then ret None else
  side <- LINK d side ;;
  ret (Some side).

Lemma hd_null t : (forall x, x ∈ inorder t -> x ∈ U) -> (hd t =? NULL) = true <-> t = Leaf.
Proof.
  intros HU. destruct t as [|l x r]; [done|]. simpl. rewrite Z.eqb_eq. split; [intros ->|done].
  exfalso. apply (lay_null HL), HU. simpl. set_solver.
Qed.

Lemma wp_ROTATE h S d a y b x f Q : st h S (mk d (mk d a y b) x f) ->
  (forall h', st h' S (mk d a y (mk d b x f)) -> effect h h' (whole S (mk d (mk d a y b) x f)) -> Q tt h') ->
  wp (ROTATE d y) Q h.
Proof.
  intros Hs HQ. pose proof (st_mapped _ _ _ Hs) as Hm.
  pose proof (st_root _ _ _ Hs) as Hr. rewrite hd_mk in Hr.
  pose proof (st_tree _ _ _ Hs) as Ht. rewrite !tr_mk in Ht. destruct Ht as (_ & _ & (_ & Hb & _) & _).
  assert (Hx : x ∈ whole S (mk d (mk d a y b) x f)) by (apply whole_elem; left; rewrite inorder_mk; auto).
  assert (Hy : y ∈ whole S (mk d (mk d a y b) x f)) by (apply whole_elem; left; rewrite !inorder_mk; auto).
  pose proof (local_U _ (st_U _ _ _ Hs _ Hx)). pose proof (local_U _ (st_U _ _ _ Hs _ Hy)).
  unfold ROTATE. apply wp_bind, wp_sph_root; [done|]. rewrite Hr. apply wp_bind, wp_link; [done..|]. rewrite Hb.
  apply wp_bind, wp_setlink; [done..|]. apply wp_bind, wp_sph_root; [auto|]. rewrite rt_setlk, Hr by done.
  apply wp_bind, wp_setlink; [auto..|]. apply wp_set_sph_root; [auto|]. apply HQ; [by apply st_rotate|].
  effects.
Qed.

Lemma wp_LINK h S d a x f Q : st h S (mk d a x f) ->
  (forall h', st h' (push S d (x, f)) a -> effect h h' (whole S (mk d a x f)) -> Q x h') ->
  wp (LINK d (lst __node (S d))) Q h.
Proof.
  intros Hs HQ. pose proof (st_mapped _ _ _ Hs) as Hm. pose proof (st_lst _ _ _ d Hs) as Hp.
  pose proof (st_root _ _ _ Hs) as Hr. rewrite hd_mk in Hr.
  pose proof (st_tree _ _ _ Hs) as Ht. rewrite tr_mk in Ht. destruct Ht as (Ha & _).
  assert (Hx : x ∈ inorder (mk d a x f)) by (rewrite inorder_mk; auto). destruct (st_ends _ _ _ d x Hs Hx) as (Hxp & Hlx & _).
  unfold LINK. apply wp_bind, wp_sph_root; [done|]. rewrite Hr. apply wp_bind, wp_setlink; [done..|].
  do 2 (apply wp_bind, wp_sph_root; [auto|]; rewrite rt_setlk, Hr by done).
  apply wp_bind, wp_link; [auto..|]. rewrite lk_setlk_ne, Ha by (done || by intros [=]).
  apply wp_bind, wp_set_sph_root; [auto|]. apply wp_ret, HQ; [by apply st_link|].
  effects.
  intros HU. destruct (lst_in d __node (S d)) as [E|E]; [|apply whole_elem; eauto]. exfalso. rewrite E in HU. by apply (lay_node HL).
Qed.

(** One round of a loop: the tree gets smaller, or its root has no son in
    the direction [d]. *)
Lemma wp_go h S d n x f test (T : Z -> bool) Q : st h S (mk d n x f) ->
  (forall y, y ∈ inorder n -> wp (test y) (fun b h' => h' = h /\ b = T y) h) ->
  (forall h' y g, st h' S (mk d Leaf y g) -> effect h h' (whole S (mk d n x f)) ->
    whole S (mk d Leaf y g) = whole S (mk d n x f) -> y = x \/ T y = true -> Q None h') ->
  (forall h' y g t, st h' (push S d (y, g)) t -> effect h h' (whole S (mk d n x f)) ->
    whole S (mk d t y g) = whole S (mk d n x f) -> t <> Leaf -> y = x \/ T y = true ->
    Q (Some (lst __node (push S d (y, g) d))) h') ->
  wp (go d (lst __node (S d)) test) Q h.
Proof.
  intros Hs Htest Hstop Hgo. pose proof (st_mapped _ _ _ Hs) as Hm.
  assert (Hlx : local x) by (apply (st_elem _ _ _ _ Hs); rewrite inorder_mk; auto).
  assert (HU : forall z, z ∈ inorder (mk d n x f) -> z ∈ U) by (intros z Hz; apply (st_U _ _ _ Hs), whole_elem; by left).
  pose proof (st_tree _ _ _ Hs) as Ht. rewrite tr_mk in Ht. destruct Ht as (Hn & _).
  assert (Hlast : forall y g, lst __node (push S d (y, g) d) = y)
    by (intros y g; unfold push; rewrite decide_True by done; apply lst_snoc).
  unfold go. apply wp_bind, wp_sph_root; [done|]. rewrite (st_root _ _ _ Hs), hd_mk.
  apply wp_bind, wp_link; [done..|]. rewrite Hn. apply wp_if; intros E.
  { apply hd_null in E as ->; [|intros z Hz; apply HU; rewrite inorder_mk; auto].
    apply wp_ret, (Hstop h x f); [done|by apply effect_none|done|by left]. }
  destruct (mk_cases d n) as [->|(a & y & b & ->)]; [done|]. rewrite hd_mk in *.
  apply wp_bind. eapply wp_mono; [apply Htest; rewrite inorder_mk; auto|]. intros b' h1 [-> ->].
  destruct (T y) eqn:HT; apply wp_bind.
  - apply wp_bind, (wp_ROTATE h S d a y b x f); [done|]. intros h1 Hs1 He1.
    apply wp_bind, wp_sph_root; [apply He1|]. rewrite (st_root _ _ _ Hs1), hd_mk.
    apply wp_bind, wp_link; [apply He1|apply (st_elem _ _ _ _ Hs1); rewrite inorder_mk; auto|].
    pose proof (st_tree _ _ _ Hs1) as Ht1. rewrite tr_mk in Ht1. destruct Ht1 as (Hn1 & _). rewrite Hn1.
    apply wp_ret. pose proof (whole_rotate S d a y b x f) as HW.
    assert (Ea : (hd a =? NULL) = true <-> a = Leaf)
      by (apply hd_null; intros z Hz; apply HU; rewrite !inorder_mk; auto).
    destruct (hd a =? NULL).
    + pose proof (proj1 Ea eq_refl) as ->. apply wp_ret, (Hstop h1 y (mk d b x f)); auto.
    + apply wp_bind, (wp_LINK h1 S d a y (mk d b x f)); [done|]. intros h2 Hs2 He2. apply wp_ret.
      rewrite <- (Hlast y (mk d b x f)). apply (Hgo h2 y (mk d b x f) a); auto.
      * rewrite <- HW in He2. by eapply effect_then.
      * intros Hl. by apply (proj2 Ea) in Hl.
  - apply wp_ret, wp_bind, (wp_LINK h S d (mk d a y b) x f); [done|]. intros h2 Hs2 He2. apply wp_ret.
    rewrite <- (Hlast x f). apply (Hgo h2 x f (mk d a y b)); auto. by destruct d.
Qed.

(** ** A tree in memory *)

Record holds (h : mem) (t : tree) : Prop := mkHolds {
  holds_mapped : mapped h;
  holds_root : rt h = hd t;
  holds_tree : tr (lk h) t;
  holds_nodup : NoDup (inorder t);
  holds_U x : x ∈ inorder t -> x ∈ U
}.

(** The tree in memory keeps its shape when its links do. *)
Definition no_spines : bool -> spine := fun _ => [].

Lemma whole_none t : whole no_spines t = inorder t.
Proof. apply app_nil_r. Qed.

(** [__left = __right = &__node]. *)
Lemma wp_start {A} h t (k : M mem A) Q : holds h t ->
  (forall h', st h' no_spines t -> effect h h' [] -> wp k Q h') ->
  wp (store (SPLAY_RIGHT field __node) NULL ;;; store (SPLAY_LEFT field __node) NULL ;;; k) Q h.
Proof.
  intros Ht HQ. pose proof (holds_mapped _ _ Ht) as Hm.
  apply wp_bind, (wp_setlink h true); [done..|]. apply wp_bind, (wp_setlink _ false); [auto..|].
  assert (Hk : forall d x, x ∈ inorder t -> lk (setlk (setlk h true __node NULL) false __node NULL) d x = lk h d x).
  { intros d x Hx. pose proof (holds_U _ _ Ht x Hx) as HU.
    rewrite !lk_setlk_ne; auto; intros [= _ ->]; by apply (lay_node HL). }
  apply HQ.
  - split; [auto| | |done|rewrite whole_none; apply Ht|intros x; rewrite whole_none; apply Ht].
    + rewrite !rt_setlk by done. apply Ht.
    + apply (tr_ext (lk h)); [done|apply Ht].
  - effects; intros HU; by apply (lay_node HL) in HU.
Qed.

(** The elements of the assembled tree. *)
Definition assembled (S : bool -> spine) (l : tree) (x : Z) (r : tree) : tree :=
  Node (close true (S true) l) x (close false (S false) r).

Lemma inorder_assembled S l x r : inorder (assembled S l x r) = whole S (Node l x r).
Proof. unfold whole. simpl. by rewrite inorder_close_true, inorder_close_false, <- !app_assoc. Qed.

(** The first half of [SPLAY_ASSEMBLE] puts the sons of the root at the ends
    of the spines. *)
Definition filled (h : mem) (S : bool -> spine) (l r : tree) : mem :=
  setlk (setlk h true (lst __node (S true)) (hd l)) false (lst __node (S false)) (hd r).

Lemma st_filled h S l x r : st h S (Node l x r) -> let h2 := filled h S l r in
  (lk h2 true __node = hd (close true (S true) l) /\ tr (lk h2) (close true (S true) l)) /\
  (lk h2 false __node = hd (close false (S false) r) /\ tr (lk h2) (close false (S false) r)).
Proof.
  intros Hs h2. pose proof (st_lst _ _ _ true Hs) as HpL. pose proof (st_lst _ _ _ false Hs) as HpR.
  pose proof (st_tree _ _ _ Hs) as (_ & _ & Hl & Hr).
  assert (Hk2 : forall e z, local z -> (forall c, (e, z) <> (c, lst __node (S c))) -> lk h2 e z = lk h e z).
  { intros e z Hz Hn. unfold h2, filled. rewrite !lk_setlk_ne; try done; apply Hn. }
  assert (Ht2 : forall u, (forall z, z ∈ inorder u -> z ∈ inorder (Node l x r)) -> tr (lk h) u -> tr (lk h2) u).
  { intros u Hu. apply tr_ext. intros e z Hz. apply Hk2; [by apply (st_elem _ _ _ _ Hs), Hu|].
    intros c [= _ E]. by destruct (st_ends _ _ _ c z Hs (Hu z Hz)) as (? & _). }
  assert (Hsp2 : forall d, strung (lk h2) d __node (S d)).
  { apply (st_spines h _ S _ Hs). intros d e z Hi H1 H2. apply Hk2; [|by apply (st_holes h S (Node l x r) d)].
    apply elem_of_cons in Hi as [->|Hi]; [done|]. apply local_U, (st_U _ _ _ Hs), whole_elem. eauto. }
  split; apply strung_close; try done; try (apply Ht2; [simpl; set_solver|done]); unfold h2, filled.
  - by rewrite lk_setlk_ne, lk_setlk_eq.
  - by rewrite lk_setlk_eq.
Qed.

(** The second half makes the spines the sons of the root. *)
Lemma holds_rooted h t x u : mapped h -> rt h = x -> lk h true __node = hd t -> lk h false __node = hd u ->
  tr (lk h) t -> tr (lk h) u -> NoDup (inorder (Node t x u)) -> (forall y, y ∈ inorder (Node t x u) -> y ∈ U) ->
  holds (setlk (setlk h false x (lk h true __node)) true x (lk h false __node)) (Node t x u).
Proof.
  intros Hm Hr -> -> Ht Hu Hnd HU. assert (Hx : local x) by (apply local_U, HU; simpl; set_solver).
  pose proof Hnd as Hnd'. simpl in Hnd'. apply NoDup_app in Hnd' as (_ & N2 & N3). apply NoDup_cons in N3 as [N3 _].
  assert (Hk : forall e z, z ∈ inorder (Node t x u) -> z <> x -> lk (setlk (setlk h false x (hd t)) true x (hd u)) e z = lk h e z).
  { intros e z Hz%HU Hn. rewrite !lk_setlk_ne; auto; by intros [= _ ->]. }
  split; [auto|by rewrite !rt_setlk| |done|done]. simpl. split_and!.
  - by rewrite lk_setlk_ne, lk_setlk_eq.
  - by rewrite lk_setlk_eq.
  - apply (tr_ext (lk h)); [|done]. intros e z Hz. apply Hk; [simpl; set_solver|]. intros ->. apply (N2 x Hz). set_solver.
  - apply (tr_ext (lk h)); [|done]. intros e z Hz. apply Hk; [simpl; set_solver|]. by intros ->.
Qed.

Lemma st_lst_whole h S t d : st h S t -> lst __node (S d) ∈ U -> lst __node (S d) ∈ whole S t.
Proof.
  intros Hs HU. destruct (lst_in d __node (S d)) as [E|E]; [|apply whole_elem; eauto].
  exfalso. rewrite E in HU. by apply (lay_node HL).
Qed.

Lemma wp_ASSEMBLE h S l x r (Q : unit -> mem -> Prop) : st h S (Node l x r) ->
  (forall h', holds h' (assembled S l x r) -> effect h h' (whole S (Node l x r)) -> Q tt h') ->
  wp (SPLAY_ASSEMBLE field head __node (lst __node (S true)) (lst __node (S false))) Q h.
Proof.
  intros Hs HQ. pose proof (st_mapped _ _ _ Hs) as Hm. pose proof (st_root _ _ _ Hs) as Hr. simpl in Hr.
  pose proof (st_tree _ _ _ Hs) as (Tl & Tr & _). destruct (st_filled _ _ _ _ _ Hs) as [[CL1 CL2] [CR1 CR2]].
  pose proof (st_lst _ _ _ true Hs) as HpL. pose proof (st_lst _ _ _ false Hs) as HpR.
  destruct (st_ends _ _ _ true x Hs) as (Hx1 & Hlx & Hxn); [simpl; set_solver|].
  assert (Hm2 : mapped (filled h S l r)) by (unfold filled; auto).
  assert (Hr2 : rt (filled h S l r) = x) by (unfold filled; by rewrite !rt_setlk).
  unfold SPLAY_ASSEMBLE. apply wp_bind, wp_sph_root; [done|]. rewrite Hr. apply wp_bind, (wp_link h false); [done..|]. rewrite Tl.
  apply wp_bind, (wp_setlink _ true); [done..|]. apply wp_bind, wp_sph_root; [auto|].
  rewrite rt_setlk, Hr by done. apply wp_bind, (wp_link _ true); [auto..|].
  rewrite lk_setlk_ne, Tr by (done || intros [=]; congruence).
  apply wp_bind, (wp_setlink _ false); [auto..|].
  change (setlk (setlk h true (lst __node (S true)) (hd l)) false (lst __node (S false)) (hd r)) with (filled h S l r).
  apply wp_bind, wp_sph_root; [done|]. rewrite Hr2. apply wp_bind, (wp_link _ true); [done..|].
  apply wp_bind, (wp_setlink _ false); [done..|]. apply wp_bind, wp_sph_root; [auto|]. rewrite rt_setlk, Hr2 by done.
  apply wp_bind, (wp_link _ false); [auto..|]. rewrite (lk_setlk_ne _ _ _ _ false __node) by (done || intros [=]; congruence).
  apply (wp_setlink _ true); [auto..|]. apply HQ.
  - apply holds_rooted; try done; fold (assembled S l x r); rewrite inorder_assembled; apply Hs.
  - assert (HxW : x ∈ whole S (Node l x r)) by (apply whole_elem; left; simpl; set_solver).
    pose proof (st_lst_whole _ _ _ true Hs). pose proof (st_lst_whole _ _ _ false Hs).
    effects.
Qed.

(** ** The loops *)

(** The ends of the spines after a round in the direction [d]. *)
Definition ends (S : bool -> spine) : bool -> Z := fun e => lst __node (S e).
Definition moved (p : bool -> Z) (d : bool) (v : Z) : bool -> Z := fun e => if decide (e = d) then v else p e.

Lemma ends_push S d i e : moved (ends S) d (ends (push S d i) d) e = ends (push S d i) e.
Proof. unfold moved, ends, push. destruct (decide (e = d)) as [->|]; [by rewrite decide_True|done]. Qed.

(** One round, with what the loops need of it. *)
Lemma go_run h S d n x f fuel test (T : Z -> bool) : st h S (mk d n x f) -> (length (inorder (mk d n x f)) <= Datatypes.S fuel)%nat ->
  (forall y, y ∈ inorder n -> wp (test y) (fun b h' => h' = h /\ b = T y) h) ->
  wp (go d (ends S d) test) (fun o h' => effect h h' (whole S (mk d n x f)) /\ exists y g t, (y = x \/ T y = true) /\
      whole S (mk d t y g) = whole S (mk d n x f) /\
      match o with
      | None => t = Leaf /\ st h' S (mk d t y g)
      | Some v => v = ends (push S d (y, g)) d /\ st h' (push S d (y, g)) t /\ t <> Leaf /\ (length (inorder t) <= fuel)%nat
      end) h.
Proof.
  intros Hs Hfuel Htest. apply (wp_go h S d n x f test T); [done|done| |].
  - intros h' y g H1 H2 H3 H4. split; [done|]. by exists y, g, Leaf.
  - intros h' y g t H1 H2 H3 H4 H5. split; [done|]. exists y, g, t. split_and!; try done.
    apply (f_equal length) in H3. unfold whole in H3. rewrite !length_app, !length_mk in H3. rewrite length_mk in Hfuel. lia.
Qed.

Lemma minmax_round d c fuel (p : bool -> Z) : toward d c ->
  minmax_loop field (S fuel) head c (p true) (p false) =
  (o <- go d (p d) (fun _ => ret true) ;;
   match o with
   | None => ret (p true, p false)
   | Some v => minmax_loop field fuel head c (moved p d v true) (moved p d v false)
   end).
Proof.
  unfold toward. intros Hc. simpl. destruct d.
  - replace (c <? 0) with false by lia. by replace (0 <? c) with true by lia.
  - by replace (c <? 0) with true by lia.
Qed.

(** The loop of [SPLAY_MINMAX] goes all the way in the direction [d]. *)
Lemma minmax_loop_run d c : toward d c -> forall fuel h S t, (length (inorder t) <= fuel)%nat -> t <> Leaf ->
  st h S t -> S (negb d) = [] ->
  wp (minmax_loop field fuel head c (ends S true) (ends S false))
    (fun p h' => exists (S' : bool -> spine) y g, p = (ends S' true, ends S' false) /\ S' (negb d) = [] /\ st h' S' (mk d Leaf y g) /\
      whole S' (mk d Leaf y g) = whole S t /\ effect h h' (whole S t)) h.
Proof.
  intros Hc fuel. induction fuel as [|fuel IH]; intros h S t Hfuel Hne Hs Hnil.
  { destruct t; [done|]. simpl in Hfuel. rewrite length_app in Hfuel. simpl in Hfuel. lia. }
  destruct (mk_cases d t) as [->|(n & x & f & ->)]; [done|]. rewrite (minmax_round d c fuel (ends S)) by done.
  apply wp_bind. eapply wp_mono; [by apply (go_run h S d n x f fuel _ (fun _ => true))|].
  intros [v|] h1 (He & y & g & t' & _ & Hw & Hcase).
  - destruct Hcase as (-> & H1 & H2 & H3). rewrite !ends_push.
    eapply wp_mono; [apply (IH h1 (push S d (y, g)) t'); [done|done|done|]|].
    + unfold push. rewrite decide_False; [done|by destruct d].
    + intros p h' (S' & y' & g' & -> & H5 & H6 & H7 & H8). rewrite whole_push, Hw in H7, H8. exists S', y', g'.
      split_and!; try done. by eapply effect_then.
  - destruct Hcase as [-> H1]. apply wp_ret. by exists S, y, g.
Qed.

(** Without a direction the loop does not end. *)
Lemma minmax_zero fuel h : mapped h -> faults (SPLAY_MIN_MAX field __node fuel head 0) h.
Proof.
  intros Hm. apply faults_here. unfold SPLAY_MINMAX. apply faults_later, (wp_setlink h true); [done..|].
  apply faults_later, (wp_setlink _ false); [auto..|]. apply faults_here. eexists.
  generalize __node at 1. generalize __node at 1. intros a b. induction fuel as [|fuel IH]; [done|]. exact IH.
Qed.

(** The smallest or the greatest element becomes the root. *)
Lemma wp_SPLAY_MINMAX d c fuel h t Q : toward d c -> holds h t -> t <> Leaf -> (length (inorder t) <= fuel)%nat ->
  (forall h' x u, holds h' (mk d Leaf x u) -> inorder (mk d Leaf x u) = inorder t -> effect h h' (inorder t) -> Q tt h') ->
  wp (SPLAY_MINMAX field __node fuel head c) Q h.
Proof.
  intros Hc Ht Hne Hfuel HQ. unfold SPLAY_MINMAX. apply (wp_start h t); [done|]. intros h1 Hs1 He1. apply wp_bind.
  change __node with (ends no_spines true) at 1. change __node with (ends no_spines false) at 2.
  eapply wp_mono; [by apply (minmax_loop_run d c Hc fuel h1 no_spines t)|].
  intros p h2 (S & y & g & -> & Hnil & Hs2 & Hw & He2). rewrite whole_none in Hw, He2.
  assert (He : forall h', effect h2 h' (whole S (mk d Leaf y g)) -> effect h h' (inorder t)).
  { intros h' He3. rewrite Hw in He3. eapply effect_then; [eapply effect_weaken; [exact He1|by intros z Hz%not_elem_of_nil]|].
    by eapply effect_then. }
  destruct d; simpl in *.
  - apply (wp_ASSEMBLE h2 S g y Leaf); [done|]. intros h3 Ht3 He3. unfold assembled in Ht3. rewrite Hnil in Ht3.
    eapply (HQ h3 y _ Ht3); [|by apply He]. rewrite <- Hw, <- inorder_assembled. unfold assembled. by rewrite Hnil.
  - apply (wp_ASSEMBLE h2 S Leaf y g); [done|]. intros h3 Ht3 He3. unfold assembled in Ht3. rewrite Hnil in Ht3.
    eapply (HQ h3 y _ Ht3); [|by apply He]. rewrite <- Hw, <- inorder_assembled. unfold assembled. by rewrite Hnil.
Qed.

(** ** Splaying to an element *)

Section Search.
Context (cmp : Z -> Z -> M mem Z) (D : mem -> Prop) (key : Z -> Z) {HO : Orders U outside cmp D key}.

(** The second comparison of a round. *)
Definition test (d : bool) (elm tmp : Z) : M mem bool :=
  c <- cmp elm tmp ;; ret (if d then 0 <? c else c <? 0).

Lemma splay_round d c fuel elm (p : bool -> Z) : toward d c ->
  (if c =? 0 then ret (p true, p false)
   else if c <? 0 then
     o <- go_left field head (p false) (fun tmp => c <- cmp elm tmp ;; ret (c <? 0)) ;;
     match o with None => ret (p true, p false) | Some v => splay_loop field cmp fuel head elm (p true) v end
   else if 0 <? c then
     o <- go_right field head (p true) (fun tmp => c <- cmp elm tmp ;; ret (0 <? c)) ;;
     match o with None => ret (p true, p false) | Some v => splay_loop field cmp fuel head elm v (p false) end
   else splay_loop field cmp fuel head elm (p true) (p false)) =
  (o <- go d (p d) (test d elm) ;;
   match o with
   | None => ret (p true, p false)
   | Some v => splay_loop field cmp fuel head elm (moved p d v true) (moved p d v false)
   end).
Proof.
  unfold toward. intros Hc. replace (c =? 0) with false by (destruct d; lia). destruct d.
  - replace (c <? 0) with false by lia. by replace (0 <? c) with true by lia.
  - by replace (c <? 0) with true by lia.
Qed.

(** What went to a spine is on its side of [k]. *)
Definition aside (S : bool -> spine) (k : Z) : Prop := forall d y, y ∈ flat d (S d) -> past d k (key y).

Definition between (k : Z) (l r : tree) : Prop :=
  (forall y, y ∈ inorder l -> key y < k) /\ (forall y, y ∈ inorder r -> k < key y).

Lemma aside_push S d y g t k : aside S k -> sorted key (whole S (mk d t y g)) -> past d k (key y) -> aside (push S d (y, g)) k.
Proof.
  intros Ha Hsort Hp e z. unfold push. destruct (decide (e = d)) as [->|]; [|apply Ha].
  rewrite flat_snoc. intros [Hz|[->|Hz]]; [by apply Ha|done|]. apply (sorted_far key d t y g); [|done|done].
  by apply sorted_whole in Hsort.
Qed.

Lemma between_leaf d y g k : sorted key (inorder (mk d Leaf y g)) -> past d k (key y) ->
  exists l r, mk d Leaf y g = Node l y r /\ between k l r.
Proof.
  intros Hsort Hp. pose proof (sorted_far key d Leaf y g k Hsort Hp) as Hg. destruct d.
  - exists g, Leaf. split; [done|]. split; [done|]. by intros z ?%not_elem_of_nil.
  - exists Leaf, g. split; [done|]. split; [by intros z ?%not_elem_of_nil|done].
Qed.

Lemma between_root l x r : sorted key (inorder (Node l x r)) -> between (key x) l r.
Proof.
  unfold sorted. simpl. rewrite StronglySorted_app, StronglySorted_cons, Forall_forall. intros (H1 & _ & H2 & _).
  split; intros y Hy; [apply (H1 y x Hy); set_solver|by apply H2].
Qed.

Lemma splay_loop_run elm : elm ∈ U -> forall fuel h S t, (length (inorder t) <= fuel)%nat -> t <> Leaf ->
  st h S t -> D h -> sorted key (whole S t) -> aside S (key elm) ->
  wp (splay_loop field cmp fuel head elm (ends S true) (ends S false))
    (fun p h' => exists (S' : bool -> spine) l x r, p = (ends S' true, ends S' false) /\ aside S' (key elm) /\
      st h' S' (Node l x r) /\ between (key elm) l r /\ whole S' (Node l x r) = whole S t /\ effect h h' (whole S t)) h.
Proof.
  intros Helm fuel. induction fuel as [|fuel IH]; intros h S t Hfuel Hne Hs HD Hsort Ha.
  { destruct t; [done|]. simpl in Hfuel. rewrite length_app in Hfuel. simpl in Hfuel. lia. }
  assert (Hroot : exists l x r, t = Node l x r) by (destruct t; [done|eauto]). destruct Hroot as (l & x & r & Et).
  assert (HxU : hd t ∈ U) by (apply (st_U _ _ _ Hs), whole_elem; left; rewrite Et; simpl; set_solver).
  simpl. apply wp_bind, wp_sph_root; [apply Hs|]. rewrite (st_root _ _ _ Hs).
  apply wp_bind, wp_cmp; [done..|]. intros c Htow Hzero.
  destruct (decide (c = 0)) as [Ec|Ec].
  { replace (c =? 0) with true by lia. apply wp_ret. exists S, l, x, r. rewrite <- Et. split_and!; try done.
    - apply sorted_whole in Hsort. rewrite (proj1 Hzero Ec). subst t. by apply between_root.
    - apply effect_none, Hs. }
  destruct (toward_cases c) as [?|Hd]; [done|].
  destruct Hd as [d Hd]. pose proof (proj1 (Htow d) Hd) as Hpast. rewrite (splay_round d c fuel elm (ends S)) by done.
  destruct (mk_cases d t) as [->|(n & z & f & ->)]; [done|]. clear Et l x r. rewrite hd_mk in *.
  apply wp_bind. eapply wp_mono.
  { apply (go_run h S d n z f fuel _ (fun y => bool_decide (past d (key elm) (key y)))); [done|done|].
    intros y Hy. apply wp_bind, wp_cmp; [done|done|apply (st_U _ _ _ Hs), whole_elem; left; rewrite inorder_mk; auto|].
    intros v Hv _. apply wp_ret. split; [done|]. apply eq_true_iff_eq.
    rewrite bool_decide_eq_true, <- Hv. unfold toward. destruct d; apply Z.ltb_lt. }
  intros o h1 (He & y & g & t' & Hy & Hw & Hcase).
  assert (Hpy : past d (key elm) (key y)) by (destruct Hy as [->|Hy]; [done|by apply bool_decide_eq_true in Hy]).
  destruct o as [v|].
  - destruct Hcase as (-> & H1 & H2 & H3). rewrite !ends_push.
    eapply wp_mono; [apply (IH h1 (push S d (y, g)) t')|]; try done.
    + by apply (D_same h), HD; apply He.
    + by rewrite whole_push, Hw.
    + apply (aside_push S d y g t'); [done|by rewrite Hw|done].
    + intros p h' (S' & l & x & r & -> & H4 & H5 & H6 & H7 & H8). rewrite whole_push, Hw in H7, H8. exists S', l, x, r.
      split_and!; try done. by eapply effect_then.
  - destruct Hcase as [-> H1]. apply wp_ret. rewrite <- Hw in Hsort.
    destruct (between_leaf d y g (key elm)) as (l & r & E & Hb); [by apply sorted_whole in Hsort|done|].
    exists S, l, y, r. rewrite <- E. by split_and!.
Qed.

(** The splay: the same elements, the root splits them at the key of [elm]. *)
Lemma wp_SPLAY fuel elm h t Q : elm ∈ U -> holds h t -> D h -> t <> Leaf -> sorted key (inorder t) -> (length (inorder t) <= fuel)%nat ->
  (forall h' l x r, holds h' (Node l x r) -> D h' -> between (key elm) l r -> inorder (Node l x r) = inorder t ->
    effect h h' (inorder t) -> Q tt h') ->
  wp (SPLAY field cmp __node fuel head elm) Q h.
Proof.
  intros Helm Ht HD Hne Hsort Hfuel HQ. unfold SPLAY. apply (wp_start h t); [done|]. intros h1 Hs1 He1. apply wp_bind.
  assert (HD1 : D h1) by (apply (D_same h), HD; apply He1).
  change __node with (ends no_spines true) at 1. change __node with (ends no_spines false) at 2.
  eapply wp_mono; [apply (splay_loop_run elm Helm fuel h1 no_spines t); try done; [by rewrite whole_none|by intros d y ?%not_elem_of_nil]|].
  intros p h2 (S & l & x & r & -> & Ha & Hs2 & [Hl Hr] & Hw & He2). rewrite whole_none in Hw, He2. simpl fst. simpl snd.
  apply (wp_ASSEMBLE h2 S l x r); [done|]. intros h3 Ht3 He3. rewrite Hw in He3.
  apply (HQ h3 _ _ _ Ht3).
  - apply (D_same h2); [apply He3|]. apply (D_same h1); [apply He2|done].
  - split; intros y.
    + rewrite inorder_close_true, elem_of_app. intros [Hy|Hy]; [by apply (Ha true)|by apply Hl].
    + rewrite inorder_close_false, elem_of_app. intros [Hy|Hy]; [by apply Hr|by apply (Ha false)].
  - change (inorder (assembled S l x r) = inorder t). by rewrite inorder_assembled.
  - eapply effect_then; [eapply effect_weaken; [exact He1|by intros z Hz%not_elem_of_nil]|].
    by eapply effect_then.
Qed.

(** ** The operations *)

(** The tree holds the elements [l]. *)
Definition has (h : mem) (l : list Z) : Prop := exists t, holds h t /\ D h /\ inorder t = l /\ sorted key l.

Lemma has_U h l x : has h l -> x ∈ l -> x ∈ U.
Proof. intros (t & Ht & _ & <- & _). apply Ht. Qed.

Lemma wp_EMPTY {A} h t (k : bool -> M mem A) Q : holds h t -> wp (k (bool_decide (t = Leaf))) Q h -> wp (bind (SPLAY_EMPTY head) k) Q h.
Proof.
  intros Ht HQ. apply wp_bind. unfold SPLAY_EMPTY. apply wp_bind, wp_sph_root; [apply Ht|]. apply wp_ret.
  replace (rt h =? NULL) with (bool_decide (t = Leaf)); [done|]. apply eq_true_iff_eq.
  rewrite bool_decide_eq_true, (holds_root _ _ Ht). symmetry. apply hd_null, Ht.
Qed.

Lemma root_in l x r : x ∈ inorder (Node l x r).
Proof. simpl. set_solver. Qed.

(** The loop condition of [SPLAY_FIND] and [SPLAY_REMOVE] after the splay. *)
Lemma wp_compare_root {A} h l x r elm (k : Z -> M mem A) Q : elm ∈ U -> holds h (Node l x r) -> D h ->
  (forall c, (forall d, toward d c <-> past d (key elm) (key x)) -> (c = 0 <-> key elm = key x) -> wp (k c) Q h) ->
  wp (root <- load (sph_root head) ;; c <- cmp elm root ;; k c) Q h.
Proof.
  intros Helm Ht HD HQ. apply wp_bind, wp_sph_root; [apply Ht|]. rewrite (holds_root _ _ Ht).
  apply wp_bind, wp_cmp; [done|done|apply (holds_U _ _ Ht), root_in|done].
Qed.

(** The element with the key [k], if there is one, is the root. *)
Lemma between_key k l x r : between k l r -> forall y, y ∈ inorder (Node l x r) -> key y = k -> y = x.
Proof.
  intros [Hl Hr] y. simpl. rewrite elem_of_app, elem_of_cons. intros [Hy|[->|Hy]] E; [|done|].
  - specialize (Hl y Hy). lia.
  - specialize (Hr y Hy). lia.
Qed.

Lemma find_spec fuel h l elm : has h l -> elm ∈ U -> (length l <= fuel)%nat ->
  wp (SPLAY_FIND field cmp __node fuel head elm) (fun v h' => has h' l /\ found key l elm v /\ effect h h' l) h.
Proof.
  intros (t & Ht & HD & <- & Hsort) Helm Hfuel. unfold SPLAY_FIND. apply (wp_EMPTY h t); [done|].
  case_bool_decide as Et.
  { apply wp_ret. subst t. split; [by exists Leaf|]. split; [right; split; [done|by intros y ?%not_elem_of_nil]|apply effect_none, Ht]. }
  apply wp_bind, (wp_SPLAY fuel elm h t); [done..|]. intros h' l x r Ht' HD' Hb Hin He.
  assert (Hhas : has h' (inorder t)) by (by exists (Node l x r)).
  apply (wp_compare_root h' l x r elm); [done..|]. intros c _ Hz. apply wp_if; intros E.
  - apply wp_sph_root; [apply Ht'|]. rewrite (holds_root _ _ Ht'). split_and!; [done| |done].
    left. rewrite <- Hin. split; [apply root_in|]. simpl. symmetry. apply Hz. lia.
  - apply wp_ret. split_and!; [done| |done]. right. split; [done|]. intros y Hy Ey. rewrite <- Hin in Hy.
    pose proof (between_key _ _ _ _ Hb y Hy Ey) as ->. symmetry in Ey. apply Hz in Ey. lia.
Qed.

Lemma minmax_spec d fuel h l c : has h l -> l <> [] -> toward d c -> (length l <= fuel)%nat ->
  wp (SPLAY_MIN_MAX field __node fuel head c)
    (fun v h' => has h' l /\ v = (if d then predecessor NULL l else successor NULL l) /\ effect h h' l) h.
Proof.
  intros (t & Ht & HD & <- & Hsort) Hne Hc Hfuel. unfold SPLAY_MIN_MAX.
  apply wp_bind, (wp_SPLAY_MINMAX d c fuel h t); [done|done|by intros ->|done|]. intros h' x u Ht' Hin He.
  apply wp_sph_root; [apply Ht'|]. rewrite (holds_root _ _ Ht'), hd_mk. split_and!; [|by rewrite <- Hin; destruct d; simpl; rewrite ?predecessor_snoc|done].
  exists (mk d Leaf x u). split_and!; try done. apply (D_same h); [apply He|done].
Qed.

(** The left-most element of a subtree. *)
Lemma leftmost_run h t : forall fuel, mapped h -> tr (lk h) t -> t <> Leaf -> (forall x, x ∈ inorder t -> x ∈ U) ->
  (length (inorder t) <= fuel)%nat -> wp (leftmost field fuel (hd t)) (fun v h' => h' = h /\ v = successor NULL (inorder t)) h.
Proof.
  induction t as [|l IH x r _]; [done|]. intros fuel Hm (H1 & _ & Hl & _) _ HU Hfuel.
  simpl in Hfuel. rewrite length_app in Hfuel. simpl in Hfuel. destruct fuel as [|fuel]; [lia|].
  assert (Hx : local x) by (apply local_U, HU, root_in).
  assert (HUl : forall y, y ∈ inorder l -> y ∈ U) by (intros y Hy; apply HU; simpl; set_solver).
  simpl. apply wp_bind, (wp_link h false); [done..|]. rewrite H1. pose proof (hd_null l HUl) as Hn. destruct (hd l =? NULL); simpl.
  - apply wp_ret. by rewrite (proj1 Hn eq_refl).
  - apply wp_bind, (wp_link h false); [done..|]. rewrite H1. eapply wp_mono; [apply IH; try done|].
    + intros E. by apply (proj2 Hn) in E.
    + lia.
    + intros v h' [-> ->]. split; [done|]. destruct l as [|a y b]; [by discriminate (proj2 Hn eq_refl)|]. simpl. by destruct (inorder a).
Qed.

Lemma next_spec fuel h l1 elm l2 : has h (l1 ++ elm :: l2) -> (length (l1 ++ elm :: l2) <= fuel)%nat ->
  wp (SPLAY_NEXT field cmp __node fuel head elm)
    (fun v h' => has h' (l1 ++ elm :: l2) /\ v = successor NULL l2 /\ effect h h' (l1 ++ elm :: l2)) h.
Proof.
  intros (t & Ht & HD & Hin & Hsort) Hfuel. assert (Helm : elm ∈ inorder t) by (rewrite Hin; set_solver).
  unfold SPLAY_NEXT. rewrite <- Hin in Hsort, Hfuel.
  apply wp_bind, (wp_SPLAY fuel elm h t); [by apply (holds_U _ _ Ht)|done|done|intros ->; by apply not_elem_of_nil in Helm|done|done|].
  intros h' l x r Ht' HD' Hb Hin' He. rewrite <- Hin' in Helm. pose proof (between_key _ _ _ _ Hb elm Helm eq_refl) as <-.
  assert (Hhas : has h' (l1 ++ elm :: l2)) by (exists (Node l elm r); rewrite <- Hin; auto).
  assert (Hr : l2 = inorder r).
  { rewrite Hin in Hin'. symmetry. by apply (nodup_pivot elm (inorder l) (inorder r) l1 l2); [apply (holds_nodup _ _ Ht')|]. }
  pose proof (holds_tree _ _ Ht') as (_ & H2 & _ & Htr). rewrite Hin in He.
  assert (Hx : local elm) by (apply local_U, (holds_U _ _ Ht'), root_in).
  assert (HUr : forall y, y ∈ inorder r -> y ∈ U) by (intros y Hy; apply (holds_U _ _ Ht'); simpl; set_solver).
  apply wp_bind, (wp_link h' true); [apply Ht'|done|]. rewrite H2. pose proof (hd_null r HUr) as Hn.
  destruct (hd r =? NULL); simpl.
  - apply wp_ret. split_and!; [done| |done]. by rewrite Hr, (proj1 Hn eq_refl).
  - apply wp_bind, (wp_link h' true); [apply Ht'|done|]. rewrite H2.
    eapply wp_mono; [apply leftmost_run; [apply Ht'|done| |done|]|].
    + intros E. by apply (proj2 Hn) in E.
    + rewrite <- Hin' in Hfuel. simpl in Hfuel. rewrite length_app in Hfuel. simpl in Hfuel. lia.
    + intros v h2 [-> ->]. split_and!; [done| |done]. by rewrite Hr.
Qed.

(** The element goes above the root, which loses its son in the direction [d]. *)
Definition hang (d : bool) (elm : Z) : M mem (option Z) :=
  root <- load (sph_root head) ;;
  l <- load (fld d root) ;;
  store (fld d elm) l ;;;
  root <- load (sph_root head) ;;
  store (fld (negb d) elm) root ;;;
  root <- load (sph_root head) ;;
  store (fld d root) NULL ;;;
  ret None.

Lemma hang_run h d n x f elm (Q : option Z -> mem -> Prop) : holds h (mk d n x f) -> elm ∈ U -> elm ∉ inorder (mk d n x f) ->
  (forall h', rt h' = x -> holds (setrt h' elm) (mk d n elm (mk d Leaf x f)) ->
    effect h h' (elm :: inorder (mk d n x f)) -> Q None h') ->
  wp (hang d elm) Q h.
Proof.
  intros Ht Helm Hnin HQ. pose proof (holds_mapped _ _ Ht) as Hm. pose proof (holds_root _ _ Ht) as Hr. rewrite hd_mk in Hr.
  pose proof (holds_tree _ _ Ht) as Htr. rewrite tr_mk in Htr. destruct Htr as (H1 & H2 & Hn & Hf).
  assert (HU : forall y, y ∈ inorder (mk d n x f) -> local y) by (intros y Hy; by apply local_U, (holds_U _ _ Ht)).
  assert (Hx : x ∈ inorder (mk d n x f)) by (rewrite inorder_mk; auto). pose proof (HU x Hx) as Hlx.
  assert (Hle : local elm) by auto. assert (Hxe : x <> elm) by (by intros ->). assert (Hdd : negb d <> d) by (by destruct d).
  pose proof (holds_nodup _ _ Ht) as Hnd. rewrite mk_perm, NoDup_cons, elem_of_app in Hnd. destruct Hnd as [Hxn Hnd].
  unfold hang. apply wp_bind, wp_sph_root; [done|]. rewrite Hr. apply wp_bind, wp_link; [done..|]. rewrite H1.
  apply wp_bind, wp_setlink; [done..|]. apply wp_bind, wp_sph_root; [auto|]. rewrite rt_setlk, Hr by done.
  apply wp_bind, wp_setlink; [auto..|]. apply wp_bind, wp_sph_root; [auto|]. rewrite !rt_setlk, Hr by done.
  apply wp_bind, wp_setlink; [auto..|]. apply wp_ret, HQ; [by rewrite !rt_setlk| |].
  - set (h' := setrt _ _). assert (Hk : forall e z, local z -> z <> elm -> z <> x -> lk h' e z = lk h e z).
    { intros e z Hz Hz1 Hz2. unfold h'. rewrite lk_setrt, !lk_setlk_ne; try done; by intros [= _ ->]. }
    assert (Htr : forall u, (forall z, z ∈ inorder u -> z ∈ inorder (mk d n x f) /\ z <> x) -> tr (lk h) u -> tr (lk h') u).
    { intros u Hu. apply tr_ext. intros e z Hz. destruct (Hu z Hz) as [Hi Hzx]. apply Hk; [by apply HU|by intros ->|done]. }
    split; [unfold h'; auto|unfold h'; by rewrite rt_setrt, hd_mk| | |].
    + rewrite !tr_mk, hd_mk. unfold h' at 1 2 4 5. split_and!.
      * rewrite lk_setrt, lk_setlk_ne, lk_setlk_ne, lk_setlk_eq; try done; intros [=]; congruence.
      * rewrite lk_setrt, lk_setlk_ne, lk_setlk_eq; try done; intros [=]; congruence.
      * apply Htr; [|done]. intros z Hz. rewrite inorder_mk. split; [auto|]. intros ->. tauto.
      * by rewrite lk_setrt, lk_setlk_eq.
      * rewrite lk_setrt, !lk_setlk_ne; try done; intros [=]; congruence.
      * done.
      * apply Htr; [|done]. intros z Hz. rewrite inorder_mk. split; [auto|]. intros ->. tauto.
    + rewrite !mk_perm. simpl. rewrite NoDup_cons, elem_of_app, elem_of_cons.
      rewrite inorder_mk in Hnin. split; [intuition|]. rewrite <- Permutation_middle, NoDup_cons, elem_of_app. tauto.
    + intros y. rewrite !inorder_mk. intros [->|[Hy|[->|[Hy%not_elem_of_nil|Hy]]]]; try done; apply (holds_U _ _ Ht); rewrite inorder_mk; auto.
  - effects; intros _; rewrite elem_of_cons; auto.
Qed.

Lemma insert_branch d c elm : toward d c ->
  (if c <? 0 then
     root <- load (sph_root head) ;;
     l <- load (SPLAY_LEFT field root) ;;
     store (SPLAY_LEFT field elm) l ;;;
     root <- load (sph_root head) ;;
     store (SPLAY_RIGHT field elm) root ;;;
     root <- load (sph_root head) ;;
     store (SPLAY_LEFT field root) NULL ;;;
     ret None
   else if 0 <? c then
     root <- load (sph_root head) ;;
     r <- load (SPLAY_RIGHT field root) ;;
     store (SPLAY_RIGHT field elm) r ;;;
     root <- load (sph_root head) ;;
     store (SPLAY_LEFT field elm) root ;;;
     root <- load (sph_root head) ;;
     store (SPLAY_RIGHT field root) NULL ;;;
     ret None
   else root <- load (sph_root head) ;; ret (Some root)) = hang d elm.
Proof.
  unfold toward. intros Hc. destruct d.
  - replace (c <? 0) with false by lia. by replace (0 <? c) with true by lia.
  - by replace (c <? 0) with true by lia.
Qed.

(** Where the new element goes. *)
Lemma sorted_hang d n x f elm : sorted key (inorder (mk d n x f)) -> between (key elm) (if d then f else n) (if d then n else f) ->
  past d (key elm) (key x) ->
  exists l1 l2, inorder (mk d n x f) = l1 ++ l2 /\ inorder (mk d n elm (mk d Leaf x f)) = l1 ++ elm :: l2 /\ sorted key (l1 ++ elm :: l2).
Proof.
  intros Hsort [Hl Hr] Hp. pose proof (sorted_far key d n x f _ Hsort Hp) as Hfar. unfold sorted in *. destruct d; simpl in *.
  - exists (inorder f ++ [x]), (inorder n). rewrite <- app_assoc. split; [done|]. split; [done|].
    rewrite StronglySorted_app, StronglySorted_cons in Hsort. rewrite Forall_forall in Hsort. destruct Hsort as (H1 & H2 & H3 & H4).
    rewrite !StronglySorted_app, !StronglySorted_cons, !Forall_forall. split_and!; try done.
    + intros a b Ha Hb. rewrite elem_of_app, list_elem_of_singleton in Ha. rewrite elem_of_cons in Hb.
      destruct Ha as [Ha| ->], Hb as [->|Hb]; [by apply Hl|apply (H1 a b Ha); by right|done|by apply H3].
    + intros a b Ha Hb. apply list_elem_of_singleton in Hb as ->. apply (H1 a x Ha). by left.
    + by intros ? ?%not_elem_of_nil.
    + constructor.
  - exists (inorder n), (x :: inorder f). split; [done|]. split; [done|].
    rewrite StronglySorted_app in Hsort. destruct Hsort as (H1 & H2 & H3).
    rewrite StronglySorted_app, StronglySorted_cons, Forall_forall. split_and!; try done.
    + intros a b Ha Hb. apply elem_of_cons in Hb as [->|Hb]; auto.
    + intros a Ha. apply elem_of_cons in Ha as [->|Ha]; auto.
Qed.

Lemma insert_spec fuel h l elm : has h l -> elm ∈ U -> elm ∉ l -> (length l <= fuel)%nat ->
  wp (SPLAY_INSERT field cmp __node fuel head elm) (fun v h' => effect h h' (elm :: l) /\
    inserted key l elm v (has h')) h.
Proof.
  intros (t & Ht & HD & <- & Hsort) Helm Hnin Hfuel. unfold SPLAY_INSERT. apply (wp_EMPTY h t); [done|]. apply wp_bind.
  case_bool_decide as Et.
  { subst t. pose proof (holds_mapped _ _ Ht) as Hm. assert (Hle : local elm) by auto.
    apply wp_bind, (wp_setlink h true); [done..|]. apply wp_bind, (wp_setlink _ false); [auto..|]. apply wp_ret.
    apply wp_bind, wp_set_sph_root; [auto|]. apply wp_ret. set (h' := setrt _ _).
    assert (He : effect h h' [elm]).
    { unfold h'. effects; intros _; apply list_elem_of_here. }
    split; [done|]. right. split; [done|]. split; [by intros y ?%not_elem_of_nil|]. exists [], []. split; [done|].
    exists (Node Leaf elm Leaf). split_and!; [|apply (D_same h); [apply He|done]|done|by repeat constructor].
    split; [apply He|apply rt_setrt| |apply NoDup_singleton|by intros y ->%list_elem_of_singleton].
    simpl. unfold h'. rewrite !lk_setrt, lk_setlk_eq, lk_setlk_ne, lk_setlk_eq by done. done. }
  apply wp_bind, (wp_SPLAY fuel elm h t); [done..|]. intros h' l x r Ht' HD' Hb Hin He.
  apply (wp_compare_root h' l x r elm); [done..|]. intros c Htow Hz. destruct (decide (c = 0)) as [->|Ec].
  - apply wp_bind, wp_sph_root; [apply Ht'|]. rewrite (holds_root _ _ Ht'). apply wp_ret, wp_ret. split.
    + eapply effect_weaken; [exact He|by right].
    + left. rewrite <- Hin. split; [apply root_in|]. split; [symmetry; by apply Hz|]. exists (Node l x r). by rewrite Hin.
  - destruct (toward_cases c) as [?|Hd]; [done|]. destruct Hd as [d Hd].
    rewrite (insert_branch d) by done. pose proof (proj1 (Htow d) Hd) as Hp.
    set (n := if d then r else l). set (f := if d then l else r).
    assert (E : Node l x r = mk d n x f) by (unfold n, f; by destruct d). rewrite E in *.
    apply (hang_run h' d n x f elm); [done|done|by rewrite Hin|]. intros h2 Hr2 Ht2 He2. rewrite Hin in He2.
    apply wp_bind, wp_set_sph_root; [apply He2|]. apply wp_ret.
    assert (He3 : effect h (setrt h2 elm) (elm :: inorder t)).
    { apply effect_setrt. eapply effect_then; [eapply effect_weaken; [exact He|by right]|exact He2]. }
    split; [done|]. right. split; [done|]. split.
    { intros y Hy Ey. rewrite <- Hin, <- E in Hy. pose proof (between_key _ _ _ _ Hb y Hy Ey) as ->. symmetry in Ey. by apply Hz in Ey. }
    rewrite <- Hin in Hsort. destruct (sorted_hang d n x f elm) as (l1 & l2 & E1 & E2 & Hs); [done|unfold n, f; by destruct d|done|].
    exists l1, l2. split; [congruence|]. exists (mk d n elm (mk d Leaf x f)). split_and!; try done.
    apply (D_same h); [apply He3|done].
Qed.

(** The root goes, its right subtree hangs on the greatest element of the left one. *)
Lemma splay_remove_root fuel h l x r elm Q : elm ∈ U -> holds h (Node l x r) -> D h -> sorted key (inorder (Node l x r)) ->
  between (key elm) l r -> (length (inorder (Node l x r)) <= fuel)%nat ->
  (forall h' t, holds h' t -> D h' -> inorder t = inorder l ++ inorder r -> effect h h' (inorder (Node l x r)) -> Q elm h') ->
  wp (root <- load (sph_root head) ;;
      l <- load (SPLAY_LEFT field root) ;;
      (if l =? NULL then
         root <- load (sph_root head) ;;
         r <- load (SPLAY_RIGHT field root) ;;
         store (sph_root head) r
       else
         root <- load (sph_root head) ;;
         __tmp <- load (SPLAY_RIGHT field root) ;;
         root <- load (sph_root head) ;;
         l <- load (SPLAY_LEFT field root) ;;
         store (sph_root head) l ;;;
         SPLAY field cmp __node fuel head elm ;;;
         root <- load (sph_root head) ;;
         store (SPLAY_RIGHT field root) __tmp) ;;;
      ret elm) Q h.
Proof.
  intros Helm Ht HD Hsort [Hlt Hgt] Hfuel HQ. destruct Ht as [Hm Hr (H1 & H2 & Tl & Tr) Hnd HU]. simpl in Hr, Hnd.
  assert (Hx : local x) by (apply local_U, HU, root_in).
  assert (HUl : forall y, y ∈ inorder l -> y ∈ U) by (intros y Hy; apply HU; simpl; set_solver).
  assert (HUr : forall y, y ∈ inorder r -> y ∈ U) by (intros y Hy; apply HU; simpl; set_solver).
  pose proof (hd_null l HUl) as Hn. pose proof (NoDup_drop _ _ _ Hnd) as Hnd'.
  pose proof Hnd' as (Ndl & Hdis & Ndr)%NoDup_app.
  assert (Hroot : forall v, D (setrt h v)) by (intros v; apply (D_same h); [apply (effect_setrt h h v []); by apply effect_none|done]).
  apply wp_bind, wp_sph_root; [done|]. rewrite Hr. apply wp_bind, (wp_link h false); [done..|]. rewrite H1. apply wp_bind.
  destruct (hd l =? NULL).
  - pose proof (proj1 Hn eq_refl) as ->. apply wp_bind, wp_sph_root; [done|]. rewrite Hr. apply wp_bind, (wp_link h true); [done..|]. rewrite H2.
    apply wp_set_sph_root; [done|]. apply wp_ret, (HQ _ r); [|by apply Hroot|done|effects].
    split; [auto|apply rt_setrt| |done|done]. apply (tr_ext (lk h)); [|done]. intros d y Hy. by apply lk_setrt, local_U, HUr.
  - apply wp_bind, wp_sph_root; [done|]. rewrite Hr. apply wp_bind, (wp_link h true); [done..|]. rewrite H2.
    apply wp_bind, wp_sph_root; [done|]. rewrite Hr. apply wp_bind, (wp_link h false); [done..|]. rewrite H1.
    apply wp_bind, wp_set_sph_root; [done|]. apply wp_bind.
    assert (Hsl : sorted key (inorder l)) by (unfold sorted in *; simpl in Hsort; rewrite StronglySorted_app in Hsort; tauto).
    simpl in Hfuel. rewrite length_app in Hfuel.
    apply (wp_SPLAY fuel elm (setrt h (hd l)) l); [done| |by apply Hroot| |done|lia|].
    + split; [auto|apply rt_setrt| |done|done]. apply (tr_ext (lk h)); [|done]. intros d y Hy. by apply lk_setrt, local_U, HUl.
    + intros E. by apply (proj2 Hn) in E.
    + intros h2 l' y r' Ht2 HD2 [_ Hb] Hin He.
      assert (Er : r' = Leaf).
      { destruct r' as [|a z b]; [done|]. assert (Hz : z ∈ inorder l) by (rewrite <- Hin; simpl; set_solver).
        specialize (Hlt z Hz). specialize (Hb z (root_in a z b)). lia. }
      subst r'. destruct Ht2 as [Hm2 Hr2 (H3 & H4 & Tl2 & _) Hnd2 HU2]. simpl in Hr2, Hin, Hnd2.
      assert (Hy : y ∈ inorder l) by (rewrite <- Hin; set_solver). assert (Hly : local y) by auto.
      apply wp_bind, wp_sph_root; [done|]. rewrite Hr2. apply (wp_setlink _ true); [done..|].
      assert (E : inorder (Node l' y r) = inorder l ++ inorder r) by (rewrite <- Hin; simpl; by rewrite <- app_assoc).
      assert (He' : effect h (setlk h2 true y (hd r)) (inorder (Node l x r))).
      { apply effect_setlk; [|done|intros _; simpl; set_solver]. apply (effect_then h (setrt h (hd l))); [by effects|].
        eapply effect_weaken; [exact He|]. intros z Hz. simpl. set_solver. }
      apply wp_ret, (HQ _ (Node l' y r)); [|by apply (D_same h); [apply He'|]|done|done].
      split; [auto|by rewrite rt_setlk| |by rewrite E|intros z; rewrite E, elem_of_app; intros []; auto].
      assert (Hk : forall d z, local z -> z <> y -> lk (setlk h2 true y (hd r)) d z = lk h2 d z)
        by (intros d z Hz Hne; apply lk_setlk_ne; [done..|by intros [= _ ->]]).
      apply NoDup_app in Hnd2 as (_ & N2 & _). simpl. split_and!.
      * by rewrite lk_setlk_ne.
      * by apply lk_setlk_eq.
      * apply (tr_ext (lk h2)); [|done]. intros d z Hz. apply Hk; [apply local_U, HUl; rewrite <- Hin; set_solver|].
        intros ->. apply (N2 y Hz). set_solver.
      * apply (tr_ext (lk h)); [|done]. intros d z Hz. rewrite Hk; [|auto|intros ->; by apply (Hdis y)].
        rewrite (eff_links _ _ _ He); [by apply lk_setrt; auto|auto|]. intros Hz'. by apply (Hdis z).
Qed.

Lemma remove_spec fuel h l elm : has h l -> elm ∈ U -> (length l <= fuel)%nat ->
  wp (SPLAY_REMOVE field cmp __node fuel head elm) (fun v h' => effect h h' l /\
    ((v = elm /\ exists l1 x l2, l = l1 ++ x :: l2 /\ key x = key elm /\ has h' (l1 ++ l2)) \/
     (v = NULL /\ (forall y, y ∈ l -> key y <> key elm) /\ has h' l))) h.
Proof.
  intros (t & Ht & HD & <- & Hsort) Helm Hfuel. unfold SPLAY_REMOVE. apply (wp_EMPTY h t); [done|].
  case_bool_decide as Et.
  { subst t. apply wp_ret. split; [apply effect_none, Ht|]. right. split; [done|]. split; [by intros y ?%not_elem_of_nil|by exists Leaf]. }
  apply wp_bind, (wp_SPLAY fuel elm h t); [done..|]. intros h' l x r Ht' HD' Hb Hin He.
  apply (wp_compare_root h' l x r elm); [done..|]. intros c _ Hz. rewrite <- Hin in Hsort, Hfuel, He |- *. apply wp_if; intros E.
  - apply splay_remove_root with (l := l) (x := x) (r := r); [done..|]. intros h2 t2 Ht2 HD2 Hin2 He2.
    split; [by eapply effect_then|]. left. split; [done|]. exists (inorder l), x, (inorder r). split; [done|].
    split; [symmetry; apply Hz; lia|]. exists t2. split_and!; try done. by apply (sorted_drop _ _ x).
  - apply wp_ret. split; [done|]. right. split; [done|]. split; [|by exists (Node l x r)].
    intros y Hy Ey. pose proof (between_key _ _ _ _ Hb y Hy Ey) as ->. symmetry in Ey. apply Hz in Ey. lia.
Qed.

Lemma first_spec (d : bool) fuel h l : has h l -> (length l <= fuel)%nat ->
  wp (if d then SPLAY_MAX field __node fuel head else SPLAY_MIN field __node fuel head)
    (fun v h' => has h' l /\ v = (if d then predecessor NULL l else successor NULL l) /\ effect h h' l) h.
Proof.
  intros Hh Hfuel. pose proof Hh as (t & Ht & HD & Hin & Hsort).
  assert (Hrun : forall c, toward d c ->
    wp (e <- SPLAY_EMPTY head ;; if (e : bool) then ret NULL else SPLAY_MIN_MAX field __node fuel head c)
      (fun v h' => has h' l /\ v = (if d then predecessor NULL l else successor NULL l) /\ effect h h' l) h).
  { intros c Hc. apply (wp_EMPTY h t); [done|]. case_bool_decide as Et.
    - apply wp_ret. subst t l. simpl. split; [done|]. split; [by destruct d|apply effect_none, Ht].
    - apply minmax_spec; [done| |done|done]. destruct t as [|a x b]; [done|]. subst l. simpl. by destruct (inorder a). }
  destruct d; apply Hrun; unfold toward; reflexivity.
Qed.

(** The loop visits the elements in order, if its body leaves the tree alone. *)
Lemma splay_foreach_run fuel l (P : list Z -> mem -> Prop) body : (length l <= fuel)%nat ->
  (forall v h h', effect h h' l -> P v h -> P v h') ->
  (forall l1 x l2 h, l = l1 ++ x :: l2 -> has h l -> P l1 h -> wp (body x) (fun _ h' => has h' l /\ P (l1 ++ [x]) h') h) ->
  forall l2 l1 n h, l = l1 ++ l2 -> (length l2 < n)%nat -> has h l -> P l1 h ->
  wp (foreach_from field cmp __node n fuel head body (successor NULL l2)) (fun _ h' => has h' l /\ P l h') h.
Proof.
  intros Hfuel Hstable Hbody l2. induction l2 as [|x l2 IH]; intros l1 n h Hl Hn Hh HP; (destruct n as [|n]; [simpl in Hn; lia|]); simpl.
  - apply wp_ret. split; [done|]. by rewrite Hl, app_nil_r.
  - assert (Hx : x <> NULL).
    { intros ->. apply (lay_null HL), (has_U h l); [done|]. rewrite Hl. set_solver. }
    replace (x =? NULL) with false by lia. simpl. apply wp_bind. eapply wp_mono; [by apply (Hbody l1 x l2)|].
    intros _ h1 [Hh1 HP1]. apply wp_bind. subst l. eapply wp_mono; [by apply (next_spec fuel h1 l1 x l2)|].
    intros v h2 (Hh2 & -> & He). apply (IH (l1 ++ [x])); [by rewrite <- app_assoc|simpl in Hn; lia|done|]. by apply (Hstable _ h1).
Qed.

Lemma foreach_spec n fuel l (P : list Z -> mem -> Prop) body h : (length l <= fuel)%nat -> (length l < n)%nat ->
  (forall v h h', effect h h' l -> P v h -> P v h') ->
  (forall l1 x l2 h, l = l1 ++ x :: l2 -> has h l -> P l1 h -> wp (body x) (fun _ h' => has h' l /\ P (l1 ++ [x]) h') h) ->
  has h l -> P [] h ->
  wp (SPLAY_FOREACH field cmp __node n fuel head body) (fun _ h' => has h' l /\ P l h') h.
Proof.
  intros Hfuel Hn Hstable Hbody Hh HP. unfold SPLAY_FOREACH. apply wp_bind.
  eapply wp_mono; [by apply (first_spec false fuel h l)|]. intros v h1 (Hh1 & -> & He).
  apply (splay_foreach_run fuel l P body Hfuel Hstable Hbody l []); try done. by apply (Hstable _ h).
Qed.

Lemma splay_init_spec h : mapped h -> D h -> wp (SPLAY_INIT head) (fun _ h' => has h' [] /\ effect h h' []) h.
Proof.
  intros Hm HD. apply wp_set_sph_root; [done|]. assert (He : effect h (setrt h NULL) []) by effects. split; [|done].
  exists Leaf. split_and!; [|apply (D_same h); [apply He|done]|done|constructor].
  split; [auto|apply rt_setrt|done|constructor|by intros x ?%not_elem_of_nil].
Qed.

Lemma empty_spec h l : has h l -> wp (SPLAY_EMPTY head) (fun b h' => h' = h /\ (b = true <-> l = [])) h.
Proof.
  intros (t & Ht & _ & <- & _). unfold SPLAY_EMPTY. apply wp_bind, wp_sph_root; [apply Ht|]. apply wp_ret. split; [done|].
  rewrite (holds_root _ _ Ht), hd_null by apply Ht. destruct t as [|a x b]; [done|]. simpl. split; [done|]. by destruct (inorder a).
Qed.

End Search.

End Memory.

(** ** The contract of the header *)

(** C38. For every comparison that orders the elements by a key, the splay
    trees of [libkern/tree.h] hold lists of elements sorted by it, and no
    operation faults or runs forever: with as much fuel as there are elements,
    [SPLAY_FIND] gives the element with the key of [elm] or the null pointer,
    [SPLAY_INSERT] puts [elm] at its place or gives the element that has its
    key already, [SPLAY_REMOVE] takes out the element with the key of [elm]
    (and returns [elm] itself, which need not be the element taken out),
    [SPLAY_NEXT] gives the next element in order, [SPLAY_MIN] and [SPLAY_MAX]
    the first and the last, and [SPLAY_FOREACH] visits all of them in order.
    All but the insertion and the removal keep the list although they
    restructure the tree, and only the links of its elements, of the local
    element and of the head ever change.  [SPLAY_MIN_MAX] with 0, which the
    two macros never pass, does not return, whatever the fuel. *)
Theorem splay_operations (U : gset Z) (field __node head : Z) cmp D key :
  layout U field __node head -> Orders U (outside U field __node head) cmp D key ->
  let has := has U field __node head D key in
  let effect := effect U field __node head in
  (forall h, mapped U field __node head h -> D h -> wp (SPLAY_INIT head) (fun _ h' => has h' [] /\ effect h h' []) h) /\
  (forall h l fuel, has h l -> (length l <= fuel)%nat ->
    wp (SPLAY_EMPTY head) (fun b h' => h' = h /\ (b = true <-> l = [])) h /\
    wp (SPLAY_MIN field __node fuel head) (fun v h' => has h' l /\ v = successor NULL l /\ effect h h' l) h /\
    wp (SPLAY_MAX field __node fuel head) (fun v h' => has h' l /\ v = predecessor NULL l /\ effect h h' l) h /\
    (forall l1 elm l2, l = l1 ++ elm :: l2 ->
      wp (SPLAY_NEXT field cmp __node fuel head elm) (fun v h' => has h' l /\ v = successor NULL l2 /\ effect h h' l) h) /\
    (forall elm, elm ∈ U ->
      wp (SPLAY_FIND field cmp __node fuel head elm) (fun v h' => has h' l /\ found key l elm v /\ effect h h' l) h /\
      (elm ∉ l -> wp (SPLAY_INSERT field cmp __node fuel head elm) (fun v h' => effect h h' (elm :: l) /\
        inserted key l elm v (has h')) h) /\
      wp (SPLAY_REMOVE field cmp __node fuel head elm) (fun v h' => effect h h' l /\
        ((v = elm /\ exists l1 x l2, l = l1 ++ x :: l2 /\ key x = key elm /\ has h' (l1 ++ l2)) \/
         (v = NULL /\ (forall y, y ∈ l -> key y <> key elm) /\ has h' l))) h)) /\
  (forall h l fuel n (P : list Z -> mem -> Prop) body, has h l -> (length l <= fuel)%nat -> (length l < n)%nat ->
    (forall v h h', effect h h' l -> P v h -> P v h') ->
    (forall l1 x l2 h, l = l1 ++ x :: l2 -> has h l -> P l1 h -> wp (body x) (fun _ h' => has h' l /\ P (l1 ++ [x]) h') h) ->
    P [] h -> wp (SPLAY_FOREACH field cmp __node n fuel head body) (fun _ h' => has h' l /\ P l h') h) /\
  (forall h l fuel, has h l -> faults (SPLAY_MIN_MAX field __node fuel head 0) h).
Proof.
  intros HL HO has effect. split; [intros h Hm HD; by apply (splay_init_spec U field __node head HL cmp D key)|]. split.
  { intros h l fuel Hh Hfuel. split; [by apply (empty_spec U field __node head HL D key)|].
    split; [by apply (first_spec U field __node head HL cmp D key false)|].
    split; [by apply (first_spec U field __node head HL cmp D key true)|]. split; [intros l1 elm l2 ->; by apply next_spec|].
    intros elm Helm. split; [by apply find_spec|]. split; [intros Hn; by apply insert_spec|by apply remove_spec]. }
  split; [intros h l fuel n P body Hh Hfuel Hn Hs Hb HP; by apply foreach_spec|].
  intros h l fuel (t & Ht & _). by apply (minmax_zero U), Ht.
Qed.

(** Four elements, the local element, the head; the first and the last element have the same key. *)
Definition four : gset Z := {[64; 96; 128; 160]}.
Definition four_key (x : Z) : Z := if x =? 64 then 5 else if x =? 96 then 9 else if x =? 128 then 7 else 5.
Definition room : mem :=
  list_to_map ((8, 0) :: flat_map (fun x => [(x, four_key x); (x + 8, 0); (x + 16, 0)]) [32; 64; 96; 128; 160]).
Definition keyed (h : mem) : Prop := forall x, x ∈ four -> h !! x = Some (four_key x).

Lemma four_cases x : x ∈ four -> x = 64 \/ x = 96 \/ x = 128 \/ x = 160.
Proof. unfold four. rewrite !elem_of_union, !elem_of_singleton. tauto. Qed.

Lemma local_cases x : local four 32 x -> x = 32 \/ x = 64 \/ x = 96 \/ x = 128 \/ x = 160.
Proof. intros [H%four_cases| ->]; tauto. Qed.

Lemma four_layout : layout four 8 32 8.
Proof.
  split.
  - intros x y Hx%local_cases Hy%local_cases. lia.
  - intros x Hx%local_cases. lia.
  - intros H%four_cases. lia.
  - intros H%four_cases. unfold NULL in H. lia.
Qed.

Lemma four_orders : Orders four (outside four 8 32 8) compare_keys keyed four_key.
Proof.
  split.
  - intros h a b HD Ha Hb. apply compare_keys_run; auto.
  - intros h h' Ho HD x Hx. rewrite <- (HD x Hx). apply Ho.
    + apply four_cases in Hx. unfold sph_root. lia.
    + intros d y Hy%local_cases. apply four_cases in Hx. unfold fld, SPLAY_LEFT, SPLAY_RIGHT. destruct d; lia.
Qed.

Lemma room_mapped : mapped four 8 32 8 room.
Proof.
  split; [by eexists|]. intros d x Hx%local_cases. repeat destruct Hx as [->|Hx]; [..|subst x]; destruct d; by eexists.
Qed.

Lemma room_keyed : keyed room.
Proof. intros x Hx%four_cases. by repeat destruct Hx as [->|Hx]; [..|subst x]. Qed.

(** The tree at work; the removal by 160 takes out 64, and returns 160. *)
Definition splay_session : M mem (list Z) :=
  SPLAY_INIT 8 ;;;
  _ <- SPLAY_INSERT 8 compare_keys 32 4 8 64 ;;
  _ <- SPLAY_INSERT 8 compare_keys 32 4 8 96 ;;
  _ <- SPLAY_INSERT 8 compare_keys 32 4 8 128 ;;
  d <- SPLAY_INSERT 8 compare_keys 32 4 8 160 ;;
  a <- SPLAY_MIN 8 32 4 8 ;;
  b <- SPLAY_NEXT 8 compare_keys 32 4 8 a ;;
  c <- SPLAY_MAX 8 32 4 8 ;;
  f <- SPLAY_FIND 8 compare_keys 32 4 8 160 ;;
  r <- SPLAY_REMOVE 8 compare_keys 32 4 8 160 ;;
  m <- SPLAY_MIN 8 32 4 8 ;;
  ret [d; a; b; c; f; r; m].

Lemma splay_operations_witness :
  (exists h, splay_session room = Done [64; 64; 128; 96; 64; 160; 128] h) /\
  wp (SPLAY_INIT 8 ;;; SPLAY_INSERT 8 compare_keys 32 1 8 64)
    (fun v h => v = NULL /\ has four 8 32 8 keyed four_key h [64]) room.
Proof.
  split; [eexists; vm_compute; reflexivity|].
  destruct (splay_operations four 8 32 8 compare_keys keyed four_key four_layout four_orders) as (Hinit & Hops & _).
  apply wp_bind. eapply wp_mono; [apply Hinit; [exact room_mapped|exact room_keyed]|]. intros [] h1 [Hh1 _].
  destruct (Hops h1 [] 1%nat Hh1 ltac:(simpl; lia)) as (_ & _ & _ & _ & Helm).
  destruct (Helm 64) as (_ & Hins & _); [unfold four; set_solver|].
  eapply wp_mono; [apply Hins, not_elem_of_nil|]. intros v h2 [_ [[Hv _]|(-> & _ & l1 & l2 & El & Hh2)]].
  - by apply not_elem_of_nil in Hv.
  - symmetry in El. apply app_nil in El as [-> ->]. by split.
Defined.

End SplayTreeSpec.
