(* ===== verification/RBTree.v ===== *)
(** * RBTree: the red-black trees of [src/MacKernelSDK/Headers/libkern/tree.h]

    An element has three words, [field] bytes into it: the links to its
    children and the address of its parent with the colour in bit 0; the head
    has one cell, the pointer to the root.  The comparison of elements is a
    parameter; [RB_AUGMENT] is the one of the header, which does nothing.
    [RBTreeSpec], [RBFixup], [RBOperations] and [RBContract] have the theorems. *)

From Stdlib Require Import ZArith Lia Bool.
From stdpp Require Import base list option gmap.
From S2P Require Import Prelude Ring.
Open Scope Z_scope.

Module RBTree.

Section RB.
Context (field : Z) (cmp : Z -> Z -> M mem Z).

(** ** Fields *)

Definition RB_BLACK : Z := 0.
Definition RB_RED : Z := 1.
Definition RB_PLACEHOLDER : Z := NULL.
Definition RB_COLOR_MASK : Z := 0x1.

Definition RB_LEFT (elm : Z) : Z := elm + field.
Definition RB_RIGHT (elm : Z) : Z := elm + field + 8.
Definition _RB_PARENT (elm : Z) : Z := elm + field + 16.
Definition rbh_root (head : Z) : Z := head.

Definition RB_INIT (root : Z) : M mem unit := store (rbh_root root) NULL.
Definition RB_ROOT (head : Z) : M mem Z := load (rbh_root head).
Definition RB_EMPTY (head : Z) : M mem bool := r <- RB_ROOT head ;; ret (r =? NULL).

Definition RB_AUGMENT (x : Z) : M mem unit := ret tt.

Definition RB_GETPARENT (elm : Z) : M mem Z :=
  parent <- load (_RB_PARENT elm) ;;
  if negb (parent =? NULL) then
    let parent := Z.land parent (wrap64 (Z.lnot RB_COLOR_MASK)) in
    ret (if parent =? RB_PLACEHOLDER then NULL else parent)
  else ret NULL.

Definition RB_GETCOLOR (elm : Z) : M mem Z :=
  w <- load (_RB_PARENT elm) ;;
  ret (Z.land w RB_COLOR_MASK).

Definition RB_SETCOLOR (elm color : Z) : M mem unit :=
  parent <- RB_GETPARENT elm ;;
  let parent := if parent =? NULL then RB_PLACEHOLDER else parent in
  store (_RB_PARENT elm) (Z.lor parent color).

Definition RB_SETPARENT (elm parent : Z) : M mem Z :=
  color <- RB_GETCOLOR elm ;;
  store (_RB_PARENT elm) parent ;;;
  when (negb (color =? 0)) (RB_SETCOLOR elm color) ;;;
  RB_GETPARENT elm.

Definition RB_SET (elm parent : Z) : M mem unit :=
  _ <- RB_SETPARENT elm parent ;;
  store (RB_RIGHT elm) NULL ;;;
  store (RB_LEFT elm) NULL ;;;
  RB_SETCOLOR elm RB_RED.

Definition RB_SET_BLACKRED (black red : Z) : M mem unit :=
  RB_SETCOLOR black RB_BLACK ;;;
  RB_SETCOLOR red RB_RED.

(** ** Rotations: the result is the value [tmp] gets *)

Definition RB_ROTATE_LEFT (head elm : Z) : M mem Z :=
  tmp <- load (RB_RIGHT elm) ;;
  v <- load (RB_LEFT tmp) ;;
  store (RB_RIGHT elm) v ;;;
  when (negb (v =? NULL)) (l <- load (RB_LEFT tmp) ;; _ <- RB_SETPARENT l elm ;; ret tt) ;;;
  RB_AUGMENT elm ;;;
  p <- RB_GETPARENT elm ;;
  p <- RB_SETPARENT tmp p ;;
  (if negb (p =? NULL) then
     g <- RB_GETPARENT elm ;;
     l <- load (RB_LEFT g) ;;
     if elm =? l then g <- RB_GETPARENT elm ;; store (RB_LEFT g) tmp
     else g <- RB_GETPARENT elm ;; store (RB_RIGHT g) tmp
   else store (rbh_root head) tmp) ;;;
  store (RB_LEFT tmp) elm ;;;
  _ <- RB_SETPARENT elm tmp ;;
  RB_AUGMENT tmp ;;;
  p <- RB_GETPARENT tmp ;;
  when (negb (p =? NULL)) (g <- RB_GETPARENT tmp ;; RB_AUGMENT g) ;;;
  ret tmp.

Definition RB_ROTATE_RIGHT (head elm : Z) : M mem Z :=
  tmp <- load (RB_LEFT elm) ;;
  v <- load (RB_RIGHT tmp) ;;
  store (RB_LEFT elm) v ;;;
  when (negb (v =? NULL)) (r <- load (RB_RIGHT tmp) ;; _ <- RB_SETPARENT r elm ;; ret tt) ;;;
  RB_AUGMENT elm ;;;
  p <- RB_GETPARENT elm ;;
  p <- RB_SETPARENT tmp p ;;
  (if negb (p =? NULL) then
     g <- RB_GETPARENT elm ;;
     l <- load (RB_LEFT g) ;;
     if elm =? l then g <- RB_GETPARENT elm ;; store (RB_LEFT g) tmp
     else g <- RB_GETPARENT elm ;; store (RB_RIGHT g) tmp
   else store (rbh_root head) tmp) ;;;
  store (RB_RIGHT tmp) elm ;;;
  _ <- RB_SETPARENT elm tmp ;;
  RB_AUGMENT tmp ;;;
  p <- RB_GETPARENT tmp ;;
  when (negb (p =? NULL)) (g <- RB_GETPARENT tmp ;; RB_AUGMENT g) ;;;
  ret tmp.

(** ** [name##_RB_INSERT_COLOR] *)

(** [tmp && name##_RB_GETCOLOR(tmp) == RB_RED]. *)
Definition is_red (tmp : Z) : M mem bool :=
  if negb (tmp =? NULL) then c <- RB_GETCOLOR tmp ;; ret (c =? RB_RED) else ret false.

(** The two branches of the loop; the result is the next [elm]. *)
Definition insert_color_left (head elm parent gparent : Z) : M mem Z :=
  tmp <- load (RB_RIGHT gparent) ;;
  red <- is_red tmp ;;
  if (red : bool) then
    RB_SETCOLOR tmp RB_BLACK ;;;
    RB_SET_BLACKRED parent gparent ;;;
    ret gparent
  else
    r <- load (RB_RIGHT parent) ;;
    pe <- (if r =? elm then _ <- RB_ROTATE_LEFT head parent ;; ret (elm, parent) else ret (parent, elm)) ;;
    let '(parent, elm) := pe in
    RB_SET_BLACKRED parent gparent ;;;
    _ <- RB_ROTATE_RIGHT head gparent ;;
    ret elm.

Definition insert_color_right (head elm parent gparent : Z) : M mem Z :=
  tmp <- load (RB_LEFT gparent) ;;
  red <- is_red tmp ;;
  if (red : bool) then
    RB_SETCOLOR tmp RB_BLACK ;;;
    RB_SET_BLACKRED parent gparent ;;;
    ret gparent
  else
    l <- load (RB_LEFT parent) ;;
    pe <- (if l =? elm then _ <- RB_ROTATE_RIGHT head parent ;; ret (elm, parent) else ret (parent, elm)) ;;
    let '(parent, elm) := pe in
    RB_SET_BLACKRED parent gparent ;;;
    _ <- RB_ROTATE_LEFT head gparent ;;
    ret elm.

Fixpoint insert_color_loop (fuel : nat) (head elm : Z) : M mem unit :=
  match fuel with
  | O => fault
  | S fuel =>
      parent <- RB_GETPARENT elm ;;
      red <- is_red parent ;;
      if (red : bool) then
        gparent <- RB_GETPARENT parent ;;
        l <- load (RB_LEFT gparent) ;;
        elm <- (if parent =? l then insert_color_left head elm parent gparent
                else insert_color_right head elm parent gparent) ;;
        insert_color_loop fuel head elm
      else ret tt
  end.

Definition RB_INSERT_COLOR (fuel : nat) (head elm : Z) : M mem unit :=
  insert_color_loop fuel head elm ;;;
  root <- load (rbh_root head) ;;
  RB_SETCOLOR root RB_BLACK.

(** ** [name##_RB_REMOVE_COLOR] *)

(** [RB_LEFT(tmp, field) == NULL || name##_RB_GETCOLOR(RB_LEFT(tmp, field)) == RB_BLACK],
    for a link in the cell [a]. *)
Definition black_at (a : Z) : M mem bool :=
  v <- load a ;;
  if v =? NULL then ret true else v <- load a ;; c <- RB_GETCOLOR v ;; ret (c =? RB_BLACK).

(** The two branches of the loop: the next [elm] and [parent], or none when
    the loop ends with [elm] the root. *)
Definition remove_color_left (head parent : Z) : M mem (option (Z * Z)) :=
  tmp <- load (RB_RIGHT parent) ;;
  c <- RB_GETCOLOR tmp ;;
  tmp <- (if c =? RB_RED then
            RB_SET_BLACKRED tmp parent ;;;
            _ <- RB_ROTATE_LEFT head parent ;;
            load (RB_RIGHT parent)
          else ret tmp) ;;
  bl <- black_at (RB_LEFT tmp) ;;
  both <- (if (bl : bool) then black_at (RB_RIGHT tmp) else ret false) ;;
  if (both : bool) then
    RB_SETCOLOR tmp RB_RED ;;;
    let elm := parent in
    parent <- RB_GETPARENT elm ;;
    ret (Some (elm, parent))
  else
    br <- black_at (RB_RIGHT tmp) ;;
    tmp <- (if (br : bool) then
              oleft <- load (RB_LEFT tmp) ;;
              when (negb (oleft =? NULL)) (RB_SETCOLOR oleft RB_BLACK) ;;;
              RB_SETCOLOR tmp RB_RED ;;;
              _ <- RB_ROTATE_RIGHT head tmp ;;
              load (RB_RIGHT parent)
            else ret tmp) ;;
    c <- RB_GETCOLOR parent ;;
    RB_SETCOLOR tmp c ;;;
    RB_SETCOLOR parent RB_BLACK ;;;
    r <- load (RB_RIGHT tmp) ;;
    when (negb (r =? NULL)) (r <- load (RB_RIGHT tmp) ;; RB_SETCOLOR r RB_BLACK) ;;;
    _ <- RB_ROTATE_LEFT head parent ;;
    ret None.

Definition remove_color_right (head parent : Z) : M mem (option (Z * Z)) :=
  tmp <- load (RB_LEFT parent) ;;
  c <- RB_GETCOLOR tmp ;;
  tmp <- (if c =? RB_RED then
            RB_SET_BLACKRED tmp parent ;;;
            _ <- RB_ROTATE_RIGHT head parent ;;
            load (RB_LEFT parent)
          else ret tmp) ;;
  bl <- black_at (RB_LEFT tmp) ;;
  both <- (if (bl : bool) then black_at (RB_RIGHT tmp) else ret false) ;;
  if (both : bool) then
    RB_SETCOLOR tmp RB_RED ;;;
    let elm := parent in
    parent <- RB_GETPARENT elm ;;
    ret (Some (elm, parent))
  else
    bl <- black_at (RB_LEFT tmp) ;;
    tmp <- (if (bl : bool) then
              oright <- load (RB_RIGHT tmp) ;;
              when (negb (oright =? NULL)) (RB_SETCOLOR oright RB_BLACK) ;;;
              RB_SETCOLOR tmp RB_RED ;;;
              _ <- RB_ROTATE_LEFT head tmp ;;
              load (RB_LEFT parent)
            else ret tmp) ;;
    c <- RB_GETCOLOR parent ;;
    RB_SETCOLOR tmp c ;;;
    RB_SETCOLOR parent RB_BLACK ;;;
    l <- load (RB_LEFT tmp) ;;
    when (negb (l =? NULL)) (l <- load (RB_LEFT tmp) ;; RB_SETCOLOR l RB_BLACK) ;;;
    _ <- RB_ROTATE_RIGHT head parent ;;
    ret None.

(** The result is [elm] behind the loop. *)
Fixpoint remove_color_loop (fuel : nat) (head parent elm : Z) : M mem Z :=
  match fuel with
  | O => fault
  | S fuel =>
      black <- (if elm =? NULL then ret true else c <- RB_GETCOLOR elm ;; ret (c =? RB_BLACK)) ;;
      go <- (if (black : bool) then root <- RB_ROOT head ;; ret (negb (elm =? root)) else ret false) ;;
      if (go : bool) then
        l <- load (RB_LEFT parent) ;;
        o <- (if l =? elm then remove_color_left head parent else remove_color_right head parent) ;;
        match o with
        | Some (elm, parent) => remove_color_loop fuel head parent elm
        | None => RB_ROOT head
        end
      else ret elm
  end.

Definition RB_REMOVE_COLOR (fuel : nat) (head parent elm : Z) : M mem unit :=
  elm <- remove_color_loop fuel head parent elm ;;
  when (negb (elm =? NULL)) (RB_SETCOLOR elm RB_BLACK).

(** ** [name##_RB_REMOVE] *)

(** [while ((left = RB_LEFT(elm, field)) != NULL) elm = left]. *)
Fixpoint remove_leftmost (fuel : nat) (elm : Z) : M mem Z :=
  match fuel with
  | O => fault
  | S fuel =>
      left <- load (RB_LEFT elm) ;;
      if negb (left =? NULL) then remove_leftmost fuel left else ret elm
  end.

(** [do { RB_AUGMENT(left); } while ((left = name##_RB_GETPARENT(left)) != NULL)]. *)
Fixpoint augment_up (fuel : nat) (left : Z) : M mem unit :=
  match fuel with
  | O => fault
  | S fuel =>
      RB_AUGMENT left ;;;
      left <- RB_GETPARENT left ;;
      if negb (left =? NULL) then augment_up fuel left else ret tt
  end.

(** [child] takes the place of [elm] below [parent]. *)
Definition splice (head parent elm child : Z) : M mem unit :=
  when (negb (child =? NULL)) (_ <- RB_SETPARENT child parent ;; ret tt) ;;;
  if negb (parent =? NULL) then
    l <- load (RB_LEFT parent) ;;
    (if l =? elm then store (RB_LEFT parent) child else store (RB_RIGHT parent) child) ;;;
    RB_AUGMENT parent
  else store (rbh_root head) child.

(** [(elm)->field = (old)->field]. *)
Definition copy_field (elm old : Z) : M mem unit :=
  l <- load (RB_LEFT old) ;;
  r <- load (RB_RIGHT old) ;;
  p <- load (_RB_PARENT old) ;;
  store (RB_LEFT elm) l ;;;
  store (RB_RIGHT elm) r ;;;
  store (_RB_PARENT elm) p.

(** The branch for an element with two children: the next element takes its
    place.  The result is [child], [parent] and [color] at the label [color]. *)
Definition remove_two (fuel : nat) (head elm : Z) : M mem (Z * Z * Z) :=
  let old := elm in
  elm <- load (RB_RIGHT elm) ;;
  elm <- remove_leftmost fuel elm ;;
  child <- load (RB_RIGHT elm) ;;
  parent <- RB_GETPARENT elm ;;
  color <- RB_GETCOLOR elm ;;
  splice head parent elm child ;;;
  p <- RB_GETPARENT elm ;;
  let parent := if p =? old then elm else parent in
  copy_field elm old ;;;
  p <- RB_GETPARENT old ;;
  (if negb (p =? NULL) then
     p <- RB_GETPARENT old ;;
     l <- load (RB_LEFT p) ;;
     (if l =? old then p <- RB_GETPARENT old ;; store (RB_LEFT p) elm
      else p <- RB_GETPARENT old ;; store (RB_RIGHT p) elm) ;;;
     p <- RB_GETPARENT old ;;
     RB_AUGMENT p
   else store (rbh_root head) elm) ;;;
  l <- load (RB_LEFT old) ;;
  _ <- RB_SETPARENT l elm ;;
  r <- load (RB_RIGHT old) ;;
  when (negb (r =? NULL)) (r <- load (RB_RIGHT old) ;; _ <- RB_SETPARENT r elm ;; ret tt) ;;;
  when (negb (parent =? NULL)) (augment_up fuel parent) ;;;
  ret (child, parent, color).

Definition remove_one (head elm child : Z) : M mem (Z * Z * Z) :=
  parent <- RB_GETPARENT elm ;;
  color <- RB_GETCOLOR elm ;;
  splice head parent elm child ;;;
  ret (child, parent, color).

Definition RB_REMOVE (fuel : nat) (head elm : Z) : M mem Z :=
  let old := elm in
  l <- load (RB_LEFT elm) ;;
  cpc <- (if l =? NULL then
            child <- load (RB_RIGHT elm) ;;
            remove_one head elm child
          else
            r <- load (RB_RIGHT elm) ;;
            if r =? NULL then
              child <- load (RB_LEFT elm) ;;
              remove_one head elm child
            else remove_two fuel head elm) ;;
  let '(child, parent, color) := cpc in
  when (color =? RB_BLACK) (RB_REMOVE_COLOR fuel head parent child) ;;;
  ret old.

(** ** Insertion and search *)

(** The loop of [name##_RB_INSERT]: the element with the same key, or the
    future parent and the last comparison. *)
Fixpoint insert_search (fuel : nat) (elm tmp parent comp : Z) : M mem (Z + Z * Z) :=
  match fuel with
  | O => fault
  | S fuel =>
      if negb (tmp =? NULL) then
        let parent := tmp in
        comp <- cmp elm parent ;;
        if comp <? 0 then tmp <- load (RB_LEFT tmp) ;; insert_search fuel elm tmp parent comp
        else if 0 <? comp then tmp <- load (RB_RIGHT tmp) ;; insert_search fuel elm tmp parent comp
        else ret (inl tmp)
      else ret (inr (parent, comp))
  end.

Definition RB_INSERT (fuel : nat) (head elm : Z) : M mem Z :=
  tmp <- RB_ROOT head ;;
  o <- insert_search fuel elm tmp NULL 0 ;;
  match o with
  | inl tmp => ret tmp
  | inr (parent, comp) =>
      RB_SET elm parent ;;;
      (if negb (parent =? NULL) then
         (if comp <? 0 then store (RB_LEFT parent) elm else store (RB_RIGHT parent) elm) ;;;
         RB_AUGMENT parent
       else store (rbh_root head) elm) ;;;
      RB_INSERT_COLOR fuel head elm ;;;
      ret NULL
  end.

Fixpoint find_loop (fuel : nat) (elm tmp : Z) : M mem Z :=
  match fuel with
  | O => fault
  | S fuel =>
      if negb (tmp =? NULL) then
        comp <- cmp elm tmp ;;
        if comp <? 0 then tmp <- load (RB_LEFT tmp) ;; find_loop fuel elm tmp
        else if 0 <? comp then tmp <- load (RB_RIGHT tmp) ;; find_loop fuel elm tmp
        else ret tmp
      else ret NULL
  end.
Definition RB_FIND (fuel : nat) (head elm : Z) : M mem Z :=
  tmp <- RB_ROOT head ;; find_loop fuel elm tmp.

Fixpoint nfind_loop (fuel : nat) (elm tmp res : Z) : M mem Z :=
  match fuel with
  | O => fault
  | S fuel =>
      if negb (tmp =? NULL) then
        comp <- cmp elm tmp ;;
        if comp <? 0 then
          let res := tmp in
          tmp <- load (RB_LEFT tmp) ;; nfind_loop fuel elm tmp res
        else if 0 <? comp then tmp <- load (RB_RIGHT tmp) ;; nfind_loop fuel elm tmp res
        else ret tmp
      else ret res
  end.
Definition RB_NFIND (fuel : nat) (head elm : Z) : M mem Z :=
  tmp <- RB_ROOT head ;; nfind_loop fuel elm tmp NULL.

(** ** Walks *)

(** [while (RB_LEFT(elm, field)) elm = RB_LEFT(elm, field)], for the link cell [lnk]. *)
Fixpoint descend (lnk : Z -> Z) (fuel : nat) (elm : Z) : M mem Z :=
  match fuel with
  | O => fault
  | S fuel =>
      v <- load (lnk elm) ;;
      if negb (v =? NULL) then elm <- load (lnk elm) ;; descend lnk fuel elm else ret elm
  end.

(** [name##_RB_GETPARENT(elm) && (elm == RB_LEFT(name##_RB_GETPARENT(elm), field))]. *)
Definition is_child (lnk : Z -> Z) (elm : Z) : M mem bool :=
  p <- RB_GETPARENT elm ;;
  if negb (p =? NULL) then p <- RB_GETPARENT elm ;; v <- load (lnk p) ;; ret (elm =? v) else ret false.

(** [while (... is_child ...) elm = name##_RB_GETPARENT(elm)]. *)
Fixpoint ascend (lnk : Z -> Z) (fuel : nat) (elm : Z) : M mem Z :=
  match fuel with
  | O => fault
  | S fuel =>
      b <- is_child lnk elm ;;
      if (b : bool) then elm <- RB_GETPARENT elm ;; ascend lnk fuel elm else ret elm
  end.

Definition RB_NEXT (fuel : nat) (elm : Z) : M mem Z :=
  r <- load (RB_RIGHT elm) ;;
  if negb (r =? NULL) then
    elm <- load (RB_RIGHT elm) ;;
    descend RB_LEFT fuel elm
  else
    b <- is_child RB_LEFT elm ;;
    if (b : bool) then RB_GETPARENT elm
    else elm <- ascend RB_RIGHT fuel elm ;; RB_GETPARENT elm.

Definition RB_PREV (fuel : nat) (elm : Z) : M mem Z :=
  l <- load (RB_LEFT elm) ;;
  if negb (l =? NULL) then
    elm <- load (RB_LEFT elm) ;;
    descend RB_RIGHT fuel elm
  else
    b <- is_child RB_RIGHT elm ;;
    if (b : bool) then RB_GETPARENT elm
    else elm <- ascend RB_LEFT fuel elm ;; RB_GETPARENT elm.

Fixpoint minmax_loop (fuel : nat) (val tmp parent : Z) : M mem Z :=
  match fuel with
  | O => fault
  | S fuel =>
      if negb (tmp =? NULL) then
        let parent := tmp in
        tmp <- (if val <? 0 then load (RB_LEFT tmp) else load (RB_RIGHT tmp)) ;;
        minmax_loop fuel val tmp parent
      else ret parent
  end.
Definition RB_MINMAX (fuel : nat) (head val : Z) : M mem Z :=
  tmp <- RB_ROOT head ;; minmax_loop fuel val tmp NULL.

Definition RB_NEGINF : Z := -1.
Definition RB_INF : Z := 1.
Definition RB_MIN (fuel : nat) (x : Z) : M mem Z := RB_MINMAX fuel x RB_NEGINF.
Definition RB_MAX (fuel : nat) (x : Z) : M mem Z := RB_MINMAX fuel x RB_INF.

(** ** Loops *)

Fixpoint foreach_loop (n fuel : nat) (body : Z -> M mem unit) (x : Z) : M mem unit :=
  match n with
  | O => fault
  | S n =>
      if negb (x =? NULL) then body x ;;; x <- RB_NEXT fuel x ;; foreach_loop n fuel body x
      else ret tt
  end.
Definition RB_FOREACH (n fuel : nat) (head : Z) (body : Z -> M mem unit) : M mem unit :=
  x <- RB_MIN fuel head ;; foreach_loop n fuel body x.

(** The step [nxt] is taken before the body runs. *)
Fixpoint safe_loop (nxt : Z -> M mem Z) (n : nat) (body : Z -> M mem unit) (x : Z) : M mem unit :=
  match n with
  | O => fault
  | S n =>
      if negb (x =? NULL) then y <- nxt x ;; body x ;;; safe_loop nxt n body y
      else ret tt
  end.
Definition RB_FOREACH_FROM (n fuel : nat) (y : Z) (body : Z -> M mem unit) : M mem unit :=
  safe_loop (RB_NEXT fuel) n body y.
Definition RB_FOREACH_REVERSE_FROM (n fuel : nat) (y : Z) (body : Z -> M mem unit) : M mem unit :=
  safe_loop (RB_PREV fuel) n body y.
Definition RB_FOREACH_SAFE (n fuel : nat) (head : Z) (body : Z -> M mem unit) : M mem unit :=
  x <- RB_MIN fuel head ;; safe_loop (RB_NEXT fuel) n body x.

End RB.

End RBTree.
