(* ===== verification/RBTreeSpec.v ===== *)
(** * RBTreeSpec: red-black trees in memory

    Coloured trees, paths into them and how memory holds them; what the
    accessors, the rotations and the splicing of [RBTree] do to a tree with a
    focus.  Left and right are the booleans [false] and [true]: what [tree.h]
    writes out twice is proved once. *)

From Stdlib Require Import ZArith Lia Bool.
From stdpp Require Import base list option gmap.
From S2P Require Import Prelude Ring RBTree.
Import RBTree.
Open Scope Z_scope.

Module RBTreeSpec.

(** ** Trees and paths *)

Inductive colour : Type := R | B.

#[global] Instance colour_eq_dec : EqDecision colour.
Proof. solve_decision. Defined.

Inductive tree : Type := Leaf | Node (c : colour) (l : tree) (x : Z) (r : tree).

#[global] Instance rbtree_eq_dec : EqDecision tree.
Proof. solve_decision. Defined.

Definition hd (t : tree) : Z := match t with Leaf => NULL | Node _ _ x _ => x end.

Fixpoint inorder (t : tree) : list Z :=
  match t with Leaf => [] | Node _ l x r => inorder l ++ x :: inorder r end.

Fixpoint height (t : tree) : nat :=
  match t with Leaf => 0 | Node _ l _ r => S (height l `max` height r) end.

(** The node [x] with [near] in the direction [d] and [far] in the other. *)
Definition mk (d : bool) (c : colour) (near : tree) (x : Z) (far : tree) : tree :=
  if d then Node c far x near else Node c near x far.

(** A step of a path: the path went in the direction [d] at [x], past [s]. *)
Inductive frame : Type := F (d : bool) (c : colour) (x : Z) (s : tree).

Fixpoint plug (z : list frame) (t : tree) : tree :=
  match z with [] => t | F d c x s :: z => plug z (mk d c t x s) end.

(** The parent of the focus. *)
Definition up (z : list frame) : Z := match z with [] => NULL | F _ _ x _ :: _ => x end.

(** The elements left and right of the focus. *)
Fixpoint zl (z : list frame) : list Z :=
  match z with [] => [] | F d _ x s :: z => if d then zl z ++ inorder s ++ [x] else zl z end.
Fixpoint zr (z : list frame) : list Z :=
  match z with [] => [] | F d _ x s :: z => if d then zr z else x :: inorder s ++ zr z end.

Lemma hd_node d c n x f : hd (mk d c n x f) = x.
Proof. by destruct d. Qed.

Lemma node_cases d t : t = Leaf \/ exists c n x f, t = mk d c n x f.
Proof. destruct t as [|c l x r]; [by left|]. right. destruct d; [by exists c, r, x, l|by exists c, l, x, r]. Qed.

Lemma node_perm d c n x f : inorder (mk d c n x f) ≡ₚ x :: inorder n ++ inorder f.
Proof. destruct d; simpl; solve_Permutation. Qed.

Lemma elem_node d c n x f y : y ∈ inorder (mk d c n x f) <-> y = x \/ y ∈ inorder n \/ y ∈ inorder f.
Proof. rewrite node_perm, elem_of_cons, elem_of_app. tauto. Qed.

Lemma inorder_plug z t : inorder (plug z t) = zl z ++ inorder t ++ zr z.
Proof.
  revert t. induction z as [|[d c x s] z IH]; intros t; simpl; [by rewrite app_nil_r|].
  rewrite IH. destruct d; simpl; by rewrite <- !app_assoc.
Qed.

Lemma plug_same z t t' : inorder t' = inorder t -> inorder (plug z t') = inorder (plug z t).
Proof. intros E. by rewrite !inorder_plug, E. Qed.

Lemma plug_app z1 z2 t : plug (z1 ++ z2) t = plug z2 (plug z1 t).
Proof. revert t. induction z1 as [|[d c x s] z1 IH]; intros t; simpl; [done|]. apply IH. Qed.

Lemma rotate_inorder d c c' n y m x f :
  inorder (mk d c (mk d c' n y m) x f) = inorder (mk d c' n y (mk d c m x f)).
Proof. destruct d; simpl; by rewrite <- !app_assoc. Qed.

(** Every element is in the focus of some path. *)
Lemma locate x t : x ∈ inorder t -> exists z c l r, t = plug z (Node c l x r).
Proof.
  induction t as [|c l IHl y r IHr]; simpl; [by intros ?%not_elem_of_nil|].
  rewrite elem_of_app, elem_of_cons. intros [H|[->|H]].
  - destruct (IHl H) as (z & c' & a & b & ->). exists (z ++ [F false c y r]), c', a, b. by rewrite plug_app.
  - by exists [], c, l, r.
  - destruct (IHr H) as (z & c' & a & b & ->). exists (z ++ [F true c y l]), c', a, b. by rewrite plug_app.
Qed.

Lemma height_node d c n x f : height (mk d c n x f) = S (height n `max` height f).
Proof. destruct d; simpl; lia. Qed.

Lemma height_plug z t : (length z + height t <= height (plug z t))%nat.
Proof.
  revert t. induction z as [|[d c x s] z IH]; intros t; simpl; [lia|].
  specialize (IH (mk d c t x s)). rewrite height_node in IH. lia.
Qed.

(** The parts of a tree with a focus are disjoint. *)
Lemma plug_elem z t y : y ∈ inorder (plug z t) <-> y ∈ inorder t \/ y ∈ zl z ++ zr z.
Proof. rewrite inorder_plug, !elem_of_app. tauto. Qed.

Lemma plug_nodup z t : NoDup (inorder (plug z t)) <->
  NoDup (inorder t) /\ NoDup (zl z ++ zr z) /\ forall y, y ∈ inorder t -> y ∉ zl z ++ zr z.
Proof.
  rewrite inorder_plug. rewrite (Permutation_app_swap_app (zl z)). rewrite NoDup_app. tauto.
Qed.

Lemma z_perm d c x s z : zl (F d c x s :: z) ++ zr (F d c x s :: z) ≡ₚ x :: inorder s ++ zl z ++ zr z.
Proof. destruct d; simpl; solve_Permutation. Qed.

Lemma elem_z d c x s z y : y ∈ zl (F d c x s :: z) ++ zr (F d c x s :: z) <-> y = x \/ y ∈ inorder s \/ y ∈ zl z ++ zr z.
Proof. rewrite z_perm, elem_of_cons, elem_of_app. tauto. Qed.

(** ** Words with a pointer and a colour *)

Definition cz (c : colour) : Z := match c with R => RB_RED | B => RB_BLACK end.
Definition word (p : Z) (c : colour) : Z := Z.lor p (cz c).

Definition pointer (p : Z) : Prop := 0 <= p < 2 ^ 64 /\ p mod 2 = 0.

Lemma land_mask w : 0 <= w < 2 ^ 64 -> Z.land w (wrap64 (Z.lnot RB_COLOR_MASK)) = 2 * (w / 2).
Proof.
  intros Hw. change (wrap64 (Z.lnot RB_COLOR_MASK)) with (Z.ldiff (Z.ones 64) (Z.ones 1)).
  rewrite Z.ldiff_land, Z.land_assoc, Z.land_ones, Z.mod_small, <- Z.ldiff_land by lia.
  rewrite Z.ldiff_ones_r, Z.shiftl_mul_pow2, Z.shiftr_div_pow2 by lia. change (2 ^ 1) with 2. lia.
Qed.

Lemma word_eq p c : pointer p -> word p c = p + cz c.
Proof.
  intros [Hp Hm]. unfold word. apply (lor_fields p (p / 2) (cz c) 1); [lia|destruct c; unfold cz, RB_RED, RB_BLACK; lia|].
  pose proof (Z.div_mod p 2). lia.
Qed.

Lemma word_parent p c : pointer p -> Z.land (word p c) (wrap64 (Z.lnot RB_COLOR_MASK)) = p.
Proof.
  intros Hp. rewrite word_eq by done. destruct Hp as [Hp Hm]. pose proof (Z.div_mod p 2) as Hd.
  assert (Hc : 0 <= cz c < 2) by (destruct c; unfold cz, RB_RED, RB_BLACK; lia).
  assert (E : (p + cz c) / 2 = p / 2).
  { rewrite Hd at 1 by lia. rewrite Hm, Z.add_0_r, (Z.mul_comm 2), Z.div_add_l by lia. rewrite (Z.div_small (cz c)); lia. }
  rewrite land_mask, E by lia. lia.
Qed.

Lemma word_colour p c : pointer p -> Z.land (word p c) RB_COLOR_MASK = cz c.
Proof.
  intros Hp. rewrite word_eq by done. destruct Hp as [Hp Hm]. change RB_COLOR_MASK with (Z.ones 1).
  rewrite Z.land_ones, Z.add_mod by lia. change (2 ^ 1) with 2. rewrite Hm. by destruct c.
Qed.

Lemma word_zero p c : pointer p -> word p c = 0 -> p = 0 /\ c = B.
Proof. intros Hp. rewrite word_eq by done. destruct Hp. destruct c; unfold cz, RB_RED, RB_BLACK; intros ?; [lia|split; [lia|done]]. Qed.

(** ** Memory *)

(** The elements that may be in the tree or compared, the offset of their
    links and the head. *)
Class place : Type := mkPlace { U : gset Z; field : Z; head : Z }.

Section Memory.
Context {P : place}.

Definition fld (d : bool) (x : Z) : Z := if d then RB_RIGHT field x else RB_LEFT field x.

Record layout : Prop := mkLayout {
  lay_apart x y : x ∈ U -> y ∈ U -> x <> y -> 24 <= Z.abs (x - y);
  lay_head x : x ∈ U -> x + field + 24 <= head \/ head + 8 <= x + field;
  lay_element x : x ∈ U -> pointer x /\ x <> NULL
}.
Existing Class layout.

(** The head and the three words of the elements are mapped. *)
Definition mapped (h : mem) : Prop :=
  is_Some (h !! rbh_root head) /\ forall x, x ∈ U -> (forall d, is_Some (h !! fld d x)) /\ is_Some (h !! _RB_PARENT field x).

Definition lk (h : mem) (d : bool) (x : Z) : Z := cellat h (fld d x).
Definition pw (h : mem) (x : Z) : Z := cellat h (_RB_PARENT field x).
Definition rt (h : mem) : Z := cellat h (rbh_root head).
Definition setlk (h : mem) (d : bool) (x v : Z) : mem := <[fld d x := v]> h.
Definition setpw (h : mem) (x v : Z) : mem := <[_RB_PARENT field x := v]> h.
Definition setrt (h : mem) (v : Z) : mem := <[rbh_root head := v]> h.

(** Nothing but the head and the words of the elements changes. *)
Definition outside (h h' : mem) : Prop :=
  forall a, a <> rbh_root head -> (forall x, x ∈ U -> (forall d, a <> fld d x) /\ a <> _RB_PARENT field x) -> h' !! a = h !! a.

(** What an operation on the elements [l] may do. *)
Record effect (h h' : mem) (l : list Z) : Prop := mkEffect {
  eff_mapped : mapped h';
  eff_out : outside h h';
  eff_words x : x ∈ U -> x ∉ l -> (forall d, lk h' d x = lk h d x) /\ pw h' x = pw h x
}.

Lemma no_effect h l : mapped h -> effect h h l.
Proof. by split. Qed.

Lemma load_word h a Q : is_Some (h !! a) -> Q (cellat h a) h -> wp (load a) Q h.
Proof. intros [v Hv] HQ. eapply wp_load; [exact Hv|]. unfold cellat in HQ. by rewrite Hv in HQ. Qed.

Lemma wp_rbh_root h Q : mapped h -> Q (rt h) h -> wp (load (rbh_root head)) Q h.
Proof. intros [Hm _]. by apply load_word. Qed.

Lemma wp_lk h d x Q : mapped h -> x ∈ U -> Q (lk h d x) h -> wp (load (fld d x)) Q h.
Proof. intros [_ Hm] Hx. apply load_word. by apply Hm. Qed.

Lemma wp_pw h x Q : mapped h -> x ∈ U -> Q (pw h x) h -> wp (load (_RB_PARENT field x)) Q h.
Proof. intros [_ Hm] Hx. apply load_word. by apply Hm. Qed.

Lemma wp_setrt h v Q : mapped h -> Q tt (setrt h v) -> wp (store (rbh_root head) v) Q h.
Proof. intros [Hm _]. by apply wp_store. Qed.

Lemma wp_setlk h d x v Q : mapped h -> x ∈ U -> Q tt (setlk h d x v) -> wp (store (fld d x) v) Q h.
Proof. intros [_ Hm] Hx. apply wp_store. by apply Hm. Qed.

Lemma wp_setpw h x v Q : mapped h -> x ∈ U -> Q tt (setpw h x v) -> wp (store (_RB_PARENT field x) v) Q h.
Proof. intros [_ Hm] Hx. apply wp_store. by apply Hm. Qed.

Lemma words_insert h a v : mapped h -> mapped (<[a := v]> h).
Proof.
  intros [H1 H2]. split; [by apply is_Some_insert|]. intros x Hx. destruct (H2 x Hx) as [H3 H4].
  split; [intros d|]; by apply is_Some_insert.
Qed.

Lemma setlk_mapped h d x v : mapped h -> mapped (setlk h d x v).
Proof. apply words_insert. Qed.
Lemma setpw_mapped h x v : mapped h -> mapped (setpw h x v).
Proof. apply words_insert. Qed.
Lemma setrt_mapped h v : mapped h -> mapped (setrt h v).
Proof. apply words_insert. Qed.
Hint Resolve setlk_mapped setpw_mapped setrt_mapped : core.

Context {HL : layout}.

Lemma U_pointer x : x ∈ U -> pointer x.
Proof. intros Hx. by apply (lay_element HL). Qed.
Lemma U_nonnull x : x ∈ U -> x <> NULL.
Proof. intros Hx. by apply (lay_element HL). Qed.
Hint Resolve U_pointer U_nonnull : core.

Ltac cells := unfold fld, RB_LEFT, RB_RIGHT, _RB_PARENT, rbh_root in *.

Lemma fld_eq d e x y : x ∈ U -> y ∈ U -> fld d x = fld e y -> d = e /\ x = y.
Proof.
  intros Hx Hy. destruct (decide (x = y)) as [->|Hne].
  - cells. destruct d, e; intros E; split; (done || lia).
  - pose proof (lay_apart HL x y Hx Hy Hne). cells. destruct d, e; lia.
Qed.

Lemma fld_parent d x y : x ∈ U -> y ∈ U -> fld d x <> _RB_PARENT field y.
Proof.
  intros Hx Hy. destruct (decide (x = y)) as [->|Hne]; [cells; destruct d; lia|].
  pose proof (lay_apart HL x y Hx Hy Hne). cells. destruct d; lia.
Qed.

Lemma word_head x : x ∈ U -> (forall d, fld d x <> rbh_root head) /\ _RB_PARENT field x <> rbh_root head.
Proof. intros Hx. pose proof (lay_head HL x Hx). cells. split; [intros []|]; lia. Qed.

(** Reads after writes. *)
Lemma lk_set h d x v e y : x ∈ U -> y ∈ U -> lk (setlk h d x v) e y = if decide (e = d /\ y = x) then v else lk h e y.
Proof.
  intros Hx Hy. unfold lk, setlk. rewrite cellat_insert. destruct (decide (e = d /\ y = x)) as [[-> ->]|Hn].
  - by rewrite decide_True.
  - rewrite decide_False; [done|]. intros E. destruct (fld_eq d e x y Hx Hy E). by apply Hn.
Qed.

Lemma lk_pw h x v e y : x ∈ U -> y ∈ U -> lk (setpw h x v) e y = lk h e y.
Proof. intros Hx Hy. unfold lk, setpw. rewrite cellat_insert, decide_False; [done|]. by apply not_eq_sym, fld_parent. Qed.

Lemma lk_rt h v e y : y ∈ U -> lk (setrt h v) e y = lk h e y.
Proof. intros Hy. unfold lk, setrt. rewrite cellat_insert, decide_False; [done|]. by apply not_eq_sym, word_head. Qed.

Lemma pw_set h x v y : pw (setpw h x v) y = if decide (y = x) then v else pw h y.
Proof.
  unfold pw, setpw. rewrite cellat_insert. destruct (decide (y = x)) as [->|Hn]; [by rewrite decide_True|].
  rewrite decide_False; [done|]. cells. lia.
Qed.

Lemma pw_lk h d x v y : x ∈ U -> y ∈ U -> pw (setlk h d x v) y = pw h y.
Proof. intros Hx Hy. unfold pw, setlk. rewrite cellat_insert, decide_False; [done|]. by apply fld_parent. Qed.

Lemma pw_rt h v y : y ∈ U -> pw (setrt h v) y = pw h y.
Proof. intros Hy. unfold pw, setrt. rewrite cellat_insert, decide_False; [done|]. by apply not_eq_sym, word_head. Qed.

Lemma rt_lk h d x v : x ∈ U -> rt (setlk h d x v) = rt h.
Proof. intros Hx. unfold rt, setlk. rewrite cellat_insert, decide_False; [done|]. by apply word_head. Qed.

Lemma rt_pw h x v : x ∈ U -> rt (setpw h x v) = rt h.
Proof. intros Hx. unfold rt, setpw. rewrite cellat_insert, decide_False; [done|]. by apply word_head. Qed.

Lemma rt_set h v : rt (setrt h v) = v.
Proof. unfold rt, setrt. by rewrite cellat_insert, decide_True. Qed.

Lemma setpw_twice h x v w : setpw (setpw h x v) x w = setpw h x w.
Proof. apply insert_insert_eq. Qed.

(** ** Effects *)

Lemma effect_lk h h1 d x v l : effect h h1 l -> x ∈ U -> x ∈ l -> effect h (setlk h1 d x v) l.
Proof.
  intros [Hm Ho Hk] Hx Hl. split; [auto| |].
  - intros a Hr Ha. unfold setlk. rewrite lookup_insert_ne; [by apply Ho|]. apply not_eq_sym. by apply Ha.
  - intros y Hy Hn. destruct (Hk y Hy Hn) as [H1 H2]. rewrite pw_lk by done. split; [intros e|done].
    rewrite lk_set by done. rewrite decide_False; [done|]. intros [_ ->]. done.
Qed.

Lemma effect_pw h h1 x v l : effect h h1 l -> x ∈ U -> x ∈ l -> effect h (setpw h1 x v) l.
Proof.
  intros [Hm Ho Hk] Hx Hl. split; [auto| |].
  - intros a Hr Ha. unfold setpw. rewrite lookup_insert_ne; [by apply Ho|]. apply not_eq_sym. by apply Ha.
  - intros y Hy Hn. destruct (Hk y Hy Hn) as [H1 H2]. split; [intros e; by rewrite lk_pw|].
    rewrite pw_set, decide_False; [done|]. by intros ->.
Qed.

Lemma effect_rt h h1 v l : effect h h1 l -> effect h (setrt h1 v) l.
Proof.
  intros [Hm Ho Hk]. split; [auto| |].
  - intros a Ha Hx. unfold setrt. rewrite lookup_insert_ne; [by apply Ho|done].
  - intros y Hy Hn. destruct (Hk y Hy Hn) as [H1 H2]. rewrite pw_rt by done. split; [intros e; by rewrite lk_rt|done].
Qed.

(** ** The accessors *)

Lemma wp_GETPARENT h x p c Q : mapped h -> x ∈ U -> pw h x = word p c -> pointer p -> Q p h -> wp (RB_GETPARENT field x) Q h.
Proof.
  intros Hm Hx Hw Hp HQ. unfold RB_GETPARENT. apply wp_bind, wp_pw; [done..|]. rewrite Hw.
  destruct (Z.eqb_spec (word p c) NULL) as [E|E]; simpl.
  - destruct (word_zero p c Hp E) as [-> _]. by apply wp_ret.
  - apply wp_ret. rewrite word_parent by done. unfold RB_PLACEHOLDER. by destruct (Z.eqb_spec p NULL) as [->|].
Qed.

Lemma wp_GETCOLOR h x p c Q : mapped h -> x ∈ U -> pw h x = word p c -> pointer p -> Q (cz c) h -> wp (RB_GETCOLOR field x) Q h.
Proof.
  intros Hm Hx Hw Hp HQ. unfold RB_GETCOLOR. apply wp_bind, wp_pw; [done..|]. apply wp_ret. by rewrite Hw, word_colour.
Qed.

Lemma wp_SETCOLOR h x p c c' Q : mapped h -> x ∈ U -> pw h x = word p c -> pointer p ->
  Q tt (setpw h x (word p c')) -> wp (RB_SETCOLOR field x (cz c')) Q h.
Proof.
  intros Hm Hx Hw Hp HQ. unfold RB_SETCOLOR. apply wp_bind, (wp_GETPARENT h x p c); [done..|]. apply wp_setpw; [done..|].
  unfold RB_PLACEHOLDER. destruct (Z.eqb_spec p NULL) as [->|]; exact HQ.
Qed.

(** Whatever the word is, its colour stays. *)
Lemma wp_SETPARENT h x p' Q : mapped h -> x ∈ U -> pointer p' ->
  (forall c, Z.land (pw h x) RB_COLOR_MASK = cz c -> Q p' (setpw h x (word p' c))) -> wp (RB_SETPARENT field x p') Q h.
Proof.
  intros Hm Hx Hp' HQ. unfold RB_SETPARENT, RB_GETCOLOR. apply wp_bind. apply wp_bind, wp_pw; [done..|]. apply wp_ret.
  assert (Hc : exists c, Z.land (pw h x) RB_COLOR_MASK = cz c).
  { change RB_COLOR_MASK with (Z.ones 1). rewrite Z.land_ones by lia. change (2 ^ 1) with 2.
    pose proof (Z.mod_pos_bound (pw h x) 2 ltac:(lia)). destruct (decide (pw h x mod 2 = 0)); [exists B|exists R];
      unfold cz, RB_RED, RB_BLACK; lia. }
  destruct Hc as [c Hc]. rewrite Hc. apply wp_bind, wp_setpw; [done..|]. apply wp_bind, wp_when; intros E.
  - assert (c = R) as -> by (destruct c; done).
    assert (E0 : word p' B = p') by (rewrite word_eq by done; unfold cz, RB_BLACK; lia).
    rewrite <- E0 at 1. apply (wp_SETCOLOR _ x p' B); [auto|done|by rewrite pw_set, decide_True|done|].
    rewrite setpw_twice. apply (wp_GETPARENT _ x p' R); [auto|done|by rewrite pw_set, decide_True|done|]. by apply HQ.
  - assert (c = B) as -> by (destruct c; done).
    assert (E0 : word p' B = p') by (rewrite word_eq by done; unfold cz, RB_BLACK; lia).
    rewrite <- E0 at 1. apply (wp_GETPARENT _ x p' B); [auto|done|by rewrite pw_set, decide_True|done|]. by apply HQ.
Qed.

(** ** Trees in memory *)

Fixpoint tr (h : mem) (p : Z) (t : tree) : Prop :=
  match t with
  | Leaf => True
  | Node c l x r => lk h false x = hd l /\ lk h true x = hd r /\ pw h x = word p c /\ tr h x l /\ tr h x r
  end.

(** The path above the focus; [v] is the link to the focus. *)
Fixpoint path (h : mem) (z : list frame) (v : Z) : Prop :=
  match z with
  | [] => rt h = v
  | F d c x s :: z => lk h d x = v /\ lk h (negb d) x = hd s /\ pw h x = word (up z) c /\ tr h x s /\ path h z x
  end.

Lemma tr_node h p d c n x f :
  tr h p (mk d c n x f) <-> lk h d x = hd n /\ lk h (negb d) x = hd f /\ pw h x = word p c /\ tr h x n /\ tr h x f.
Proof. destruct d; simpl; tauto. Qed.

Lemma tr_plug h z t : rt h = hd (plug z t) /\ tr h NULL (plug z t) <-> path h z (hd t) /\ tr h (up z) t.
Proof.
  revert t. induction z as [|[d c x s] z IH]; intros t; simpl; [done|]. rewrite IH, hd_node, tr_node. tauto.
Qed.

Record holds (h : mem) (t : tree) : Prop := mkHolds {
  holds_mapped : mapped h;
  holds_root : rt h = hd t;
  holds_tree : tr h NULL t;
  holds_nodup : NoDup (inorder t);
  holds_U x : x ∈ inorder t -> x ∈ U
}.

(** A tree with a focus, taken apart. *)
Lemma holds_plug h z t : holds h (plug z t) -> path h z (hd t) /\ tr h (up z) t.
Proof. intros Ht. apply tr_plug. split; apply Ht. Qed.

Lemma holds_at h z d c n x f : holds h (plug z (mk d c n x f)) ->
  x ∈ U /\ lk h d x = hd n /\ lk h (negb d) x = hd f /\ pw h x = word (up z) c.
Proof.
  intros Ht. destruct (holds_plug _ _ _ Ht) as [_ Hf]. rewrite tr_node in Hf.
  split; [|tauto]. apply (holds_U _ _ Ht), plug_elem. left. rewrite elem_node. auto.
Qed.

Definition same_words (h h' : mem) (x : Z) : Prop := (forall d, lk h' d x = lk h d x) /\ pw h' x = pw h x.

Lemma tr_same h h' p t : (forall x, x ∈ inorder t -> same_words h h' x) -> tr h p t -> tr h' p t.
Proof.
  revert p. induction t as [|c l IHl x r IHr]; intros p Hf; simpl; [done|]. intros (H1 & H2 & H3 & Hl & Hr).
  destruct (Hf x) as [Hk Hp]; [simpl; set_solver|]. rewrite !Hk, Hp.
  split_and!; try done; [apply IHl|apply IHr]; try done; intros y Hy; apply Hf; simpl; set_solver.
Qed.

(** The root of the tree gets another parent. *)
Lemma tr_moved h h' p p' d c n x f : NoDup (inorder (mk d c n x f)) ->
  (forall y, y ∈ inorder (mk d c n x f) -> y <> x -> same_words h h' y) -> (forall e, lk h' e x = lk h e x) -> pw h' x = word p' c ->
  tr h p (mk d c n x f) -> tr h' p' (mk d c n x f).
Proof.
  intros Hnd Hf Hk Hp. rewrite !tr_node, !Hk, Hp. intros (H1 & H2 & _ & Hn & Hff). rewrite node_perm, NoDup_cons, elem_of_app in Hnd.
  split_and!; try done; (eapply tr_same; [|eassumption]); intros y Hy; apply Hf; try (rewrite elem_node; tauto); intros ->; tauto.
Qed.

Lemma path_same h h' z v : rt h' = rt h -> (forall x, x ∈ zl z ++ zr z -> same_words h h' x) -> path h z v -> path h' z v.
Proof.
  revert v. induction z as [|[d c x s] z IH]; intros v Hr Hf; [simpl; congruence|]. intros (H1 & H2 & H3 & H4 & H5).
  destruct (Hf x) as [Hk Hp]; [rewrite elem_z; auto|]. simpl. rewrite !Hk, Hp. split_and!; try done.
  - apply (tr_same h); [|done]. intros y Hy. apply Hf. rewrite elem_z. auto.
  - apply IH; [done| |done]. intros y Hy. apply Hf. rewrite elem_z. auto.
Qed.

(** The link to the focus. *)
Definition sethole (h : mem) (z : list frame) (v : Z) : mem :=
  match z with [] => setrt h v | F d _ x _ :: _ => setlk h d x v end.

(** The link to the focus changes, and nothing else of the path. *)
Lemma path_hole h z v v' : NoDup (zl z ++ zr z) -> (forall x, x ∈ zl z ++ zr z -> x ∈ U) -> path h z v -> path (sethole h z v') z v'.
Proof.
  destruct z as [|[d c x s] z]; simpl path; simpl sethole; [intros _ _ _; apply rt_set|]. rewrite z_perm, NoDup_cons, !elem_of_app.
  intros [Hx _] HU (H1 & H2 & H3 & H4 & H5). assert (HxU : x ∈ U) by (apply HU; rewrite elem_z; auto).
  assert (Hs : forall y, y ∈ inorder s \/ y ∈ zl z ++ zr z -> same_words h (setlk h d x v') y).
  { intros y Hy. assert (HyU : y ∈ U) by (apply HU; rewrite elem_z; tauto). rewrite elem_of_app in Hy.
    split; [intros e|by apply pw_lk]. rewrite lk_set, decide_False; try done. intros [_ ->]. tauto. }
  split_and!.
  - by rewrite lk_set, decide_True.
  - rewrite lk_set, decide_False; [done|by intros [E _]; destruct d|done|done].
  - by rewrite pw_lk.
  - apply (tr_same h); [|done]. intros y Hy. apply Hs. auto.
  - apply (path_same h); [by rewrite rt_lk| |done]. intros y Hy. apply Hs. auto.
Qed.

(** The hole is neither a word of another element nor a parent word. *)
Lemma sethole_other h z v y : (forall x, x ∈ zl z ++ zr z -> x ∈ U) -> y ∈ U ->
  pw (sethole h z v) y = pw h y /\ (y ∉ zl z ++ zr z -> forall e, lk (sethole h z v) e y = lk h e y).
Proof.
  intros HU Hy. destruct z as [|[d c x s] z]; simpl sethole; [split; [by apply pw_rt|intros _ e; by apply lk_rt]|].
  assert (Hx : x ∈ U) by (apply HU; rewrite elem_z; auto). split; [by apply pw_lk|]. intros Hn e.
  rewrite lk_set, decide_False; try done. intros [_ ->]. apply Hn. rewrite elem_z. auto.
Qed.

Lemma sethole_mapped h z v : mapped h -> mapped (sethole h z v).
Proof. destruct z as [|[d c x s] z]; simpl; auto. Qed.
Hint Resolve sethole_mapped : core.

(** Another tree in the focus: memory is right below, and the path has only
    been changed at the link. *)
Lemma holds_replace h h' z t t' : holds h (plug z t) -> mapped h' -> path h' z (hd t') -> tr h' (up z) t' ->
  NoDup (inorder (plug z t')) -> (forall x, x ∈ inorder t' -> x ∈ U) -> holds h' (plug z t').
Proof.
  intros Ht Hm Hp Htr Hnd HU. destruct (proj2 (tr_plug h' z t') (conj Hp Htr)) as [H1 H2]. split; try done.
  intros x. rewrite plug_elem. intros [Hx|Hx]; [by apply HU|]. apply (holds_U _ _ Ht), plug_elem. by right.
Qed.

Lemma up_pointer h z t : holds h (plug z t) -> pointer (up z) /\ (up z = NULL <-> z = []) /\ (z <> [] -> up z ∈ U).
Proof.
  intros Ht. destruct z as [|[d c x s] z]; simpl up.
  - split; [split; [unfold NULL; lia|done]|done].
  - assert (Hx : x ∈ U) by (apply (holds_U _ _ Ht), plug_elem; right; rewrite elem_z; auto).
    split; [auto|]. split; [|auto]. split; [intros E; by apply U_nonnull in Hx|done].
Qed.

Lemma z_in_U h z t x : holds h (plug z t) -> x ∈ zl z ++ zr z -> x ∈ U.
Proof. intros Ht Hx. apply (holds_U _ _ Ht), plug_elem. by right. Qed.

Lemma focus_in_U h z t x : holds h (plug z t) -> x ∈ inorder t -> x ∈ U.
Proof. intros Ht Hx. apply (holds_U _ _ Ht), plug_elem. by left. Qed.

(** [hd] is the null pointer for the empty tree only. *)
Lemma hd_leaf t : (forall x, x ∈ inorder t -> x ∈ U) -> (hd t =? NULL) = bool_decide (t = Leaf).
Proof.
  intros HU. destruct t as [|c l x r]; [done|]. rewrite bool_decide_eq_false_2 by done. simpl.
  destruct (Z.eqb_spec x NULL) as [E|]; [|done]. exfalso. apply (U_nonnull x); [|done]. apply HU. simpl. set_solver.
Qed.

(** ** Rotations *)

Lemma hd_elem t : hd t = NULL \/ hd t ∈ inorder t.
Proof. destruct t; simpl; [by left|right; set_solver]. Qed.

(** The parent's link to [elm]: the code looks at the left link first. *)
Lemma left_link h z elm : mapped h -> path h z elm -> elm ∈ U -> elm ∉ zl z ++ zr z -> z <> [] ->
  exists d c x s z', z = F d c x s :: z' /\ (elm =? lk h false x) = negb d.
Proof.
  intros Hm Hp He Hn Hz. destruct z as [|[d c x s] z]; [done|]. destruct Hp as (H1 & H2 & _). exists d, c, x, s, z. split; [done|].
  destruct d; simpl in *; [|by rewrite H1, Z.eqb_refl]. rewrite H2. apply Z.eqb_neq. intros E.
  destruct (hd_elem s) as [E'|E'].
  - apply (U_nonnull elm He). congruence.
  - apply Hn. change (elm ∈ zl (F true c x s :: z) ++ zr (F true c x s :: z)). rewrite elem_z. rewrite E. auto.
Qed.

Lemma wp_attach h z c elm tmp (Q : unit -> mem -> Prop) : mapped h -> path h z elm -> pw h elm = word (up z) c -> pointer (up z) ->
  elm ∈ U -> elm ∉ zl z ++ zr z -> (forall x, x ∈ zl z ++ zr z -> x ∈ U) -> Q tt (sethole h z tmp) ->
  wp (if negb (up z =? NULL) then
        g <- RB_GETPARENT field elm ;;
        l <- load (RB_LEFT field g) ;;
        if elm =? l then g <- RB_GETPARENT field elm ;; store (RB_LEFT field g) tmp
        else g <- RB_GETPARENT field elm ;; store (RB_RIGHT field g) tmp
      else store (rbh_root head) tmp) Q h.
Proof.
  intros Hm Hp Hw Hup He Hn HU HQ. destruct (decide (z = [])) as [->|Hz]; [by apply wp_setrt|].
  destruct (left_link h z elm) as (d & e & x & s & z' & -> & El); [done..|]. simpl up in *.
  assert (Hx : x ∈ U) by (apply HU; rewrite elem_z; auto).
  destruct (Z.eqb_spec x NULL) as [E|_]; [by apply U_nonnull in Hx|]. simpl.
  apply wp_bind, (wp_GETPARENT h elm x c); [done..|]. apply wp_bind, (wp_lk h false); [done..|]. rewrite El.
  destruct d; simpl; (apply wp_bind, (wp_GETPARENT h elm x c); [done..|]).
  - by apply (wp_setlk h true).
  - by apply (wp_setlk h false).
Qed.

(** A rotation at [elm], whose child in the direction [d] goes up. *)
Definition ROT (d : bool) (elm : Z) : M mem Z :=
  if d then RB_ROTATE_LEFT field head elm else RB_ROTATE_RIGHT field head elm.

Lemma ROT_eq d elm : ROT d elm =
  (tmp <- load (fld d elm) ;;
   v <- load (fld (negb d) tmp) ;;
   store (fld d elm) v ;;;
   when (negb (v =? NULL)) (l <- load (fld (negb d) tmp) ;; _ <- RB_SETPARENT field l elm ;; ret tt) ;;;
   RB_AUGMENT elm ;;;
   p <- RB_GETPARENT field elm ;;
   p <- RB_SETPARENT field tmp p ;;
   (if negb (p =? NULL) then
      g <- RB_GETPARENT field elm ;;
      l <- load (RB_LEFT field g) ;;
      if elm =? l then g <- RB_GETPARENT field elm ;; store (RB_LEFT field g) tmp
      else g <- RB_GETPARENT field elm ;; store (RB_RIGHT field g) tmp
    else store (rbh_root head) tmp) ;;;
   store (fld (negb d) tmp) elm ;;;
   _ <- RB_SETPARENT field elm tmp ;;
   RB_AUGMENT tmp ;;;
   p <- RB_GETPARENT field tmp ;;
   when (negb (p =? NULL)) (g <- RB_GETPARENT field tmp ;; RB_AUGMENT g) ;;;
   ret tmp).
Proof. by destruct d. Qed.

(** The words of an element whose colour is known get another parent. *)
Lemma wp_reparent h x p p' c Q : mapped h -> x ∈ U -> pointer p -> pointer p' -> pw h x = word p c ->
  Q p' (setpw h x (word p' c)) -> wp (RB_SETPARENT field x p') Q h.
Proof.
  intros Hm Hx Hp Hp' Hw HQ. apply wp_SETPARENT; [done..|]. intros c' Hc'. rewrite Hw, word_colour in Hc' by done.
  assert (c' = c) as -> by (destruct c, c'; done). done.
Qed.

(** [SETPARENT] on the root of a subtree that may be empty. *)
Definition setup (h : mem) (t : tree) (p : Z) : mem :=
  match t with Leaf => h | Node c _ x _ => setpw h x (word p c) end.

Lemma setup_mapped h t p : mapped h -> mapped (setup h t p).
Proof. destruct t; simpl; auto. Qed.
Hint Resolve setup_mapped : core.

Lemma setup_words h t p y : (forall x, x ∈ inorder t -> x ∈ U) -> y ∈ U ->
  (forall e, lk (setup h t p) e y = lk h e y) /\ (y <> hd t -> pw (setup h t p) y = pw h y) /\ rt (setup h t p) = rt h.
Proof.
  intros HU Hy. destruct t as [|c l x r]; [done|]. simpl. assert (Hx : x ∈ U) by (apply HU; simpl; set_solver).
  split_and!; [intros e; by apply lk_pw|intros Hn; by rewrite pw_set, decide_False|by apply rt_pw].
Qed.

Lemma setup_tr h h' t p p' : NoDup (inorder t) -> (forall x, x ∈ inorder t -> x ∈ U) -> tr h p t ->
  (forall x, x ∈ inorder t -> (forall e, lk h' e x = lk h e x) /\ pw h' x = pw (setup h t p') x) -> tr h' p' t.
Proof.
  destruct t as [|c l x r]; [done|]. intros Hnd HU Ht Hf. change (Node c l x r) with (mk false c l x r) in *.
  apply (tr_moved h h' p p'); try done.
  - intros y Hy Hne. destruct (Hf y Hy) as [H1 H2]. split; [done|]. rewrite H2. simpl. by rewrite pw_set, decide_False.
  - apply Hf. rewrite elem_node. auto.
  - destruct (Hf x) as [_ ->]; [rewrite elem_node; auto|]. simpl. by rewrite pw_set, decide_True.
Qed.

Lemma wp_setup h t p p' a (Q : unit -> mem -> Prop) : mapped h -> (forall x, x ∈ inorder t -> x ∈ U) -> pointer p -> pointer p' ->
  tr h p t -> is_Some (h !! a) -> cellat h a = hd t -> Q tt (setup h t p') ->
  wp (when (negb (hd t =? NULL)) (l <- load a ;; _ <- RB_SETPARENT field l p' ;; ret tt)) Q h.
Proof.
  intros Hm HU Hp Hp' Ht Ha Hv HQ. rewrite hd_leaf by done. destruct t as [|c l x r]; [by apply wp_ret|].
  rewrite bool_decide_eq_false_2 by done. simpl negb. apply wp_bind, load_word; [done|]. rewrite Hv. simpl hd.
  destruct Ht as (_ & _ & Hw & _). apply wp_bind, (wp_reparent h x p p' c); try done. apply HU. simpl. set_solver.
Qed.

Section Rotate.
Context (h : mem) (z : list frame) (d : bool) (c c' : colour) (n m f : tree) (x y : Z)
  (Ht : holds h (plug z (mk d c (mk d c' n y m) x f))).

Definition rotated : mem :=
  setpw (setlk (sethole (setpw (setup (setlk h d x (hd m)) m x) y (word (up z) c')) z y) (negb d) y x) x (word y c).

Lemma rot_distinct : x <> y /\ (forall w, w ∈ inorder n \/ w ∈ inorder m \/ w ∈ inorder f -> w <> x /\ w <> y) /\
  NoDup (inorder n) /\ NoDup (inorder m) /\ NoDup (inorder f) /\ NoDup (zl z ++ zr z) /\
  forall w, w = x \/ w = y \/ w ∈ inorder n \/ w ∈ inorder m \/ w ∈ inorder f -> w ∈ U /\ w ∉ zl z ++ zr z.
Proof.
  pose proof (holds_nodup _ _ Ht) as Hnd. apply plug_nodup in Hnd as (Hnd & Hz & Hdis).
  rewrite !node_perm in Hnd. simpl in Hnd. rewrite !NoDup_cons, !NoDup_app, elem_of_cons, !elem_of_app in Hnd.
  split_and!; try tauto.
  - intros w Hw. split; intros ->; tauto.
  - intros w Hw. assert (Hi : w ∈ inorder (mk d c (mk d c' n y m) x f)) by (rewrite !elem_node; tauto).
    split; [by apply (focus_in_U _ _ _ _ Ht)|by apply Hdis].
Qed.

Lemma rot_U w : w = x \/ w = y \/ w ∈ inorder n \/ w ∈ inorder m \/ w ∈ inorder f -> w ∈ U.
Proof. intros Hw. by apply rot_distinct. Qed.

Lemma rot_zU w : w ∈ zl z ++ zr z -> w ∈ U.
Proof. by apply (z_in_U _ _ _ _ Ht). Qed.

Lemma rot_hd w : w ∈ inorder n \/ w ∈ inorder f -> w <> hd m.
Proof.
  intros Hw E. destruct (hd_elem m) as [E'|E']; [apply (U_nonnull w); [apply rot_U; tauto|congruence]|].
  pose proof (holds_nodup _ _ Ht) as Hnd. apply plug_nodup in Hnd as (Hnd & _). rewrite !node_perm in Hnd. simpl in Hnd.
  rewrite !NoDup_cons, <- app_assoc, !NoDup_app in Hnd. destruct Hnd as (_ & _ & _ & Hnm & _ & Hmf & _). rewrite <- E in E'.
  destruct Hw as [Hw|Hw]; [apply (Hnm w Hw); apply elem_of_app; by left|by apply (Hmf w)].
Qed.

Lemma rot_pw w : w ∈ U -> pw rotated w = if decide (w = x) then word y c else if decide (w = y) then word (up z) c' else pw (setup h m x) w.
Proof.
  intros Hw. pose proof (rot_U x ltac:(auto)) as Hx. pose proof (rot_U y ltac:(auto)) as Hy.
  unfold rotated. rewrite pw_set. destruct (decide (w = x)); [done|]. rewrite pw_lk by done.
  destruct (sethole_other (setpw (setup (setlk h d x (hd m)) m x) y (word (up z) c')) z y w rot_zU Hw) as [-> _].
  rewrite pw_set. destruct (decide (w = y)); [done|]. destruct m as [|cm a b e]; simpl; [by apply pw_lk|].
  rewrite !pw_set. destruct (decide _); [done|]. by apply pw_lk.
Qed.

Lemma rot_lk e w : w ∈ U -> w ∉ zl z ++ zr z ->
  lk rotated e w = if decide (e = negb d /\ w = y) then x else if decide (e = d /\ w = x) then hd m else lk h e w.
Proof.
  intros Hw Hn. pose proof (rot_U x ltac:(auto)) as Hx. pose proof (rot_U y ltac:(auto)) as Hy.
  unfold rotated. rewrite lk_pw, lk_set by done. destruct (decide _); [done|].
  destruct (sethole_other (setpw (setup (setlk h d x (hd m)) m x) y (word (up z) c')) z y w rot_zU Hw) as [_ ->]; [|done].
  rewrite lk_pw by done. destruct (setup_words (setlk h d x (hd m)) m x w) as [-> _]; [intros v Hv; apply rot_U; tauto|done|].
  by rewrite lk_set.
Qed.

(** The path after the first three writes, and after all of them. *)
Lemma rot_path3 : path (setpw (setup (setlk h d x (hd m)) m x) y (word (up z) c')) z x.
Proof.
  pose proof (rot_U x ltac:(auto)) as Hx. pose proof (rot_U y ltac:(auto)) as Hy. destruct rot_distinct as (_ & _ & _ & _ & _ & _ & Hdis).
  destruct (holds_plug _ _ _ Ht) as [Hp _]. rewrite hd_node in Hp.
  assert (Hm : forall v, v ∈ inorder m -> v ∈ U) by (intros v Hv; apply rot_U; tauto).
  apply (path_same h); [| |done].
  - rewrite rt_pw by done. destruct (setup_words (setlk h d x (hd m)) m x x Hm Hx) as (_ & _ & ->). by apply rt_lk.
  - intros w Hw. pose proof (rot_zU w Hw) as HwU. destruct (setup_words (setlk h d x (hd m)) m x w Hm HwU) as (H1 & H2 & _).
    assert (Hne : w <> x /\ w <> y /\ w <> hd m).
    { split_and!; intros ->; [by apply (Hdis x); auto|by apply (Hdis y); auto|].
      destruct (hd_elem m) as [E|E]; [rewrite E in HwU; by apply (U_nonnull NULL)|]. apply (Hdis (hd m)); tauto. }
    split; [intros e|].
    + rewrite lk_pw, H1, lk_set, decide_False; try done. intros [_ ->]. tauto.
    + rewrite pw_set, decide_False, H2, pw_lk by tauto. done.
Qed.

Lemma rot_path : path rotated z y.
Proof.
  pose proof (rot_U x ltac:(auto)) as Hx. pose proof (rot_U y ltac:(auto)) as Hy.
  destruct rot_distinct as (_ & _ & _ & _ & _ & Hz & Hdis).
  pose proof (path_hole _ z x y Hz rot_zU rot_path3) as Hp. unfold rotated.
  eapply path_same; [| |exact Hp].
  - by rewrite rt_pw, rt_lk.
  - intros w Hw. pose proof (rot_zU w Hw) as HwU.
    assert (Hne : w <> x /\ w <> y) by (split; intros ->; [apply (Hdis x)|apply (Hdis y)]; auto).
    split; [intros e|].
    + rewrite lk_pw, lk_set, decide_False; try done. intros [_ ->]. tauto.
    + rewrite pw_set, decide_False, pw_lk by tauto. done.
Qed.

Lemma rot_holds : holds rotated (plug z (mk d c' n y (mk d c m x f))).
Proof.
  pose proof (rot_U x ltac:(auto)) as Hx. pose proof (rot_U y ltac:(auto)) as Hy.
  destruct rot_distinct as (Hxy & Hne & Nn & Nm & Nf & Hz & Hdis).
  destruct (holds_plug _ _ _ Ht) as [_ Hf]. rewrite !tr_node, hd_node in Hf.
  destruct Hf as (H1 & H2 & H3 & (H4 & H5 & H6 & Tn & Tm) & Tf). assert (Hdd : negb d <> d) by (by destruct d).
  apply (holds_replace h rotated z (mk d c (mk d c' n y m) x f)); [done| | | | |].
  - unfold rotated. pose proof (holds_mapped _ _ Ht). auto 10.
  - rewrite hd_node. apply rot_path.
  - rewrite !tr_node, hd_node. split_and!.
    + rewrite rot_lk, !decide_False; try done; try (apply Hdis; auto); naive_solver.
    + rewrite rot_lk, decide_True; try done. apply Hdis; auto.
    + rewrite rot_pw, decide_False, decide_True; done.
    + apply (tr_same h); [|done]. intros w Hw. destruct (Hne w) as [? ?]; [auto|]. destruct (Hdis w) as [HwU Hwz]; [auto|].
      split; [intros e; rewrite rot_lk, !decide_False by naive_solver; done|].
      rewrite rot_pw, !decide_False by done. apply setup_words; [intros v Hv; apply rot_U; tauto|done|].
      apply rot_hd. auto.
    + rewrite rot_lk, decide_False, decide_True; try done; [by intros [E _]|apply Hdis; auto].
    + rewrite rot_lk, !decide_False; try done; try (apply Hdis; auto); naive_solver.
    + by rewrite rot_pw, decide_True.
    + apply (setup_tr h _ m y); [done|intros v Hv; apply rot_U; tauto|done|]. intros w Hw. destruct (Hne w) as [? ?]; [auto|].
      destruct (Hdis w) as [HwU Hwz]; [auto|].
      split; [intros e; rewrite rot_lk, !decide_False by naive_solver; done|by rewrite rot_pw, !decide_False].
    + apply (tr_same h); [|done]. intros w Hw. destruct (Hne w) as [? ?]; [auto|]. destruct (Hdis w) as [HwU Hwz]; [auto|].
      split; [intros e; rewrite rot_lk, !decide_False by naive_solver; done|].
      rewrite rot_pw, !decide_False by done. apply setup_words; [intros v Hv; apply rot_U; tauto|done|].
      apply rot_hd. auto.
  - rewrite (plug_same z (mk d c (mk d c' n y m) x f)) by (by rewrite rotate_inorder). apply Ht.
  - intros w. rewrite !elem_node. intros Hw. apply rot_U. tauto.
Qed.

Lemma rot_effect l : (forall w, w ∈ inorder (plug z (mk d c (mk d c' n y m) x f)) -> w ∈ l) -> forall h0, effect h0 h l -> effect h0 rotated l.
Proof.
  intros Hl h0 He. pose proof (rot_U x ltac:(auto)) as Hx. pose proof (rot_U y ltac:(auto)) as Hy.
  assert (Hi : forall w, w = x \/ w = y \/ w ∈ inorder m -> w ∈ l) by (intros w Hw; apply Hl, plug_elem; left; rewrite !elem_node; tauto).
  unfold rotated. apply effect_pw; [|done|auto]. apply effect_lk; [|done|auto].
  assert (H3 : effect h0 (setpw (setup (setlk h d x (hd m)) m x) y (word (up z) c')) l).
  { apply effect_pw; [|done|auto]. assert (H1 : effect h0 (setlk h d x (hd m)) l) by (apply effect_lk; auto).
    assert (Hm : forall w, w ∈ inorder m -> w ∈ U /\ w ∈ l) by (intros w Hw; split; [apply rot_U; tauto|auto]).
    destruct m as [|cm a b e]; [done|]. simpl. destruct (Hm b) as [? ?]; [simpl; set_solver|]. by apply effect_pw. }
  assert (Hz : forall w, w ∈ zl z ++ zr z -> w ∈ U /\ w ∈ l) by (intros w Hw; split; [by apply rot_zU|apply Hl, plug_elem; by right]).
  destruct z as [|[d' e w s] z']; simpl sethole; [by apply effect_rt|]. destruct (Hz w) as [? ?]; [rewrite elem_z; auto|]. by apply effect_lk.
Qed.

Lemma wp_ROT Q : Q y rotated -> wp (ROT d x) Q h.
Proof.
  intros HQ. pose proof (rot_U x ltac:(auto)) as Hx. pose proof (rot_U y ltac:(auto)) as Hy. pose proof (holds_mapped _ _ Ht) as Hm.
  destruct rot_distinct as (Hxy & Hne & Nn & Nm & Nf & Hz & Hdis). destruct (up_pointer _ _ _ Ht) as (Hup & _).
  destruct (holds_plug _ _ _ Ht) as [_ Hf]. rewrite !tr_node, hd_node in Hf.
  destruct Hf as (H1 & H2 & H3 & (H4 & H5 & H6 & Tn & Tm) & Tf).
  assert (HmU : forall v, v ∈ inorder m -> v ∈ U) by (intros v Hv; apply rot_U; tauto).
  rewrite ROT_eq. apply wp_bind, wp_lk; [done..|]. rewrite H1. apply wp_bind, wp_lk; [done..|]. rewrite H5.
  apply wp_bind, wp_setlk; [done..|].
  assert (Hm1 : mapped (setlk h d x (hd m))) by auto.
  assert (Hl1 : lk (setlk h d x (hd m)) (negb d) y = hd m) by (rewrite lk_set, decide_False by naive_solver; done).
  apply wp_bind, (wp_setup _ m y x (fld (negb d) y)); [done|done|auto|auto| |by apply Hm1|done|].
  { apply (tr_same h); [|done]. intros w Hw. destruct (Hne w) as [? ?]; [auto|].
    split; [intros e; rewrite lk_set, decide_False; auto; naive_solver|apply pw_lk; auto]. }
  destruct (setup_words (setlk h d x (hd m)) m x x HmU Hx) as (L2 & P2 & _).
  destruct (setup_words (setlk h d x (hd m)) m x y HmU Hy) as (L2' & P2' & _).
  assert (Hhd : hd m <> x /\ hd m <> y).
  { destruct (hd_elem m) as [E|E]; [rewrite E; split; apply not_eq_sym; auto|]. apply Hne. auto. }
  assert (Hpx : pw (setup (setlk h d x (hd m)) m x) x = word (up z) c) by (rewrite P2, pw_lk; naive_solver).
  assert (Hpy : pw (setup (setlk h d x (hd m)) m x) y = word x c') by (rewrite P2', pw_lk; naive_solver).
  apply wp_bind, wp_ret. apply wp_bind, (wp_GETPARENT _ x (up z) c); [auto|done|done|done|].
  apply wp_bind, (wp_reparent _ y x (up z) c'); [auto|done|auto|done|done|].
  apply wp_bind, (wp_attach _ z c x y); [auto|apply rot_path3| |done|done|apply Hdis; auto|apply rot_zU|].
  { by rewrite pw_set, decide_False. }
  apply wp_bind, wp_setlk; [auto|done|].
  set (h5 := setlk _ _ _ _). assert (Hm5 : mapped h5) by (unfold h5; auto 10).
  assert (Hp5 : pw h5 x = word (up z) c).
  { unfold h5. rewrite pw_lk by done.
    destruct (sethole_other (setpw (setup (setlk h d x (hd m)) m x) y (word (up z) c')) z y x rot_zU Hx) as [-> _].
    by rewrite pw_set, decide_False. }
  assert (Hy5 : pw h5 y = word (up z) c').
  { unfold h5. rewrite pw_lk by done.
    destruct (sethole_other (setpw (setup (setlk h d x (hd m)) m x) y (word (up z) c')) z y y rot_zU Hy) as [-> _].
    by rewrite pw_set, decide_True. }
  apply wp_bind, (wp_reparent h5 x (up z) y c); [done|done|done|auto|done|].
  assert (E6 : setpw h5 x (word y c) = rotated) by done. rewrite E6.
  assert (Hm6 : mapped rotated) by (rewrite <- E6; auto).
  assert (Hy6 : pw rotated y = word (up z) c') by (rewrite <- E6, pw_set, decide_False; done).
  apply wp_bind, wp_ret. apply wp_bind, (wp_GETPARENT _ y (up z) c'); [done..|].
  apply wp_bind, wp_when; intros _; [|by apply wp_ret].
  apply wp_bind, (wp_GETPARENT _ y (up z) c'); [done..|]. apply wp_ret. by apply wp_ret.
Qed.

End Rotate.

(** ** Steps that keep the elements

    Since [h0], only the words of the elements [K] have changed; the tree holds
    the elements [l0]. *)
Section Kept.
Context (h0 : mem) (K l0 : list Z) (HK : forall x, x ∈ l0 -> x ∈ K).

Definition ok (h : mem) (t : tree) : Prop := holds h t /\ inorder t = l0 /\ effect h0 h K.

Lemma ok_mapped h t : ok h t -> mapped h.
Proof. intros [Ht _]. apply Ht. Qed.

Lemma ok_at h z d c n x f : ok h (plug z (mk d c n x f)) ->
  x ∈ U /\ lk h d x = hd n /\ lk h (negb d) x = hd f /\ pw h x = word (up z) c.
Proof. intros [Ht _]. by apply holds_at in Ht. Qed.

Lemma wp_near h z d c n x f Q : ok h (plug z (mk d c n x f)) -> Q (hd n) h -> wp (load (fld d x)) Q h.
Proof. intros Hok HQ. destruct (ok_at _ _ _ _ _ _ _ Hok) as (Hx & H1 & _). apply wp_lk; [by eapply ok_mapped|done|]. by rewrite H1. Qed.

Lemma wp_far h z d c n x f Q : ok h (plug z (mk d c n x f)) -> Q (hd f) h -> wp (load (fld (negb d) x)) Q h.
Proof. intros Hok HQ. destruct (ok_at _ _ _ _ _ _ _ Hok) as (Hx & _ & H1 & _). apply wp_lk; [by eapply ok_mapped|done|]. by rewrite H1. Qed.

Lemma wp_colour h z d c n x f Q : ok h (plug z (mk d c n x f)) -> Q (cz c) h -> wp (RB_GETCOLOR field x) Q h.
Proof.
  intros Hok HQ. destruct (ok_at _ _ _ _ _ _ _ Hok) as (Hx & _ & _ & H1). destruct Hok as [Ht _].
  eapply wp_GETCOLOR; [apply Ht|done|exact H1|by eapply up_pointer|done].
Qed.

Lemma wp_parent h z d c n x f Q : ok h (plug z (mk d c n x f)) -> Q (up z) h -> wp (RB_GETPARENT field x) Q h.
Proof.
  intros Hok HQ. destruct (ok_at _ _ _ _ _ _ _ Hok) as (Hx & _ & _ & H1). destruct Hok as [Ht _].
  eapply wp_GETPARENT; [apply Ht|done|exact H1|by eapply up_pointer|done].
Qed.

Lemma wp_paint h z d c c' n x f (Q : unit -> mem -> Prop) : ok h (plug z (mk d c n x f)) ->
  (forall h', ok h' (plug z (mk d c' n x f)) -> Q tt h') -> wp (RB_SETCOLOR field x (cz c')) Q h.
Proof.
  intros Hok HQ. destruct (ok_at _ _ _ _ _ _ _ Hok) as (Hx & _ & _ & H1). destruct Hok as (Ht & Hin & He).
  eapply wp_SETCOLOR; [apply Ht|done|exact H1|by eapply up_pointer|]. apply HQ.
  assert (Hi : x ∈ l0) by (rewrite <- Hin; apply plug_elem; left; rewrite elem_node; auto).
  assert (Es : inorder (mk d c' n x f) = inorder (mk d c n x f)) by (by destruct d).
  destruct (holds_plug _ _ _ Ht) as [Hp Htr]. rewrite hd_node in Hp.
  pose proof (holds_nodup _ _ Ht) as Hnd. pose proof Hnd as (Nf & Nz & Hdis)%plug_nodup.
  assert (Hxd : x ∉ zl z ++ zr z) by (apply Hdis; rewrite elem_node; auto).
  split; [|split; [by rewrite (plug_same z _ _ Es)|by apply effect_pw; auto]].
  apply (holds_replace h _ z (mk d c n x f)); [done|apply setpw_mapped, Ht| | |by rewrite (plug_same z _ _ Es)|].
  - rewrite hd_node. apply (path_same h); [by apply rt_pw| |done]. intros y Hy. pose proof (z_in_U _ _ _ _ Ht Hy).
    split; [intros e; by apply lk_pw|]. rewrite pw_set, decide_False; [done|]. by intros ->.
  - rewrite tr_node in Htr |- *. destruct Htr as (T1 & T2 & _ & Tn & Tf).
    rewrite node_perm, NoDup_cons, elem_of_app in Nf. rewrite !lk_pw, pw_set, decide_True by done.
    split_and!; try done; (eapply tr_same; [|eassumption]); intros y Hy;
      (assert (HyU : y ∈ U) by (apply (focus_in_U _ _ _ _ Ht); rewrite elem_node; auto));
      (split; [intros e; by apply lk_pw|]); rewrite pw_set, decide_False; try done; intros ->; tauto.
  - intros y. rewrite Es. apply (focus_in_U _ _ _ _ Ht).
Qed.

Lemma wp_rotate h z d c c' n y m x f Q : ok h (plug z (mk d c (mk d c' n y m) x f)) ->
  (forall h', ok h' (plug z (mk d c' n y (mk d c m x f))) -> Q y h') -> wp (ROT d x) Q h.
Proof.
  intros (Ht & Hin & He) HQ. eapply (wp_ROT h z d c c' n m f x y Ht). apply HQ. split; [by apply rot_holds|]. split.
  - rewrite <- Hin. apply plug_same. by rewrite rotate_inorder.
  - apply (rot_effect h z d c c' n m f x y Ht); [|done]. rewrite Hin. done.
Qed.

(** The colour of a subtree: leaves are black. *)
Definition colour_of (t : tree) : colour := match t with Leaf => B | Node c _ _ _ => c end.

Lemma ok_focus_U h z t x : ok h (plug z t) -> x ∈ inorder t -> x ∈ U.
Proof. intros [Ht _]. by apply (focus_in_U _ _ _ _ Ht). Qed.

Lemma wp_is_red h z t Q : ok h (plug z t) -> Q (bool_decide (colour_of t = R)) h -> wp (is_red field (hd t)) Q h.
Proof.
  intros Hok HQ. unfold is_red. rewrite hd_leaf by (intros x; by apply (ok_focus_U h z)).
  destruct t as [|c l x r]; [by apply wp_ret|]. rewrite bool_decide_eq_false_2 by done. simpl negb. cbn iota.
  apply wp_bind, (wp_colour h z false c l x r); [done|]. apply wp_ret. simpl in HQ. by destruct c.
Qed.

(** [black_at] on the link to the focus. *)
Lemma wp_black_at h z t a Q : ok h (plug z t) -> is_Some (h !! a) -> cellat h a = hd t -> Q (bool_decide (colour_of t = B)) h ->
  wp (black_at field a) Q h.
Proof.
  intros Hok Ha Hv HQ. unfold black_at. apply wp_bind, load_word; [done|]. rewrite Hv.
  rewrite hd_leaf by (intros x; by apply (ok_focus_U h z)). destruct t as [|c l x r]; [by apply wp_ret|].
  rewrite bool_decide_eq_false_2 by done. apply wp_bind, load_word; [done|]. rewrite Hv. simpl hd.
  apply wp_bind, (wp_colour h z false c l x r); [done|]. apply wp_ret. simpl in HQ. by destruct c.
Qed.

Lemma ok_cell h t x d : ok h t -> x ∈ U -> is_Some (h !! fld d x).
Proof. intros Hok Hx. by apply (ok_mapped _ _ Hok). Qed.

Lemma wp_black_near h z d c n x f Q : ok h (plug z (mk d c n x f)) -> Q (bool_decide (colour_of n = B)) h -> wp (black_at field (fld d x)) Q h.
Proof.
  intros Hok HQ. destruct (ok_at _ _ _ _ _ _ _ Hok) as (Hx & H1 & _).
  apply (wp_black_at h (F d c x f :: z) n); [done|by eapply ok_cell|done|done].
Qed.

Lemma wp_black_far h z d c n x f Q : ok h (plug z (mk d c n x f)) -> Q (bool_decide (colour_of f = B)) h -> wp (black_at field (fld (negb d) x)) Q h.
Proof.
  intros Hok HQ. destruct (ok_at _ _ _ _ _ _ _ Hok) as (Hx & _ & H1 & _).
  apply (wp_black_at h (F (negb d) c x n :: z) f); [|by eapply ok_cell|done|done]. simpl.
  replace (mk (negb d) c f x n) with (mk d c n x f) by (by destruct d). done.
Qed.

End Kept.

End Memory.

End RBTreeSpec.
