(* ===== verification/RBFixup.v ===== *)
(** * RBFixup: the colours of red-black trees and their repair

    The conditions on the colours that the head of [libkern/tree.h] states, the
    height they imply, and the loops of [RB_INSERT_COLOR] and
    [RB_REMOVE_COLOR], which restore them. *)

From Stdlib Require Import ZArith Lia Bool.
From stdpp Require Import base list option gmap.
From S2P Require Import Prelude Ring RBTree RBTreeSpec.
Import RBTree RBTreeSpec.
Open Scope Z_scope.

Module RBFixup.

(** ** The conditions *)

(** A tree with a root of colour [c] and [n] black nodes on every path: a red
    node has black children, and leaves are black. *)
Inductive isrb : colour -> nat -> tree -> Prop :=
| rb_leaf : isrb B 0 Leaf
| rb_red n l x r : isrb B n l -> isrb B n r -> isrb R n (Node R l x r)
| rb_black n cl cr l x r : isrb cl n l -> isrb cr n r -> isrb B (S n) (Node B l x r).

(** A tree of colour [c] with [n] black nodes on every path fits the focus. *)
Fixpoint fits (z : list frame) (c : colour) (n : nat) : Prop :=
  match z with
  | [] => c = B
  | F _ R _ s :: z => c = B /\ isrb B n s /\ fits z R n
  | F _ B _ s :: z => (exists c', isrb c' n s) /\ fits z B (S n)
  end.

Lemma isrb_red a n d l x r : isrb a n (mk d R l x r) <-> a = R /\ isrb B n l /\ isrb B n r.
Proof.
  split; [|intros (-> & ? & ?); destruct d; by constructor]. destruct d; simpl; inversion 1; subst; auto.
Qed.

Lemma isrb_black a n d l x r :
  isrb a n (mk d B l x r) <-> a = B /\ exists m, n = S m /\ (exists c, isrb c m l) /\ (exists c, isrb c m r).
Proof.
  split; [|intros (-> & m & -> & [? ?] & [? ?]); destruct d; by econstructor].
  destruct d; simpl; inversion 1; subst; split; eauto 10.
Qed.

Lemma isrb_colour c n t : isrb c n t -> colour_of t = c.
Proof. by destruct 1. Qed.

Lemma fits_black z n : fits z R n -> fits z B n.
Proof. destruct z as [|[d [] x s] z]; simpl; [done|by intros (? & _)|done]. Qed.

(** A tree that fits makes the whole a red-black tree, and parts of such a
    tree fit. *)
Lemma rb_plug z : forall c n t, isrb c n t -> fits z c n -> exists m, isrb B m (plug z t).
Proof.
  induction z as [|[d c' x s] z IH]; intros c n t Ht; simpl; [intros ->; eauto|]. destruct c'.
  - intros (-> & Hs & Hz). eapply IH; [|exact Hz]. by rewrite isrb_red.
  - intros ([c' Hs] & Hz). eapply IH; [|exact Hz]. rewrite isrb_black. eauto 10.
Qed.

Lemma rb_unplug z : forall m t, isrb B m (plug z t) -> exists c n, isrb c n t /\ fits z c n.
Proof.
  induction z as [|[d c' x s] z IH]; intros m t Ht; simpl in *; [by eauto|].
  destruct (IH _ _ Ht) as (c & n & H1 & H2). destruct c'.
  - apply isrb_red in H1 as (-> & Ht' & Hs). eauto 10.
  - apply isrb_black in H1 as (-> & k & -> & [c1 Ht'] & Hs). eauto 10.
Qed.

(** ** Height *)

Lemma rb_size c n t : isrb c n t -> (2 ^ n <= S (length (inorder t)))%nat.
Proof.
  induction 1 as [|n l x r _ IHl _ IHr|n cl cr l x r _ IHl _ IHr]; simpl; rewrite ?length_app; simpl; lia.
Qed.

Lemma rb_height c n t : isrb c n t -> (height t <= 2 * n + if decide (c = R) then 1 else 0)%nat.
Proof.
  induction 1 as [|n l x r _ IHl _ IHr|n cl cr l x r _ IHl _ IHr]; simpl in *; [lia..|].
  destruct (decide (cl = R)), (decide (cr = R)); lia.
Qed.

(** The bound at the head of the file: 2lg(n+1). *)
Definition max_height (l : list Z) : nat := 2 * Nat.log2 (S (length l)).

Lemma height_bound m t : isrb B m t -> (height t <= max_height (inorder t))%nat.
Proof.
  intros H. pose proof (rb_height _ _ _ H) as H1. pose proof (rb_size _ _ _ H) as H2. rewrite decide_False in H1 by done.
  unfold max_height. apply Nat.log2_le_pow2 in H2; lia.
Qed.

(** ** Painting the root *)

Definition blacken (t : tree) : tree := match t with Leaf => Leaf | Node _ l x r => Node B l x r end.

Lemma blacken_rb c n t : isrb c n t -> exists m, isrb B m (blacken t).
Proof. destruct 1; simpl; eexists; econstructor; eauto. Qed.

Section Fixup.
Context {P : place} {HL : layout}.
Context (h0 : mem) (K l0 : list Z) (HK : forall x, x ∈ l0 -> x ∈ K).
Abbreviation ok := (ok h0 K l0).

(** ** After an insertion *)

Lemma neq_hd h z d c n x f : ok h (plug z (mk d c n x f)) -> forall y, y ∈ inorder n -> (hd f =? y) = false /\ (hd n =? x) = false.
Proof.
  intros Hok y Hy. destruct Hok as [Ht _]. pose proof (holds_nodup _ _ Ht) as Hnd. apply plug_nodup in Hnd as (Hnd & _).
  rewrite node_perm, NoDup_cons, NoDup_app, elem_of_app in Hnd. destruct Hnd as (Hx & _ & Hd & _).
  assert (HyU : y ∈ U) by (apply (focus_in_U _ _ _ _ Ht); rewrite elem_node; auto).
  split; apply Z.eqb_neq.
  - intros E. destruct (hd_elem f) as [E'|E']; [by apply (U_nonnull y); [|congruence]|]. apply (Hd y Hy). by rewrite <- E.
  - intros E. destruct (hd_elem n) as [E'|E']; [|rewrite E in E'; tauto].
    apply (U_nonnull x); [|congruence]. apply (focus_in_U _ _ _ _ Ht). rewrite elem_node. auto.
Qed.

Definition insert_side (d : bool) (elm parent gparent : Z) : M mem Z :=
  tmp <- load (fld (negb d) gparent) ;;
  red <- is_red field tmp ;;
  if (red : bool) then
    RB_SETCOLOR field tmp RB_BLACK ;;;
    RB_SET_BLACKRED field parent gparent ;;;
    ret gparent
  else
    r <- load (fld (negb d) parent) ;;
    pe <- (if r =? elm then _ <- ROT (negb d) parent ;; ret (elm, parent) else ret (parent, elm)) ;;
    let '(parent, elm) := pe in
    RB_SET_BLACKRED field parent gparent ;;;
    _ <- ROT d gparent ;;
    ret elm.

Lemma insert_sides (d : bool) elm parent gparent :
  (if negb d then insert_color_left field head elm parent gparent else insert_color_right field head elm parent gparent) =
  insert_side d elm parent gparent.
Proof. by destruct d. Qed.

Lemma mk_flip d c n x f : mk (negb d) c f x n = mk d c n x f.
Proof. by destruct d. Qed.

(** The uncle is red: the colours move up. *)
Lemma insert_recolour h z e d X p s u g (Q : Z -> mem -> Prop) : ok h (plug z (mk e B (mk d R X p s) g u)) -> colour_of u = R ->
  (forall h', ok h' (plug z (mk e R (mk d B X p s) g (blacken u))) -> Q g h') ->
  wp (RB_SETCOLOR field (hd u) RB_BLACK ;;; RB_SET_BLACKRED field p g ;;; ret g) Q h.
Proof.
  intros Hok Hu HQ. destruct u as [|cu a v b]; [done|]. simpl hd.
  apply wp_bind, (wp_paint h0 K l0 HK h (F (negb e) B g (mk d R X p s) :: z) false cu B a v b); [simpl; by rewrite mk_flip|].
  intros h1 Hok1. simpl in Hok1. rewrite mk_flip in Hok1. apply wp_bind, wp_bind.
  apply (wp_paint h0 K l0 HK h1 (F e B g (Node B a v b) :: z) d R B X p s); [done|]. intros h2 Hok2. simpl in Hok2.
  apply (wp_paint h0 K l0 HK h2 z e B R _ g _ _ Hok2). intros h3 Hok3. apply wp_ret, HQ. done.
Qed.

(** The uncle is black: the parent goes up, with the two red nodes in line. *)
Lemma insert_rotate h z e Y q w g u (Q : Z -> mem -> Prop) elm : ok h (plug z (mk e B (mk e R Y q w) g u)) ->
  (forall h', ok h' (plug z (mk e B Y q (mk e R w g u))) -> Q elm h') ->
  wp (RB_SET_BLACKRED field q g ;;; _ <- ROT e g ;; ret elm) Q h.
Proof.
  intros Hok HQ. apply wp_bind, wp_bind.
  apply (wp_paint h0 K l0 HK h (F e B g u :: z) e R B Y q w); [done|]. intros h1 Hok1. simpl in Hok1.
  apply (wp_paint h0 K l0 HK h1 z e B R _ g _ _ Hok1). intros h2 Hok2.
  apply wp_bind, (wp_rotate h0 K l0 HK h2 z e R B Y q w g u); [done|]. intros h3 Hok3. by apply wp_ret, HQ.
Qed.

(** A round of the loop: the path gets shorter. *)
Lemma insert_side_run h z e d d' a x b p s u g n (Q : Z -> mem -> Prop) :
  ok h (plug z (mk e B (mk d R (mk d' R a x b) p s) g u)) ->
  isrb B n a -> isrb B n b -> isrb B n s -> (exists c, isrb c n u) -> fits z B (S n) ->
  (forall h' z' d1 a' y b' m, ok h' (plug z' (mk d1 R a' y b')) -> isrb R m (mk d1 R a' y b') -> fits z' B m ->
     (length z' <= S (length z))%nat -> Q y h') ->
  wp (insert_side e x p g) Q h.
Proof.
  intros Hok Ha Hb Hs [cu Hu] Hz HQ. unfold insert_side.
  apply wp_bind, (wp_far h0 K l0 h z e B (mk d R (mk d' R a x b) p s) g u); [done|].
  apply wp_bind, (wp_is_red h0 K l0 h (F (negb e) B g (mk d R (mk d' R a x b) p s) :: z) u); [simpl; by rewrite mk_flip|].
  destruct (bool_decide (colour_of u = R)) eqn:Ecol.
  - apply bool_decide_eq_true in Ecol. pose proof (isrb_colour _ _ _ Hu) as Hc. rewrite Ecol in Hc. subst cu.
    apply (insert_recolour h z e d (mk d' R a x b) p s u g); [done|done|]. intros h' Hok'.
    eapply (HQ h' z e _ g _ (S n) Hok'); [|done|lia]. rewrite isrb_red. split; [done|].
    split; [rewrite isrb_black; split; [done|]; exists n; split_and!; [done|exists R; by rewrite isrb_red|eauto]|].
    destruct u as [|c1 u1 v u2]; [done|]. simpl in Ecol. subst c1. change (Node R u1 v u2) with (mk false R u1 v u2) in Hu.
    rewrite isrb_red in Hu. destruct Hu as (_ & Hu1 & Hu2). by econstructor.
  - apply bool_decide_eq_false in Ecol. assert (Hu' : isrb B n u).
    { pose proof (isrb_colour _ _ _ Hu) as Hc. destruct cu; [congruence|done]. }
    assert (Hfin : forall d1 a' y b' q w h1, ok h1 (plug z (mk e B (mk e R (mk d1 R a' y b') q w) g u)) ->
      isrb R n (mk d1 R a' y b') -> isrb B n w -> wp (RB_SET_BLACKRED field q g ;;; _ <- ROT e g ;; ret y) Q h1).
    { intros d1 a' y b' q w h1 Hok1 HY Hw. apply (insert_rotate h1 z e (mk d1 R a' y b') q w g u); [done|]. intros h' Hok'.
      apply (HQ h' (F e B q (mk e R w g u) :: z) d1 a' y b' n Hok'); [done| |simpl; lia].
      simpl. split; [exists R; by rewrite isrb_red|done]. }
    assert (Hcase : d = e \/ d = negb e) by (destruct d, e; auto). destruct Hcase as [->| ->].
    + apply wp_bind, (wp_far h0 K l0 h (F e B g u :: z) e R (mk d' R a x b) p s); [done|].
      destruct (neq_hd h (F e B g u :: z) e R (mk d' R a x b) p s Hok x) as [-> _]; [rewrite elem_node; auto|].
      apply wp_bind, wp_ret. apply (Hfin d' a x b p s h); [done|by rewrite isrb_red|done].
    + apply wp_bind, (wp_near h0 K l0 h (F e B g u :: z) (negb e) R (mk d' R a x b) p s); [done|]. rewrite hd_node, Z.eqb_refl.
      assert (Hab : exists a' b', mk d' R a x b = mk (negb e) R a' x b' /\ isrb B n a' /\ isrb B n b').
      { destruct (decide (d' = negb e)) as [->|Hd]; [by exists a, b|]. exists b, a. split; [|done]. destruct d', e; done. }
      destruct Hab as (a' & b' & Eab & Ha' & Hb'). rewrite Eab in Hok.
      apply wp_bind, wp_bind, (wp_rotate h0 K l0 HK h (F e B g u :: z) (negb e) R R a' x b' p s); [done|]. intros h1 Hok1.
      apply wp_ret, (Hfin (negb e) b' p s x a' h1); [|by rewrite isrb_red|done].
      simpl in Hok1. by rewrite <- (mk_flip (negb e)), negb_involutive in Hok1.
Qed.

(** The link of the grandparent that the loops look at first. *)
Lemma wp_left_link {A} h z e c n g f (k : Z -> M mem A) Q : ok h (plug z (mk e c n g f)) -> n <> Leaf ->
  (forall l, (hd n =? l) = negb e -> (l =? hd n) = negb e -> wp (k l) Q h) -> wp (l <- load (RB_LEFT field g) ;; k l) Q h.
Proof.
  intros Hok Hn HQ. assert (Hi : hd n ∈ inorder n) by (destruct n; [done|simpl; set_solver]).
  apply wp_bind. change (RB_LEFT field g) with (fld false g). destruct e; simpl in HQ.
  - apply (wp_far h0 K l0 h z true c n g f); [done|]. destruct (neq_hd h z true c n g f Hok _ Hi) as [E _].
    apply HQ; [by rewrite Z.eqb_sym|done].
  - apply (wp_near h0 K l0 h z false c n g f); [done|]. apply HQ; apply Z.eqb_refl.
Qed.

Lemma insert_loop_run : forall fuel h z d a x b n, (length z < fuel)%nat -> ok h (plug z (mk d R a x b)) ->
  isrb R n (mk d R a x b) -> fits z B n ->
  wp (insert_color_loop field fuel head x) (fun _ h' => exists t c m, ok h' t /\ isrb c m t /\ t <> Leaf) h.
Proof.
  induction fuel as [|fuel IH]; intros h z d a x b n Hf Hok Hrb Hz; [lia|]. simpl.
  apply wp_bind, (wp_parent h0 K l0 h z d R a x b); [done|].
  destruct z as [|[d1 c1 p s] z].
  { apply wp_bind, wp_ret. apply wp_ret. exists (mk d R a x b), R, n. split; [done|]. split; [done|]. by destruct d. }
  simpl up. apply wp_bind. replace p with (hd (mk d1 c1 (mk d R a x b) p s)) at 1 by apply hd_node.
  apply (wp_is_red h0 K l0 h z (mk d1 c1 (mk d R a x b) p s)); [done|].
  assert (Ec : colour_of (mk d1 c1 (mk d R a x b) p s) = c1) by (by destruct d1). rewrite Ec.
  destruct c1; simpl in Hz.
  - destruct Hz as (_ & Hs & Hz). apply isrb_red in Hrb as (_ & Ha & Hb).
    destruct z as [|[e [] g u] z]; simpl in Hz; [done|by destruct Hz as [? _]|]. destruct Hz as (Hu & Hz).
    rewrite bool_decide_eq_true_2 by done.
    apply wp_bind, (wp_parent h0 K l0 h (F e B g u :: z) d1 R (mk d R a x b) p s); [done|]. simpl up.
    apply (wp_left_link h z e B (mk d1 R (mk d R a x b) p s) g u); [done|by destruct d1|]. intros l El _. rewrite hd_node in El.
    rewrite El, insert_sides. apply wp_bind, (insert_side_run h z e d1 d a x b p s u g n); [done..|].
    intros h' z' d2 a' y b' m Hok' Hrb' Hz' Hlen. apply (IH h' z' d2 a' y b' m); [simpl in Hf; lia|done..].
  - rewrite bool_decide_eq_false_2 by done. apply wp_ret. destruct Hz as (Hs & Hz).
    destruct (rb_plug (F d1 B p s :: z) R n (mk d R a x b)) as [m Hm]; [done|by split|].
    exists (plug (F d1 B p s :: z) (mk d R a x b)), B, m. split; [done|]. split; [done|]. intros E.
    assert (Hi : x ∈ inorder (plug (F d1 B p s :: z) (mk d R a x b))) by (apply plug_elem; left; rewrite elem_node; auto).
    rewrite E in Hi. by apply not_elem_of_nil in Hi.
Qed.

(** The new red node and its ancestors are repaired. *)
Lemma insert_color_run fuel h z d a x b n : (length z < fuel)%nat -> ok h (plug z (mk d R a x b)) ->
  isrb R n (mk d R a x b) -> fits z B n ->
  wp (RB_INSERT_COLOR field fuel head x) (fun _ h' => exists t m, ok h' t /\ isrb B m t) h.
Proof.
  intros Hf Hok Hrb Hz. unfold RB_INSERT_COLOR. apply wp_bind. eapply wp_mono; [by eapply insert_loop_run|].
  intros _ h1 (t & c & m & Hok1 & Hm & Hne). destruct t as [|ct l y r]; [done|].
  apply wp_bind, wp_rbh_root; [by eapply ok_mapped|]. rewrite (holds_root _ _ (proj1 Hok1)).
  apply (wp_paint h0 K l0 HK h1 [] false ct B l y r); [done|]. intros h2 Hok2. destruct (blacken_rb _ _ _ Hm) as [k Hk]. by exists (Node B l y r), k.
Qed.

(** ** After a removal *)

Definition remove_side (d : bool) (parent : Z) : M mem (option (Z * Z)) :=
  tmp <- load (fld (negb d) parent) ;;
  c <- RB_GETCOLOR field tmp ;;
  tmp <- (if c =? RB_RED then
            RB_SET_BLACKRED field tmp parent ;;;
            _ <- ROT (negb d) parent ;;
            load (fld (negb d) parent)
          else ret tmp) ;;
  bl <- black_at field (RB_LEFT field tmp) ;;
  both <- (if (bl : bool) then black_at field (RB_RIGHT field tmp) else ret false) ;;
  if (both : bool) then
    RB_SETCOLOR field tmp RB_RED ;;;
    let elm := parent in
    parent <- RB_GETPARENT field elm ;;
    ret (Some (elm, parent))
  else
    br <- black_at field (fld (negb d) tmp) ;;
    tmp <- (if (br : bool) then
              o <- load (fld d tmp) ;;
              when (negb (o =? NULL)) (RB_SETCOLOR field o RB_BLACK) ;;;
              RB_SETCOLOR field tmp RB_RED ;;;
              _ <- ROT d tmp ;;
              load (fld (negb d) parent)
            else ret tmp) ;;
    c <- RB_GETCOLOR field parent ;;
    RB_SETCOLOR field tmp c ;;;
    RB_SETCOLOR field parent RB_BLACK ;;;
    r <- load (fld (negb d) tmp) ;;
    when (negb (r =? NULL)) (r <- load (fld (negb d) tmp) ;; RB_SETCOLOR field r RB_BLACK) ;;;
    _ <- ROT (negb d) parent ;;
    ret None.

Lemma remove_sides (d : bool) parent :
  (if negb d then remove_color_left field head parent else remove_color_right field head parent) = remove_side d parent.
Proof. by destruct d. Qed.

(** The last steps: the sibling goes up, its outer child is red. *)
Lemma remove_finish h z d cp t p a y b (Q : option (Z * Z) -> mem -> Prop) : ok h (plug z (mk d cp t p (mk d B a y b))) -> b <> Leaf ->
  (forall h', ok h' (plug z (mk (negb d) cp (blacken b) y (mk d B t p a))) -> Q None h') ->
  wp (c <- RB_GETCOLOR field p ;;
      RB_SETCOLOR field y c ;;;
      RB_SETCOLOR field p RB_BLACK ;;;
      r <- load (fld (negb d) y) ;;
      when (negb (r =? NULL)) (r <- load (fld (negb d) y) ;; RB_SETCOLOR field r RB_BLACK) ;;;
      _ <- ROT (negb d) p ;;
      ret None) Q h.
Proof.
  intros Hok Hb HQ. apply wp_bind, (wp_colour h0 K l0 h z d cp t p (mk d B a y b)); [done|].
  apply wp_bind, (wp_paint h0 K l0 HK h (F (negb d) cp p t :: z) d B cp a y b); [simpl; by rewrite mk_flip|].
  intros h1 Hok1. simpl in Hok1. rewrite mk_flip in Hok1.
  apply wp_bind, (wp_paint h0 K l0 HK h1 z d cp B t p (mk d cp a y b)); [done|]. intros h2 Hok2.
  assert (Hok2' : ok h2 (plug (F (negb d) B p t :: z) (mk d cp a y b))) by (simpl; by rewrite mk_flip).
  apply wp_bind, (wp_far h0 K l0 h2 (F (negb d) B p t :: z) d cp a y b); [done|].
  rewrite hd_leaf; [|intros w Hw; apply (ok_focus_U h0 K l0 h2 (F (negb d) B p t :: z) (mk d cp a y b)); [done|rewrite elem_node; auto]].
  rewrite bool_decide_eq_false_2 by done. simpl negb. destruct b as [|cb b1 v b2]; [done|].
  apply wp_bind, wp_bind, (wp_far h0 K l0 h2 (F (negb d) B p t :: z) d cp a y (Node cb b1 v b2)); [done|]. simpl hd.
  apply (wp_paint h0 K l0 HK h2 (F (negb d) cp y a :: F (negb d) B p t :: z) false cb B b1 v b2); [simpl; by rewrite !mk_flip|].
  intros h3 Hok3. simpl in Hok3.
  apply wp_bind, (wp_rotate h0 K l0 HK h3 z (negb d) B cp (Node B b1 v b2) y a p t); [done|]. intros h4 Hok4.
  apply wp_ret, HQ. simpl. by rewrite <- (mk_flip d B t p a).
Qed.

(** Are both children of the sibling black? *)
Lemma wp_both_black {A} h z d c a y b (k : bool -> M mem A) Q : ok h (plug z (mk d c a y b)) ->
  wp (k (bool_decide (colour_of a = B) && bool_decide (colour_of b = B))) Q h ->
  wp (bl <- black_at field (RB_LEFT field y) ;;
      both <- (if (bl : bool) then black_at field (RB_RIGHT field y) else ret false) ;; k both) Q h.
Proof.
  intros Hok HQ. change (RB_LEFT field y) with (fld false y). change (RB_RIGHT field y) with (fld true y). apply wp_bind.
  destruct d.
  - apply (wp_black_far h0 K l0 h z true c a y b); [done|]. destruct (bool_decide (colour_of b = B)); apply wp_bind.
    + apply (wp_black_near h0 K l0 h z true c a y b); [done|]. by rewrite andb_true_r in HQ.
    + apply wp_ret. by rewrite andb_false_r in HQ.
  - apply (wp_black_near h0 K l0 h z false c a y b); [done|]. destruct (bool_decide (colour_of a = B)); apply wp_bind.
    + by apply (wp_black_far h0 K l0 h z false c a y b).
    + by apply wp_ret.
Qed.

(** The part of a round behind the case of a red sibling. *)
Definition remove_rest (d : bool) (parent tmp : Z) : M mem (option (Z * Z)) :=
  bl <- black_at field (RB_LEFT field tmp) ;;
  both <- (if (bl : bool) then black_at field (RB_RIGHT field tmp) else ret false) ;;
  if (both : bool) then
    RB_SETCOLOR field tmp RB_RED ;;;
    let elm := parent in
    parent <- RB_GETPARENT field elm ;;
    ret (Some (elm, parent))
  else
    br <- black_at field (fld (negb d) tmp) ;;
    tmp <- (if (br : bool) then
              o <- load (fld d tmp) ;;
              when (negb (o =? NULL)) (RB_SETCOLOR field o RB_BLACK) ;;;
              RB_SETCOLOR field tmp RB_RED ;;;
              _ <- ROT d tmp ;;
              load (fld (negb d) parent)
            else ret tmp) ;;
    c <- RB_GETCOLOR field parent ;;
    RB_SETCOLOR field tmp c ;;;
    RB_SETCOLOR field parent RB_BLACK ;;;
    r <- load (fld (negb d) tmp) ;;
    when (negb (r =? NULL)) (r <- load (fld (negb d) tmp) ;; RB_SETCOLOR field r RB_BLACK) ;;;
    _ <- ROT (negb d) parent ;;
    ret None.

(** The tree is right after the last steps. *)
Lemma finish_rb z d cp t p a y b s n : isrb B n t -> (exists c, isrb c n a) -> isrb R n b -> fits (F d cp p s :: z) B (S n) ->
  exists m, isrb B m (plug z (mk (negb d) cp (blacken b) y (mk d B t p a))).
Proof.
  intros Ht Ha Hb Hz.
  assert (H1 : isrb B (S n) (blacken b)) by (inversion Hb; subst; econstructor; eauto).
  assert (H2 : isrb B (S n) (mk d B t p a)) by (rewrite isrb_black; eauto 10).
  destruct cp; simpl in Hz.
  - destruct Hz as (_ & _ & Hz). eapply rb_plug; [|exact Hz]. by rewrite isrb_red.
  - destruct Hz as (_ & Hz). eapply rb_plug; [|exact Hz]. rewrite isrb_black. eauto 10.
Qed.

Lemma remove_rest_run h z d cp t p a y b n (Q : option (Z * Z) -> mem -> Prop) : ok h (plug z (mk d cp t p (mk d B a y b))) ->
  isrb B n t -> (exists c, isrb c n a) -> (exists c, isrb c n b) -> fits (F d cp p (mk d B a y b) :: z) B (S n) ->
  (forall h', isrb B n a -> isrb B n b -> ok h' (plug z (mk d cp t p (mk d R a y b))) -> Q (Some (p, up z)) h') ->
  (forall h' t', ok h' t' -> (exists m, isrb B m t') -> Q None h') ->
  wp (remove_rest d p y) Q h.
Proof.
  intros Hok Ht [ca Ha] [cb Hb] Hz Hsome Hnone. pose proof (isrb_colour _ _ _ Ha) as Eca. pose proof (isrb_colour _ _ _ Hb) as Ecb.
  assert (Hok' : ok h (plug (F (negb d) cp p t :: z) (mk d B a y b))) by (simpl; by rewrite mk_flip).
  unfold remove_rest. apply (wp_both_black h (F (negb d) cp p t :: z) d B a y b); [done|]. rewrite Eca, Ecb.
  destruct (bool_decide (ca = B) && bool_decide (cb = B)) eqn:Eboth.
  { apply andb_prop in Eboth as [->%bool_decide_eq_true ->%bool_decide_eq_true].
    apply wp_bind, (wp_paint h0 K l0 HK h (F (negb d) cp p t :: z) d B R a y b); [done|]. intros h1 Hok1. simpl in Hok1.
    rewrite mk_flip in Hok1. apply wp_bind, (wp_parent h0 K l0 h1 z d cp t p (mk d R a y b)); [done|]. apply wp_ret. by apply Hsome. }
  apply wp_bind, (wp_black_far h0 K l0 h (F (negb d) cp p t :: z) d B a y b); [done|]. rewrite Ecb.
  destruct cb.
  - rewrite bool_decide_eq_false_2 by done. apply wp_bind, wp_ret.
    apply (remove_finish h z d cp t p a y b); [done|by intros ->; inversion Hb|]. intros h' Hok1. apply (Hnone h' _ Hok1).
    by apply (finish_rb z d cp t p a y b (mk d B a y b) n); eauto.
  - rewrite bool_decide_eq_true_2 in * by done. destruct ca; [|done]. clear Eboth.
    destruct (node_cases d a) as [->|(c1 & a1 & v & a2 & ->)]; [done|].
    assert (c1 = R) as -> by (by destruct d). apply isrb_red in Ha as (_ & Ha1 & Ha2).
    apply wp_bind, wp_bind, (wp_near h0 K l0 h (F (negb d) cp p t :: z) d B (mk d R a1 v a2) y b); [done|]. rewrite hd_node.
    assert (Hv : v ∈ U) by (apply (ok_focus_U h0 K l0 h (F (negb d) cp p t :: z) _ v Hok'); rewrite !elem_node; auto).
    replace (v =? NULL) with false by (symmetry; by apply Z.eqb_neq, U_nonnull). simpl negb.
    apply wp_bind, (wp_paint h0 K l0 HK h (F d B y b :: F (negb d) cp p t :: z) d R B a1 v a2); [done|]. intros h1 Hok1. simpl in Hok1.
    apply wp_bind, (wp_paint h0 K l0 HK h1 (F (negb d) cp p t :: z) d B R (mk d B a1 v a2) y b); [done|]. intros h2 Hok2.
    apply wp_bind, (wp_rotate h0 K l0 HK h2 (F (negb d) cp p t :: z) d R B a1 v a2 y b); [done|]. intros h3 Hok3. simpl in Hok3.
    rewrite mk_flip in Hok3. apply (wp_far h0 K l0 h3 z d cp t p (mk d B a1 v (mk d R a2 y b))); [done|]. rewrite hd_node.
    apply (remove_finish h3 z d cp t p a1 v (mk d R a2 y b)); [done|by destruct d|]. intros h' Hok4. apply (Hnone h' _ Hok4).
    apply (finish_rb z d cp t p a1 v (mk d R a2 y b) (mk d B (mk d R a1 v a2) y b) n); eauto. by rewrite isrb_red.
Qed.

(** What the loop carries: the focus lacks one black node, unless its root is
    red and only needs to be painted. *)
Definition lacking (n : nat) (t : tree) : Prop := isrb B n t \/ colour_of t = R /\ isrb B (S n) (blacken t).

Lemma blacken_red d a x b : blacken (mk d R a x b) = mk d B a x b.
Proof. by destruct d. Qed.

(** A round of the loop. *)
Lemma remove_side_run h z d cp t p s n (Q : option (Z * Z) -> mem -> Prop) : ok h (plug z (mk d cp t p s)) ->
  isrb B n t -> fits (F d cp p s :: z) B (S n) ->
  (forall h' z' t' m, ok h' (plug z' t') -> lacking m t' -> fits z' B (S m) -> p = hd t' -> t' <> Leaf ->
     colour_of t' = R \/ (length z' <= length z)%nat -> Q (Some (p, up z')) h') ->
  (forall h' t', ok h' t' -> (exists m, isrb B m t') -> Q None h') ->
  wp (remove_side d p) Q h.
Proof.
  intros Hok Ht Hz Hsome Hnone. assert (Hs : exists cs, isrb cs (S n) s) by (destruct cp; simpl in Hz; [destruct Hz as (_ & ? & _); eauto|tauto]).
  destruct Hs as [cs Hs]. destruct (node_cases d s) as [->|(c1 & a & y & b & ->)]; [inversion Hs|].
  assert (c1 = cs) as -> by (apply isrb_colour in Hs; by destruct d).
  change (remove_side d p) with
    (tmp <- load (fld (negb d) p) ;; c <- RB_GETCOLOR field tmp ;;
     tmp <- (if c =? RB_RED then RB_SET_BLACKRED field tmp p ;;; _ <- ROT (negb d) p ;; load (fld (negb d) p) else ret tmp) ;;
     remove_rest d p tmp).
  apply wp_bind, (wp_far h0 K l0 h z d cp t p (mk d cs a y b)); [done|]. rewrite hd_node.
  apply wp_bind, (wp_colour h0 K l0 h (F (negb d) cp p t :: z) d cs a y b); [simpl; by rewrite mk_flip|]. destruct cs; simpl.
  - destruct cp; simpl in Hz; [destruct Hz as (_ & Hz & _); apply isrb_red in Hs as (_ & Ha & Hb); apply isrb_red in Hz as (? & _); done|].
    destruct Hz as (_ & Hz). apply isrb_red in Hs as (_ & Ha & Hb).
    apply wp_bind, wp_bind, wp_bind, (wp_paint h0 K l0 HK h (F (negb d) B p t :: z) d R B a y b); [simpl; by rewrite mk_flip|].
    intros h1 Hok1. simpl in Hok1. apply (wp_paint h0 K l0 HK h1 z (negb d) B R (mk d B a y b) p t); [done|]. intros h2 Hok2.
    rewrite <- (mk_flip d B a y b) in Hok2.
    apply wp_bind, (wp_rotate h0 K l0 HK h2 z (negb d) R B b y a p t); [done|]. intros h3 Hok3.
    assert (Hok3' : ok h3 (plug (F d B y b :: z) (mk d R t p a))) by (simpl; by rewrite <- (mk_flip d B _ y b), <- (mk_flip d R t p a)).
    apply (wp_far h0 K l0 h3 (F d B y b :: z) d R t p a); [done|].
    destruct (node_cases d a) as [->|(c1 & a1 & v & a2 & ->)]; [inversion Ha|].
    assert (c1 = B) as -> by (apply isrb_colour in Ha; by destruct d). pose proof Ha as (_ & m & [= <-] & H1 & H2)%isrb_black. rewrite hd_node.
    apply (remove_rest_run h3 (F d B y b :: z) d R t p a1 v a2 n); [done|done|done|done| | |done].
    + simpl. eauto 10.
    + intros h' Hb1 Hb2 Hok4. apply (Hsome h' (F d B y b :: z) (mk d R t p (mk d R a1 v a2)) n); [done| | |by rewrite hd_node|by destruct d|].
      * right. split; [by destruct d|]. rewrite blacken_red, isrb_black. split; [done|]. exists n. split_and!; [done|eauto|exists R; by rewrite isrb_red].
      * simpl. eauto.
      * left. by destruct d.
  - apply wp_bind, wp_ret. apply isrb_black in Hs as (_ & m & [= <-] & Ha & Hb).
    apply (remove_rest_run h z d cp t p a y b n); [done|done|done|done|done| |done].
    intros h' Hb1 Hb2 Hok1. assert (Hr : isrb R n (mk d R a y b)) by (by rewrite isrb_red). destruct cp; simpl in Hz.
    + destruct Hz as (_ & _ & Hz).
      apply (Hsome h' z (mk d R t p (mk d R a y b)) n); [done| |by apply fits_black|by rewrite hd_node|by destruct d|by right].
      right. split; [by destruct d|]. rewrite blacken_red, isrb_black. split; [done|]. exists n. eauto 10.
    + destruct Hz as (_ & Hz).
      apply (Hsome h' z (mk d B t p (mk d R a y b)) (S n)); [done| |done|by rewrite hd_node|by destruct d|by right].
      left. rewrite isrb_black. eauto 10.
Qed.

Lemma hd_plug z : forall t, z <> [] -> hd (plug z t) ∈ zl z ++ zr z.
Proof.
  induction z as [|[d c x s] z IH]; intros t Hz; [done|]. rewrite elem_z. simpl. destruct z as [|f z].
  - left. simpl. apply hd_node.
  - right. right. by apply IH.
Qed.

(** The test at the head of the loop. *)
Lemma wp_remove_test {A} h z t (k : bool -> M mem A) Q : ok h (plug z t) ->
  wp (k (bool_decide (colour_of t = B) && bool_decide (z <> []))) Q h ->
  wp (black <- (if hd t =? NULL then ret true else c <- RB_GETCOLOR field (hd t) ;; ret (c =? RB_BLACK)) ;;
      go <- (if (black : bool) then root <- RB_ROOT head ;; ret (negb (hd t =? root)) else ret false) ;; k go) Q h.
Proof.
  intros Hok HQ. pose proof Hok as [Ht _].
  assert (Hroot : (hd t =? hd (plug z t)) = negb (bool_decide (z <> []))).
  { destruct (decide (z = [])) as [->|Hz]; [simpl; apply Z.eqb_refl|]. rewrite bool_decide_eq_true_2 by done. simpl. apply Z.eqb_neq. intros E.
    pose proof (hd_plug z t Hz) as Hi. rewrite <- E in Hi. pose proof (holds_nodup _ _ Ht) as (_ & _ & Hd)%plug_nodup.
    destruct (hd_elem t) as [E'|E']; [|by apply (Hd (hd t))]. apply (U_nonnull (hd t)); [|done]. by apply (z_in_U _ _ _ _ Ht). }
  apply wp_bind. eapply (wp_mono _ (fun b h' => h' = h /\ b = bool_decide (colour_of t = B))).
  - rewrite hd_leaf by (intros x; by apply (ok_focus_U h0 K l0 h z)). destruct t as [|c l x r]; [by apply wp_ret|].
    rewrite bool_decide_eq_false_2 by done. apply wp_bind, (wp_colour h0 K l0 h z false c l x r); [done|]. apply wp_ret. by destruct c.
  - intros b h' [-> ->]. apply wp_bind. destruct (bool_decide (colour_of t = B)); [|by apply wp_ret].
    apply wp_bind, wp_rbh_root; [apply Ht|]. rewrite (holds_root _ _ Ht), Hroot, negb_involutive. by apply wp_ret.
Qed.

Lemma lacking_black n t z : lacking n t -> fits z B (S n) -> colour_of t = R -> exists m, isrb B m (plug z (blacken t)).
Proof.
  intros [H|[_ H]] Hz Hc; [apply isrb_colour in H; congruence|]. by eapply rb_plug.
Qed.

Lemma remove_loop_run : forall fuel h z t n, ok h (plug z t) -> lacking n t -> fits z B (S n) ->
  (0 < fuel)%nat -> colour_of t = R \/ (length z < fuel)%nat ->
  wp (remove_color_loop field fuel head (up z) (hd t))
    (fun e h' => exists z' t', ok h' (plug z' t') /\ e = hd t' /\ exists m, isrb B m (plug z' (blacken t'))) h.
Proof.
  induction fuel as [|fuel IH]; intros h z t n Hok Hl Hz Hpos Hf; [lia|]. simpl.
  apply (wp_remove_test h z t); [done|].
  destruct (colour_of t) eqn:Hc.
  { rewrite bool_decide_eq_false_2 by done. apply wp_ret. exists z, t. split; [done|]. split; [done|]. by eapply lacking_black. }
  rewrite bool_decide_eq_true_2 by done. destruct Hl as [Ht|[? _]]; [|congruence]. destruct Hf as [?|Hf]; [done|].
  destruct z as [|[d cp p s] z].
  { apply wp_ret. exists [], t. split; [done|]. split; [done|]. simpl. by eapply blacken_rb. }
  rewrite bool_decide_eq_true_2 by done. simpl up. simpl andb.
  assert (Hbranch : forall l, (l =? hd t) = negb d ->
    wp (o <- (if l =? hd t then remove_color_left field head p else remove_color_right field head p) ;;
        match o with Some (elm, parent) => remove_color_loop field fuel head parent elm | None => RB_ROOT head end)
      (fun e h' => exists z' t', ok h' (plug z' t') /\ e = hd t' /\ exists m, isrb B m (plug z' (blacken t'))) h).
  { intros l ->. rewrite remove_sides. apply wp_bind, (remove_side_run h z d cp t p s n); [done|done|done| |].
    - intros h' z' t' m Hok' Hl' Hz' -> Hne Hlen. apply (IH h' z' t' m); [done|done|done|simpl in Hf; lia|].
      destruct Hlen as [?|?]; [by left|right; simpl in Hf; lia].
    - intros h' t' Hok' [m Hm]. apply wp_rbh_root; [by eapply ok_mapped|]. rewrite (holds_root _ _ (proj1 Hok')).
      exists [], t'. split; [done|]. split; [done|]. simpl. by eapply blacken_rb. }
  pose proof (ok_at _ _ _ _ _ _ _ _ _ _ Hok) as (Hp & H1 & H2 & _).
  apply wp_bind. apply (wp_lk h false p); [by eapply ok_mapped|done|]. apply Hbranch.
  destruct d; simpl in *; [|rewrite H1; apply Z.eqb_refl]. rewrite H2. apply Z.eqb_neq. intros E.
  destruct Hok as [Hh _]. pose proof (holds_nodup _ _ Hh) as (_ & _ & Hd)%(plug_nodup (F true cp p s :: z)).
  assert (Hs : s <> Leaf) by (intros ->; destruct cp; [destruct Hz as (_ & Hz & _)|destruct Hz as ([? Hz] & _)]; inversion Hz).
  assert (Hi : hd s ∈ zl (F true cp p s :: z) ++ zr (F true cp p s :: z)) by (rewrite elem_z; right; left; destruct s; [done|simpl; set_solver]).
  rewrite E in Hi. destruct (hd_elem t) as [E'|E']; [|by apply (Hd (hd t))].
  apply (U_nonnull (hd t)); [|done]. by apply (z_in_U _ (F true cp p s :: z) t _ Hh).
Qed.

(** The missing black node is repaired. *)
Lemma remove_color_run fuel h z t c n : (length z < fuel)%nat -> ok h (plug z t) -> isrb c n t -> fits z B (S n) ->
  wp (RB_REMOVE_COLOR field fuel head (up z) (hd t)) (fun _ h' => exists t' m, ok h' t' /\ isrb B m t') h.
Proof.
  intros Hf Hok Ht Hz. unfold RB_REMOVE_COLOR. apply wp_bind. eapply wp_mono.
  { apply (remove_loop_run fuel h z t n); [done| |done|lia|by right]. destruct c; [|by left]. right.
    split; [by eapply isrb_colour|]. inversion Ht; subst. by econstructor. }
  intros e h' (z' & t' & Hok' & -> & m & Hm). rewrite hd_leaf by (intros x; by apply (ok_focus_U h0 K l0 h' z')).
  destruct t' as [|c' l y r]; [apply wp_ret; by exists (plug z' Leaf), m|]. rewrite bool_decide_eq_false_2 by done. simpl.
  apply (wp_paint h0 K l0 HK h' z' false c' B l y r); [done|]. intros h2 Hok2. by exists (plug z' (Node B l y r)), m.
Qed.

End Fixup.

End RBFixup.
