(* ===== verification/RBOperations.v ===== *)
(** * RBOperations: the red-black trees of [libkern/tree.h] hold sorted lists

    The operations of [RBTree] against the list of the elements in the order
    of the comparison; every loop ends within the logarithmic height that the
    colours guarantee. *)

From Stdlib Require Import ZArith Lia Bool.
From stdpp Require Import base list option gmap sorting.
From S2P Require Import Prelude Ring SearchList RBTree RBTreeSpec RBFixup.
Import SearchList RBTree RBTreeSpec RBFixup.
Open Scope Z_scope.

Module RBOperations.

(** ** First and last elements *)

Lemma successor_app a l1 x l2 : successor a (l1 ++ x :: l2) = successor x l1.
Proof. by destruct l1. Qed.

Lemma predecessor_app a l1 x l2 : predecessor a (l1 ++ x :: l2) = predecessor x l2.
Proof.
  destruct l2 as [|y l2 _] using rev_ind; [apply predecessor_snoc|].
  by rewrite app_comm_cons, app_assoc, !predecessor_snoc.
Qed.

Lemma filter_none (f : Z -> Prop) `{forall x, Decision (f x)} l : (forall x, x ∈ l -> ~ f x) -> filter f l = [].
Proof.
  induction l as [|x l IH]; intros Hf; [done|]. rewrite filter_cons_False; [apply IH; intros y Hy|]; apply Hf; set_solver.
Qed.

(** The end of a list in the direction [d]. *)
Definition edge (d : bool) (a : Z) (l : list Z) : Z := if d then predecessor a l else successor a l.

(** The elements of a tree in the direction [d] of its root, and of the path. *)
Definition beside (d : bool) (z : list frame) : list Z := if d then zr z else zl z.

(** The first element whose key is not below the one of [elm]. *)
Definition lower_bound (key : Z -> Z) (elm : Z) (res : Z) (l : list Z) : Z :=
  successor res (filter (fun y => key elm <= key y) l).

Section Ops.
Context {P : place} {HL : layout}.
Context (cmp : Z -> Z -> M mem Z) (D : mem -> Prop) (key : Z -> Z) {HO : Orders U outside cmp D key}.

(** The tree holds the elements [l]. *)
Definition has (h : mem) (l : list Z) : Prop := exists t m, holds h t /\ D h /\ isrb B m t /\ inorder t = l /\ sorted key l.

Lemma has_elem h l x : has h l -> x ∈ l -> x ∈ U.
Proof. intros (t & m & Ht & _ & _ & <- & _). apply Ht. Qed.

Lemma holds_ok h t : holds h t -> ok h (inorder t) (inorder t) h t.
Proof. intros Ht. split; [done|]. split; [done|]. apply no_effect, Ht. Qed.

Lemma wp_parent_here h z d c n x f Q : holds h (plug z (mk d c n x f)) -> Q (up z) h -> wp (RB_GETPARENT field x) Q h.
Proof. intros Ht HQ. by eapply wp_parent; [apply holds_ok|]. Qed.

(** ** Searches *)

(** A subtree that a search reads. *)
Definition readable (h : mem) (p : Z) (t : tree) : Prop :=
  mapped h /\ D h /\ tr h p t /\ (forall x, x ∈ inorder t -> x ∈ U) /\ sorted key (inorder t).

Lemma readable_node h p d c n x f : readable h p (mk d c n x f) ->
  x ∈ U /\ lk h d x = hd n /\ lk h (negb d) x = hd f /\ readable h x n /\ readable h x f.
Proof.
  intros (Hm & HD & Ht & HU & Hs). rewrite tr_node in Ht. destruct Ht as (H1 & H2 & _ & Hn & Hf).
  assert (Hsort : sorted key (inorder n) /\ sorted key (inorder f)).
  { destruct d; simpl in Hs; rewrite sorted_app, sorted_cons in Hs; tauto. }
  split; [apply HU; rewrite elem_node; auto|]. split; [done|]. split; [done|].
  split; (split_and!; [done|done|done| |tauto]); intros y Hy; apply HU; rewrite elem_node; auto.
Qed.

Lemma holds_readable h t : holds h t -> D h -> sorted key (inorder t) -> readable h NULL t.
Proof. intros Ht HD Hs. split_and!; try done; apply Ht. Qed.

Lemma readable_null h p t : readable h p t -> (hd t =? NULL) = bool_decide (t = Leaf).
Proof. intros (_ & _ & _ & HU & _). by apply hd_leaf. Qed.

Lemma find_loop_run elm h : elm ∈ U -> forall t p fuel, readable h p t -> (height t < fuel)%nat ->
  wp (find_loop field cmp fuel elm (hd t)) (fun v h' => h' = h /\ found key (inorder t) elm v) h.
Proof.
  intros Helm. induction t as [|c l IHl x r IHr]; intros p [|fuel] Hr Hf; simpl in Hf; try lia.
  { apply wp_ret. split; [done|]. right. split; [done|]. by intros y ?%not_elem_of_nil. }
  pose proof (readable_node h p false c l x r Hr) as (Hx & H1 & H2 & Rl & Rr). simpl in H2. pose proof Hr as (Hm & HD & _ & _ & Hs). simpl in Hs.
  rewrite sorted_app, sorted_cons in Hs. destruct Hs as (S1 & _ & S2 & _).
  simpl. destruct (Z.eqb_spec x NULL) as [E|_]; [by apply U_nonnull in Hx|]. simpl.
  apply wp_bind, wp_cmp; [done..|]. intros v Hv Hz.
  destruct (toward_cases v) as [E0|[d Hd]].
  - replace (v <? 0) with false by lia. replace (0 <? v) with false by lia. apply wp_ret. split; [done|]. left.
    split; [set_solver|]. symmetry. by apply Hz.
  - pose proof (proj1 (Hv d) Hd) as Hp. unfold toward in Hd. unfold past in Hp. destruct d.
    + replace (v <? 0) with false by lia. replace (0 <? v) with true by lia.
      apply wp_bind, (wp_lk h true); [done..|]. rewrite H2. eapply wp_mono; [apply (IHr x fuel); [done|lia]|].
      intros w h' [-> [[Hi Hk]|[-> Hn]]]; (split; [done|]); [left; split; [|done]|right].
      * set_solver.
      * split; [done|]. intros y. rewrite elem_of_app, elem_of_cons. intros [Hy|[->|Hy]]; [|lia|by apply Hn].
        specialize (S1 y x Hy ltac:(set_solver)). lia.
    + replace (v <? 0) with true by lia.
      apply wp_bind, (wp_lk h false); [done..|]. rewrite H1. eapply wp_mono; [apply (IHl x fuel); [done|lia]|].
      intros w h' [-> [[Hi Hk]|[-> Hn]]]; (split; [done|]); [left; split; [|done]|right].
      * set_solver.
      * split; [done|]. intros y. rewrite elem_of_app, elem_of_cons. intros [Hy|[->|Hy]]; [by apply Hn|lia|].
        specialize (S2 y Hy). lia.
Qed.

Lemma nfind_loop_run elm h : elm ∈ U -> forall t p fuel res, readable h p t -> (height t < fuel)%nat ->
  wp (nfind_loop field cmp fuel elm (hd t) res) (fun v h' => h' = h /\ v = lower_bound key elm res (inorder t)) h.
Proof.
  intros Helm. induction t as [|c l IHl x r IHr]; intros p [|fuel] res Hr Hf; simpl in Hf; try lia.
  { by apply wp_ret. }
  pose proof (readable_node h p false c l x r Hr) as (Hx & H1 & H2 & Rl & Rr). simpl in H2. pose proof Hr as (Hm & HD & _ & _ & Hs). simpl in Hs.
  rewrite sorted_app, sorted_cons in Hs. destruct Hs as (S1 & _ & S2 & _).
  assert (Hlow : key x <= key elm -> filter (fun y => key elm <= key y) (inorder l) = []).
  { intros Hle. apply filter_none. intros y Hy. specialize (S1 y x Hy ltac:(set_solver)). lia. }
  unfold lower_bound. simpl inorder. rewrite filter_app, filter_cons. simpl nfind_loop.
  destruct (Z.eqb_spec x NULL) as [E|_]; [by apply U_nonnull in Hx|]. simpl negb. cbn iota.
  apply wp_bind, wp_cmp; [done..|]. intros v Hv Hz. destruct (toward_cases v) as [E0|[d Hd]].
  - replace (v <? 0) with false by lia. replace (0 <? v) with false by lia. apply wp_ret. split; [done|].
    rewrite Hlow, decide_True by lia. done.
  - pose proof (proj1 (Hv d) Hd) as Hp. unfold toward in Hd. unfold past in Hp. destruct d.
    + replace (v <? 0) with false by lia. replace (0 <? v) with true by lia. rewrite Hlow, decide_False by lia. simpl.
      apply wp_bind, (wp_lk h true); [done..|]. rewrite H2. apply (IHr x fuel); [done|lia].
    + replace (v <? 0) with true by lia. rewrite decide_True, successor_app by lia.
      apply wp_bind, (wp_lk h false); [done..|]. rewrite H1. apply (IHl x fuel); [done|lia].
Qed.

Lemma minmax_loop_edge (d : bool) val h : (if d then 0 <= val else val < 0) -> forall t p fuel par, readable h p t -> (height t < fuel)%nat ->
  wp (minmax_loop field fuel val (hd t) par) (fun v h' => h' = h /\ v = edge d par (inorder t)) h.
Proof.
  intros Hval. induction t as [|c l IHl x r IHr]; intros p [|fuel] par Hr Hf; simpl in Hf; try lia.
  { apply wp_ret. by destruct d. }
  pose proof (readable_node h p false c l x r Hr) as (Hx & H1 & H2 & Rl & Rr). simpl in H2. pose proof Hr as (Hm & _).
  simpl minmax_loop. destruct (Z.eqb_spec x NULL) as [E|_]; [by apply U_nonnull in Hx|]. simpl negb. cbn iota. apply wp_bind.
  destruct d; simpl inorder; unfold edge.
  - replace (val <? 0) with false by lia. apply (wp_lk h true); [done..|]. rewrite H2, predecessor_app. apply (IHr x fuel); [done|lia].
  - replace (val <? 0) with true by lia. apply (wp_lk h false); [done..|]. rewrite H1, successor_app. apply (IHl x fuel); [done|lia].
Qed.

(** ** Neighbours *)

Lemma descend_run d h : forall t p fuel, readable h p t -> t <> Leaf -> (height t <= fuel)%nat ->
  wp (descend (fld d) fuel (hd t)) (fun v h' => h' = h /\ v = edge d NULL (inorder t)) h.
Proof.
  induction t as [|c l IHl x r IHr]; intros p [|fuel] Hr Hne Hf; simpl in Hf; try done; try lia.
  assert (E : exists n f, Node c l x r = mk d c n x f) by (destruct d; [by exists r, l|by exists l, r]). destruct E as (n & f & E).
  rewrite E in Hr. pose proof (readable_node h p d c n x f Hr) as (Hx & H1 & _ & Rn & _). pose proof Hr as (Hm & _).
  simpl. apply wp_bind, wp_lk; [done..|]. rewrite H1, (readable_null h x n) by done. case_bool_decide as En.
  - apply wp_ret. split; [done|]. destruct d; simpl in E; injection E as -> ->; subst n; unfold edge; simpl;
      [by rewrite predecessor_snoc|by destruct f].
  - apply wp_bind, wp_lk; [done..|]. rewrite H1. simpl negb.
    assert (Hn : wp (descend (fld d) fuel (hd n)) (fun v h' => h' = h /\ v = edge d NULL (inorder n)) h).
    { destruct d; simpl in E; injection E as -> ->; [apply (IHr x)|apply (IHl x)]; (done || lia). }
    eapply wp_mono; [exact Hn|]. intros v h' [-> ->]. split; [done|].
    destruct n as [|cn a w b]; [done|]. destruct d; simpl in E; injection E as -> ->; unfold edge; simpl inorder.
    + by rewrite !predecessor_app.
    + by rewrite <- app_assoc, <- app_comm_cons, !successor_app.
Qed.

(** Is the focus the child of its parent in the direction [e]? *)
Definition came (e : bool) (z : list frame) : bool := match z with F d _ _ _ :: _ => bool_decide (d = e) | [] => false end.

Lemma wp_is_child h z d c n x f e Q : holds h (plug z (mk d c n x f)) -> Q (came e z) h -> wp (is_child field (fld e) x) Q h.
Proof.
  intros Ht HQ. unfold is_child.
  apply wp_bind, (wp_parent_here h z d c n x f); [done|].
  destruct z as [|[d1 c1 p s] z]; [by apply wp_ret|]. simpl up. simpl came in HQ.
  pose proof (holds_at h z d1 c1 (mk d c n x f) p s Ht) as (Hp & H1 & H2 & _). rewrite hd_node in H1.
  destruct (Z.eqb_spec p NULL) as [E|_]; [by apply U_nonnull in Hp|]. simpl.
  apply wp_bind, (wp_parent_here h (F d1 c1 p s :: z) d c n x f); [done|]. simpl up. apply wp_bind, wp_lk; [apply Ht|done|]. apply wp_ret.
  case_bool_decide as Ed; [by subst e; rewrite H1, Z.eqb_refl|].
  assert (Ee : e = negb d1) by (destruct e, d1; done). subst e. rewrite H2.
  destruct (neq_hd _ _ _ _ z d1 c1 (mk d c n x f) p s (holds_ok _ _ Ht) x) as [E _]; [rewrite elem_node; auto|]. by rewrite Z.eqb_sym, E.
Qed.

(** The path above the last step that went in the direction [d]. *)
Fixpoint climb (d : bool) (z : list frame) : list frame :=
  match z with F e _ _ _ :: z' => if decide (e = d) then climb d z' else z | [] => [] end.

Lemma climb_up d z : up (climb d z) = edge (negb d) NULL (beside d z).
Proof.
  induction z as [|[e c x s] z IH]; [by destruct d|]. simpl climb. destruct (decide (e = d)) as [->|Hne].
  - rewrite IH. by destruct d.
  - destruct d, e; try done; simpl; unfold edge, beside; simpl. by rewrite app_assoc, predecessor_snoc.
Qed.

Lemma ascend_run d h : forall z fuel c n x f, holds h (plug z (mk d c n x f)) -> (length z < fuel)%nat ->
  wp (v <- ascend field (fld d) fuel x ;; RB_GETPARENT field v) (fun v h' => h' = h /\ v = up (climb d z)) h.
Proof.
  induction z as [|[e c1 p s] z IH]; intros [|fuel] c n x f Ht Hf; simpl in Hf; try lia; apply wp_bind; simpl ascend.
  - apply wp_bind, (wp_is_child h [] d c n x f); [done|]. simpl. apply wp_ret.
    apply (wp_parent_here h [] d c n x f); [done|done].
  - apply wp_bind, (wp_is_child h (F e c1 p s :: z) d c n x f); [done|]. simpl came. simpl climb.
    destruct (decide (e = d)) as [->|Hne].
    + rewrite bool_decide_eq_true_2 by done. apply wp_bind, (wp_parent_here h (F d c1 p s :: z) d c n x f); [done|].
      simpl up. specialize (IH fuel c1 (mk d c n x f) p s Ht ltac:(lia)).
      unfold wp, bind in IH |- *. destruct (ascend field (fld d) fuel p h); done.
    + rewrite bool_decide_eq_false_2 by done. apply wp_ret.
      apply (wp_parent_here h (F e c1 p s :: z) d c n x f); [done|done].
Qed.

(** [RB_NEXT] and [RB_PREV]. *)
Definition WALK (d : bool) (fuel : nat) (elm : Z) : M mem Z := if d then RB_NEXT field fuel elm else RB_PREV field fuel elm.

Lemma WALK_eq d fuel elm : WALK d fuel elm =
  (r <- load (fld d elm) ;;
   if negb (r =? NULL) then elm <- load (fld d elm) ;; descend (fld (negb d)) fuel elm
   else
     b <- is_child field (fld (negb d)) elm ;;
     if (b : bool) then RB_GETPARENT field elm
     else elm <- ascend field (fld d) fuel elm ;; RB_GETPARENT field elm).
Proof. by destruct d. Qed.

Lemma walk_run d fuel h z c n x f : holds h (plug z (mk d c n x f)) -> D h -> sorted key (inorder (plug z (mk d c n x f))) ->
  (height (plug z (mk d c n x f)) < fuel)%nat ->
  wp (WALK d fuel x) (fun v h' => h' = h /\
    v = edge (negb d) NULL (if d then inorder n ++ beside d z else beside d z ++ inorder n)) h.
Proof.
  intros Ht HD Hs Hf. pose proof (height_plug z (mk d c n x f)) as Hh. rewrite height_node in Hh.
  destruct (holds_plug _ _ _ Ht) as [_ Htr].
  assert (Hr : readable h (up z) (mk d c n x f)).
  { split_and!; [apply Ht|done|done|intros y; by apply (focus_in_U _ _ _ _ Ht)|]. rewrite inorder_plug, !sorted_app in Hs. tauto. }
  pose proof (readable_node _ _ _ _ _ _ _ Hr) as (Hx & H1 & _ & Rn & _). pose proof Hr as (Hm & _).
  rewrite WALK_eq. apply wp_bind, wp_lk; [done..|]. rewrite H1, (readable_null h x n) by done. case_bool_decide as En; simpl negb; cbn iota.
  - subst n. assert (Eb : (if d then inorder Leaf ++ beside d z else beside d z ++ inorder Leaf) = beside d z)
      by (destruct d; simpl; [done|by rewrite app_nil_r]).
    rewrite Eb. apply wp_bind, (wp_is_child h z d c Leaf x f); [done|].
    destruct (came (negb d) z) eqn:Ec.
    + apply (wp_parent_here h z d c Leaf x f); [done|]. split; [done|]. rewrite <- climb_up.
      destruct z as [|[e c1 p s] z]; [done|]. simpl in Ec. apply bool_decide_eq_true in Ec as ->. simpl. by rewrite decide_False by (by destruct d).
    + rewrite <- climb_up. apply (ascend_run d h z fuel c Leaf x f); [done|lia].
  - apply wp_bind, wp_lk; [done..|]. rewrite H1. eapply wp_mono; [apply (descend_run (negb d) h n x fuel); [done|done|lia]|].
    intros v h' [-> ->]. split; [done|]. destruct n as [|cn a w b]; [done|]. destruct d; unfold edge; simpl.
    + by rewrite <- app_assoc, <- app_comm_cons, !successor_app.
    + by rewrite app_assoc, !predecessor_app.
Qed.

(** ** Insertion *)

(** The last comparison sent the search in the direction of the last step. *)
Definition last_step (z : list frame) (comp : Z) : Prop := match z with F d _ _ _ :: _ => toward d comp | [] => True end.

(** [elm] belongs into the focus. *)
Definition place_of (z : list frame) (elm : Z) : Prop :=
  (forall a, a ∈ zl z -> key a < key elm) /\ (forall b, b ∈ zr z -> key elm < key b).

Lemma place_step d c n x f z elm : sorted key (inorder (plug z (mk d c n x f))) -> place_of z elm -> past d (key elm) (key x) ->
  place_of (F d c x f :: z) elm.
Proof.
  rewrite inorder_plug, !sorted_app. intros (_ & _ & _ & Hs & _) [Hl Hr] Hp. unfold past in Hp. destruct d; simpl in *.
  - rewrite sorted_app, sorted_cons in Hs. destruct Hs as (H1 & _). split; [|done]. intros a. simpl. rewrite !elem_of_app, list_elem_of_singleton.
    intros [Ha|[Ha| ->]]; [by apply Hl| |done]. specialize (H1 a x Ha ltac:(set_solver)). lia.
  - rewrite sorted_app, sorted_cons in Hs. destruct Hs as (_ & _ & H1 & _). split; [done|]. intros b. simpl. rewrite elem_of_cons, elem_of_app.
    intros [->|[Hb|Hb]]; [done| |by apply Hr]. specialize (H1 b Hb). lia.
Qed.

Lemma insert_search_run elm h : elm ∈ U -> D h -> forall t z fuel comp, holds h (plug z t) -> sorted key (inorder (plug z t)) ->
  (height t < fuel)%nat -> place_of z elm -> last_step z comp ->
  wp (insert_search field cmp fuel elm (hd t) (up z) comp) (fun o h' => h' = h /\
    match o with
    | inl v => v ∈ inorder (plug z t) /\ key v = key elm
    | inr (p, c) => exists z', plug z' Leaf = plug z t /\ p = up z' /\ last_step z' c /\ place_of z' elm
    end) h.
Proof.
  intros Helm HD. induction t as [|c l IHl x r IHr]; intros z [|fuel] comp Ht Hs Hf Hp Hl; simpl in Hf; try lia.
  { apply wp_ret. split; [done|]. by exists z. }
  pose proof (holds_at h z false c l x r Ht) as (Hx & H1 & H2 & _). simpl in H2. pose proof (holds_mapped _ _ Ht) as Hm.
  simpl insert_search. destruct (Z.eqb_spec x NULL) as [E|_]; [by apply U_nonnull in Hx|]. simpl negb. cbn iota.
  apply wp_bind, wp_cmp; [done..|]. intros v Hv Hz. destruct (toward_cases v) as [E0|[d Hd]].
  - replace (v <? 0) with false by lia. replace (0 <? v) with false by lia. apply wp_ret. split; [done|].
    split; [apply plug_elem; left; simpl; set_solver|]. symmetry. by apply Hz.
  - pose proof (proj1 (Hv d) Hd) as Hpast. destruct d; unfold toward in Hd.
    + replace (v <? 0) with false by lia. replace (0 <? v) with true by lia.
      apply wp_bind, (wp_lk h true); [done..|]. rewrite H2.
      apply (IHr (F true c x l :: z) fuel v); [done|done|lia|by apply (place_step true c r)|done].
    + replace (v <? 0) with true by lia. apply wp_bind, (wp_lk h false); [done..|]. rewrite H1.
      apply (IHl (F false c x r :: z) fuel v); [done|done|lia|by apply (place_step false c l)|done].
Qed.

(** The memory with a new red element in the focus. *)
Definition filled (h : mem) (z : list frame) (elm : Z) (c0 : colour) : mem :=
  sethole (setpw (setlk (setlk (setpw h elm (word (up z) c0)) true elm NULL) false elm NULL) elm (word (up z) R)) z elm.

Lemma filled_holds h z elm c0 : holds h (plug z Leaf) -> elm ∈ U -> elm ∉ inorder (plug z Leaf) ->
  holds (filled h z elm c0) (plug z (Node R Leaf elm Leaf)) /\ effect h (filled h z elm c0) (elm :: inorder (plug z Leaf)).
Proof.
  intros Ht He Hn. pose proof (holds_nodup _ _ Ht) as Hnd. pose proof Hnd as (_ & Nz & _)%plug_nodup. rewrite plug_elem in Hn.
  assert (Hez : elm ∉ zl z ++ zr z) by tauto. assert (HzU : forall x, x ∈ zl z ++ zr z -> x ∈ U) by (intros x; by apply (z_in_U _ _ _ _ Ht)).
  pose proof (holds_mapped _ _ Ht) as Hm. destruct (holds_plug _ _ _ Ht) as [Hp _].
  set (h1 := setpw (setlk (setlk (setpw h elm (word (up z) c0)) true elm NULL) false elm NULL) elm (word (up z) R)).
  assert (Hm1 : mapped h1) by (unfold h1; auto using setpw_mapped, setlk_mapped).
  assert (Hs1 : forall x, x ∈ U -> x <> elm -> same_words h h1 x).
  { intros x Hx Hne. unfold h1. split; [intros e; rewrite lk_pw, !lk_set, lk_pw, !decide_False by naive_solver; done|].
    by rewrite pw_set, decide_False, !pw_lk, pw_set, decide_False. }
  assert (Hp1 : path h1 z NULL).
  { apply (path_same h); [unfold h1; by rewrite rt_pw, !rt_lk, rt_pw| |done]. intros x Hx. apply Hs1; [auto|]. by intros ->. }
  pose proof (path_hole h1 z NULL elm Nz HzU Hp1) as Hp2.
  destruct (sethole_other h1 z elm elm HzU He) as [W1 W2]. specialize (W2 Hez).
  split.
  - apply (holds_replace h _ z Leaf); [done|by apply sethole_mapped|done| | |].
    + unfold filled. fold h1. simpl. rewrite !W2, W1. unfold h1. rewrite !lk_pw, !lk_set, pw_set by done.
      repeat case_decide; naive_solver.
    + rewrite plug_nodup. simpl. split; [apply NoDup_singleton|]. split; [done|]. by intros y ->%list_elem_of_singleton.
    + by intros x ->%list_elem_of_singleton.
  - assert (He1 : effect h h1 (elm :: inorder (plug z Leaf))).
    { unfold h1. assert (Hi : elm ∈ elm :: inorder (plug z Leaf)) by (by left).
      apply effect_pw; [|done|done]. apply effect_lk; [|done|done]. apply effect_lk; [|done|done]. apply effect_pw; [|done|done]. by apply no_effect. }
    unfold filled. fold h1. destruct z as [|[d c x s] z]; simpl sethole; [by apply effect_rt|].
    apply effect_lk; [done|apply HzU; rewrite elem_z; auto|]. right. apply plug_elem. right. rewrite elem_z. auto.
Qed.

Lemma rb_link_run h z elm comp fuel (Q : Z -> mem -> Prop) : holds h (plug z Leaf) -> elm ∈ U -> last_step z comp ->
  (forall c0, wp (RB_INSERT_COLOR field fuel head elm ;;; ret NULL) Q (filled h z elm c0)) ->
  wp (RB_SET field elm (up z) ;;;
      (if negb (up z =? NULL) then
         (if comp <? 0 then store (RB_LEFT field (up z)) elm else store (RB_RIGHT field (up z)) elm) ;;;
         RB_AUGMENT (up z)
       else store (rbh_root head) elm) ;;;
      RB_INSERT_COLOR field fuel head elm ;;;
      ret NULL) Q h.
Proof.
  intros Ht He Hl HQ. destruct (up_pointer _ _ _ Ht) as (Hup & Hnil & HupU). pose proof (holds_mapped _ _ Ht) as Hm.
  apply wp_bind. unfold RB_SET. apply wp_bind, wp_SETPARENT; [done..|]. intros c0 _.
  apply wp_bind, (wp_setlk _ true); [auto using setpw_mapped|done|].
  apply wp_bind, (wp_setlk _ false); [auto using setpw_mapped, setlk_mapped|done|].
  apply (wp_SETCOLOR _ elm (up z) c0 R); [auto using setpw_mapped, setlk_mapped|done| |done|].
  { by rewrite !pw_lk, pw_set, decide_True. }
  apply wp_bind. apply (wp_mono _ (fun _ h' => h' = filled h z elm c0)); [|intros _ h' ->; apply (HQ c0)]. unfold filled.
  destruct z as [|[d c x s] z]; simpl up in *; [apply wp_setrt; [auto using setpw_mapped, setlk_mapped|done]|].
  assert (Hx : x ∈ U) by (by apply HupU). destruct (Z.eqb_spec x NULL) as [E|_]; [by apply U_nonnull in Hx|]. simpl.
  simpl in Hl. unfold toward in Hl. apply wp_bind. destruct d.
  - replace (comp <? 0) with false by lia. apply (wp_setlk _ true); [auto using setpw_mapped, setlk_mapped|done|]. by apply wp_ret.
  - replace (comp <? 0) with true by lia. apply (wp_setlk _ false); [auto using setpw_mapped, setlk_mapped|done|]. by apply wp_ret.
Qed.

Lemma rb_insert_spec fuel h l elm : has h l -> elm ∈ U -> elm ∉ l -> (max_height l < fuel)%nat ->
  wp (RB_INSERT field cmp fuel head elm) (fun v h' => effect h h' (elm :: l) /\ inserted key l elm v (has h')) h.
Proof.
  intros (t & m & Ht & HD & Hrb & <- & Hs) Helm Hn Hf. pose proof (height_bound m t Hrb) as Hh.
  unfold RB_INSERT, RB_ROOT. apply wp_bind, wp_rbh_root; [apply Ht|]. rewrite (holds_root _ _ Ht). apply wp_bind.
  eapply wp_mono.
  { apply (insert_search_run elm h Helm HD t [] fuel 0); [done|done|lia| |done]. split; by intros ? ?%not_elem_of_nil. }
  intros [v|[p comp]] h' [-> Ho].
  - destruct Ho as [Hi Hk]. apply wp_ret. split; [apply no_effect, Ht|]. left. split_and!; [done|done|]. by exists t, m.
  - destruct Ho as (z & Ez & -> & Hl & Hbelow & Habove). simpl in Ez. subst t. apply (rb_link_run h z elm comp fuel); [done|done|done|]. intros c0.
    destruct (filled_holds h z elm c0 Ht Helm Hn) as [Ht1 He1].
    destruct (rb_unplug z m Leaf Hrb) as (c & n & Hc & Hz). inversion Hc; subst c n.
    pose proof (height_plug z Leaf) as Hlen. simpl in Hlen.
    assert (Ein : inorder (plug z (Node R Leaf elm Leaf)) = zl z ++ elm :: zr z) by (by rewrite inorder_plug).
    assert (El : inorder (plug z Leaf) = zl z ++ zr z) by (by rewrite inorder_plug).
    apply wp_bind. eapply wp_mono.
    { apply (insert_color_run h (elm :: inorder (plug z Leaf)) (zl z ++ elm :: zr z)) with (z := z) (d := false) (a := Leaf) (b := Leaf) (n := 0%nat).
      - rewrite El. intros x. rewrite !elem_of_cons, !elem_of_app, elem_of_cons. tauto.
      - lia.
      - split; [done|]. split; [done|]. done.
      - apply (isrb_red R 0 false). split; [done|]. split; constructor.
      - done. }
    intros _ h2 (t & k & (Ht2 & Hin & He2) & Hk). apply wp_ret. split; [done|]. right. split; [done|].
    rewrite El in *. split.
    + intros y. rewrite elem_of_app. intros [Hy|Hy]; [specialize (Hbelow y Hy)|specialize (Habove y Hy)]; lia.
    + exists (zl z), (zr z). split; [done|]. exists t, k. split_and!; try done; [apply (D_same h); [apply He2|done]|].
      by apply sorted_insert.
Qed.

(** ** Removal *)

Lemma wp_adopt h t p p' (Q : unit -> mem -> Prop) : mapped h -> (forall x, x ∈ inorder t -> x ∈ U) -> pointer p -> pointer p' ->
  tr h p t -> Q tt (setup h t p') ->
  wp (when (negb (hd t =? NULL)) (_ <- RB_SETPARENT field (hd t) p' ;; ret tt)) Q h.
Proof.
  intros Hm HU Hp Hp' Ht HQ. rewrite hd_leaf by done. destruct t as [|c l x r]; [by apply wp_ret|].
  rewrite bool_decide_eq_false_2 by done. simpl negb. destruct Ht as (_ & _ & Hw & _).
  apply wp_bind, (wp_reparent h x p p' c); try done. apply HU. simpl. set_solver.
Qed.

(** The memory with the subtree [t] in the focus. *)
Definition spliced (h : mem) (z : list frame) (t : tree) : mem := sethole (setup h t (up z)) z (hd t).

Section Splice.
Context (h : mem) (z : list frame) (d : bool) (c : colour) (n f : tree) (x : Z) (t : tree) (p : Z)
  (Ht : holds h (plug z (mk d c n x f))) (Htr : tr h p t) (Hp : pointer p) (Hnd : NoDup (inorder t))
  (Hsub : forall y, y ∈ inorder t -> y ∈ inorder (mk d c n x f) /\ y <> x).

Lemma splice_apart : (forall y, y ∈ inorder t -> y ∈ U /\ y ∉ zl z ++ zr z) /\ (forall y, y ∈ zl z ++ zr z -> y ∈ U /\ y <> hd t) /\
  x ∉ zl z ++ zr z /\ NoDup (zl z ++ zr z).
Proof.
  pose proof (holds_nodup _ _ Ht) as (_ & Nz & Hd)%plug_nodup. split_and!; [| |apply Hd; rewrite elem_node; auto|done].
  - intros y Hy. destruct (Hsub y Hy) as [Hi _]. split; [by apply (focus_in_U _ _ _ _ Ht)|by apply Hd].
  - intros y Hy. pose proof (z_in_U _ _ _ _ Ht Hy) as HU. split; [done|]. intros ->. destruct (hd_elem t) as [E|E]; [by apply U_nonnull in HU|].
    destruct (Hsub _ E) as [Hi _]. by apply (Hd (hd t)).
Qed.

Lemma splice_path : path (setup h t (up z)) z x.
Proof.
  destruct splice_apart as (H1 & H2 & _). destruct (holds_plug _ _ _ Ht) as [Hpath _]. rewrite hd_node in Hpath.
  apply (path_same h); [| |done].
  - destruct t as [|ct a w b]; [done|]. simpl. apply rt_pw. apply H1. simpl. set_solver.
  - intros y Hy. destruct (H2 y Hy) as [HU Hne]. destruct (setup_words h t (up z) y) as (W1 & W2 & _); [intros w Hw; by apply H1|done|].
    split; [done|auto].
Qed.

Lemma spliced_words y : y ∈ U -> y ∉ zl z ++ zr z ->
  (forall e, lk (spliced h z t) e y = lk h e y) /\ pw (spliced h z t) y = pw (setup h t (up z)) y.
Proof.
  intros Hy Hn. destruct splice_apart as (H1 & H2 & _).
  destruct (sethole_other (setup h t (up z)) z (hd t) y) as [W1 W2]; [intros w Hw; by apply H2|done|].
  destruct (setup_words h t (up z) y) as (W3 & _); [intros w Hw; by apply H1|done|].
  split; [intros e; unfold spliced; by rewrite W2, W3|done].
Qed.

Lemma spliced_holds : holds (spliced h z t) (plug z t).
Proof.
  destruct splice_apart as (H1 & H2 & _ & Nz). apply (holds_replace h _ z (mk d c n x f)); [done| | | | |].
  - unfold spliced. apply sethole_mapped, setup_mapped, Ht.
  - eapply path_hole; [done|intros y Hy; by apply H2|apply splice_path].
  - apply (setup_tr h _ t p); [done|intros y Hy; by apply H1|done|]. intros y Hy. destruct (H1 y Hy) as [HU Hn]. by apply spliced_words.
  - rewrite plug_nodup. split_and!; [done|done|]. intros y Hy. by apply H1.
  - intros y Hy. by apply H1.
Qed.

Lemma spliced_effect l : (forall y, y ∈ inorder (plug z (mk d c n x f)) -> y ∈ l) -> effect h (spliced h z t) l.
Proof.
  intros Hl. destruct splice_apart as (H1 & H2 & _). assert (Hm : mapped h) by apply Ht.
  assert (He : effect h (setup h t (up z)) l).
  { assert (Hi : forall y, y ∈ inorder t -> y ∈ l) by (intros y Hy; apply Hl, plug_elem; left; by apply Hsub).
    assert (HU : forall y, y ∈ inorder t -> y ∈ U) by (intros y Hy; by apply H1).
    destruct t as [|ct a w b]; [by apply no_effect|]. simpl. apply effect_pw; [by apply no_effect| |]; [apply HU|apply Hi]; simpl; set_solver. }
  assert (Hz : forall y, y ∈ zl z ++ zr z -> y ∈ U /\ y ∈ l) by (intros y Hy; split; [by apply H2|apply Hl, plug_elem; by right]).
  unfold spliced. destruct z as [|[d1 c1 q s] z']; simpl sethole; [by apply effect_rt|].
  destruct (Hz q) as [? ?]; [rewrite elem_z; auto|]. by apply effect_lk.
Qed.

Lemma wp_splice (Q : unit -> mem -> Prop) : Q tt (spliced h z t) -> wp (splice field head (up z) x (hd t)) Q h.
Proof.
  intros HQ. destruct splice_apart as (H1 & H2 & Hx & _). destruct (up_pointer _ _ _ Ht) as (Hup & _ & HupU).
  assert (Hm : mapped h) by apply Ht. assert (HxU : x ∈ U) by (apply (holds_at _ _ _ _ _ _ _ Ht)).
  unfold splice. apply wp_bind, (wp_adopt h t p (up z)); [done|intros y Hy; by apply H1|done|done|done|].
  assert (Hm1 : mapped (setup h t (up z))) by (by apply setup_mapped). pose proof splice_path as Hpath. unfold spliced in HQ.
  destruct (decide (z = [])) as [Ez|Hz].
  { rewrite Ez in *. simpl. by apply wp_setrt. }
  destruct (left_link _ z x Hm1 Hpath HxU Hx Hz) as (d1 & c1 & q & s & z' & Ez & El). specialize (HupU Hz). rewrite Ez in HupU, HQ |- *.
  simpl up in *. destruct (Z.eqb_spec q NULL) as [E|_]; [by apply U_nonnull in HupU|]. simpl negb. cbn iota.
  apply wp_bind, (wp_lk _ false); [by rewrite Ez in Hm1|done|]. rewrite Ez in El. simpl up in El. rewrite Z.eqb_sym, El.
  apply wp_bind. destruct d1; simpl negb; cbn iota.
  - apply (wp_setlk _ true); [by rewrite Ez in Hm1|done|]. by apply wp_ret.
  - apply (wp_setlk _ false); [by rewrite Ez in Hm1|done|]. by apply wp_ret.
Qed.

End Splice.

(** An element with one child at most leaves the tree; its own words stay. *)
Lemma detach h z d c t x : holds h (plug z (mk d c t x Leaf)) ->
  (forall Q : unit -> mem -> Prop, Q tt (spliced h z t) -> wp (splice field head (up z) x (hd t)) Q h) /\
  holds (spliced h z t) (plug z t) /\ effect h (spliced h z t) (inorder (plug z (mk d c t x Leaf))) /\
  pw (spliced h z t) x = word (up z) c /\ x ∉ inorder (plug z t).
Proof.
  intros Ht. pose proof (holds_at h z d c t x Leaf Ht) as (HxU & _ & _ & Hw).
  destruct (holds_plug _ _ _ Ht) as [_ Htr]. rewrite tr_node in Htr. destruct Htr as (_ & _ & _ & Tt & _).
  pose proof (holds_nodup _ _ Ht) as (Hnd & _ & Hz)%plug_nodup. rewrite node_perm, app_nil_r in Hnd. apply NoDup_cons in Hnd as [Hn Nt].
  assert (Hxz : x ∉ zl z ++ zr z) by (apply Hz; rewrite elem_node; auto).
  assert (Hsub : forall y, y ∈ inorder t -> y ∈ inorder (mk d c t x Leaf) /\ y <> x).
  { intros y Hy. split; [rewrite elem_node; auto|]. by intros ->. }
  assert (Hhd : x <> hd t) by (intros ->; destruct (hd_elem t) as [E|E]; [by apply U_nonnull in HxU|done]).
  destruct (spliced_words h z d c t Leaf x t Ht Hsub x HxU Hxz) as [_ W1].
  destruct (setup_words h t (up z) x) as (_ & W2 & _); [intros y Hy; apply (focus_in_U _ _ _ _ Ht), Hsub, Hy|done|].
  split_and!.
  - exact (wp_splice h z d c t Leaf x t x Ht Tt (U_pointer x HxU) Nt Hsub).
  - exact (spliced_holds h z d c t Leaf x t x Ht Tt (U_pointer x HxU) Nt Hsub).
  - by apply (spliced_effect h z d c t Leaf x t x Ht Tt (U_pointer x HxU) Nt Hsub).
  - by rewrite W1, W2.
  - rewrite plug_elem. tauto.
Qed.

(** The colours are repaired if a black node went. *)
Lemma removed_run fuel h0 K l0 h z t d c e c' k (old : Z) : (forall x, x ∈ l0 -> x ∈ K) -> ok h0 K l0 h (plug z t) ->
  isrb c' k (mk d c t e Leaf) -> fits z c' k -> (length z < fuel)%nat ->
  wp (when (cz c =? RB_BLACK) (RB_REMOVE_COLOR field fuel head (up z) (hd t)) ;;; ret old)
    (fun v h' => v = old /\ exists t' m, ok h0 K l0 h' t' /\ isrb B m t') h.
Proof.
  intros HK Hok Hrb Hz Hf. destruct c; simpl.
  - apply isrb_red in Hrb as (-> & Ht & _). apply wp_bind, wp_ret, wp_ret. split; [done|].
    destruct (rb_plug z B k t Ht) as [m Hm]; [by apply fits_black|]. by exists (plug z t), m.
  - apply isrb_black in Hrb as (-> & m & -> & [ct Ht] & _). apply wp_bind.
    eapply wp_mono; [by apply (remove_color_run h0 K l0 HK fuel h z t ct m)|]. intros [] h' H. by apply wp_ret.
Qed.

(** *** An element with two children *)

Lemma zl_app z1 z2 : zl (z1 ++ z2) = zl z2 ++ zl z1.
Proof.
  induction z1 as [|[d c x s] z1 IH]; simpl; [by rewrite app_nil_r|]. rewrite IH. destruct d; [by rewrite <- !app_assoc|done].
Qed.

Lemma leftmost_path h : forall t p fuel, readable h p t -> t <> Leaf -> (height t <= fuel)%nat ->
  wp (remove_leftmost field fuel (hd t)) (fun e h' => h' = h /\ exists z c r, t = plug z (Node c Leaf e r) /\ zl z = []) h.
Proof.
  induction t as [|c l IHl x r _]; intros p [|fuel] Hr Hne Hf; simpl in Hf; try done; try lia.
  pose proof (readable_node h p false c l x r Hr) as (Hx & H1 & _ & Rl & _). pose proof Hr as (Hm & _).
  simpl. apply wp_bind, (wp_lk h false); [done..|]. rewrite H1, (readable_null h x l) by done. case_bool_decide as El; simpl negb; cbn iota.
  - apply wp_ret. split; [done|]. subst l. by exists [], c, r.
  - eapply wp_mono; [apply (IHl x); [done|done|lia]|]. intros e h' [-> (z & c' & r' & -> & Hz)]. split; [done|].
    exists (z ++ [F false c x r]), c', r'. rewrite plug_app, zl_app. by rewrite Hz.
Qed.

Lemma augment_run h : forall z fuel d c n x f, holds h (plug z (mk d c n x f)) -> (length z < fuel)%nat ->
  wp (augment_up field fuel x) (fun _ h' => h' = h) h.
Proof.
  induction z as [|[e c1 q s] z IH]; intros [|fuel] d c n x f Ht Hf; simpl in Hf; try lia; simpl augment_up;
    apply wp_bind, wp_ret, wp_bind; (eapply wp_parent_here; [exact Ht|]); simpl up; [by apply wp_ret|].
  pose proof (holds_at h z e c1 (mk d c n x f) q s Ht) as (Hq & _).
  destruct (Z.eqb_spec q NULL) as [E|_]; [by apply U_nonnull in Hq|]. simpl. apply (IH fuel e c1 (mk d c n x f) q s Ht). lia.
Qed.

(** The memory with [e] in the place of [x]: its words are those of [x], and
    the neighbours of [x] point to it. *)
Definition swapped (h : mem) (z : list frame) (c : colour) (l : tree) (e : Z) (r : tree) : mem :=
  setup (setup (sethole (setpw (setlk (setlk h false e (hd l)) true e (hd r)) e (word (up z) c)) z e) l e) r e.

Section Swap.
Context (h : mem) (z : list frame) (c : colour) (l r : tree) (x e : Z)
  (Ht : holds h (plug z (Node c l x r))) (He : e ∈ U) (Hne : e ∉ inorder (plug z (Node c l x r))).

Lemma swap_apart : e <> x /\ x ∈ U /\ x ∉ zl z ++ zr z /\ e ∉ zl z ++ zr z /\ NoDup (zl z ++ zr z) /\ NoDup (inorder l) /\ NoDup (inorder r) /\
  (forall y, y ∈ inorder l -> y ∈ U /\ y <> x /\ y <> e /\ y ∉ zl z ++ zr z /\ y <> hd r) /\
  (forall y, y ∈ inorder r -> y ∈ U /\ y <> x /\ y <> e /\ y ∉ zl z ++ zr z /\ y <> hd l) /\
  (forall y, y ∈ zl z ++ zr z -> y ∈ U /\ y <> e /\ y <> hd l /\ y <> hd r) /\
  (e <> hd l /\ e <> hd r /\ x <> hd l /\ x <> hd r).
Proof.
  pose proof (holds_nodup _ _ Ht) as (Hnd & Nz & Hd)%plug_nodup. rewrite plug_elem in Hne. simpl in Hnd, Hne, Hd.
  apply NoDup_app in Hnd as (Nl & Hlr & Hnd). apply NoDup_cons in Hnd as [Hxr Nr]. rewrite elem_of_app, elem_of_cons in Hne.
  assert (Hin : forall y, y ∈ inorder l \/ y = x \/ y ∈ inorder r -> y ∈ inorder l ++ x :: inorder r)
    by (intros y; rewrite elem_of_app, elem_of_cons; tauto).
  assert (HU : forall y, y ∈ inorder l \/ y = x \/ y ∈ inorder r -> y ∈ U /\ y ∉ zl z ++ zr z).
  { intros y Hy%Hin. split; [by apply (focus_in_U _ _ _ _ Ht)|by apply Hd]. }
  assert (Hnl : forall y t, y ∈ U -> y ∉ inorder t -> y <> hd t).
  { intros y t Hy Hn ->. destruct (hd_elem t) as [E|E]; [by apply U_nonnull in Hy|done]. }
  assert (Hxl : x ∉ inorder l) by (intros Hi; apply (Hlr x Hi); by left).
  assert (Hlr' : forall y, y ∈ inorder l -> y ∉ inorder r) by (intros y Hy Hi; apply (Hlr y Hy); by right).
  destruct (HU x) as [HxU Hxz]; [auto|].
  split; [intros ->; tauto|]. split; [done|]. split; [done|]. split; [tauto|]. do 3 (split; [done|]). split; [|split; [|split]].
  - intros y Hy. destruct (HU y) as [? ?]; [auto|]. split_and!; [done|by intros ->|by intros ->; tauto|done|by apply Hnl; auto].
  - intros y Hy. destruct (HU y) as [? ?]; [auto|]. split_and!; [done|by intros ->|by intros ->; tauto|done|].
    apply Hnl; [done|]. intros Hi. by apply (Hlr' y).
  - intros y Hy. pose proof (z_in_U _ _ _ _ Ht Hy) as HyU. split_and!; [done|by intros ->; tauto| |];
      (apply Hnl; [done|]); intros Hi; apply (Hd y); auto.
  - split_and!; apply Hnl; auto; tauto.
Qed.

Lemma swap_trees : (forall y, y ∈ inorder l -> y ∈ U) /\ (forall y, y ∈ inorder r -> y ∈ U) /\ (forall y, y ∈ zl z ++ zr z -> y ∈ U).
Proof. destruct swap_apart as (_ & _ & _ & _ & _ & _ & _ & H1 & H2 & H3 & _). split_and!; intros y Hy; [by apply H1|by apply H2|by apply H3]. Qed.

(** The words of the other elements before the children get their parent. *)
Lemma swap_words3 y : y ∈ U -> y <> e -> y ∉ zl z ++ zr z ->
  same_words h (sethole (setpw (setlk (setlk h false e (hd l)) true e (hd r)) e (word (up z) c)) z e) y.
Proof.
  intros Hy Hn Hz. destruct swap_trees as (_ & _ & HzU).
  destruct (sethole_other (setpw (setlk (setlk h false e (hd l)) true e (hd r)) e (word (up z) c)) z e y HzU Hy) as [W1 W2]. specialize (W2 Hz).
  split; [intros d; rewrite W2, lk_pw, !lk_set, !decide_False by naive_solver; done|].
  by rewrite W1, pw_set, decide_False, !pw_lk.
Qed.

Lemma setup_pw h1 h2 t p y : pw h1 y = pw h2 y -> pw (setup h1 t p) y = pw (setup h2 t p) y.
Proof. intros E. destruct t as [|ct a w b]; [done|]. simpl. rewrite !pw_set. by destruct (decide _). Qed.

Lemma swap_words y : y ∈ U -> y <> e -> y ∉ zl z ++ zr z ->
  (forall d, lk (swapped h z c l e r) d y = lk h d y) /\ (y <> hd l -> pw (swapped h z c l e r) y = pw (setup h r e) y) /\
  (y <> hd r -> pw (swapped h z c l e r) y = pw (setup h l e) y).
Proof.
  intros Hy Hn Hz. destruct swap_trees as (HlU & HrU & HzU). pose proof (swap_words3 y Hy Hn Hz) as [W1 W2].
  set (h3 := sethole (setpw (setlk (setlk h false e (hd l)) true e (hd r)) e (word (up z) c)) z e) in *. unfold swapped. fold h3.
  destruct (setup_words h3 l e y HlU Hy) as (A1 & A2 & _). destruct (setup_words (setup h3 l e) r e y HrU Hy) as (B1 & B2 & _).
  split_and!.
  - intros d. by rewrite B1, A1, W1.
  - intros Hd. apply setup_pw. by rewrite A2.
  - intros Hd. rewrite B2 by done. by apply setup_pw.
Qed.

Lemma swap_path2 : path (setpw (setlk (setlk h false e (hd l)) true e (hd r)) e (word (up z) c)) z x.
Proof.
  destruct swap_apart as (_ & _ & _ & _ & _ & _ & _ & _ & _ & H3 & _). destruct (holds_plug _ _ _ Ht) as [Hp _]. simpl in Hp.
  apply (path_same h); [by rewrite rt_pw, !rt_lk| |done]. intros y Hy. destruct (H3 y Hy) as (HU & Hn & _).
  split; [intros d; rewrite lk_pw, !lk_set, !decide_False by naive_solver; done|]. by rewrite pw_set, decide_False, !pw_lk.
Qed.

Lemma swapped_holds : holds (swapped h z c l e r) (plug z (Node c l e r)).
Proof.
  destruct swap_apart as (Hex & HxU & Hxz & Hez & Nz & Nl & Nr & Hl & Hr & Hz & Hel & Her & _). destruct swap_trees as (HlU & HrU & HzU).
  destruct (holds_plug _ _ _ Ht) as [_ (T1 & T2 & _ & Tl & Tr)].
  set (h2 := setpw (setlk (setlk h false e (hd l)) true e (hd r)) e (word (up z) c)).
  set (h3 := sethole h2 z e). assert (E5 : swapped h z c l e r = setup (setup h3 l e) r e) by done.
  destruct (setup_words h3 l e e HlU He) as (A1 & A2 & _). destruct (setup_words (setup h3 l e) r e e HrU He) as (B1 & B2 & _).
  destruct (sethole_other h2 z e e HzU He) as [C1 C2]. specialize (C2 Hez).
  apply (holds_replace h _ z (Node c l x r)); [done| | | | |].
  - rewrite E5. unfold h3, h2. pose proof (holds_mapped _ _ Ht). auto 10 using setup_mapped, sethole_mapped, setpw_mapped, setlk_mapped.
  - simpl hd. eapply path_same; [| |apply (path_hole h2 z x e Nz HzU swap_path2)].
    + rewrite E5. destruct (setup_words (setup h3 l e) r e e HrU He) as (_ & _ & ->). by destruct (setup_words h3 l e e HlU He) as (_ & _ & ->).
    + intros y Hy. destruct (Hz y Hy) as (HyU & _ & Hnl & Hnr). rewrite E5.
      destruct (setup_words h3 l e y HlU HyU) as (D1 & D2 & _). destruct (setup_words (setup h3 l e) r e y HrU HyU) as (F1 & F2 & _).
      split; [intros d; by rewrite F1, D1|by rewrite F2, D2].
  - simpl. rewrite E5, !B1, !A1, B2, A2 by done. unfold h3. rewrite !C2, C1. unfold h2. rewrite !lk_pw, !lk_set, pw_set by done.
    split_and!; [by repeat case_decide; naive_solver..| |].
    + apply (setup_tr h _ l x); [done|done|done|]. intros y Hy. destruct (Hl y Hy) as (HyU & _ & Hye & Hyz & Hyr).
      destruct (swap_words y HyU Hye Hyz) as (W1 & _ & W2). split; [exact W1|exact (W2 Hyr)].
    + apply (setup_tr h _ r x); [done|done|done|]. intros y Hy. destruct (Hr y Hy) as (HyU & _ & Hye & Hyz & Hyl).
      destruct (swap_words y HyU Hye Hyz) as (W1 & W2 & _). split; [exact W1|exact (W2 Hyl)].
  - pose proof (holds_nodup _ _ Ht) as Hnd. rewrite plug_nodup in Hnd |- *. destruct Hnd as (N1 & _ & N2). simpl in *. split_and!; [|done|].
    + apply NoDup_app in N1 as (_ & N3 & N4). apply NoDup_app. split_and!; [done| |].
      * intros y Hy. destruct (Hl y Hy) as (_ & _ & Hye & _). specialize (N3 y Hy). set_solver.
      * apply NoDup_cons. split; [|done]. intros Hi. by destruct (Hr e Hi) as (_ & _ & ? & _).
    + intros y. rewrite elem_of_app, elem_of_cons. intros [Hy|[->|Hy]]; [by apply Hl|done|by apply Hr].
  - intros y. simpl. rewrite elem_of_app, elem_of_cons. intros [Hy|[->|Hy]]; auto.
Qed.

Lemma swapped_effect h0 L : effect h0 h L -> (forall y, y ∈ inorder (plug z (Node c l x r)) -> y ∈ L) -> e ∈ L -> effect h0 (swapped h z c l e r) L.
Proof.
  intros Hef HLi HeL. destruct swap_trees as (HlU & HrU & HzU).
  assert (Hll : forall y, y ∈ inorder l -> y ∈ L) by (intros y Hy; apply HLi, plug_elem; left; simpl; set_solver).
  assert (Hrl : forall y, y ∈ inorder r -> y ∈ L) by (intros y Hy; apply HLi, plug_elem; left; simpl; set_solver).
  assert (Hzl : forall y, y ∈ zl z ++ zr z -> y ∈ L) by (intros y Hy; apply HLi, plug_elem; by right).
  assert (Hset : forall h1 t, effect h0 h1 L -> (forall y, y ∈ inorder t -> y ∈ U) -> (forall y, y ∈ inorder t -> y ∈ L) -> effect h0 (setup h1 t e) L).
  { intros h1 t H1 H2 H3. destruct t as [|ct a w b]; [done|]. simpl. apply effect_pw; [done|apply H2|apply H3]; simpl; set_solver. }
  unfold swapped. apply Hset; [|done|done]. apply Hset; [|done|done].
  assert (H2 : effect h0 (setpw (setlk (setlk h false e (hd l)) true e (hd r)) e (word (up z) c)) L) by (repeat first [apply effect_pw|apply effect_lk]; done).
  destruct z as [|[d1 c1 q s] z']; simpl sethole; [by apply effect_rt|].
  apply effect_lk; [done|apply HzU; rewrite elem_z; auto|apply Hzl; rewrite elem_z; auto].
Qed.

End Swap.

Lemma wp_reattach {A} h z c x e (k : M mem A) Q : mapped h -> path h z x -> pw h x = word (up z) c -> pointer (up z) ->
  x ∈ U -> x ∉ zl z ++ zr z -> (forall y, y ∈ zl z ++ zr z -> y ∈ U) -> wp k Q (sethole h z e) ->
  wp (p <- RB_GETPARENT field x ;;
      (if negb (p =? NULL) then
         p <- RB_GETPARENT field x ;;
         l <- load (RB_LEFT field p) ;;
         (if l =? x then p <- RB_GETPARENT field x ;; store (RB_LEFT field p) e
          else p <- RB_GETPARENT field x ;; store (RB_RIGHT field p) e) ;;;
         p <- RB_GETPARENT field x ;;
         RB_AUGMENT p
       else store (rbh_root head) e) ;;; k) Q h.
Proof.
  intros Hm Hp Hw Hup Hx Hn HU HQ. apply wp_bind, (wp_GETPARENT h x (up z) c); [done..|]. apply wp_bind.
  destruct (decide (z = [])) as [->|Hz]; [by apply wp_setrt|].
  destruct (left_link h z x) as (d & c1 & q & s & z' & -> & El); [done..|]. simpl up in *.
  assert (Hq : q ∈ U) by (apply HU; rewrite elem_z; auto).
  destruct (Z.eqb_spec q NULL) as [E|_]; [by apply U_nonnull in Hq|]. simpl negb. cbn iota.
  apply wp_bind, (wp_GETPARENT h x q c); [done..|]. apply wp_bind, (wp_lk h false); [done..|]. rewrite Z.eqb_sym, El.
  destruct (sethole_other h (F d c1 q s :: z') e x HU Hx) as [W _].
  assert (Hm' : mapped (sethole h (F d c1 q s :: z') e)) by (by apply sethole_mapped).
  apply wp_bind. apply (wp_mono _ (fun _ h' => h' = sethole h (F d c1 q s :: z') e)).
  - destruct d; simpl negb; cbn iota; (apply wp_bind, (wp_GETPARENT h x q c); [done..|]); [by apply (wp_setlk h true)|by apply (wp_setlk h false)].
  - intros [] h' ->. apply wp_bind, (wp_GETPARENT _ x q c); [done|done|by rewrite W|done|]. by apply wp_ret.
Qed.

Lemma root_elem c l x r : x ∈ inorder (Node c l x r).
Proof. simpl. set_solver. Qed.

(** The next element takes the place of [x]. *)
Lemma rb_swap_run {A} h z c l r x e (k : M mem A) Q : holds h (plug z (Node c l x r)) -> e ∈ U -> e ∉ inorder (plug z (Node c l x r)) ->
  l <> Leaf -> wp k Q (swapped h z c l e r) ->
  wp (copy_field field e x ;;;
      p <- RB_GETPARENT field x ;;
      (if negb (p =? NULL) then
         p <- RB_GETPARENT field x ;;
         l <- load (RB_LEFT field p) ;;
         (if l =? x then p <- RB_GETPARENT field x ;; store (RB_LEFT field p) e
          else p <- RB_GETPARENT field x ;; store (RB_RIGHT field p) e) ;;;
         p <- RB_GETPARENT field x ;;
         RB_AUGMENT p
       else store (rbh_root head) e) ;;;
      l <- load (RB_LEFT field x) ;;
      _ <- RB_SETPARENT field l e ;;
      r <- load (RB_RIGHT field x) ;;
      when (negb (r =? NULL)) (r <- load (RB_RIGHT field x) ;; _ <- RB_SETPARENT field r e ;; ret tt) ;;; k) Q h.
Proof.
  intros Ht He Hne Hl HQ. pose proof (holds_mapped _ _ Ht) as Hm. destruct (up_pointer _ _ _ Ht) as (Hup & _).
  destruct (swap_apart h z c l r x e Ht He Hne) as (Hex & HxU & Hxz & Hez & Nz & Nl & Nr & Al & Ar & Az & Hel & Her & Hxl & Hxr).
  destruct (swap_trees h z c l r x e Ht He Hne) as (HlU & HrU & HzU).
  destruct (holds_plug _ _ _ Ht) as [_ (T1 & T2 & T3 & Tl & Tr)].
  pose proof (swap_path2 h z c l r x e Ht He Hne) as Hp2. pose proof (fun y => swap_words3 h z c l r x e Ht He Hne y) as W3.
  apply wp_bind. unfold copy_field. apply wp_bind, (wp_lk h false); [done..|]. rewrite T1.
  apply wp_bind, (wp_lk h true); [done..|]. rewrite T2. apply wp_bind, wp_pw; [done..|]. rewrite T3.
  apply wp_bind, (wp_setlk h false); [done..|]. apply wp_bind, (wp_setlk _ true); [by apply setlk_mapped|done|].
  apply wp_setpw; [by apply setlk_mapped, setlk_mapped|done|].
  set (h2 := setpw (setlk (setlk h false e (hd l)) true e (hd r)) e (word (up z) c)) in *.
  assert (Hm2 : mapped h2) by (by apply setpw_mapped, setlk_mapped, setlk_mapped).
  set (h3 := sethole h2 z e) in *. assert (Hm3 : mapped h3) by (by apply sethole_mapped).
  apply (wp_reattach h2 z c x e); [done|done|unfold h2; by rewrite pw_set, decide_False, !pw_lk|done|done|done|done|]. fold h3.
  destruct (W3 x HxU (not_eq_sym Hex) Hxz) as [Wx _]. apply wp_bind, (wp_lk h3 false); [done..|]. rewrite Wx, T1.
  destruct l as [|cl la y lb]; [done|]. set (l := Node cl la y lb) in *. simpl hd. destruct Tl as (_ & _ & Tly & _).
  destruct (Al y) as (HyU & _ & Hye & Hyz & _); [apply root_elem|]. destruct (W3 y HyU Hye Hyz) as [_ Wy].
  apply wp_bind, (wp_reparent h3 y x e cl); [done|done|by apply U_pointer|by apply U_pointer|by rewrite Wy|].
  change (setpw h3 y (word e cl)) with (setup h3 l e). assert (Hm4 : mapped (setup h3 l e)) by (by apply setup_mapped).
  destruct (setup_words h3 l e x HlU HxU) as (Lx & _). apply wp_bind, (wp_lk _ true); [done..|]. rewrite Lx, Wx, T2.
  apply wp_bind, (wp_setup _ r x e); [done|done|by apply U_pointer|by apply U_pointer| |exact (proj1 (proj2 Hm4 x HxU) true)| |].
  - apply (tr_same h); [|done]. intros w Hw. destruct (Ar w Hw) as (HwU & _ & Hwe & Hwz & Hwl).
    destruct (W3 w HwU Hwe Hwz) as [Wl Wp]. destruct (setup_words h3 l e w HlU HwU) as (A1 & A2 & _).
    split; [intros d; by rewrite A1, Wl|by rewrite A2, Wp].
  - change (lk (setup h3 l e) true x = hd r). by rewrite Lx, Wx, T2.
  - exact HQ.
Qed.

(** What fits below a path that goes by [x] fits if it goes by [e]. *)
Lemma fits_relabel zs d c x e l z : forall a n, fits (zs ++ F d c x l :: z) a n -> fits (zs ++ F d c e l :: z) a n.
Proof.
  induction zs as [|[d1 [] q s] zs IH]; intros a n; simpl; [done|intros (? & ? & ?)|intros (? & ?)]; auto.
Qed.

Lemma remove_two_run fuel h z c l x r (Q : Z * Z * Z -> mem -> Prop) : holds h (plug z (Node c l x r)) -> D h ->
  sorted key (inorder (plug z (Node c l x r))) -> l <> Leaf -> r <> Leaf -> (height (plug z (Node c l x r)) < fuel)%nat ->
  (forall h' zs ce e re, r = plug zs (Node ce Leaf e re) -> zl zs = [] -> holds h' (plug (zs ++ F true c e l :: z) re) ->
    effect h h' (inorder (plug z (Node c l x r))) -> Q (hd re, up (zs ++ F true c e l :: z), cz ce) h') ->
  wp (remove_two field fuel head x) Q h.
Proof.
  intros Ht HD Hs Hl Hr Hf HQ. pose proof (height_plug z (Node c l x r)) as Hh. simpl in Hh. pose proof (holds_mapped _ _ Ht) as Hm.
  pose proof (holds_at h z true c r x l Ht) as (HxU & H1 & _). destruct (holds_plug _ _ _ Ht) as [_ Htr].
  assert (Rr : readable h x r).
  { apply (readable_node h (up z) true c r x l). split_and!; [done|done|done|intros y; by apply (focus_in_U _ _ _ _ Ht)|].
    rewrite inorder_plug, !sorted_app in Hs. apply Hs. }
  unfold remove_two. apply wp_bind, (wp_lk h true); [done..|]. rewrite H1. apply wp_bind.
  eapply wp_mono; [apply (leftmost_path h r x fuel); [done|done|lia]|]. intros e h' [-> (zs & ce & re & Er & Hzs)].
  set (Zp := zs ++ F true c x l :: z). assert (ET : plug z (Node c l x r) = plug Zp (mk true ce re e Leaf)).
  { unfold Zp. rewrite plug_app, Er. done. }
  assert (HtZ : holds h (plug Zp (mk true ce re e Leaf))) by (by rewrite <- ET).
  pose proof (holds_at h Zp true ce re e Leaf HtZ) as (HeU & E1 & _ & E3). destruct (up_pointer _ _ _ HtZ) as (Hup & _).
  destruct (detach h Zp true ce re e HtZ) as (Hrun & Ht1 & He1 & Hw1 & Hen). rewrite <- ET in He1.
  apply wp_bind, (wp_lk h true); [done..|]. rewrite E1. apply wp_bind, (wp_GETPARENT h e (up Zp) ce); [done..|].
  apply wp_bind, (wp_GETCOLOR h e (up Zp) ce); [done..|]. apply wp_bind, Hrun.
  apply wp_bind, (wp_GETPARENT _ e (up Zp) ce); [apply Ht1|done..|].
  set (h1 := spliced h Zp re) in *. set (r' := plug zs re).
  assert (Er' : plug Zp re = plug z (Node c l x r')) by (unfold Zp; by rewrite plug_app).
  rewrite Er' in Ht1, Hen.
  assert (Epar : (if up Zp =? x then e else up Zp) = up (zs ++ F true c e l :: z)).
  { unfold Zp. destruct zs as [|[d1 c1 q s] zs]; [simpl; by rewrite Z.eqb_refl|]. simpl. destruct (Z.eqb_spec q x) as [->|]; [|done].
    exfalso. pose proof (holds_nodup _ _ Ht) as (Hn & _)%plug_nodup. simpl in Hn. apply NoDup_app in Hn as (_ & _ & Hn).
    apply NoDup_cons in Hn as [Hn _]. apply Hn. rewrite Er. apply plug_elem. right. rewrite elem_z. auto. }
  rewrite Epar. apply (rb_swap_run h1 z c l r' x e); [done|done|done|done|].
  pose proof (swapped_holds h1 z c l r' x e Ht1 HeU Hen) as Ht2.
  assert (He2 : effect h (swapped h1 z c l e r') (inorder (plug z (Node c l x r)))).
  { apply (swapped_effect h1 z c l r' x e Ht1 HeU Hen); [done| |rewrite ET; apply plug_elem; left; rewrite elem_node; auto].
    intros y. rewrite !plug_elem. simpl. rewrite !elem_of_app, !elem_of_cons. intros [[Hy|[Hy|Hy]]|Hy]; try tauto.
    left. right. right. rewrite Er. unfold r' in Hy. rewrite plug_elem in Hy |- *. simpl. rewrite elem_of_cons. tauto. }
  assert (Ht2' : holds (swapped h1 z c l e r') (plug (zs ++ F true c e l :: z) re)) by (rewrite plug_app; done).
  pose proof (height_plug Zp (mk true ce re e Leaf)) as HhZ. rewrite <- ET, height_node in HhZ.
  assert (Hlen : length Zp = length (zs ++ F true c e l :: z)) by (unfold Zp; rewrite !length_app; done).
  apply wp_bind. apply (wp_mono _ (fun _ h' => h' = swapped h1 z c l e r')).
  - apply wp_when; [intros _|done]. remember (zs ++ F true c e l :: z) as Z' eqn:EZ. destruct Z' as [|[d1 c1 q s] Z']; [by destruct zs|].
    simpl up. apply (augment_run _ Z' fuel d1 c1 re q s); [done|]. simpl in Hlen. lia.
  - intros [] h' ->. apply wp_ret. by apply HQ.
Qed.

(** *** The whole removal *)

(** The colours are repaired and [old] is handed back. *)
Lemma finish_run fuel h L l h' z t d c e k b (old : Z) : (forall y, y ∈ l -> y ∈ L) -> D h -> sorted key l ->
  holds h' (plug z t) -> effect h h' L -> inorder (plug z t) = l -> isrb b k (mk d c t e Leaf) -> fits z b k -> (length z < fuel)%nat ->
  wp (when (cz c =? RB_BLACK) (RB_REMOVE_COLOR field fuel head (up z) (hd t)) ;;; ret old)
    (fun v h' => v = old /\ has h' l /\ effect h h' L) h'.
Proof.
  intros HL' HD Hs Ht He Hin Hb Hz Hlen.
  eapply wp_mono; [by apply (removed_run fuel h L l h' z t d c e b k old)|].
  intros v h2 [-> (t2 & m2 & (Ht2 & Hin2 & He2) & Hm2)]. split; [done|]. split; [|done].
  exists t2, m2. split_and!; try done. apply (D_same h); [apply He2|done].
Qed.

Lemma remove_one_run fuel h z d c t elm m : holds h (plug z (mk d c t elm Leaf)) -> D h -> isrb B m (plug z (mk d c t elm Leaf)) ->
  sorted key (zl z ++ inorder t ++ zr z) -> (length z < fuel)%nat ->
  wp (cpc <- remove_one field head elm (hd t) ;;
      let '(child, parent, color) := cpc in
      when (color =? RB_BLACK) (RB_REMOVE_COLOR field fuel head parent child) ;;; ret elm)
    (fun v h' => v = elm /\ has h' (zl z ++ inorder t ++ zr z) /\ effect h h' (inorder (plug z (mk d c t elm Leaf)))) h.
Proof.
  intros Ht HD Hrb Hs Hlen. pose proof (holds_at h z d c t elm Leaf Ht) as (HeU & _ & _ & Hw). destruct (up_pointer _ _ _ Ht) as (Hup & _).
  destruct (detach h z d c t elm Ht) as (Hrun & Ht1 & He1 & _). unfold remove_one.
  apply wp_bind, wp_bind, (wp_GETPARENT h elm (up z) c); [apply Ht|done..|].
  apply wp_bind, (wp_GETCOLOR h elm (up z) c); [apply Ht|done..|]. apply wp_bind, Hrun, wp_ret.
  destruct (rb_unplug z m _ Hrb) as (b & k & Hb & Hz).
  apply (finish_run fuel h _ _ _ z t d c elm k b elm); [|done|done|done|done| |done|done|done].
  - intros y. rewrite plug_elem, elem_node, !elem_of_app. tauto.
  - by rewrite inorder_plug.
Qed.

Lemma rb_remove_at fuel h z c l elm r m : holds h (plug z (Node c l elm r)) -> D h -> isrb B m (plug z (Node c l elm r)) ->
  sorted key (inorder (plug z (Node c l elm r))) -> (height (plug z (Node c l elm r)) < fuel)%nat ->
  wp (RB_REMOVE field fuel head elm) (fun v h' => v = elm /\ has h' ((zl z ++ inorder l) ++ inorder r ++ zr z) /\
    effect h h' (inorder (plug z (Node c l elm r)))) h.
Proof.
  intros Ht HD Hrb Hs Hf. pose proof (holds_at h z false c l elm r Ht) as (HeU & H1 & H2 & _). simpl in H2.
  assert (Hsort : sorted key ((zl z ++ inorder l) ++ inorder r ++ zr z)).
  { apply (sorted_drop key _ elm). rewrite inorder_plug in Hs. simpl in Hs. by rewrite <- !app_assoc in Hs |- *. }
  assert (HUl : forall y, y ∈ inorder l -> y ∈ U) by (intros y Hy; apply (focus_in_U _ _ _ _ Ht); simpl; set_solver).
  assert (HUr : forall y, y ∈ inorder r -> y ∈ U) by (intros y Hy; apply (focus_in_U _ _ _ _ Ht); simpl; set_solver).
  pose proof (height_plug z (Node c l elm r)) as Hlen. simpl in Hlen.
  unfold RB_REMOVE. apply wp_bind, (wp_lk h false); [apply Ht|done|]. rewrite H1, hd_leaf by done. case_bool_decide as Ell.
  { subst l. rewrite <- app_assoc in Hsort |- *. assert (Hr' := remove_one_run fuel h z true c r elm m Ht HD Hrb Hsort ltac:(lia)).
    apply wp_bind, wp_bind, (wp_lk h true); [apply Ht|done|]. rewrite H2. unfold wp, bind in Hr' |- *.
    destruct (remove_one field head elm (hd r) h); done. }
  apply wp_bind, wp_bind, (wp_lk h true); [apply Ht|done|]. rewrite H2, hd_leaf by done. case_bool_decide as Err.
  { subst r. rewrite <- app_assoc in Hsort |- *. assert (Hl' := remove_one_run fuel h z false c l elm m Ht HD Hrb Hsort ltac:(lia)).
    apply wp_bind, (wp_lk h false); [apply Ht|done|]. rewrite H1. unfold wp, bind in Hl' |- *.
    destruct (remove_one field head elm (hd l) h); done. }
  apply (remove_two_run fuel h z c l elm r); [done|done|done|done|done|lia|]. intros h' zs ce e re Er Hzs Ht' He'.
  assert (ET : plug z (Node c l elm r) = plug (zs ++ F true c elm l :: z) (mk true ce re e Leaf)) by (rewrite plug_app, Er; done).
  pose proof Hrb as Hrb'. rewrite ET in Hrb'. destruct (rb_unplug _ m _ Hrb') as (b & k & Hb & Hz).
  pose proof (height_plug (zs ++ F true c elm l :: z) (mk true ce re e Leaf)) as HhZ. rewrite <- ET, height_node in HhZ.
  apply (finish_run fuel h _ _ h' (zs ++ F true c e l :: z) re true ce e k b elm); [|done|done|done|done| |done|by apply (fits_relabel _ _ _ elm)|].
  - intros y. rewrite plug_elem. simpl. rewrite !elem_of_app, elem_of_cons. tauto.
  - rewrite plug_app, inorder_plug. simpl. rewrite Er, !inorder_plug, Hzs. simpl. by rewrite <- !app_assoc.
  - rewrite length_app in HhZ |- *. simpl in HhZ |- *. lia.
Qed.

Lemma rb_remove_spec fuel h l1 elm l2 : has h (l1 ++ elm :: l2) -> (max_height (l1 ++ elm :: l2) < fuel)%nat ->
  wp (RB_REMOVE field fuel head elm) (fun v h' => v = elm /\ has h' (l1 ++ l2) /\ effect h h' (l1 ++ elm :: l2)) h.
Proof.
  intros (t & m & Ht & HD & Hrb & Hin & Hs) Hf. pose proof (height_bound m t Hrb) as Hh. rewrite Hin in Hh.
  destruct (locate elm t) as (z & c & l & r & ->); [rewrite Hin; set_solver|].
  assert (El : l1 = zl z ++ inorder l /\ l2 = inorder r ++ zr z).
  { apply (nodup_pivot elm); [rewrite <- Hin; apply Ht|]. rewrite <- Hin, inorder_plug. simpl. by rewrite <- !app_assoc. }
  destruct El as [-> ->]. rewrite <- Hin in Hs |- *. apply (rb_remove_at fuel h z c l elm r m); [done|done|done|done|lia].
Qed.

End Ops.

End RBOperations.
