(* ===== verification/RBContract.v ===== *)
(** * RBContract: what the red-black trees of [libkern/tree.h] promise

    The operations of [RBTree] as callers see them: the tree is a sorted list,
    the loops visit its elements in order, and every search, walk or repair
    takes at most twice the binary logarithm of the number of elements. *)

From Stdlib Require Import ZArith Lia Bool.
From stdpp Require Import base list option gmap sorting.
From S2P Require Import Prelude Ring SearchList RBTree RBTreeSpec RBFixup RBOperations.
Import SearchList RBTree RBTreeSpec RBFixup RBOperations.
Open Scope Z_scope.

Module RBContract.

(** The list of a tree when a loop in the direction [d] has left [k] behind
    and has [l] to come, nearest first. *)
Definition join (d : bool) (k l : list Z) : list Z := if d then k ++ l else reverse l ++ k.

Lemma predecessor_reverse a l : predecessor a (reverse l) = successor a l.
Proof. destruct l as [|x l]; [done|]. rewrite reverse_cons. apply predecessor_snoc. Qed.

(** What the head of [tree.h] says of red-black trees: no red node has a red
    child, all paths have the same number of black nodes, and the height is at
    most [2 lg (n + 1)]. *)
Definition balanced {P : place} (h : mem) (l : list Z) : Prop :=
  exists t m, holds h t /\ isrb B m t /\ inorder t = l /\ (height t <= 2 * Nat.log2 (S (length l)))%nat.

Section Contract.
Context {P : place} {HL : layout}.
Context (cmp : Z -> Z -> M mem Z) (D : mem -> Prop) (key : Z -> Z) {HO : Orders U outside cmp D key}.
Abbreviation has := (has D key).

Lemma rb_init_spec h : mapped h -> D h -> wp (RB_INIT head) (fun _ h' => has h' [] /\ effect h h' []) h.
Proof.
  intros Hm HD. apply wp_setrt; [done|]. assert (He : effect h (setrt h NULL) []) by (apply effect_rt; by apply no_effect).
  split; [|done]. exists Leaf, 0%nat. split_and!; [|apply (D_same h); [apply He|done]|constructor|done|constructor].
  split; [apply He|apply rt_set|done|constructor|by intros x ?%not_elem_of_nil].
Qed.

Lemma rb_empty_spec h l : has h l -> wp (RB_EMPTY head) (fun b h' => h' = h /\ (b = true <-> l = [])) h.
Proof.
  intros (t & m & Ht & _ & _ & <- & _). unfold RB_EMPTY, RB_ROOT. apply wp_bind, wp_rbh_root; [apply Ht|]. apply wp_ret. split; [done|].
  rewrite (holds_root _ _ Ht), hd_leaf by apply Ht. rewrite bool_decide_eq_true. destruct t as [|c a x b]; [done|]. simpl.
  split; [done|]. by destruct (inorder a).
Qed.

(** The root of the tree, for a search that starts there. *)
Lemma wp_from_root {A} h l (k : Z -> M mem A) Q : has h l ->
  (forall t, readable D key h NULL t -> inorder t = l -> (height t <= max_height l)%nat -> wp (k (hd t)) Q h) ->
  wp (tmp <- RB_ROOT head ;; k tmp) Q h.
Proof.
  intros (t & m & Ht & HD & Hrb & <- & Hs) Hk. apply wp_bind, wp_rbh_root; [apply Ht|]. rewrite (holds_root _ _ Ht).
  apply Hk; [by apply holds_readable|done|by apply (height_bound m)].
Qed.

Lemma rb_find_spec fuel h l elm : has h l -> elm ∈ U -> (max_height l < fuel)%nat ->
  wp (RB_FIND field cmp fuel head elm) (fun v h' => h' = h /\ found key l elm v) h.
Proof.
  intros Hh He Hf. apply (wp_from_root h l); [done|]. intros t Ht <- Hle. by apply (find_loop_run cmp D key elm h He t NULL); [|lia].
Qed.

Lemma rb_nfind_spec fuel h l elm : has h l -> elm ∈ U -> (max_height l < fuel)%nat ->
  wp (RB_NFIND field cmp fuel head elm) (fun v h' => h' = h /\ v = lower_bound key elm NULL l) h.
Proof.
  intros Hh He Hf. apply (wp_from_root h l); [done|]. intros t Ht <- Hle. by apply (nfind_loop_run cmp D key elm h He t NULL); [|lia].
Qed.

Lemma rb_edge_spec (d : bool) fuel h l : has h l -> (max_height l < fuel)%nat ->
  wp (if d then RB_MAX field fuel head else RB_MIN field fuel head) (fun v h' => h' = h /\ v = edge d NULL l) h.
Proof.
  intros Hh Hf. assert (Hrun : forall val, (if d then 0 <= val else val < 0) ->
    wp (RB_MINMAX field fuel head val) (fun v h' => h' = h /\ v = edge d NULL l) h).
  { intros val Hv. apply (wp_from_root h l); [done|]. intros t Ht <- Hle. by apply (minmax_loop_edge D key d val h Hv t NULL); [|lia]. }
  destruct d; by apply Hrun.
Qed.

Lemma rb_walk_spec d fuel h l1 x l2 : has h (l1 ++ x :: l2) -> (max_height (l1 ++ x :: l2) < fuel)%nat ->
  wp (WALK d fuel x) (fun v h' => h' = h /\ v = edge (negb d) NULL (if d then l2 else l1)) h.
Proof.
  intros (t & m & Ht & HD & Hrb & Hin & Hs) Hf. pose proof (height_bound m t Hrb) as Hh. rewrite Hin in Hh.
  destruct (locate x t) as (z & c & l & r & ->); [rewrite Hin; set_solver|].
  assert (El : l1 = zl z ++ inorder l /\ l2 = inorder r ++ zr z).
  { apply (nodup_pivot x); [rewrite <- Hin; apply Ht|]. rewrite <- Hin, inorder_plug. simpl. by rewrite <- !app_assoc. }
  destruct El as [-> ->]. rewrite <- Hin in Hs.
  destruct d; [apply (walk_run D key true fuel h z c r x l)|apply (walk_run D key false fuel h z c l x r)]; (done || (simpl; lia)).
Qed.

(** A step of a loop that goes in the direction [d]. *)
Lemma rb_step_spec d fuel h k x l : has h (join d k (x :: l)) -> (max_height (join d k (x :: l)) < fuel)%nat ->
  wp (WALK d fuel x) (fun v h' => h' = h /\ v = successor NULL l) h.
Proof.
  unfold join. destruct d; [exact (rb_walk_spec true fuel h k x l)|]. rewrite reverse_cons, <- app_assoc. simpl. intros Hh Hf.
  eapply wp_mono; [exact (rb_walk_spec false fuel h (reverse l) x k Hh Hf)|]. intros v h' [-> ->]. split; [done|]. apply predecessor_reverse.
Qed.

Lemma has_nonnull h l x : has h l -> x ∈ l -> (x =? NULL) = false.
Proof. intros Hh Hx. apply Z.eqb_neq, U_nonnull. by apply (has_elem D key h l). Qed.

(** *** Loops *)

Lemma rb_foreach_loop fuel l (I : list Z -> mem -> Prop) body : (max_height l < fuel)%nat ->
  (forall l1 x l2 h, l = l1 ++ x :: l2 -> has h l -> I l1 h -> wp (body x) (fun _ h' => has h' l /\ I (l1 ++ [x]) h') h) ->
  forall l2 l1 n h, l = l1 ++ l2 -> (length l2 < n)%nat -> has h l -> I l1 h ->
  wp (foreach_loop field n fuel body (successor NULL l2)) (fun _ h' => has h' l /\ I l h') h.
Proof.
  intros Hf Hbody l2. induction l2 as [|x l2 IH]; intros l1 [|n] h Hl Hn Hh HI; simpl in Hn; try lia; simpl.
  - apply wp_ret. split; [done|]. by rewrite Hl, app_nil_r.
  - rewrite (has_nonnull h l) by (rewrite ?Hl; set_solver). simpl. apply wp_bind. eapply wp_mono; [by apply (Hbody l1 x l2)|].
    intros _ h1 [Hh1 HI1]. apply wp_bind. subst l. eapply wp_mono; [by apply (rb_walk_spec true fuel h1 l1 x l2)|].
    intros v h2 [-> ->]. apply (IH (l1 ++ [x])); [by rewrite <- app_assoc|lia|done|done].
Qed.

Lemma rb_foreach_spec n fuel h l (I : list Z -> mem -> Prop) body : has h l -> (max_height l < fuel)%nat -> (length l < n)%nat ->
  (forall l1 x l2 h, l = l1 ++ x :: l2 -> has h l -> I l1 h -> wp (body x) (fun _ h' => has h' l /\ I (l1 ++ [x]) h') h) ->
  I [] h -> wp (RB_FOREACH field n fuel head body) (fun _ h' => has h' l /\ I l h') h.
Proof.
  intros Hh Hf Hn Hb HI. apply wp_bind. eapply wp_mono; [by apply (rb_edge_spec false fuel h l)|]. intros v h' [-> ->].
  by apply (rb_foreach_loop fuel l I body Hf Hb l []).
Qed.

(** The body may change what the loop has left behind, the current element
    included: [k'] is then left behind. *)
Lemma rb_safe_loop d fuel (I : list Z -> list Z -> mem -> Prop) body :
  (forall k x l h, has h (join d k (x :: l)) -> I k (x :: l) h ->
    wp (body x) (fun _ h' => exists k', (max_height (join d k' l) < fuel)%nat /\ has h' (join d k' l) /\ I k' l h') h) ->
  forall l k n h, has h (join d k l) -> (max_height (join d k l) < fuel)%nat -> (length l < n)%nat -> I k l h ->
  wp (safe_loop (WALK d fuel) n body (successor NULL l)) (fun _ h' => exists k', has h' k' /\ I k' [] h') h.
Proof.
  intros Hbody l. induction l as [|x l IH]; intros k [|n] h Hh Hf Hn HI; simpl in Hn; try lia; simpl.
  - apply wp_ret. exists k. split; [|done]. unfold join in Hh. by destruct d; [rewrite app_nil_r in Hh|].
  - rewrite (has_nonnull h _ x Hh) by (destruct d; simpl; [|rewrite reverse_cons]; set_solver). simpl.
    apply wp_bind. eapply wp_mono; [by apply (rb_step_spec d fuel h k x l)|]. intros v h1 [-> ->].
    apply wp_bind. eapply wp_mono; [by apply (Hbody k x l h)|]. intros _ h2 (k' & Hf' & Hh' & HI').
    apply (IH k'); [done|done|lia|done].
Qed.

Lemma rb_safe_spec n fuel h l (I : list Z -> list Z -> mem -> Prop) body :
  (forall k x l h, has h (k ++ x :: l) -> I k (x :: l) h ->
    wp (body x) (fun _ h' => exists k', (max_height (k' ++ l) < fuel)%nat /\ has h' (k' ++ l) /\ I k' l h') h) ->
  has h l -> (max_height l < fuel)%nat -> (length l < n)%nat -> I [] l h ->
  wp (RB_FOREACH_SAFE field n fuel head body) (fun _ h' => exists k', has h' k' /\ I k' [] h') h.
Proof.
  intros Hb Hh Hf Hn HI. apply wp_bind. eapply wp_mono; [by apply (rb_edge_spec false fuel h l)|]. intros v h' [-> ->].
  by apply (rb_safe_loop true fuel I body Hb l []).
Qed.

(** Fewer elements need no more fuel. *)
Lemma max_height_mono l l' : (length l <= length l')%nat -> (max_height l <= max_height l')%nat.
Proof. intros Hl. unfold max_height. apply Nat.mul_le_mono_l, Nat.log2_le_mono. lia. Qed.

(** The loop that removes every element. *)
Definition clear (n fuel : nat) : M mem unit :=
  RB_FOREACH_SAFE field n fuel head (fun x => _ <- RB_REMOVE field fuel head x ;; ret tt).

Lemma clear_run n fuel h l : has h l -> (max_height l < fuel)%nat -> (length l < n)%nat -> wp (clear n fuel) (fun _ h' => has h' []) h.
Proof.
  intros Hh Hf Hn. unfold clear.
  eapply wp_mono; [apply (rb_safe_spec n fuel h l (fun k r _ => k = [] /\ (length r <= length l)%nat)); [|done|done|done|by split]|].
  - intros k x r h1 Hh1 [-> Hr]. simpl in Hh1, Hr. apply wp_bind. pose proof (max_height_mono (x :: r) l Hr).
    pose proof (max_height_mono r l ltac:(lia)). eapply wp_mono; [apply (rb_remove_spec cmp D key fuel h1 [] x r); [done|simpl; lia]|].
    intros v h2 (_ & Hh2 & _). apply wp_ret. exists []. split_and!; [simpl; lia|done|done|lia].
  - intros _ h' (k & Hk & -> & _). done.
Qed.

End Contract.

(** ** The contract of the header *)

(** C39. For every comparison that orders the elements by a key, the red-black
    trees of [libkern/tree.h] hold lists of elements sorted by it, the colours
    keep the height at most [2 lg (n + 1)], and no operation faults or runs
    longer: with fuel above that height, [RB_FIND] gives the element with the
    key of [elm] or the null pointer, [RB_NFIND] the first one whose key is not
    smaller, [RB_MIN] and [RB_MAX] the first and the last, [RB_NEXT] and
    [RB_PREV] the neighbours, none of them changing memory; [RB_INSERT] puts
    the element in its place, or returns the one that has its key and changes
    nothing of the list; [RB_REMOVE] takes out the element it is given and
    returns it; and no cell but the head and the words of the elements
    involved is written. *)
Theorem rb_operations (P : place) cmp D key : layout -> Orders U outside cmp D key ->
  let has := has D key in
  (forall h, mapped h -> D h -> wp (RB_INIT head) (fun _ h' => has h' [] /\ effect h h' []) h) /\
  (forall h l, has h l -> balanced h l /\ sorted key l) /\
  (forall h l fuel, has h l -> (2 * Nat.log2 (S (length l)) < fuel)%nat ->
    wp (RB_EMPTY head) (fun b h' => h' = h /\ (b = true <-> l = [])) h /\
    wp (RB_MIN field fuel head) (fun v h' => h' = h /\ v = successor NULL l) h /\
    wp (RB_MAX field fuel head) (fun v h' => h' = h /\ v = predecessor NULL l) h /\
    (forall l1 elm l2, l = l1 ++ elm :: l2 ->
      wp (RB_NEXT field fuel elm) (fun v h' => h' = h /\ v = successor NULL l2) h /\
      wp (RB_PREV field fuel elm) (fun v h' => h' = h /\ v = predecessor NULL l1) h /\
      wp (RB_REMOVE field fuel head elm) (fun v h' => v = elm /\ has h' (l1 ++ l2) /\ effect h h' l) h) /\
    (forall elm, elm ∈ U ->
      wp (RB_FIND field cmp fuel head elm) (fun v h' => h' = h /\ found key l elm v) h /\
      wp (RB_NFIND field cmp fuel head elm) (fun v h' => h' = h /\ v = successor NULL (filter (fun y => key elm <= key y) l)) h /\
      (elm ∉ l -> wp (RB_INSERT field cmp fuel head elm) (fun v h' => effect h h' (elm :: l) /\
        inserted key l elm v (has h')) h))).
Proof.
  intros HL HO has. split; [intros h Hm HD; by apply (rb_init_spec cmp D key)|]. split.
  { intros h l (t & m & Ht & _ & Hrb & <- & Hs). split; [|done]. exists t, m. split_and!; try done. by apply (height_bound m). }
  intros h l fuel Hh Hf. split; [by apply (rb_empty_spec D key)|].
  split; [by apply (rb_edge_spec D key false)|]. split; [by apply (rb_edge_spec D key true)|]. split.
  - intros l1 elm l2 ->. split; [by apply (rb_walk_spec cmp D key true fuel h l1 elm l2)|].
    split; [by apply (rb_walk_spec cmp D key false fuel h l1 elm l2)|by apply (rb_remove_spec cmp D key)].
  - intros elm He. split; [by apply (rb_find_spec cmp D key)|]. split; [by apply (rb_nfind_spec cmp D key)|].
    intros Hn. by apply (rb_insert_spec cmp D key).
Qed.

(** C40. The loops of the red-black trees end and visit the elements in order:
    [RB_FOREACH] all of them, from the first, for a body that leaves the tree
    alone; [RB_FOREACH_SAFE], [RB_FOREACH_FROM] and [RB_FOREACH_REVERSE_FROM]
    also if the body takes out the current element, or changes anything of what
    the loop has left behind ([k] becomes [k']); removing every element in such
    a loop leaves the empty tree. *)
Theorem rb_loops (P : place) cmp D key : layout -> Orders U outside cmp D key ->
  let has := has D key in
  (forall n fuel h l (I : list Z -> mem -> Prop) body, has h l -> (max_height l < fuel)%nat -> (length l < n)%nat ->
    (forall l1 x l2 h, l = l1 ++ x :: l2 -> has h l -> I l1 h -> wp (body x) (fun _ h' => has h' l /\ I (l1 ++ [x]) h') h) ->
    I [] h -> wp (RB_FOREACH field n fuel head body) (fun _ h' => has h' l /\ I l h') h) /\
  (forall d n fuel h k l (I : list Z -> list Z -> mem -> Prop) body,
    (forall k x l h, has h (join d k (x :: l)) -> I k (x :: l) h ->
      wp (body x) (fun _ h' => exists k', (max_height (join d k' l) < fuel)%nat /\ has h' (join d k' l) /\ I k' l h') h) ->
    has h (join d k l) -> (max_height (join d k l) < fuel)%nat -> (length l < n)%nat -> I k l h ->
    let post (_ : unit) (h' : mem) := exists k', has h' k' /\ I k' [] h' in
    wp ((if d then RB_FOREACH_FROM else RB_FOREACH_REVERSE_FROM) field n fuel (successor NULL l) body) post h /\
    (d = true -> k = [] -> wp (RB_FOREACH_SAFE field n fuel head body) post h)) /\
  (forall n fuel h l, has h l -> (max_height l < fuel)%nat -> (length l < n)%nat ->
    wp (RB_FOREACH_SAFE field n fuel head (fun x => _ <- RB_REMOVE field fuel head x ;; ret tt)) (fun _ h' => has h' []) h).
Proof.
  intros HL HO has. split; [intros n fuel h l I body Hh Hf Hn Hb HI; by apply (rb_foreach_spec cmp D key)|]. split.
  - intros d n fuel h k l I body Hb Hh Hf Hn HI post. split.
    + pose proof (rb_safe_loop cmp D key d fuel I body Hb l k n h Hh Hf Hn HI) as Hrun. by destruct d.
    + intros -> ->. by apply (rb_safe_spec cmp D key n fuel h l I).
  - intros n fuel h l Hh Hf Hn. by apply (clear_run cmp D key n fuel h l).
Qed.

(** Eight elements with the key in front of the links; 64 and 288 have the same key. *)
Definition eight_list : list Z := [64; 96; 128; 160; 192; 224; 256; 288].
#[local] Instance eight : place := mkPlace (list_to_set eight_list) 8 8.
Definition eight_key (x : Z) : Z := (x / 32 * 3) mod 7.
Definition ground : mem :=
  list_to_map ((8, 0) :: flat_map (fun x => [(x, eight_key x); (x + 8, 0); (x + 16, 0); (x + 24, 0)]) eight_list).
Definition eight_keyed (h : mem) : Prop := forall x, x ∈ U -> h !! x = Some (eight_key x).

Lemma elem_eight x : x ∈ U <-> x ∈ eight_list.
Proof. apply elem_of_list_to_set. Qed.

Lemma eight_cases x : x ∈ U -> exists i, 2 <= i < 10 /\ x = 32 * i.
Proof.
  rewrite elem_eight. unfold eight_list. intros H.
  exists (x / 32). repeat (apply elem_of_cons in H as [->|H]; [vm_compute; repeat split; discriminate|]).
  by apply not_elem_of_nil in H.
Qed.

#[local] Instance eight_layout : layout.
Proof.
  split.
  - intros x y (i & Hi & ->)%eight_cases (j & Hj & ->)%eight_cases. lia.
  - intros x (i & Hi & ->)%eight_cases. simpl. lia.
  - intros x (i & Hi & ->)%eight_cases. unfold pointer, NULL. split; [|lia]. split; [lia|].
    replace (32 * i) with (16 * i * 2) by lia. by apply Z.mod_mul.
Qed.

#[local] Instance eight_orders : Orders U outside compare_keys eight_keyed eight_key.
Proof.
  split.
  - intros h a b HD Ha Hb. apply compare_keys_run; auto.
  - intros h h' Ho HD x Hx. rewrite <- (HD x Hx). apply eight_cases in Hx as (i & Hi & ->). apply Ho.
    + unfold rbh_root. simpl. lia.
    + intros y (j & Hj & ->)%eight_cases. unfold fld, RB_LEFT, RB_RIGHT, _RB_PARENT. simpl. split; [intros []|]; lia.
Qed.

Lemma ground_mapped : mapped ground.
Proof.
  split; [by eexists|]. intros x. rewrite elem_eight. unfold eight_list. intros H.
  repeat (apply elem_of_cons in H as [->|H]; [split; [intros []|]; by eexists|]). by apply not_elem_of_nil in H.
Qed.

Lemma ground_keyed : eight_keyed ground.
Proof.
  intros x. rewrite elem_eight. unfold eight_list. intros H.
  repeat (apply elem_of_cons in H as [->|H]; [reflexivity|]). by apply not_elem_of_nil in H.
Qed.

(** The elements of a list go into the tree one by one. *)
Fixpoint insert_all (l : list Z) : M mem (list Z) :=
  match l with [] => ret [] | x :: l => v <- RB_INSERT 8 compare_keys 7 8 x ;; vs <- insert_all l ;; ret (v :: vs) end.

(** The tree at work. *)
Definition rb_session : M mem (list Z) :=
  RB_INIT 8 ;;;
  vs <- insert_all eight_list ;;
  a <- RB_MIN 8 7 8 ;;
  b <- RB_NEXT 8 7 a ;;
  c <- RB_MAX 8 7 8 ;;
  d <- RB_PREV 8 7 c ;;
  f <- RB_FIND 8 compare_keys 7 8 288 ;;
  _ <- RB_REMOVE 8 7 8 64 ;;
  g <- RB_FIND 8 compare_keys 7 8 288 ;;
  _ <- RB_REMOVE 8 7 8 128 ;;
  n <- RB_NFIND 8 compare_keys 7 8 128 ;;
  m <- RB_MAX 8 7 8 ;;
  ret (vs ++ [a; b; c; d; f; g; n; m]).

Lemma rb_operations_witness :
  (exists h, rb_session ground = Done ([0; 0; 0; 0; 0; 0; 0; 64] ++ [224; 160; 64; 128; 64; 0; 0; 192]) h) /\
  wp (RB_INIT 8 ;;; RB_INSERT 8 compare_keys 1 8 64) (fun v h => v = NULL /\ has eight_keyed eight_key h [64]) ground.
Proof.
  split; [eexists; vm_compute; reflexivity|].
  destruct (rb_operations eight compare_keys eight_keyed eight_key eight_layout eight_orders) as (Hinit & _ & Hops).
  apply wp_bind. eapply wp_mono; [apply Hinit; [exact ground_mapped|exact ground_keyed]|]. intros [] h1 [Hh1 _].
  destruct (Hops h1 [] 1%nat Hh1 ltac:(simpl; lia)) as (_ & _ & _ & _ & Helm).
  destruct (Helm 64) as (_ & _ & Hins); [apply elem_eight; left|].
  eapply wp_mono; [apply Hins, not_elem_of_nil|]. intros v h2 [_ [[Hv _]|(-> & _ & l1 & l2 & El & Hh2)]].
  - by apply not_elem_of_nil in Hv.
  - symmetry in El. apply app_nil in El as [-> ->]. by split.
Defined.

Lemma rb_loops_witness :
  (exists h, (RB_INIT 8 ;;; insert_all eight_list ;;; RB_FOREACH_SAFE 8 8 7 8 (fun x => _ <- RB_REMOVE 8 7 8 x ;; ret tt) ;;; RB_EMPTY 8) ground = Done true h) /\
  wp (RB_INIT 8 ;;; RB_FOREACH_SAFE 8 8 7 8 (fun x => _ <- RB_REMOVE 8 7 8 x ;; ret tt)) (fun _ h => has eight_keyed eight_key h []) ground.
Proof.
  split; [eexists; vm_compute; reflexivity|].
  destruct (rb_loops eight compare_keys eight_keyed eight_key eight_layout eight_orders) as (_ & _ & Hclear).
  pose proof (rb_init_spec compare_keys eight_keyed eight_key ground ground_mapped ground_keyed) as Hinit.
  apply wp_bind. eapply wp_mono; [exact Hinit|].
  intros [] h1 [Hh1 _]. apply (Hclear 8%nat 7%nat h1 []); [exact Hh1|apply Nat.ltb_lt; reflexivity..].
Defined.

End RBContract.
