(* ===== verification/ByteOrder.v ===== *)
(** * ByteOrder: byte swapping and byte-ordered memory accesses,
    [src/MacKernelSDK/Headers/libkern/OSByteOrder.h] with the headers it
    includes, [sys/_endian.h] and [architecture/byte_order.h]

    The headers choose their definitions by the host: the x86 functions of
    [libkern/i386] or the portable ones of [libkern/machine], and the branch
    for the byte order.  Module [ByteOrder] has all of them, with the host as a
    parameter, and proves that what they read, write and convert does not
    depend on it. *)

From Stdlib Require Import ZArith Lia Bool.
From stdpp Require Import base list option gmap.
From S2P Require Import Prelude Ring.
Open Scope Z_scope.

Module ByteOrder.

Definition wrap16 (x : Z) : Z := x mod 2 ^ 16.

(** ** Swapping *)

Definition OSSwapConstInt16 (x : Z) : Z :=
  let x := wrap16 x in
  wrap16 (Z.lor (Z.shiftr (Z.land x 0xff00) 8) (Z.shiftl (Z.land x 0x00ff) 8)).
Definition OSSwapConstInt32 (x : Z) : Z :=
  let x := wrap32 x in
  wrap32 (Z.lor (Z.lor (Z.lor (Z.shiftr (Z.land x 0xff000000) 24) (Z.shiftr (Z.land x 0x00ff0000) 8))
    (Z.shiftl (Z.land x 0x0000ff00) 8)) (Z.shiftl (Z.land x 0x000000ff) 24)).
Definition OSSwapConstInt64 (x : Z) : Z :=
  let x := wrap64 x in
  wrap64 (Z.lor (Z.lor (Z.lor (Z.lor (Z.lor (Z.lor (Z.lor
    (Z.shiftr (Z.land x 0xff00000000000000) 56) (Z.shiftr (Z.land x 0x00ff000000000000) 40))
    (Z.shiftr (Z.land x 0x0000ff0000000000) 24)) (Z.shiftr (Z.land x 0x000000ff00000000) 8))
    (Z.shiftl (Z.land x 0x00000000ff000000) 8)) (Z.shiftl (Z.land x 0x0000000000ff0000) 24))
    (Z.shiftl (Z.land x 0x000000000000ff00) 40)) (Z.shiftl (Z.land x 0x00000000000000ff) 56)).

(** The bytes of a value from the lowest up, and back. *)
Fixpoint bytes (n : nat) (x : Z) : list Z :=
  match n with O => [] | S n => x mod 2 ^ 8 :: bytes n (x / 2 ^ 8) end.
Fixpoint value (l : list Z) : Z := match l with [] => 0 | b :: l => b + 2 ^ 8 * value l end.

(** The compiler's and the processor's byte reversal. *)
Definition bswap (n : nat) (x : Z) : Z := value (rev (bytes n x)).

Module I386.
Definition _OSSwapInt16 (_data : Z) : Z := wrap16 (Z.lor (Z.shiftl _data 8) (Z.shiftr _data 8)).
Definition _OSSwapInt32 (_data : Z) : Z := bswap 4 _data.
Definition _OSSwapInt64 (_data : Z) : Z := bswap 8 _data.
End I386.

Module Machine.
Definition _OSSwapInt16 (data : Z) : Z := OSSwapConstInt16 data.
Definition _OSSwapInt32 (data : Z) : Z := OSSwapConstInt32 data.
Definition _OSSwapInt64 (data : Z) : Z := OSSwapConstInt64 data.
End Machine.

(** ** The host *)

Inductive order : Type := OSUnknownByteOrder | OSLittleEndian | OSBigEndian.
(** A host is little or big endian ([#error] otherwise); an x86 one is little. *)
Record host : Type := mkHost { big : bool; x86 : bool }.

Section Host.
Context (H : host).

Definition _OSSwapInt16 (x : Z) : Z := if x86 H then I386._OSSwapInt16 x else Machine._OSSwapInt16 x.
Definition _OSSwapInt32 (x : Z) : Z := if x86 H then I386._OSSwapInt32 x else Machine._OSSwapInt32 x.
Definition _OSSwapInt64 (x : Z) : Z := if x86 H then I386._OSSwapInt64 x else Machine._OSSwapInt64 x.

(** [constant]: whether the compiler knows the argument. *)
Definition OSSwapInt16 (constant : bool) (x : Z) : Z :=
  wrap16 (if constant then OSSwapConstInt16 x else _OSSwapInt16 (wrap16 x)).
Definition OSSwapInt32 (constant : bool) (x : Z) : Z := if constant then OSSwapConstInt32 x else _OSSwapInt32 (wrap32 x).
Definition OSSwapInt64 (constant : bool) (x : Z) : Z := if constant then OSSwapConstInt64 x else _OSSwapInt64 (wrap64 x).

Definition OSHostByteOrder : order := if big H then OSBigEndian else OSLittleEndian.

(** ** Memory: one cell per byte *)

Definition address (base byteOffset : Z) : Z := wrap64 (base + byteOffset).

Fixpoint load_bytes (n : nat) (a : Z) : M mem (list Z) :=
  match n with
  | O => ret []
  | S n => b <- load a ;; l <- load_bytes n (a + 1) ;; ret (b :: l)
  end.
Fixpoint store_bytes (l : list Z) (a : Z) : M mem unit :=
  match l with
  | [] => ret tt
  | b :: l => store a b ;;; store_bytes l (a + 1)
  end.

(** An access of the host's own: [*(volatile uintN_t * )a]. *)
Definition load_word (n : nat) (a : Z) : M mem Z :=
  l <- load_bytes n a ;; ret (value (if big H then rev l else l)).
Definition store_word (n : nat) (a v : Z) : M mem unit :=
  store_bytes (if big H then rev (bytes n v) else bytes n v) a.

Definition _OSReadInt16 (base byteOffset : Z) : M mem Z := load_word 2 (address base byteOffset).
Definition _OSReadInt32 (base byteOffset : Z) : M mem Z := load_word 4 (address base byteOffset).
Definition _OSReadInt64 (base byteOffset : Z) : M mem Z := load_word 8 (address base byteOffset).
Definition _OSWriteInt16 (base byteOffset data : Z) : M mem unit := store_word 2 (address base byteOffset) data.
Definition _OSWriteInt32 (base byteOffset data : Z) : M mem unit := store_word 4 (address base byteOffset) data.
Definition _OSWriteInt64 (base byteOffset data : Z) : M mem unit := store_word 8 (address base byteOffset) data.

Definition OSReadSwapInt16 (base byteOffset : Z) : M mem Z :=
  result <- load_word 2 (address base byteOffset) ;; ret (_OSSwapInt16 result).
Definition OSReadSwapInt32 (base byteOffset : Z) : M mem Z :=
  result <- load_word 4 (address base byteOffset) ;; ret (_OSSwapInt32 result).
Definition OSReadSwapInt64 (base byteOffset : Z) : M mem Z :=
  result <- load_word 8 (address base byteOffset) ;; ret (_OSSwapInt64 result).
Definition OSWriteSwapInt16 (base byteOffset data : Z) : M mem unit :=
  store_word 2 (address base byteOffset) (_OSSwapInt16 data).
Definition OSWriteSwapInt32 (base byteOffset data : Z) : M mem unit :=
  store_word 4 (address base byteOffset) (_OSSwapInt32 data).
Definition OSWriteSwapInt64 (base byteOffset data : Z) : M mem unit :=
  store_word 8 (address base byteOffset) (_OSSwapInt64 data).

(** ** Big- and little-endian accesses and conversions *)

Definition OSReadBigInt16 (base byteOffset : Z) : M mem Z :=
  if big H then _OSReadInt16 base byteOffset else OSReadSwapInt16 base byteOffset.
Definition OSReadLittleInt16 (base byteOffset : Z) : M mem Z :=
  if big H then OSReadSwapInt16 base byteOffset else _OSReadInt16 base byteOffset.
Definition OSWriteBigInt16 (base byteOffset data : Z) : M mem unit :=
  if big H then _OSWriteInt16 base byteOffset data else OSWriteSwapInt16 base byteOffset data.
Definition OSWriteLittleInt16 (base byteOffset data : Z) : M mem unit :=
  if big H then OSWriteSwapInt16 base byteOffset data else _OSWriteInt16 base byteOffset data.
Definition OSReadBigInt32 (base byteOffset : Z) : M mem Z :=
  if big H then _OSReadInt32 base byteOffset else OSReadSwapInt32 base byteOffset.
Definition OSReadLittleInt32 (base byteOffset : Z) : M mem Z :=
  if big H then OSReadSwapInt32 base byteOffset else _OSReadInt32 base byteOffset.
Definition OSWriteBigInt32 (base byteOffset data : Z) : M mem unit :=
  if big H then _OSWriteInt32 base byteOffset data else OSWriteSwapInt32 base byteOffset data.
Definition OSWriteLittleInt32 (base byteOffset data : Z) : M mem unit :=
  if big H then OSWriteSwapInt32 base byteOffset data else _OSWriteInt32 base byteOffset data.
Definition OSReadBigInt64 (base byteOffset : Z) : M mem Z :=
  if big H then _OSReadInt64 base byteOffset else OSReadSwapInt64 base byteOffset.
Definition OSReadLittleInt64 (base byteOffset : Z) : M mem Z :=
  if big H then OSReadSwapInt64 base byteOffset else _OSReadInt64 base byteOffset.
Definition OSWriteBigInt64 (base byteOffset data : Z) : M mem unit :=
  if big H then _OSWriteInt64 base byteOffset data else OSWriteSwapInt64 base byteOffset data.
Definition OSWriteLittleInt64 (base byteOffset data : Z) : M mem unit :=
  if big H then OSWriteSwapInt64 base byteOffset data else _OSWriteInt64 base byteOffset data.

Definition OSSwapHostToBigConstInt16 (x : Z) : Z := if big H then wrap16 x else OSSwapConstInt16 x.
Definition OSSwapHostToBigInt16 (c : bool) (x : Z) : Z := if big H then wrap16 x else OSSwapInt16 c x.
Definition OSSwapHostToBigConstInt32 (x : Z) : Z := if big H then wrap32 x else OSSwapConstInt32 x.
Definition OSSwapHostToBigInt32 (c : bool) (x : Z) : Z := if big H then wrap32 x else OSSwapInt32 c x.
Definition OSSwapHostToBigConstInt64 (x : Z) : Z := if big H then wrap64 x else OSSwapConstInt64 x.
Definition OSSwapHostToBigInt64 (c : bool) (x : Z) : Z := if big H then wrap64 x else OSSwapInt64 c x.
Definition OSSwapBigToHostConstInt16 (x : Z) : Z := if big H then wrap16 x else OSSwapConstInt16 x.
Definition OSSwapBigToHostInt16 (c : bool) (x : Z) : Z := if big H then wrap16 x else OSSwapInt16 c x.
Definition OSSwapBigToHostConstInt32 (x : Z) : Z := if big H then wrap32 x else OSSwapConstInt32 x.
Definition OSSwapBigToHostInt32 (c : bool) (x : Z) : Z := if big H then wrap32 x else OSSwapInt32 c x.
Definition OSSwapBigToHostConstInt64 (x : Z) : Z := if big H then wrap64 x else OSSwapConstInt64 x.
Definition OSSwapBigToHostInt64 (c : bool) (x : Z) : Z := if big H then wrap64 x else OSSwapInt64 c x.
Definition OSSwapHostToLittleConstInt16 (x : Z) : Z := if big H then OSSwapConstInt16 x else wrap16 x.
Definition OSSwapHostToLittleInt16 (c : bool) (x : Z) : Z := if big H then OSSwapInt16 c x else wrap16 x.
Definition OSSwapHostToLittleConstInt32 (x : Z) : Z := if big H then OSSwapConstInt32 x else wrap32 x.
Definition OSSwapHostToLittleInt32 (c : bool) (x : Z) : Z := if big H then OSSwapInt32 c x else wrap32 x.
Definition OSSwapHostToLittleConstInt64 (x : Z) : Z := if big H then OSSwapConstInt64 x else wrap64 x.
Definition OSSwapHostToLittleInt64 (c : bool) (x : Z) : Z := if big H then OSSwapInt64 c x else wrap64 x.
Definition OSSwapLittleToHostConstInt16 (x : Z) : Z := if big H then OSSwapConstInt16 x else wrap16 x.
Definition OSSwapLittleToHostInt16 (c : bool) (x : Z) : Z := if big H then OSSwapInt16 c x else wrap16 x.
Definition OSSwapLittleToHostConstInt32 (x : Z) : Z := if big H then OSSwapConstInt32 x else wrap32 x.
Definition OSSwapLittleToHostInt32 (c : bool) (x : Z) : Z := if big H then OSSwapInt32 c x else wrap32 x.
Definition OSSwapLittleToHostConstInt64 (x : Z) : Z := if big H then OSSwapConstInt64 x else wrap64 x.
Definition OSSwapLittleToHostInt64 (c : bool) (x : Z) : Z := if big H then OSSwapInt64 c x else wrap64 x.

(** The unsuffixed names are the 32-bit ones. *)
Definition OSReadBigInt := OSReadBigInt32.
Definition OSWriteBigInt := OSWriteBigInt32.
Definition OSSwapBigToHostInt := OSSwapBigToHostInt32.
Definition OSSwapHostToBigInt := OSSwapHostToBigInt32.
Definition OSReadLittleInt := OSReadLittleInt32.
Definition OSWriteLittleInt := OSWriteLittleInt32.
Definition OSSwapHostToLittleInt := OSSwapHostToLittleInt32.
Definition OSSwapLittleToHostInt := OSSwapLittleToHostInt32.

(** ** [sys/_endian.h]: network order *)

Definition ntohs (c : bool) (x : Z) : Z := if big H then wrap16 x else OSSwapInt16 c x.
Definition htons (c : bool) (x : Z) : Z := if big H then wrap16 x else OSSwapInt16 c x.
Definition ntohl (c : bool) (x : Z) : Z := if big H then wrap32 x else OSSwapInt32 c x.
Definition htonl (c : bool) (x : Z) : Z := if big H then wrap32 x else OSSwapInt32 c x.
Definition ntohll (c : bool) (x : Z) : Z := if big H then wrap64 x else OSSwapInt64 c x.
Definition htonll (c : bool) (x : Z) : Z := if big H then wrap64 x else OSSwapInt64 c x.

(** ** [architecture/byte_order.h]

    An [unsigned long] has 64 bits, a [float] is its 32-bit pattern and a
    [double] its 64-bit pattern.  A [float] written to a union of 64 bits
    leaves the upper half as it was: [junk]. *)

Definition NXSwapShort (inv : Z) : Z := OSSwapInt16 false inv.
Definition NXSwapInt (inv : Z) : Z := OSSwapInt32 false inv.
Definition NXSwapLong (inv : Z) : Z := OSSwapInt32 false (wrap32 inv).
Definition NXSwapLongLong (inv : Z) : Z := OSSwapInt64 false inv.

Definition NXConvertHostFloatToSwapped (junk x : Z) : Z :=
  if big H then x * 2 ^ 32 + junk else junk * 2 ^ 32 + x.
Definition NXConvertSwappedFloatToHost (x : Z) : Z := if big H then wrap64 x / 2 ^ 32 else wrap32 x.
Definition NXConvertHostDoubleToSwapped (x : Z) : Z := x.
Definition NXConvertSwappedDoubleToHost (x : Z) : Z := x.
Definition NXSwapFloat (x : Z) : Z := OSSwapInt32 false (wrap32 x).
Definition NXSwapDouble (x : Z) : Z := OSSwapInt64 false x.

Inductive NXByteOrder : Type := NX_UnknownByteOrder | NX_LittleEndian | NX_BigEndian.
Definition NXHostByteOrder : NXByteOrder := if big H then NX_BigEndian else NX_LittleEndian.

Definition NXSwapBigShortToHost (x : Z) : Z := OSSwapBigToHostInt16 false (wrap16 x).
Definition NXSwapBigIntToHost (x : Z) : Z := OSSwapBigToHostInt32 false (wrap32 x).
Definition NXSwapBigLongToHost (x : Z) : Z := OSSwapBigToHostInt32 false (wrap32 x).
Definition NXSwapBigLongLongToHost (x : Z) : Z := OSSwapBigToHostInt64 false (wrap64 x).
Definition NXSwapBigDoubleToHost (x : Z) : Z := NXConvertSwappedDoubleToHost (OSSwapBigToHostInt64 false (wrap64 x)).
Definition NXSwapBigFloatToHost (x : Z) : Z := NXConvertSwappedFloatToHost (OSSwapBigToHostInt32 false (wrap32 x)).
Definition NXSwapHostShortToBig (x : Z) : Z := OSSwapHostToBigInt16 false (wrap16 x).
Definition NXSwapHostIntToBig (x : Z) : Z := OSSwapHostToBigInt32 false (wrap32 x).
Definition NXSwapHostLongToBig (x : Z) : Z := OSSwapHostToBigInt32 false (wrap32 x).
Definition NXSwapHostLongLongToBig (x : Z) : Z := OSSwapHostToBigInt64 false (wrap64 x).
Definition NXSwapHostDoubleToBig (x : Z) : Z := OSSwapHostToBigInt64 false (NXConvertHostDoubleToSwapped x).
Definition NXSwapHostFloatToBig (junk x : Z) : Z := OSSwapHostToBigInt32 false (wrap32 (NXConvertHostFloatToSwapped junk x)).
Definition NXSwapLittleShortToHost (x : Z) : Z := OSSwapLittleToHostInt16 false (wrap16 x).
Definition NXSwapLittleIntToHost (x : Z) : Z := OSSwapLittleToHostInt32 false (wrap32 x).
Definition NXSwapLittleLongToHost (x : Z) : Z := OSSwapLittleToHostInt32 false (wrap32 x).
Definition NXSwapLittleLongLongToHost (x : Z) : Z := OSSwapLittleToHostInt64 false (wrap64 x).
Definition NXSwapLittleDoubleToHost (x : Z) : Z := NXConvertSwappedDoubleToHost (OSSwapLittleToHostInt64 false (wrap64 x)).
Definition NXSwapLittleFloatToHost (x : Z) : Z := NXConvertSwappedFloatToHost (OSSwapLittleToHostInt32 false (wrap32 x)).
Definition NXSwapHostShortToLittle (x : Z) : Z := OSSwapHostToLittleInt16 false (wrap16 x).
Definition NXSwapHostIntToLittle (x : Z) : Z := OSSwapHostToLittleInt32 false (wrap32 x).
Definition NXSwapHostLongToLittle (x : Z) : Z := OSSwapHostToLittleInt32 false (wrap32 x).
Definition NXSwapHostLongLongToLittle (x : Z) : Z := OSSwapHostToLittleInt64 false (wrap64 x).
Definition NXSwapHostDoubleToLittle (x : Z) : Z := OSSwapHostToLittleInt64 false (NXConvertHostDoubleToSwapped x).
Definition NXSwapHostFloatToLittle (junk x : Z) : Z := OSSwapHostToLittleInt32 false (wrap32 (NXConvertHostFloatToSwapped junk x)).

End Host.

Definition pc : host := mkHost false true.
Definition ppc : host := mkHost true false.

Example byte_order_run :
  (OSSwapInt32 pc false 0x11223344, OSSwapInt32 ppc true 0x11223344, OSSwapInt16 pc false 0x1234, OSSwapConstInt64 1,
   htonl pc true 1, htonl ppc true 1, NXSwapLong pc (2 ^ 40 + 1))
  = (0x44332211, 0x44332211, 0x3412, 2 ^ 56, 2 ^ 24, 1, 2 ^ 24).
Proof. vm_compute. reflexivity. Qed.

(** ** Bytes and values *)

Definition is_byte (b : Z) : Prop := 0 <= b < 2 ^ 8.

Lemma bytes_ok n : forall x, Forall is_byte (bytes n x) /\ length (bytes n x) = n.
Proof.
  induction n as [|n IH]; intros x; [by split|]. destruct (IH (x / 2 ^ 8)) as [H1 H2]. cbn [bytes length].
  split; [constructor; [by apply Z.mod_pos_bound|done]|by rewrite H2].
Qed.

Lemma value_bytes n : forall x, value (bytes n x) = x mod 2 ^ (8 * Z.of_nat n).
Proof.
  induction n as [|n IH]; intros x; cbn [bytes value].
  - change (2 ^ (8 * Z.of_nat 0)) with 1. by rewrite Z.mod_1_r.
  - rewrite IH. replace (8 * Z.of_nat (S n)) with (8 + 8 * Z.of_nat n) by lia.
    rewrite Z.pow_add_r by lia. by rewrite Z.rem_mul_r by lia.
Qed.

Lemma bytes_value l : Forall is_byte l -> bytes (length l) (value l) = l.
Proof.
  induction 1 as [|b l Hb Hl IH]; [done|]. unfold is_byte in Hb. cbn [length bytes value].
  rewrite (Z.mul_comm (2 ^ 8)), Z.mod_add, Z.div_add, Z.mod_small, Z.div_small by lia. by rewrite Z.add_0_l, IH.
Qed.

Lemma value_range l : Forall is_byte l -> 0 <= value l < 2 ^ (8 * Z.of_nat (length l)).
Proof.
  induction 1 as [|b l Hb Hl IH]; cbn [value length]; [done|]. unfold is_byte in Hb.
  replace (8 * Z.of_nat (S (length l))) with (8 + 8 * Z.of_nat (length l)) by lia. rewrite Z.pow_add_r by lia. lia.
Qed.

Lemma Forall_rev_bytes l : Forall is_byte l -> Forall is_byte (rev l).
Proof. intros H. by apply List.Forall_rev. Qed.

Lemma bytes_bswap n x : bytes n (bswap n x) = rev (bytes n x).
Proof.
  destruct (bytes_ok n x) as [H1 H2]. unfold bswap. rewrite <- H2 at 1. rewrite <- List.length_rev.
  apply bytes_value. by apply Forall_rev_bytes.
Qed.

Lemma bswap_range n x : 0 <= bswap n x < 2 ^ (8 * Z.of_nat n).
Proof.
  destruct (bytes_ok n x) as [H1 H2]. pose proof (value_range (rev (bytes n x)) (Forall_rev_bytes _ H1)) as H.
  by rewrite List.length_rev, H2 in H.
Qed.

Lemma bswap_involutive n x : bswap n (bswap n x) = x mod 2 ^ (8 * Z.of_nat n).
Proof. unfold bswap at 1. rewrite bytes_bswap, List.rev_involutive. apply value_bytes. Qed.

Lemma bytes_wrap n : forall x, bytes n (x mod 2 ^ (8 * Z.of_nat n)) = bytes n x.
Proof. intros x. rewrite <- value_bytes. destruct (bytes_ok n x) as [H1 H2]. rewrite <- H2 at 1. by apply bytes_value. Qed.

Lemma bswap_wrap n x : bswap n (x mod 2 ^ (8 * Z.of_nat n)) = bswap n x.
Proof. unfold bswap. by rewrite bytes_wrap. Qed.

(** ** The macros reverse bytes *)

Lemma land_byte x k : 0 <= k -> Z.land x (255 * 2 ^ k) = (x / 2 ^ k mod 2 ^ 8) * 2 ^ k.
Proof.
  intros Hk. rewrite <- Z.shiftl_mul_pow2, <- (Z.shiftl_mul_pow2 (_ mod _)), <- Z.shiftr_div_pow2, <- Z.land_ones by lia.
  apply Z.bits_inj'. intros n Hn. rewrite Z.land_spec, !Z.shiftl_spec by lia. destruct (Z.lt_ge_cases n k).
  - rewrite !(Z.testbit_neg_r _ (n - k)) by lia. apply andb_false_r.
  - rewrite Z.land_spec, Z.shiftr_spec by lia. f_equal. f_equal. lia.
Qed.

Lemma shiftr_byte b k j : 0 <= j <= k -> Z.shiftr (b * 2 ^ k) j = b * 2 ^ (k - j).
Proof.
  intros Hj. rewrite Z.shiftr_div_pow2 by lia. replace (2 ^ k) with (2 ^ (k - j) * 2 ^ j) by (rewrite <- Z.pow_add_r by lia; f_equal; lia).
  rewrite Z.mul_assoc. apply Z.div_mul. apply Z.pow_nonzero; lia.
Qed.

Lemma shiftl_byte b k j : 0 <= j -> 0 <= k -> Z.shiftl (b * 2 ^ k) j = b * 2 ^ (k + j).
Proof. intros Hj Hk. rewrite Z.shiftl_mul_pow2, Z.pow_add_r by lia. lia. Qed.

(** One more byte above a sum of lower ones. *)
Lemma lor_byte a b k : 0 <= a < 2 ^ k -> 0 <= k -> Z.lor a (b * 2 ^ k) = a + b * 2 ^ k.
Proof. intros Ha Hk. rewrite Z.lor_comm, (lor_fields _ b _ k) by (done || lia). lia. Qed.

Lemma byte_at x k : is_byte (x / 2 ^ k mod 2 ^ 8).
Proof. by apply Z.mod_pos_bound. Qed.

Lemma OSSwapConstInt16_eq x : OSSwapConstInt16 x = bswap 2 x.
Proof.
  rewrite <- (bswap_wrap 2). change (2 ^ (8 * Z.of_nat 2)) with (2 ^ 16). unfold OSSwapConstInt16, wrap16. cbv zeta.
  set (y := x mod 2 ^ 16). change 0xff00 with (255 * 2 ^ 8). change 0x00ff with (255 * 2 ^ 0).
  rewrite !land_byte, shiftr_byte, shiftl_byte by lia. unfold bswap. cbn [bytes rev app value].
  pose proof (byte_at y 8). pose proof (byte_at y 0). unfold is_byte in *. rewrite !Z.div_1_r in *.
  rewrite lor_byte by lia. rewrite Z.mod_small; lia.
Qed.

Lemma OSSwapConstInt32_eq x : OSSwapConstInt32 x = bswap 4 x.
Proof.
  rewrite <- (bswap_wrap 4). change (2 ^ (8 * Z.of_nat 4)) with (2 ^ 32). unfold OSSwapConstInt32. cbv zeta.
  change (x mod 2 ^ 32) with (wrap32 x). set (y := wrap32 x).
  change 0xff000000 with (255 * 2 ^ 24). change 0x00ff0000 with (255 * 2 ^ 16).
  change 0x0000ff00 with (255 * 2 ^ 8). change 0x000000ff with (255 * 2 ^ 0).
  rewrite !land_byte, !shiftr_byte, !shiftl_byte by lia. unfold bswap. cbn [bytes rev app value].
  rewrite !Z.div_div by lia. change (2 ^ 8 * (2 ^ 8 * 2 ^ 8)) with (2 ^ 24). change (2 ^ 8 * 2 ^ 8 * 2 ^ 8) with (2 ^ 24).
  change (2 ^ 8 * 2 ^ 8) with (2 ^ 16).
  pose proof (byte_at y 24). pose proof (byte_at y 16). pose proof (byte_at y 8). pose proof (byte_at y 0).
  unfold is_byte in *. rewrite !Z.div_1_r in *. rewrite (lor_byte _ _ (16 - 8)), (lor_byte _ _ (8 + 8)), (lor_byte _ _ (0 + 24)) by lia.
  rewrite wrap32_small by lia. lia.
Qed.

Lemma OSSwapConstInt64_eq x : OSSwapConstInt64 x = bswap 8 x.
Proof.
  rewrite <- (bswap_wrap 8). change (2 ^ (8 * Z.of_nat 8)) with (2 ^ 64). unfold OSSwapConstInt64. cbv zeta.
  change (x mod 2 ^ 64) with (wrap64 x). set (y := wrap64 x).
  change 0xff00000000000000 with (255 * 2 ^ 56). change 0x00ff000000000000 with (255 * 2 ^ 48).
  change 0x0000ff0000000000 with (255 * 2 ^ 40). change 0x000000ff00000000 with (255 * 2 ^ 32).
  change 0x00000000ff000000 with (255 * 2 ^ 24). change 0x0000000000ff0000 with (255 * 2 ^ 16).
  change 0x000000000000ff00 with (255 * 2 ^ 8). change 0x00000000000000ff with (255 * 2 ^ 0).
  rewrite !land_byte, !shiftr_byte, !shiftl_byte by lia. unfold bswap. cbn [bytes rev app value].
  rewrite !Z.div_div by lia.
  repeat match goal with |- context [y / (2 ^ 8 * ?k)] => let v := eval compute in (Z.log2 (2 ^ 8 * k)) in change (y / (2 ^ 8 * k)) with (y / 2 ^ v) end.
  repeat match goal with |- context [y / (?k * 2 ^ 8)] => let v := eval compute in (Z.log2 (k * 2 ^ 8)) in change (y / (k * 2 ^ 8)) with (y / 2 ^ v) end.
  pose proof (byte_at y 56). pose proof (byte_at y 48). pose proof (byte_at y 40). pose proof (byte_at y 32).
  pose proof (byte_at y 24). pose proof (byte_at y 16). pose proof (byte_at y 8). pose proof (byte_at y 0).
  unfold is_byte in *. rewrite !Z.div_1_r in *. 
  rewrite (lor_byte _ _ (48 - 40)), (lor_byte _ _ (40 - 24)), (lor_byte _ _ (32 - 8)), (lor_byte _ _ (24 + 8)),
    (lor_byte _ _ (16 + 24)), (lor_byte _ _ (8 + 40)), (lor_byte _ _ (0 + 56)) by lia.
  rewrite wrap64_small by lia. lia.
Qed.

Lemma I386_swap16 x : 0 <= x < 2 ^ 16 -> I386._OSSwapInt16 x = bswap 2 x.
Proof.
  intros Hx. unfold I386._OSSwapInt16, wrap16, bswap. cbn [bytes rev app value].
  rewrite Z.shiftl_mul_pow2, Z.shiftr_div_pow2 by lia. pose proof (Z.div_mod x (2 ^ 8)). pose proof (byte_at x 0) as Hb.
  rewrite Z.div_1_r in Hb. unfold is_byte in Hb.
  assert (0 <= x / 2 ^ 8 < 2 ^ 8) by (split; [apply Z.div_pos; lia|apply Z.div_lt_upper_bound; lia]).
  rewrite (lor_fields _ x _ 8), (Z.mod_small (x / 2 ^ 8)) by lia. symmetry. apply (Z.mod_unique _ _ (x / 2 ^ 8)); lia.
Qed.

(** Every swap of every host. *)
Lemma swaps_eq H : 
  (forall x, 0 <= x < 2 ^ 16 -> _OSSwapInt16 H x = bswap 2 x) /\
  (forall x, _OSSwapInt32 H x = bswap 4 x) /\ (forall x, _OSSwapInt64 H x = bswap 8 x).
Proof.
  unfold _OSSwapInt16, _OSSwapInt32, _OSSwapInt64. destruct (x86 H); split_and!; intros x.
  - apply I386_swap16.
  - done.
  - done.
  - intros _. apply OSSwapConstInt16_eq.
  - apply OSSwapConstInt32_eq.
  - apply OSSwapConstInt64_eq.
Qed.

Lemma OSSwapInt_eq H c x :
  OSSwapInt16 H c x = bswap 2 x /\ OSSwapInt32 H c x = bswap 4 x /\ OSSwapInt64 H c x = bswap 8 x.
Proof.
  destruct (swaps_eq H) as (H16 & H32 & H64). pose proof (bswap_range 2 x).
  unfold OSSwapInt16, OSSwapInt32, OSSwapInt64. rewrite H16 by by apply Z.mod_pos_bound. rewrite H32, H64.
  rewrite (bswap_wrap 2 x : bswap 2 (wrap16 x) = _), (bswap_wrap 4 x : bswap 4 (wrap32 x) = _),
    (bswap_wrap 8 x : bswap 8 (wrap64 x) = _).
  rewrite OSSwapConstInt16_eq, OSSwapConstInt32_eq, OSSwapConstInt64_eq.
  destruct c; split_and!; try done; by apply Z.mod_small.
Qed.

(** ** Accesses *)

(** The bytes [l] are at [a]. *)
Fixpoint bytes_at (h : mem) (a : Z) (l : list Z) : Prop :=
  match l with [] => True | b :: l => h !! a = Some b /\ bytes_at h (a + 1) l end.
(** [n] bytes at [a] can be accessed. *)
Fixpoint mapped (h : mem) (a : Z) (n : nat) : Prop :=
  match n with O => True | S n => is_Some (h !! a) /\ mapped h (a + 1) n end.

Lemma load_bytes_run h l : forall a (Q : list Z -> mem -> Prop), bytes_at h a l -> Q l h -> wp (load_bytes (length l) a) Q h.
Proof.
  induction l as [|b l IH]; intros a Q Ha HQ; cbn [load_bytes length]; [by apply wp_ret|]. destruct Ha as [Hb Ha].
  apply wp_bind. eapply wp_load; [exact Hb|]. apply wp_bind. eapply IH; [exact Ha|]. by apply wp_ret.
Qed.

Lemma mapped_insert h k v : forall n a, mapped h a n -> mapped (<[k := v]> h) a n.
Proof. induction n as [|n IH]; intros a; [done|]. intros [Ha Hn]. split; [by apply is_Some_insert|auto]. Qed.

Lemma bytes_at_frame h h' l : forall a, (forall k, a <= k -> h' !! k = h !! k) -> bytes_at h a l -> bytes_at h' a l.
Proof.
  induction l as [|b l IH]; intros a Hf; [done|]. intros [Ha Hl]. split; [rewrite Hf; [done|lia]|].
  apply IH; [|done]. intros k Hk. apply Hf. lia.
Qed.

Lemma store_bytes_run l : forall h a, mapped h a (length l) ->
  wp (store_bytes l a) (fun _ h' => bytes_at h' a l /\
    forall k, ~ (a <= k < a + Z.of_nat (length l)) -> h' !! k = h !! k) h.
Proof.
  induction l as [|b l IH]; intros h a Hm; cbn [store_bytes length] in *; [by apply wp_ret|]. destruct Hm as [Ha Hm].
  apply wp_bind, wp_store; [done|]. eapply wp_mono; [by apply IH, mapped_insert|]. intros [] h' [Hl Hf]. split; [split; [|done]|].
  - rewrite Hf by lia. apply lookup_insert_eq.
  - intros k Hk. rewrite Hf by lia. apply lookup_insert_ne. lia.
Qed.

(** What a read returns as a function of the bytes at its address, and what a
    write leaves there. *)
Definition reads_as (n : nat) (r : Z -> Z -> M mem Z) (f : list Z -> Z) : Prop :=
  forall h base off l, length l = n -> Forall is_byte l -> bytes_at h (address base off) l ->
  wp (r base off) (fun v h' => v = f l /\ h' = h) h.
Definition writes_as (n : nat) (w : Z -> Z -> Z -> M mem unit) (f : Z -> list Z) : Prop :=
  forall h base off v, 0 <= v < 2 ^ (8 * Z.of_nat n) -> mapped h (address base off) n ->
  wp (w base off v) (fun _ h' => bytes_at h' (address base off) (f v) /\
    forall k, ~ (address base off <= k < address base off + Z.of_nat n) -> h' !! k = h !! k) h.

Definition little (l : list Z) : Z := value l.
Definition bigend (l : list Z) : Z := value (rev l).

Lemma load_word_reads H n : reads_as n (fun b o => load_word H n (address b o)) (if big H then bigend else little).
Proof.
  intros h base off l <- Hl Ha. unfold load_word. apply wp_bind. eapply load_bytes_run; [exact Ha|].
  apply wp_ret. by destruct (big H).
Qed.

Lemma store_word_writes H n :
  writes_as n (fun b o v => store_word H n (address b o) v) (fun v => if big H then rev (bytes n v) else bytes n v).
Proof.
  intros h base off v _ Hm. unfold store_word.
  assert (Hl : length (if big H then rev (bytes n v) else bytes n v) = n)
    by (destruct (big H); rewrite ?List.length_rev; apply bytes_ok).
  rewrite <- Hl in Hm. eapply wp_mono; [by apply store_bytes_run|]. intros [] h' [H1 H2]. by rewrite Hl in H2.
Qed.

Lemma swap_read H n (sw : Z -> Z) : (forall x, 0 <= x < 2 ^ (8 * Z.of_nat n) -> sw x = bswap n x) ->
  reads_as n (fun b o => r <- load_word H n (address b o) ;; ret (sw r)) (if big H then little else bigend).
Proof.
  intros Hsw h base off l Hl Hb Ha. apply wp_bind. eapply wp_mono; [by apply (load_word_reads H n)|].
  intros v h' [-> ->]. apply wp_ret. split; [|done].
  assert (Hr : forall l', Forall is_byte l' -> length l' = n -> sw (value l') = value (rev l')).
  { intros l' Hb' Hl'. pose proof (value_range l' Hb') as Hv. rewrite Hl' in Hv. rewrite Hsw by done. unfold bswap.
    rewrite <- Hl', bytes_value by done. done. }
  unfold little, bigend. destruct (big H).
  - rewrite Hr by (try apply Forall_rev_bytes; rewrite ?List.length_rev; done). by rewrite List.rev_involutive.
  - by apply Hr.
Qed.

Lemma swap_write H n (sw : Z -> Z) : (forall x, 0 <= x < 2 ^ (8 * Z.of_nat n) -> sw x = bswap n x) ->
  writes_as n (fun b o v => store_word H n (address b o) (sw v)) (fun v => if big H then bytes n v else rev (bytes n v)).
Proof.
  intros Hsw h base off v Hv Hm. rewrite Hsw by done. eapply wp_mono; [apply (store_word_writes H n); [apply bswap_range|done]|].
  intros [] h' [H1 H2]. split; [|done]. cbn beta in H1. rewrite bytes_bswap in H1. destruct (big H); [|done].
  by rewrite List.rev_involutive in H1.
Qed.

(** The four accesses of one width. *)
Lemma accesses H n (sw : Z -> Z) : (forall x, 0 <= x < 2 ^ (8 * Z.of_nat n) -> sw x = bswap n x) ->
  let rd := fun b o => load_word H n (address b o) in
  let rds := fun b o => r <- load_word H n (address b o) ;; ret (sw r) in
  let wr := fun b o v => store_word H n (address b o) v in
  let wrs := fun b o v => store_word H n (address b o) (sw v) in
  reads_as n (fun b o => if big H then rd b o else rds b o) bigend /\
  reads_as n (fun b o => if big H then rds b o else rd b o) little /\
  writes_as n (fun b o v => if big H then wr b o v else wrs b o v) (fun v => rev (bytes n v)) /\
  writes_as n (fun b o v => if big H then wrs b o v else wr b o v) (bytes n).
Proof.
  intros Hsw. cbv zeta. pose proof (load_word_reads H n) as H1. pose proof (swap_read H n sw Hsw) as H2.
  pose proof (store_word_writes H n) as H3. pose proof (swap_write H n sw Hsw) as H4. by destruct (big H).
Qed.

(** The bytes the host stores for a value. *)
Definition host_bytes (H : host) (n : nat) (v : Z) : list Z := if big H then rev (bytes n v) else bytes n v.

(** A conversion to big or little endian and its inverse, at one width. *)
Definition converts (H : host) (n : nat) (to from : Z -> Z) (image : Z -> list Z) : Prop :=
  forall x, host_bytes H n (to x) = image x /\ from (to x) = x mod 2 ^ (8 * Z.of_nat n).

Lemma conversion H n (sw wrap : Z -> Z) : (forall x, sw x = bswap n x) -> (forall x, wrap x = x mod 2 ^ (8 * Z.of_nat n)) ->
  converts H n (fun x => if big H then wrap x else sw x) (fun x => if big H then wrap x else sw x) (fun x => rev (bytes n x)) /\
  converts H n (fun x => if big H then sw x else wrap x) (fun x => if big H then sw x else wrap x) (bytes n).
Proof.
  intros Hsw Hw. unfold converts, host_bytes. assert (0 < 2 ^ (8 * Z.of_nat n)) by (apply Z.pow_pos_nonneg; lia).
  split; intros x; destruct (big H); rewrite ?Hsw, ?Hw, ?bytes_bswap, ?bytes_wrap, ?List.rev_involutive, ?bswap_involutive;
    try done; split; try done; by rewrite ?Z.mod_mod by lia.
Qed.

Lemma converts_wrap H n to from image (w : Z -> Z) : (forall x, w x = x mod 2 ^ (8 * Z.of_nat n)) ->
  (forall x, image (w x) = image x) -> (forall x, w (to x) = to x) ->
  converts H n to from image -> converts H n (fun x => to (w x)) (fun x => from (w x)) image.
Proof.
  intros Hw Hi Ht Hc x. destruct (Hc (w x)) as [H1 H2]. rewrite Ht, H1, H2, Hi, !Hw. split; [done|].
  assert (0 < 2 ^ (8 * Z.of_nat n)) by (apply Z.pow_pos_nonneg; lia). by rewrite Z.mod_mod by lia.
Qed.

(** The same for the functions that convert to the width first. *)
Lemma conversion_wrapped H n (sw wrap : Z -> Z) : (forall x, sw x = bswap n x) -> (forall x, wrap x = x mod 2 ^ (8 * Z.of_nat n)) ->
  converts H n (fun x => if big H then wrap (wrap x) else sw (wrap x)) (fun x => if big H then wrap (wrap x) else sw (wrap x))
    (fun x => rev (bytes n x)) /\
  converts H n (fun x => if big H then sw (wrap x) else wrap (wrap x)) (fun x => if big H then sw (wrap x) else wrap (wrap x))
    (bytes n).
Proof.
  intros Hsw Hw. assert (0 < 2 ^ (8 * Z.of_nat n)) by (apply Z.pow_pos_nonneg; lia).
  assert (Ht : forall x, wrap (if big H then wrap x else sw x) = (if big H then wrap x else sw x) /\
    wrap (if big H then sw x else wrap x) = (if big H then sw x else wrap x)).
  { intros x. pose proof (bswap_range n x). destruct (big H); rewrite !Hw, ?Hsw, ?Z.mod_mod, ?(Z.mod_small (bswap n x)) by lia; done. }
  destruct (conversion H n sw wrap Hsw Hw) as [H1 H2].
  split.
  - apply (converts_wrap H n (fun x => if big H then wrap x else sw x) (fun x => if big H then wrap x else sw x)
      (fun x => rev (bytes n x)) wrap Hw); [intros x; by rewrite Hw, bytes_wrap|intros x; apply Ht|exact H1].
  - apply (converts_wrap H n (fun x => if big H then sw x else wrap x) (fun x => if big H then sw x else wrap x)
      (bytes n) wrap Hw); [intros x; by rewrite Hw, bytes_wrap|intros x; apply Ht|exact H2].
Qed.

(** A [float] travels in the low half of an [unsigned long]. *)
Lemma float_roundtrip H junk x : big H = false -> 0 <= x < 2 ^ 32 ->
  NXSwapBigFloatToHost H (NXSwapHostFloatToBig H junk x) = x /\
  NXSwapLittleFloatToHost H (NXSwapHostFloatToLittle H junk x) = x.
Proof.
  intros Hb Hx. assert (E : wrap32 (junk * 2 ^ 32 + x) = x).
  { unfold wrap32. rewrite Z.add_comm, Z.mod_add by lia. by apply Z.mod_small. }
  unfold NXSwapBigFloatToHost, NXSwapHostFloatToBig, NXSwapLittleFloatToHost, NXSwapHostFloatToLittle,
    NXConvertSwappedFloatToHost, NXConvertHostFloatToSwapped, OSSwapBigToHostInt32, OSSwapHostToBigInt32,
    OSSwapLittleToHostInt32, OSSwapHostToLittleInt32.
  rewrite Hb, E, !(wrap32_small x) by done. split; [|done].
  destruct (OSSwapInt_eq H false x) as (_ & -> & _). pose proof (bswap_range 4 x) as Hr. rewrite (wrap32_small (bswap 4 x)) by exact Hr.
  destruct (OSSwapInt_eq H false (bswap 4 x)) as (_ & -> & _). rewrite bswap_involutive.
  change (2 ^ (8 * Z.of_nat 4)) with (2 ^ 32). rewrite Z.mod_small by done. by apply wrap32_small.
Qed.

(** C31. On every host, big or little endian, with the x86 or the portable
    functions: the read and write macros for big- and little-endian data see
    and leave the same bytes at an address; the host-to-big and host-to-little
    conversions produce values whose image in memory has that order and are
    inverted by their counterparts, for constants and at run time; [htons],
    [htonl], [htonll] are the conversions to big endian; and the [NXSwap]
    functions of [architecture/byte_order.h] are the same conversions, those
    for [long] on the low 32 bits only.  A [float] survives its trip through
    the 64-bit union on a little-endian host; on a big-endian one the cast to
    32 bits keeps the wrong half. *)
Theorem byte_order_independent (H : host) (c : bool) :
  (reads_as 2 (OSReadBigInt16 H) bigend /\ reads_as 2 (OSReadLittleInt16 H) little /\
   writes_as 2 (OSWriteBigInt16 H) (fun v => rev (bytes 2 v)) /\ writes_as 2 (OSWriteLittleInt16 H) (bytes 2)) /\
  (reads_as 4 (OSReadBigInt32 H) bigend /\ reads_as 4 (OSReadLittleInt32 H) little /\
   writes_as 4 (OSWriteBigInt32 H) (fun v => rev (bytes 4 v)) /\ writes_as 4 (OSWriteLittleInt32 H) (bytes 4)) /\
  (reads_as 8 (OSReadBigInt64 H) bigend /\ reads_as 8 (OSReadLittleInt64 H) little /\
   writes_as 8 (OSWriteBigInt64 H) (fun v => rev (bytes 8 v)) /\ writes_as 8 (OSWriteLittleInt64 H) (bytes 8)) /\
  (converts H 2 (OSSwapHostToBigInt16 H c) (OSSwapBigToHostInt16 H c) (fun x => rev (bytes 2 x)) /\
   converts H 2 (OSSwapHostToLittleInt16 H c) (OSSwapLittleToHostInt16 H c) (bytes 2)) /\
  (converts H 4 (OSSwapHostToBigInt32 H c) (OSSwapBigToHostInt32 H c) (fun x => rev (bytes 4 x)) /\
   converts H 4 (OSSwapHostToLittleInt32 H c) (OSSwapLittleToHostInt32 H c) (bytes 4)) /\
  (converts H 8 (OSSwapHostToBigInt64 H c) (OSSwapBigToHostInt64 H c) (fun x => rev (bytes 8 x)) /\
   converts H 8 (OSSwapHostToLittleInt64 H c) (OSSwapLittleToHostInt64 H c) (bytes 8)) /\
  (converts H 2 (OSSwapHostToBigConstInt16 H) (OSSwapBigToHostConstInt16 H) (fun x => rev (bytes 2 x)) /\
   converts H 4 (OSSwapHostToBigConstInt32 H) (OSSwapBigToHostConstInt32 H) (fun x => rev (bytes 4 x)) /\
   converts H 8 (OSSwapHostToBigConstInt64 H) (OSSwapBigToHostConstInt64 H) (fun x => rev (bytes 8 x))) /\
  (converts H 2 (htons H c) (ntohs H c) (fun x => rev (bytes 2 x)) /\
   converts H 4 (htonl H c) (ntohl H c) (fun x => rev (bytes 4 x)) /\
   converts H 8 (htonll H c) (ntohll H c) (fun x => rev (bytes 8 x))) /\
  (converts H 2 (NXSwapHostShortToBig H) (NXSwapBigShortToHost H) (fun x => rev (bytes 2 x)) /\
   converts H 2 (NXSwapHostShortToLittle H) (NXSwapLittleShortToHost H) (bytes 2) /\
   converts H 4 (NXSwapHostIntToBig H) (NXSwapBigIntToHost H) (fun x => rev (bytes 4 x)) /\
   converts H 4 (NXSwapHostIntToLittle H) (NXSwapLittleIntToHost H) (bytes 4) /\
   converts H 4 (NXSwapHostLongToBig H) (NXSwapBigLongToHost H) (fun x => rev (bytes 4 x)) /\
   converts H 4 (NXSwapHostLongToLittle H) (NXSwapLittleLongToHost H) (bytes 4) /\
   converts H 8 (NXSwapHostLongLongToBig H) (NXSwapBigLongLongToHost H) (fun x => rev (bytes 8 x)) /\
   converts H 8 (NXSwapHostLongLongToLittle H) (NXSwapLittleLongLongToHost H) (bytes 8)) /\
  (forall junk x, big H = false -> 0 <= x < 2 ^ 32 ->
    NXSwapBigFloatToHost H (NXSwapHostFloatToBig H junk x) = x /\
    NXSwapLittleFloatToHost H (NXSwapHostFloatToLittle H junk x) = x) /\
  (forall junk x, big H = true -> 0 <= junk < 2 ^ 32 -> NXSwapHostFloatToBig H junk x = junk).
Proof.
  destruct (swaps_eq H) as (H16 & H32 & H64). pose proof (OSSwapInt_eq H c) as Hs.
  pose proof (OSSwapInt_eq H false) as Hf.
  split_and!; [exact (proj1 (accesses H 2 _ H16))|exact (proj1 (proj2 (accesses H 2 _ H16)))|
    exact (proj1 (proj2 (proj2 (accesses H 2 _ H16))))|exact (proj2 (proj2 (proj2 (accesses H 2 _ H16))))|..].
  - exact (proj1 (accesses H 4 _ (fun x _ => H32 x))).
  - exact (proj1 (proj2 (accesses H 4 _ (fun x _ => H32 x)))).
  - exact (proj1 (proj2 (proj2 (accesses H 4 _ (fun x _ => H32 x))))).
  - exact (proj2 (proj2 (proj2 (accesses H 4 _ (fun x _ => H32 x))))).
  - exact (proj1 (accesses H 8 _ (fun x _ => H64 x))).
  - exact (proj1 (proj2 (accesses H 8 _ (fun x _ => H64 x)))).
  - exact (proj1 (proj2 (proj2 (accesses H 8 _ (fun x _ => H64 x))))).
  - exact (proj2 (proj2 (proj2 (accesses H 8 _ (fun x _ => H64 x))))).
  - apply (conversion H 2 (OSSwapInt16 H c) wrap16 (fun x => proj1 (Hs x)) (fun _ => eq_refl)).
  - apply (conversion H 2 (OSSwapInt16 H c) wrap16 (fun x => proj1 (Hs x)) (fun _ => eq_refl)).
  - apply (conversion H 4 (OSSwapInt32 H c) wrap32 (fun x => proj1 (proj2 (Hs x))) (fun _ => eq_refl)).
  - apply (conversion H 4 (OSSwapInt32 H c) wrap32 (fun x => proj1 (proj2 (Hs x))) (fun _ => eq_refl)).
  - apply (conversion H 8 (OSSwapInt64 H c) wrap64 (fun x => proj2 (proj2 (Hs x))) (fun _ => eq_refl)).
  - apply (conversion H 8 (OSSwapInt64 H c) wrap64 (fun x => proj2 (proj2 (Hs x))) (fun _ => eq_refl)).
  - apply (conversion H 2 OSSwapConstInt16 wrap16 OSSwapConstInt16_eq (fun _ => eq_refl)).
  - apply (conversion H 4 OSSwapConstInt32 wrap32 OSSwapConstInt32_eq (fun _ => eq_refl)).
  - apply (conversion H 8 OSSwapConstInt64 wrap64 OSSwapConstInt64_eq (fun _ => eq_refl)).
  - apply (conversion H 2 (OSSwapInt16 H c) wrap16 (fun x => proj1 (Hs x)) (fun _ => eq_refl)).
  - apply (conversion H 4 (OSSwapInt32 H c) wrap32 (fun x => proj1 (proj2 (Hs x))) (fun _ => eq_refl)).
  - apply (conversion H 8 (OSSwapInt64 H c) wrap64 (fun x => proj2 (proj2 (Hs x))) (fun _ => eq_refl)).
  - apply (conversion_wrapped H 2 (OSSwapInt16 H false) wrap16 (fun x => proj1 (Hf x)) (fun _ => eq_refl)).
  - apply (conversion_wrapped H 2 (OSSwapInt16 H false) wrap16 (fun x => proj1 (Hf x)) (fun _ => eq_refl)).
  - apply (conversion_wrapped H 4 (OSSwapInt32 H false) wrap32 (fun x => proj1 (proj2 (Hf x))) (fun _ => eq_refl)).
  - apply (conversion_wrapped H 4 (OSSwapInt32 H false) wrap32 (fun x => proj1 (proj2 (Hf x))) (fun _ => eq_refl)).
  - apply (conversion_wrapped H 4 (OSSwapInt32 H false) wrap32 (fun x => proj1 (proj2 (Hf x))) (fun _ => eq_refl)).
  - apply (conversion_wrapped H 4 (OSSwapInt32 H false) wrap32 (fun x => proj1 (proj2 (Hf x))) (fun _ => eq_refl)).
  - apply (conversion_wrapped H 8 (OSSwapInt64 H false) wrap64 (fun x => proj2 (proj2 (Hf x))) (fun _ => eq_refl)).
  - apply (conversion_wrapped H 8 (OSSwapInt64 H false) wrap64 (fun x => proj2 (proj2 (Hf x))) (fun _ => eq_refl)).
  - intros junk x. apply float_roundtrip.
  - intros junk x Hb Hj. unfold NXSwapHostFloatToBig, OSSwapHostToBigInt32, NXConvertHostFloatToSwapped. rewrite Hb.
    unfold wrap32. rewrite Z.mod_mod, Z.add_comm, Z.mod_add by lia. by apply Z.mod_small.
Qed.

End ByteOrder.
