(* ===== verification/KCTypes.v ===== *)
(** * KCTypes: the numbers and the structures of the kcdata format,
    [src/MacKernelSDK/Headers/kern/kcdata.h]

    The header opens with a manifesto: invariants that everybody who edits it
    must keep, since kcdata is stored for the long term.  Module [KCTypes] has
    the magic numbers, the types and the structures, each with the fields and
    the attributes of the source, and checks them against the manifesto and
    against the sizes and ranges the comments record. *)

From Stdlib Require Import ZArith Lia Bool String.
From stdpp Require Import base list option strings.
From S2P Require Import Prelude ByteOrder.
Open Scope Z_scope.

Module KCTypes.

(** ** C layout *)

Inductive cty : Type := char | uint8_t | int16_t | uint16_t | int32_t | uint32_t | uint64_t | array (n : Z) (t : cty).
Definition uuid_t : cty := array 16 char.

Record struct : Type := mkStruct { packed : bool; fields : list (string * cty) }.

Fixpoint size_of (t : cty) : Z :=
  match t with
  | char | uint8_t => 1
  | int16_t | uint16_t => 2
  | int32_t | uint32_t => 4
  | uint64_t => 8
  | array n t => n * size_of t
  end.
Fixpoint align_of (t : cty) : Z := match t with array _ t => align_of t | _ => size_of t end.
Definition align_up (x a : Z) : Z := (x + a - 1) / a * a.

(** Where the fields end, from the offset [off] on. *)
Fixpoint layout_end (pk : bool) (off : Z) (l : list (string * cty)) : Z :=
  match l with
  | [] => off
  | (_, t) :: l => layout_end pk ((if pk then off else align_up off (align_of t)) + size_of t) l
  end.
Definition struct_align (s : struct) : Z := if packed s then 1 else fold_right (fun f a => Z.max (align_of (snd f)) a) 1 (fields s).
Definition sizeof (s : struct) : Z := align_up (layout_end (packed s) 0 (fields s)) (struct_align s).
Definition offsetof (s : struct) (n : nat) : Z := layout_end (packed s) 0 (take n (fields s)).

(** ** Numbers *)

Definition KCDATA_DESC_MAXLEN : Z := 32.
Definition KCDATA_FLAGS_STRUCT_PADDING_MASK : Z := 0xf.
Definition KCDATA_FLAGS_STRUCT_HAS_PADDING : Z := 0x80.
Definition KCDATA_ALIGNMENT_SIZE : Z := 0x10.
Definition KCS_SUBTYPE_FLAGS_NONE : Z := 0x0.
Definition KCS_SUBTYPE_FLAGS_ARRAY : Z := 0x1.
Definition KCS_SUBTYPE_FLAGS_STRUCT : Z := 0x2.
Definition KCS_SUBTYPE_FLAGS_MERGE : Z := 0x4.
Definition KCDATA_TYPE_INVALID : Z := 0x0.
Definition KCDATA_TYPE_STRING_DESC : Z := 0x1.
Definition KCDATA_TYPE_UINT32_DESC : Z := 0x2.
Definition KCDATA_TYPE_UINT64_DESC : Z := 0x3.
Definition KCDATA_TYPE_INT32_DESC : Z := 0x4.
Definition KCDATA_TYPE_INT64_DESC : Z := 0x5.
Definition KCDATA_TYPE_BINDATA_DESC : Z := 0x6.
Definition KCDATA_TYPE_ARRAY : Z := 0x11.
Definition KCDATA_TYPE_TYPEDEFINTION : Z := 0x12.
Definition KCDATA_TYPE_CONTAINER_BEGIN : Z := 0x13.
Definition KCDATA_TYPE_CONTAINER_END : Z := 0x14.
Definition KCDATA_TYPE_ARRAY_PAD0 : Z := 0x20.
Definition KCDATA_TYPE_ARRAY_PAD1 : Z := 0x21.
Definition KCDATA_TYPE_ARRAY_PAD2 : Z := 0x22.
Definition KCDATA_TYPE_ARRAY_PAD3 : Z := 0x23.
Definition KCDATA_TYPE_ARRAY_PAD4 : Z := 0x24.
Definition KCDATA_TYPE_ARRAY_PAD5 : Z := 0x25.
Definition KCDATA_TYPE_ARRAY_PAD6 : Z := 0x26.
Definition KCDATA_TYPE_ARRAY_PAD7 : Z := 0x27.
Definition KCDATA_TYPE_ARRAY_PAD8 : Z := 0x28.
Definition KCDATA_TYPE_ARRAY_PAD9 : Z := 0x29.
Definition KCDATA_TYPE_ARRAY_PADa : Z := 0x2a.
Definition KCDATA_TYPE_ARRAY_PADb : Z := 0x2b.
Definition KCDATA_TYPE_ARRAY_PADc : Z := 0x2c.
Definition KCDATA_TYPE_ARRAY_PADd : Z := 0x2d.
Definition KCDATA_TYPE_ARRAY_PADe : Z := 0x2e.
Definition KCDATA_TYPE_ARRAY_PADf : Z := 0x2f.
Definition KCDATA_TYPE_LIBRARY_LOADINFO : Z := 0x30.
Definition KCDATA_TYPE_LIBRARY_LOADINFO64 : Z := 0x31.
Definition KCDATA_TYPE_TIMEBASE : Z := 0x32.
Definition KCDATA_TYPE_MACH_ABSOLUTE_TIME : Z := 0x33.
Definition KCDATA_TYPE_TIMEVAL : Z := 0x34.
Definition KCDATA_TYPE_USECS_SINCE_EPOCH : Z := 0x35.
Definition KCDATA_TYPE_PID : Z := 0x36.
Definition KCDATA_TYPE_PROCNAME : Z := 0x37.
Definition KCDATA_TYPE_NESTED_KCDATA : Z := 0x38.
Definition KCDATA_TYPE_BUFFER_END : Z := 0xf19158ed.
Definition KCDATA_BUFFER_BEGIN_CRASHINFO : Z := 0xdeadf157.
Definition KCDATA_BUFFER_BEGIN_STACKSHOT : Z := 0x59a25807.
Definition KCDATA_BUFFER_BEGIN_DELTA_STACKSHOT : Z := 0xde17a59a.
Definition KCDATA_BUFFER_BEGIN_OS_REASON : Z := 0x53a20900.
Definition KCDATA_BUFFER_BEGIN_XNUPOST_CONFIG : Z := 0x1e21c09f.
Definition XNUPOST_KCTYPE_TESTCONFIG : Z := 0x1040.
Definition STACKSHOT_IO_NUM_PRIORITIES : Z := 4.
Definition STACKSHOT_KCTYPE_IOSTATS : Z := 0x901.
Definition STACKSHOT_KCTYPE_GLOBAL_MEM_STATS : Z := 0x902.
Definition STACKSHOT_KCCONTAINER_TASK : Z := 0x903.
Definition STACKSHOT_KCCONTAINER_THREAD : Z := 0x904.
Definition STACKSHOT_KCTYPE_TASK_SNAPSHOT : Z := 0x905.
Definition STACKSHOT_KCTYPE_THREAD_SNAPSHOT : Z := 0x906.
Definition STACKSHOT_KCTYPE_DONATING_PIDS : Z := 0x907.
Definition STACKSHOT_KCTYPE_SHAREDCACHE_LOADINFO : Z := 0x908.
Definition STACKSHOT_KCTYPE_THREAD_NAME : Z := 0x909.
Definition STACKSHOT_KCTYPE_KERN_STACKFRAME : Z := 0x90a.
Definition STACKSHOT_KCTYPE_KERN_STACKFRAME64 : Z := 0x90b.
Definition STACKSHOT_KCTYPE_USER_STACKFRAME : Z := 0x90c.
Definition STACKSHOT_KCTYPE_USER_STACKFRAME64 : Z := 0x90d.
Definition STACKSHOT_KCTYPE_BOOTARGS : Z := 0x90e.
Definition STACKSHOT_KCTYPE_OSVERSION : Z := 0x90f.
Definition STACKSHOT_KCTYPE_KERN_PAGE_SIZE : Z := 0x910.
Definition STACKSHOT_KCTYPE_JETSAM_LEVEL : Z := 0x911.
Definition STACKSHOT_KCTYPE_DELTA_SINCE_TIMESTAMP : Z := 0x912.
Definition STACKSHOT_KCTYPE_KERN_STACKLR : Z := 0x913.
Definition STACKSHOT_KCTYPE_KERN_STACKLR64 : Z := 0x914.
Definition STACKSHOT_KCTYPE_USER_STACKLR : Z := 0x915.
Definition STACKSHOT_KCTYPE_USER_STACKLR64 : Z := 0x916.
Definition STACKSHOT_KCTYPE_NONRUNNABLE_TIDS : Z := 0x917.
Definition STACKSHOT_KCTYPE_NONRUNNABLE_TASKS : Z := 0x918.
Definition STACKSHOT_KCTYPE_CPU_TIMES : Z := 0x919.
Definition STACKSHOT_KCTYPE_STACKSHOT_DURATION : Z := 0x91a.
Definition STACKSHOT_KCTYPE_STACKSHOT_FAULT_STATS : Z := 0x91b.
Definition STACKSHOT_KCTYPE_KERNELCACHE_LOADINFO : Z := 0x91c.
Definition STACKSHOT_KCTYPE_THREAD_WAITINFO : Z := 0x91d.
Definition STACKSHOT_KCTYPE_THREAD_GROUP_SNAPSHOT : Z := 0x91e.
Definition STACKSHOT_KCTYPE_THREAD_GROUP : Z := 0x91f.
Definition STACKSHOT_KCTYPE_JETSAM_COALITION_SNAPSHOT : Z := 0x920.
Definition STACKSHOT_KCTYPE_JETSAM_COALITION : Z := 0x921.
Definition STACKSHOT_KCTYPE_THREAD_POLICY_VERSION : Z := 0x922.
Definition STACKSHOT_KCTYPE_INSTRS_CYCLES : Z := 0x923.
Definition STACKSHOT_KCTYPE_USER_STACKTOP : Z := 0x924.
Definition STACKSHOT_KCTYPE_ASID : Z := 0x925.
Definition STACKSHOT_KCTYPE_PAGE_TABLES : Z := 0x926.
Definition STACKSHOT_KCTYPE_SYS_SHAREDCACHE_LAYOUT : Z := 0x927.
Definition STACKSHOT_KCTYPE_THREAD_DISPATCH_QUEUE_LABEL : Z := 0x928.
Definition STACKSHOT_KCTYPE_THREAD_TURNSTILEINFO : Z := 0x929.
Definition STACKSHOT_KCTYPE_TASK_DELTA_SNAPSHOT : Z := 0x940.
Definition STACKSHOT_KCTYPE_THREAD_DELTA_SNAPSHOT : Z := 0x941.
Definition TASK_CRASHINFO_BEGIN : Z := KCDATA_BUFFER_BEGIN_CRASHINFO.
Definition TASK_CRASHINFO_STRING_DESC : Z := KCDATA_TYPE_STRING_DESC.
Definition TASK_CRASHINFO_UINT32_DESC : Z := KCDATA_TYPE_UINT32_DESC.
Definition TASK_CRASHINFO_UINT64_DESC : Z := KCDATA_TYPE_UINT64_DESC.
Definition TASK_CRASHINFO_EXTMODINFO : Z := 0x801.
Definition TASK_CRASHINFO_BSDINFOWITHUNIQID : Z := 0x802.
Definition TASK_CRASHINFO_TASKDYLD_INFO : Z := 0x803.
Definition TASK_CRASHINFO_UUID : Z := 0x804.
Definition TASK_CRASHINFO_PID : Z := 0x805.
Definition TASK_CRASHINFO_PPID : Z := 0x806.
Definition TASK_CRASHINFO_RUSAGE : Z := 0x807.
Definition TASK_CRASHINFO_RUSAGE_INFO : Z := 0x808.
Definition TASK_CRASHINFO_PROC_NAME : Z := 0x809.
Definition TASK_CRASHINFO_PROC_STARTTIME : Z := 0x80b.
Definition TASK_CRASHINFO_USERSTACK : Z := 0x80c.
Definition TASK_CRASHINFO_ARGSLEN : Z := 0x80d.
Definition TASK_CRASHINFO_EXCEPTION_CODES : Z := 0x80e.
Definition TASK_CRASHINFO_PROC_PATH : Z := 0x80f.
Definition TASK_CRASHINFO_PROC_CSFLAGS : Z := 0x810.
Definition TASK_CRASHINFO_PROC_STATUS : Z := 0x811.
Definition TASK_CRASHINFO_UID : Z := 0x812.
Definition TASK_CRASHINFO_GID : Z := 0x813.
Definition TASK_CRASHINFO_PROC_ARGC : Z := 0x814.
Definition TASK_CRASHINFO_PROC_FLAGS : Z := 0x815.
Definition TASK_CRASHINFO_CPUTYPE : Z := 0x816.
Definition TASK_CRASHINFO_WORKQUEUEINFO : Z := 0x817.
Definition TASK_CRASHINFO_RESPONSIBLE_PID : Z := 0x818.
Definition TASK_CRASHINFO_DIRTY_FLAGS : Z := 0x819.
Definition TASK_CRASHINFO_CRASHED_THREADID : Z := 0x81a.
Definition TASK_CRASHINFO_COALITION_ID : Z := 0x81b.
Definition TASK_CRASHINFO_UDATA_PTRS : Z := 0x81c.
Definition TASK_CRASHINFO_MEMORY_LIMIT : Z := 0x81d.
Definition TASK_CRASHINFO_LEDGER_INTERNAL : Z := 0x81e.
Definition TASK_CRASHINFO_LEDGER_INTERNAL_COMPRESSED : Z := 0x81f.
Definition TASK_CRASHINFO_LEDGER_IOKIT_MAPPED : Z := 0x820.
Definition TASK_CRASHINFO_LEDGER_ALTERNATE_ACCOUNTING : Z := 0x821.
Definition TASK_CRASHINFO_LEDGER_ALTERNATE_ACCOUNTING_COMPRESSED : Z := 0x822.
Definition TASK_CRASHINFO_LEDGER_PURGEABLE_NONVOLATILE : Z := 0x823.
Definition TASK_CRASHINFO_LEDGER_PURGEABLE_NONVOLATILE_COMPRESSED : Z := 0x824.
Definition TASK_CRASHINFO_LEDGER_PAGE_TABLE : Z := 0x825.
Definition TASK_CRASHINFO_LEDGER_PHYS_FOOTPRINT : Z := 0x826.
Definition TASK_CRASHINFO_LEDGER_PHYS_FOOTPRINT_LIFETIME_MAX : Z := 0x827.
Definition TASK_CRASHINFO_LEDGER_NETWORK_NONVOLATILE : Z := 0x828.
Definition TASK_CRASHINFO_LEDGER_NETWORK_NONVOLATILE_COMPRESSED : Z := 0x829.
Definition TASK_CRASHINFO_LEDGER_WIRED_MEM : Z := 0x82a.
Definition TASK_CRASHINFO_PROC_PERSONA_ID : Z := 0x82b.
Definition TASK_CRASHINFO_MEMORY_LIMIT_INCREASE : Z := 0x82c.
Definition TASK_CRASHINFO_END : Z := KCDATA_TYPE_BUFFER_END.
Definition EXIT_REASON_SNAPSHOT : Z := 0x1001.
Definition EXIT_REASON_USER_DESC : Z := 0x1002.
Definition EXIT_REASON_USER_PAYLOAD : Z := 0x1003.
Definition EXIT_REASON_CODESIGNING_INFO : Z := 0x1004.
Definition EXIT_REASON_WORKLOOP_ID : Z := 0x1005.
Definition EXIT_REASON_DISPATCH_QUEUE_NO : Z := 0x1006.
Definition EXIT_REASON_CODESIG_PATH_MAX : Z := 1024.

(** ** Structures *)

Definition stack_snapshot_frame32 : struct := mkStruct false [
  ("lr"%string, uint32_t); ("sp"%string, uint32_t)].

Definition stack_snapshot_frame64 : struct := mkStruct false [
  ("lr"%string, uint64_t); ("sp"%string, uint64_t)].

Definition dyld_uuid_info_32 : struct := mkStruct false [
  ("imageLoadAddress"%string, uint32_t); ("imageUUID"%string, uuid_t)].

Definition dyld_uuid_info_64 : struct := mkStruct false [
  ("imageLoadAddress"%string, uint64_t); ("imageUUID"%string, uuid_t)].

Definition dyld_uuid_info_64_v2 : struct := mkStruct false [
  ("imageLoadAddress"%string, uint64_t); ("imageUUID"%string, uuid_t); ("imageSlidBaseAddress"%string, uint64_t)].

Definition user32_dyld_uuid_info : struct := mkStruct false [
  ("imageLoadAddress"%string, uint32_t); ("imageUUID"%string, uuid_t)].

Definition user64_dyld_uuid_info : struct := mkStruct false [
  ("imageLoadAddress"%string, uint64_t); ("imageUUID"%string, uuid_t)].

Definition mem_and_io_snapshot : struct := mkStruct true [
  ("snapshot_magic"%string, uint32_t); ("free_pages"%string, uint32_t); ("active_pages"%string, uint32_t);
  ("inactive_pages"%string, uint32_t); ("purgeable_pages"%string, uint32_t); ("wired_pages"%string, uint32_t);
  ("speculative_pages"%string, uint32_t); ("throttled_pages"%string, uint32_t);
  ("filebacked_pages"%string, uint32_t); ("compressions"%string, uint32_t);
  ("decompressions"%string, uint32_t); ("compressor_size"%string, uint32_t);
  ("busy_buffer_count"%string, int32_t); ("pages_wanted"%string, uint32_t);
  ("pages_reclaimed"%string, uint32_t); ("pages_wanted_reclaimed_valid"%string, uint8_t)].

Definition thread_snapshot_v2 : struct := mkStruct true [
  ("ths_thread_id"%string, uint64_t); ("ths_wait_event"%string, uint64_t);
  ("ths_continuation"%string, uint64_t); ("ths_total_syscalls"%string, uint64_t);
  ("ths_voucher_identifier"%string, uint64_t); ("ths_dqserialnum"%string, uint64_t);
  ("ths_user_time"%string, uint64_t); ("ths_sys_time"%string, uint64_t); ("ths_ss_flags"%string, uint64_t);
  ("ths_last_run_time"%string, uint64_t); ("ths_last_made_runnable_time"%string, uint64_t);
  ("ths_state"%string, uint32_t); ("ths_sched_flags"%string, uint32_t); ("ths_base_priority"%string, int16_t);
  ("ths_sched_priority"%string, int16_t); ("ths_eqos"%string, uint8_t); ("ths_rqos"%string, uint8_t);
  ("ths_rqos_override"%string, uint8_t); ("ths_io_tier"%string, uint8_t)].

Definition thread_snapshot_v3 : struct := mkStruct true [
  ("ths_thread_id"%string, uint64_t); ("ths_wait_event"%string, uint64_t);
  ("ths_continuation"%string, uint64_t); ("ths_total_syscalls"%string, uint64_t);
  ("ths_voucher_identifier"%string, uint64_t); ("ths_dqserialnum"%string, uint64_t);
  ("ths_user_time"%string, uint64_t); ("ths_sys_time"%string, uint64_t); ("ths_ss_flags"%string, uint64_t);
  ("ths_last_run_time"%string, uint64_t); ("ths_last_made_runnable_time"%string, uint64_t);
  ("ths_state"%string, uint32_t); ("ths_sched_flags"%string, uint32_t); ("ths_base_priority"%string, int16_t);
  ("ths_sched_priority"%string, int16_t); ("ths_eqos"%string, uint8_t); ("ths_rqos"%string, uint8_t);
  ("ths_rqos_override"%string, uint8_t); ("ths_io_tier"%string, uint8_t); ("ths_thread_t"%string, uint64_t)].

Definition thread_snapshot_v4 : struct := mkStruct true [
  ("ths_thread_id"%string, uint64_t); ("ths_wait_event"%string, uint64_t);
  ("ths_continuation"%string, uint64_t); ("ths_total_syscalls"%string, uint64_t);
  ("ths_voucher_identifier"%string, uint64_t); ("ths_dqserialnum"%string, uint64_t);
  ("ths_user_time"%string, uint64_t); ("ths_sys_time"%string, uint64_t); ("ths_ss_flags"%string, uint64_t);
  ("ths_last_run_time"%string, uint64_t); ("ths_last_made_runnable_time"%string, uint64_t);
  ("ths_state"%string, uint32_t); ("ths_sched_flags"%string, uint32_t); ("ths_base_priority"%string, int16_t);
  ("ths_sched_priority"%string, int16_t); ("ths_eqos"%string, uint8_t); ("ths_rqos"%string, uint8_t);
  ("ths_rqos_override"%string, uint8_t); ("ths_io_tier"%string, uint8_t); ("ths_thread_t"%string, uint64_t);
  ("ths_requested_policy"%string, uint64_t); ("ths_effective_policy"%string, uint64_t)].

Definition thread_group_snapshot : struct := mkStruct true [
  ("tgs_id"%string, uint64_t); ("tgs_name"%string, array 16 char)].

Definition thread_group_snapshot_v2 : struct := mkStruct true [
  ("tgs_id"%string, uint64_t); ("tgs_name"%string, array 16 char); ("tgs_flags"%string, uint64_t)].

Definition jetsam_coalition_snapshot : struct := mkStruct true [
  ("jcs_id"%string, uint64_t); ("jcs_flags"%string, uint64_t); ("jcs_thread_group"%string, uint64_t);
  ("jcs_leader_task_uniqueid"%string, uint64_t)].

Definition instrs_cycles_snapshot : struct := mkStruct true [
  ("ics_instructions"%string, uint64_t); ("ics_cycles"%string, uint64_t)].

Definition thread_delta_snapshot_v2 : struct := mkStruct true [
  ("tds_thread_id"%string, uint64_t); ("tds_voucher_identifier"%string, uint64_t);
  ("tds_ss_flags"%string, uint64_t); ("tds_last_made_runnable_time"%string, uint64_t);
  ("tds_state"%string, uint32_t); ("tds_sched_flags"%string, uint32_t); ("tds_base_priority"%string, int16_t);
  ("tds_sched_priority"%string, int16_t); ("tds_eqos"%string, uint8_t); ("tds_rqos"%string, uint8_t);
  ("tds_rqos_override"%string, uint8_t); ("tds_io_tier"%string, uint8_t)].

Definition thread_delta_snapshot_v3 : struct := mkStruct true [
  ("tds_thread_id"%string, uint64_t); ("tds_voucher_identifier"%string, uint64_t);
  ("tds_ss_flags"%string, uint64_t); ("tds_last_made_runnable_time"%string, uint64_t);
  ("tds_state"%string, uint32_t); ("tds_sched_flags"%string, uint32_t); ("tds_base_priority"%string, int16_t);
  ("tds_sched_priority"%string, int16_t); ("tds_eqos"%string, uint8_t); ("tds_rqos"%string, uint8_t);
  ("tds_rqos_override"%string, uint8_t); ("tds_io_tier"%string, uint8_t);
  ("tds_requested_policy"%string, uint64_t); ("tds_effective_policy"%string, uint64_t)].

Definition io_stats_snapshot : struct := mkStruct true [
  ("ss_disk_reads_count"%string, uint64_t); ("ss_disk_reads_size"%string, uint64_t);
  ("ss_disk_writes_count"%string, uint64_t); ("ss_disk_writes_size"%string, uint64_t);
  ("ss_io_priority_count"%string, array STACKSHOT_IO_NUM_PRIORITIES uint64_t);
  ("ss_io_priority_size"%string, array STACKSHOT_IO_NUM_PRIORITIES uint64_t);
  ("ss_paging_count"%string, uint64_t); ("ss_paging_size"%string, uint64_t);
  ("ss_non_paging_count"%string, uint64_t); ("ss_non_paging_size"%string, uint64_t);
  ("ss_data_count"%string, uint64_t); ("ss_data_size"%string, uint64_t);
  ("ss_metadata_count"%string, uint64_t); ("ss_metadata_size"%string, uint64_t)].

Definition task_snapshot_v2 : struct := mkStruct true [
  ("ts_unique_pid"%string, uint64_t); ("ts_ss_flags"%string, uint64_t);
  ("ts_user_time_in_terminated_threads"%string, uint64_t);
  ("ts_system_time_in_terminated_threads"%string, uint64_t); ("ts_p_start_sec"%string, uint64_t);
  ("ts_task_size"%string, uint64_t); ("ts_max_resident_size"%string, uint64_t);
  ("ts_suspend_count"%string, uint32_t); ("ts_faults"%string, uint32_t); ("ts_pageins"%string, uint32_t);
  ("ts_cow_faults"%string, uint32_t); ("ts_was_throttled"%string, uint32_t);
  ("ts_did_throttle"%string, uint32_t); ("ts_latency_qos"%string, uint32_t); ("ts_pid"%string, int32_t);
  ("ts_p_comm"%string, array 32 char)].

Definition task_delta_snapshot_v2 : struct := mkStruct true [
  ("tds_unique_pid"%string, uint64_t); ("tds_ss_flags"%string, uint64_t);
  ("tds_user_time_in_terminated_threads"%string, uint64_t);
  ("tds_system_time_in_terminated_threads"%string, uint64_t); ("tds_task_size"%string, uint64_t);
  ("tds_max_resident_size"%string, uint64_t); ("tds_suspend_count"%string, uint32_t);
  ("tds_faults"%string, uint32_t); ("tds_pageins"%string, uint32_t); ("tds_cow_faults"%string, uint32_t);
  ("tds_was_throttled"%string, uint32_t); ("tds_did_throttle"%string, uint32_t);
  ("tds_latency_qos"%string, uint32_t)].

Definition stackshot_cpu_times : struct := mkStruct true [
  ("user_usec"%string, uint64_t); ("system_usec"%string, uint64_t)].

Definition stackshot_cpu_times_v2 : struct := mkStruct true [
  ("user_usec"%string, uint64_t); ("system_usec"%string, uint64_t); ("runnable_usec"%string, uint64_t)].

Definition stackshot_duration : struct := mkStruct true [
  ("stackshot_duration"%string, uint64_t); ("stackshot_duration_outer"%string, uint64_t)].

Definition stackshot_fault_stats : struct := mkStruct true [
  ("sfs_pages_faulted_in"%string, uint32_t); ("sfs_time_spent_faulting"%string, uint64_t);
  ("sfs_system_max_fault_time"%string, uint64_t); ("sfs_stopped_faulting"%string, uint8_t)].

Definition stackshot_thread_waitinfo : struct := mkStruct true [
  ("owner"%string, uint64_t); ("waiter"%string, uint64_t); ("context"%string, uint64_t);
  ("wait_type"%string, uint8_t)].

Definition stackshot_thread_turnstileinfo : struct := mkStruct true [
  ("waiter"%string, uint64_t); ("turnstile_context"%string, uint64_t); ("turnstile_priority"%string, uint8_t);
  ("number_of_hops"%string, uint8_t); ("turnstile_flags"%string, uint64_t)].

Definition stack_snapshot_stacktop : struct := mkStruct false [
  ("sp"%string, uint64_t); ("stack_contents"%string, array 8 uint8_t)].

Definition crashinfo_proc_uniqidentifierinfo : struct := mkStruct true [
  ("p_uuid"%string, array 16 uint8_t); ("p_uniqueid"%string, uint64_t); ("p_puniqueid"%string, uint64_t);
  ("p_reserve2"%string, uint64_t); ("p_reserve3"%string, uint64_t); ("p_reserve4"%string, uint64_t)].

Definition exit_reason_snapshot : struct := mkStruct true [
  ("ers_namespace"%string, uint32_t); ("ers_code"%string, uint64_t); ("ers_flags"%string, uint64_t)].

Definition codesigning_exit_reason_info : struct := mkStruct true [
  ("ceri_virt_addr"%string, uint64_t); ("ceri_file_offset"%string, uint64_t);
  ("ceri_pathname"%string, array EXIT_REASON_CODESIG_PATH_MAX char);
  ("ceri_filename"%string, array EXIT_REASON_CODESIG_PATH_MAX char);
  ("ceri_codesig_modtime_secs"%string, uint64_t); ("ceri_codesig_modtime_nsecs"%string, uint64_t);
  ("ceri_page_modtime_secs"%string, uint64_t); ("ceri_page_modtime_nsecs"%string, uint64_t);
  ("ceri_path_truncated"%string, uint8_t); ("ceri_object_codesigned"%string, uint8_t);
  ("ceri_page_codesig_validated"%string, uint8_t); ("ceri_page_codesig_tainted"%string, uint8_t);
  ("ceri_page_codesig_nx"%string, uint8_t); ("ceri_page_wpmapped"%string, uint8_t);
  ("ceri_page_slid"%string, uint8_t); ("ceri_page_dirty"%string, uint8_t);
  ("ceri_page_shadow_depth"%string, uint32_t)].

Definition structs : list struct := [
  stack_snapshot_frame32; stack_snapshot_frame64; dyld_uuid_info_32; dyld_uuid_info_64; dyld_uuid_info_64_v2;
  user32_dyld_uuid_info; user64_dyld_uuid_info; mem_and_io_snapshot; thread_snapshot_v2; thread_snapshot_v3;
  thread_snapshot_v4; thread_group_snapshot; thread_group_snapshot_v2; jetsam_coalition_snapshot;
  instrs_cycles_snapshot; thread_delta_snapshot_v2; thread_delta_snapshot_v3; io_stats_snapshot;
  task_snapshot_v2; task_delta_snapshot_v2; stackshot_cpu_times; stackshot_cpu_times_v2; stackshot_duration;
  stackshot_fault_stats; stackshot_thread_waitinfo; stackshot_thread_turnstileinfo; stack_snapshot_stacktop;
  crashinfo_proc_uniqidentifierinfo; exit_reason_snapshot; codesigning_exit_reason_info].

(** The structures that extend another one. *)
Definition versions : list (struct * struct) := [
  (dyld_uuid_info_64, dyld_uuid_info_64_v2); (thread_snapshot_v2, thread_snapshot_v3);
  (thread_snapshot_v3, thread_snapshot_v4); (thread_group_snapshot, thread_group_snapshot_v2);
  (thread_delta_snapshot_v2, thread_delta_snapshot_v3); (stackshot_cpu_times, stackshot_cpu_times_v2)].

Definition magics : list Z := [
  KCDATA_BUFFER_BEGIN_CRASHINFO; KCDATA_BUFFER_BEGIN_STACKSHOT; KCDATA_BUFFER_BEGIN_DELTA_STACKSHOT;
  KCDATA_BUFFER_BEGIN_OS_REASON; KCDATA_BUFFER_BEGIN_XNUPOST_CONFIG; KCDATA_TYPE_BUFFER_END].

(** The types and the range each group of them has to itself. *)
Definition type_ranges : list (Z * Z * list Z) := [
  (0x0, 0x7ff, [
  KCDATA_TYPE_INVALID; KCDATA_TYPE_STRING_DESC; KCDATA_TYPE_UINT32_DESC; KCDATA_TYPE_UINT64_DESC;
  KCDATA_TYPE_INT32_DESC; KCDATA_TYPE_INT64_DESC; KCDATA_TYPE_BINDATA_DESC; KCDATA_TYPE_ARRAY;
  KCDATA_TYPE_TYPEDEFINTION; KCDATA_TYPE_CONTAINER_BEGIN; KCDATA_TYPE_CONTAINER_END; KCDATA_TYPE_ARRAY_PAD0;
  KCDATA_TYPE_ARRAY_PAD1; KCDATA_TYPE_ARRAY_PAD2; KCDATA_TYPE_ARRAY_PAD3; KCDATA_TYPE_ARRAY_PAD4;
  KCDATA_TYPE_ARRAY_PAD5; KCDATA_TYPE_ARRAY_PAD6; KCDATA_TYPE_ARRAY_PAD7; KCDATA_TYPE_ARRAY_PAD8;
  KCDATA_TYPE_ARRAY_PAD9; KCDATA_TYPE_ARRAY_PADa; KCDATA_TYPE_ARRAY_PADb; KCDATA_TYPE_ARRAY_PADc;
  KCDATA_TYPE_ARRAY_PADd; KCDATA_TYPE_ARRAY_PADe; KCDATA_TYPE_ARRAY_PADf; KCDATA_TYPE_LIBRARY_LOADINFO;
  KCDATA_TYPE_LIBRARY_LOADINFO64; KCDATA_TYPE_TIMEBASE; KCDATA_TYPE_MACH_ABSOLUTE_TIME; KCDATA_TYPE_TIMEVAL;
  KCDATA_TYPE_USECS_SINCE_EPOCH; KCDATA_TYPE_PID; KCDATA_TYPE_PROCNAME; KCDATA_TYPE_NESTED_KCDATA]);
  (0x800, 0x8ff, [
  TASK_CRASHINFO_EXTMODINFO; TASK_CRASHINFO_BSDINFOWITHUNIQID; TASK_CRASHINFO_TASKDYLD_INFO;
  TASK_CRASHINFO_UUID; TASK_CRASHINFO_PID; TASK_CRASHINFO_PPID; TASK_CRASHINFO_RUSAGE;
  TASK_CRASHINFO_RUSAGE_INFO; TASK_CRASHINFO_PROC_NAME; TASK_CRASHINFO_PROC_STARTTIME;
  TASK_CRASHINFO_USERSTACK; TASK_CRASHINFO_ARGSLEN; TASK_CRASHINFO_EXCEPTION_CODES; TASK_CRASHINFO_PROC_PATH;
  TASK_CRASHINFO_PROC_CSFLAGS; TASK_CRASHINFO_PROC_STATUS; TASK_CRASHINFO_UID; TASK_CRASHINFO_GID;
  TASK_CRASHINFO_PROC_ARGC; TASK_CRASHINFO_PROC_FLAGS; TASK_CRASHINFO_CPUTYPE; TASK_CRASHINFO_WORKQUEUEINFO;
  TASK_CRASHINFO_RESPONSIBLE_PID; TASK_CRASHINFO_DIRTY_FLAGS; TASK_CRASHINFO_CRASHED_THREADID;
  TASK_CRASHINFO_COALITION_ID; TASK_CRASHINFO_UDATA_PTRS; TASK_CRASHINFO_MEMORY_LIMIT;
  TASK_CRASHINFO_LEDGER_INTERNAL; TASK_CRASHINFO_LEDGER_INTERNAL_COMPRESSED;
  TASK_CRASHINFO_LEDGER_IOKIT_MAPPED; TASK_CRASHINFO_LEDGER_ALTERNATE_ACCOUNTING;
  TASK_CRASHINFO_LEDGER_ALTERNATE_ACCOUNTING_COMPRESSED; TASK_CRASHINFO_LEDGER_PURGEABLE_NONVOLATILE;
  TASK_CRASHINFO_LEDGER_PURGEABLE_NONVOLATILE_COMPRESSED; TASK_CRASHINFO_LEDGER_PAGE_TABLE;
  TASK_CRASHINFO_LEDGER_PHYS_FOOTPRINT; TASK_CRASHINFO_LEDGER_PHYS_FOOTPRINT_LIFETIME_MAX;
  TASK_CRASHINFO_LEDGER_NETWORK_NONVOLATILE; TASK_CRASHINFO_LEDGER_NETWORK_NONVOLATILE_COMPRESSED;
  TASK_CRASHINFO_LEDGER_WIRED_MEM; TASK_CRASHINFO_PROC_PERSONA_ID; TASK_CRASHINFO_MEMORY_LIMIT_INCREASE]);
  (0x900, 0x93f, [
  STACKSHOT_KCTYPE_IOSTATS; STACKSHOT_KCTYPE_GLOBAL_MEM_STATS; STACKSHOT_KCCONTAINER_TASK;
  STACKSHOT_KCCONTAINER_THREAD; STACKSHOT_KCTYPE_TASK_SNAPSHOT; STACKSHOT_KCTYPE_THREAD_SNAPSHOT;
  STACKSHOT_KCTYPE_DONATING_PIDS; STACKSHOT_KCTYPE_SHAREDCACHE_LOADINFO; STACKSHOT_KCTYPE_THREAD_NAME;
  STACKSHOT_KCTYPE_KERN_STACKFRAME; STACKSHOT_KCTYPE_KERN_STACKFRAME64; STACKSHOT_KCTYPE_USER_STACKFRAME;
  STACKSHOT_KCTYPE_USER_STACKFRAME64; STACKSHOT_KCTYPE_BOOTARGS; STACKSHOT_KCTYPE_OSVERSION;
  STACKSHOT_KCTYPE_KERN_PAGE_SIZE; STACKSHOT_KCTYPE_JETSAM_LEVEL; STACKSHOT_KCTYPE_DELTA_SINCE_TIMESTAMP;
  STACKSHOT_KCTYPE_KERN_STACKLR; STACKSHOT_KCTYPE_KERN_STACKLR64; STACKSHOT_KCTYPE_USER_STACKLR;
  STACKSHOT_KCTYPE_USER_STACKLR64; STACKSHOT_KCTYPE_NONRUNNABLE_TIDS; STACKSHOT_KCTYPE_NONRUNNABLE_TASKS;
  STACKSHOT_KCTYPE_CPU_TIMES; STACKSHOT_KCTYPE_STACKSHOT_DURATION; STACKSHOT_KCTYPE_STACKSHOT_FAULT_STATS;
  STACKSHOT_KCTYPE_KERNELCACHE_LOADINFO; STACKSHOT_KCTYPE_THREAD_WAITINFO;
  STACKSHOT_KCTYPE_THREAD_GROUP_SNAPSHOT; STACKSHOT_KCTYPE_THREAD_GROUP;
  STACKSHOT_KCTYPE_JETSAM_COALITION_SNAPSHOT; STACKSHOT_KCTYPE_JETSAM_COALITION;
  STACKSHOT_KCTYPE_THREAD_POLICY_VERSION; STACKSHOT_KCTYPE_INSTRS_CYCLES; STACKSHOT_KCTYPE_USER_STACKTOP;
  STACKSHOT_KCTYPE_ASID; STACKSHOT_KCTYPE_PAGE_TABLES; STACKSHOT_KCTYPE_SYS_SHAREDCACHE_LAYOUT;
  STACKSHOT_KCTYPE_THREAD_DISPATCH_QUEUE_LABEL; STACKSHOT_KCTYPE_THREAD_TURNSTILEINFO]);
  (0x940, 0x9ff, [
  STACKSHOT_KCTYPE_TASK_DELTA_SNAPSHOT; STACKSHOT_KCTYPE_THREAD_DELTA_SNAPSHOT]);
  (0x1000, 0x103f, [
  EXIT_REASON_SNAPSHOT; EXIT_REASON_USER_DESC; EXIT_REASON_USER_PAYLOAD; EXIT_REASON_CODESIGNING_INFO;
  EXIT_REASON_WORKLOOP_ID; EXIT_REASON_DISPATCH_QUEUE_NO]);
  (0x1040, 0x105f, [
  XNUPOST_KCTYPE_TESTCONFIG])].

Definition types : list Z := concat (map snd type_ranges).

#[global] Instance cty_eq_dec : EqDecision cty.
Proof. solve_decision. Defined.

Definition total (l : list (string * cty)) : Z := fold_right (fun f a => size_of (snd f) + a) 0 l.

(** C37. The manifesto holds.  No structure has padding, packed or not: every
    field starts where the one before it ends.  A newer version of a structure
    has the fields of the older one, in order, and more behind them; the sizes
    the comments record are right.  No magic number is the byte swap of one,
    itself included.  All types are different, and each is in the range of its
    group. *)
Theorem kcdata_format :
  Forall (fun s => sizeof s = total (fields s) /\ forall n, offsetof s n = total (take n (fields s))) structs /\
  Forall (fun v => fields v.1 `prefix_of` fields v.2 /\ sizeof v.1 < sizeof v.2) versions /\
  (sizeof thread_snapshot_v2 = 0x68 /\ sizeof thread_snapshot_v3 = 0x70 /\ sizeof dyld_uuid_info_64 = 24 /\
   offsetof exit_reason_snapshot 2 = 12) /\
  (forall a b, a ∈ magics -> b ∈ magics -> ByteOrder.bswap 4 a <> b) /\
  NoDup types /\
  Forall (fun g => Forall (fun t => g.1.1 <= t <= g.1.2) g.2) type_ranges.
Proof.
  split.
  { assert (H : forallb (fun s => (sizeof s =? total (fields s)) &&
      forallb (fun n => offsetof s n =? total (take n (fields s))) (seq 0 (Datatypes.S (length (fields s))))) structs = true)
      by (vm_compute; reflexivity).
    rewrite forallb_forall in H. apply List.Forall_forall. intros s Hs. specialize (H s Hs).
    apply andb_true_iff in H as [H1 H2]. split; [lia|]. rewrite forallb_forall in H2. intros n.
    destruct (decide (n <= length (fields s))%nat) as [Hn|Hn].
    - apply Z.eqb_eq, H2, in_seq. lia.
    - specialize (H2 (length (fields s))). unfold offsetof in *. rewrite (take_ge _ n) by lia.
      rewrite take_ge in H2 by lia. apply Z.eqb_eq, H2, in_seq. lia. }
  split; [repeat (apply List.Forall_cons; [split; [vm_compute; eexists; reflexivity|vm_compute; reflexivity]|]); constructor|].
  split; [vm_compute; tauto|]. split.
  { assert (H : forallb (fun a => forallb (fun b => negb (ByteOrder.bswap 4 a =? b)) magics) magics = true) by (vm_compute; reflexivity).
    intros a b Ha Hb E. rewrite forallb_forall in H. specialize (H a (proj1 (list_elem_of_In _ _) Ha)).
    rewrite forallb_forall in H. specialize (H b (proj1 (list_elem_of_In _ _) Hb)). by rewrite (proj2 (Z.eqb_eq _ _) E) in H. }
  split; [apply (bool_decide_unpack _); vm_compute; exact I|].
  assert (H : forallb (fun g => forallb (fun t => (g.1.1 <=? t) && (t <=? g.1.2)) g.2) type_ranges = true) by (vm_compute; reflexivity).
  rewrite forallb_forall in H. apply List.Forall_forall. intros g Hg. specialize (H g Hg). rewrite forallb_forall in H.
  apply List.Forall_forall. intros t Ht. specialize (H t Ht). lia.
Qed.

End KCTypes.
