(* ===== verification/KCData.v ===== *)
(** * KCData: the iterators over kcdata buffers,
    [src/MacKernelSDK/Headers/kern/kcdata.h]

    A kcdata buffer is a sequence of items, each a header of 16 bytes with the
    type, the size of the data and flags, and the data.  The header calls its
    iterators safe: they take a buffer from anywhere.  Module [KCData] has all
    of them on a memory of bytes, for both byte orders; an access outside of
    the mapped memory faults.  [KCDataSpec] has the theorems. *)

From Stdlib Require Import ZArith Lia Bool.
From stdpp Require Import base list option gmap.
From S2P Require Import Prelude Ring ByteOrder KCTypes.
Import KCTypes.
Open Scope Z_scope.

Module KCData.

(** ** Descriptions of types *)

Definition KCS_SUBTYPE_PACK_SIZE (e_count e_size : Z) : Z := Z.lor (Z.shiftl (Z.land e_count 0xffff) 16) (Z.land e_size 0xffff).

Record kcdata_subtype_descriptor : Type := mkDesc {
  kcs_flags : Z; kcs_elem_type : Z; kcs_elem_offset : Z; kcs_elem_size : Z; kcs_name : list Z
}.

Definition kcs_get_elem_size (d : kcdata_subtype_descriptor) : Z :=
  if negb (Z.land (kcs_flags d) KCS_SUBTYPE_FLAGS_ARRAY =? 0) then
    wrap32 (Z.land (kcs_elem_size d) 0xffff * Z.shiftr (Z.land (kcs_elem_size d) 0xffff0000) 16)
  else kcs_elem_size d.

Definition kcs_get_elem_count (d : kcdata_subtype_descriptor) : Z :=
  if negb (Z.land (kcs_flags d) KCS_SUBTYPE_FLAGS_ARRAY =? 0) then Z.land (Z.shiftr (kcs_elem_size d) 16) 0xffff else 1.

Definition set_kcs_elem_size (d : kcdata_subtype_descriptor) (v : Z) : kcdata_subtype_descriptor :=
  mkDesc (kcs_flags d) (kcs_elem_type d) (kcs_elem_offset d) v (kcs_name d).

(** The result and the descriptor behind the pointer. *)
Definition kcs_set_elem_size (d : kcdata_subtype_descriptor) (size count : Z) : Z * kcdata_subtype_descriptor :=
  if 1 <? count then
    if (0xffff <? size) || (0xffff <? count) then (-1, d)
    else (0, set_kcs_elem_size d (Z.lor (Z.shiftl (Z.land count 0xffff) 16) (Z.land size 0xffff)))
  else (0, set_kcs_elem_size d size).

(** ** Iterators *)

Definition sizeof_kcdata_item : Z := 16.

Record kcdata_iter_t : Type := mkIter { item : Z; end_ : Z }.

Definition kcdata_iter (buffer size : Z) : kcdata_iter_t := mkIter buffer (wrap64 (buffer + size)).
Definition kcdata_iter_unsafe (buffer : Z) : kcdata_iter_t := mkIter buffer (2 ^ 64 - 1).
Definition kcdata_invalid_iter : kcdata_iter_t := mkIter NULL NULL.

Definition kcdata_iter_payload (iter : kcdata_iter_t) : Z := item iter + sizeof_kcdata_item.

Definition kcdata_calc_padding (size : Z) : Z := Z.land (wrap32 (- size)) 0xf.
Definition kcdata_flags_get_padding (flags : Z) : Z := wrap32 (Z.land flags KCDATA_FLAGS_STRUCT_PADDING_MASK).

Section Iterators.
(** The byte order of the machine. *)
Context (H : ByteOrder.host).

(** The fields of the item: [type], [size] and [flags]. *)
Definition item_type (iter : kcdata_iter_t) : M mem Z := ByteOrder.load_word H 4 (item iter).
Definition item_size (iter : kcdata_iter_t) : M mem Z := ByteOrder.load_word H 4 (item iter + 4).
Definition item_flags (iter : kcdata_iter_t) : M mem Z := ByteOrder.load_word H 8 (item iter + 8).

Definition kcdata_iter_valid (iter : kcdata_iter_t) : M mem bool :=
  if wrap64 (item iter + sizeof_kcdata_item) <=? end_ iter then
    size <- item_size iter ;;
    ret (wrap64 (item iter + sizeof_kcdata_item + size) <=? end_ iter)
  else ret false.

Definition kcdata_iter_next (iter : kcdata_iter_t) : M mem kcdata_iter_t :=
  size <- item_size iter ;;
  ret (mkIter (wrap64 (item iter + sizeof_kcdata_item + size)) (end_ iter)).

Definition kcdata_iter_type (iter : kcdata_iter_t) : M mem Z :=
  type <- item_type iter ;;
  if Z.land type 0xfffffff0 =? KCDATA_TYPE_ARRAY_PAD0 then ret KCDATA_TYPE_ARRAY
  else item_type iter.

Definition kcdata_iter_is_legacy_item (iter : kcdata_iter_t) (legacy_size : Z) : M mem bool :=
  let legacy_size_padded := wrap32 (legacy_size + kcdata_calc_padding legacy_size) in
  size <- item_size iter ;;
  if size =? legacy_size_padded then
    flags <- item_flags iter ;;
    ret (Z.land flags (Z.lor KCDATA_FLAGS_STRUCT_PADDING_MASK KCDATA_FLAGS_STRUCT_HAS_PADDING) =? 0)
  else ret false.

Definition not_legacy (iter : kcdata_iter_t) : M mem Z :=
  size <- item_size iter ;;
  flags <- item_flags iter ;;
  if size <? kcdata_flags_get_padding flags then ret 0
  else
    size <- item_size iter ;;
    flags <- item_flags iter ;;
    ret (wrap32 (size - kcdata_flags_get_padding flags)).

Definition kcdata_iter_size (iter : kcdata_iter_t) : M mem Z :=
  type <- kcdata_iter_type iter ;;
  if (type =? KCDATA_TYPE_ARRAY) || (type =? KCDATA_TYPE_CONTAINER_BEGIN) then item_size iter
  else if type =? STACKSHOT_KCTYPE_THREAD_SNAPSHOT then
    let legacy_size := sizeof thread_snapshot_v2 in
    b <- kcdata_iter_is_legacy_item iter legacy_size ;;
    if (b : bool) then ret legacy_size else not_legacy iter
  else if type =? STACKSHOT_KCTYPE_SHAREDCACHE_LOADINFO then
    let legacy_size := sizeof dyld_uuid_info_64 in
    b <- kcdata_iter_is_legacy_item iter legacy_size ;;
    if (b : bool) then ret legacy_size else not_legacy iter
  else not_legacy iter.

Definition kcdata_iter_flags (iter : kcdata_iter_t) : M mem Z := item_flags iter.

Definition kcdata_iter_array_elem_type (iter : kcdata_iter_t) : M mem Z :=
  flags <- item_flags iter ;; ret (Z.land (Z.shiftr flags 32) 0xffffffff).
Definition kcdata_iter_array_elem_count (iter : kcdata_iter_t) : M mem Z :=
  flags <- item_flags iter ;; ret (Z.land flags 0xffffffff).

Definition kcdata_iter_array_size_switch (iter : kcdata_iter_t) : M mem Z :=
  t <- kcdata_iter_array_elem_type iter ;;
  ret (if t =? KCDATA_TYPE_LIBRARY_LOADINFO then sizeof dyld_uuid_info_32
       else if t =? KCDATA_TYPE_LIBRARY_LOADINFO64 then sizeof dyld_uuid_info_64
       else if (t =? STACKSHOT_KCTYPE_KERN_STACKFRAME) || (t =? STACKSHOT_KCTYPE_USER_STACKFRAME) then sizeof stack_snapshot_frame32
       else if (t =? STACKSHOT_KCTYPE_KERN_STACKFRAME64) || (t =? STACKSHOT_KCTYPE_USER_STACKFRAME64) then sizeof stack_snapshot_frame64
       else if t =? STACKSHOT_KCTYPE_DONATING_PIDS then size_of int32_t
       else if t =? STACKSHOT_KCTYPE_THREAD_DELTA_SNAPSHOT then sizeof thread_delta_snapshot_v2
       else if t =? TASK_CRASHINFO_CRASHED_THREADID then size_of uint64_t
       else 0).

Definition kcdata_iter_array_valid (iter : kcdata_iter_t) : M mem bool :=
  v <- kcdata_iter_valid iter ;;
  if negb v then ret false else
  t <- kcdata_iter_type iter ;;
  if negb (t =? KCDATA_TYPE_ARRAY) then ret false else
  count <- kcdata_iter_array_elem_count iter ;;
  if count =? 0 then size <- item_size iter ;; ret (size =? 0) else
  type <- item_type iter ;;
  if type =? KCDATA_TYPE_ARRAY then
    elem_size <- kcdata_iter_array_size_switch iter ;;
    if elem_size =? 0 then ret false else
    count <- kcdata_iter_array_elem_count iter ;;
    size <- item_size iter ;;
    ret ((count <=? size / elem_size) && (size mod count <? 16))
  else
    type <- item_type iter ;;
    size <- item_size iter ;;
    let pad := Z.land type 0xf in
    count <- kcdata_iter_array_elem_count iter ;;
    ret ((pad <=? size) && (count <=? size - pad) && ((size - pad) mod count =? 0)).

Definition kcdata_iter_array_elem_size (iter : kcdata_iter_t) : M mem Z :=
  type <- item_type iter ;;
  if type =? KCDATA_TYPE_ARRAY then kcdata_iter_array_size_switch iter else
  count <- kcdata_iter_array_elem_count iter ;;
  if count =? 0 then ret 0 else
  size <- item_size iter ;;
  type <- item_type iter ;;
  count <- kcdata_iter_array_elem_count iter ;;
  ret (wrap32 (size - Z.land type 0xf) / count).

Definition kcdata_iter_container_valid (iter : kcdata_iter_t) : M mem bool :=
  v <- kcdata_iter_valid iter ;;
  if negb v then ret false else
  t <- kcdata_iter_type iter ;;
  if negb (t =? KCDATA_TYPE_CONTAINER_BEGIN) then ret false else
  size <- item_size iter ;; ret (4 <=? size).

Definition kcdata_iter_container_type (iter : kcdata_iter_t) : M mem Z := ByteOrder.load_word H 4 (kcdata_iter_payload iter).
Definition kcdata_iter_container_id (iter : kcdata_iter_t) : M mem Z := item_flags iter.

(** ** Loops *)

(** The condition of the loop. *)
Definition foreach_more (iter : kcdata_iter_t) : M mem bool :=
  v <- kcdata_iter_valid iter ;;
  if negb v then ret false else
  type <- item_type iter ;; ret (negb (type =? KCDATA_TYPE_BUFFER_END)).

(** [body] may leave the enclosing function with a result. *)
Fixpoint KCDATA_ITER_FOREACH {A} (fuel : nat) (body : kcdata_iter_t -> M mem (option A)) (iter : kcdata_iter_t) :
    M mem (kcdata_iter_t * option A) :=
  match fuel with
  | O => fault
  | S fuel =>
      more <- foreach_more iter ;;
      if negb more then ret (iter, None) else
      r <- body iter ;;
      match r with
      | Some a => ret (iter, Some a)
      | None =>
          iter <- kcdata_iter_next iter ;;
          KCDATA_ITER_FOREACH fuel body iter
      end
  end.

Definition KCDATA_ITER_FOREACH_FAILED (iter : kcdata_iter_t) : M mem bool :=
  v <- kcdata_iter_valid iter ;;
  if negb v then ret true else
  type <- item_type iter ;; ret (negb (type =? KCDATA_TYPE_BUFFER_END)).

Definition kcdata_iter_find_type (fuel : nat) (iter : kcdata_iter_t) (type : Z) : M mem kcdata_iter_t :=
  r <- KCDATA_ITER_FOREACH fuel (fun iter =>
         t <- kcdata_iter_type iter ;;
         ret (if t =? type then Some iter else None)) iter ;;
  ret (match snd r with Some iter => iter | None => kcdata_invalid_iter end).

(** ** Data with a description *)

Definition kcdata_iter_data_with_desc_valid (iter : kcdata_iter_t) (minsize : Z) : M mem bool :=
  v <- kcdata_iter_valid iter ;;
  if negb v then ret false else
  size <- kcdata_iter_size iter ;;
  if negb (wrap32 (KCDATA_DESC_MAXLEN + minsize) <=? size) then ret false else
  c <- load (kcdata_iter_payload iter + (KCDATA_DESC_MAXLEN - 1)) ;; ret (c =? 0).

(** [strnlen]. *)
Fixpoint strnlen (s : Z) (maxlen : nat) : M mem Z :=
  match maxlen with
  | O => ret 0
  | S n => c <- load s ;; if c =? 0 then ret 0 else k <- strnlen (s + 1) n ;; ret (k + 1)
  end.

Definition kcdata_iter_string (iter : kcdata_iter_t) (offset : Z) : M mem Z :=
  size <- kcdata_iter_size iter ;;
  if size <? offset then ret NULL else
  size <- kcdata_iter_size iter ;;
  let maxlen := wrap32 (size - offset) in
  let s := kcdata_iter_payload iter + offset in
  n <- strnlen s (Z.to_nat maxlen) ;;
  ret (if n <? maxlen then s else NULL).

(** What it stores through the pointers that are not null. *)
Definition kcdata_iter_get_data_with_desc (iter : kcdata_iter_t) (desc_ptr data_ptr size_ptr : bool) :
    M mem (option Z * option Z * option Z) :=
  let desc := if desc_ptr then Some (kcdata_iter_payload iter) else None in
  let data := if data_ptr then Some (wrap64 (kcdata_iter_payload iter + KCDATA_DESC_MAXLEN)) else None in
  if size_ptr then
    size <- kcdata_iter_size iter ;;
    ret (desc, data, Some (wrap32 (size - KCDATA_DESC_MAXLEN)))
  else ret (desc, data, None).

End Iterators.

End KCData.
