(* ===== verification/KCDataSpec.v ===== *)
(** * KCDataSpec: the kcdata iterators are safe on every buffer and find its
    items

    The specification is a parser on lists of bytes.  Module [KCDataSpec]
    proves that the loop of the header visits exactly the items it finds, on
    every content of the buffer, with no access outside of it; that every
    accessor is safe on an item that was visited; and that a buffer made of
    items is read back as these items. *)

From Stdlib Require Import ZArith Lia Bool.
From stdpp Require Import base list option gmap.
From S2P Require Import Prelude Ring ByteOrder KCTypes KCData.
Import KCTypes KCData ByteOrder.
Open Scope Z_scope.

Module KCDataSpec.

(** ** Items as bytes *)

Record kitem : Type := mkItem { k_type : Z; k_flags : Z; k_data : list Z }.
Definition k_size (k : kitem) : Z := Z.of_nat (length (k_data k)).

Record wf_item (k : kitem) : Prop := mkWf {
  wf_type : 0 <= k_type k < 2 ^ 32;
  wf_size : k_size k < 2 ^ 32;
  wf_flags : 0 <= k_flags k < 2 ^ 64;
  wf_data : Forall is_byte (k_data k)
}.

Section Spec.
Context (H : host).

(** The value of the bytes of a word. *)
Definition word (l : list Z) : Z := value (if big H then rev l else l).

Definition enc_header (type size flags : Z) : list Z := host_bytes H 4 type ++ host_bytes H 4 size ++ host_bytes H 8 flags.
Definition enc_item (k : kitem) : list Z := enc_header (k_type k) (k_size k) (k_flags k) ++ k_data k.
Definition enc_end : list Z := enc_header KCDATA_TYPE_BUFFER_END 0 0.

(** The items in front of the end marker, and whether there is one. *)
Fixpoint parse (fuel : nat) (B : list Z) : list kitem * bool :=
  match fuel with
  | O => ([], false)
  | S n =>
      if Z.of_nat (length B) <? 16 then ([], false) else
      let type := word (take 4 B) in
      let size := word (take 4 (drop 4 B)) in
      let flags := word (take 8 (drop 8 B)) in
      if Z.of_nat (length B) <? 16 + size then ([], false)
      else if type =? KCDATA_TYPE_BUFFER_END then ([], true)
      else
        let r := parse n (drop (16 + Z.to_nat size) B) in
        (mkItem type flags (take (Z.to_nat size) (drop 16 B)) :: fst r, snd r)
  end.
Definition parse_buffer (B : list Z) : list kitem * bool := parse (S (length B)) B.

Lemma length_host_bytes n v : length (host_bytes H n v) = n.
Proof. unfold host_bytes. destruct (big H); rewrite ?List.length_rev; apply bytes_ok. Qed.
Lemma host_bytes_ok n v : Forall is_byte (host_bytes H n v).
Proof. unfold host_bytes. destruct (big H); [apply Forall_rev_bytes|]; apply bytes_ok. Qed.

Lemma word_host_bytes n v : word (host_bytes H n v) = v mod 2 ^ (8 * Z.of_nat n).
Proof. unfold word, host_bytes. destruct (big H); rewrite ?List.rev_involutive; apply value_bytes. Qed.

Lemma host_bytes_word l : Forall is_byte l -> host_bytes H (length l) (word l) = l.
Proof.
  intros Hl. unfold word, host_bytes. destruct (big H); [|by apply bytes_value].
  rewrite <- List.length_rev. rewrite bytes_value by by apply Forall_rev_bytes. apply List.rev_involutive.
Qed.

Lemma kc_word_range l : Forall is_byte l -> 0 <= word l < 2 ^ (8 * Z.of_nat (length l)).
Proof.
  intros Hl. unfold word. destruct (big H); [|by apply value_range].
  rewrite <- (List.length_rev l). by apply value_range, Forall_rev_bytes.
Qed.

Lemma length_header t s f : length (enc_header t s f) = 16%nat.
Proof. unfold enc_header. by rewrite !length_app, !length_host_bytes. Qed.

Lemma header_ok t s f : Forall is_byte (enc_header t s f).
Proof. unfold enc_header. rewrite !Forall_app. split_and!; apply host_bytes_ok. Qed.

Lemma length_item k : Z.of_nat (length (enc_item k)) = 16 + k_size k.
Proof. unfold enc_item, k_size. rewrite length_app, length_header. lia. Qed.

(** The fields of a header that starts a list of bytes. *)
Lemma header_fields t s f B : let C := enc_header t s f ++ B in
  word (take 4 C) = t mod 2 ^ 32 /\ word (take 4 (drop 4 C)) = s mod 2 ^ 32 /\ word (take 8 (drop 8 C)) = f mod 2 ^ 64 /\
  drop 16 C = B.
Proof.
  unfold enc_header. cbv zeta. rewrite <- !app_assoc.
  pose proof (length_host_bytes 4 t) as L1. pose proof (length_host_bytes 4 s) as L2. pose proof (length_host_bytes 8 f) as L3.
  rewrite take_app_length' by done. rewrite drop_app_length' by done. rewrite take_app_length' by done.
  rewrite (drop_app_ge _ _ 8), L1 by lia. rewrite drop_app_length' by done. rewrite take_app_length' by done.
  rewrite (drop_app_ge _ _ 16), L1 by lia. rewrite (drop_app_ge _ _ (16 - 4)), L2 by lia. rewrite drop_app_length' by done.
  by rewrite !word_host_bytes.
Qed.

(** Any sixteen bytes are a header. *)
Lemma as_header B : Forall is_byte B -> (16 <= length B)%nat ->
  B = enc_header (word (take 4 B)) (word (take 4 (drop 4 B))) (word (take 8 (drop 8 B))) ++ drop 16 B.
Proof.
  intros HB Hl. unfold enc_header.
  assert (E : forall n l, Forall is_byte l -> (n <= length l)%nat -> host_bytes H n (word (take n l)) = take n l).
  { intros n l Hf Hn. rewrite <- (host_bytes_word (take n l)) at 2 by by apply Forall_take. by rewrite length_take, Nat.min_l. }
  rewrite !E by (try (by apply Forall_drop); rewrite ?length_drop; lia || done).
  rewrite <- !app_assoc. rewrite <- (take_drop 4 B) at 1. f_equal. rewrite <- (take_drop 4 (drop 4 B)) at 1. f_equal.
  rewrite drop_drop. rewrite <- (take_drop 8 (drop (4 + 4) B)) at 1. f_equal. by rewrite drop_drop.
Qed.

Lemma words_range B : Forall is_byte B -> (16 <= length B)%nat ->
  0 <= word (take 4 B) < 2 ^ 32 /\ 0 <= word (take 4 (drop 4 B)) < 2 ^ 32 /\ 0 <= word (take 8 (drop 8 B)) < 2 ^ 64.
Proof.
  intros HB Hl.
  assert (E : forall n l, Forall is_byte l -> (n <= length l)%nat -> 0 <= word (take n l) < 2 ^ (8 * Z.of_nat n)).
  { intros n l Hf Hn. pose proof (kc_word_range (take n l) (Forall_take _ _ _ Hf)) as Hr. rewrite length_take, Nat.min_l in Hr by done. done. }
  split_and!; apply E; try (by apply Forall_drop); rewrite ?length_drop; lia || done.
Qed.

(** ** Round trip *)

Lemma enc_end_fields B : let C := enc_end ++ B in
  word (take 4 C) = KCDATA_TYPE_BUFFER_END /\ word (take 4 (drop 4 C)) = 0.
Proof. destruct (header_fields KCDATA_TYPE_BUFFER_END 0 0 B) as (E1 & E2 & _). unfold enc_end. by rewrite E1, E2. Qed.

Lemma parse_encoded l : forall fuel rest, (length l < fuel)%nat -> Forall wf_item l -> Forall (fun k => k_type k <> KCDATA_TYPE_BUFFER_END) l ->
  parse fuel (concat (map enc_item l) ++ enc_end ++ rest) = (l, true).
Proof.
  induction l as [|k l IH]; intros fuel rest Hf Hw Ht; (destruct fuel as [|n]; [simpl in Hf; lia|]); cbn [map concat].
  - cbn [app parse]. destruct (enc_end_fields rest) as [-> ->]. unfold enc_end. rewrite length_app, length_header.
    rewrite !(proj2 (Z.ltb_ge _ _)) by lia. by rewrite Z.eqb_refl.
  - apply List.Forall_cons_iff in Hw as [Hk Hw], Ht as [Htk Ht]. destruct Hk as [Hk1 Hk2 Hk3 Hk4].
    set (R := concat (map enc_item l) ++ enc_end ++ rest).
    replace ((enc_item k ++ concat (map enc_item l)) ++ enc_end ++ rest)
      with (enc_header (k_type k) (k_size k) (k_flags k) ++ k_data k ++ R)
      by (rewrite <- app_assoc; change (enc_item k) with (enc_header (k_type k) (k_size k) (k_flags k) ++ k_data k); by rewrite <- app_assoc).
    cbn [parse].
    destruct (header_fields (k_type k) (k_size k) (k_flags k) (k_data k ++ R)) as (E1 & E2 & E3 & E4).
    assert (0 <= k_size k) by (unfold k_size; lia).
    rewrite E1, E2, E3, E4, !Z.mod_small by lia. rewrite !length_app, length_header.
    rewrite !(proj2 (Z.ltb_ge _ _)) by (unfold k_size; lia). rewrite (proj2 (Z.eqb_neq _ _)) by done.
    rewrite <- drop_drop, E4. unfold k_size. rewrite Nat2Z.id. rewrite take_app_length, drop_app_length.
    unfold R. rewrite IH by (done || (simpl in Hf; lia)). cbn [fst snd]. by destruct k.
Qed.

(** ** Items in memory *)

Lemma bytes_at_app h l1 l2 : forall a, bytes_at h a (l1 ++ l2) <-> bytes_at h a l1 /\ bytes_at h (a + Z.of_nat (length l1)) l2.
Proof.
  induction l1 as [|b l1 IH]; intros a; cbn [app bytes_at length].
  - rewrite Z.add_0_r. tauto.
  - rewrite IH. replace (a + Z.of_nat (S (length l1))) with (a + 1 + Z.of_nat (length l1)) by lia. tauto.
Qed.

Lemma bytes_at_lookup h l : forall a i v, bytes_at h a l -> l !! i = Some v -> h !! (a + Z.of_nat i) = Some v.
Proof.
  induction l as [|b l IH]; intros a i v; [done|]. intros [Hb Hl]. destruct i as [|i]; cbn [lookup list_lookup].
  - intros [= <-]. by rewrite Z.add_0_r.
  - intros Hi. replace (a + Z.of_nat (S i)) with (a + 1 + Z.of_nat i) by lia. by apply IH.
Qed.

(** A word is read where its bytes are. *)
Lemma load_word_at h a n v : bytes_at h a (host_bytes H n v) -> load_word H n a h = Done (v mod 2 ^ (8 * Z.of_nat n)) h.
Proof.
  intros Ha. pose proof (load_bytes_run h _ a (fun l h' => l = host_bytes H n v /\ h' = h) Ha (conj eq_refl eq_refl)) as Hr.
  rewrite length_host_bytes in Hr. unfold load_word, bind. unfold wp in Hr. destruct (load_bytes n a h) as [l h'|]; [|done].
  destruct Hr as [-> ->]. unfold ret. f_equal. apply word_host_bytes.
Qed.

(** The item [k] is where [it] points, in front of the end and of the last
    4 GiB of the address space. *)
Record item_at (h : mem) (it : kcdata_iter_t) (k : kitem) : Prop := mkAt {
  at_wf : wf_item k;
  at_bytes : bytes_at h (item it) (enc_item k);
  at_start : 0 <= item it;
  at_end : item it + 16 + k_size k <= end_ it;
  at_high : end_ it + 2 ^ 32 + 16 <= 2 ^ 64
}.

Section Item.
Context (h : mem) (it : kcdata_iter_t) (k : kitem) (Hit : item_at h it k).

Lemma k_size_nonneg : 0 <= k_size k.
Proof. unfold k_size. lia. Qed.

Lemma item_reads : item_type H it h = Done (k_type k) h /\ item_size H it h = Done (k_size k) h /\ item_flags H it h = Done (k_flags k) h.
Proof.
  destruct Hit as [[W1 W2 W3 W4] Hb _ _ _]. pose proof k_size_nonneg. unfold enc_item, enc_header in Hb.
  rewrite !bytes_at_app, !length_app, !length_host_bytes in Hb. destruct Hb as ((H1 & H2 & H3) & _).
  unfold item_type, item_size, item_flags. replace (item it + 8) with (item it + Z.of_nat 4 + Z.of_nat 4) by lia.
  change (item it + 4) with (item it + Z.of_nat 4).
  rewrite (load_word_at h _ _ _ H1), (load_word_at h _ _ _ H2), (load_word_at h _ _ _ H3).
  by rewrite !Z.mod_small by (simpl; lia).
Qed.

Lemma data_reads i v : k_data k !! i = Some v -> h !! (kcdata_iter_payload it + Z.of_nat i) = Some v.
Proof.
  destruct Hit as [_ Hb _ _ _]. unfold enc_item in Hb. rewrite bytes_at_app, length_header in Hb. destruct Hb as [_ Hb].
  intros Hi. unfold kcdata_iter_payload, sizeof_kcdata_item. by apply (bytes_at_lookup h _ _ i v Hb).
Qed.

Lemma item_valid : kcdata_iter_valid H it h = Done true h.
Proof.
  destruct item_reads as (_ & Hs & _). destruct Hit as [[W1 W2 W3 W4] _ H1 H2 H3]. pose proof k_size_nonneg.
  unfold kcdata_iter_valid, sizeof_kcdata_item. rewrite !wrap64_small by lia. rewrite (proj2 (Z.leb_le _ _)) by lia.
  unfold bind, ret. rewrite Hs. rewrite !wrap64_small by lia. by rewrite (proj2 (Z.leb_le _ _)) by lia.
Qed.

Lemma item_next : kcdata_iter_next H it h = Done (mkIter (item it + 16 + k_size k) (end_ it)) h.
Proof.
  destruct item_reads as (_ & Hs & _). destruct Hit as [[W1 W2 W3 W4] _ H1 H2 H3]. pose proof k_size_nonneg.
  unfold kcdata_iter_next, sizeof_kcdata_item, bind, ret. rewrite Hs. by rewrite wrap64_small by lia.
Qed.

(** *** The accessors *)

(** The type with the padded arrays taken together. *)
Definition k_kind : Z := if Z.land (k_type k) 0xfffffff0 =? KCDATA_TYPE_ARRAY_PAD0 then KCDATA_TYPE_ARRAY else k_type k.
Definition k_count : Z := Z.land (k_flags k) 0xffffffff.

Lemma iter_type_reads : kcdata_iter_type H it h = Done k_kind h.
Proof.
  destruct item_reads as (Ht & _ & _). unfold kcdata_iter_type, k_kind, bind. rewrite Ht. by destruct (_ =? _).
Qed.

Lemma count_reads : kcdata_iter_array_elem_count H it h = Done k_count h.
Proof. destruct item_reads as (_ & _ & Hf). unfold kcdata_iter_array_elem_count, bind. by rewrite Hf. Qed.

Lemma count_range : 0 <= k_count < 2 ^ 32.
Proof. unfold k_count. change 0xffffffff with (Z.ones 32). rewrite Z.land_ones by lia. by apply Z.mod_pos_bound. Qed.

Lemma padding_range f : 0 <= kcdata_flags_get_padding f < 16.
Proof.
  unfold kcdata_flags_get_padding, KCDATA_FLAGS_STRUCT_PADDING_MASK. change 0xf with (Z.ones 4). rewrite Z.land_ones by lia.
  pose proof (Z.mod_pos_bound f (2 ^ 4)) as Hp. rewrite wrap32_small; lia.
Qed.

Lemma not_legacy_reads : exists s, not_legacy H it h = Done s h /\ 0 <= s <= k_size k.
Proof.
  destruct item_reads as (_ & Hs & Hf). destruct Hit as [[_ W2 _ _] _ _ _ _]. pose proof k_size_nonneg.
  unfold not_legacy, bind, ret. rewrite Hs, Hf. pose proof (padding_range (k_flags k)).
  destruct (Z.ltb_spec (k_size k) (kcdata_flags_get_padding (k_flags k))) as [Hl|Hl]; [exists 0; split; [done|lia]|].
  rewrite Hs, Hf. eexists. split; [done|]. rewrite wrap32_small by lia. lia.
Qed.

Lemma legacy_reads n : 0 <= n < 2 ^ 31 ->
  exists b : bool, kcdata_iter_is_legacy_item H it n h = Done b h /\ (b = true -> n <= k_size k).
Proof.
  intros Hn. destruct item_reads as (_ & Hs & Hf). unfold kcdata_iter_is_legacy_item, bind, ret. rewrite Hs.
  assert (Hp : 0 <= kcdata_calc_padding n < 16).
  { unfold kcdata_calc_padding. change 0xf with (Z.ones 4). rewrite Z.land_ones by lia. by apply Z.mod_pos_bound. }
  rewrite wrap32_small by lia. destruct (Z.eqb_spec (k_size k) (n + kcdata_calc_padding n)) as [E|E]; [|exists false; done].
  rewrite Hf. eexists. split; [done|]. lia.
Qed.

(** No size is larger than the data. *)
Lemma size_reads : exists s, kcdata_iter_size H it h = Done s h /\ 0 <= s <= k_size k.
Proof.
  destruct item_reads as (_ & Hs & Hf). pose proof k_size_nonneg. unfold kcdata_iter_size, bind, ret. rewrite iter_type_reads.
  destruct (_ || _); [rewrite Hs; eexists; split; [done|lia]|].
  destruct (k_kind =? _); [|destruct (k_kind =? _); [|apply not_legacy_reads]].
  - destruct (legacy_reads (sizeof thread_snapshot_v2)) as (b & -> & Hb); [by vm_compute|].
    destruct b; [|apply not_legacy_reads]. eexists. split; [done|]. specialize (Hb eq_refl). split; [by vm_compute|done].
  - destruct (legacy_reads (sizeof dyld_uuid_info_64)) as (b & -> & Hb); [by vm_compute|].
    destruct b; [|apply not_legacy_reads]. eexists. split; [done|]. specialize (Hb eq_refl). split; [by vm_compute|done].
Qed.

Lemma switch_reads : exists s, kcdata_iter_array_size_switch H it h = Done s h /\ 0 <= s.
Proof.
  destruct item_reads as (_ & _ & Hf). unfold kcdata_iter_array_size_switch, kcdata_iter_array_elem_type, bind, ret. rewrite Hf.
  eexists. split; [done|]. clear. repeat match goal with |- 0 <= (if ?b then _ else _) => destruct b; [by vm_compute|] end. done.
Qed.

(** Runs reads whose results are known. *)
Ltac rd := unfold bind, ret; cbv beta iota; repeat (first [rewrite item_valid | rewrite iter_type_reads | rewrite count_reads
  | match goal with E : _ H it h = Done _ h |- _ => rewrite E end]; cbn [negb]; cbv beta iota).

(** The elements of a valid array are in its data. *)
Lemma array_reads : exists b : bool, kcdata_iter_array_valid H it h = Done b h /\
  (b = true -> k_kind = KCDATA_TYPE_ARRAY /\
    exists es, kcdata_iter_array_elem_size H it h = Done es h /\ 0 <= es /\ k_count * es <= k_size k).
Proof.
  destruct item_reads as (Ht & Hs & Hf). pose proof k_size_nonneg. pose proof count_range as Hc.
  destruct Hit as [[_ W2 _ _] _ _ _ _].
  destruct switch_reads as (es & Hsw & Hes0). unfold kcdata_iter_array_valid, kcdata_iter_array_elem_size. rd.
  destruct (Z.eqb_spec k_kind KCDATA_TYPE_ARRAY) as [Ek|Ek]; cbn [negb]; [|by exists false]. rd.
  destruct (Z.eqb_spec k_count 0) as [E0|E0]; rd.
  - eexists. split; [done|]. intros _. split; [done|].
    destruct (k_type k =? KCDATA_TYPE_ARRAY); rd; rewrite ?(proj2 (Z.eqb_eq _ _) E0); eexists; (split; [done|]); rewrite E0; lia.
  - destruct (Z.eqb_spec (k_type k) KCDATA_TYPE_ARRAY) as [Et|Et]; rd.
    + destruct (Z.eqb_spec es 0) as [Ez|Ez]; rd; [by exists false|]. eexists. split; [done|]. intros Hb. split; [done|].
      exists es. split; [done|]. split; [done|]. apply andb_true_iff in Hb as [Hb _]. apply Z.leb_le in Hb.
      transitivity (k_size k / es * es); [nia|]. rewrite Z.mul_comm. apply Z.mul_div_le. lia.
    + eexists. split; [done|]. intros Hb. split; [done|]. rewrite (proj2 (Z.eqb_neq _ _) E0). rd. eexists. split; [done|].
      apply andb_true_iff in Hb as [Hb _]. apply andb_true_iff in Hb as [Hb _]. apply Z.leb_le in Hb.
      assert (Hpad : 0 <= Z.land (k_type k) 0xf) by (apply Z.land_nonneg; lia).
      rewrite wrap32_small by lia. split; [apply Z.div_pos; lia|].
      transitivity (k_size k - Z.land (k_type k) 15); [|lia]. apply Z.mul_div_le. lia.
Qed.

(** The type of a valid container is in its data. *)
Lemma container_reads : exists b : bool, kcdata_iter_container_valid H it h = Done b h /\
  (b = true -> k_kind = KCDATA_TYPE_CONTAINER_BEGIN /\
    kcdata_iter_container_type H it h = Done (word (take 4 (k_data k))) h /\ kcdata_iter_container_id H it h = Done (k_flags k) h).
Proof.
  destruct item_reads as (Ht & Hs & Hf). unfold kcdata_iter_container_valid. rd.
  destruct (Z.eqb_spec k_kind KCDATA_TYPE_CONTAINER_BEGIN) as [Ek|Ek]; cbn [negb]; rd; [|by exists false].
  eexists. split; [done|]. intros Hb%Z.leb_le. split; [done|]. split; [|done].
  destruct Hit as [[_ _ _ W4] Hb' _ _ _]. unfold enc_item in Hb'. rewrite bytes_at_app, length_header in Hb'. destruct Hb' as [_ Hd].
  unfold k_size in Hb. rewrite <- (take_drop 4 (k_data k)), bytes_at_app in Hd. destruct Hd as [Hd _].
  assert (L : length (take 4 (k_data k)) = 4%nat) by (rewrite length_take; lia).
  assert (W : Forall is_byte (take 4 (k_data k))) by by apply Forall_take.
  rewrite <- (host_bytes_word _ W), L in Hd. unfold kcdata_iter_container_type, kcdata_iter_payload, sizeof_kcdata_item.
  change (item it + 16) with (item it + Z.of_nat 16). rewrite (load_word_at h _ _ _ Hd). pose proof (kc_word_range _ W) as Hr. rewrite L in Hr. by rewrite Z.mod_small.
Qed.

(** [strnlen] inside the data. *)
Lemma strnlen_reads m : forall i, (i + m <= length (k_data k))%nat ->
  exists n, strnlen (kcdata_iter_payload it + Z.of_nat i) m h = Done n h /\ 0 <= n <= Z.of_nat m /\
    (n < Z.of_nat m -> k_data k !! (i + Z.to_nat n)%nat = Some 0).
Proof.
  induction m as [|m IH]; intros i Hi; cbn [strnlen]; [exists 0; split; [done|lia]|].
  destruct (lookup_lt_is_Some_2 (k_data k) i) as [c Hc]; [lia|]. unfold bind, load, ret. rewrite (data_reads i c Hc).
  destruct (Z.eqb_spec c 0) as [->|Hc0].
  - exists 0. split; [done|]. split; [lia|]. intros _. by rewrite Nat.add_0_r.
  - destruct (IH (S i)) as (n & E & Hn & Hz); [lia|].
    replace (kcdata_iter_payload it + Z.of_nat i + 1) with (kcdata_iter_payload it + Z.of_nat (S i)) by lia. rewrite E.
    exists (n + 1). split; [done|]. split; [lia|]. intros Hlt. rewrite <- Hz by lia. f_equal. lia.
Qed.

(** The string at an offset ends in the data. *)
Lemma string_reads off : 0 <= off < 2 ^ 32 -> exists p, kcdata_iter_string H it off h = Done p h /\
  (p = NULL \/ p = kcdata_iter_payload it + off /\ exists n, k_data k !! n = Some 0 /\ off <= Z.of_nat n).
Proof.
  intros Ho. destruct size_reads as (s & Hs & Hr). destruct Hit as [[_ W2 _ _] _ _ _ _]. unfold k_size in *.
  unfold kcdata_iter_string. rd. destruct (Z.ltb_spec s off) as [Hl|Hl]; rd; [eexists; split; [done|by left]|].
  rewrite wrap32_small by lia. destruct (strnlen_reads (Z.to_nat (s - off)) (Z.to_nat off)) as (n & Hn & Hb & Hz); [lia|].
  rewrite Z2Nat.id in Hn by lia. rewrite Hn. eexists. split; [done|].
  destruct (Z.ltb_spec n (s - off)) as [Hlt|]; [|by left]. right. split; [done|].
  exists (Z.to_nat off + Z.to_nat n)%nat. split; [apply Hz; lia|lia].
Qed.

(** Data with a description: both are there, and the description ends. *)
Lemma desc_reads minsize : 0 <= minsize < 2 ^ 32 - 32 ->
  exists b : bool, kcdata_iter_data_with_desc_valid H it minsize h = Done b h /\
  (b = true -> k_data k !! 31%nat = Some 0 /\
    exists n, kcdata_iter_get_data_with_desc H it true true true h =
        Done (Some (kcdata_iter_payload it), Some (kcdata_iter_payload it + 32), Some n) h /\
      minsize <= n /\ 32 + n <= k_size k).
Proof.
  intros Hmin. destruct size_reads as (s & Hs & Hr). destruct Hit as [[_ W2 _ _] _ A1 A2 A3]. pose proof k_size_nonneg.
  unfold kcdata_iter_data_with_desc_valid, kcdata_iter_get_data_with_desc, KCDATA_DESC_MAXLEN. rd. rewrite (wrap32_small (32 + minsize)) by lia.
  destruct (Z.leb_spec (32 + minsize) s) as [Hl|Hl]; cbn [negb]; rd; [|by exists false].
  destruct (lookup_lt_is_Some_2 (k_data k) 31) as [c Hc]; [unfold k_size in *; lia|].
  unfold load. change (kcdata_iter_payload it + (32 - 1)) with (kcdata_iter_payload it + Z.of_nat 31). rewrite (data_reads 31 c Hc).
  eexists. split; [done|]. intros E%Z.eqb_eq. subst c. split; [done|].
  rewrite wrap64_small by (unfold kcdata_iter_payload, sizeof_kcdata_item; lia). rewrite wrap32_small by lia.
  eexists. split; [done|]. lia.
Qed.

End Item.

(** ** The loop *)

(** The buffer [B] is at [a]. *)
Record buffer_at (h : mem) (a : Z) (B : list Z) : Prop := mkBuf {
  buf_bytes : bytes_at h a B;
  buf_ok : Forall is_byte B;
  buf_start : 0 <= a;
  buf_high : a + Z.of_nat (length B) + 2 ^ 32 + 16 <= 2 ^ 64
}.

(** Any prefix that is long enough is an item. *)
Lemma as_item h a B : buffer_at h a B -> 16 <= Z.of_nat (length B) -> 16 + word (take 4 (drop 4 B)) <= Z.of_nat (length B) ->
  let k := mkItem (word (take 4 B)) (word (take 8 (drop 8 B))) (take (Z.to_nat (word (take 4 (drop 4 B)))) (drop 16 B)) in
  let B' := drop (16 + Z.to_nat (word (take 4 (drop 4 B)))) B in
  k_size k = word (take 4 (drop 4 B)) /\ B = enc_item k ++ B' /\ item_at h (mkIter a (a + Z.of_nat (length B))) k.
Proof.
  intros [Hb Hok Ha Hhi] Hl Hs k B'. destruct (words_range B Hok) as (R1 & R2 & R3); [lia|].
  assert (Hk : k_size k = word (take 4 (drop 4 B))).
  { unfold k, k_size. cbn [k_data]. rewrite length_take, length_drop, Nat.min_l by lia. lia. }
  assert (E : B = enc_item k ++ B').
  { unfold enc_item. rewrite Hk. cbn [k k_type k_flags k_data]. rewrite (as_header B Hok) at 1 by lia. rewrite <- app_assoc. f_equal.
    unfold B'. rewrite <- drop_drop. by rewrite take_drop. }
  split; [done|]. split; [done|]. split.
  - split; cbn [k k_type k_flags k_data]; [done|lia|done|]. by apply Forall_take, Forall_drop.
  - rewrite E in Hb. by apply bytes_at_app in Hb as [Hb _].
  - done.
  - cbn [item end_]. lia.
  - cbn [end_]. lia.
Qed.

Lemma parse_step h a B n : buffer_at h a B ->
  match parse (S n) B with
  | ([], ended) => foreach_more H (mkIter a (a + Z.of_nat (length B))) h = Done false h /\
      KCDATA_ITER_FOREACH_FAILED H (mkIter a (a + Z.of_nat (length B))) h = Done (negb ended) h
  | (k :: l, ended) => item_at h (mkIter a (a + Z.of_nat (length B))) k /\ k_type k <> KCDATA_TYPE_BUFFER_END /\
      exists B', B = enc_item k ++ B' /\ parse n B' = (l, ended)
  end.
Proof.
  intros HB. pose proof HB as [Hb Hok Ha Hhi]. cbn [parse]. set (it := mkIter a (a + Z.of_nat (length B))).
  destruct (Z.ltb_spec (Z.of_nat (length B)) 16) as [Hl|Hl].
  { assert (Hv : kcdata_iter_valid H it h = Done false h).
    { unfold kcdata_iter_valid, it, sizeof_kcdata_item. cbn [item end_]. rewrite wrap64_small by lia. by rewrite (proj2 (Z.leb_gt _ _)) by lia. }
    unfold foreach_more, KCDATA_ITER_FOREACH_FAILED, bind. by rewrite Hv. }
  destruct (words_range B Hok) as (R1 & R2 & R3); [lia|].
  destruct (Z.ltb_spec (Z.of_nat (length B)) (16 + word (take 4 (drop 4 B)))) as [Hs|Hs].
  { assert (Hv : kcdata_iter_valid H it h = Done false h).
    { assert (Hsz : item_size H it h = Done (word (take 4 (drop 4 B))) h).
      { rewrite (as_header B Hok) in Hb by lia. unfold enc_header in Hb. rewrite !bytes_at_app, !length_host_bytes in Hb.
        destruct Hb as ((_ & Hb & _) & _). unfold item_size, it. cbn [item]. change (a + 4) with (a + Z.of_nat 4).
        rewrite (load_word_at h _ _ _ Hb). by rewrite Z.mod_small by (simpl; lia). }
      unfold kcdata_iter_valid, sizeof_kcdata_item. rewrite wrap64_small by (cbn [it item]; lia).
      rewrite (proj2 (Z.leb_le _ _)) by (cbn [it item end_]; lia). unfold bind, ret. rewrite Hsz.
      rewrite wrap64_small by (cbn [it item]; lia). by rewrite (proj2 (Z.leb_gt _ _)) by (cbn [it item end_]; lia). }
    unfold foreach_more, KCDATA_ITER_FOREACH_FAILED, bind. by rewrite Hv. }
  destruct (as_item h a B HB) as (Hk & E & Hat); [lia|lia|]. cbv zeta in *.
  destruct (item_reads _ _ _ Hat) as (Ht & _ & _). cbn [k_type] in Ht. pose proof (item_valid _ _ _ Hat) as Hv.
  destruct (Z.eqb_spec (word (take 4 B)) KCDATA_TYPE_BUFFER_END) as [Ee|Ee].
  - unfold foreach_more, KCDATA_ITER_FOREACH_FAILED, bind. fold it in Hv, Ht. rewrite Hv. cbn [negb]. rewrite Ht, Ee. by rewrite Z.eqb_refl.
  - split; [done|]. split; [done|]. eexists. split; [exact E|]. by rewrite <- surjective_pairing.
Qed.

(** The iterators of the loop with the items they point to, and where it ends. *)
Fixpoint visited (a e : Z) (l : list kitem) : list (kcdata_iter_t * kitem) :=
  match l with [] => [] | k :: l => (mkIter a e, k) :: visited (a + 16 + k_size k) e l end.
Fixpoint stop (a e : Z) (l : list kitem) : kcdata_iter_t :=
  match l with [] => mkIter a e | k :: l => stop (a + 16 + k_size k) e l end.

(** The first item for which the body leaves the loop. *)
Fixpoint first_hit {A} (g : kcdata_iter_t -> kitem -> option A) (l : list (kcdata_iter_t * kitem)) : option (kcdata_iter_t * A) :=
  match l with
  | [] => None
  | (it, k) :: l => match g it k with Some x => Some (it, x) | None => first_hit g l end
  end.

Lemma buffer_tail h a k B : wf_item k -> buffer_at h a (enc_item k ++ B) -> buffer_at h (a + 16 + k_size k) B.
Proof.
  intros Hw [Hb Hok Ha Hhi]. pose proof (length_item k) as Hl. pose proof (k_size_nonneg k). rewrite bytes_at_app in Hb. destruct Hb as [_ Hb].
  rewrite Hl in Hb. rewrite length_app in Hhi. apply Forall_app in Hok as [_ Hok]. split; [|done|lia|lia].
  by replace (a + 16 + k_size k) with (a + (16 + k_size k)) by lia.
Qed.

Lemma visited_at h n : forall a B l ended, buffer_at h a B -> parse n B = (l, ended) ->
  Forall (fun v => item_at h v.1 v.2) (visited a (a + Z.of_nat (length B)) l).
Proof.
  induction n as [|n IH]; intros a B l ended HB Hp; [injection Hp as <- _; constructor|].
  pose proof (parse_step h a B n HB) as Hs. rewrite Hp in Hs. destruct l as [|k l]; [constructor|].
  destruct Hs as (Hat & _ & B' & -> & Hp'). cbn [visited]. constructor; [done|].
  replace (a + Z.of_nat (length (enc_item k ++ B'))) with (a + 16 + k_size k + Z.of_nat (length B'))
    by (rewrite length_app; pose proof (length_item k); lia).
  apply (IH _ _ _ ended); [|done]. apply (buffer_tail h a k B'); [apply Hat|done].
Qed.

Lemma stop_failed h n : forall a B l ended, (length B < n)%nat -> buffer_at h a B -> parse n B = (l, ended) ->
  KCDATA_ITER_FOREACH_FAILED H (stop a (a + Z.of_nat (length B)) l) h = Done (negb ended) h.
Proof.
  induction n as [|n IH]; intros a B l ended Hn HB Hp; [lia|].
  pose proof (parse_step h a B n HB) as Hs. rewrite Hp in Hs. destruct l as [|k l]; [by destruct Hs|].
  destruct Hs as (Hat & _ & B' & -> & Hp'). cbn [stop]. rewrite length_app in Hn. pose proof (length_item k).
  replace (a + Z.of_nat (length (enc_item k ++ B'))) with (a + 16 + k_size k + Z.of_nat (length B')) by (rewrite length_app; lia).
  pose proof (k_size_nonneg k). apply (IH _ _ _ ended); [lia| |done]. apply (buffer_tail h a k B'); [apply Hat|done].
Qed.

Lemma kc_foreach_run {A} h (body : kcdata_iter_t -> M mem (option A)) g fuel : forall a B l ended,
  (length B < fuel)%nat -> buffer_at h a B -> parse fuel B = (l, ended) ->
  (forall it k, (it, k) ∈ visited a (a + Z.of_nat (length B)) l -> body it h = Done (g it k) h) ->
  KCDATA_ITER_FOREACH H fuel body (mkIter a (a + Z.of_nat (length B))) h =
    Done (match first_hit g (visited a (a + Z.of_nat (length B)) l) with
          | Some (it, x) => (it, Some x)
          | None => (stop a (a + Z.of_nat (length B)) l, None)
          end) h.
Proof.
  induction fuel as [|n IH]; intros a B l ended Hn HB Hp Hbody; [lia|].
  pose proof (parse_step h a B n HB) as Hs. rewrite Hp in Hs. cbn [KCDATA_ITER_FOREACH]. destruct l as [|k l].
  { destruct Hs as [Hm _]. unfold bind. by rewrite Hm. }
  destruct Hs as (Hat & Hne & B' & -> & Hp'). cbn [visited stop first_hit] in *.
  assert (Hm : foreach_more H (mkIter a (a + Z.of_nat (length (enc_item k ++ B')))) h = Done true h).
  { unfold foreach_more, bind, ret. rewrite (item_valid _ _ _ Hat). cbn [negb]. rewrite (proj1 (item_reads _ _ _ Hat)).
    by rewrite (proj2 (Z.eqb_neq _ _)). }
  unfold bind. rewrite Hm. cbn [negb]. rewrite (Hbody _ _ ltac:(by left)).
  destruct (g _ k) as [x|]; [done|]. rewrite (item_next _ _ _ Hat). cbn [item end_].
  rewrite length_app in Hn. pose proof (length_item k). pose proof (k_size_nonneg k).
  replace (a + Z.of_nat (length (enc_item k ++ B'))) with (a + 16 + k_size k + Z.of_nat (length B')) in * by (rewrite length_app; lia).
  apply (IH _ _ _ ended); [lia| |done|by intros; apply Hbody; right]. apply (buffer_tail h a k B'); [apply Hat|done].
Qed.

(** More fuel changes nothing. *)
Lemma parse_fuel n : forall m B, (length B < n)%nat -> (length B < m)%nat -> parse n B = parse m B.
Proof.
  induction n as [|n IH]; intros m B Hn Hm; [lia|]. destruct m as [|m]; [lia|]. cbn [parse].
  destruct (Z.ltb_spec (Z.of_nat (length B)) 16) as [Hl|Hl]; [done|].
  destruct (_ <? 16 + _); [done|]. destruct (_ =? _); [done|]. rewrite (IH m); [done| |]; rewrite length_drop; lia.
Qed.

Lemma first_hit_find type (l : list (kcdata_iter_t * kitem)) :
  first_hit (fun it k => if k_kind k =? type then Some it else None) l =
  match List.find (fun v => k_kind v.2 =? type) l with Some v => Some (v.1, v.1) | None => None end.
Proof. induction l as [|[it k] l IH]; [done|]. cbn [first_hit List.find fst snd]. by destruct (k_kind k =? type). Qed.

End Spec.

(** C35. On every buffer below the last 4 GiB of the address space, whatever its
    bytes are, the loop over its items ends without leaving the buffer and
    visits exactly the items the parser finds, in order, until the body
    leaves it; [KCDATA_ITER_FOREACH_FAILED] then tells whether the end marker
    is missing; [kcdata_iter_find_type] gives the first item of a type, or the
    invalid iterator.  Every item visited lies in the buffer.  And items
    written one behind the other with an end marker are found again, whatever
    follows them. *)
Theorem kcdata_walk (H : host) (h : mem) (a : Z) (B : list Z) (fuel : nat) :
  buffer_at h a B -> (length B < fuel)%nat ->
  let start := kcdata_iter a (Z.of_nat (length B)) in
  let items := fst (parse_buffer H B) in
  let places := visited a (end_ start) items in
  (forall A (body : kcdata_iter_t -> M mem (option A)) (g : kcdata_iter_t -> kitem -> option A),
    (forall it k, (it, k) ∈ places -> body it h = Done (g it k) h) ->
    KCDATA_ITER_FOREACH H fuel body start h =
      Done (match first_hit g places with Some (it, x) => (it, Some x) | None => (stop a (end_ start) items, None) end) h) /\
  KCDATA_ITER_FOREACH_FAILED H (stop a (end_ start) items) h = Done (negb (snd (parse_buffer H B))) h /\
  (forall type, kcdata_iter_find_type H fuel start type h =
    Done (match List.find (fun v => k_kind v.2 =? type) places with Some v => v.1 | None => kcdata_invalid_iter end) h) /\
  Forall (fun v => item_at H h v.1 v.2) places /\
  (forall l rest, Forall wf_item l -> Forall (fun k => k_type k <> KCDATA_TYPE_BUFFER_END) l ->
    parse_buffer H (concat (map (enc_item H) l) ++ enc_end H ++ rest) = (l, true)).
Proof.
  intros HB Hf start items places. pose proof HB as [Hb Hok Ha Hhi].
  assert (Es : start = mkIter a (a + Z.of_nat (length B))) by (unfold start, kcdata_iter; by rewrite wrap64_small by lia).
  assert (Ep : parse H fuel B = (items, snd (parse_buffer H B))).
  { unfold items. rewrite <- surjective_pairing. apply parse_fuel; lia. }
  unfold places. clear places. rewrite Es. cbn [end_].
  assert (Hloop : forall A (body : kcdata_iter_t -> M mem (option A)) g,
    (forall it k, (it, k) ∈ visited a (a + Z.of_nat (length B)) items -> body it h = Done (g it k) h) ->
    KCDATA_ITER_FOREACH H fuel body (mkIter a (a + Z.of_nat (length B))) h =
    Done (match first_hit g (visited a (a + Z.of_nat (length B)) items) with
          | Some (it, x) => (it, Some x) | None => (stop a (a + Z.of_nat (length B)) items, None) end) h).
  { intros A body g Hbody. by apply (kc_foreach_run H h body g fuel a B items (snd (parse_buffer H B))). }
  pose proof (visited_at H h fuel a B items _ HB Ep) as Hat.
  split; [exact Hloop|]. split; [by apply (stop_failed H h fuel)|]. split; [|split; [done|]].
  - intros type. unfold kcdata_iter_find_type, bind.
    rewrite (Hloop _ _ (fun it k => if k_kind k =? type then Some it else None)).
    + rewrite first_hit_find. by destruct (List.find _ _).
    + intros it k Hin. rewrite List.Forall_forall in Hat. specialize (Hat _ (proj1 (list_elem_of_In _ _) Hin)).
      unfold ret. by rewrite (iter_type_reads H h it k Hat).
  - intros l rest Hw Ht. apply parse_encoded; [|done|done]. rewrite !length_app. unfold enc_end. rewrite length_header.
    assert (length l <= length (concat (map (enc_item H) l)))%nat; [|lia].
    clear. induction l as [|k l IH]; [done|]. cbn [map concat length]. rewrite length_app. pose proof (length_item H k).
    pose proof (k_size_nonneg k). lia.
Qed.

(** The example of the manifesto. *)
Definition example_bytes : list Z := [
  0x57; 0xf1; 0xad; 0xde; 0; 0; 0; 0; 0; 0; 0; 0; 0; 0; 0; 0;
  0x01; 0; 0; 0; 0; 0; 0; 0; 0x30; 0; 0; 0; 0; 0; 0; 0;
  0x50; 0x49; 0x44; 0; 0; 0; 0; 0; 0; 0; 0; 0; 0; 0; 0; 0;
  0; 0; 0; 0; 0; 0; 0; 0; 0; 0; 0; 0; 0; 0; 0; 0;
  0x9c; 0; 0; 0; 0; 0; 0; 0; 0; 0; 0; 0; 0; 0; 0; 0;
  0x01; 0; 0; 0; 0; 0; 0; 0; 0x30; 0; 0; 0; 0; 0; 0; 0;
  0x50; 0x41; 0x52; 0x45; 0x4e; 0x54; 0x20; 0x50; 0x49; 0x44; 0; 0; 0; 0; 0; 0;
  0; 0; 0; 0; 0; 0; 0; 0; 0; 0; 0; 0; 0; 0; 0; 0;
  0x01; 0; 0; 0; 0; 0; 0; 0; 0; 0; 0; 0; 0; 0; 0; 0;
  0xed; 0x58; 0x91; 0xf1].
Definition mem_of (a : Z) (B : list Z) : mem := list_to_map (imap (fun i b => (a + Z.of_nat i, b)) B).
Definition x86_host : host := mkHost false true.

Lemma example_buffer : buffer_at (mem_of 4096 example_bytes) 4096 example_bytes.
Proof.
  split; [vm_compute; tauto| |lia|vm_compute; discriminate].
  apply List.Forall_forall. intros b Hb. assert (E : forallb (fun b => (0 <=? b) && (b <? 256)) example_bytes = true) by (vm_compute; reflexivity).
  rewrite forallb_forall in E. specialize (E b Hb). unfold is_byte. lia.
Qed.

(** The first item is found, but the text that follows it is taken for items,
    and the walk fails at a header that is not complete. *)
Lemma kcdata_walk_witness :
  let start := kcdata_iter 4096 148 in
  let h := mem_of 4096 example_bytes in
  kcdata_iter_find_type x86_host 200 start KCDATA_TYPE_STRING_DESC h = Done (mkIter 4112 4244) h /\
  (exists it, KCDATA_ITER_FOREACH x86_host 200 (fun _ => ret (None (A := unit))) start h = Done (it, None) h /\
    KCDATA_ITER_FOREACH_FAILED x86_host it h = Done true h).
Proof.
  destruct (kcdata_walk x86_host (mem_of 4096 example_bytes) 4096 example_bytes 200 example_buffer) as (Hloop & Hfail & Hfind & _);
    [vm_compute; lia|].
  assert (El : Z.of_nat (length example_bytes) = 148) by (vm_compute; reflexivity). rewrite El in *. cbv zeta in *.
  split.
  - rewrite Hfind. by f_equal; vm_compute.
  - exists (stop 4096 4244 (fst (parse_buffer x86_host example_bytes))). split.
    + rewrite (Hloop unit _ (fun _ _ => None)) by (by intros). by f_equal; vm_compute.
    + change (end_ (kcdata_iter 4096 148)) with 4244 in Hfail. rewrite Hfail. by f_equal; vm_compute.
Defined.

(** ** Sizes in descriptions *)

Lemma pack_fields size count : 0 <= size < 2 ^ 16 -> 0 <= count < 2 ^ 16 ->
  let v := Z.lor (Z.shiftl (Z.land count 0xffff) 16) (Z.land size 0xffff) in
  Z.land v 0xffff = size /\ Z.land (Z.shiftr v 16) 0xffff = count /\ Z.shiftr (Z.land v 0xffff0000) 16 = count.
Proof.
  intros Hs Hc v. assert (L : forall z, Z.land z 0xffff = z mod 2 ^ 16) by (intros z; exact (Z.land_ones z 16 ltac:(lia))).
  assert (E : v = count * 2 ^ 16 + size).
  { unfold v. rewrite !L, !Z.mod_small, Z.shiftl_mul_pow2 by lia. by apply (lor_fields _ count size 16). }
  assert (E2 : Z.land (Z.shiftr v 16) 0xffff = count).
  { rewrite L, Z.shiftr_div_pow2, E, Z.div_add_l, (Z.div_small size) by lia. by rewrite Z.add_0_r, Z.mod_small. }
  split; [|split; [done|]].
  - rewrite L, E, Z.add_comm, Z.mod_add, Z.mod_small by lia. done.
  - rewrite Z.shiftr_land. exact E2.
Qed.

Lemma elem_size_roundtrip d size count : 0 <= size < 2 ^ 32 -> 0 <= count -> let r := kcs_set_elem_size d size count in
  (count <= 1 -> kcs_flags d = KCS_SUBTYPE_FLAGS_NONE -> fst r = 0 /\ kcs_get_elem_size (snd r) = size /\ kcs_get_elem_count (snd r) = 1) /\
  (1 < count -> kcs_flags d = KCS_SUBTYPE_FLAGS_ARRAY ->
    if (size <=? 0xffff) && (count <=? 0xffff) then
      fst r = 0 /\ kcs_get_elem_size (snd r) = size * count /\ kcs_get_elem_count (snd r) = count
    else r = (-1, d)).
Proof.
  intros Hs Hc r. unfold r, kcs_set_elem_size, kcs_get_elem_size, kcs_get_elem_count. split; intros Hc1 Hf.
  - rewrite (proj2 (Z.ltb_ge 1 count)) by lia. cbn [fst snd set_kcs_elem_size kcs_flags kcs_elem_size]. by rewrite Hf.
  - rewrite (proj2 (Z.ltb_lt 1 count)), !Z.ltb_antisym by lia.
    destruct (Z.leb_spec size 0xffff), (Z.leb_spec count 0xffff); cbn [andb orb negb]; try done.
    cbn [fst snd set_kcs_elem_size kcs_flags kcs_elem_size]. rewrite Hf.
    destruct (pack_fields size count) as (E1 & E2 & E3); [lia|lia|]. cbv zeta in E1, E2, E3.
    change (negb (Z.land KCS_SUBTYPE_FLAGS_ARRAY KCS_SUBTYPE_FLAGS_ARRAY =? 0)) with true. cbv iota. rewrite E1, E2, E3.
    rewrite wrap32_small by nia. done.
Qed.

(** An item without data in front of other bytes. *)
Definition empty_item : kitem := mkItem 1 0 [].
Definition empty_mem : mem := mem_of 4096 (enc_item x86_host empty_item ++ replicate 32 0).

Lemma empty_item_at : item_at x86_host empty_mem (mkIter 4096 4112) empty_item.
Proof.
  split; [split; [vm_compute; split; discriminate || done|done|vm_compute; split; discriminate || done|constructor]| | | |]; try (vm_compute; discriminate).
  vm_compute. tauto.
Qed.

(** C36. On an item that was visited every accessor returns, reads nothing
    outside of the buffer and agrees with its header.  The size it reports is
    at most the size of the data, with the legacy sizes and the padding taken
    off; an array that passes the check has all its elements in the data, a
    container its type, data with a description a terminated description of
    32 bytes and at least [minsize] bytes behind it, for a [minsize] below
    2^32 - 32; a string that is returned ends in the data.  Above that limit
    the check computes at 32 bits and accepts data that is shorter.  A size
    stored in a description is read back as it was given. *)
Theorem kcdata_accessors (H : host) (h : mem) (it : kcdata_iter_t) (k : kitem) : item_at H h it k ->
  (kcdata_iter_valid H it h = Done true h /\
   kcdata_iter_next H it h = Done (mkIter (item it + 16 + k_size k) (end_ it)) h /\
   kcdata_iter_type H it h = Done (k_kind k) h /\ kcdata_iter_flags H it h = Done (k_flags k) h) /\
  (exists s, kcdata_iter_size H it h = Done s h /\ 0 <= s <= k_size k) /\
  (exists b : bool, kcdata_iter_array_valid H it h = Done b h /\
    (b = true -> k_kind k = KCDATA_TYPE_ARRAY /\
      exists es, kcdata_iter_array_elem_size H it h = Done es h /\ 0 <= es /\ k_count k * es <= k_size k)) /\
  (exists b : bool, kcdata_iter_container_valid H it h = Done b h /\
    (b = true -> k_kind k = KCDATA_TYPE_CONTAINER_BEGIN /\
      kcdata_iter_container_type H it h = Done (word H (take 4 (k_data k))) h /\ kcdata_iter_container_id H it h = Done (k_flags k) h)) /\
  (forall minsize, 0 <= minsize < 2 ^ 32 - 32 ->
    exists b : bool, kcdata_iter_data_with_desc_valid H it minsize h = Done b h /\
    (b = true -> k_data k !! 31%nat = Some 0 /\
      exists n, kcdata_iter_get_data_with_desc H it true true true h =
          Done (Some (kcdata_iter_payload it), Some (kcdata_iter_payload it + 32), Some n) h /\
        minsize <= n /\ 32 + n <= k_size k)) /\
  (forall off, 0 <= off < 2 ^ 32 -> exists p, kcdata_iter_string H it off h = Done p h /\
    (p = NULL \/ p = kcdata_iter_payload it + off /\ exists n, k_data k !! n = Some 0 /\ off <= Z.of_nat n)) /\
  (exists h it k, item_at x86_host h it k /\ k_size k = 0 /\
    kcdata_iter_data_with_desc_valid x86_host it (2 ^ 32 - 32) h = Done true h) /\
  (forall d size count, 0 <= size < 2 ^ 32 -> 0 <= count -> let r := kcs_set_elem_size d size count in
    (count <= 1 -> kcs_flags d = KCS_SUBTYPE_FLAGS_NONE -> fst r = 0 /\ kcs_get_elem_size (snd r) = size /\ kcs_get_elem_count (snd r) = 1) /\
    (1 < count -> kcs_flags d = KCS_SUBTYPE_FLAGS_ARRAY ->
      if (size <=? 0xffff) && (count <=? 0xffff) then
        fst r = 0 /\ kcs_get_elem_size (snd r) = size * count /\ kcs_get_elem_count (snd r) = count
      else r = (-1, d))).
Proof.
  intros Hit. split.
  { split_and!; [by eapply item_valid|by eapply item_next|by eapply iter_type_reads|by eapply item_reads]. }
  split; [by eapply size_reads|]. split; [by eapply array_reads|]. split; [by eapply container_reads|].
  split; [intros; by eapply desc_reads|]. split; [intros; by eapply string_reads|]. split.
  - exists empty_mem, (mkIter 4096 4112), empty_item. split; [exact empty_item_at|]. split; [done|]. vm_compute. reflexivity.
  - apply elem_size_roundtrip.
Qed.

Lemma kcdata_accessors_witness :
  kcdata_iter_type x86_host (mkIter 4096 4112) empty_mem = Done KCDATA_TYPE_STRING_DESC empty_mem /\
  exists b : bool, kcdata_iter_data_with_desc_valid x86_host (mkIter 4096 4112) 8 empty_mem = Done b empty_mem /\ b = false.
Proof.
  destruct (kcdata_accessors x86_host empty_mem (mkIter 4096 4112) empty_item empty_item_at)
    as ((_ & _ & Ht & _) & _ & _ & _ & Hd & _).
  split; [exact Ht|]. destruct (Hd 8) as (b & Hb & Hs); [lia|]. exists b. split; [exact Hb|].
  destruct b; [|reflexivity]. destruct Hs as [Hs _]; [reflexivity|]. discriminate Hs.
Defined.

End KCDataSpec.
