(* ===== verification/Kmod.v ===== *)
(** * Kmod: entry points of a kernel module,
    [src/MacKernelSDK/Library/kmod]

    Module [Kmod] has the start and stop routines every kext is linked with:
    the C pair and the pair for kexts with C++ constructors.  The kext's own
    routines and the C++ runtime of the kernel are parameters, of which nothing
    is assumed: the theorem is about which of them run, in which order and with
    whose result. *)

From Stdlib Require Import ZArith Lia Bool List String.
From stdpp Require Import base list option.
From S2P Require Import Prelude.
Import ListNotations.
Open Scope Z_scope.

Module Kmod.

Definition KERN_SUCCESS : Z := 0.

(** The fields of [kmod_info_t] that are plain data. *)
Record kmod_info : Type := mkInfo {
  info_version : Z;
  id : Z;
  name : string;
  version : string;
  reference_count : Z;
  address : Z;
  size : Z;
  hdr_size : Z
}.

Definition OSKextGetCurrentIdentifier (KMOD_INFO_NAME : kmod_info) : string := name KMOD_INFO_NAME.
Definition OSKextGetCurrentVersionString (KMOD_INFO_NAME : kmod_info) : string := version KMOD_INFO_NAME.
Definition OSKextGetCurrentLoadTag (KMOD_INFO_NAME : kmod_info) : Z := wrap32 (id KMOD_INFO_NAME).

Section Entry.
(** The state of the kernel and the data pointer the kernel passes. *)
Context {St D : Type}.
Abbreviation entry := (kmod_info -> D -> M St Z).
(** [_realmain] and [_antimain]: null or the kext's routine; the runtime. *)
Context (_realmain _antimain : option entry).
Context (OSRuntimeInitializeCPP OSRuntimeFinalizeCPP : entry).

(** [c_start.c] and [c_stop.c] *)
Definition c_start (ki : kmod_info) (data : D) : M St Z :=
  match _realmain with Some f => f ki data | None => ret KERN_SUCCESS end.
Definition c_stop (ki : kmod_info) (data : D) : M St Z :=
  match _antimain with Some f => f ki data | None => ret KERN_SUCCESS end.

(** [cplus_start.c] *)
Definition cplus_start (ki : kmod_info) (data : D) : M St Z :=
  result <- OSRuntimeInitializeCPP ki data ;;
  match _realmain with
  | Some f =>
    if result =? KERN_SUCCESS then
      result <- f ki data ;;
      (if negb (result =? KERN_SUCCESS) then OSRuntimeFinalizeCPP ki data ;;; ret tt else ret tt) ;;;
      ret result
    else ret result
  | None => ret result
  end.

(** [cplus_stop.c] *)
Definition cplus_stop (ki : kmod_info) (data : D) : M St Z :=
  result <- (match _antimain with Some f => f ki data | None => ret KERN_SUCCESS end) ;;
  if result =? KERN_SUCCESS then OSRuntimeFinalizeCPP ki data else ret result.

End Entry.

(** ** Which routines run, and in which order

    Nothing is assumed of the runtime or of the kext: each routine is run with
    a record of its calls and their results added to the state. *)

(** A call that returned, with its result. *)
Inductive call : Type := CInit (r : Z) | CMain (r : Z) | CAnti (r : Z) | CFini (r : Z).

Section Trace.
Context {St D : Type}.
Abbreviation entry := (kmod_info -> D -> M St Z).
Implicit Types (ki : kmod_info) (data : D) (s : St).

Definition logged (c : Z -> call) (f : entry) : kmod_info -> D -> M (St * list call) Z := fun ki data st =>
  match f ki data (fst st) with
  | Done r s' => Done r (s', snd st ++ [c r])
  | Fault s' => Fault (s', snd st)
  end.

(** Forgetting the record. *)
Definition erase (x : outcome (St * list call) Z) : outcome St Z :=
  match x with Done r st => Done r (fst st) | Fault st => Fault (fst st) end.

(** The C++ world of a kext: [Up] once its constructors ran and no tear-down
    was attempted.  The kext's routines may only run while it is up, and only a
    world that is up is torn down. *)
Inductive phase : Type := Down | Up.
Definition phase_step (ph : phase) (c : call) : option phase :=
  match ph, c with
  | Down, CInit r => Some (if r =? KERN_SUCCESS then Up else Down)
  | Up, (CMain _ | CAnti _) => Some Up
  | Up, CFini _ => Some Down
  | _, _ => None
  end.
Fixpoint phase_run (ph : phase) (t : list call) : option phase :=
  match t with
  | [] => Some ph
  | c :: t' => match phase_step ph c with Some ph' => phase_run ph' t' | None => None end
  end.

(** The calls of a start that returns [r], and of a stop. *)
Definition start_calls (main : option entry) (r : Z) (t : list call) : Prop :=
  (t = [CInit r] /\ (r = KERN_SUCCESS -> main = None)) \/
  (t = [CInit KERN_SUCCESS; CMain r] /\ main <> None /\ r = KERN_SUCCESS) \/
  (exists e, t = [CInit KERN_SUCCESS; CMain r; CFini e] /\ main <> None /\ r <> KERN_SUCCESS).
Definition stop_calls (anti : option entry) (r : Z) (t : list call) : Prop :=
  (t = [CFini r] /\ anti = None) \/
  (t = [CAnti r] /\ anti <> None /\ r <> KERN_SUCCESS) \/
  (t = [CAnti KERN_SUCCESS; CFini r] /\ anti <> None).

(** Where a routine that faults leaves the state. *)
Definition faults_at (fs : list entry) ki data s' : Prop :=
  exists f s0, In f fs /\ f ki data s0 = Fault s'.

(** A run with the record: it is the run without it; when it returns, the calls
    satisfy [P]; when it does not, one of the routines faulted. *)
Definition traced (fs : list entry) ki data (P : Z -> list call -> Prop) (t0 : list call)
    (plain : outcome St Z) (x : outcome (St * list call) Z) : Prop :=
  plain = erase x /\
  match x with
  | Done r (_, l) => exists t, l = t0 ++ t /\ P r t
  | Fault (s', l) => faults_at fs ki data s' /\ exists t, l = t0 ++ t
  end.

Lemma start_phase main r t : start_calls main r t ->
  phase_run Down t = Some (if r =? KERN_SUCCESS then Up else Down).
Proof.
  intros [(-> & _)|[(-> & _ & ->)|(e & -> & _ & H)]]; simpl; [by destruct (r =? KERN_SUCCESS)|done|].
  by rewrite (proj2 (Z.eqb_neq _ _) H).
Qed.

Lemma stop_phase anti r t : stop_calls anti r t ->
  phase_run Up t = Some Down /\ (forall e, In (CAnti e) t -> e = KERN_SUCCESS) \/
  phase_run Up t = Some Up /\ t = [CAnti r] /\ r <> KERN_SUCCESS.
Proof.
  intros [(-> & _)|[(-> & _ & H)|(-> & _)]]; simpl; [left|right|left]; split; auto; intros e.
  - by intros [|[]].
  - by intros [[= ->]|[|[]]].
Qed.

Lemma cplus_start_traced main (init fini : entry) ki data s t0 :
  traced (init :: fini :: from_option (fun f => [f]) [] main) ki data (start_calls main) t0
    (cplus_start main init fini ki data s)
    (cplus_start (logged CMain <$> main) (logged CInit init) (logged CFini fini) ki data (s, t0)).
Proof.
  unfold cplus_start, bind, logged. simpl. destruct (init ki data s) as [r s1|s1] eqn:Ei; simpl.
  2: { split; [done|]. split; [exists init, s; by simpl; auto|]. exists []. by rewrite app_nil_r. }
  destruct main as [f|]; simpl; [|by split; [done|exists [CInit r]; split; [done|left]]].
  destruct (Z.eqb_spec r KERN_SUCCESS) as [->|Hr]; [|split; [done|]; exists [CInit r]; split; [done|by left]].
  unfold bind. simpl. destruct (f ki data s1) as [r2 s2|s2] eqn:Em; simpl.
  2: { split; [done|]. split; [exists f, s1; by simpl; auto|]. by exists [CInit KERN_SUCCESS]. }
  destruct (Z.eqb_spec r2 KERN_SUCCESS) as [->|Hr2]; simpl.
  { split; [done|]. exists [CInit KERN_SUCCESS; CMain KERN_SUCCESS]. rewrite <- app_assoc. split; [done|]. right. by left. }
  unfold bind. simpl. destruct (fini ki data s2) as [e s3|s3] eqn:Ef; simpl.
  - split; [done|]. exists [CInit KERN_SUCCESS; CMain r2; CFini e]. rewrite <- !app_assoc. split; [done|].
    right. right. by exists e.
  - split; [done|]. split; [exists fini, s2; by simpl; auto|]. exists [CInit KERN_SUCCESS; CMain r2].
    by rewrite <- app_assoc.
Qed.

Lemma cplus_stop_traced anti (fini : entry) ki data s t0 :
  traced (fini :: from_option (fun f => [f]) [] anti) ki data (stop_calls anti) t0
    (cplus_stop anti fini ki data s)
    (cplus_stop (logged CAnti <$> anti) (logged CFini fini) ki data (s, t0)).
Proof.
  unfold cplus_stop, bind, logged. simpl. destruct anti as [f|]; simpl.
  - destruct (f ki data s) as [r s1|s1] eqn:Ea; simpl.
    2: { split; [done|]. split; [exists f, s; by simpl; auto|]. exists []. by rewrite app_nil_r. }
    destruct (Z.eqb_spec r KERN_SUCCESS) as [->|Hr].
    2: { split; [done|]. exists [CAnti r]. split; [done|]. right. by left. }
    simpl. destruct (fini ki data s1) as [e s2|s2] eqn:Ef; simpl.
    + split; [done|]. exists [CAnti KERN_SUCCESS; CFini e]. rewrite <- app_assoc. split; [done|]. right. by right.
    + split; [done|]. split; [exists fini, s1; by simpl; auto|]. by exists [CAnti KERN_SUCCESS].
  - destruct (fini ki data s) as [e s2|s2] eqn:Ef; simpl.
    + split; [done|]. exists [CFini e]. split; [done|]. by left.
    + split; [done|]. split; [exists fini, s; by simpl; auto|]. exists []. by rewrite app_nil_r.
Qed.

Lemma traced_mono fs ki data (P Q : Z -> list call -> Prop) t0 plain x :
  (forall r t, P r t -> Q r t) -> traced fs ki data P t0 plain x -> traced fs ki data Q t0 plain x.
Proof. intros H [E Hx]. split; [done|]. destruct x as [r [s' l]|]; [|done]. destruct Hx as (t & El & Ht). eauto. Qed.

(** C32. The entry points run the routines in the right order, whatever the
    kernel's C++ runtime and the kext's own routines do.  A start that returns
    has initialised the runtime first, called the start routine only if that
    succeeded, finalised exactly once if the start routine then failed and
    never otherwise, and returned the result of the last of the two that ran
    (the tear-down's own result is dropped).  A stop asks the stop routine
    first; if it refuses, its code is returned and nothing is torn down, and
    otherwise the runtime is finalised exactly once and its result returned.
    So a world torn down is never entered and one that is up never initialised
    or left half-built: start ends up exactly when it returns success.  A
    fault is a fault of one of the routines.  Without C++ the entry points are
    the kext's own routines, or succeed when it has none. *)
Theorem entry_points (main anti : option entry) (init fini : entry) ki data s t0 :
  traced (init :: fini :: from_option (fun f => [f]) [] main) ki data
    (fun r t => start_calls main r t /\ phase_run Down t = Some (if r =? KERN_SUCCESS then Up else Down)) t0
    (cplus_start main init fini ki data s)
    (cplus_start (logged CMain <$> main) (logged CInit init) (logged CFini fini) ki data (s, t0)) /\
  traced (fini :: from_option (fun f => [f]) [] anti) ki data
    (fun r t => stop_calls anti r t /\
       (phase_run Up t = Some Down /\ (forall e, In (CAnti e) t -> e = KERN_SUCCESS) \/
        phase_run Up t = Some Up /\ t = [CAnti r] /\ r <> KERN_SUCCESS)) t0
    (cplus_stop anti fini ki data s)
    (cplus_stop (logged CAnti <$> anti) (logged CFini fini) ki data (s, t0)) /\
  (c_start (St := St) None ki data s = Done KERN_SUCCESS s /\ c_stop (St := St) None ki data s = Done KERN_SUCCESS s) /\
  (forall f : entry, c_start (Some f) ki data s = f ki data s /\ c_stop (Some f) ki data s = f ki data s).
Proof.
  split; [|split; [|done]].
  - eapply traced_mono; [|apply cplus_start_traced]. intros r t H. split; [done|by eapply start_phase].
  - eapply traced_mono; [|apply cplus_stop_traced]. intros r t H. split; [done|by eapply stop_phase].
Qed.

End Trace.

(** A start routine that fails is followed by the tear-down, whose own failure
    is not seen; a stop routine that refuses keeps the runtime. *)
Definition demo_info : kmod_info := mkInfo 1 7 "XePCI"%string "1.0"%string 0 0 0 0.
Definition answers (r : Z) (_ : kmod_info) (_ : unit) : M unit Z := ret r.

Example failed_start :
  cplus_start (Some (logged CMain (answers 5))) (logged CInit (answers 0)) (logged CFini (answers 9)) demo_info tt (tt, [])
  = Done 5 (tt, [CInit 0; CMain 5; CFini 9]) /\
  cplus_stop (Some (logged CAnti (answers 6))) (logged CFini (answers 0)) demo_info tt (tt, []) = Done 6 (tt, [CAnti 6]).
Proof. split; reflexivity. Qed.

End Kmod.
